(* ===== verification/_CoqProject ===== *)
-Q . S2P
Prelude.v
GoText.v
Float64.v
Pii.v
Mask.v
Strategies.v
Keywords.v
Regexp.v
RegexpSyntax.v
Pipeline.v
Dict.v
TextUtil.v
Tokens.v
Validators.v
Labels.v
Rules.v
RulesSound.v
RulesYaml.v
DateWord.v
Cardholder.v
Citizenship.v
Issuer.v
NameDict.v
NamesLatin.v
Names.v
NamesSound.v
Cities.v
Birthplace.v
Address.v
AddressSound.v
Synth.v
Synthetic.v
Gen.v
GenSound.v
Crypto.v
Store.v
Cleaner.v
Chunk.v
Engine.v
Main.v
System.v
Safety.v
Config.v
Http.v
Chat.v
Service.v
Slots.v
RequestLog.v
Program.v
Loadtest.v
Contract.v
