(* ===== verification/Prelude.v ===== *)
(** * pdn-shield: verification of the masking service

    pdn-shield finds personal data in a text, replaces it, keeps what it replaced in an
    encrypted store, and puts it back on request. It is an HTTP service: an
    authenticated system sends a payload or a chat, the text is masked, the masked text
    goes out (to the caller, or to a language model upstream), and the answer can be
    unmasked under the same id. This development models the Go code under [src/] and
    proves what the service promises, from the bytes of a text up to the replies of
    concurrent requests.

    ** How the parts fit together

    A request ([httpapi]) is admitted for a configured system ([config]) and calls the
    engine ([engine]); the engine detects spans of personal data ([pii] and its
    detectors), replaces them with a strategy ([mask], [synth]) and saves a record of
    the replacements ([store], encrypted by [crypto]). Each interface of the code is an
    interface here:
    - a strategy is a [Mask.Strategy]; clients assume [NonEmptyStrategy], which every
      strategy of the code is proved to satisfy;
    - a store is a [Store.StoreImpl]: an implementation together with its simulation by
      the abstract contract [spec_call]; the in-memory and the Redis store are
      instances, so each theorem about the engine or the service holds over both;
    - a detector is a [Pii.Detector]; clients assume that its spans lie in the text
      ([Chunk.pipeline_ok]), which [Main] proves of all detectors of the program;
    - what the code takes from Go's libraries or from outside ([SliceSort], [Unicode],
      [Rng], [Aead], [Hmac], [Codec], [Sha256], [MapRange], [RedisServer], the JSON
      decoders, the upstream model, clock, network and random source) is a class or an
      argument with its documented laws, and has a concrete instance on which the
      examples and witnesses run.

    ** Files

    - [Prelude]: byte strings and literals, outcomes of a Go call ([Ret], [Err],
      [Panic]), loops that may panic, list lemmas, [sort.Slice].
    - [GoText], [Float64]: what the code uses of [strings], [unicode], [utf8],
      [strconv] and [float64] comparison.
    - [Regexp], [RegexpSyntax]: package [regexp]: leftmost-first matching with groups and
      [FindAll], and [Compile] for the patterns of the program.
    - [Pii]: [internal/pii/types.go], [detector.go], [resolve.go]. [Pipeline]:
      [pipeline.go]. [Keywords]: the keyword search that [pipeline.go] and [regex.go]
      each contain.
    - The detectors ([internal/pii/detectors]): [TextUtil] ([textutil.go]), [Tokens]
      ([tokenize] of [names_tokens.go]), [Labels] (the context functions of [regex.go]),
      [Rules] and [RulesSound] ([regex.go]), [RulesYaml] ([rules.yaml], entry by entry),
      [DateWord] ([dateword.go]), [Cardholder] ([cardholder.go]), [Citizenship]
      ([citizenship.go]), [Issuer] ([issuer.go]), [NameDict] ([names_tokens.go]),
      [NamesLatin] ([names_latin.go]), [Names] and [NamesSound] ([names.go]),
      [Birthplace] ([birthplace.go]), [Cities], [Address] and [AddressSound]
      ([address.go]). [Main]: [default.go] and the engine of [cmd/pdn-shield/main.go].
    - [Mask]: [internal/mask/mask.go] ([Apply], [Restore]). [Strategies]: [token.go],
      [full.go], [partial.go], [servicewords.go]. [Synth]: [internal/synth/synth.go].
      [Dict]: the embedded word lists. [Synthetic]: [internal/mask/synthetic.go].
    - [Validators]: [internal/pii/detectors/validators.go].
    - [Crypto]: [internal/crypto/crypto.go]. [Store]: [internal/store/*.go];
      [Cleaner]: the life of the in-memory store, [cleanupLoop] and [Close].
    - [Chunk]: [internal/engine/chunk.go]. [Engine]: [engine.go], each operation a
      program ([prog]) that asks the store and the clock. [System]: schedules of
      concurrent operations, refinement between an implementation and the contract, a
      logic for programs among others ([wp]), executions of one operation, the
      first-writer argument ([keeps]) and termination ([finishes]). [Safety]: the
      theorems about the engine.
    - [Config]: [internal/config/config.go]. [Http]: [internal/httpapi/auth.go],
      [system.go], [handlers.go], [reqinfo.go] and the request path of [server.go].
      [Chat]: [chat.go] and [llm.go]. [Service]: routes, middleware and the theorems
      about the running service. [Slots]: the slots of [server.go] as a state machine.
      [RequestLog]: the request log of [server.go]. [Program]: the start of
      [cmd/pdn-shield/main.go] and the service that it starts.
    - The tools: [Gen] and [GenSound]: the test-data generator
      ([internal/pii/testdata/gen]). [Loadtest]: the load generator ([loadtest/main.go]).
      [Contract]: a round of the load generator against the program.

    ** What the theorems show

    - The service: what a reply has unmasked belongs to the authenticated system that
      asks and has the permission, and only masked contents go upstream, for the program
      as [main] starts it ([program_confidential]); the contract of [/process], a text
      masked and restored under one id, with all its conditions ([round_restores]);
      authentication is exactly its declared rule ([authentication_exact]); every request
      comes to an end, and to a reply if the detectors return on its texts and the
      upstream call returns ([service_answers]); no more requests run than configured, and no slot is lost
      ([inflight_bounded]); the log holds no text and no raw id ([request_log_strings]).
    - The engine, in every interleaving over any store: promises of all answers
      ([System_safe]), who sees whose data ([unmask_reveals_own], [foreign_is_hidden]),
      round trips ([mask_unmask_roundtrip], [batch_unmask_roundtrip],
      [Process_cycle]), first writer wins, records made in the run included
      ([Process_first_writer_wins]), and the race that [MaskEx] leaves open
      ([MaskEx_overwrites]).
    - The stores refine one contract ([Memory_implements_contract],
      [Redis_implements_contract]); one race is left ([Memory_Load_evicts_fresh]);
      one [Close] ends the cleanup ([Close_ends], [Close_returns]), two at once may panic
      ([Close_twice_panics]).
    - Masking: [Apply] masks every span and [Restore] undoes it; [Restore] is total and
      replaces only what it found; tokens are injective per document; the full and the
      digit strategies hide what they should, with the exceptions shown.
    - The program's own detectors and strategies: [main_engine_ok] discharges what the
      theorems about the engine assume, on the texts that [Main.plain] describes:
      valid UTF-8 whose letters keep their width in lower case, without two traps.
      Outside of them the engine can panic ([main_engine_panics]) or leave an address
      unmasked (example [birthplace_hides_address]). The embedded rules load, never panic, and
      report what passed all their checks ([default_rules_accept]). Of the detectors
      of words each returns on every text of its theorem, with spans of the shape its
      code promises: [tokenize_exact] (the cut into words is pinned), [cardholder_runs]
      (card holders are reported exactly where the rule says), [names_whole_words],
      [maiden_surname_extension], [addresses_in_text], [exception_nearest].
    - Detection: [Resolve] gives sorted disjoint spans and keeps the strongest; the
      pipeline returns spans in the text; the passport-date rule; windows of a large
      text cover it, overlap, and cut between runes.
    - Validators and generators: Luhn errors are detected, dates are calendar dates,
      generated numbers are valid; the generators' defects.
    - The tools: the labels of the generated corpus are exactly its values, and its
      numbers and dates pass the detectors' validators, a passport with the serial 000000
      apart ([generated_corpus]); the figures
      of the load report add up in every interleaving ([loadtest_counts]).
    - Configuration and upstream stream: [Validate_exact], [readSSE_reference].

    ** Conventions

    A Go [string] is a list of bytes; [int] values are [Z], as lengths and counts stay
    far below 64 bits; hashes and UUID bytes keep their width with masks. Code that
    indexes returns an [option], [None] being the run-time panic (a detector's too), and
    theorems say when it does not happen ([returns], with a database of hints). Loops that are not structural take fuel computed from the input
    (one unit per byte, rune or line), and theorems give totality. Goroutines of the
    detection write disjoint slots and are joined, so they run in order; requests
    interleave at each store call and clock reading. One call of a store is one step there;
    [Load] of the in-memory store takes its lock twice, and what can happen in between is
    [Memory_Load_evicts_fresh], outside of the theorems about interleavings. The upstream
    may never answer ([LLMClient]): then the call ends only by the client's timeout, and
    with the timeout 0, which the configuration accepts, it never does.

    ** Not modelled

    Stage timings and metrics; the static page, the HTTP mux and the transport; reading
    files and environment, listeners, signals and shutdown ([cmd]); YAML and JSON
    parsing. Of the tools: command lines, the dataset file, and the text of the report. *)

From stdpp Require Export prelude gmap list sorting.
From Stdlib Require Export ZArith Lia ZifyBool.
From Stdlib Require Export Strings.Byte.

#[global] Open Scope Z_scope.
#[global] Set Default Goal Selector "!".

(** ** Bytes and byte strings

    A Go [string] is an immutable sequence of bytes; [bytes] is that sequence.
    A literal in [go_scope] is the UTF-8 encoding of the quoted text, exactly as
    a Go string literal is. *)

Abbreviation byte := Byte.byte.
Abbreviation bytes := (list Byte.byte).

Record go_literal := GoLiteral { go_bytes : bytes }.

Definition go_literal_print (l : go_literal) : bytes := go_bytes l.

Declare Scope go_scope.
Delimit Scope go_scope with go.
String Notation go_literal GoLiteral go_literal_print : go_scope.
Coercion go_bytes : go_literal >-> list.
#[global] Open Scope go_scope.

(** [[]string{...}] *)
Definition strs (l : list go_literal) : list bytes := map go_bytes l.

#[export] Instance byte_eq_dec : EqDecision byte := Byte.byte_eq_dec.

#[export] Program Instance byte_countable : Countable byte :=
  inj_countable Byte.to_N Byte.of_N _.
Next Obligation. intros b. apply Byte.of_to_N. Qed.

(** ** Outcomes of a Go call

    A call returns a value, returns a non-nil error, or panics (an index or a
    slice bound out of range). *)

Inductive outcome (E A : Type) : Type :=
| Ret (a : A)
| Err (e : E)
| Panic.
Arguments Ret {E A} a.
Arguments Err {E A} e.
Arguments Panic {E A}.

Definition outcome_bind {E A B : Type} (f : A → outcome E B) (m : outcome E A) : outcome E B :=
  match m with
  | Ret a => f a
  | Err e => Err e
  | Panic => Panic
  end.

#[export] Instance outcome_mret {E : Type} : MRet (outcome E) := λ A a, Ret a.
#[export] Instance outcome_mbind {E : Type} : MBind (outcome E) := @outcome_bind E.

(** A computation that can only panic, run inside one that can also fail. *)
Definition no_panic {E A : Type} (o : option A) : outcome E A :=
  match o with
  | Some a => Ret a
  | None => Panic
  end.

(** ** Tactics and hints *)

Create HintDb pdn discriminated.

(** Splits the boolean guards of the hypotheses and closes linear goals. *)
Ltac zsolve := simpl in *; try lia; try (exfalso; lia).

(** Case analysis on the scrutinee of the first [if] or [match] of the goal. *)
Ltac split_if :=
  match goal with
  | |- context [if ?b then _ else _] => destruct b eqn:?
  end.

Ltac split_if_in H :=
  match type of H with
  | context [if ?b then _ else _] => destruct b eqn:?
  end.

(** Inverts a successful step of an option computation. *)
Ltac invert_bind H :=
  match type of H with
  | (?m ≫= _) = Some _ =>
      let x := fresh "x" in let E := fresh "E" in
      destruct m as [x|] eqn:E; simpl in H; [|discriminate H]
  end.

(** Closes [∃ x, Some v = Some x ∧ bounds on x]. *)
Ltac some_lia := eexists; split; [reflexivity|lia].

(** ** Lists *)

Section ListFacts.
Context {A : Type}.
Implicit Types l k : list A.

Lemma take_app_exact l k n : n = length l → take n (l ++ k) = l.
Proof. intros ->. apply take_app_length. Qed.

Lemma drop_app_exact l k n : n = length l → drop n (l ++ k) = k.
Proof. intros ->. apply drop_app_length. Qed.

Lemma drop_nonempty_lt l n : drop n l ≠ [] → (n < length l)%nat.
Proof.
  intros H. destruct (decide (n < length l)%nat) as [|Hge]; [done|].
  rewrite drop_ge in H by lia. done.
Qed.

Lemma length_positive l : l ≠ [] → (0 < length l)%nat.
Proof. destruct l; simpl; [done|lia]. Qed.

Lemma elem_of_rev x l : x ∈ rev l ↔ x ∈ l.
Proof. by rewrite !list_elem_of_In, <- in_rev. Qed.

Lemma StronglySorted_app_cons (R : A → A → Prop) l x :
  StronglySorted R l → Forall (λ y, R y x) l → StronglySorted R (l ++ [x]).
Proof.
  induction 1 as [|y l Hl IH Hy]; intros HF; simpl; [by repeat constructor|].
  apply Forall_cons_1 in HF as [Hyx HF]. constructor; [auto|].
  apply Forall_app; auto.
Qed.

(** Two elements of a sorted list are the same one, or one is in front of the other. *)
Lemma StronglySorted_two (R : A → A → Prop) l x y :
  StronglySorted R l → x ∈ l → y ∈ l → x = y ∨ R x y ∨ R y x.
Proof.
  induction 1 as [|z l _ IH Hz]; intros Hx Hy; [by apply elem_of_nil in Hx|]. rewrite Forall_forall in Hz.
  apply elem_of_cons in Hx as [->|Hx], Hy as [->|Hy]; auto.
Qed.

Lemma StronglySorted_NoDup (R : A → A → Prop) l : (∀ x, x ∈ l → ¬ R x x) → StronglySorted R l → NoDup l.
Proof.
  intros Hirr. induction 1 as [|z l _ IH Hz]; constructor.
  - intros Hin. rewrite Forall_forall in Hz. apply (Hirr z); [left|by apply Hz].
  - apply IH. intros x Hx. apply Hirr. by right.
Qed.

Lemma StronglySorted_map {B : Type} (R : A → A → Prop) (S : B → B → Prop) (f : A → B) l :
  (∀ x y, R x y → S (f x) (f y)) → StronglySorted R l → StronglySorted S (map f l).
Proof.
  intros Hf. induction 1 as [|x l Hl IH Hx]; simpl; constructor; [done|].
  rewrite Forall_map. eapply Forall_impl; [exact Hx|]. simpl. auto.
Qed.
End ListFacts.

#[export] Hint Resolve length_positive : pdn.

(** A loop over a slice whose body may panic. *)
Fixpoint fold_opt {A B : Type} (f : A → B → option A) (a : A) (l : list B) : option A :=
  match l with
  | [] => Some a
  | x :: l => f a x ≫= λ a, fold_opt f a l
  end.

(** A loop whose body never panics under an invariant does not panic; the
    invariant may mention the number of iterations done. *)
Lemma fold_opt_total {A B : Type} (f : A → B → option A) (I : Z → A → Prop) (l : list B) n a :
  I n a → (∀ n a x, I n a → x ∈ l → ∃ a', f a x = Some a' ∧ I (n + 1) a') →
  ∃ a', fold_opt f a l = Some a' ∧ I (n + Z.of_nat (length l)) a'.
Proof.
  revert n a. induction l as [|x l IH]; intros n a Ha Hf; simpl.
  { exists a. by rewrite Z.add_0_r. }
  destruct (Hf n a x Ha ltac:(left)) as (a' & -> & Ha'). simpl.
  destruct (IH (n + 1) a' Ha') as (b & -> & Hb).
  - intros m b y Hb Hy. apply Hf; [done|by right].
  - exists b. split; [done|]. by replace (n + Z.of_nat (S (length l)))
      with (n + 1 + Z.of_nat (length l)) by lia.
Qed.

(** ** Computations that may panic

    [returns m P]: [m] does not panic, and its value has [P]. A chain of [←] is proved
    step by step; the lemmas on the steps are hints of the database [returns]. *)

Definition returns {A : Type} (m : option A) (P : A → Prop) : Prop := ∃ x, m = Some x ∧ P x.

Lemma returns_ret {A : Type} (x : A) (P : A → Prop) : P x → returns (Some x) P.
Proof. intros Hx. by exists x. Qed.

Lemma returns_bind {A B : Type} (m : option A) (f : A → option B) (P : A → Prop) (Q : B → Prop) :
  returns m P → (∀ x, P x → returns (f x) Q) → returns (m ≫= f) Q.
Proof. intros (x & -> & Hx) Hf. by apply Hf. Qed.

Lemma returns_mono {A : Type} (m : option A) (P Q : A → Prop) :
  returns m P → (∀ x, P x → Q x) → returns m Q.
Proof. intros (x & Hm & Hx) HQ. exists x. split; [done|by apply HQ]. Qed.

Lemma returns_any {A : Type} (m : option A) : (∃ x, m = Some x) → returns m (λ _, True).
Proof. intros [x Hx]. by exists x. Qed.

Lemma returns_lookup {A : Type} (l : list A) (i : nat) :
  (i < length l)%nat → returns (l !! i) (λ x, l !! i = Some x).
Proof. intros Hi. destruct (lookup_lt_is_Some_2 _ _ Hi) as [x Hx]. by exists x. Qed.

(** An index that is known to hold something. *)
Lemma returns_known {A : Type} (l : list A) (i : nat) (x : A) :
  l !! i = Some x → returns (l !! i) (λ y, y = x).
Proof. intros Hx. by exists x. Qed.

Lemma returns_fold {A B : Type} (f : A → B → option A) (P : A → Prop) (Q : B → Prop) (l : list B) a :
  P a → Forall Q l → (∀ a x, P a → Q x → returns (f a x) P) → returns (fold_opt f a l) P.
Proof.
  intros Ha Hl Hf. revert a Ha. induction Hl as [|x l Hx _ IH]; intros a Ha; cbn [fold_opt].
  - by apply returns_ret.
  - eapply returns_bind; [by apply Hf|]. exact IH.
Qed.

Create HintDb returns discriminated.
#[export] Hint Resolve returns_lookup : returns.
#[export] Hint Extern 4 (@eq Z _ _) => lia : returns.
#[export] Hint Extern 4 (_ < _) => lia : returns.
#[export] Hint Extern 4 (_ <= _) => lia : returns.
#[export] Hint Extern 4 (_ <= _ <= _) => lia : returns.
#[export] Hint Extern 4 (_ < _)%nat => lia : returns.
#[export] Hint Extern 4 (_ <= _)%nat => lia : returns.

(** One step: a known or hinted computation, a branch, or the result. *)
Ltac ret_step :=
  match goal with
  | |- returns (Some _) _ => apply returns_ret
  | H : ?l !! ?i = Some _ |- returns (?l !! ?i ≫= _) _ => rewrite H; cbn [mbind option_bind]
  | |- returns (Some _ ≫= _) _ => cbn [mbind option_bind]
  | |- returns (_ ≫= _) _ => eapply returns_bind; [solve [eauto 6 with returns]|let H := fresh in intros ? H; cbv beta in H]
  | |- returns (if ?b then _ else _) _ => destruct b eqn:?
  | |- returns (let '(_, _) := ?p in _) _ => destruct p
  | |- returns (match ?o with Some _ => _ | None => _ end) _ => destruct o eqn:?
  end.

(** A symmetric relation between all pairs of a list does not depend on the order. *)
Lemma ForallOrdPairs_perm {A : Type} (R : A → A → Prop) l k :
  Symmetric R → Permutation l k → ForallOrdPairs R l → ForallOrdPairs R k.
Proof.
  intros Hsym. induction 1 as [|x l k Hp IH|x y l|l1 l2 l3 _ IH1 _ IH2]; intros Hl; auto.
  - inversion_clear Hl as [|?? Hx Hl']. constructor; [by rewrite <- Hp|auto].
  - inversion_clear Hl as [|?? Hx Hl']. inversion_clear Hl' as [|?? Hy Hl''].
    apply Forall_cons_1 in Hx as [Hxy Hx]. repeat constructor; auto.
Qed.

Lemma ForallOrdPairs_snoc {A : Type} (R : A → A → Prop) l x :
  ForallOrdPairs R l → Forall (λ y, R y x) l → ForallOrdPairs R (l ++ [x]).
Proof.
  induction 1 as [|y l Hy Hl IH]; intros HF; simpl; [by repeat constructor|].
  apply Forall_cons_1 in HF as [Hyx HF]. constructor; [|auto]. apply Forall_app; auto.
Qed.

(** ** Sorting a slice

    [sort.Slice] sorts by a caller-supplied [less] and is not stable: it returns
    some permutation of its input that respects the order. The interface states
    exactly that, so no theorem can depend on the order of ties. *)

Class WeakOrder {A : Type} (less : A → A → bool) : Prop := {
  less_asym x y : less x y = true → less y x = false;
  less_ntrans x y z : less y x = false → less z y = false → less z x = false
}.

Class SliceSort := {
  sort_slice : ∀ {A : Type}, (A → A → bool) → list A → list A;
  sort_slice_perm : ∀ {A : Type} (less : A → A → bool) (l : list A),
    Permutation (sort_slice less l) l;
  sort_slice_sorted : ∀ {A : Type} (less : A → A → bool) (l : list A),
    WeakOrder less → StronglySorted (λ x y, less y x = false) (sort_slice less l)
}.

(** A strictly increasing slice has a single sorted permutation: itself. *)
Lemma sorted_perm_unique {A : Type} (less : A → A → bool) (l k : list A) :
  StronglySorted (λ x y, less x y = true) l →
  StronglySorted (λ x y, less y x = false) k →
  Permutation k l → k = l.
Proof.
  intros Hl. revert k. induction Hl as [|x l Hl IH Hx]; intros k Hk Hp.
  { by apply Permutation_nil_r. }
  destruct k as [|y k]; [by apply Permutation_nil_l in Hp|].
  apply StronglySorted_inv in Hk as [Hk Hy].
  assert (x = y) as ->.
  { assert (y ∈ x :: l) as Hyl by (rewrite <- Hp; constructor).
    assert (x ∈ y :: k) as Hxk by (rewrite Hp; constructor).
    apply elem_of_cons in Hyl as [->|Hyl]; [done|].
    apply elem_of_cons in Hxk as [->|Hxk]; [done|].
    rewrite Forall_forall in Hx, Hy.
    specialize (Hx _ Hyl). specialize (Hy _ Hxk). congruence. }
  f_equal. apply IH; [done|]. by eapply Permutation_cons_inv.
Qed.

Lemma sort_slice_id `{SliceSort} {A : Type} (less : A → A → bool) `{!WeakOrder less} l :
  StronglySorted (λ x y, less x y = true) l → sort_slice less l = l.
Proof.
  intros Hl. eapply sorted_perm_unique; [done|by apply sort_slice_sorted|apply sort_slice_perm].
Qed.

(** Insertion sort is one sorting function that keeps the contract. *)
Section InsertionSort.
Context {A : Type} (less : A → A → bool).

Fixpoint insert_sorted (x : A) (l : list A) : list A :=
  match l with
  | [] => [x]
  | y :: l' => if less y x then y :: insert_sorted x l' else x :: l
  end.

Definition insertion_sort (l : list A) : list A := foldr insert_sorted [] l.

Lemma insert_sorted_perm x l : Permutation (insert_sorted x l) (x :: l).
Proof.
  induction l as [|y l IH]; simpl; [done|]. destruct (less y x); [|done].
  rewrite IH. apply perm_swap.
Qed.

Lemma insertion_sort_perm l : Permutation (insertion_sort l) l.
Proof. induction l as [|x l IH]; simpl; [done|]. by rewrite insert_sorted_perm, IH. Qed.

Lemma insert_sorted_sorted `{!WeakOrder less} x l :
  StronglySorted (λ a b, less b a = false) l →
  StronglySorted (λ a b, less b a = false) (insert_sorted x l).
Proof.
  induction 1 as [|y l Hl IH Hy]; simpl; [by repeat constructor|].
  destruct (less y x) eqn:E; constructor.
  - done.
  - rewrite insert_sorted_perm. constructor; [by apply less_asym|done].
  - by constructor.
  - constructor; [done|]. eapply Forall_impl; [exact Hy|].
    intros z Hz. simpl in Hz. by eapply less_ntrans.
Qed.

Lemma insertion_sort_sorted `{!WeakOrder less} l :
  StronglySorted (λ a b, less b a = false) (insertion_sort l).
Proof. induction l; simpl; [constructor|by apply insert_sorted_sorted]. Qed.
End InsertionSort.

#[export] Instance stable_sort : SliceSort | 100 := {
  sort_slice := @insertion_sort;
  sort_slice_perm := @insertion_sort_perm;
  sort_slice_sorted := λ A less l _, insertion_sort_sorted less l
}.
