(* ===== verification/GoText.v ===== *)
(** * Go text: bytes, UTF-8, and the parts of [strings], [unicode], [strconv]

    Everything here is the Go language and its standard library as the program
    uses them: slicing with its bounds check, [utf8.DecodeRuneInString] and its
    companions with the replacement of invalid bytes, substring search,
    [strings.Fields], [strings.Map]-style case mapping, and decimal printing. The
    tables behind [unicode.IsLetter], [unicode.IsDigit], [unicode.ToLower] and
    [unicode.ToUpper] are the interface [Unicode]. *)

From S2P Require Import Prelude.

(** ** Indexing and slicing *)

Definition len (s : bytes) : Z := Z.of_nat (length s).

Definition byte_val (b : byte) : Z := Z.of_N (Byte.to_N b).

Arguments byte_val : simpl never.

Definition byte_of (z : Z) : byte :=
  default "000"%byte (Byte.of_N (Z.to_N (z mod 256))).

(** [s[lo:hi]] for bounds already known to be legal. *)
Definition slice (s : bytes) (lo hi : Z) : bytes :=
  take (Z.to_nat (hi - lo)) (drop (Z.to_nat lo) s).

(** [s[lo:hi]]: a bound out of range panics. *)
Definition go_slice (s : bytes) (lo hi : Z) : option bytes :=
  if (0 <=? lo) && (lo <=? hi) && (hi <=? len s) then Some (slice s lo hi) else None.

(** [s[i]], panicking out of range. *)
Definition go_index (s : bytes) (i : Z) : option byte :=
  if 0 <=? i then s !! Z.to_nat i else None.

Arguments byte_of : simpl never.

(** [s[i]] for an index known to be legal. *)
Definition byte_at (s : bytes) (i : Z) : Z :=
  byte_val (default "000"%byte (s !! Z.to_nat i)).

Definition eq_bytes (s t : bytes) : bool := bool_decide (s = t).

Lemma byte_val_range b : 0 <= byte_val b < 256.
Proof. unfold byte_val. pose proof (Byte.to_N_bounded b). lia. Qed.

Lemma byte_of_val b : byte_of (byte_val b) = b.
Proof.
  unfold byte_of, byte_val. pose proof (Byte.to_N_bounded b).
  rewrite Z.mod_small, N2Z.id, Byte.of_to_N by lia. done.
Qed.

Lemma byte_val_of z : 0 <= z < 256 → byte_val (byte_of z) = z.
Proof.
  intros Hz. unfold byte_of, byte_val. rewrite Z.mod_small by lia.
  destruct (Byte.of_N (Z.to_N z)) as [b|] eqn:E; simpl.
  - apply Byte.to_of_N in E. lia.
  - apply Byte.of_N_None_iff in E. lia.
Qed.

Lemma byte_val_inj b c : byte_val b = byte_val c → b = c.
Proof. intros H. rewrite <- (byte_of_val b), <- (byte_of_val c). congruence. Qed.

Lemma len_nonneg s : 0 <= len s.
Proof. unfold len. lia. Qed.

Lemma len_app s t : len (s ++ t) = len s + len t.
Proof. unfold len. rewrite length_app. lia. Qed.

Lemma len_nil : len [] = 0.
Proof. done. Qed.

Lemma len_pos s : s ≠ [] → 0 < len s.
Proof. destruct s; unfold len; simpl; [done|lia]. Qed.

Lemma len_0_nil s : len s <= 0 → s = [].
Proof. destruct s; unfold len; simpl; [done|lia]. Qed.

Lemma len_take n s : len (take n s) = Z.min (Z.of_nat n) (len s).
Proof. unfold len. rewrite length_take. lia. Qed.

Lemma len_drop n s : len (drop n s) = Z.max 0 (len s - Z.of_nat n).
Proof. unfold len. rewrite length_drop. lia. Qed.

Lemma len_slice s lo hi : 0 <= lo → lo <= hi → hi <= len s → len (slice s lo hi) = hi - lo.
Proof. intros. unfold slice. rewrite len_take, len_drop. lia. Qed.

Lemma go_slice_Some s lo hi :
  0 <= lo → lo <= hi → hi <= len s → go_slice s lo hi = Some (slice s lo hi).
Proof. intros. unfold go_slice. by replace (_ && _ && _) with true by lia. Qed.

Lemma go_index_some s i : 0 <= i < len s → ∃ b, go_index s i = Some b.
Proof.
  intros Hi. unfold go_index. replace (0 <=? i) with true by lia.
  apply lookup_lt_is_Some_2. unfold len in Hi. lia.
Qed.

Lemma go_index_range s i b : go_index s i = Some b → 0 <= i < len s.
Proof.
  unfold go_index. destruct (0 <=? i) eqn:E; [|done]. intros Hi%lookup_lt_Some. unfold len. lia.
Qed.

Lemma slice_app_mid s t u :
  slice (s ++ t ++ u) (len s) (len s + len t) = t.
Proof.
  unfold slice. rewrite drop_app_exact by (unfold len; lia).
  apply take_app_exact. unfold len. lia.
Qed.

Lemma slice_split s a b c :
  0 <= a → a <= b → b <= c → slice s a c = slice s a b ++ slice s b c.
Proof.
  intros. unfold slice.
  replace (Z.to_nat (c - a)) with (Z.to_nat (b - a) + Z.to_nat (c - b))%nat by lia.
  rewrite <- take_take_drop, drop_drop. do 3 f_equal. lia.
Qed.

Lemma slice_full s : slice s 0 (len s) = s.
Proof. unfold slice, len. rewrite drop_0. apply take_ge. lia. Qed.

Lemma slice_empty s a : slice s a a = [].
Proof. unfold slice. by rewrite Z.sub_diag. Qed.

#[export] Hint Resolve len_nonneg : pdn.

(** Computes the lengths of concatenations and closes linear goals. *)
Ltac len_solve := rewrite ?len_app, ?len_nil in *; unfold len in *; simpl in *; lia.

(** ** UTF-8

    [decode_rune s] is [utf8.DecodeRuneInString(s)]: the first rune of [s] and its
    width. An invalid first byte decodes as U+FFFD with width 1; the empty string
    as U+FFFD with width 0. *)

Definition rune_error : Z := 0xFFFD.
Definition max_rune : Z := 0x10FFFF.

Definition in_rng (lo hi x : Z) : bool := (lo <=? x) && (x <=? hi).

Definition is_cont (b : byte) : bool := in_rng 0x80 0xBF (byte_val b).

(** The six payload bits of a continuation byte. *)
Definition cont_bits (b : byte) : Z := byte_val b - 0x80.

(** The legal range of the second byte, given the first. *)
Definition second_ok (p0 : Z) (b : byte) : bool :=
  let p1 := byte_val b in
  if p0 =? 0xE0 then in_rng 0xA0 0xBF p1
  else if p0 =? 0xED then in_rng 0x80 0x9F p1
  else if p0 =? 0xF0 then in_rng 0x90 0xBF p1
  else if p0 =? 0xF4 then in_rng 0x80 0x8F p1
  else in_rng 0x80 0xBF p1.

Definition decode_rune (s : bytes) : Z * nat :=
  match s with
  | [] => (rune_error, 0%nat)
  | b0 :: t =>
      let p0 := byte_val b0 in
      if p0 <? 0x80 then (p0, 1%nat)
      else if in_rng 0xC2 0xDF p0 then
        match t with
        | b1 :: _ =>
            if is_cont b1 then ((p0 - 0xC0) * 64 + cont_bits b1, 2%nat) else (rune_error, 1%nat)
        | _ => (rune_error, 1%nat)
        end
      else if in_rng 0xE0 0xEF p0 then
        match t with
        | b1 :: b2 :: _ =>
            if second_ok p0 b1 && is_cont b2
            then ((p0 - 0xE0) * 4096 + cont_bits b1 * 64 + cont_bits b2, 3%nat)
            else (rune_error, 1%nat)
        | _ => (rune_error, 1%nat)
        end
      else if in_rng 0xF0 0xF4 p0 then
        match t with
        | b1 :: b2 :: b3 :: _ =>
            if second_ok p0 b1 && is_cont b2 && is_cont b3
            then ((p0 - 0xF0) * 262144 + cont_bits b1 * 4096 + cont_bits b2 * 64 + cont_bits b3, 4%nat)
            else (rune_error, 1%nat)
        | _ => (rune_error, 1%nat)
        end
      else (rune_error, 1%nat)
  end.

Arguments decode_rune : simpl never.

(** [utf8.EncodeRune], which is what [Builder.WriteRune] and [string(r)] write: a
    surrogate or an out-of-range value is written as U+FFFD. *)
Definition encode_rune (r : Z) : bytes :=
  let r := if (r <? 0) || (max_rune <? r) || in_rng 0xD800 0xDFFF r then rune_error else r in
  if r <=? 0x7F then [byte_of r]
  else if r <=? 0x7FF then [byte_of (0xC0 + r / 64); byte_of (0x80 + r mod 64)]
  else if r <=? 0xFFFF then
    [byte_of (0xE0 + r / 4096); byte_of (0x80 + (r / 64) mod 64); byte_of (0x80 + r mod 64)]
  else
    [byte_of (0xF0 + r / 262144); byte_of (0x80 + (r / 4096) mod 64);
     byte_of (0x80 + (r / 64) mod 64); byte_of (0x80 + r mod 64)].

Arguments encode_rune : simpl never.

(** [utf8.RuneStart]. *)
Definition rune_start (b : byte) : bool := negb (is_cont b).

(** The runes of a string in order, each with the bytes it was decoded from: what
    [for range], or repeated [DecodeRuneInString(s[i:])] with [i += size], sees. *)
Fixpoint chunks_fuel (fuel : nat) (s : bytes) : list (Z * bytes) :=
  match fuel, s with
  | S fuel, _ :: _ =>
      let '(r, n) := decode_rune s in (r, take n s) :: chunks_fuel fuel (drop n s)
  | _, _ => []
  end.

Definition chunks (s : bytes) : list (Z * bytes) := chunks_fuel (length s) s.

Definition runes (s : bytes) : list Z := map fst (chunks s).

(** The bytes a sequence of decoded runes was read from. *)
Definition raw (cs : list (Z * bytes)) : bytes := concat (map snd cs).

(** [utf8.RuneCountInString]. *)
Definition rune_count (s : bytes) : Z := Z.of_nat (length (chunks s)).

(** A chunk that is not the replacement of an invalid byte. *)
Definition chunk_valid (c : Z * bytes) : Prop := snd c = encode_rune (fst c).

Definition utf8_valid (s : bytes) : Prop := Forall chunk_valid (chunks s).

#[export] Instance utf8_valid_dec s : Decision (utf8_valid s).
Proof. unfold utf8_valid, chunk_valid. apply _. Defined.

Definition valid_rune (r : Z) : bool :=
  (0 <=? r) && (r <=? max_rune) && negb (in_rng 0xD800 0xDFFF r).

Lemma decode_rune_width s : s ≠ [] → (1 <= snd (decode_rune s) <= length s)%nat.
Proof.
  destruct s as [|b0 t]; [done|intros _]. unfold decode_rune.
  repeat case_match; simpl; lia.
Qed.

Lemma chunks_fuel_more n m s :
  (length s <= n)%nat → (length s <= m)%nat → chunks_fuel n s = chunks_fuel m s.
Proof.
  revert m s. induction n as [|n IH]; intros [|m] [|b s] Hn Hm; simpl in *; try done; try lia.
  pose proof (decode_rune_width (b :: s) ltac:(done)) as Hw.
  destruct (decode_rune (b :: s)) as [r w]. simpl in Hw.
  f_equal. apply IH; rewrite length_drop; simpl; lia.
Qed.

Lemma chunks_nil : chunks [] = [].
Proof. done. Qed.

Lemma chunks_cons s :
  s ≠ [] →
  chunks s = (fst (decode_rune s), take (snd (decode_rune s)) s) :: chunks (drop (snd (decode_rune s)) s).
Proof.
  intros Hs. pose proof (decode_rune_width s Hs) as Hw. unfold chunks.
  destruct s as [|b s]; [done|]. cbn [length chunks_fuel].
  destruct (decode_rune (b :: s)) as [r w]. simpl in Hw. cbn [fst snd]. f_equal.
  apply chunks_fuel_more; rewrite ?length_drop; simpl; lia.
Qed.

(** Induction on a string rune by rune. *)
Lemma rune_ind (P : bytes → Prop) :
  P [] →
  (∀ s, s ≠ [] → P (drop (snd (decode_rune s)) s) → P s) →
  ∀ s, P s.
Proof.
  intros H0 H1 s. induction (Nat.lt_wf_0_projected (@length byte) s) as [s _ IH].
  destruct (decide (s = [])) as [->|Hs]; [done|]. apply H1; [done|]. apply IH.
  pose proof (decode_rune_width s Hs). rewrite length_drop. lia.
Qed.

Lemma raw_chunks s : raw (chunks s) = s.
Proof.
  induction s as [|s Hs IH] using rune_ind; [done|].
  rewrite chunks_cons by done. unfold raw in *. simpl. rewrite IH. apply take_drop.
Qed.

Lemma chunks_nonempty s : Forall (λ c, snd c ≠ []) (chunks s).
Proof.
  induction s as [|s Hs IH] using rune_ind; [constructor|].
  rewrite chunks_cons by done. constructor; [|done]. simpl.
  pose proof (decode_rune_width s Hs). destruct s; [done|].
  destruct (snd (decode_rune (b :: s))); [lia|done].
Qed.

Lemma rune_count_nonneg s : 0 <= rune_count s.
Proof. unfold rune_count. lia. Qed.

(** *** Decoding inverts encoding *)

Ltac rng := unfold in_rng, is_cont, cont_bits, second_ok, in_rng in *.

Lemma encode_rune_nonempty r : encode_rune r ≠ [].
Proof. unfold encode_rune. repeat case_match; done. Qed.

(** The bytes of the encoding of a valid rune are in range, so that [byte_val]
    reads back what [byte_of] wrote. *)
Ltac vals := repeat rewrite byte_val_of by (Z.div_mod_to_equations; lia).

Lemma decode_encode r t :
  valid_rune r = true → decode_rune (encode_rune r ++ t) = (r, length (encode_rune r)).
Proof.
  intros Hr. unfold valid_rune, max_rune in Hr. rng. unfold encode_rune.
  replace ((r <? 0) || (max_rune <? r) || in_rng 0xD800 0xDFFF r) with false
    by (unfold max_rune; rng; lia).
  destruct (r <=? 0x7F) eqn:H1; [|destruct (r <=? 0x7FF) eqn:H2; [|destruct (r <=? 0xFFFF) eqn:H3]];
    unfold decode_rune; cbn [app length]; rng; vals.
  - by replace (r <? 0x80) with true by lia.
  - replace (0xC0 + r / 64 <? 0x80) with false by (Z.div_mod_to_equations; lia).
    replace ((0xC2 <=? 0xC0 + r / 64) && (0xC0 + r / 64 <=? 0xDF)) with true
      by (Z.div_mod_to_equations; lia).
    replace ((0x80 <=? 0x80 + r mod 64) && (0x80 + r mod 64 <=? 0xBF)) with true
      by (Z.div_mod_to_equations; lia).
    f_equal. Z.div_mod_to_equations; lia.
  - replace (0xE0 + r / 4096 <? 0x80) with false by (Z.div_mod_to_equations; lia).
    replace ((0xC2 <=? 0xE0 + r / 4096) && (0xE0 + r / 4096 <=? 0xDF)) with false
      by (Z.div_mod_to_equations; lia).
    replace ((0xE0 <=? 0xE0 + r / 4096) && (0xE0 + r / 4096 <=? 0xEF)) with true
      by (Z.div_mod_to_equations; lia).
    match goal with |- (if ?b then _ else _) = _ => replace b with true end.
    { f_equal. Z.div_mod_to_equations; lia. }
    repeat case_match; Z.div_mod_to_equations; lia.
  - replace (0xF0 + r / 262144 <? 0x80) with false by (Z.div_mod_to_equations; lia).
    replace ((0xC2 <=? 0xF0 + r / 262144) && (0xF0 + r / 262144 <=? 0xDF)) with false
      by (Z.div_mod_to_equations; lia).
    replace ((0xE0 <=? 0xF0 + r / 262144) && (0xF0 + r / 262144 <=? 0xEF)) with false
      by (Z.div_mod_to_equations; lia).
    replace ((0xF0 <=? 0xF0 + r / 262144) && (0xF0 + r / 262144 <=? 0xF4)) with true
      by (Z.div_mod_to_equations; lia).
    match goal with |- (if ?b then _ else _) = _ => replace b with true end.
    { f_equal. Z.div_mod_to_equations; lia. }
    repeat case_match; Z.div_mod_to_equations; lia.
Qed.

(** Every decoded rune is a Unicode scalar value, and unless it stands for an
    invalid byte it was decoded from its own encoding. *)
Lemma decode_rune_spec s :
  s ≠ [] →
  decode_rune s = (rune_error, 1%nat) ∨
  valid_rune (fst (decode_rune s)) = true ∧
  take (snd (decode_rune s)) s = encode_rune (fst (decode_rune s)).
Proof.
  destruct s as [|b0 t]; [done|intros _]. unfold decode_rune.
  pose proof (byte_val_range b0).
  destruct (byte_val b0 <? 0x80) eqn:H0; [right|destruct (in_rng 0xC2 0xDF (byte_val b0)) eqn:H1;
    [|destruct (in_rng 0xE0 0xEF (byte_val b0)) eqn:H2;
      [|destruct (in_rng 0xF0 0xF4 (byte_val b0)) eqn:H3; [|by left]]]].
  - cbn [fst snd]. unfold valid_rune, encode_rune, max_rune. rng.
    match goal with |- context [if ?b then rune_error else _] => replace b with false by lia end.
    replace (byte_val b0 <=? 0x7F) with true by lia.
    rewrite byte_of_val. split; [lia|done].
  - destruct t as [|b1 t]; [by left|]. destruct (is_cont b1) eqn:Hc1; [right|by left].
    cbn [fst snd]. unfold valid_rune, encode_rune, max_rune. rng.
    match goal with |- context [if ?b then rune_error else _] => replace b with false by lia end.
    match goal with |- context [?a <=? 0x7F] => set (r := a) end.
    replace (r <=? 0x7F) with false by lia. replace (r <=? 0x7FF) with true by lia.
    split; [lia|]. simpl.
    replace (0xC0 + r / 64) with (byte_val b0) by (Z.div_mod_to_equations; lia).
    replace (0x80 + r mod 64) with (byte_val b1) by (Z.div_mod_to_equations; lia).
    by rewrite !byte_of_val.
  - destruct t as [|b1 [|b2 t]]; [by left|by left|].
    destruct (second_ok (byte_val b0) b1 && is_cont b2) eqn:Hc; [right|by left].
    cbn [fst snd]. unfold valid_rune, encode_rune, max_rune. rng.
    assert (0x80 <= byte_val b1 <= 0xBF ∧ (byte_val b0 = 0xE0 → 0xA0 <= byte_val b1)
      ∧ (byte_val b0 = 0xED → byte_val b1 <= 0x9F)) as Hb1 by (repeat case_match; lia).
    match goal with |- context [if ?b then rune_error else _] => replace b with false by lia end.
    match goal with |- context [?a <=? 0x7F] => set (r := a) end.
    replace (r <=? 0x7F) with false by lia. replace (r <=? 0x7FF) with false by lia.
    replace (r <=? 0xFFFF) with true by lia.
    split; [lia|]. simpl.
    replace (0xE0 + r / 4096) with (byte_val b0) by (Z.div_mod_to_equations; lia).
    replace (0x80 + (r / 64) mod 64) with (byte_val b1) by (Z.div_mod_to_equations; lia).
    replace (0x80 + r mod 64) with (byte_val b2) by (Z.div_mod_to_equations; lia).
    by rewrite !byte_of_val.
  - destruct t as [|b1 [|b2 [|b3 t]]]; [by left|by left|by left|].
    destruct (second_ok (byte_val b0) b1 && is_cont b2 && is_cont b3) eqn:Hc; [right|by left].
    cbn [fst snd]. unfold valid_rune, encode_rune, max_rune. rng.
    assert (0x80 <= byte_val b1 <= 0xBF ∧ (byte_val b0 = 0xF0 → 0x90 <= byte_val b1)
      ∧ (byte_val b0 = 0xF4 → byte_val b1 <= 0x8F)) as Hb1 by (repeat case_match; lia).
    match goal with |- context [if ?b then rune_error else _] => replace b with false by lia end.
    match goal with |- context [?a <=? 0x7F] => set (r := a) end.
    replace (r <=? 0x7F) with false by lia. replace (r <=? 0x7FF) with false by lia.
    replace (r <=? 0xFFFF) with false by lia.
    split; [lia|]. simpl.
    replace (0xF0 + r / 262144) with (byte_val b0) by (Z.div_mod_to_equations; lia).
    replace (0x80 + (r / 4096) mod 64) with (byte_val b1) by (Z.div_mod_to_equations; lia).
    replace (0x80 + (r / 64) mod 64) with (byte_val b2) by (Z.div_mod_to_equations; lia).
    replace (0x80 + r mod 64) with (byte_val b3) by (Z.div_mod_to_equations; lia).
    by rewrite !byte_of_val.
Qed.

Lemma chunks_encode r t :
  valid_rune r = true → chunks (encode_rune r ++ t) = (r, encode_rune r) :: chunks t.
Proof.
  intros Hr. rewrite chunks_cons.
  - rewrite decode_encode by done. cbn [fst snd]. by rewrite take_app_length, drop_app_length.
  - pose proof (encode_rune_nonempty r). by destruct (encode_rune r).
Qed.

(** The runes of a concatenation of encodings are the encoded runes. *)
Definition encode_runes (rs : list Z) : bytes := concat (map encode_rune rs).

Lemma runes_encode_runes rs t :
  Forall (λ r, valid_rune r = true) rs → runes (encode_runes rs ++ t) = rs ++ runes t.
Proof.
  induction 1 as [|r rs Hr _ IH]; simpl; [done|].
  unfold runes, encode_runes in *. simpl. rewrite <- app_assoc, chunks_encode by done.
  simpl. by rewrite IH.
Qed.

Lemma runes_valid s : Forall (λ r, valid_rune r = true) (runes s).
Proof.
  unfold runes. induction s as [|s Hs IH] using rune_ind; [constructor|].
  rewrite chunks_cons by done. simpl. constructor; [|done].
  destruct (decode_rune_spec s Hs) as [->|[? _]]; done.
Qed.

Lemma utf8_valid_encode s : utf8_valid s → encode_runes (runes s) = s.
Proof.
  intros Hs. rewrite <- (raw_chunks s) at 2. unfold encode_runes, runes, raw, utf8_valid in *.
  induction Hs as [|c cs Hc _ IH]; simpl; [done|]. by rewrite IH, Hc.
Qed.

Lemma encode_runes_valid rs :
  Forall (λ r, valid_rune r = true) rs → utf8_valid (encode_runes rs).
Proof.
  unfold utf8_valid. induction 1 as [|r rs Hr _ IH]; [constructor|].
  unfold encode_runes in *. simpl. rewrite chunks_encode by done. by constructor.
Qed.

Lemma chunks_app_valid s t : utf8_valid s → chunks (s ++ t) = chunks s ++ chunks t.
Proof.
  intros Hs. rewrite <- (utf8_valid_encode s Hs). pose proof (runes_valid s) as Hr.
  revert Hr. generalize (runes s). clear s Hs. intros rs. unfold encode_runes.
  induction 1 as [|r rs Hr _ IH]; simpl; [done|].
  rewrite <- app_assoc, !chunks_encode by done. simpl. by rewrite IH.
Qed.

Lemma utf8_valid_app s t : utf8_valid s → utf8_valid t → utf8_valid (s ++ t).
Proof. unfold utf8_valid. intros. rewrite chunks_app_valid by done. by apply Forall_app. Qed.

(** [utf8.DecodeLastRuneInString]: the last rune of [s] and its width. *)
Definition last_rune_start (s : bytes) : Z :=
  let e := len s in
  let back k := (0 <=? e - k) && negb (in_rng 0x80 0xBF (byte_at s (e - k))) in
  if back 2 then e - 2 else if back 3 then e - 3 else if back 4 then e - 4
  else Z.max 0 (e - 5).

Definition decode_last_rune (s : bytes) : Z * Z :=
  if len s =? 0 then (rune_error, 0)
  else if byte_at s (len s - 1) <? 0x80 then (byte_at s (len s - 1), 1)
  else
    let start := last_rune_start s in
    let '(r, n) := decode_rune (drop (Z.to_nat start) s) in
    if start + Z.of_nat n =? len s then (r, Z.of_nat n) else (rune_error, 1).

Lemma decode_last_rune_width s : s ≠ [] → 1 <= snd (decode_last_rune s) <= len s.
Proof.
  intros Hs. pose proof (len_pos s Hs). unfold decode_last_rune.
  replace (len s =? 0) with false by lia.
  destruct (byte_at s (len s - 1) <? 0x80); [simpl; lia|].
  assert (0 <= last_rune_start s <= len s) by (unfold last_rune_start; repeat case_match; lia).
  destruct (decode_rune (drop (Z.to_nat (last_rune_start s)) s)) as [r n] eqn:E.
  destruct (decide (drop (Z.to_nat (last_rune_start s)) s = [])) as [Hd|Hd].
  - rewrite Hd in E. injection E as <- <-. apply (f_equal len) in Hd.
    rewrite len_drop, len_nil in Hd. case_match; simpl; [|lia].
    exfalso. unfold last_rune_start in *. repeat case_match; lia.
  - pose proof (decode_rune_width _ Hd) as Hw. rewrite E in Hw. simpl in Hw.
    case_match; simpl; lia.
Qed.

(** ** Unicode classes and case mapping

    The tables of package [unicode]. The laws are the documented values on ASCII
    and the facts the proofs need of every table: the classes are disjoint, the
    replacement character is in neither, and case mapping yields scalar values. *)

Definition ascii_upper (r : Z) : bool := in_rng 0x41 0x5A r.
Definition ascii_lower (r : Z) : bool := in_rng 0x61 0x7A r.
Definition ascii_digit (r : Z) : bool := in_rng 0x30 0x39 r.

(** [unicode.IsSpace] *)
Definition is_space (r : Z) : bool :=
  in_rng 9 13 r || (r =? 0x20) || (r =? 0x85) || (r =? 0xA0) || (r =? 0x1680) ||
  in_rng 0x2000 0x200A r || (r =? 0x2028) || (r =? 0x2029) || (r =? 0x202F) ||
  (r =? 0x205F) || (r =? 0x3000).

Class Unicode := {
  is_letter : Z → bool;
  is_digit : Z → bool;
  to_lower : Z → Z;
  to_upper : Z → Z;
  is_upper : Z → bool;
  (** [\p{N}] of package [regexp]. *)
  is_number : Z → bool;
  (** The runes that [unicode.SimpleFold] makes equal to a rune, itself included. *)
  fold_orbit : Z → list Z;
  is_letter_ascii r : 0 <= r < 128 → is_letter r = ascii_upper r || ascii_lower r;
  is_digit_latin1 r : 0 <= r < 256 → is_digit r = ascii_digit r;
  letter_not_digit r : is_letter r = true → is_digit r = false;
  is_letter_error : is_letter rune_error = false;
  is_digit_error : is_digit rune_error = false;
  to_lower_ascii r : 0 <= r < 128 → to_lower r = (if ascii_upper r then r + 32 else r);
  to_upper_ascii r : 0 <= r < 128 → to_upper r = (if ascii_lower r then r - 32 else r);
  to_lower_ru r : in_rng 0x410 0x44F r = true → to_lower r = (if in_rng 0x410 0x42F r then r + 32 else r);
  is_upper_ascii r : 0 <= r < 128 → is_upper r = ascii_upper r;
  is_upper_ru r : in_rng 0x410 0x44F r = true → is_upper r = in_rng 0x410 0x42F r;
  to_lower_yo : to_lower 0x401 = 0x451 ∧ to_lower 0x451 = 0x451;
  to_lower_valid r : valid_rune r = true → valid_rune (to_lower r) = true;
  to_upper_valid r : valid_rune r = true → valid_rune (to_upper r) = true;
  fold_self r : r ∈ fold_orbit r;
  (** No other rune folds to an ASCII rune that is not a letter. *)
  fold_caseless r x : x ∈ fold_orbit r → 0 <= x < 128 → ascii_upper x || ascii_lower x = false → x = r;
  (** White space has no case. *)
  fold_space r x : is_space r = true → x ∈ fold_orbit r → x = r
}.

(** ASCII and the Russian alphabet: enough of the tables to run examples on. *)
Definition ru_upper (r : Z) : bool := in_rng 0x410 0x42F r.
Definition ru_lower (r : Z) : bool := in_rng 0x430 0x44F r.

Definition basic_letter (r : Z) : bool :=
  ascii_upper r || ascii_lower r || ru_upper r || ru_lower r || (r =? 0x401) || (r =? 0x451).

Definition basic_lower (r : Z) : Z :=
  if ascii_upper r || ru_upper r then r + 32 else if r =? 0x401 then 0x451 else r.

Definition basic_is_upper (r : Z) : bool := ascii_upper r || ru_upper r || (r =? 0x401).

Definition basic_upper (r : Z) : Z :=
  if ascii_lower r || ru_lower r then r - 32 else if r =? 0x451 then 0x401 else r.

Ltac basic_tables :=
  unfold basic_letter, basic_lower, basic_upper, basic_is_upper, ascii_upper, ascii_lower, ascii_digit,
    ru_upper, ru_lower, valid_rune, max_rune, rune_error, in_rng.

#[export] Program Instance basic_unicode : Unicode | 100 := {
  is_letter := basic_letter; is_digit := ascii_digit;
  to_lower := basic_lower; to_upper := basic_upper; is_upper := basic_is_upper;
  is_number := ascii_digit; fold_orbit r := [r; basic_lower r; basic_upper r]
}.
Solve Obligations with (try (basic_tables; intros; repeat case_match; try done; lia)).
Next Obligation. intros r. left. Qed.
Next Obligation.
  intros r x. rewrite !elem_of_cons, elem_of_nil. basic_tables.
  intros [->|[->|[->|[]]]] Hx Hl; repeat case_match; lia.
Qed.
Next Obligation.
  intros r x. rewrite !elem_of_cons, elem_of_nil. unfold is_space. basic_tables.
  intros Hs [->|[->|[->|[]]]]; repeat case_match; lia.
Qed.

(** Two letters whose lower case has another length: U+0130 loses a byte, U+023A gains one. *)
Definition shifting_lower (r : Z) : Z :=
  if r =? 0x130 then 0x69 else if r =? 0x23A then 0x2C65 else basic_lower r.

#[local] Program Instance shifting_unicode : Unicode | 200 := {
  is_letter := basic_letter; is_digit := ascii_digit;
  to_lower := shifting_lower; to_upper := basic_upper; is_upper := basic_is_upper;
  is_number := ascii_digit; fold_orbit r := [r; basic_lower r; basic_upper r]
}.
Solve Obligations with (try (unfold shifting_lower; basic_tables; intros; repeat case_match; try done; lia)).
Next Obligation. intros r. left. Qed.
Next Obligation. intros r x. apply (@fold_caseless basic_unicode). Qed.
Next Obligation. intros r x. apply (@fold_space basic_unicode). Qed.

(** [strings.Map] with a mapping that never drops a rune. *)
Definition map_runes (f : Z → Z) (s : bytes) : bytes := encode_runes (map f (runes s)).

Definition lower_string `{Unicode} (s : bytes) : bytes := map_runes to_lower s.
Definition upper_string `{Unicode} (s : bytes) : bytes := map_runes to_upper s.

(** ** Package [strings] *)

Fixpoint has_prefix (s p : bytes) {struct p} : bool :=
  match p, s with
  | [], _ => true
  | b :: p, c :: s => bool_decide (b = c) && has_prefix s p
  | _ :: _, [] => false
  end.

Definition has_suffix (s p : bytes) : bool :=
  (len p <=? len s) && eq_bytes (drop (length s - length p) s) p.

Definition trim_suffix (s p : bytes) : bytes :=
  if has_suffix s p then take (length s - length p) s else s.

Fixpoint index_opt (s sub : bytes) : option Z :=
  if has_prefix s sub then Some 0
  else match s with
       | [] => None
       | _ :: t => Z.succ <$> index_opt t sub
       end.

(** [strings.Index]: the first occurrence, or -1. *)
Definition str_index (s sub : bytes) : Z := default (-1) (index_opt s sub).

Fixpoint last_index_opt (s sub : bytes) : option Z :=
  match s with
  | [] => if has_prefix s sub then Some 0 else None
  | _ :: t =>
      match last_index_opt t sub with
      | Some i => Some (Z.succ i)
      | None => if has_prefix s sub then Some 0 else None
      end
  end.

(** [strings.LastIndex]: the last occurrence, or -1. *)
Definition str_last_index (s sub : bytes) : Z := default (-1) (last_index_opt s sub).

Definition str_contains (s sub : bytes) : bool := bool_decide (is_Some (index_opt s sub)).

(** [strings.Repeat] for a count that is not negative. *)
Definition str_repeat (s : bytes) (n : Z) : bytes := concat (replicate (Z.to_nat n) s).

(** [strings.Split(s, sep)] for a one-byte separator. *)
Fixpoint split_byte (sep : byte) (s : bytes) : list bytes :=
  match s with
  | [] => [[]]
  | b :: t =>
      if decide (b = sep) then [] :: split_byte sep t
      else match split_byte sep t with
           | w :: ws => (b :: w) :: ws
           | [] => [[b]]
           end
  end.

(** Maximal runs of chunks whose rune satisfies [p], as strings
    ([strings.FieldsFunc] splits on the complement). *)
Fixpoint chunk_words (p : Z → bool) (cs : list (Z * bytes)) (cur : bytes) : list bytes :=
  match cs with
  | [] => if decide (cur = []) then [] else [cur]
  | (r, b) :: cs =>
      if p r then chunk_words p cs (cur ++ b)
      else if decide (cur = []) then chunk_words p cs []
      else cur :: chunk_words p cs []
  end.

Definition fields_func (sep : Z → bool) (s : bytes) : list bytes :=
  chunk_words (λ r, negb (sep r)) (chunks s) [].

Definition fields (s : bytes) : list bytes := fields_func is_space s.

Fixpoint drop_spaces (cs : list (Z * bytes)) : list (Z * bytes) :=
  match cs with
  | (r, _) :: cs' => if is_space r then drop_spaces cs' else cs
  | [] => []
  end.

Definition trim_space (s : bytes) : bytes :=
  raw (rev (drop_spaces (rev (drop_spaces (chunks s))))).

Definition join_words (sep : bytes) (ws : list bytes) : bytes :=
  match ws with
  | [] => []
  | w :: ws => w ++ concat (map (app sep) ws)
  end.

(** *** Substring search *)

Lemma has_prefix_app p t : has_prefix (p ++ t) p = true.
Proof. induction p; simpl; [done|]. by rewrite bool_decide_true. Qed.

Lemma has_prefix_spec s p : has_prefix s p = true ↔ ∃ t, s = p ++ t.
Proof.
  split; [|intros [t ->]; apply has_prefix_app].
  revert s. induction p as [|b p IH]; intros s Hs; [by exists s|].
  destruct s as [|c s]; simpl in Hs; [done|].
  apply andb_true_iff in Hs as [Hb Hs]. apply bool_decide_eq_true in Hb as ->.
  apply IH in Hs as [t ->]. by exists t.
Qed.

Lemma has_prefix_len s p : has_prefix s p = true → len p <= len s.
Proof. intros [t ->]%has_prefix_spec. rewrite len_app. pose proof (len_nonneg t). lia. Qed.

(** [sub] occurs in [s] at byte [i]. *)
Definition occurs_at (s sub : bytes) (i : Z) : Prop :=
  0 <= i <= len s ∧ has_prefix (drop (Z.to_nat i) s) sub = true.

Lemma occurs_at_slice s sub i :
  occurs_at s sub i → i + len sub <= len s ∧ slice s i (i + len sub) = sub.
Proof.
  intros [Hi Hp]. pose proof (has_prefix_len _ _ Hp) as Hl. rewrite len_drop in Hl.
  split; [lia|]. apply has_prefix_spec in Hp as [t Ht].
  unfold slice. rewrite Ht. apply take_app_exact. unfold len. lia.
Qed.

Lemma occurs_at_tail b s sub i : occurs_at s sub i → occurs_at (b :: s) sub (Z.succ i).
Proof.
  intros [Hi Hp]. split; [unfold len in *; simpl; lia|].
  by replace (Z.to_nat (Z.succ i)) with (S (Z.to_nat i)) by lia.
Qed.

Lemma occurs_at_cons b s sub i :
  occurs_at (b :: s) sub i → i = 0 ∨ occurs_at s sub (i - 1).
Proof.
  intros [Hi Hp]. destruct (decide (i = 0)) as [|Hne]; [by left|right].
  split; [unfold len in *; simpl in *; lia|].
  by replace (Z.to_nat i) with (S (Z.to_nat (i - 1))) in Hp by lia.
Qed.

Lemma index_opt_spec s sub :
  match index_opt s sub with
  | Some i => occurs_at s sub i ∧ ∀ j, occurs_at s sub j → i <= j
  | None => ∀ j, ¬ occurs_at s sub j
  end.
Proof.
  induction s as [|b s IH]; cbn [index_opt]; destruct (has_prefix _ sub) eqn:Hp.
  - split; [|by intros j [Hj _]; lia]. by split; [unfold len; simpl; lia|].
  - intros j [Hj Hpj]. unfold len in Hj; simpl in Hj. assert (j = 0) as -> by lia.
    simpl in Hpj. congruence.
  - split; [|by intros j [Hj _]; lia]. by split; [unfold len; simpl; lia|].
  - destruct (index_opt s sub) as [i|]; simpl.
    + destruct IH as [Hi Hmin]. split; [by apply occurs_at_tail|].
      intros j Hj. destruct (occurs_at_cons _ _ _ _ Hj) as [->|Hj'].
      * destruct Hj as [_ Hj]. simpl in Hj. congruence.
      * specialize (Hmin _ Hj'). lia.
    + intros j Hj. destruct (occurs_at_cons _ _ _ _ Hj) as [->|Hj'].
      * destruct Hj as [_ Hj]. simpl in Hj. congruence.
      * by eapply IH.
Qed.

Lemma last_index_opt_spec s sub :
  match last_index_opt s sub with
  | Some i => occurs_at s sub i ∧ ∀ j, occurs_at s sub j → j <= i
  | None => ∀ j, ¬ occurs_at s sub j
  end.
Proof.
  induction s as [|b s IH]; cbn [last_index_opt].
  - destruct (has_prefix [] sub) eqn:Hp.
    + split; [by split; [unfold len; simpl; lia|]|].
      intros j [Hj _]. unfold len in Hj; simpl in Hj. lia.
    + intros j [Hj Hpj]. unfold len in Hj; simpl in Hj. assert (j = 0) as -> by lia.
      simpl in Hpj. congruence.
  - destruct (last_index_opt s sub) as [i|].
    + destruct IH as [Hi Hmax]. split; [by apply occurs_at_tail|].
      intros j Hj. destruct (occurs_at_cons _ _ _ _ Hj) as [->|Hj'].
      * destruct Hi. lia.
      * specialize (Hmax _ Hj'). lia.
    + destruct (has_prefix (b :: s) sub) eqn:Hp.
      * split; [by split; [unfold len; simpl; lia|]|].
        intros j Hj. destruct (occurs_at_cons _ _ _ _ Hj) as [->|Hj']; [lia|]. by apply IH in Hj'.
      * intros j Hj. destruct (occurs_at_cons _ _ _ _ Hj) as [->|Hj'].
        -- destruct Hj as [_ Hj]. simpl in Hj. congruence.
        -- by apply IH in Hj'.
Qed.

Lemma str_contains_spec s sub : str_contains s sub = true ↔ ∃ i, occurs_at s sub i.
Proof.
  unfold str_contains. rewrite bool_decide_eq_true.
  pose proof (index_opt_spec s sub) as Hs. destruct (index_opt s sub) as [i|].
  - split; [|by eexists]. intros _. by exists i; apply Hs.
  - split; [by intros []|]. intros [i Hi]. by apply Hs in Hi.
Qed.

(** ** Package [strconv] and decimal digits *)

Fixpoint itoa_loop (fuel : nat) (n : Z) (b : bytes) : bytes :=
  match fuel with
  | O => b
  | S fuel => if 0 <? n then itoa_loop fuel (n / 10) (byte_of (0x30 + n mod 10) :: b) else b
  end.

Definition itoa_fuel (n : Z) : nat := S (Z.to_nat (Z.log2 n)).

(** The decimal digits of a non-negative integer ([strconv.Itoa], [%d]). *)
Definition decimal (n : Z) : bytes :=
  if n =? 0 then "0" else itoa_loop (itoa_fuel n) n [].

Definition digit_val (b : byte) : Z := byte_val b - 0x30.

Definition digit_byte (b : byte) : bool := ascii_digit (byte_val b).

(** The number a string of decimal digits denotes. *)
Definition digits_val (s : bytes) : Z := foldl (λ a b, 10 * a + digit_val b) 0 s.

Definition int_max : Z := 2 ^ 63 - 1.
Definition int_min : Z := - 2 ^ 63.

(** [strconv.Atoi] on a 64-bit platform. *)
Definition atoi (s : bytes) : option Z :=
  let '(neg, ds) :=
    match s with
    | b :: t => if byte_val b =? 0x2D then (true, t)
                else if byte_val b =? 0x2B then (false, t) else (false, s)
    | [] => (false, [])
    end in
  if bool_decide (ds = []) || negb (forallb digit_byte ds) then None
  else
    let n := if neg : bool then - digits_val ds else digits_val ds in
    if (int_min <=? n) && (n <=? int_max) then Some n else None.

Lemma digits_val_snoc s b : digits_val (s ++ [b]) = 10 * digits_val s + digit_val b.
Proof. unfold digits_val. by rewrite foldl_app. Qed.

Lemma digits_val_app s t :
  digits_val (s ++ t) = digits_val s * 10 ^ len t + digits_val t.
Proof.
  induction t as [|b t IH] using rev_ind.
  - rewrite app_nil_r. unfold len. simpl. change (digits_val []) with 0. lia.
  - rewrite app_assoc, !digits_val_snoc, IH, len_app.
    change (len [b]) with 1. rewrite Z.pow_add_r by (pose proof (len_nonneg t); lia). lia.
Qed.

Lemma digits_val_cons b t : digits_val (b :: t) = digit_val b * 10 ^ len t + digits_val t.
Proof. exact (digits_val_app [b] t). Qed.

Lemma digit_val_of d : 0 <= d < 10 → digit_val (byte_of (0x30 + d)) = d.
Proof. intros. unfold digit_val. rewrite byte_val_of; lia. Qed.

Lemma digit_byte_of d : 0 <= d < 10 → digit_byte (byte_of (0x30 + d)) = true.
Proof. intros. unfold digit_byte, ascii_digit, in_rng. rewrite byte_val_of; lia. Qed.

Lemma itoa_loop_val fuel n b :
  0 <= n < 2 ^ Z.of_nat fuel →
  digits_val (itoa_loop fuel n b) = n * 10 ^ len b + digits_val b.
Proof.
  revert n b. induction fuel as [|fuel IH]; intros n b Hn.
  { simpl in Hn. assert (n = 0) as -> by lia. simpl. lia. }
  rewrite Nat2Z.inj_succ, Z.pow_succ_r in Hn by lia.
  cbn [itoa_loop]. destruct (0 <? n) eqn:H0.
  - rewrite IH by (Z.div_mod_to_equations; lia).
    rewrite digits_val_cons, digit_val_of by (Z.div_mod_to_equations; lia).
    replace (len (_ :: b)) with (Z.succ (len b)) by (unfold len; simpl; lia).
    rewrite Z.pow_succ_r by (pose proof (len_nonneg b); lia).
    rewrite (Z.div_mod n 10) at 3 by lia. lia.
  - assert (n = 0) as -> by lia. lia.
Qed.

Lemma itoa_loop_digits fuel n b :
  forallb digit_byte b = true → 0 <= n → forallb digit_byte (itoa_loop fuel n b) = true.
Proof.
  revert n b. induction fuel as [|fuel IH]; intros n b Hb Hn; cbn [itoa_loop]; [done|].
  destruct (0 <? n); [|done]. apply IH; [|Z.div_mod_to_equations; lia].
  cbn [forallb]. rewrite digit_byte_of, Hb; [done|]. Z.div_mod_to_equations; lia.
Qed.

Lemma itoa_fuel_enough n : 0 < n → n < 2 ^ Z.of_nat (itoa_fuel n).
Proof.
  intros Hn. unfold itoa_fuel. pose proof (Z.log2_spec n Hn).
  pose proof (Z.log2_nonneg n). rewrite Nat2Z.inj_succ, Z2Nat.id by lia. lia.
Qed.

Lemma decimal_val n : 0 <= n → digits_val (decimal n) = n.
Proof.
  intros Hn. unfold decimal. destruct (n =? 0) eqn:H0; [assert (n = 0) as -> by lia; done|].
  rewrite itoa_loop_val; [|pose proof (itoa_fuel_enough n); lia].
  change (digits_val []) with 0. unfold len. simpl. lia.
Qed.

Lemma decimal_digits n : 0 <= n → forallb digit_byte (decimal n) = true.
Proof.
  intros Hn. unfold decimal. destruct (n =? 0); [done|]. by apply itoa_loop_digits.
Qed.

Lemma decimal_inj n m : 0 <= n → 0 <= m → decimal n = decimal m → n = m.
Proof. intros Hn Hm E. rewrite <- (decimal_val n), <- (decimal_val m), E; done. Qed.

(** ** Scanning loops

    The program scans text with one loop shape: decode the rune at [i]; if it
    cannot start a word, handle it alone; otherwise let a scanner advance [i] past
    the word and handle the whole word. [pieces] is that loop; [scan] returns the
    word and the remaining chunks. *)

Abbreviation chunk := (Z * bytes)%type.

Inductive piece :=
| Gap (c : chunk)
| Word (w : list chunk).

Definition piece_chunks (p : piece) : list chunk :=
  match p with Gap c => [c] | Word w => w end.

(** [scan cs] advances past a run of runes satisfying [p]; a hyphen is allowed
    inside the word, between two such runes, when [hyphen] is set. *)
Fixpoint scan_run (p : Z → bool) (hyphen : bool) (cs : list chunk) : list chunk * list chunk :=
  match cs with
  | [] => ([], [])
  | (r, b) :: cs' =>
      let more :=
        p r || (hyphen && (r =? 0x2D) && match cs' with (nr, _) :: _ => p nr | [] => false end) in
      if more then let '(w, rest) := scan_run p hyphen cs' in ((r, b) :: w, rest)
      else ([], cs)
  end.

Section Pieces.
Context (starts : Z → bool) (scan : list chunk → list chunk * list chunk).

Fixpoint pieces_fuel (fuel : nat) (cs : list chunk) : list piece :=
  match fuel, cs with
  | S fuel, (r, b) :: cs' =>
      if starts r then let '(w, rest) := scan cs in Word w :: pieces_fuel fuel rest
      else Gap (r, b) :: pieces_fuel fuel cs'
  | _, _ => []
  end.

Definition pieces (cs : list chunk) : list piece := pieces_fuel (length cs) cs.

(** A scanner splits its input, and consumes at least the rune it starts on. *)
Class Scanner : Prop := {
  scan_split cs : (scan cs).1 ++ (scan cs).2 = cs;
  scan_progress r b cs : starts r = true → (scan ((r, b) :: cs)).1 ≠ []
}.

Context `{!Scanner}.

Lemma scan_shorter r b cs :
  starts r = true → (length (scan ((r, b) :: cs)).2 <= length cs)%nat.
Proof.
  intros Hr. pose proof (scan_split ((r, b) :: cs)) as Hs.
  pose proof (length_positive _ (scan_progress r b cs Hr)) as Hp.
  apply (f_equal length) in Hs. rewrite length_app in Hs. simpl in Hs. lia.
Qed.

Lemma pieces_fuel_more n m cs :
  (length cs <= n)%nat → (length cs <= m)%nat → pieces_fuel n cs = pieces_fuel m cs.
Proof.
  revert m cs. induction n as [|n IH]; intros [|m] [|[r b] cs] Hn Hm; simpl in *; try done; try lia.
  destruct (starts r) eqn:Hr.
  - pose proof (scan_shorter r b cs Hr) as Hl. destruct (scan ((r, b) :: cs)) as [w rest].
    simpl in Hl. f_equal. apply IH; lia.
  - f_equal. apply IH; lia.
Qed.

Lemma pieces_gap r b cs :
  starts r = false → pieces ((r, b) :: cs) = Gap (r, b) :: pieces cs.
Proof. intros Hr. unfold pieces. simpl. by rewrite Hr. Qed.

Lemma pieces_word r b cs :
  starts r = true →
  pieces ((r, b) :: cs) = Word (scan ((r, b) :: cs)).1 :: pieces (scan ((r, b) :: cs)).2.
Proof.
  intros Hr. unfold pieces. simpl. rewrite Hr. pose proof (scan_shorter r b cs Hr) as Hl.
  destruct (scan ((r, b) :: cs)) as [w rest]. simpl in *. f_equal. apply pieces_fuel_more; lia.
Qed.

(** Induction over the pieces of a text. *)
Lemma pieces_ind (P : list chunk → list piece → Prop) :
  P [] [] →
  (∀ r b cs, starts r = false → P cs (pieces cs) → P ((r, b) :: cs) (Gap (r, b) :: pieces cs)) →
  (∀ r b cs w rest, starts r = true → scan ((r, b) :: cs) = (w, rest) →
     w ++ rest = (r, b) :: cs → w ≠ [] → P rest (pieces rest) →
     P ((r, b) :: cs) (Word w :: pieces rest)) →
  ∀ cs, P cs (pieces cs).
Proof.
  intros H0 Hgap Hword cs. induction (Nat.lt_wf_0_projected (@length chunk) cs) as [cs _ IH].
  destruct cs as [|[r b] cs]; [done|]. destruct (starts r) eqn:Hr.
  - rewrite pieces_word by done. pose proof (scan_shorter r b cs Hr) as Hl.
    pose proof (scan_split ((r, b) :: cs)) as Hs. pose proof (scan_progress r b cs Hr) as Hp.
    destruct (scan ((r, b) :: cs)) as [w rest] eqn:Hscan. simpl in *.
    eapply Hword; eauto. apply IH. simpl. lia.
  - rewrite pieces_gap by done. apply Hgap; [done|]. apply IH. simpl. lia.
Qed.

(** The pieces cover the text exactly. *)
Lemma pieces_cover cs : concat (map piece_chunks (pieces cs)) = cs.
Proof.
  apply (pieces_ind (λ cs ps, concat (map piece_chunks ps) = cs)); simpl.
  - done.
  - by intros r b cs' _ ->.
  - by intros r b cs' w rest _ _ Hs _ ->.
Qed.
End Pieces.

Lemma scan_run_split p hyphen cs : (scan_run p hyphen cs).1 ++ (scan_run p hyphen cs).2 = cs.
Proof.
  induction cs as [|[r b] cs IH]; simpl; [done|]. case_match; [|done].
  destruct (scan_run p hyphen cs) as [w rest]. simpl in *. by rewrite IH.
Qed.

#[export] Instance scan_run_scanner p hyphen : Scanner p (scan_run p hyphen).
Proof.
  split; [apply scan_run_split|]. intros r b cs Hr. simpl. rewrite Hr. simpl.
  by destruct (scan_run p hyphen cs).
Qed.

(** A scanned word holds only runes of the class, and hyphens. *)
Lemma scan_run_runes p hyphen cs :
  Forall (λ c, p (fst c) = true ∨ fst c = 0x2D) (scan_run p hyphen cs).1.
Proof.
  induction cs as [|[r b] cs IH]; simpl; [constructor|]. case_match eqn:E; [|constructor].
  destruct (scan_run p hyphen cs) as [w rest]. constructor; [simpl|done].
  destruct (p r); [by left|right; lia].
Qed.

(** A scanned word without hyphens holds only runes of the class. *)
Lemma scan_run_class p cs : Forall (λ c, p (fst c) = true) (scan_run p false cs).1.
Proof.
  induction cs as [|[r b] cs IH]; simpl; [constructor|]. case_match eqn:E; [|constructor].
  destruct (scan_run p false cs) as [w rest]. constructor; [simpl|done]. lia.
Qed.

(** How a chunk was decoded: an invalid byte, or a scalar value from its encoding. *)
Definition chunk_ok (c : chunk) : Prop :=
  fst c = rune_error ∨ valid_rune (fst c) = true ∧ snd c = encode_rune (fst c).

Lemma chunks_ok s : Forall chunk_ok (chunks s).
Proof.
  induction s as [|s Hs IH] using rune_ind; [constructor|]. rewrite chunks_cons by done.
  constructor; [|done]. unfold chunk_ok. simpl.
  destruct (decode_rune_spec s Hs) as [->|[? ?]]; [by left|by right].
Qed.

Lemma raw_valid cs :
  Forall chunk_ok cs → Forall (λ c, fst c ≠ rune_error) cs → raw cs = encode_runes (map fst cs).
Proof.
  unfold raw, encode_runes. induction 1 as [|c cs Hc _ IH]; intros Hne; simpl; [done|].
  apply Forall_cons_1 in Hne as [Hn Hne]. destruct Hc as [?|[_ ->]]; [done|]. by rewrite IH.
Qed.

(** What every piece of a text is: a word starts with a starting rune, and its
    runes come from the scanner; a gap is a rune that starts nothing. *)
Lemma pieces_spec starts scan `{!Scanner starts scan} cs :
  Forall (λ p, match p with
    | Gap c => starts (fst c) = false
    | Word w => ∃ c w' cs' rest, w = c :: w' ∧ starts (fst c) = true ∧ scan cs' = (w, rest)
    end) (pieces starts scan cs).
Proof.
  apply (pieces_ind starts scan (λ cs ps, Forall _ ps)); [constructor| |].
  - intros r b cs' Hr IH. by constructor.
  - intros r b cs' w rest Hr Hscan Hsplit Hw IH. constructor; [|done].
    destruct w as [|c w]; [done|]. injection Hsplit as -> _. eauto 8.
Qed.

Lemma pieces_nonempty starts scan `{!Scanner starts scan} (f : piece → bytes) cs :
  (∀ c, f (Gap c) ≠ []) → (∀ w, raw w ≠ [] → f (Word w) ≠ []) →
  cs ≠ [] → Forall (λ c, snd c ≠ []) cs → concat (map f (pieces starts scan cs)) ≠ [].
Proof.
  intros Hg Hw Hne Hcs. destruct cs as [|[r b] cs]; [done|]. apply Forall_cons_1 in Hcs as [Hb _].
  destruct (starts r) eqn:Hr.
  - pose proof (scan_split starts scan ((r, b) :: cs)) as Hs.
    pose proof (scan_progress starts scan r b cs Hr) as Hp.
    rewrite pieces_word by done. destruct (scan ((r, b) :: cs)) as [w rest]. simpl in *.
    intros [E _]%app_nil. eapply Hw; [|exact E].
    destruct w as [|c w]; [done|]. injection Hs as -> _. unfold raw. simpl.
    intros [? _]%app_nil. done.
  - rewrite pieces_gap by done. simpl. intros [E _]%app_nil. by eapply Hg.
Qed.

Lemma chunks_not_nil s : s ≠ [] → chunks s ≠ [].
Proof. intros Hs. by rewrite chunks_cons. Qed.

(** Output written piece by piece as encodings of scalar values. *)
Lemma runes_of_pieces (f : piece → bytes) (out : piece → list Z) ps :
  Forall (λ p, f p = encode_runes (out p) ∧ Forall (λ r, valid_rune r = true) (out p)) ps →
  runes (concat (map f ps)) = concat (map out ps).
Proof.
  induction 1 as [|p ps [Hf Hv] _ IH]; simpl; [done|].
  by rewrite Hf, runes_encode_runes, IH.
Qed.

Lemma Forall2_concat {A B : Type} (R : A → B → Prop) (ls : list (list A)) (ks : list (list B)) :
  Forall2 (Forall2 R) ls ks → Forall2 R (concat ls) (concat ks).
Proof. induction 1; simpl; [constructor|]. by apply Forall2_app. Qed.

Lemma concat_inj_lengths {A : Type} (ls ks : list (list A)) :
  Forall2 (λ l k, length l = length k) ls ks → concat ls = concat ks → ls = ks.
Proof.
  induction 1 as [|l k ls ks Hl _ IH]; simpl; intros E; [done|].
  apply app_inj_1 in E as [-> E]; [|done]. by rewrite IH.
Qed.

(** ** ASCII strings *)

Definition is_ascii (s : bytes) : bool := forallb (λ b, byte_val b <? 0x80) s.

Lemma chunks_ascii s : is_ascii s = true → chunks s = map (λ b, (byte_val b, [b])) s.
Proof.
  induction s as [|b s IH]; intros Ha; [done|]. simpl in Ha. apply andb_true_iff in Ha as [Hb Ha].
  rewrite chunks_cons by done. unfold decode_rune. rewrite Hb. cbn [fst snd map].
  change (drop 1 (b :: s)) with s. by rewrite IH.
Qed.

Lemma encode_ascii r : 0 <= r < 0x80 → encode_rune r = [byte_of r].
Proof.
  intros Hr. unfold encode_rune, max_rune, in_rng.
  match goal with |- context [if ?b then rune_error else _] => replace b with false by lia end.
  by replace (r <=? 0x7F) with true by lia.
Qed.

Lemma map_runes_ascii f s :
  is_ascii s = true → (∀ r, 0 <= r < 0x80 → 0 <= f r < 0x80) →
  map_runes f s = map (λ b, byte_of (f (byte_val b))) s.
Proof.
  intros Hs Hf. unfold map_runes, runes. rewrite chunks_ascii by done.
  unfold encode_runes. rewrite !map_map. cbn [fst].
  induction s as [|b s IH]; simpl; [done|]. simpl in Hs. apply andb_true_iff in Hs as [Hb Hs].
  rewrite encode_ascii by (apply Hf; pose proof (byte_val_range b); lia). simpl. by rewrite IH.
Qed.

Definition ascii_upper_byte (b : byte) : byte :=
  if ascii_lower (byte_val b) then byte_of (byte_val b - 32) else b.

Definition ascii_lower_byte (b : byte) : byte :=
  if ascii_upper (byte_val b) then byte_of (byte_val b + 32) else b.

Lemma upper_string_ascii `{Unicode} s : is_ascii s = true → upper_string s = map ascii_upper_byte s.
Proof.
  intros Hs. unfold upper_string. rewrite map_runes_ascii by
    (done || (intros; rewrite to_upper_ascii by lia; unfold ascii_lower, in_rng; case_match; lia)).
  apply map_ext_in. intros b Hb. unfold is_ascii in Hs. rewrite forallb_forall in Hs.
  specialize (Hs b Hb). pose proof (byte_val_range b). rewrite to_upper_ascii by lia.
  unfold ascii_upper_byte. case_match; [done|]. by rewrite byte_of_val.
Qed.

Lemma lower_string_ascii `{Unicode} s : is_ascii s = true → lower_string s = map ascii_lower_byte s.
Proof.
  intros Hs. unfold lower_string. rewrite map_runes_ascii by
    (done || (intros; rewrite to_lower_ascii by lia; unfold ascii_upper, in_rng; case_match; lia)).
  apply map_ext_in. intros b Hb. unfold is_ascii in Hs. rewrite forallb_forall in Hs.
  specialize (Hs b Hb). pose proof (byte_val_range b). rewrite to_lower_ascii by lia.
  unfold ascii_lower_byte. case_match; [done|]. by rewrite byte_of_val.
Qed.

(** A separator that the right part does not contain splits a string uniquely. *)
Lemma split_last_inj {A : Type} (sep : A) (l k l' k' : list A) :
  sep ∉ k → sep ∉ k' → l ++ sep :: k = l' ++ sep :: k' → l = l' ∧ k = k'.
Proof.
  intros Hk Hk' E. apply app_eq_inv in E as [(m & -> & E)|(m & -> & E)];
    destruct m as [|x m]; simpl in E; simplify_eq.
  - by rewrite app_nil_r.
  - exfalso. apply Hk'. rewrite elem_of_app. right. left.
  - by rewrite app_nil_r.
  - exfalso. apply Hk. rewrite elem_of_app. right. left.
Qed.

(** A sequence of soundly decoded chunks decodes to itself. *)
Lemma chunks_raw w :
  Forall chunk_ok w → Forall (λ c, fst c ≠ rune_error) w → chunks (raw w) = w.
Proof.
  unfold raw. induction 1 as [|c w Hc _ IH]; intros Hne; simpl; [done|].
  apply Forall_cons_1 in Hne as [Hn Hne]. destruct Hc as [?|[Hv Hs]]; [done|].
  rewrite Hs, chunks_encode by done. rewrite IH by done. destruct c; simpl in *. by subst.
Qed.

(** Decoding looks at no byte behind the rune. *)
Lemma decode_rune_take k s : (snd (decode_rune s) <= k)%nat → decode_rune (take k s) = decode_rune s.
Proof.
  unfold decode_rune. destruct s as [|b0 [|b1 [|b2 [|b3 t]]]], k as [|[|[|[|k]]]]; cbn [firstn];
    repeat case_match; simpl; intros; done || lia.
Qed.

(** A run of runes of a text reads the same alone. *)
Lemma chunks_run s u v w : chunks s = u ++ v ++ w → chunks (raw v) = v.
Proof.
  revert s. induction u as [|c u IH]; intros s Hs; cbn [app] in Hs.
  - revert s Hs. induction v as [|c v IH]; intros s Hs; [done|].
    assert (s ≠ []) as Hne by (intros ->; done). pose proof (decode_rune_width s Hne) as Hw.
    rewrite chunks_cons in Hs by done. set (n := snd (decode_rune s)) in *. injection Hs as Hc Hs.
    specialize (IH _ Hs). assert (drop n s = raw v ++ raw w) as Hd.
    { rewrite <- (raw_chunks (drop n s)), Hs. unfold raw. by rewrite map_app, concat_app. }
    assert (raw (c :: v) = take (n + length (raw v)) s) as Hraw.
    { rewrite <- Hc. change (raw ((?x, ?y) :: v)) with (y ++ raw v).
      rewrite <- (take_drop n s) at 2. rewrite take_app_add' by (rewrite length_take; lia).
      f_equal. by rewrite Hd, take_app_exact. }
    rewrite Hraw, chunks_cons by (destruct s; [done|]; by destruct n; [lia|]).
    rewrite decode_rune_take by lia. fold n. rewrite take_take, Nat.min_l by lia.
    rewrite skipn_firstn_comm, Hd, take_app_exact by lia. by rewrite IH, Hc.
  - assert (s ≠ []) as Hne by (intros ->; done). rewrite chunks_cons in Hs by done. injection Hs as _ Hs.
    by eapply IH.
Qed.

(** Where a scanner without hyphens stops, no rune of the class starts. *)
Lemma scan_run_stop p cs :
  match (scan_run p false cs).2 with [] => True | c :: _ => p (fst c) = false end.
Proof.
  induction cs as [|[r b] cs IH]; simpl; [done|]. destruct (p r) eqn:E; simpl; [|done].
  by destruct (scan_run p false cs).
Qed.

(** Lower-case ASCII and Russian text is its own lower case. *)
Definition lower_fixed (r : Z) : bool :=
  in_rng 0 0x7F r && negb (ascii_upper r) || ru_lower r || (r =? 0x451).

Lemma to_lower_fixed `{Unicode} r : lower_fixed r = true → to_lower r = r.
Proof.
  unfold lower_fixed, ru_lower. intros Hr.
  destruct (in_rng 0 0x7F r && negb (ascii_upper r)) eqn:E1.
  { apply andb_true_iff in E1 as [E1 E2]. unfold in_rng in E1. rewrite to_lower_ascii by lia.
    by apply negb_true_iff in E2 as ->. }
  destruct (in_rng 0x430 0x44F r) eqn:E2.
  - unfold in_rng in E2. rewrite to_lower_ru by (unfold in_rng; lia).
    by replace (in_rng 0x410 0x42F r) with false by (unfold in_rng; lia).
  - assert (r = 0x451) as -> by lia. apply to_lower_yo.
Qed.

Lemma lower_string_fixed `{Unicode} s :
  utf8_valid s → forallb lower_fixed (runes s) = true → lower_string s = s.
Proof.
  intros Hv Hf. unfold lower_string, map_runes. rewrite <- (utf8_valid_encode s Hv) at 2. f_equal.
  rewrite <- (map_id (runes s)) at 2. apply map_ext_in. intros r Hr. apply to_lower_fixed.
  rewrite forallb_forall in Hf. auto.
Qed.

(** *** Bytes above ASCII *)

Lemma decode_rune_ascii b s : byte_val b < 0x80 → decode_rune (b :: s) = (byte_val b, 1%nat).
Proof. intros Hb. unfold decode_rune. by replace (byte_val b <? 0x80) with true by lia. Qed.

Lemma encode_rune_high r : 0x80 <= r → Forall (λ b, 0x80 <= byte_val b) (encode_rune r).
Proof.
  intros Hr. unfold encode_rune.
  destruct ((r <? 0) || (max_rune <? r) || in_rng 0xD800 0xDFFF r) eqn:E.
  { by vm_compute; repeat constructor. }
  unfold max_rune, in_rng in E. replace (r <=? 0x7F) with false by lia.
  repeat case_match; repeat constructor; rewrite byte_val_of; Z.div_mod_to_equations; lia.
Qed.

(** A rune that does not start with an ASCII byte has no ASCII byte, and is not
    an ASCII rune. *)
Lemma decode_rune_high b s :
  0x80 <= byte_val b →
  0x80 <= fst (decode_rune (b :: s)) ∧
  Forall (λ b, 0x80 <= byte_val b) (take (snd (decode_rune (b :: s))) (b :: s)).
Proof.
  intros Hb. destruct (decode_rune_spec (b :: s)) as [->|[Hv He]]; [done| |].
  { unfold rune_error. split; [simpl; lia|]. by repeat constructor. }
  destruct (decide (0x80 <= fst (decode_rune (b :: s)))) as [Hr|Hr].
  - split; [done|]. rewrite He. by apply encode_rune_high.
  - exfalso. unfold valid_rune in Hv. rewrite encode_ascii in He by lia.
    pose proof (decode_rune_width (b :: s) ltac:(done)) as Hw.
    destruct (snd (decode_rune (b :: s))) as [|n]; [lia|]. simpl in He. injection He as He _.
    rewrite He, byte_val_of in Hb by lia. lia.
Qed.

(** Selecting ASCII runes of a class is selecting the bytes of the class. *)
Lemma raw_filter_ascii (p : Z → bool) s :
  (∀ r, p r = true → 0 <= r < 0x80) →
  raw (List.filter (λ c, p (fst c)) (chunks s)) = List.filter (λ b, p (byte_val b)) s.
Proof.
  intros Hp. induction s as [|s Hs IH] using rune_ind; [done|].
  rewrite chunks_cons by done. transitivity (List.filter (λ b, p (byte_val b))
    (take (snd (decode_rune s)) s ++ drop (snd (decode_rune s)) s)); [|by rewrite take_drop].
  rewrite List.filter_app, <- IH. cbn [List.filter fst]. clear IH.
  destruct s as [|b s]; [done|]. destruct (decide (byte_val b < 0x80)) as [Hb|Hb].
  - rewrite decode_rune_ascii by done. simpl. by destruct (p (byte_val b)).
  - destruct (decode_rune_high b s ltac:(lia)) as [Hr Hf].
    assert (p (fst (decode_rune (b :: s))) = false) as ->.
    { destruct (p _) eqn:E; [|done]. specialize (Hp _ E). lia. }
    assert (List.filter (λ b, p (byte_val b)) (take (snd (decode_rune (b :: s))) (b :: s)) = []) as ->; [|done].
    induction Hf as [|c l Hc _ IH]; [done|]. simpl. destruct (p (byte_val c)) eqn:E; [|done].
    specialize (Hp _ E). lia.
Qed.

(** *** Splitting and trimming ASCII text *)

Definition ascii_chunks (s : bytes) : list chunk := map (λ b, (byte_val b, [b])) s.

Lemma chunk_words_word p w rest cur :
  forallb (λ b, p (byte_val b)) w = true →
  chunk_words p (ascii_chunks w ++ rest) cur = chunk_words p rest (cur ++ w).
Proof.
  revert cur. induction w as [|b w IH]; intros cur Hw; [by rewrite app_nil_r|].
  cbn [forallb] in Hw. apply andb_true_iff in Hw as [Hb Hw].
  cbn [ascii_chunks map app chunk_words]. rewrite Hb.
  change (map (λ b, (byte_val b, [b])) w) with (ascii_chunks w). rewrite IH by done.
  by rewrite <- app_assoc.
Qed.

(** A word, a separator, and the rest. *)
Lemma fields_func_cons sep w b s :
  is_ascii (w ++ b :: s) = true → w ≠ [] → forallb (λ b, negb (sep (byte_val b))) w = true →
  sep (byte_val b) = true → fields_func sep (w ++ b :: s) = w :: fields_func sep s.
Proof.
  intros Ha Hw Hn Hb. unfold fields_func. rewrite chunks_ascii by done.
  unfold is_ascii in Ha. rewrite forallb_app in Ha. cbn [forallb] in Ha.
  rewrite map_app. cbn [map]. change (map (λ b, (byte_val b, [b])) ?l) with (ascii_chunks l).
  rewrite chunk_words_word by done. cbn [app chunk_words]. rewrite Hb. cbn [negb].
  rewrite decide_False by done. rewrite (chunks_ascii s); [done|].
  unfold is_ascii. destruct (forallb _ s); [done|lia].
Qed.

Lemma fields_func_last sep w :
  is_ascii w = true → w ≠ [] → forallb (λ b, negb (sep (byte_val b))) w = true →
  fields_func sep w = [w].
Proof.
  intros Ha Hw Hn. unfold fields_func. rewrite chunks_ascii by done.
  rewrite <- (app_nil_r (map _ w)). change (map (λ b, (byte_val b, [b])) ?l) with (ascii_chunks l).
  rewrite chunk_words_word by done. cbn [app chunk_words]. by rewrite decide_False.
Qed.

Lemma drop_spaces_id cs :
  Forall (λ c, is_space (fst c) = false) cs → drop_spaces cs = cs.
Proof. destruct 1 as [|[r b] cs Hc _]; [done|]. simpl in *. by rewrite Hc. Qed.

Lemma trim_space_id s : forallb (λ r, negb (is_space r)) (runes s) = true → trim_space s = s.
Proof.
  intros Hs. assert (Forall (λ c, is_space (fst c) = false) (chunks s)) as Hf.
  { apply Forall_forall. intros c Hc. rewrite forallb_forall in Hs.
    apply negb_true_iff, Hs, in_map_iff. exists c. split; [done|by apply list_elem_of_In]. }
  unfold trim_space. rewrite (drop_spaces_id (chunks s)) by done.
  rewrite drop_spaces_id by (by apply Forall_rev). rewrite rev_involutive. apply raw_chunks.
Qed.

Lemma runes_ascii s : is_ascii s = true → runes s = map byte_val s.
Proof. intros Hs. unfold runes. rewrite chunks_ascii by done. by rewrite map_map. Qed.

Lemma valid_ascii s : is_ascii s = true → utf8_valid s.
Proof.
  intros Hs. unfold utf8_valid. rewrite chunks_ascii by done. apply Forall_map, Forall_forall.
  intros b Hb. unfold is_ascii in Hs. rewrite forallb_forall in Hs.
  specialize (Hs b ltac:(by apply list_elem_of_In)). pose proof (byte_val_range b).
  unfold chunk_valid. simpl. rewrite encode_ascii by lia. by rewrite byte_of_val.
Qed.

(** A byte class inside another, on whole strings. *)
Lemma forallb_impl {A : Type} (p q : A → bool) l :
  (∀ x, p x = true → q x = true) → forallb p l = true → forallb q l = true.
Proof. intros Hpq. rewrite !forallb_forall. auto. Qed.

(** [atoi] on a short digit string. *)
Lemma digits_val_bound s : forallb digit_byte s = true → 0 <= digits_val s < 10 ^ len s.
Proof.
  induction s as [|b s IH] using rev_ind; intros Hs; [by vm_compute|].
  rewrite forallb_app in Hs. apply andb_true_iff in Hs as [Hs Hb]. specialize (IH Hs).
  rewrite digits_val_snoc, len_app. change (len [b]) with 1.
  rewrite Z.pow_add_r by (pose proof (len_nonneg s); lia).
  cbn [forallb] in Hb. unfold digit_byte, ascii_digit, in_rng, digit_val in *. lia.
Qed.

Lemma atoi_digits s :
  s ≠ [] → forallb digit_byte s = true → len s <= 18 → atoi s = Some (digits_val s).
Proof.
  intros Hne Hs Hl. pose proof (digits_val_bound s Hs) as Hb. destruct s as [|b s]; [done|].
  assert (10 ^ len (b :: s) <= 10 ^ 18) by (apply Z.pow_le_mono_r; lia).
  unfold atoi. cbn [forallb] in Hs. pose proof Hs as [Hd _]%andb_true_iff.
  unfold digit_byte, ascii_digit, in_rng in Hd.
  replace (byte_val b =? 0x2D) with false by lia. replace (byte_val b =? 0x2B) with false by lia.
  cbn [forallb]. rewrite Hs, bool_decide_false by done. cbn [negb orb].
  unfold int_min, int_max. case_match; [done|lia].
Qed.

(** *** Cutting valid UTF-8

    A position of a valid string is a rune boundary when it is the end or holds the
    first byte of a rune. *)

Definition rune_boundary (s : bytes) (i : Z) : Prop :=
  0 <= i <= len s ∧ (i = len s ∨ ∃ b, s !! Z.to_nat i = Some b ∧ rune_start b = true).

#[export] Instance rune_boundary_dec s i : Decision (rune_boundary s i).
Proof.
  unfold rune_boundary. destruct (s !! Z.to_nat i) as [b|] eqn:E.
  - destruct (decide (0 <= i <= len s ∧ (i = len s ∨ rune_start b = true))) as [H|H].
    + left. split; [tauto|]. destruct H as [_ [H|H]]; [by left|right; by exists b].
    + right. intros [? [?|(b' & [= <-] & ?)]]; tauto.
  - destruct (decide (0 <= i <= len s ∧ i = len s)) as [H|H]; [left|right]; [tauto|].
    intros [? [?|(b' & ? & ?)]]; [tauto|done].
Defined.

Lemma cont_rune_start b : 0x80 <= byte_val b <= 0xBF → rune_start b = false.
Proof. unfold rune_start, is_cont, in_rng. lia. Qed.

Lemma encode_rune_tail r i b :
  encode_rune r !! S i = Some b → rune_start b = false.
Proof.
  assert (∀ r', 0 <= r' <= max_rune → Forall (λ b, rune_start b = false) (tail
    (if r' <=? 0x7F then [byte_of r']
     else if r' <=? 0x7FF then [byte_of (0xC0 + r' / 64); byte_of (0x80 + r' mod 64)]
     else if r' <=? 0xFFFF then
       [byte_of (0xE0 + r' / 4096); byte_of (0x80 + (r' / 64) mod 64); byte_of (0x80 + r' mod 64)]
     else
       [byte_of (0xF0 + r' / 262144); byte_of (0x80 + (r' / 4096) mod 64);
        byte_of (0x80 + (r' / 64) mod 64); byte_of (0x80 + r' mod 64)]))) as Ht.
  { intros r' Hr. repeat case_match; repeat constructor; apply cont_rune_start;
      rewrite byte_val_of; Z.div_mod_to_equations; lia. }
  intros Hb. assert (tail (encode_rune r) !! i = Some b) as Hb' by (by destruct (encode_rune r)).
  unfold encode_rune in Hb'. eapply (Forall_lookup_1 (λ b, rune_start b = false)) in Hb'; [exact Hb'|]. apply Ht.
  clear Hb Hb' Ht. unfold rune_error, max_rune, in_rng.
  destruct ((r <? 0) || (0x10FFFF <? r) || _) eqn:E; lia.
Qed.

Lemma valid_first b t : utf8_valid (b :: t) → rune_start b = true.
Proof.
  unfold utf8_valid. rewrite chunks_cons by done. intros [Hc _]%Forall_cons_1.
  unfold chunk_valid in Hc. cbn [fst snd] in Hc.
  destruct (decide (byte_val b < 0x80)); [unfold rune_start, is_cont, in_rng; lia|].
  pose proof (decode_rune_width (b :: t) ltac:(done)) as Hw.
  destruct (rune_start b) eqn:E; [done|exfalso].
  assert (0x80 <= byte_val b <= 0xBF) by (unfold rune_start, is_cont, in_rng in E; lia).
  assert (decode_rune (b :: t) = (rune_error, 1%nat)) as Hd.
  { unfold decode_rune. replace (byte_val b <? 0x80) with false by lia.
    unfold in_rng. by repeat match goal with
      |- context [(?a <=? byte_val b) && (byte_val b <=? ?c)] =>
        replace ((a <=? byte_val b) && (byte_val b <=? c)) with false by lia end. }
  rewrite Hd in Hc. cbn in Hc. apply (f_equal length) in Hc. by vm_compute in Hc.
Qed.

Lemma utf8_cut s i :
  utf8_valid s → rune_boundary s i → utf8_valid (take (Z.to_nat i) s) ∧ utf8_valid (drop (Z.to_nat i) s).
Proof.
  intros Hs. rewrite <- (utf8_valid_encode s Hs). pose proof (runes_valid s) as Hr. revert Hr i.
  generalize (runes s). clear s Hs. intros rs Hr.
  induction Hr as [|r rs Hr Hrs IH]; intros i [Hi Hb].
  { change (encode_runes []) with (@nil byte).
    rewrite take_nil, drop_nil. split; constructor. }
  assert (utf8_valid (encode_rune r)) as Hv.
  { rewrite <- (app_nil_r (encode_rune r)). apply (encode_runes_valid [r]). by repeat constructor. }
  change (encode_runes (r :: rs)) with (encode_rune r ++ encode_runes rs) in *.
  destruct (decide (len (encode_rune r) <= i)) as [Hge|Hlt].
  - rewrite take_app_ge, drop_app_ge by (unfold len in Hge; lia).
    replace (Z.to_nat i - length (encode_rune r))%nat with (Z.to_nat (i - len (encode_rune r)))
      by (unfold len in *; lia).
    destruct (IH (i - len (encode_rune r))) as [H1 H2].
    + rewrite len_app in *. split; [lia|]. destruct Hb as [->|(b & Hb & ?)]; [left; lia|right].
      exists b. split; [|done]. rewrite lookup_app_r in Hb by (unfold len in Hge; lia).
      rewrite <- Hb. f_equal. unfold len in *. lia.
    + split; [by apply utf8_valid_app|done].
  - destruct (Z.to_nat i) as [|n] eqn:En.
    { rewrite take_0, drop_0. split; [constructor|]. apply utf8_valid_app; [done|]. by apply encode_runes_valid. }
    exfalso. destruct Hb as [->|(b & Hb & Hst)].
    + rewrite len_app in Hlt. pose proof (len_nonneg (encode_runes rs)). lia.
    + rewrite lookup_app_l in Hb by (unfold len in Hlt; lia).
      apply encode_rune_tail in Hb. congruence.
Qed.

(** The byte after an ASCII byte is a rune boundary. *)
Lemma boundary_after_ascii s i b :
  utf8_valid s → s !! Z.to_nat i = Some b → byte_val b < 0x80 → 0 <= i → rune_boundary s (i + 1).
Proof.
  intros Hs Hb Hlt Hi. pose proof (lookup_lt_Some _ _ _ Hb) as Hl.
  destruct (utf8_cut s i Hs) as [_ Hd].
  { split; [unfold len; lia|]. right. exists b. split; [done|]. unfold rune_start, is_cont, in_rng. lia. }
  rewrite (drop_S _ _ _ Hb) in Hd. split; [unfold len; lia|].
  unfold utf8_valid in Hd. rewrite chunks_cons in Hd by done.
  rewrite decode_rune_ascii in Hd by done. apply Forall_cons_1 in Hd as [_ Hd]. cbn [snd] in Hd.
  change (drop 1 (b :: ?t)) with t in Hd.
  destruct (drop (S (Z.to_nat i)) s) as [|c t] eqn:E.
  - left. apply (f_equal length) in E. rewrite length_drop in E. simpl in E. unfold len. lia.
  - right. exists c. split; [|by apply (valid_first c t)].
    replace (Z.to_nat (i + 1)) with (S (Z.to_nat i)) by lia.
    pose proof (lookup_drop s (S (Z.to_nat i)) 0) as Hd0. rewrite E, Nat.add_0_r in Hd0. by rewrite <- Hd0.
Qed.

(** A slice between rune boundaries is valid. *)
Lemma utf8_slice s a b :
  utf8_valid s → rune_boundary s a → rune_boundary s b → a <= b → utf8_valid (slice s a b).
Proof.
  intros Hs Ha [Hb1 Hb2] Hab. destruct (utf8_cut s a Hs Ha) as [_ Hd]. destruct Ha as [Ha _].
  unfold slice. apply (utf8_cut (drop (Z.to_nat a) s) (b - a)); [done|].
  unfold rune_boundary. rewrite len_drop. split; [lia|].
  destruct Hb2 as [->|(c & Hc & ?)]; [left; lia|right]. exists c. split; [|done].
  rewrite lookup_drop, <- Hc. f_equal. lia.
Qed.

(** ** Words *)

Lemma chunk_words_nonempty p cs cur :
  (cur ≠ [] ∨ ∃ c, c ∈ cs ∧ p (fst c) = true ∧ snd c ≠ []) → chunk_words p cs cur ≠ [].
Proof.
  revert cur. induction cs as [|[r b] cs IH]; intros cur H; cbn [chunk_words].
  { destruct H as [?|(c & []%elem_of_nil & _)]. by rewrite decide_False. }
  destruct (p r) eqn:Er.
  - apply IH. destruct H as [H|(c & [->|Hc]%elem_of_cons & Hp & Hb)].
    + left. by destruct cur.
    + left. cbn [snd] in Hb. by destruct cur, b.
    + right. by exists c.
  - destruct (decide (cur = [])) as [->|]; [|done]. apply IH. right.
    destruct H as [?|(c & [->|Hc]%elem_of_cons & Hp & Hb)]; [done| |by exists c]. cbn [fst] in Hp. congruence.
Qed.

Lemma fields_nonempty s x : x ∈ runes s → is_space x = false → fields s ≠ [].
Proof.
  intros Hx Hs. apply chunk_words_nonempty. right. apply list_elem_of_fmap in Hx as (c & -> & Hc).
  exists c. rewrite Hs. split_and!; [done|done|]. pose proof (chunks_nonempty s) as Hn.
  rewrite Forall_forall in Hn. by apply Hn.
Qed.

Lemma drop_spaces_split cs : ∃ u, cs = u ++ drop_spaces cs ∧ Forall (λ c, is_space (fst c) = true) u.
Proof.
  induction cs as [|[r b] cs (u & Hu & Hs)]; cbn [drop_spaces]; [by exists []|].
  destruct (is_space r) eqn:E; [|by exists []]. exists ((r, b) :: u). cbn [app]. rewrite <- Hu. by split; [|constructor].
Qed.

(** [TrimSpace] takes white space off both ends. *)
Lemma trim_space_split s : ∃ u w,
  s = raw u ++ trim_space s ++ raw w ∧ Forall (λ c, is_space (fst c) = true) (u ++ w).
Proof.
  destruct (drop_spaces_split (chunks s)) as (u & Hu & Hsu).
  destruct (drop_spaces_split (rev (drop_spaces (chunks s)))) as (w & Hw & Hsw).
  exists u, (rev w). split.
  - rewrite <- (raw_chunks s) at 1. rewrite Hu at 1. unfold trim_space.
    apply (f_equal (@rev _)) in Hw. rewrite rev_involutive, rev_app_distr in Hw. rewrite Hw at 1.
    unfold raw. by rewrite !map_app, !concat_app.
  - apply Forall_app. split; [done|]. apply Forall_rev, Hsw.
Qed.

Lemma len_trim_space s : len (trim_space s) <= len s.
Proof.
  destruct (trim_space_split s) as (u & w & Hs & _). rewrite Hs at 2. rewrite !len_app.
  pose proof (len_nonneg (raw u)). pose proof (len_nonneg (raw w)). lia.
Qed.

(** [strings.TrimRight(s, cutset)] for a cutset of ASCII bytes. *)
Fixpoint trim_right (cutset : list byte) (s : bytes) : bytes :=
  match s with
  | [] => []
  | b :: s =>
      match trim_right cutset s with
      | [] => if bool_decide (b ∈ cutset) then [] else [b]
      | t => b :: t
      end
  end.

Lemma trim_right_le cutset s : len (trim_right cutset s) <= len s.
Proof.
  induction s as [|b s IH]; cbn [trim_right]; [done|].
  assert (len (b :: s) = 1 + len s) as -> by (unfold len; cbn [length]; lia).
  destruct (trim_right cutset s) as [|c t].
  - case_match; unfold len in *; cbn [length] in *; lia.
  - unfold len in *. cbn [length] in *. lia.
Qed.
