(* ===== verification/Float64.v ===== *)
(** * IEEE 754 binary64

    Go's [float64], as the kernel-computable [spec_float] of Corelib with 53 bits
    of precision: comparison, the rounded operations the detectors use, and the
    order that comparison induces on the values that are not NaN. *)

From Corelib Require Export SpecFloat.
From S2P Require Import Prelude.

Abbreviation float64 := spec_float.

#[export] Instance float64_eq_dec : EqDecision float64.
Proof. solve_decision. Defined.

Definition f64_prec : Z := 53.
Definition f64_emax : Z := 1024.

(** [float64(n)] for an integer, correctly rounded. *)
Definition f64_of_Z (n : Z) : float64 := binary_normalize f64_prec f64_emax n 0 false.

Definition f64_add : float64 → float64 → float64 := SFadd f64_prec f64_emax.
Definition f64_sub : float64 → float64 → float64 := SFsub f64_prec f64_emax.
Definition f64_mul : float64 → float64 → float64 := SFmul f64_prec f64_emax.
Definition f64_div : float64 → float64 → float64 := SFdiv f64_prec f64_emax.

(** The constant [n/d], correctly rounded: the value of the decimal literal. *)
Definition f64_lit (n d : Z) : float64 := f64_div (f64_of_Z n) (f64_of_Z d).

Definition f64_eqb (x y : float64) : bool := SFeqb x y.
Definition f64_ltb (x y : float64) : bool := SFltb x y.

Definition not_nan (x : float64) : bool := match x with S754_nan => false | _ => true end.

(** Comparison is the lexicographic order of a key: sign and kind, exponent,
    mantissa. *)
Definition f64_key (x : float64) : Z * Z * Z :=
  match x with
  | S754_nan => (0, 0, 0)
  | S754_zero _ => (0, 0, 0)
  | S754_infinity s => (if s then -2 else 2, 0, 0)
  | S754_finite true m e => (-1, - e, Z.neg m)
  | S754_finite false m e => (1, e, Z.pos m)
  end.

Definition key_ltb (a b : Z * Z * Z) : bool :=
  let '(a1, a2, a3) := a in
  let '(b1, b2, b3) := b in
  (a1 <? b1) || ((a1 =? b1) && ((a2 <? b2) || ((a2 =? b2) && (a3 <? b3)))).

Ltac pos_compare :=
  repeat match goal with
  | |- context [PosDef.Pos.compare_cont Eq ?p ?q] =>
      change (PosDef.Pos.compare_cont Eq p q) with (Pos.compare p q)
  end.

Lemma f64_ltb_key x y :
  not_nan x = true → not_nan y = true → f64_ltb x y = key_ltb (f64_key x) (f64_key y).
Proof.
  unfold f64_ltb, SFltb.
  destruct x as [sx|sx| |sx mx ex], y as [sy|sy| |sy my ey]; simpl; try done; intros _ _;
    destruct sx, sy; simpl; try done; pos_compare;
    destruct (Z.compare_spec ex ey) as [->|?|?]; try lia;
    destruct (Pos.compare_spec mx my); simpl; lia.
Qed.

Lemma SFcompare_antisym x y : SFcompare y x = CompOpp <$> SFcompare x y.
Proof.
  destruct x as [sx|sx| |sx mx ex], y as [sy|sy| |sy my ey]; simpl; try done;
    destruct sx, sy; simpl; try done; pos_compare;
    rewrite (Z.compare_antisym ex ey); destruct (ex ?= ey); simpl; try done;
    rewrite (Pos.compare_antisym mx my); by destruct (mx ?= my)%positive.
Qed.

Lemma f64_eqb_ltb x y :
  not_nan x = true → not_nan y = true →
  f64_eqb x y = negb (f64_ltb x y) && negb (f64_ltb y x).
Proof.
  intros Hx Hy. unfold f64_eqb, f64_ltb, SFeqb, SFltb. rewrite (SFcompare_antisym x y).
  destruct (SFcompare x y) as [[]|] eqn:E; try done.
  destruct x, y; simpl in *; done.
Qed.

Lemma key_ltb_asym a b : key_ltb a b = true → key_ltb b a = false.
Proof. destruct a as [[??]?], b as [[??]?]. unfold key_ltb. lia. Qed.

Lemma key_ltb_ntrans a b c :
  key_ltb b a = false → key_ltb c b = false → key_ltb c a = false.
Proof. destruct a as [[??]?], b as [[??]?], c as [[??]?]. unfold key_ltb. lia. Qed.
