(* ===== verification/Pii.v ===== *)
(** * Package [pii]: categories, spans, detectors and [Resolve]

    Models [internal/pii/types.go], [internal/pii/detector.go] and
    [internal/pii/resolve.go]. *)

From S2P Require Import Prelude GoText Float64.

(** ** types.go *)

Abbreviation Category := bytes (only parsing).

Definition CatFullName : Category := "full_name".
Definition CatBirthDate : Category := "birth_date".
Definition CatBirthPlace : Category := "birth_place".
Definition CatPassport : Category := "passport".
Definition CatCitizenship : Category := "citizenship".
Definition CatPassportIssuer : Category := "passport_issuer".
Definition CatDivisionCode : Category := "division_code".
Definition CatPassportDate : Category := "passport_date".
Definition CatDriverLicense : Category := "driver_license".
Definition CatAddress : Category := "address".
Definition CatEmail : Category := "email".
Definition CatPhone : Category := "phone".
Definition CatINN : Category := "inn".
Definition CatCardNumber : Category := "card_number".
Definition CatCVV : Category := "cvv".
Definition CatPIN : Category := "pin".
Definition CatCardHolder : Category := "card_holder".
Definition CatSNILS : Category := "snils".
Definition CatForeignPassport : Category := "foreign_passport".
Definition CatIDDocument : Category := "id_document".
Definition CatDate : Category := "date".

(** Every category the pipeline can produce. *)
Definition all_categories : list Category :=
  [CatFullName; CatBirthDate; CatBirthPlace; CatPassport; CatCitizenship; CatPassportIssuer;
   CatDivisionCode; CatPassportDate; CatDriverLicense; CatAddress; CatEmail; CatPhone; CatINN;
   CatCardNumber; CatCVV; CatPIN; CatCardHolder; CatSNILS; CatForeignPassport; CatIDDocument;
   CatDate].

Record Span := MkSpan {
  sp_Start : Z;
  sp_End : Z;
  sp_Category : Category;
  sp_Detector : bytes;
  sp_Confidence : float64
}.

#[export] Instance span_inhabited : Inhabited Span :=
  populate (MkSpan 0 0 [] [] S754_nan).

#[export] Instance span_eq_dec : EqDecision Span.
Proof. solve_decision. Defined.

Definition set_category (s : Span) (c : Category) : Span :=
  MkSpan (sp_Start s) (sp_End s) c (sp_Detector s) (sp_Confidence s).

(** A span moved by [off] bytes. *)
Definition shift_span (off : Z) (s : Span) : Span :=
  MkSpan (sp_Start s + off) (sp_End s + off) (sp_Category s) (sp_Detector s) (sp_Confidence s).

Record Text := MkText { t_Raw : bytes; t_Lower : bytes }.

Definition LowerOK (t : Text) : bool := len (t_Lower t) =? len (t_Raw t).

(** [Text{Raw: text, Lower: strings.ToLower(text)}]. *)
Definition text_of `{Unicode} (s : bytes) : Text := MkText s (lower_string s).

(** [m[c]++] on a counter map, absent keys reading as 0. *)
Definition incr (m : gmap Category Z) (c : Category) : gmap Category Z :=
  <[c := default 0 (m !! c) + 1]> m.

Definition count_categories (cs : list Category) : gmap Category Z := foldl incr ∅ cs.

Record Result := MkResult { r_Spans : list Span }.

Definition Counts (r : Result) : gmap Category Z :=
  count_categories (map sp_Category (r_Spans r)).

(** ** detector.go *)

Record Detector := MkDetector {
  d_Name : bytes;
  d_Categories : list Category;
  (** [None] is a run-time panic. *)
  d_Detect : bytes → option (list Span);
  (** [DetectLower], for a detector that implements [LowerDetector]. *)
  d_DetectLower : option (Text → option (list Span))
}.

Record Registry := MkRegistry { reg_detectors : list Detector }.

Definition NewRegistry : Registry := MkRegistry [].

Definition Register (r : Registry) (d : Detector) : Registry :=
  MkRegistry (reg_detectors r ++ [d]).

Definition All (r : Registry) : list Detector := reg_detectors r.

Definition Enabled (r : Registry) (categories : list Category) : list Detector :=
  let wanted := foldl (λ m c, {[c]} ∪ m) (∅ : gset Category) categories in
  List.filter (λ d, existsb (λ c, bool_decide (c ∈ wanted)) (d_Categories d)) (reg_detectors r).

(** ** resolve.go *)

(** Sort order of [Resolve], [mask.Apply]: by start, the longer span first. *)
Definition span_less (a b : Span) : bool :=
  if negb (sp_Start a =? sp_Start b) then sp_Start a <? sp_Start b
  else sp_End b <? sp_End a.

Definition better (a b : Span) : bool :=
  if negb (f64_eqb (sp_Confidence a) (sp_Confidence b))
  then f64_ltb (sp_Confidence b) (sp_Confidence a)
  else sp_End b - sp_Start b <? sp_End a - sp_Start a.

(** One iteration of the loop of [Resolve]; [out] is kept last element first. *)
Definition resolve_step (out : list Span) (s : Span) : list Span :=
  match out with
  | [] => [s]
  | last :: out' =>
      if sp_End last <=? sp_Start s then s :: out
      else if better s last then s :: out' else out
  end.

Definition Resolve `{SliceSort} (spans : list Span) : list Span :=
  match spans with
  | [] => []
  | _ => rev (foldl resolve_step [] (sort_slice span_less spans))
  end.

(** ** Orders *)

#[export] Instance span_less_order : WeakOrder span_less.
Proof. split; unfold span_less; intros; repeat case_match; lia. Qed.

Definition span_nan_free (s : Span) : Prop := not_nan (sp_Confidence s) = true.

(** The strength [better] compares: confidence, then length. *)
Definition strength_ltb (a b : Span) : bool :=
  let ka := f64_key (sp_Confidence a) in
  let kb := f64_key (sp_Confidence b) in
  key_ltb ka kb ||
  (negb (key_ltb kb ka) && (sp_End a - sp_Start a <? sp_End b - sp_Start b)).

Lemma better_strength a b :
  span_nan_free a → span_nan_free b → better a b = strength_ltb b a.
Proof.
  unfold span_nan_free. intros Ha Hb. unfold better, strength_ltb.
  rewrite f64_eqb_ltb, !f64_ltb_key by done.
  pose proof (key_ltb_asym (f64_key (sp_Confidence a)) (f64_key (sp_Confidence b))).
  destruct (key_ltb (f64_key (sp_Confidence a)) _), (key_ltb (f64_key (sp_Confidence b)) _);
    simpl in *; naive_solver.
Qed.

Lemma strength_ntrans a b c :
  strength_ltb b a = false → strength_ltb c b = false → strength_ltb c a = false.
Proof.
  unfold strength_ltb, key_ltb.
  destruct (f64_key (sp_Confidence a)) as [[??]?], (f64_key (sp_Confidence b)) as [[??]?],
    (f64_key (sp_Confidence c)) as [[??]?]. lia.
Qed.

(** ** Invariants of the loop *)

Definition span_wf (s : Span) : Prop := sp_Start s < sp_End s.

Definition overlaps (a b : Span) : Prop :=
  sp_Start a < sp_End b ∧ sp_Start b < sp_End a.

#[export] Instance overlaps_dec a b : Decision (overlaps a b).
Proof. unfold overlaps. apply _. Defined.

(** [a] ends before [b] starts. *)
Definition before (a b : Span) : Prop := sp_End a <= sp_Start b.

(** What the loop of [Resolve] has established after the spans of [seen]. The
    output is kept last element first, so it is sorted downwards. *)
Record resolve_inv (out seen : list Span) : Prop := {
  ri_sorted : StronglySorted (λ a b, before b a) out;
  ri_incl : ∀ o, o ∈ out → o ∈ seen;
  ri_lost : ∀ p, p ∈ seen → p ∈ out ∨ ∃ q, q ∈ seen ∧ q ≠ p ∧ overlaps p q ∧ better p q = false
}.

Lemma better_irrefl s : better s s = false.
Proof.
  unfold better, f64_eqb, f64_ltb, SFeqb, SFltb.
  pose proof (SFcompare_antisym (sp_Confidence s) (sp_Confidence s)) as H.
  destruct (SFcompare _ _) as [[]|]; simpl in *; try done. lia.
Qed.

Lemma better_asym a b : better a b = true → better b a = false.
Proof.
  unfold better, f64_eqb, f64_ltb, SFeqb, SFltb. rewrite (SFcompare_antisym (sp_Confidence a)).
  destruct (SFcompare (sp_Confidence a) (sp_Confidence b)) as [[]|]; simpl; intros; try done. lia.
Qed.

Lemma resolve_step_inv out seen s :
  resolve_inv out seen →
  (∀ p, p ∈ seen → span_wf p ∧ sp_Start p <= sp_Start s) → span_wf s →
  resolve_inv (resolve_step out s) (seen ++ [s]).
Proof.
  intros [Hsort Hincl Hlost] Hseen Hs.
  assert (Hmono : ∀ p, (p ∈ out ∨ ∃ q, q ∈ seen ∧ q ≠ p ∧ overlaps p q ∧ better p q = false) →
    p ∈ out ∨ ∃ q, q ∈ seen ++ [s] ∧ q ≠ p ∧ overlaps p q ∧ better p q = false).
  { intros p [?|(q & ? & ?)]; [by left|right]. exists q. rewrite elem_of_app. tauto. }
  destruct out as [|last out]; simpl.
  { split; [by repeat constructor| |].
    - intros o Ho%list_elem_of_singleton. rewrite elem_of_app, list_elem_of_singleton. tauto.
    - intros p [Hp|Hp%list_elem_of_singleton]%elem_of_app; [|left; by apply list_elem_of_singleton].
      destruct (Hmono p (Hlost _ Hp)) as [Hin|?]; [by apply elem_of_nil in Hin|by right]. }
  assert (Hlast : last ∈ seen) by (apply Hincl; left).
  destruct (Hseen _ Hlast) as [Hwf Hle]. apply StronglySorted_inv in Hsort as [Hsort Hall].
  destruct (sp_End last <=? sp_Start s) eqn:E1; [|destruct (better s last) eqn:E2].
  - split.
    + constructor; [by constructor|]. constructor; [unfold before; lia|].
      eapply Forall_impl; [exact Hall|]. unfold before, span_wf in *. intros; lia.
    + intros o [->|Ho]%elem_of_cons; rewrite elem_of_app, list_elem_of_singleton; auto.
    + intros p [Hp|Hp%list_elem_of_singleton]%elem_of_app; [|left; subst; left].
      destruct (Hmono p (Hlost _ Hp)) as [Hin|?]; [left; by right|by right].
  - split.
    + constructor; [done|]. eapply Forall_impl; [exact Hall|]. unfold before. intros; lia.
    + intros o [->|Ho]%elem_of_cons; rewrite elem_of_app, list_elem_of_singleton; [tauto|].
      left. apply Hincl. by right.
    + intros p [Hp|Hp%list_elem_of_singleton]%elem_of_app; [|left; subst; left].
      destruct (Hmono p (Hlost _ Hp)) as [[->|Hin]%elem_of_cons|?]; [right|left; by right|by right].
      exists s. rewrite elem_of_app, list_elem_of_singleton. split_and!; [tauto| | |by apply better_asym].
      * intros ->. by rewrite better_irrefl in E2.
      * unfold overlaps, span_wf in *. lia.
  - split.
    + by constructor.
    + intros o Ho. rewrite elem_of_app. auto.
    + intros p [Hp|Hp%list_elem_of_singleton]%elem_of_app; [by auto|subst p].
      destruct (decide (last = s)) as [->|Hne]; [left; left|right].
      exists last. rewrite elem_of_app. split_and!; [tauto|done| |done].
      unfold overlaps, span_wf in *. lia.
Qed.

Lemma resolve_fold_inv rest out seen :
  resolve_inv out seen → Forall span_wf (seen ++ rest) →
  StronglySorted (λ a b, span_less b a = false) (seen ++ rest) →
  resolve_inv (foldl resolve_step out rest) (seen ++ rest).
Proof.
  revert out seen. induction rest as [|s rest IH]; intros out seen Hinv Hwf Hsort; simpl.
  { by rewrite app_nil_r. }
  rewrite cons_middle, app_assoc in *. apply IH; [|done|done].
  apply Forall_app in Hwf as [[Hwf Hs]%Forall_app _]. apply Forall_inv in Hs.
  apply resolve_step_inv; [done| |done].
  intros p Hp. rewrite Forall_forall in Hwf. split; [by apply Hwf|].
  rewrite <- app_assoc in Hsort.
  pose proof (StronglySorted_app_1_elem_of _ _ _ p s Hsort Hp ltac:(left)) as Hps.
  unfold span_less in Hps. case_match; lia.
Qed.

Section Resolve.
Context `{SliceSort}.

Lemma resolve_spec spans :
  Forall span_wf spans →
  ∃ out, Resolve spans = rev out ∧ resolve_inv out (sort_slice span_less spans).
Proof.
  intros Hwf. assert (Forall span_wf (sort_slice span_less spans)) as Hwf'
    by (by rewrite sort_slice_perm).
  pose proof (resolve_fold_inv (sort_slice span_less spans) [] []) as Hf.
  exists (foldl resolve_step [] (sort_slice span_less spans)). split.
  - destruct spans; [|done]. simpl.
    by replace (sort_slice span_less []) with (@nil Span)
      by (symmetry; apply Permutation_nil_r, sort_slice_perm).
  - apply Hf; simpl; [|done|apply sort_slice_sorted, _].
    split; [constructor|done|]. by intros p Hp%elem_of_nil.
Qed.

Lemma resolve_sorted spans : Forall span_wf spans → StronglySorted before (Resolve spans).
Proof.
  intros Hwf. destruct (resolve_spec spans Hwf) as (out & -> & [Hs _ _]).
  clear Hwf. induction Hs as [|o out _ IH Ho]; simpl; [constructor|].
  apply StronglySorted_app_cons; [done|].
  rewrite Forall_forall in *. intros x Hx. apply Ho. by apply elem_of_rev.
Qed.

Lemma resolve_incl spans s : Forall span_wf spans → s ∈ Resolve spans → s ∈ spans.
Proof.
  intros Hwf. destruct (resolve_spec spans Hwf) as (out & -> & [_ Hi _]).
  rewrite elem_of_rev. intros Hs%Hi. by rewrite sort_slice_perm in Hs.
Qed.

Lemma resolve_wf spans : Forall span_wf spans → Forall span_wf (Resolve spans).
Proof.
  intros Hwf. apply Forall_forall. intros s Hs%resolve_incl; [|done].
  rewrite Forall_forall in Hwf. auto.
Qed.

(** A dropped span lost to another span that it overlaps. *)
Lemma resolve_lost spans p :
  Forall span_wf spans → p ∈ spans →
  p ∈ Resolve spans ∨ ∃ q, q ∈ spans ∧ q ≠ p ∧ overlaps p q ∧ better p q = false.
Proof.
  intros Hwf Hp. destruct (resolve_spec spans Hwf) as (out & -> & [_ _ Hl]).
  rewrite elem_of_rev.
  destruct (Hl p) as [?|(q & Hq & ?)]; [by rewrite sort_slice_perm|by left|right].
  rewrite sort_slice_perm in Hq. eauto.
Qed.

(** Sorted, disjoint, non-empty spans are what [Resolve] leaves alone. *)
Lemma resolve_id spans :
  Forall span_wf spans → StronglySorted before spans → Resolve spans = spans.
Proof.
  intros Hwf Hs. destruct spans as [|s spans]; [done|].
  unfold Resolve. rewrite (sort_slice_id span_less).
  - assert (∀ rest out, Forall span_wf (rev out ++ rest) →
      StronglySorted before (rev out ++ rest) →
      foldl resolve_step out rest = rev rest ++ out) as Hfold.
    { induction rest as [|x rest IH]; intros out Hw Hb; simpl; [done|].
      assert (resolve_step out x = x :: out) as ->.
      { destruct out as [|last out]; [done|]. simpl.
        pose proof (StronglySorted_app_1_elem_of _ _ _ last x Hb
          ltac:(simpl; rewrite elem_of_app, list_elem_of_singleton; tauto) ltac:(left)).
        unfold before in *. by replace (sp_End last <=? sp_Start x) with true by lia. }
      rewrite IH; simpl; [by rewrite <- app_assoc| |]; by rewrite <- app_assoc. }
    rewrite (Hfold (s :: spans) []), app_nil_r, rev_involutive; done.
  - clear -Hwf Hs. induction Hs as [|x l _ IH Hx]; [constructor|].
    apply Forall_cons_1 in Hwf as [Hwx Hwf]. constructor; [auto|].
    rewrite Forall_forall in *. intros y Hy. specialize (Hx _ Hy). specialize (Hwf _ Hy).
    unfold span_less, before, span_wf in *. case_match; lia.
Qed.
End Resolve.

(** ** Properties of [Resolve] *)

(** C18: [Resolve] returns spans of its input that are sorted and pairwise disjoint,
    whatever order the sort leaves ties in. *)
Theorem Resolve_disjoint `{SliceSort} spans :
  Forall span_wf spans →
  StronglySorted before (Resolve spans) ∧ Forall span_wf (Resolve spans) ∧
  (∀ s, s ∈ Resolve spans → s ∈ spans).
Proof.
  intros Hwf. split_and!; [by apply resolve_sorted|by apply resolve_wf|].
  intros s. by apply resolve_incl.
Qed.

(** A span that beats every other span it overlaps is always kept: on overlap
    the span with the higher confidence, then the longer one, wins. *)
Lemma Resolve_strongest_survives `{SliceSort} spans p :
  Forall span_wf spans → p ∈ spans →
  (∀ q, q ∈ spans → q ≠ p → overlaps p q → better p q = true) →
  p ∈ Resolve spans.
Proof.
  intros Hwf Hp Hbest. destruct (resolve_lost spans p Hwf Hp) as [?|(q & Hq & Hne & Ho & Hl)]; [done|].
  by rewrite Hbest in Hl.
Qed.

(** Resolving a resolved span list changes nothing. *)
Lemma Resolve_idempotent `{SliceSort} spans :
  Forall span_wf spans → Resolve (Resolve spans) = Resolve spans.
Proof. intros Hwf. apply resolve_id; [by apply resolve_wf|by apply resolve_sorted]. Qed.

(** Three spans: a weak long one, a shorter one inside it, and a strong one that
    overlaps only the long one. *)
Definition uncovered_spans : list Span :=
  [MkSpan 0 10 CatAddress "address" (f64_lit 5 10);
   MkSpan 2 3 CatPIN "regex" (f64_lit 4 10);
   MkSpan 9 20 CatFullName "names" (f64_lit 9 10)].

(** A span may be dropped although nothing in the result overlaps it. The
    second span loses to the first; the first is then replaced by the third, and
    bytes 2 to 9 are left in the clear. *)
Lemma Resolve_can_uncover :
  ∃ spans p, Forall span_wf spans ∧ p ∈ spans ∧ (p ∉ Resolve spans) ∧
    Forall (λ o, ¬ overlaps p o) (Resolve spans).
Proof.
  exists uncovered_spans, (MkSpan 2 3 CatPIN "regex" (f64_lit 4 10)).
  assert (Resolve uncovered_spans = [MkSpan 9 20 CatFullName "names" (f64_lit 9 10)]) as ->
    by (vm_compute; done).
  split_and!.
  - repeat constructor.
  - right. left.
  - intros Hin%list_elem_of_singleton. by vm_compute in Hin.
  - repeat constructor. unfold overlaps. simpl. lia.
Qed.

Lemma Resolve_disjoint_witness :
  StronglySorted before (Resolve uncovered_spans) ∧ Forall span_wf (Resolve uncovered_spans) ∧
  (∀ s, s ∈ Resolve uncovered_spans → s ∈ uncovered_spans).
Proof. apply Resolve_disjoint. repeat constructor. Defined.

Lemma Resolve_strongest_survives_witness :
  MkSpan 9 20 CatFullName "names" (f64_lit 9 10) ∈ Resolve uncovered_spans.
Proof.
  apply Resolve_strongest_survives.
  - repeat constructor.
  - right. right. left.
  - intros q Hq Hne Ho. apply elem_of_cons in Hq as [->|Hq]; [by vm_compute|].
    apply elem_of_cons in Hq as [->|Hq]; [unfold overlaps in Ho; simpl in Ho; lia|].
    by apply list_elem_of_singleton in Hq.
Defined.

Lemma Resolve_idempotent_witness : Resolve (Resolve uncovered_spans) = Resolve uncovered_spans.
Proof. apply Resolve_idempotent. repeat constructor. Defined.
