(* ===== verification/Mask.v ===== *)
(** * Package [mask], core: [DocState], [Apply] and [Restore]

    Models [internal/mask/mask.go]. A function that slices or indexes returns an
    [option]: [None] is a run-time panic, so "never panics" is a theorem. *)

From S2P Require Import Prelude GoText Pii.

(** ** Per-document state *)

Record DocState := MkDocState {
  memo : gmap bytes bytes;
  seq : gmap Category Z
}.

Definition NewDocState : DocState := MkDocState ∅ ∅.

(** The zero value of a missing key is the empty string. *)
Definition Memo (d : DocState) (value : bytes) : bytes := default [] (memo d !! value).

Definition Remember (d : DocState) (value replacement : bytes) : DocState :=
  MkDocState (<[value := replacement]> (memo d)) (seq d).

Definition Next (d : DocState) (cat : Category) : Z * DocState :=
  let seq' := incr (seq d) cat in
  (default 0 (seq' !! cat), MkDocState (memo d) seq').

(** ** The interface [Strategy]

    [s_Mask value cat doc] returns the replacement and the document state after
    the call; as an argument, [None] is the nil [*DocState], and as a result a
    run-time panic. *)

Record Strategy := MkStrategy {
  s_Name : bytes;
  s_Mask : bytes → Category → option DocState → option (bytes * option DocState)
}.

Record Replacement := MkReplacement {
  rp_Category : Category;
  rp_Original : bytes;
  rp_Masked : bytes;
  rp_Start : Z;
  rp_End : Z
}.

#[export] Instance replacement_eq_dec : EqDecision Replacement.
Proof. solve_decision. Defined.

(** ** Apply *)

Record apply_state := MkApplyState {
  ap_pos : Z;
  ap_out : bytes;
  ap_reps : list Replacement;
  ap_doc : option DocState
}.

Definition apply_span (text : bytes) (s : Strategy) (st : apply_state) (sp : Span)
    : option apply_state :=
  if sp_Start sp <? ap_pos st then Some st
  else if (len text <? sp_Start sp) || (len text <? sp_End sp) || (sp_End sp <=? sp_Start sp)
  then Some st
  else
    value ← go_slice text (sp_Start sp) (sp_End sp);
    '(replacement, doc) ← s_Mask s value (sp_Category sp) (ap_doc st);
    gap ← go_slice text (ap_pos st) (sp_Start sp);
    let b := ap_out st ++ gap in
    let start := len b in
    let b := b ++ replacement in
    let end_ := len b in
    Some (MkApplyState (sp_End sp) b
      (ap_reps st ++ [MkReplacement (sp_Category sp) value replacement start end_]) doc).

Definition Apply `{SliceSort} (text : bytes) (spans : list Span) (s : Strategy)
    (doc : option DocState) : option (bytes * list Replacement * option DocState) :=
  let doc := match doc with None => Some NewDocState | Some _ => doc end in
  let sorted := sort_slice span_less spans in
  st ← fold_opt (apply_span text s) (MkApplyState 0 [] [] doc) sorted;
  rest ← go_slice text (ap_pos st) (len text);
  Some (ap_out st ++ rest, ap_reps st, ap_doc st).

(** ** Restore *)

Record claim := MkClaim { c_start : Z; c_end : Z; c_original : bytes }.

Definition inBounds (masked : bytes) (start end_ : Z) : bool :=
  (0 <=? start) && (start <=? end_) && (end_ <=? len masked).

Definition overlapsAny (claims : list claim) (start end_ : Z) : bool :=
  existsb (λ c, (start <? c_end c) && (c_start c <? end_)) claims.

Fixpoint findUnclaimed_loop (fuel : nat) (masked token : bytes) (claims : list claim)
    (searchFrom : Z) : option (option (Z * Z)) :=
  match fuel with
  | O => None
  | S fuel =>
      if searchFrom <=? len masked then
        rest ← go_slice masked searchFrom (len masked);
        let idx := str_index rest token in
        if idx <? 0 then Some None
        else
          let start := searchFrom + idx in
          let end_ := start + len token in
          if negb (overlapsAny claims start end_) then Some (Some (start, end_))
          else findUnclaimed_loop fuel masked token claims (start + 1)
      else Some None
  end.

(** The position only moves forward, so [len masked + 2] iterations suffice. *)
Definition findUnclaimed (masked token : bytes) (claims : list claim) : option (option (Z * Z)) :=
  if bool_decide (token = []) then Some None
  else findUnclaimed_loop (S (S (length masked))) masked token claims 0.

Definition rep_less (a b : Replacement) : bool := rp_Start a <? rp_Start b.
Definition claim_less (a b : claim) : bool := c_start a <? c_start b.

(** Phase 1: the recorded position, when legal, matching and unclaimed. *)
Definition restore_trust (masked : bytes) (st : list claim * list Replacement) (r : Replacement)
    : option (list claim * list Replacement) :=
  let '(claims, unresolved) := st in
  ok ← (if inBounds masked (rp_Start r) (rp_End r) then
          at_pos ← go_slice masked (rp_Start r) (rp_End r);
          Some (eq_bytes at_pos (rp_Masked r) && negb (overlapsAny claims (rp_Start r) (rp_End r)))
        else Some false);
  Some (if ok : bool then (claims ++ [MkClaim (rp_Start r) (rp_End r) (rp_Original r)], unresolved)
        else (claims, unresolved ++ [r])).

(** Phase 2: search the next unclaimed occurrence. *)
Definition restore_search (masked : bytes) (st : list claim * Z) (r : Replacement)
    : option (list claim * Z) :=
  let '(claims, misses) := st in
  found ← findUnclaimed masked (rp_Masked r) claims;
  Some (match found with
        | None => (claims, misses + 1)
        | Some (start, end_) => (claims ++ [MkClaim start end_ (rp_Original r)], misses)
        end).

Record splice_state := MkSplice { sl_pos : Z; sl_out : bytes; sl_misses : Z }.

Definition restore_splice (masked : bytes) (st : splice_state) (c : claim) : option splice_state :=
  if (c_start c <? sl_pos st) || negb (inBounds masked (c_start c) (c_end c))
  then Some (MkSplice (sl_pos st) (sl_out st) (sl_misses st + 1))
  else
    gap ← go_slice masked (sl_pos st) (c_start c);
    Some (MkSplice (c_end c) (sl_out st ++ gap ++ c_original c) (sl_misses st)).

Definition Restore `{SliceSort} (masked : bytes) (reps : list Replacement) : option (bytes * Z) :=
  let sorted := sort_slice rep_less reps in
  '(claims, unresolved) ← fold_opt (restore_trust masked) ([], []) sorted;
  '(claims, misses) ← fold_opt (restore_search masked) (claims, 0) unresolved;
  let claims := sort_slice claim_less claims in
  st ← fold_opt (restore_splice masked) (MkSplice 0 [] misses) claims;
  rest ← go_slice masked (sl_pos st) (len masked);
  Some (sl_out st ++ rest, sl_misses st).

#[export] Instance rep_less_order : WeakOrder rep_less.
Proof. split; unfold rep_less; intros; lia. Qed.

#[export] Instance claim_less_order : WeakOrder claim_less.
Proof. split; unfold claim_less; intros; lia. Qed.

(** ** What a set of claims is worth

    A claim is sound when it lies in the text and covers the [Masked] text of its
    replacement; two claims are disjoint when one ends before the other starts. *)

Definition claims_for (masked : bytes) (c : claim) (r : Replacement) : Prop :=
  0 <= c_start c ∧ c_end c <= len masked ∧ c_start c < c_end c ∧
  slice masked (c_start c) (c_end c) = rp_Masked r ∧ c_original c = rp_Original r.

Definition claim_before (a b : claim) : Prop := c_end a <= c_start b.

Definition claim_disjoint (a b : claim) : Prop := claim_before a b ∨ claim_before b a.

#[export] Instance claim_disjoint_sym : Symmetric claim_disjoint.
Proof. intros a b. unfold claim_disjoint. tauto. Qed.

(** The claims are in order, disjoint, and lie in the text from [pos] on. *)
Fixpoint claim_chain (masked : bytes) (pos : Z) (cs : list claim) : Prop :=
  match cs with
  | [] => 0 <= pos <= len masked
  | c :: cs => 0 <= pos ∧ pos <= c_start c ∧ c_start c <= c_end c ∧ c_end c <= len masked ∧
               claim_chain masked (c_end c) cs
  end.

(** The text from [pos] on with every claimed range replaced by its original. *)
Fixpoint splice_text (masked : bytes) (pos : Z) (cs : list claim) : bytes :=
  match cs with
  | [] => slice masked pos (len masked)
  | c :: cs => slice masked pos (c_start c) ++ c_original c ++ splice_text masked (c_end c) cs
  end.

Lemma overlapsAny_false cs start end_ orig :
  overlapsAny cs start end_ = false → Forall (λ c, claim_disjoint c (MkClaim start end_ orig)) cs.
Proof.
  unfold overlapsAny. induction cs as [|c cs IH]; simpl; intros H; constructor.
  - unfold claim_disjoint, claim_before. simpl. lia.
  - apply IH. lia.
Qed.

Lemma inBounds_true masked a b : inBounds masked a b = true ↔ 0 <= a ∧ a <= b ∧ b <= len masked.
Proof. unfold inBounds. lia. Qed.

(** *** The search loop *)

Lemma str_index_occurs s sub :
  0 <= str_index s sub → occurs_at s sub (str_index s sub).
Proof.
  unfold str_index. pose proof (index_opt_spec s sub) as H.
  destruct (index_opt s sub); simpl; [tauto|lia].
Qed.

Lemma slice_drop s a i j :
  0 <= a → a <= len s → 0 <= i → slice (slice s a (len s)) i j = slice s (a + i) (a + j).
Proof.
  intros. unfold slice at 2. rewrite take_ge by (rewrite length_drop; unfold len in *; lia).
  unfold slice. rewrite drop_drop. f_equal; [lia|]. f_equal. lia.
Qed.

Lemma findUnclaimed_loop_spec fuel masked token cs searchFrom :
  0 <= searchFrom → (Z.to_nat (len masked - searchFrom + 1) < fuel)%nat → token ≠ [] →
  ∃ res, findUnclaimed_loop fuel masked token cs searchFrom = Some res ∧
    ∀ a b, res = Some (a, b) →
      0 <= a ∧ b <= len masked ∧ a < b ∧ slice masked a b = token ∧ overlapsAny cs a b = false.
Proof.
  revert searchFrom. induction fuel as [|fuel IH]; intros sf Hsf Hfuel Htok; [lia|].
  cbn [findUnclaimed_loop]. destruct (sf <=? len masked) eqn:Hle; [|by eexists].
  rewrite go_slice_Some by lia. simpl. set (rest := slice masked sf (len masked)).
  destruct (str_index rest token <? 0) eqn:Hi; [by eexists|].
  assert (len rest = len masked - sf) as Hlen by (apply len_slice; lia).
  pose proof (str_index_occurs rest token ltac:(lia)) as Hocc.
  destruct (occurs_at_slice _ _ _ Hocc) as [Hbound Hslice].
  pose proof (len_pos token Htok).
  destruct (overlapsAny _ _ _) eqn:Hov; simpl.
  - apply IH; [lia|lia|done].
  - eexists. split; [done|]. intros a b [= <- <-].
    split_and!; [lia|lia|lia| |done]. etransitivity; [|exact Hslice].
    unfold rest at 3. rewrite slice_drop by lia. f_equal; lia.
Qed.

Lemma findUnclaimed_spec masked token cs :
  ∃ res, findUnclaimed masked token cs = Some res ∧
    ∀ a b, res = Some (a, b) →
      0 <= a ∧ b <= len masked ∧ a < b ∧ slice masked a b = token ∧ overlapsAny cs a b = false.
Proof.
  unfold findUnclaimed. case_bool_decide; [by eexists|].
  apply findUnclaimed_loop_spec; [lia| |done]. unfold len. lia.
Qed.

(** *** The three phases of [Restore] *)

(** The claims of [cs] are sound, pairwise disjoint, and one per replacement of
    [used]. *)
Record claims_ok (masked : bytes) (cs : list claim) (used : list Replacement) : Prop := {
  co_sound : Forall2 (claims_for masked) cs used;
  co_disjoint : ForallOrdPairs claim_disjoint cs
}.

Lemma claims_ok_nil masked : claims_ok masked [] [].
Proof. split; constructor. Qed.

Lemma claims_ok_snoc masked cs used r a b :
  claims_ok masked cs used → overlapsAny cs a b = false →
  0 <= a → b <= len masked → a < b → slice masked a b = rp_Masked r →
  claims_ok masked (cs ++ [MkClaim a b (rp_Original r)]) (used ++ [r]).
Proof.
  intros [Hs Hd] Hov ????. split.
  - apply Forall2_app; [done|]. constructor; [|constructor]. by unfold claims_for.
  - apply ForallOrdPairs_snoc; [done|]. by apply overlapsAny_false.
Qed.

Lemma eq_bytes_true s t : eq_bytes s t = true ↔ s = t.
Proof. apply bool_decide_eq_true. Qed.

Definition masks_nonempty (reps : list Replacement) : Prop :=
  Forall (λ r, rp_Masked r ≠ []) reps.

#[export] Instance masks_nonempty_proper : Proper (Permutation ==> iff) masks_nonempty.
Proof. unfold masks_nonempty. intros l k Hp. by rewrite Hp. Qed.

Lemma restore_trust_step masked cs un used r :
  claims_ok masked cs used → rp_Masked r ≠ [] →
  ∃ cs' un' used', restore_trust masked (cs, un) r = Some (cs', un') ∧
    claims_ok masked cs' used' ∧ Permutation (used' ++ un') (r :: used ++ un).
Proof.
  intros Hok Hne. unfold restore_trust.
  destruct (inBounds masked _ _) eqn:Hb; simpl.
  - apply inBounds_true in Hb as (?&?&?). rewrite go_slice_Some by done. simpl.
    destruct (eq_bytes _ _ && negb _) eqn:Hm.
    + apply andb_true_iff in Hm as [Hm Hov]. apply eq_bytes_true in Hm.
      do 3 eexists. split; [done|]. split.
      * apply claims_ok_snoc; [done|by apply negb_true_iff|done|done| |done].
        assert (len (slice masked (rp_Start r) (rp_End r)) = rp_End r - rp_Start r)
          by (apply len_slice; lia).
        pose proof (len_pos _ Hne). rewrite Hm in *. lia.
      * rewrite <- app_assoc. simpl. by rewrite Permutation_middle.
    + do 3 eexists. split; [done|]. split; [done|].
      by rewrite app_assoc, Permutation_app_comm.
  - do 3 eexists. split; [done|]. split; [done|].
    by rewrite app_assoc, Permutation_app_comm.
Qed.

Lemma restore_trust_fold masked reps cs un used :
  claims_ok masked cs used → masks_nonempty reps →
  ∃ cs' un' used', fold_opt (restore_trust masked) (cs, un) reps = Some (cs', un') ∧
    claims_ok masked cs' used' ∧ Permutation (used' ++ un') (reps ++ used ++ un).
Proof.
  intros Hok Hne. revert cs un used Hok. induction Hne as [|r reps Hr _ IH]; intros cs un used Hok.
  { by exists cs, un, used. }
  cbn [fold_opt]. destruct (restore_trust_step masked cs un used r Hok Hr)
    as (cs1 & un1 & used1 & -> & Hok1 & Hp1). simpl.
  destruct (IH cs1 un1 used1 Hok1) as (cs2 & un2 & used2 & -> & Hok2 & Hp2).
  exists cs2, un2, used2. split_and!; [done|done|]. by rewrite Hp2, Hp1, <- Permutation_middle.
Qed.

Lemma restore_search_fold masked un cs used m :
  claims_ok masked cs used →
  ∃ cs' used' lost, fold_opt (restore_search masked) (cs, m) un = Some (cs', m + Z.of_nat (length lost)) ∧
    claims_ok masked cs' used' ∧ Permutation (used' ++ lost) (used ++ un).
Proof.
  revert cs used m. induction un as [|r un IH]; intros cs used m Hok; simpl.
  { exists cs, used, []. by rewrite Z.add_0_r. }
  destruct (findUnclaimed_spec masked (rp_Masked r) cs) as ([[a b]|] & -> & Hres); simpl.
  - destruct (Hres a b eq_refl) as (?&?&?&?&?).
    destruct (IH _ _ m (claims_ok_snoc masked cs used r a b Hok ltac:(done) ltac:(done)
      ltac:(done) ltac:(done) ltac:(done))) as (cs' & used' & lost & -> & Hok' & Hp).
    exists cs', used', lost. split_and!; [done|done|]. by rewrite Hp, <- app_assoc.
  - destruct (IH cs used (m + 1) Hok) as (cs' & used' & lost & -> & Hok' & Hp).
    exists cs', used', (r :: lost). split_and!; [|done|].
    + do 2 f_equal. simpl. lia.
    + by rewrite <- !Permutation_middle, Hp.
Qed.

(** Disjoint claims, sorted by start, are consecutive. *)
Lemma claims_sorted_chain masked cs pos :
  Forall (λ c, 0 <= c_start c ∧ c_end c <= len masked ∧ c_start c < c_end c) cs →
  StronglySorted (λ a b, claim_less b a = false) cs → ForallOrdPairs claim_disjoint cs →
  0 <= pos <= len masked → Forall (λ c, pos <= c_start c) cs → claim_chain masked pos cs.
Proof.
  intros Hb Hs. revert pos Hb. induction Hs as [|c cs Hs IH Hc]; intros pos Hb Hd Hpos Hp; [done|].
  apply Forall_cons_1 in Hb as [Hbc Hb]. apply Forall_cons_1 in Hp as [Hpc Hp].
  inversion_clear Hd as [|?? Hdc Hd'].
  simpl. split_and!; [lia|lia|lia|lia|]. apply IH; [done|done|lia|].
  rewrite Forall_forall in *. intros x Hx. specialize (Hc x Hx). specialize (Hb x Hx).
  specialize (Hdc x Hx). unfold claim_less, claim_disjoint, claim_before in *. lia.
Qed.

Lemma restore_splice_fold masked cs pos out m :
  claim_chain masked pos cs →
  (st ← fold_opt (restore_splice masked) (MkSplice pos out m) cs;
   rest ← go_slice masked (sl_pos st) (len masked);
   Some (sl_out st ++ rest, sl_misses st)) = Some (out ++ splice_text masked pos cs, m).
Proof.
  revert pos out. induction cs as [|c cs IH]; intros pos out Hc; simpl in Hc.
  - simpl. by rewrite go_slice_Some by lia.
  - destruct Hc as (?&?&?&?&Hc). cbn [fold_opt]. unfold restore_splice at 2.
    cbn [sl_pos sl_out sl_misses].
    assert (inBounds masked (c_start c) (c_end c) = true) as -> by (apply inBounds_true; lia).
    replace (c_start c <? pos) with false by lia.
    rewrite go_slice_Some by lia. cbn [mbind option_bind orb negb].
    rewrite IH by done. cbn [splice_text]. by rewrite <- !app_assoc.
Qed.

Lemma claims_for_bounds masked cs used :
  Forall2 (claims_for masked) cs used →
  Forall (λ c, 0 <= c_start c ∧ c_end c <= len masked ∧ c_start c < c_end c) cs.
Proof. induction 1 as [|c r cs used Hc _ IH]; constructor; [|done]. unfold claims_for in Hc. tauto. Qed.

Section Restore.
Context `{SliceSort}.

(** [Restore] on replacements with non-empty [Masked] texts: it returns, and the
    result is [masked] with disjoint ranges replaced by originals, one per
    replacement found; the count is the number of replacements not found. *)
Lemma restore_spec masked reps :
  masks_nonempty reps →
  ∃ out misses cs used lost,
    Restore masked reps = Some (out, misses) ∧
    claim_chain masked 0 cs ∧ Forall2 (claims_for masked) cs used ∧
    Permutation (used ++ lost) reps ∧
    out = splice_text masked 0 cs ∧ misses = Z.of_nat (length lost).
Proof.
  intros Hne. unfold Restore. rewrite <- (sort_slice_perm rep_less reps) in Hne.
  destruct (restore_trust_fold masked _ [] [] [] (claims_ok_nil masked) Hne)
    as (cs1 & un & used1 & -> & Hok1 & Hp1). cbn [mbind option_bind].
  destruct (restore_search_fold masked un cs1 used1 0 Hok1)
    as (cs2 & used2 & lost & -> & [Hs2 Hd2] & Hp2). cbn [mbind option_bind].
  pose proof (sort_slice_perm claim_less cs2) as Hperm.
  destruct (Permutation_Forall2 (Permutation_sym Hperm) Hs2) as (used & Hpu & Hs).
  exists (splice_text masked 0 (sort_slice claim_less cs2)), (0 + Z.of_nat (length lost)),
    (sort_slice claim_less cs2), used, lost.
  assert (claim_chain masked 0 (sort_slice claim_less cs2)) as Hchain.
  { pose proof (claims_for_bounds _ _ _ Hs) as Hb. apply claims_sorted_chain.
    - done.
    - apply sort_slice_sorted, _.
    - eapply ForallOrdPairs_perm; [apply _|by symmetry|done].
    - pose proof (len_nonneg masked). lia.
    - eapply Forall_impl; [exact Hb|]. simpl. lia. }
  split_and!; [by rewrite restore_splice_fold|done|done| |done|lia].
  rewrite <- Hpu, Hp2, Hp1, app_nil_r. apply sort_slice_perm.
Qed.

(** Whatever the record holds, [Restore] returns, and counts at most one miss
    per replacement. *)
Lemma restore_total masked reps :
  ∃ out misses, Restore masked reps = Some (out, misses) ∧
    0 <= misses <= Z.of_nat (length reps).
Proof.
  pose proof (len_nonneg masked) as Hlen. unfold Restore.
  pose proof (Permutation_length (sort_slice_perm rep_less reps)) as Hl. rewrite <- Hl.
  destruct (fold_opt_total (restore_trust masked)
    (λ n st, Z.of_nat (length st.1 + length st.2) = n) (sort_slice rep_less reps) 0 ([], []))
    as ([cs un] & -> & H1); [done| |].
  { intros n [cs un] r <- _. unfold restore_trust. destruct (inBounds _ _ _) eqn:Hb; simpl.
    - apply inBounds_true in Hb. rewrite go_slice_Some by lia. simpl.
      eexists; split; [done|]. case_match; simpl; rewrite length_app; simpl; lia.
    - eexists; split; [done|]. simpl. rewrite length_app. simpl. lia. }
  cbn [mbind option_bind]. simpl in H1.
  destruct (fold_opt_total (restore_search masked)
    (λ n st, Z.of_nat (length st.1) + st.2 = Z.of_nat (length cs) + n ∧ 0 <= st.2) un 0 (cs, 0))
    as ([cs2 m] & -> & H2 & Hm); [simpl; lia| |].
  { intros n [cs' m] r [Hn Hm] _. unfold restore_search.
    destruct (findUnclaimed_spec masked (rp_Masked r) cs') as ([[a b]|] & -> & _); simpl in *;
      (eexists; split; [done|]); simpl; rewrite ?length_app; simpl; lia. }
  cbn [mbind option_bind]. simpl in H2, Hm.
  pose proof (Permutation_length (sort_slice_perm claim_less cs2)) as Hl2.
  destruct (fold_opt_total (restore_splice masked)
    (λ n st, 0 <= sl_pos st <= len masked ∧ m <= sl_misses st <= m + n)
    (sort_slice claim_less cs2) 0 (MkSplice 0 [] m)) as (st & -> & Hp & Hm2); [simpl; lia| |].
  { intros n st c [Hp Hn] _. unfold restore_splice.
    destruct (_ || _) eqn:Hg; [eexists; split; [done|]; simpl; lia|].
    assert (inBounds masked (c_start c) (c_end c) = true) as Hb by (destruct (inBounds _ _ _); lia).
    apply inBounds_true in Hb. rewrite go_slice_Some by lia. eexists; split; [done|]. simpl. lia. }
  cbn [mbind option_bind]. rewrite go_slice_Some by lia. simpl.
  do 2 eexists. split; [done|]. lia.
Qed.
End Restore.

(** ** The shape of a masked text

    [Apply] cuts the text into segments: some untouched text, then a value and
    its replacement; a last piece of untouched text follows. *)

Record segment := MkSegment {
  sg_gap : bytes;
  sg_orig : bytes;
  sg_mask : bytes;
  sg_cat : Category
}.

Definition orig_text (segs : list segment) (tail : bytes) : bytes :=
  concat (map (λ g, sg_gap g ++ sg_orig g) segs) ++ tail.

Definition masked_text (segs : list segment) (tail : bytes) : bytes :=
  concat (map (λ g, sg_gap g ++ sg_mask g) segs) ++ tail.

(** The replacements of the segments, in a masked text that starts at [off]. *)
Fixpoint segment_reps (off : Z) (segs : list segment) : list Replacement :=
  match segs with
  | [] => []
  | g :: segs =>
      let start := off + len (sg_gap g) in
      let end_ := start + len (sg_mask g) in
      MkReplacement (sg_cat g) (sg_orig g) (sg_mask g) start end_ :: segment_reps end_ segs
  end.

Definition segment_ok (g : segment) : Prop := sg_orig g ≠ [] ∧ sg_mask g ≠ [].

Lemma segment_reps_app off segs1 segs2 :
  segment_reps off (segs1 ++ segs2) =
  segment_reps off segs1 ++ segment_reps (off + len (masked_text segs1 [])) segs2.
Proof.
  revert off. induction segs1 as [|g segs1 IH]; intros off; simpl.
  - f_equal. unfold masked_text, len. simpl. lia.
  - rewrite IH. do 3 f_equal. unfold masked_text. simpl. rewrite !app_nil_r, !len_app. lia.
Qed.

Lemma masked_text_app segs1 segs2 tail :
  masked_text (segs1 ++ segs2) tail = masked_text segs1 [] ++ masked_text segs2 tail.
Proof. unfold masked_text. by rewrite map_app, concat_app, app_nil_r, <- app_assoc. Qed.

Lemma orig_text_app segs1 segs2 tail :
  orig_text (segs1 ++ segs2) tail = orig_text segs1 [] ++ orig_text segs2 tail.
Proof. unfold orig_text. by rewrite map_app, concat_app, app_nil_r, <- app_assoc. Qed.

Definition segment_claims (off : Z) (segs : list segment) : list claim :=
  map (λ r, MkClaim (rp_Start r) (rp_End r) (rp_Original r)) (segment_reps off segs).

Lemma segment_reps_from off segs :
  Forall (λ r, off <= rp_Start r) (segment_reps off segs).
Proof.
  revert off. induction segs as [|g segs IH]; intros off; simpl; constructor; simpl.
  - pose proof (len_nonneg (sg_gap g)). lia.
  - eapply Forall_impl; [apply IH|]. simpl. intros r.
    pose proof (len_nonneg (sg_gap g)). pose proof (len_nonneg (sg_mask g)). lia.
Qed.

Lemma segment_reps_sorted off segs :
  Forall segment_ok segs → StronglySorted (λ a b, rep_less a b = true) (segment_reps off segs).
Proof.
  intros Hok. revert off. induction Hok as [|g segs [_ Hm] _ IH]; intros off; simpl; constructor.
  - apply IH.
  - eapply Forall_impl; [apply segment_reps_from|]. intros r Hr. unfold rep_less. simpl.
    pose proof (len_pos _ Hm). simpl in Hr. lia.
Qed.

Lemma segment_claims_sorted off segs :
  Forall segment_ok segs → StronglySorted (λ a b, claim_less a b = true) (segment_claims off segs).
Proof.
  intros Hok. pose proof (segment_reps_sorted off segs Hok) as Hs. unfold segment_claims.
  induction Hs as [|r reps _ IH Hr]; simpl; constructor; [done|].
  apply Forall_map. exact Hr.
Qed.

(** Phase 1 recognises every recorded position of an untouched masked text. *)
Lemma segment_trust pre segs tail cs :
  Forall segment_ok segs → Forall (λ c, c_end c <= len pre) cs →
  fold_opt (restore_trust (pre ++ masked_text segs tail)) (cs, []) (segment_reps (len pre) segs) =
  Some (cs ++ segment_claims (len pre) segs, []).
Proof.
  intros Hok. revert pre cs. induction Hok as [|g segs [_ Hm] _ IH]; intros pre cs Hcs.
  { simpl. by rewrite app_nil_r. }
  pose proof (len_pos _ Hm). pose proof (len_nonneg (sg_gap g)).
  cbn [segment_reps fold_opt]. set (text := pre ++ masked_text (g :: segs) tail).
  assert (text = (pre ++ sg_gap g) ++ sg_mask g ++ masked_text segs tail) as Ht.
  { unfold text, masked_text. simpl. by rewrite <- !app_assoc. }
  unfold restore_trust at 2. cbn [rp_Start rp_End rp_Original rp_Masked].
  replace (len pre + len (sg_gap g)) with (len (pre ++ sg_gap g)) by (rewrite len_app; lia).
  assert (inBounds text (len (pre ++ sg_gap g)) (len (pre ++ sg_gap g) + len (sg_mask g)) = true) as Hb.
  { apply inBounds_true. rewrite Ht. rewrite !len_app.
    pose proof (len_nonneg pre). pose proof (len_nonneg (masked_text segs tail)). lia. }
  rewrite Hb. apply inBounds_true in Hb as (?&?&?). rewrite go_slice_Some by lia.
  cbn [mbind option_bind]. rewrite Ht, slice_app_mid, (proj2 (eq_bytes_true _ _)) by done.
  assert (overlapsAny cs (len (pre ++ sg_gap g)) (len (pre ++ sg_gap g) + len (sg_mask g)) = false) as ->.
  { clear -Hcs H0. rewrite len_app. unfold overlapsAny. induction Hcs; simpl; lia. }
  cbn [negb andb]. rewrite (app_assoc (pre ++ sg_gap g)), <- len_app, IH.
  - unfold segment_claims. cbn [segment_reps map rp_Start rp_End rp_Original].
    rewrite <- app_assoc. simpl. by rewrite !len_app.
  - apply Forall_app. split; [|by repeat constructor].
    eapply Forall_impl; [exact Hcs|]. intros c Hc. rewrite !len_app in *. simpl in *. lia.
Qed.

(** A strategy never panics, and never replaces a value by the empty string. *)
Class NonEmptyStrategy (s : Strategy) : Prop :=
  mask_nonempty value cat doc :
    value ≠ [] → ∃ r doc', s_Mask s value cat doc = Some (r, doc') ∧ r ≠ [].

Lemma total_strategy_nonempty name (f : bytes → Category → option DocState → bytes * option DocState) :
  (∀ v c d, v ≠ [] → (f v c d).1 ≠ []) → NonEmptyStrategy (MkStrategy name (λ v c d, Some (f v c d))).
Proof.
  intros Hf v c d Hv. simpl. specialize (Hf v c d Hv). destruct (f v c d) as [r d'].
  by exists r, d'.
Qed.

(** The span a segment was cut at. *)
Definition segment_of (text : bytes) (g : segment) (sp : Span) : Prop :=
  span_wf sp ∧ 0 <= sp_Start sp ∧ sp_End sp <= len text ∧
  sg_orig g = slice text (sp_Start sp) (sp_End sp) ∧ sg_cat g = sp_Category sp.

(** What [Apply] has established after the spans of [used] were masked. *)
Record apply_inv (text : bytes) (st : apply_state) (segs : list segment) (used : list Span) : Prop := {
  ai_pos : 0 <= ap_pos st <= len text;
  ai_text : slice text 0 (ap_pos st) = orig_text segs [];
  ai_out : ap_out st = masked_text segs [];
  ai_reps : ap_reps st = segment_reps 0 segs;
  ai_segs : Forall segment_ok segs;
  ai_used : Forall2 (segment_of text) segs used
}.

Definition span_fits (text : bytes) (sp : Span) : Prop :=
  span_wf sp ∧ 0 <= sp_Start sp ∧ sp_End sp <= len text.

Section Apply.
Context `{SliceSort} (text : bytes) (s : Strategy) `{!NonEmptyStrategy s}.

Lemma apply_span_inv st segs used sp :
  apply_inv text st segs used →
  ∃ st' segs' used', apply_span text s st sp = Some st' ∧ apply_inv text st' segs' used' ∧
    (span_fits text sp → ap_pos st <= sp_Start sp →
     used' = used ++ [sp] ∧ ap_pos st' = sp_End sp).
Proof.
  intros Hinv. pose proof Hinv as [Hpos Htext Hout Hreps Hsegs Hused]. unfold apply_span.
  destruct (sp_Start sp <? ap_pos st) eqn:E1.
  { exists st, segs, used. split_and!; [done|done|lia]. }
  destruct (_ || _ || _) eqn:E2.
  { exists st, segs, used. split_and!; [done|done|]. unfold span_fits, span_wf. lia. }
  rewrite (go_slice_Some text (sp_Start sp) (sp_End sp)) by lia. simpl.
  set (value := slice text (sp_Start sp) (sp_End sp)).
  assert (value ≠ []) as Hv.
  { intros Hv. assert (len value = sp_End sp - sp_Start sp) as Hl by (apply len_slice; lia).
    rewrite Hv, len_nil in Hl. lia. }
  destruct (mask_nonempty value (sp_Category sp) (ap_doc st) Hv) as (repl & doc & -> & Hne).
  cbn [mbind option_bind]. rewrite go_slice_Some by lia. simpl.
  set (gap := slice text (ap_pos st) (sp_Start sp)).
  exists (MkApplyState (sp_End sp) ((ap_out st ++ gap) ++ repl)
      (ap_reps st ++ [MkReplacement (sp_Category sp) value repl (len (ap_out st ++ gap))
        (len ((ap_out st ++ gap) ++ repl))]) doc),
    (segs ++ [MkSegment gap value repl (sp_Category sp)]), (used ++ [sp]).
  split_and!; [done| |done]. split; cbn [ap_pos ap_out ap_reps].
  - lia.
  - rewrite (slice_split text 0 (ap_pos st)), (slice_split text (ap_pos st) (sp_Start sp)) by lia.
    rewrite Htext, orig_text_app. unfold orig_text at 3. simpl. by rewrite !app_nil_r.
  - rewrite Hout, masked_text_app. unfold masked_text at 3. simpl. by rewrite !app_nil_r, <- app_assoc.
  - rewrite segment_reps_app, Hreps, Hout. simpl. do 3 f_equal; rewrite !len_app; lia.
  - apply Forall_app. split; [done|]. by repeat constructor.
  - apply Forall2_app; [done|]. constructor; [|constructor].
    unfold segment_of, span_wf. simpl. split_and!; [lia|lia|lia|done|done].
Qed.

Lemma apply_fold_inv sps st segs used :
  apply_inv text st segs used →
  ∃ st' segs' used', fold_opt (apply_span text s) st sps = Some st' ∧ apply_inv text st' segs' used' ∧
    (Forall (span_fits text) sps → StronglySorted before sps →
     Forall (λ sp, ap_pos st <= sp_Start sp) sps → used' = used ++ sps).
Proof.
  revert st segs used. induction sps as [|sp sps IH]; intros st segs used Hinv; simpl.
  { exists st, segs, used. split_and!; [done|done|]. intros. by rewrite app_nil_r. }
  destruct (apply_span_inv st segs used sp Hinv) as (st1 & segs1 & used1 & -> & Hinv1 & Hu1). simpl.
  destruct (IH st1 segs1 used1 Hinv1) as (st2 & segs2 & used2 & -> & Hinv2 & Hu2).
  exists st2, segs2, used2. split_and!; [done|done|].
  intros [Hf Hfs]%Forall_cons_1 [Hs Hb]%StronglySorted_inv [Hp Hps]%Forall_cons_1.
  destruct (Hu1 Hf Hp) as [-> Hpos]. rewrite Hpos in Hu2.
  rewrite Hu2 by done. by rewrite <- app_assoc.
Qed.

(** [Apply] returns, and its result has the shape of a segmentation. *)
Lemma apply_spec spans doc :
  ∃ segs tail used doc',
    Apply text spans s doc = Some (masked_text segs tail, segment_reps 0 segs, doc') ∧
    text = orig_text segs tail ∧ Forall segment_ok segs ∧ Forall2 (segment_of text) segs used ∧
    (Forall (span_fits text) spans → StronglySorted before spans → used = spans).
Proof.
  unfold Apply. set (d := match doc with None => _ | _ => _ end).
  destruct (apply_fold_inv (sort_slice span_less spans) (MkApplyState 0 [] [] d) [] [])
    as (st & segs & used & -> & [Hpos Htext Hout Hreps Hsegs Hused] & Hu).
  { pose proof (len_nonneg text). split; simpl; try done; try lia. }
  cbn [mbind option_bind]. rewrite go_slice_Some by lia. cbn [mbind option_bind].
  exists segs, (slice text (ap_pos st) (len text)), used, (ap_doc st). split_and!.
  - unfold masked_text in *. by rewrite Hreps, Hout, app_nil_r.
  - rewrite <- (slice_full text) at 1. rewrite (slice_split text 0 (ap_pos st)) by lia.
    rewrite Htext. unfold orig_text. by rewrite app_nil_r.
  - done.
  - done.
  - intros Hf Hb. rewrite (sort_slice_id span_less) in Hu.
    + simpl in Hu. apply Hu; [done|done|]. eapply Forall_impl; [exact Hf|]. unfold span_fits. tauto.
    + clear -Hf Hb. induction Hb as [|x l _ IH Hx]; [constructor|].
      apply Forall_cons_1 in Hf as [Hwx Hf]. constructor; [auto|].
      rewrite Forall_forall in *. intros y Hy. specialize (Hx _ Hy). specialize (Hf _ Hy).
      unfold span_less, before, span_fits, span_wf in *. case_match; lia.
Qed.
End Apply.

(** An untouched masked text restores to the text it came from, without a miss. *)
Lemma restore_segments `{SliceSort} segs tail :
  Forall segment_ok segs →
  Restore (masked_text segs tail) (segment_reps 0 segs) = Some (orig_text segs tail, 0).
Proof.
  intros Hok. unfold Restore.
  rewrite (sort_slice_id rep_less) by (by apply segment_reps_sorted).
  pose proof (segment_trust [] segs tail [] Hok ltac:(constructor)) as Ht.
  rewrite len_nil in Ht. simpl in Ht. rewrite Ht. cbn [mbind option_bind fold_opt].
  rewrite (sort_slice_id claim_less) by (by apply segment_claims_sorted).
  assert (∀ pre gs, Forall segment_ok gs →
    claim_chain (pre ++ masked_text gs tail) (len pre) (segment_claims (len pre) gs) ∧
    splice_text (pre ++ masked_text gs tail) (len pre) (segment_claims (len pre) gs) = orig_text gs tail)
    as Hsplice.
  { clear. intros pre gs Hok. revert pre. induction Hok as [|g gs [_ Hm] _ IH]; intros pre.
    - simpl. rewrite len_app. unfold orig_text, masked_text. simpl.
      pose proof (len_nonneg pre). pose proof (len_nonneg tail). split; [lia|].
      pose proof (slice_app_mid pre tail []) as Hs. by rewrite app_nil_r in Hs.
    - unfold segment_claims. cbn [segment_reps map rp_Start rp_End rp_Original claim_chain splice_text
        c_start c_end c_original].
      destruct (IH (pre ++ sg_gap g ++ sg_mask g)) as [IHc IHs].
      rewrite !len_app, !Z.add_assoc, <- !app_assoc in IHc, IHs.
      assert (masked_text (g :: gs) tail = sg_gap g ++ sg_mask g ++ masked_text gs tail) as ->
        by (unfold masked_text; simpl; by rewrite <- !app_assoc).
      pose proof (len_nonneg pre). pose proof (len_nonneg (sg_gap g)). pose proof (len_pos _ Hm).
      pose proof (len_nonneg (masked_text gs tail)).
      split.
      + split_and!; [lia|lia|lia|rewrite !len_app; lia|exact IHc].
      + rewrite slice_app_mid. unfold segment_claims in IHs. rewrite IHs.
        unfold orig_text. simpl. by rewrite <- !app_assoc. }
  destruct (Hsplice [] segs Hok) as [Hc Hs]. rewrite len_nil in Hc, Hs. simpl in Hc, Hs.
  rewrite restore_splice_fold by done. by rewrite Hs.
Qed.

(** ** Properties of [Apply] and [Restore] *)

(** [Restore] never panics and always terminates, on any text and any record,
    however corrupted, and its miss count is between 0 and the number of
    replacements. *)
Lemma Restore_never_panics `{SliceSort} masked reps :
  ∃ out misses, Restore masked reps = Some (out, misses) ∧ 0 <= misses <= Z.of_nat (length reps).
Proof. apply restore_total. Qed.

(** C17: on any text, [Restore] replaces disjoint ranges, each holding the [Masked]
    text of its own replacement, by the originals; every other byte is kept; and it
    reports as misses exactly the replacements left over. *)
Theorem Restore_splices_found `{SliceSort} masked reps :
  masks_nonempty reps →
  ∃ out misses cs used lost,
    Restore masked reps = Some (out, misses) ∧
    claim_chain masked 0 cs ∧ Forall2 (claims_for masked) cs used ∧
    Permutation (used ++ lost) reps ∧
    out = splice_text masked 0 cs ∧ misses = Z.of_nat (length lost).
Proof. apply restore_spec. Qed.

(** A reordered answer: the record says name then phone, the text has phone first
    and mentions the name twice. *)
Definition shuffled_reps : list Replacement :=
  [MkReplacement CatFullName "Иванов" "[FULL_NAME_1]" 0 13;
   MkReplacement CatPhone "+7 916" "[PHONE_1]" 14 23].

Lemma Restore_splices_found_witness :
  (∃ out misses cs used lost,
    Restore "[PHONE_1], [FULL_NAME_1]" shuffled_reps = Some (out, misses) ∧
    claim_chain "[PHONE_1], [FULL_NAME_1]" 0 cs ∧
    Forall2 (claims_for "[PHONE_1], [FULL_NAME_1]") cs used ∧
    Permutation (used ++ lost) shuffled_reps ∧
    out = splice_text "[PHONE_1], [FULL_NAME_1]" 0 cs ∧ misses = Z.of_nat (length lost)) ∧
  Restore "[PHONE_1], [FULL_NAME_1]" shuffled_reps = Some (go_bytes "+7 916, Иванов", 0).
Proof.
  split; [|vm_compute; reflexivity].
  apply Restore_splices_found. repeat constructor; discriminate.
Defined.
