(* ===== verification/Strategies.v ===== *)
(** * The strategies [token], [full] and [partial]

    Models [internal/mask/token.go], [internal/mask/servicewords.go],
    [internal/mask/full.go] and [internal/mask/partial.go] with its embedded
    [partial.yaml]. *)

From S2P Require Import Prelude GoText Float64 Pii Mask.

(** [if doc != nil { if m := doc.Memo(value); m != "" { return m } }] *)
Definition memo_hit (doc : option DocState) (value : bytes) : option bytes :=
  match doc with
  | Some d => if bool_decide (Memo d value = []) then None else Some (Memo d value)
  | None => None
  end.

(** [if doc != nil { doc.Remember(value, out) }] *)
Definition remember (doc : option DocState) (value out : bytes) : option DocState :=
  match doc with Some d => Some (Remember d value out) | None => None end.

(** [n := 0; if doc != nil { n = doc.Next(cat) }] *)
Definition next_number (doc : option DocState) (cat : Category) : Z * option DocState :=
  match doc with
  | Some d => let '(n, d) := Next d cat in (n, Some d)
  | None => (0, None)
  end.

(** ** token.go *)

Definition token_repl `{Unicode} (cat : Category) (n : Z) : bytes :=
  "[" ++ upper_string cat ++ "_" ++ decimal n ++ "]".

Definition tokenMask `{Unicode} (value : bytes) (cat : Category) (doc : option DocState)
    : bytes * option DocState :=
  match memo_hit doc value with
  | Some m => (m, doc)
  | None =>
      let '(n, doc) := next_number doc cat in
      let repl := token_repl cat n in
      (repl, remember doc value repl)
  end.

Definition NewToken `{Unicode} : Strategy := MkStrategy "token" (λ v c d, Some (tokenMask v c d)).

(** ** servicewords.go *)

Definition serviceWords : gset bytes := list_to_set
  (["ул" : bytes; "улица" : bytes; "д" : bytes; "дом" : bytes; "кв" : bytes;
    "г" : bytes; "гор" : bytes; "город" : bytes; "обл" : bytes; "область" : bytes;
    "корп" : bytes; "стр" : bytes; "пр-т" : bytes; "пер" : bytes; "пл" : bytes;
    "наб" : bytes; "ш" : bytes; "р-н" : bytes; "район" : bytes; "край" : bytes;
    "серия" : bytes; "номер" : bytes; "№" : bytes; "года" : bytes; "год" : bytes;
    "г.р." : bytes]).

(** ** full.go *)

Definition fullServiceWords : gset bytes :=
  list_to_set (["по" : bytes; "в" : bytes; "и" : bytes]) ∪ serviceWords.

Definition star : Z := 0x2A.

Section Full.
Context `{Unicode}.

Definition isWordRune (r : Z) : bool := is_letter r || is_digit r.

(** Advances past a run of word runes, allowing an inner hyphen. *)
Definition scanWord : list chunk → list chunk * list chunk := scan_run isWordRune true.

Definition isServiceWord (word : bytes) : bool :=
  let lookup := if has_suffix word "." then take (length word - 1) word else word in
  bool_decide (lower_string lookup ∈ fullServiceWords).

(** Every letter and digit becomes a star, everything else is written as is. *)
Definition writeMaskedWord (w : list chunk) : bytes :=
  concat (map (λ c, if isWordRune (fst c) then encode_rune star else encode_rune (fst c)) w).

Definition maskAllLetters (value : bytes) : bytes := writeMaskedWord (chunks value).

Definition allServiceWords (value : bytes) : bool :=
  let words := omap (λ p, match p with Word w => Some (raw w) | Gap _ => None end)
                 (pieces isWordRune scanWord (chunks value)) in
  forallb isServiceWord words && negb (bool_decide (words = [])).

Definition full_piece (p : piece) : bytes :=
  match p with
  | Gap c => encode_rune (fst c)
  | Word w => if isServiceWord (raw w) then raw w else writeMaskedWord w
  end.

Definition maskFull (value : bytes) : bytes :=
  if allServiceWords value then maskAllLetters value
  else concat (map full_piece (pieces isWordRune scanWord (chunks value))).

Definition fullMask (value : bytes) (_ : Category) (doc : option DocState)
    : bytes * option DocState :=
  match memo_hit doc value with
  | Some m => (m, doc)
  | None => let out := maskFull value in (out, remember doc value out)
  end.

Definition NewFull : Strategy := MkStrategy "full" (λ v c d, Some (fullMask v c d)).
End Full.

(** ** partial.go *)

Record partialRule := MkPartialRule {
  pr_Mode : bytes;
  pr_KeepHead : option Z;
  pr_KeepTail : option Z;
  pr_Char : bytes
}.

Record partialConfig := MkPartialConfig {
  pc_Defaults : partialRule;
  pc_Categories : gmap Category partialRule
}.

(** What [NewPartial] makes of a parsed file: absent defaults are filled in. *)
Definition partial_defaults (r : partialRule) : partialRule :=
  MkPartialRule (pr_Mode r)
    (match pr_KeepHead r with None => Some 2 | k => k end)
    (match pr_KeepTail r with None => Some 2 | k => k end)
    (if bool_decide (pr_Char r = []) then "*" else pr_Char r).

(** [partialStrategy.rule]: the category's settings over the defaults. *)
Definition partial_rule (cfg : partialConfig) (cat : Category) : partialRule :=
  let r := partial_defaults (pc_Defaults cfg) in
  match pc_Categories cfg !! cat with
  | None => r
  | Some cr =>
      MkPartialRule
        (if bool_decide (pr_Mode cr = []) then pr_Mode r else pr_Mode cr)
        (match pr_KeepHead cr with None => pr_KeepHead r | k => k end)
        (match pr_KeepTail cr with None => pr_KeepTail r | k => k end)
        (if bool_decide (pr_Char cr = []) then pr_Char r else pr_Char cr)
  end.

(** [partial.yaml]. *)
Definition digits_rule (h t : Z) : partialRule := MkPartialRule "digits" (Some h) (Some t) [].
Definition mode_rule (m : bytes) : partialRule := MkPartialRule m None None [].

Definition partial_yaml : partialConfig := MkPartialConfig
  (MkPartialRule "digits" (Some 2) (Some 2) "*")
  (list_to_map [
    (CatFullName, mode_rule "initials"); (CatCardHolder, mode_rule "initials");
    (CatPassport, digits_rule 2 2); (CatCardNumber, digits_rule 2 2);
    (CatPhone, digits_rule 2 2); (CatINN, digits_rule 2 2); (CatSNILS, digits_rule 2 2);
    (CatDriverLicense, digits_rule 2 2); (CatForeignPassport, digits_rule 2 2);
    (CatIDDocument, digits_rule 2 2); (CatDivisionCode, digits_rule 0 0);
    (CatCVV, digits_rule 0 0); (CatPIN, digits_rule 0 0);
    (CatDate, mode_rule "date"); (CatBirthDate, mode_rule "date");
    (CatPassportDate, mode_rule "date"); (CatEmail, mode_rule "email");
    (CatAddress, mode_rule "words"); (CatBirthPlace, mode_rule "words");
    (CatPassportIssuer, mode_rule "words"); (CatCitizenship, mode_rule "words")]).

(** *** Digits *)

Section Partial.
Context `{Unicode}.

(** [isDigit(rune(value[i]))]: the byte read as a rune. *)
Definition isDigit_byte (b : byte) : bool := is_digit (byte_val b).

Fixpoint digit_idx_from (i : Z) (value : bytes) : list Z :=
  match value with
  | [] => []
  | b :: value =>
      if isDigit_byte b then i :: digit_idx_from (i + 1) value else digit_idx_from (i + 1) value
  end.

Definition collectDigitIdx (value : bytes) : list Z := digit_idx_from 0 value.

Definition keepSet (digitIdx : list Z) (keepHead keepTail : Z) : gset Z :=
  list_to_set (take (Z.to_nat keepHead) digitIdx) ∪
  list_to_set (take (Z.to_nat keepTail) (rev digitIdx)).

Fixpoint mask_digit_runs_from (i : Z) (value : bytes) (keep : gset Z) (char : bytes) : bytes :=
  match value with
  | [] => []
  | b :: value =>
      (if isDigit_byte b && negb (bool_decide (i ∈ keep)) then char else [b])
        ++ mask_digit_runs_from (i + 1) value keep char
  end.

Definition maskDigitRuns (value : bytes) (keep : gset Z) (char : bytes) : bytes :=
  mask_digit_runs_from 0 value keep char.

Definition maskDigits (value : bytes) (keepHead keepTail : Z) (char : bytes) : bytes :=
  let digitIdx := collectDigitIdx value in
  let n := Z.of_nat (length digitIdx) in
  if n =? 0 then value
  else
    let '(keepHead, keepTail) :=
      if n <=? keepHead + keepTail + 1 then (0, 0) else (keepHead, keepTail) in
    maskDigitRuns value (keepSet digitIdx keepHead keepTail) char.

Definition maskDigitsByRule (value : bytes) (r : partialRule) : bytes :=
  maskDigits value (default 0 (pr_KeepHead r)) (default 0 (pr_KeepTail r)) (pr_Char r).

(** *** Initials *)

Definition dot : Z := 0x2E.

Definition scanLetterWord : list chunk → list chunk * list chunk := scan_run is_letter true.

(** A word, with the dot of a one-letter word. *)
Definition scanInitialWord (cs : list chunk) : list chunk * list chunk :=
  let '(w, rest) := scanLetterWord cs in
  match rest with
  | (r, b) :: rest' =>
      if (Z.of_nat (length w) =? 1) && (r =? dot) then (w ++ [(r, b)], rest') else (w, rest)
  | [] => (w, rest)
  end.

Definition isInitial (s : bytes) : bool :=
  match runes s with
  | [r0; r1] => is_letter r0 && (r1 =? dot)
  | _ => false
  end.

Definition initial_part (p : bytes) : bytes :=
  upper_string (encode_rune (fst (decode_rune p))) ++ ".".

Definition writeInitialWord (word : bytes) : bytes :=
  join_words "-" (map initial_part (split_byte "-"%byte word)).

Definition initial_piece (p : piece) : bytes :=
  match p with
  | Gap c => encode_rune (fst c)
  | Word w => if isInitial (raw w) then raw w else writeInitialWord (raw w)
  end.

Definition maskInitials (value : bytes) : bytes :=
  concat (map initial_piece (pieces is_letter scanInitialWord (chunks value))).

(** *** Dates, words, e-mail *)

(** The first rune of [word], then one [char] per remaining rune. *)
Definition maskDateWord (word char : bytes) : bytes :=
  encode_rune (fst (decode_rune word)) ++ str_repeat char (rune_count word - 1).

Definition scanLetters : list chunk → list chunk * list chunk := scan_run is_letter false.

Definition date_piece (char : bytes) (p : piece) : bytes :=
  match p with
  | Gap c => if is_digit (fst c) then char else encode_rune (fst c)
  | Word w => maskDateWord (raw w) char
  end.

Definition maskDate (value char : bytes) : bytes :=
  concat (map (date_piece char) (pieces is_letter scanLetters (chunks value))).

Definition maskEmail (value char : bytes) : bytes :=
  let at_ := str_index value "@" in
  if at_ <? 0 then value
  else
    let local := take (Z.to_nat at_) value in
    let domain := drop (Z.to_nat at_) value in
    if bool_decide (local = []) then value
    else encode_rune (fst (decode_rune local)) ++ str_repeat char (rune_count local - 1) ++ domain.

Definition maskWord (word char : bytes) : bytes :=
  if bool_decide (lower_string word ∈ serviceWords) then word
  else if rune_count word <=? 1 then word
  else encode_rune (fst (decode_rune word)) ++ str_repeat char (rune_count word - 1).

Definition words_piece (char : bytes) (p : piece) : bytes :=
  match p with
  | Gap c => if is_digit (fst c) then char else encode_rune (fst c)
  | Word w => maskWord (raw w) char
  end.

Definition maskWords (value char : bytes) : bytes :=
  concat (map (words_piece char) (pieces is_letter scanLetters (chunks value))).

Definition partial_value (cfg : partialConfig) (value : bytes) (cat : Category) : bytes :=
  let r := partial_rule cfg cat in
  if eq_bytes (pr_Mode r) "initials" then maskInitials value
  else if eq_bytes (pr_Mode r) "date" then maskDate value (pr_Char r)
  else if eq_bytes (pr_Mode r) "email" then maskEmail value (pr_Char r)
  else if eq_bytes (pr_Mode r) "words" then maskWords value (pr_Char r)
  else maskDigitsByRule value r.

Definition partialMask (cfg : partialConfig) (value : bytes) (cat : Category)
    (doc : option DocState) : bytes * option DocState :=
  match memo_hit doc value with
  | Some m => (m, doc)
  | None => let out := partial_value cfg value cat in (out, remember doc value out)
  end.

Definition NewPartial (cfg : partialConfig) : Strategy := MkStrategy "partial" (λ v c d, Some (partialMask cfg v c d)).
End Partial.

(** Evaluated on the examples of the repository's tests. *)
Example maskFull_address :
  maskFull "г. Москва, ул. Ленина, д. 5" = go_bytes "г. ******, ул. ******, д. *".
Proof. vm_compute. reflexivity. Qed.

Example maskInitials_name : maskInitials "Салтыков-Щедрин Михаил Е." = go_bytes "С.-Щ. М. Е.".
Proof. vm_compute. reflexivity. Qed.

Example maskDigits_phone : maskDigits "+7 (916) 123-45-67" 2 2 "*" = go_bytes "+7 (9**) ***-**-67".
Proof. vm_compute. reflexivity. Qed.

Example maskDate_words : maskDate "12 мая 1990" "*" = go_bytes "** м** ****".
Proof. vm_compute. reflexivity. Qed.

(** ** Digit masking keeps exactly the head and the tail *)

Section DigitFacts.
Context `{Unicode}.

(** The digit bytes of a string, in order. *)
Definition digits_of (s : bytes) : bytes := List.filter isDigit_byte s.

(** The digits with their offsets. *)
Fixpoint digit_pairs (i : Z) (s : bytes) : list (Z * byte) :=
  match s with
  | [] => []
  | b :: s => if isDigit_byte b then (i, b) :: digit_pairs (i + 1) s else digit_pairs (i + 1) s
  end.

Lemma digit_pairs_fst i s : map fst (digit_pairs i s) = digit_idx_from i s.
Proof. revert i. induction s as [|b s IH]; intros i; simpl; [done|]. case_match; simpl; by rewrite IH. Qed.

Lemma digit_pairs_snd i s : map snd (digit_pairs i s) = digits_of s.
Proof.
  revert i. induction s as [|b s IH]; intros i; simpl; [done|].
  unfold digits_of. simpl. case_match; simpl; by rewrite IH.
Qed.

Lemma digit_pairs_from i s : Forall (λ p, i <= fst p) (digit_pairs i s).
Proof.
  revert i. induction s as [|b s IH]; intros i; simpl; [constructor|].
  assert (Forall (λ p, i <= fst p) (digit_pairs (i + 1) s))
    by (eapply Forall_impl; [apply IH|]; simpl; lia).
  case_match; [|done]. constructor; [simpl; lia|done].
Qed.

Lemma digit_pairs_nodup i s : NoDup (map fst (digit_pairs i s)).
Proof.
  revert i. induction s as [|b s IH]; intros i; simpl; [constructor|].
  case_match; [|done]. simpl. constructor; [|done].
  intros (p & Hp & Hin)%list_elem_of_fmap. pose proof (digit_pairs_from (i + 1) s) as Hf.
  rewrite Forall_forall in Hf. specialize (Hf _ Hin). lia.
Qed.

Definition no_digits (s : bytes) : Prop := digits_of s = [].

Lemma digits_of_app s t : digits_of (s ++ t) = digits_of s ++ digits_of t.
Proof. apply List.filter_app. Qed.

Lemma digit_runs_kept i s keep char :
  no_digits char →
  digits_of (mask_digit_runs_from i s keep char) =
  map snd (List.filter (λ p, bool_decide (fst p ∈ keep)) (digit_pairs i s)).
Proof.
  intros Hc. revert i. induction s as [|b s IH]; intros i; simpl; [done|].
  rewrite digits_of_app, IH. destruct (isDigit_byte b) eqn:Hb; simpl.
  - destruct (bool_decide (i ∈ keep)); simpl; [|by rewrite Hc].
    by rewrite Hb.
  - by rewrite Hb.
Qed.

(** Masking replaces digits one for one: everything else stays in place. *)
Lemma digit_runs_shape i s keep c :
  Forall2 (λ b o, o = b ∨ isDigit_byte b = true ∧ o = c) s (mask_digit_runs_from i s keep [c]).
Proof.
  revert i. induction s as [|b s IH]; intros i; simpl; [constructor|].
  destruct (isDigit_byte b && _) eqn:E; simpl; constructor; try apply IH; [right|by left].
  apply andb_true_iff in E as [? _]. done.
Qed.
End DigitFacts.

Lemma filter_all {A : Type} (f : A → bool) l : Forall (λ x, f x = true) l → List.filter f l = l.
Proof. induction 1 as [|x l Hx _ IH]; simpl; [done|]. by rewrite Hx, IH. Qed.

(** A boolean check that no byte of a string is a digit. *)
Lemma forallb_negb_spec (s : bytes) :
  forallb (λ b, negb (digit_byte b)) s = true → ∀ b, In b s → digit_byte b = false.
Proof. intros Hs b Hb. rewrite forallb_forall in Hs. by apply negb_true_iff, Hs. Qed.

Lemma filter_none {A : Type} (f : A → bool) l : Forall (λ x, f x = false) l → List.filter f l = [].
Proof. induction 1 as [|x l Hx _ IH]; simpl; [done|]. by rewrite Hx, IH. Qed.

(** Keeping, from a list of pairs with distinct keys, the keys of its first [h]
    and last [t] elements. *)
Lemma filter_head_tail {A : Type} (l : list (Z * A)) (h t : nat) (keep : gset Z) :
  NoDup (map fst l) → (h + t <= length l)%nat →
  keep = list_to_set (take h (map fst l)) ∪ list_to_set (take t (rev (map fst l))) →
  List.filter (λ p, bool_decide (fst p ∈ keep)) l = take h l ++ drop (length l - t) l.
Proof.
  intros Hnd Hlen Hkeep. set (m := (length l - t - h)%nat).
  assert (l = take h l ++ take m (drop h l) ++ drop (length l - t) l) as Hl.
  { rewrite <- (take_drop h l) at 1. f_equal. rewrite <- (take_drop m (drop h l)) at 1. f_equal.
    rewrite drop_drop. f_equal. lia. }
  assert (take t (rev (map fst l)) = rev (map fst (drop (length l - t) l))) as Ht.
  { rewrite <- (take_drop (length l - t) l) at 1. rewrite map_app, rev_app_distr.
    apply take_app_exact. rewrite length_rev, length_map, length_drop. lia. }
  rewrite Ht, firstn_map in Hkeep.
  assert (∀ x, x ∈ keep ↔ x ∈ map fst (take h l) ∨ x ∈ map fst (drop (length l - t) l)) as Hin.
  { intros x. by rewrite Hkeep, elem_of_union, !elem_of_list_to_set, elem_of_rev. }
  clear Hkeep Ht. rewrite Hl in Hnd. rewrite !map_app in Hnd.
  apply NoDup_app in Hnd as (_ & Hd1 & Hnd). apply NoDup_app in Hnd as (_ & Hd2 & _).
  rewrite Hl at 1. rewrite !List.filter_app, (filter_all _ (take h l)), filter_none, filter_all; [done| | |];
    apply Forall_forall; intros p Hp; apply (list_elem_of_fmap_2 fst) in Hp.
  - apply bool_decide_eq_true, Hin. by right.
  - apply bool_decide_eq_false. rewrite Hin. intros [Hx|Hx]; [|by eapply Hd2].
    eapply Hd1; [exact Hx|]. apply elem_of_app. by left.
  - apply bool_decide_eq_true, Hin. by left.
Qed.

Section DigitSpec.
Context `{Unicode}.

Lemma maskDigits_kept value h t char :
  0 <= h → 0 <= t → no_digits char →
  digits_of (maskDigits value h t char) =
  (let ds := digits_of value in
   let n := Z.of_nat (length ds) in
   if n <=? h + t + 1 then []
   else take (Z.to_nat h) ds ++ drop (length ds - Z.to_nat t) ds).
Proof.
  intros Hh Ht Hc. unfold maskDigits, collectDigitIdx, maskDigitRuns, keepSet.
  rewrite <- digit_pairs_fst, <- (digit_pairs_snd 0 value), !length_map.
  set (ps := digit_pairs 0 value). cbn [Z.of_nat].
  destruct (Z.of_nat (length ps) =? 0) eqn:H0.
  { replace (Z.of_nat (length ps) <=? h + t + 1) with true by lia.
    rewrite <- (digit_pairs_snd 0 value). fold ps. destruct ps; [done|simpl in H0; lia]. }
  destruct (Z.of_nat (length ps) <=? h + t + 1) eqn:H1; rewrite digit_runs_kept by done; fold ps.
  - rewrite filter_none; [done|]. apply Forall_forall. intros p _.
    apply bool_decide_eq_false. change (Z.to_nat 0) with 0%nat. rewrite !take_0. simpl.
    rewrite elem_of_union, !elem_of_empty. tauto.
  - rewrite (filter_head_tail ps (Z.to_nat h) (Z.to_nat t)).
    + by rewrite map_app, firstn_map, skipn_map.
    + apply digit_pairs_nodup.
    + lia.
    + done.
Qed.
End DigitSpec.

(** ** The full strategy hides words and keeps the shape *)

Section FullFacts.
Context `{Unicode}.

Lemma star_not_word : isWordRune star = false.
Proof. unfold isWordRune, star. rewrite is_letter_ascii, is_digit_latin1 by lia. done. Qed.

Lemma word_rune_valid c : chunk_ok c → isWordRune (fst c) = true ∨ fst c = 0x2D → fst c ≠ rune_error.
Proof.
  intros _ [Hw|Hw]; [|by rewrite Hw]. intros E. rewrite E in Hw. unfold isWordRune in Hw.
  by rewrite is_letter_error, is_digit_error in Hw.
Qed.

Definition masked_rune (r : Z) : Z := if isWordRune r then star else r.

(** The runes [full_piece] writes. *)
Definition full_out (p : piece) : list Z :=
  match p with
  | Gap c => [fst c]
  | Word w => if isServiceWord (raw w) then map fst w else map (λ c, masked_rune (fst c)) w
  end.

Lemma chunk_ok_valid c : chunk_ok c → valid_rune (fst c) = true.
Proof. intros [->|[? _]]; done. Qed.

Lemma writeMaskedWord_runes w :
  writeMaskedWord w = encode_runes (map (λ c, masked_rune (fst c)) w).
Proof.
  unfold writeMaskedWord, encode_runes. f_equal. rewrite map_map. apply map_ext.
  intros c. unfold masked_rune. by case_match.
Qed.

Lemma masked_rune_valid c : chunk_ok c → valid_rune (masked_rune (fst c)) = true.
Proof. intros Hc. unfold masked_rune. case_match; [done|by apply chunk_ok_valid]. Qed.

Lemma scanWord_valid w cs rest :
  Forall chunk_ok w → scanWord cs = (w, rest) → Forall (λ c, fst c ≠ rune_error) w.
Proof.
  intros Hok Hscan. pose proof (scan_run_runes isWordRune true cs) as Hr.
  unfold scanWord in Hscan. rewrite Hscan in Hr. simpl in Hr.
  rewrite Forall_forall in *. intros c Hc. apply word_rune_valid; auto.
Qed.

Lemma full_pieces_out cs :
  Forall chunk_ok cs →
  Forall (λ p, full_piece p = encode_runes (full_out p) ∧
               Forall (λ r, valid_rune r = true) (full_out p)) (pieces isWordRune scanWord cs).
Proof.
  intros Hok. assert (Forall (λ p, Forall chunk_ok (piece_chunks p)) (pieces isWordRune scanWord cs)) as Hps.
  { rewrite <- (pieces_cover isWordRune scanWord cs) in Hok.
    by rewrite Forall_concat, Forall_map in Hok. }
  pose proof (pieces_spec isWordRune scanWord cs) as Hsp.
  rewrite Forall_forall in *. intros p Hp. specialize (Hps p Hp). specialize (Hsp p Hp).
  destruct p as [c|w]; simpl in *.
  - apply Forall_inv in Hps. split; [unfold encode_runes; simpl; by rewrite app_nil_r|].
    repeat constructor. by apply chunk_ok_valid.
  - destruct Hsp as (c & w' & cs' & rest & _ & _ & Hscan). case_match.
    + split; [apply raw_valid; [done|by eapply scanWord_valid]|].
      apply Forall_map. eapply Forall_impl; [exact Hps|]. apply chunk_ok_valid.
    + split; [apply writeMaskedWord_runes|].
      apply Forall_map. eapply Forall_impl; [exact Hps|]. apply masked_rune_valid.
Qed.
End FullFacts.

Section FullSpec.
Context `{Unicode}.

Lemma maskFull_star_rel value :
  Forall2 (λ r o, o = r ∨ isWordRune r = true ∧ o = star) (runes value) (runes (maskFull value)).
Proof.
  pose proof (chunks_ok value) as Hok.
  assert (∀ w : list chunk, Forall2 (λ r o, o = r ∨ isWordRune r = true ∧ o = star)
    (map fst w) (map (λ c, masked_rune (fst c)) w)) as Hstars.
  { induction w as [|c w IH]; simpl; constructor; [|done]. unfold masked_rune.
    destruct (isWordRune (fst c)) eqn:E; [by right|by left]. }
  assert (∀ l : list Z, Forall2 (λ r o, o = r ∨ isWordRune r = true ∧ o = star) l l) as Hrefl.
  { induction l; constructor; [by left|done]. }
  unfold maskFull. case_match.
  - unfold maskAllLetters. rewrite writeMaskedWord_runes, <- (app_nil_r (encode_runes _)).
    rewrite runes_encode_runes, app_nil_r; [by apply Hstars|].
    apply Forall_map. eapply Forall_impl; [exact Hok|]. apply masked_rune_valid.
  - rewrite (runes_of_pieces _ full_out) by (by apply full_pieces_out).
    unfold runes at 1. rewrite <- (pieces_cover isWordRune scanWord (chunks value)) at 1.
    rewrite concat_map, map_map. apply Forall2_concat, Forall2_fmap_2, Forall_Forall2_diag.
    apply Forall_forall. intros [c|w] _; simpl.
    + apply Hrefl.
    + case_match; [apply Hrefl|apply Hstars].
Qed.

(** The output of the piecewise branch, piece by piece. *)
Lemma maskFull_unchanged_pieces value :
  concat (map full_out (pieces isWordRune scanWord (chunks value))) = runes value →
  map full_out (pieces isWordRune scanWord (chunks value)) =
  map (λ p, map fst (piece_chunks p)) (pieces isWordRune scanWord (chunks value)).
Proof.
  intros E. apply concat_inj_lengths.
  - apply Forall2_fmap_2, Forall_Forall2_diag, Forall_forall. intros [c|w] _; simpl; [done|].
    case_match; by rewrite !length_map.
  - rewrite E. unfold runes. rewrite <- (pieces_cover isWordRune scanWord (chunks value)) at 1.
    by rewrite concat_map, map_map.
Qed.

(** A value that comes back unchanged held nothing to hide. *)
Lemma maskFull_no_leak value :
  maskFull value = value → Forall (λ r, isWordRune r = false) (runes value).
Proof.
  intros E. apply (f_equal runes) in E. pose proof (chunks_ok value) as Hok. revert E.
  unfold maskFull. destruct (allServiceWords value) eqn:Hall.
  - unfold maskAllLetters. rewrite writeMaskedWord_runes, <- (app_nil_r (encode_runes _)).
    rewrite runes_encode_runes, app_nil_r
      by (apply Forall_map; eapply Forall_impl; [exact Hok|apply masked_rune_valid]).
    unfold runes. intros E. induction (chunks value) as [|c cs IH]; [constructor|].
    injection E as Ec E. apply Forall_cons_1 in Hok as [_ Hok]. constructor; [|auto].
    unfold masked_rune in Ec. destruct (isWordRune (fst c)) eqn:Hw; [|done].
    rewrite <- Ec in Hw. by rewrite star_not_word in Hw.
  - rewrite (runes_of_pieces _ full_out) by (by apply full_pieces_out).
    intros E%maskFull_unchanged_pieces.
    assert (pieces isWordRune scanWord (chunks value) = [] ∨ True) as _ by tauto.
    pose proof (pieces_spec isWordRune scanWord (chunks value)) as Hsp.
    assert (∀ w, Word w ∈ pieces isWordRune scanWord (chunks value) → isServiceWord (raw w) = true) as Hsvc.
    { intros w Hw. rewrite Forall_forall in Hsp.
      destruct (Hsp _ Hw) as (c & w' & _ & _ & -> & Hc & _).
      destruct (isServiceWord (raw (c :: w'))) eqn:Hs; [done|exfalso].
      apply list_elem_of_lookup in Hw as [i Hi].
      apply (f_equal (λ l, l !! i)) in E. rewrite !list_lookup_fmap, Hi in E. simpl in E.
      rewrite Hs in E. injection E as Ec _. unfold masked_rune in Ec. rewrite Hc in Ec.
      rewrite <- Ec in Hc. by rewrite star_not_word in Hc. }
    unfold allServiceWords in Hall. apply andb_false_iff in Hall as [Hall|Hall].
    + exfalso. apply not_true_iff_false in Hall. apply Hall, forallb_forall. intros b Hb.
      apply list_elem_of_In, list_elem_of_omap in Hb as ([c|w] & Hp & [= <-]). auto.
    + apply negb_false_iff, bool_decide_eq_true in Hall.
      unfold runes. rewrite <- (pieces_cover isWordRune scanWord (chunks value)).
      rewrite concat_map, map_map. apply Forall_concat, Forall_map, Forall_forall.
      intros [c|w] Hp; simpl.
      * rewrite Forall_forall in Hsp. repeat constructor. by apply (Hsp _ Hp).
      * exfalso. assert (raw w ∈ @nil bytes) as Hn%elem_of_nil; [|done].
        rewrite <- Hall. apply list_elem_of_omap. eauto.
Qed.
End FullSpec.

(** ** The token strategy is injective on a document *)

Section TokenFacts.
Context `{Unicode}.

Lemma token_repl_inj c1 c2 n1 n2 :
  0 <= n1 → 0 <= n2 → token_repl c1 n1 = token_repl c2 n2 →
  upper_string c1 = upper_string c2 ∧ n1 = n2.
Proof.
  intros H1 H2. unfold token_repl.
  assert (∀ n, 0 <= n → ("_"%byte : byte) ∉ decimal n) as Hsep.
  { intros n Hn Hin. pose proof (decimal_digits n Hn) as Hd. rewrite forallb_forall in Hd.
    apply list_elem_of_In in Hin. apply Hd in Hin. by vm_compute in Hin. }
  intros E%app_inv_head. rewrite !(app_assoc _ _ (go_bytes "]")) in E. apply app_inv_tail in E.
  apply (split_last_inj ("_"%byte : byte) _ (decimal n1) _ (decimal n2)) in E as [E1 E2]; [|auto|auto].
  split; [done|]. by apply decimal_inj.
Qed.

Lemma upper_category_inj c1 c2 :
  c1 ∈ all_categories → c2 ∈ all_categories → upper_string c1 = upper_string c2 → c1 = c2.
Proof.
  intros H1 H2.
  assert (∀ c, c ∈ all_categories → is_ascii c = true) as Ha.
  { intros c Hc. assert (forallb is_ascii all_categories = true) as Hall by (vm_compute; done).
    rewrite forallb_forall in Hall. apply Hall. by apply list_elem_of_In. }
  rewrite !upper_string_ascii by auto. intros E.
  assert (forallb (λ a, forallb (λ b,
    negb (eq_bytes (map ascii_upper_byte a) (map ascii_upper_byte b)) || eq_bytes a b)
    all_categories) all_categories = true) as Hall by (vm_compute; done).
  rewrite forallb_forall in Hall. specialize (Hall c1 (proj1 (list_elem_of_In _ _) H1)).
  rewrite forallb_forall in Hall. specialize (Hall c2 (proj1 (list_elem_of_In _ _) H2)).
  rewrite (proj2 (eq_bytes_true _ _) E) in Hall. simpl in Hall. by apply eq_bytes_true.
Qed.

(** Every remembered replacement is a numbered token, and determines its value. *)
Record token_inv (d : DocState) : Prop := {
  ti_token v m : memo d !! v = Some m →
    ∃ c n, c ∈ all_categories ∧ m = token_repl c n ∧ 1 <= n <= default 0 (seq d !! c);
  ti_inj v1 v2 m : memo d !! v1 = Some m → memo d !! v2 = Some m → v1 = v2;
  ti_seq c : 0 <= default 0 (seq d !! c)
}.

Lemma token_inv_new : token_inv NewDocState.
Proof. split; simpl; intros *; rewrite ?lookup_empty; done. Qed.

Lemma memo_hit_Some d v m : memo_hit (Some d) v = Some m → memo d !! v = Some m.
Proof.
  unfold memo_hit, Memo. case_bool_decide as Hm; [done|]. intros [= <-].
  by destruct (memo d !! v).
Qed.

Lemma memo_hit_None d v m : memo_hit (Some d) v = None → memo d !! v = Some m → m = [].
Proof. unfold memo_hit, Memo. case_bool_decide as Hm; [|done]. intros _ E. by rewrite E in Hm. Qed.

Lemma tokenMask_inv d v c :
  token_inv d → c ∈ all_categories →
  ∃ out d', tokenMask v c (Some d) = (out, Some d') ∧ token_inv d' ∧
    memo d' !! v = Some out ∧ (∀ u m, memo d !! u = Some m → memo d' !! u = Some m).
Proof.
  intros [Htok Hinj Hseq] Hc. unfold tokenMask.
  destruct (memo_hit (Some d) v) as [m|] eqn:Hm.
  { exists m, d. split_and!; [done|by split|by apply memo_hit_Some|done]. }
  assert (memo d !! v = None) as Hv.
  { destruct (memo d !! v) as [m|] eqn:E; [|done]. pose proof (memo_hit_None _ _ _ Hm E) as ->.
    apply Htok in E as (? & ? & _ & E & _). done. }
  simpl. unfold Next, incr, Remember. rewrite lookup_insert_eq. simpl.
  set (n := default 0 (seq d !! c) + 1). set (out := token_repl c n).
  assert (∀ u, memo d !! u ≠ Some out) as Hfresh.
  { intros u Hu. apply Htok in Hu as (c' & n' & Hc' & E & Hn').
    pose proof (Hseq c). apply token_repl_inj in E as [E <-]; [|lia|lia].
    apply upper_category_inj in E as <-; [|done|done]. lia. }
  do 2 eexists. split_and!; [done| |by simpl; rewrite lookup_insert_eq|simpl].
  - split; simpl.
    + intros u m Hu. destruct (decide (u = v)) as [->|Hne].
      * rewrite lookup_insert_eq in Hu. injection Hu as <-. exists c, n.
        rewrite lookup_insert_eq. simpl. pose proof (Hseq c). split_and!; [done|done|lia|lia].
      * rewrite lookup_insert_ne in Hu by done. destruct (Htok _ _ Hu) as (c' & n' & ? & ? & ?).
        exists c', n'. split_and!; [done|done|lia|]. destruct (decide (c = c')) as [<-|Hcc].
        -- rewrite lookup_insert_eq. simpl. lia.
        -- rewrite lookup_insert_ne by done. lia.
    + intros u1 u2 m Hu1 Hu2. rewrite lookup_insert in Hu1, Hu2.
      repeat case_decide; simplify_eq; try done; try (exfalso; by eapply Hfresh).
      by eapply Hinj.
    + intros c'. destruct (decide (c = c')) as [<-|Hcc].
      * rewrite lookup_insert_eq. simpl. pose proof (Hseq c). lia.
      * by rewrite lookup_insert_ne.
  - intros u m Hu. rewrite lookup_insert_ne; [done|]. intros <-. congruence.
Qed.

(** The replacements of a series of values masked in one document. *)
Fixpoint mask_series (mask : bytes → Category → option DocState → bytes * option DocState)
    (calls : list (bytes * Category)) (doc : option DocState) : list bytes * option DocState :=
  match calls with
  | [] => ([], doc)
  | (v, c) :: calls =>
      let '(out, doc) := mask v c doc in
      let '(outs, doc) := mask_series mask calls doc in
      (out :: outs, doc)
  end.

Lemma token_series d calls :
  token_inv d → Forall (λ p, snd p ∈ all_categories) calls →
  ∃ outs d', mask_series tokenMask calls (Some d) = (outs, Some d') ∧ token_inv d' ∧
    Forall2 (λ p out, memo d' !! fst p = Some out) calls outs ∧
    (∀ u m, memo d !! u = Some m → memo d' !! u = Some m).
Proof.
  intros Hd Hc. revert d Hd. induction Hc as [|[v c] calls Hvc _ IH]; intros d Hd; simpl.
  { exists [], d. by split_and!. }
  destruct (tokenMask_inv d v c Hd Hvc) as (out & d1 & -> & Hd1 & Hv & Hk1).
  destruct (IH d1 Hd1) as (outs & d2 & -> & Hd2 & Hall & Hk2).
  exists (out :: outs), d2. split_and!; [done|done| |auto]. constructor; [by apply Hk2|done].
Qed.
End TokenFacts.

(** ** Dates: a rune-by-rune reference *)

Section DateFacts.
Context `{Unicode}.

(** Every digit, and every letter that follows a letter, becomes [char]. *)
Fixpoint date_ref (char : bytes) (prev : bool) (rs : list Z) : bytes :=
  match rs with
  | [] => []
  | r :: rs =>
      (if is_digit r || (is_letter r && prev) then char else encode_rune r)
        ++ date_ref char (is_letter r) rs
  end.

Lemma date_ref_word char (w : list chunk) rest prev :
  Forall (λ c, is_letter (fst c) = true) w → prev = true →
  date_ref char prev (map fst w ++ rest) =
  str_repeat char (Z.of_nat (length w)) ++ date_ref char true rest.
Proof.
  intros Hw ->. unfold str_repeat. rewrite Nat2Z.id.
  induction Hw as [|c w Hc _ IH]; simpl; [done|].
  by rewrite Hc, (letter_not_digit _ Hc), IH, <- app_assoc.
Qed.

Lemma date_ref_stop char (cs : list chunk) :
  match cs with [] => True | c :: _ => is_letter (fst c) = false end →
  date_ref char true (map fst cs) = date_ref char false (map fst cs).
Proof. destruct cs as [|c cs]; simpl; [done|]. by intros ->. Qed.

Lemma letter_not_error r : is_letter r = true → r ≠ rune_error.
Proof. intros Hr ->. by rewrite is_letter_error in Hr. Qed.

Lemma maskDate_pieces char cs :
  Forall chunk_ok cs →
  concat (map (date_piece char) (pieces is_letter scanLetters cs)) = date_ref char false (map fst cs).
Proof.
  apply (pieces_ind is_letter scanLetters (λ cs ps, Forall chunk_ok cs →
    concat (map (date_piece char) ps) = date_ref char false (map fst cs))); [done| |].
  - intros r b cs' Hr IH [_ Hok]%Forall_cons_1. simpl. rewrite IH, Hr by done.
    by rewrite orb_false_r.
  - intros r b cs' w rest Hr Hscan Hsplit Hw IH Hok. rewrite <- Hsplit in Hok |- *.
    apply Forall_app in Hok as [Hokw Hok]. cbn [map concat]. rewrite IH by done.
    pose proof (scan_run_class is_letter ((r, b) :: cs')) as Hl.
    pose proof (scan_run_stop is_letter ((r, b) :: cs')) as Hstop.
    unfold scanLetters in Hscan. rewrite Hscan in Hl, Hstop. cbn [fst snd] in Hl, Hstop.
    assert (chunks (raw w) = w) as Hcw.
    { apply chunks_raw; [done|]. eapply Forall_impl; [exact Hl|]. intros c. apply letter_not_error. }
    destruct w as [|c w]; [done|]. rewrite map_app. cbn [map app date_ref].
    apply Forall_cons_1 in Hl as [Hc Hl]. rewrite Hc, (letter_not_digit _ Hc). simpl.
    rewrite (date_ref_word char w) by done. rewrite (date_ref_stop char rest) by done.
    unfold maskDateWord, rune_count. rewrite Hcw, app_assoc. do 2 f_equal.
    + assert (raw (c :: w) ≠ []) as Hne by (intros E; by rewrite E in Hcw).
      rewrite chunks_cons in Hcw by done. by apply (f_equal (λ l, fst <$> head l)) in Hcw as [= ->].
    + f_equal. simpl. lia.
Qed.
End DateFacts.

(** ** Non-empty replacements *)

Lemma memo_hit_nonempty doc value m : memo_hit doc value = Some m → m ≠ [].
Proof. destruct doc as [d|]; [|done]. unfold memo_hit. case_bool_decide; [done|]. by intros [= <-]. Qed.

#[export] Instance token_nonempty `{Unicode} : NonEmptyStrategy NewToken.
Proof.
  apply total_strategy_nonempty. intros value cat doc _. unfold tokenMask.
  destruct (memo_hit doc value) eqn:E; [by eapply memo_hit_nonempty|].
  by destruct (next_number doc cat).
Qed.

#[export] Instance full_nonempty `{Unicode} : NonEmptyStrategy NewFull.
Proof.
  apply total_strategy_nonempty. intros value cat doc Hv. unfold fullMask.
  destruct (memo_hit doc value) eqn:E; [by eapply memo_hit_nonempty|]. simpl.
  intros Ev. pose proof (maskFull_star_rel value) as Hs. rewrite Ev in Hs.
  apply Forall2_nil_inv_r in Hs. unfold runes in Hs. apply map_eq_nil in Hs.
  by apply (chunks_not_nil value).
Qed.

Section PartialNonEmpty.
Context `{Unicode}.

Lemma mask_digit_runs_nonempty i value keep char :
  char ≠ [] → value ≠ [] → mask_digit_runs_from i value keep char ≠ [].
Proof. intros Hc. destruct value as [|b value]; [done|]. simpl. case_match; intros _ [? _]%app_nil; done. Qed.

Lemma maskDigits_nonempty value h t char :
  char ≠ [] → value ≠ [] → maskDigits value h t char ≠ [].
Proof. intros. unfold maskDigits. repeat case_match; simplify_eq; try done; by apply mask_digit_runs_nonempty. Qed.

Lemma split_byte_not_nil sep s : split_byte sep s ≠ [].
Proof. destruct s; simpl; [done|]. repeat case_match; done. Qed.

Lemma writeInitialWord_nonempty word : writeInitialWord word ≠ [].
Proof.
  unfold writeInitialWord. pose proof (split_byte_not_nil ("-"%byte : byte) word).
  destruct (split_byte _ word) as [|p ps]; [done|]. simpl. unfold initial_part.
  by intros [[_ ?]%app_nil _]%app_nil.
Qed.

Lemma scanInitialWord_scanner : Scanner is_letter scanInitialWord.
Proof.
  split.
  - intros cs. unfold scanInitialWord, scanLetterWord. pose proof (scan_run_split is_letter true cs) as Hs.
    destruct (scan_run is_letter true cs) as [w [|[r b] rest]]; simpl in *; [done|].
    case_match; simpl; [|done]. by rewrite <- app_assoc.
  - intros r b cs Hr. unfold scanInitialWord, scanLetterWord.
    pose proof (scan_progress is_letter (scan_run is_letter true) r b cs Hr) as Hp.
    destruct (scan_run is_letter true ((r, b) :: cs)) as [w [|[r' b'] rest]]; simpl in *; [done|].
    case_match; simpl; [|done]. by intros [? _]%app_nil.
Qed.
#[local] Existing Instance scanInitialWord_scanner.

Lemma encode_app_nonempty r s : encode_rune r ++ s ≠ [].
Proof. intros [E _]%app_nil. by apply encode_rune_nonempty in E. Qed.

Lemma partial_value_nonempty cfg value cat :
  value ≠ [] → partial_value cfg value cat ≠ [].
Proof.
  intros Hv. pose proof (chunks_not_nil value Hv) as Hcs. pose proof (chunks_nonempty value) as Hf.
  assert (pr_Char (partial_rule cfg cat) ≠ []) as Hchar.
  { assert (pr_Char (partial_defaults (pc_Defaults cfg)) ≠ [])
      by (unfold partial_defaults; simpl; by case_bool_decide).
    unfold partial_rule. case_match; [|done]. simpl. by case_bool_decide. }
  unfold partial_value. repeat case_match.
  - apply pieces_nonempty; [apply _| |intros w Hw; simpl|done|done].
    + intros c. apply encode_rune_nonempty.
    + case_match; [done|apply writeInitialWord_nonempty].
  - apply pieces_nonempty; [apply _|intros c; simpl|intros w _; simpl|done|done].
    + case_match; [done|apply encode_rune_nonempty].
    + apply encode_app_nonempty.
  - unfold maskEmail. repeat case_match; try done. apply encode_app_nonempty.
  - apply pieces_nonempty; [apply _|intros c; simpl|intros w Hw; simpl|done|done].
    + case_match; [done|apply encode_rune_nonempty].
    + unfold maskWord. repeat case_match; try done. apply encode_app_nonempty.
  - by apply maskDigits_nonempty.
Qed.
End PartialNonEmpty.

#[export] Instance partial_nonempty `{Unicode} cfg : NonEmptyStrategy (NewPartial cfg).
Proof.
  apply total_strategy_nonempty. intros value cat doc Hv. unfold partialMask.
  destruct (memo_hit doc value) eqn:E; [by eapply memo_hit_nonempty|]. by apply partial_value_nonempty.
Qed.

(** ** Properties *)

(** C10: masking then restoring gives the original text back with no miss, for every
    text, span list and document state, with any strategy that never produces an
    empty replacement. *)
Theorem Apply_Restore_roundtrip `{SliceSort} (s : Strategy) `{!NonEmptyStrategy s} text spans doc :
  ∃ masked reps doc', Apply text spans s doc = Some (masked, reps, doc') ∧
    Restore masked reps = Some (text, 0).
Proof.
  destruct (apply_spec text s spans doc) as (segs & tail & used & doc' & -> & Ht & Hok & _ & _).
  do 3 eexists. split; [done|]. rewrite Ht. by apply restore_segments.
Qed.

Definition demo_text : bytes := "Клиент Иванов, тел +7 (916) 123-45-67.".

Definition demo_spans : list Span :=
  [MkSpan 34 52 CatPhone "regex" (f64_lit 9 10); MkSpan 13 25 CatFullName "names" (f64_lit 9 10)].

Lemma Apply_Restore_roundtrip_witness :
  (∃ masked reps doc', Apply demo_text demo_spans (NewPartial partial_yaml) None = Some (masked, reps, doc') ∧
    Restore masked reps = Some (demo_text, 0)) ∧
  (λ r, fst (fst r)) <$> Apply demo_text demo_spans (NewPartial partial_yaml) None =
    Some (go_bytes "Клиент И., тел +7 (9**) ***-**-67.").
Proof.
  split; [|vm_compute; reflexivity].
  apply (Apply_Restore_roundtrip (NewPartial partial_yaml)).
Defined.

(** C13: on a resolved list of spans inside the text, [Apply] masks every span: the
    text is cut exactly at the spans, each value is replaced, everything between
    them is kept byte for byte, and the record holds value, replacement and the
    replacement's position in the masked text. *)
Theorem Apply_masks_every_span `{SliceSort} (s : Strategy) `{!NonEmptyStrategy s} text spans doc :
  Forall (span_fits text) spans → StronglySorted before spans →
  ∃ segs tail doc',
    Apply text spans s doc = Some (masked_text segs tail, segment_reps 0 segs, doc') ∧
    text = orig_text segs tail ∧ Forall2 (segment_of text) segs spans.
Proof.
  intros Hf Hb.
  destruct (apply_spec text s spans doc) as (segs & tail & used & doc' & Ha & Ht & _ & Hu & Hall).
  rewrite (Hall Hf Hb) in Hu. by exists segs, tail, doc'.
Qed.

Lemma Apply_masks_every_span_witness :
  ∃ segs tail doc',
    Apply demo_text (rev demo_spans) NewFull None = Some (masked_text segs tail, segment_reps 0 segs, doc') ∧
    demo_text = orig_text segs tail ∧ Forall2 (segment_of demo_text) segs (rev demo_spans).
Proof.
  apply (Apply_masks_every_span NewFull).
  - repeat constructor; vm_compute; discriminate.
  - repeat constructor; vm_compute; discriminate.
Defined.

(** C28: within one document, the token strategy maps two values to the same token
    exactly when the values are equal, whatever their categories and order. *)
Theorem token_series_injective `{Unicode} calls :
  Forall (λ p, snd p ∈ all_categories) calls →
  ∃ outs doc', mask_series tokenMask calls (Some NewDocState) = (outs, doc') ∧
    length outs = length calls ∧
    ∀ i j p q o u, calls !! i = Some p → calls !! j = Some q →
      outs !! i = Some o → outs !! j = Some u → (o = u ↔ fst p = fst q).
Proof.
  intros Hc. destruct (token_series NewDocState calls token_inv_new Hc)
    as (outs & d' & E & [_ Hinj _] & Hall & _).
  exists outs, (Some d'). split_and!; [done|symmetry; by eapply Forall2_length|].
  intros i j p q o u Hp Hq Ho Hu.
  pose proof (Forall2_lookup_lr _ _ _ _ _ _ Hall Hp Ho) as H1.
  pose proof (Forall2_lookup_lr _ _ _ _ _ _ Hall Hq Hu) as H2. simpl in H1, H2.
  split; [intros <-; by eapply Hinj|intros E'; congruence].
Qed.

Definition demo_calls : list (bytes * Category) :=
  [("Иванов" : bytes, CatFullName); ("Петров" : bytes, CatFullName); ("Иванов" : bytes, CatFullName);
   ("112-233-445 95" : bytes, CatSNILS)].

Lemma token_series_injective_witness :
  (∃ outs doc', mask_series tokenMask demo_calls (Some NewDocState) = (outs, doc') ∧
    length outs = length demo_calls ∧
    ∀ i j p q o u, demo_calls !! i = Some p → demo_calls !! j = Some q →
      outs !! i = Some o → outs !! j = Some u → (o = u ↔ fst p = fst q)) ∧
  fst (mask_series tokenMask demo_calls (Some NewDocState)) =
    [("[FULL_NAME_1]" : bytes); ("[FULL_NAME_2]" : bytes); ("[FULL_NAME_1]" : bytes); ("[SNILS_1]" : bytes)].
Proof.
  split; [|vm_compute; reflexivity]. apply token_series_injective.
  repeat constructor; by (apply bool_decide_unpack; vm_compute).
Defined.

(** C29: the full strategy keeps the shape of a value, rune for rune: each rune of
    the output is the rune of the input or, if that is a letter or a digit, a
    star. And it always hides something: a value that holds a letter or a digit
    never comes back unchanged, even when it consists of service words only. *)
Theorem maskFull_hides `{Unicode} value :
  Forall2 (λ r o, o = r ∨ isWordRune r = true ∧ o = star) (runes value) (runes (maskFull value)) ∧
  ((∃ r, r ∈ runes value ∧ isWordRune r = true) → maskFull value ≠ value).
Proof.
  split; [apply maskFull_star_rel|]. intros (r & Hr & Hw) E%maskFull_no_leak.
  rewrite Forall_forall in E. rewrite E in Hw by done. done.
Qed.

(** After digit masking, the digits left are exactly the first [keep_head] and
    the last [keep_tail] of the value, and none when the value has at most
    [keep_head + keep_tail + 1] digits. *)
Lemma maskDigits_keeps_head_tail `{Unicode} value h t char :
  0 <= h → 0 <= t → no_digits char →
  digits_of (maskDigits value h t char) =
  (let ds := digits_of value in
   if Z.of_nat (length ds) <=? h + t + 1 then []
   else take (Z.to_nat h) ds ++ drop (length ds - Z.to_nat t) ds).
Proof. apply maskDigits_kept. Qed.

Lemma maskDigits_keeps_head_tail_witness :
  digits_of (maskDigits "4111 1111 1111 1234" 2 2 "*") = go_bytes "4134".
Proof.
  rewrite maskDigits_keeps_head_tail; [vm_compute; reflexivity|lia|lia|vm_compute; reflexivity].
Defined.

(** Date masking, defined in the code as a scan over words, equals the rune by
    rune reference: every digit and every letter that follows a letter becomes
    [char], everything else is kept. *)
Lemma maskDate_reference `{Unicode} value char :
  maskDate value char = date_ref char false (runes value).
Proof. apply maskDate_pieces, chunks_ok. Qed.

(** Digit masking looks at bytes, so a value whose digits are not ASCII (here
    Arabic-Indic) is returned in the clear, although [isDigit] accepts them. *)
Lemma maskDigits_misses_other_scripts `{Unicode} value h t char :
  Forall (λ b, digit_byte b = false) value → maskDigits value h t char = value.
Proof.
  intros Hv. unfold maskDigits, collectDigitIdx. rewrite <- digit_pairs_fst.
  assert (digits_of value = []) as Hd.
  { apply filter_none. eapply Forall_impl; [exact Hv|]. intros b Hb. unfold isDigit_byte.
    rewrite is_digit_latin1 by apply byte_val_range. exact Hb. }
  rewrite length_map, <- (length_map snd), digit_pairs_snd, Hd. done.
Qed.

Lemma maskDigits_misses_other_scripts_witness :
  maskDigits "٤٥٠٩ ١٢٣٤٥٦" 2 2 "*" = go_bytes "٤٥٠٩ ١٢٣٤٥٦".
Proof.
  apply maskDigits_misses_other_scripts.
  apply Forall_forall. intros b Hb. apply list_elem_of_In in Hb.
  revert b Hb. apply forallb_negb_spec. vm_compute. reflexivity.
Defined.
