(* ===== verification/Keywords.v ===== *)
(** * Keywords at word boundaries

    [internal/pii/pipeline.go] and [internal/pii/detectors/regex.go] each have a
    [keywordAtBoundary] and a [lastKeywordIndex], which differ in what counts as a
    letter only; the search is stated once, for a class of letters. [None] is a
    run-time panic or a loop that does not end. *)

From S2P Require Import Prelude GoText.

Section Search.
(** The class of letters. *)
Context (letter : Z → bool).

Definition at_boundary (s : bytes) (start end_ : Z) : option bool :=
  before ← (if 0 <? start then
              prefix ← go_slice s 0 start;
              Some (letter (fst (decode_last_rune prefix)))
            else Some false);
  if before : bool then Some false else
  after ← (if end_ <? len s then
             rest ← go_slice s end_ (len s);
             Some (letter (fst (decode_rune rest)))
           else Some false);
  Some (negb after).

(** The loop of [lastKeywordIndex]: no answer within [fuel] rounds is [None]. *)
Fixpoint last_keyword_loop (fuel : nat) (s kw : bytes) (searchFrom : Z) : option Z :=
  match fuel with
  | O => None
  | S fuel =>
      prefix ← go_slice s 0 searchFrom;
      let idx := str_last_index prefix kw in
      if idx <? 0 then Some (-1)
      else
        ok ← at_boundary s idx (idx + len kw);
        if ok : bool then Some idx else last_keyword_loop fuel s kw idx
  end.

(** A non-empty keyword moves [searchFrom] left in every round. *)
Definition last_keyword (s kw : bytes) : option Z :=
  last_keyword_loop (S (length s)) s kw (len s).

(** The loop of [firstKeywordIndex]. *)
Fixpoint first_keyword_loop (fuel : nat) (s kw : bytes) (searchFrom : Z) : option Z :=
  match fuel with
  | O => None
  | S fuel =>
      rest ← go_slice s searchFrom (len s);
      let idx := str_index rest kw in
      if idx <? 0 then Some (-1)
      else
        let idx := idx + searchFrom in
        ok ← at_boundary s idx (idx + len kw);
        if ok : bool then Some idx else first_keyword_loop fuel s kw (idx + 1)
  end.

Definition first_keyword (s kw : bytes) : option Z :=
  first_keyword_loop (S (length s)) s kw 0.
End Search.

Arguments last_keyword : simpl never.
Arguments first_keyword : simpl never.

(** ** Occurrences

    The search from the right skips occurrences that overlap a rejected one, so its
    exact statement needs a keyword that cannot overlap itself. *)

Definition unbordered (kw : bytes) : Prop :=
  Forall (λ k, has_prefix (kw) (drop k kw) = false) (seq 1 (length kw - 1)).

#[export] Instance unbordered_dec kw : Decision (unbordered kw).
Proof. unfold unbordered. apply _. Defined.

Lemma has_prefix_take s p q : has_prefix s p = true → has_prefix s q = true →
  (length q <= length p)%nat → has_prefix p q = true.
Proof.
  intros [t ->]%has_prefix_spec [u Hu]%has_prefix_spec Hl. apply has_prefix_spec.
  exists (drop (length q) p). apply (f_equal (take (length q))) in Hu.
  rewrite take_app_le in Hu by lia. rewrite take_app_exact in Hu by done.
  rewrite <- Hu at 1. by rewrite take_drop.
Qed.

(** Two occurrences of an unbordered keyword do not overlap. *)
Lemma unbordered_apart s kw i j :
  unbordered kw → occurs_at s kw i → occurs_at s kw j → i < j → i + len kw <= j.
Proof.
  intros Hu [Hi Hpi] [Hj Hpj] Hlt. destruct (decide (i + len kw <= j)) as [|Hn]; [done|exfalso].
  unfold unbordered in Hu. rewrite Forall_forall in Hu.
  specialize (Hu (Z.to_nat (j - i))). rewrite elem_of_seq in Hu.
  assert (has_prefix kw (drop (Z.to_nat (j - i)) kw) = true) as Ht.
  { apply (has_prefix_take (drop (Z.to_nat j) s)); [done| |rewrite length_drop; lia].
    apply has_prefix_spec in Hpi as [t Ht]. apply has_prefix_spec. exists t.
    apply (f_equal (drop (Z.to_nat (j - i)))) in Ht. rewrite drop_drop in Ht.
    replace (Z.to_nat i + Z.to_nat (j - i))%nat with (Z.to_nat j) in Ht by lia.
    rewrite Ht, drop_app_le; [done|]. unfold len in Hn. lia. }
  rewrite Hu in Ht; [done|]. unfold len in Hn. lia.
Qed.

Lemma occurs_at_prefix s kw i n :
  0 <= n →
  occurs_at (slice s 0 n) kw i ↔ occurs_at s kw i ∧ i + len kw <= n ∧ 0 <= i.
Proof.
  intros Hn0. unfold slice. rewrite Z.sub_0_r, drop_0. split.
  - intros H. destruct (occurs_at_slice _ _ _ H) as [Hle _]. destruct H as [Hi Hp].
    rewrite len_take in *. split_and!; [|lia|lia]. split; [lia|].
    apply has_prefix_spec in Hp as [t Ht]. apply has_prefix_spec.
    rewrite skipn_firstn_comm in Ht.
    exists (t ++ drop (Z.to_nat n - Z.to_nat i) (drop (Z.to_nat i) s)).
    by rewrite app_assoc, <- Ht, take_drop.
  - intros (H & Hn & H0). destruct (occurs_at_slice _ _ _ H) as [Hle _]. destruct H as [Hi Hp].
    pose proof (len_nonneg kw). split; [rewrite len_take; lia|].
    rewrite skipn_firstn_comm. apply has_prefix_spec in Hp as [t Ht]. rewrite Ht.
    apply has_prefix_spec. rewrite take_app_ge by (unfold len in *; lia). by eexists.
Qed.

Lemma last_index_occurs s sub :
  0 <= str_last_index s sub →
  occurs_at s sub (str_last_index s sub) ∧ ∀ j, occurs_at s sub j → j <= str_last_index s sub.
Proof.
  unfold str_last_index. pose proof (last_index_opt_spec s sub) as Hs.
  destruct (last_index_opt s sub); simpl; [done|lia].
Qed.

Lemma last_index_none s sub : str_last_index s sub < 0 → ∀ j, ¬ occurs_at s sub j.
Proof.
  unfold str_last_index. pose proof (last_index_opt_spec s sub) as Hs.
  destruct (last_index_opt s sub); simpl; [|done]. destruct Hs as [[??] _]. lia.
Qed.

(** ** The search from the right *)

Section SearchFacts.
Context (letter : Z → bool).
Abbreviation at_boundary := (at_boundary letter).
Abbreviation last_keyword_loop := (last_keyword_loop letter).
Abbreviation last_keyword := (last_keyword letter).
Abbreviation first_keyword_loop := (first_keyword_loop letter).
Abbreviation first_keyword := (first_keyword letter).

Lemma at_boundary_total s a b :
  a <= len s → 0 <= b → ∃ ok, at_boundary s a b = Some ok.
Proof.
  intros Ha Hb. pose proof (len_nonneg s). unfold Keywords.at_boundary.
  destruct (0 <? a) eqn:E1; [rewrite (go_slice_Some s 0 a) by lia|]; cbn [mbind option_bind];
    [case_match; [by eexists|]|];
    (destruct (b <? len s) eqn:E2; [rewrite (go_slice_Some s b (len s)) by lia|]);
    cbn [mbind option_bind]; by eexists.
Qed.

Lemma last_keyword_loop_spec fuel s kw from :
  kw ≠ [] → unbordered kw → 0 <= from <= len s → (Z.to_nat from < fuel)%nat →
  (∀ j, occurs_at s kw j → from < j + len kw → at_boundary s j (j + len kw) = Some false) →
  ∃ i, last_keyword_loop fuel s kw from = Some i ∧
    (i = -1 ∨ occurs_at s kw i ∧ at_boundary s i (i + len kw) = Some true) ∧
    (∀ j, occurs_at s kw j → i < j → at_boundary s j (j + len kw) = Some false).
Proof.
  intros Hkw Hu. pose proof (len_pos kw Hkw) as Hpos. revert from.
  induction fuel as [|fuel IH]; intros from Hfrom Hfuel Hrej; [lia|].
  cbn [last_keyword_loop]. rewrite go_slice_Some by lia. simpl.
  destruct (str_last_index (slice s 0 from) kw <? 0) eqn:E.
  { exists (-1). split_and!; [done|by left|]. intros j Hj Hlt. apply Hrej; [done|].
    destruct (decide (from < j + len kw)) as [|Hn]; [done|exfalso].
    eapply (last_index_none (slice s 0 from) kw ltac:(lia) j). apply occurs_at_prefix; [lia|].
    split; [done|lia]. }
  destruct (last_index_occurs (slice s 0 from) kw ltac:(lia)) as [Hocc Hmax].
  set (idx := str_last_index (slice s 0 from) kw) in *.
  apply occurs_at_prefix in Hocc as (Hocc & Hend & Hidx); [|lia].
  destruct (at_boundary_total s idx (idx + len kw)) as [ok Hok]; [lia|lia|].
  rewrite Hok. simpl.
  assert (∀ j, occurs_at s kw j → idx < j → at_boundary s j (j + len kw) = Some false) as Hlater.
  { intros j Hj Hlt. apply Hrej; [done|].
    destruct (decide (from < j + len kw)) as [|Hn]; [done|exfalso].
    assert (j <= idx); [|lia]. apply Hmax, occurs_at_prefix; [lia|]. split; [done|]. lia. }
  destruct ok; [exists idx; split_and!; eauto|].
  apply IH; [lia|lia|]. intros j Hj Hlt.
  destruct (Z.lt_trichotomy idx j) as [?|[<-|Hji]]; [auto|done|].
  pose proof (unbordered_apart s kw j idx Hu Hj Hocc Hji). lia.
Qed.

Lemma last_keyword_spec s kw :
  kw ≠ [] → unbordered kw →
  ∃ i, last_keyword s kw = Some i ∧
    (i = -1 ∨ occurs_at s kw i ∧ at_boundary s i (i + len kw) = Some true) ∧
    (∀ j, occurs_at s kw j → i < j → at_boundary s j (j + len kw) = Some false).
Proof.
  intros Hkw Hu. unfold last_keyword. apply last_keyword_loop_spec; try done.
  - pose proof (len_nonneg s). lia.
  - unfold len. lia.
  - intros j Hj Hlt. destruct (occurs_at_slice _ _ _ Hj). lia.
Qed.

(** Whatever the keyword, as long as it is not empty, the search ends. *)
Lemma last_keyword_loop_total fuel s kw from :
  kw ≠ [] → 0 <= from <= len s → (Z.to_nat from < fuel)%nat →
  ∃ i, last_keyword_loop fuel s kw from = Some i ∧ (i = -1 ∨ 0 <= i ∧ i + len kw <= len s).
Proof.
  intros Hkw. pose proof (len_pos kw Hkw) as Hpos. revert from.
  induction fuel as [|fuel IH]; intros from Hfrom Hfuel; [lia|].
  cbn [Keywords.last_keyword_loop]. rewrite go_slice_Some by lia. cbn [mbind option_bind].
  destruct (str_last_index (slice s 0 from) kw <? 0) eqn:E.
  { exists (-1). split; [done|by left]. }
  destruct (last_index_occurs (slice s 0 from) kw ltac:(lia)) as [Hocc _].
  apply occurs_at_prefix in Hocc as (_ & Hend & Hidx); [|lia].
  set (idx := str_last_index (slice s 0 from) kw) in *.
  destruct (at_boundary_total s idx (idx + len kw)) as [ok ->]; [lia..|]. cbn [mbind option_bind]. destruct ok; [eexists; split; [done|lia]|]. apply IH; lia.
Qed.

Lemma last_keyword_total s kw :
  kw ≠ [] → ∃ i, last_keyword s kw = Some i ∧ (i = -1 ∨ 0 <= i ∧ i + len kw <= len s).
Proof.
  intros Hkw. apply last_keyword_loop_total; [done| |unfold len; lia]. pose proof (len_nonneg s). lia.
Qed.

(** ** The search from the left *)

Lemma occurs_at_drop s kw i n :
  0 <= n <= len s → n <= i → occurs_at (slice s n (len s)) kw (i - n) ↔ occurs_at s kw i.
Proof.
  intros Hn Hi. unfold occurs_at. rewrite len_slice by lia. unfold slice.
  rewrite take_ge by (rewrite length_drop; unfold len in *; lia). rewrite drop_drop.
  replace (Z.to_nat n + Z.to_nat (i - n))%nat with (Z.to_nat i) by lia. split; intros [? ?]; split; (done || lia).
Qed.

Lemma index_occurs s sub :
  0 <= str_index s sub → occurs_at s sub (str_index s sub) ∧ ∀ j, occurs_at s sub j → str_index s sub <= j.
Proof.
  unfold str_index. pose proof (index_opt_spec s sub) as Hs. destruct (index_opt s sub); simpl; [done|lia].
Qed.

Lemma index_none s sub : str_index s sub < 0 → ∀ j, ¬ occurs_at s sub j.
Proof.
  unfold str_index. pose proof (index_opt_spec s sub) as Hs.
  destruct (index_opt s sub); simpl; [|done]. destruct Hs as [[??] _]. lia.
Qed.

Lemma first_keyword_loop_spec fuel s kw from :
  kw ≠ [] → 0 <= from <= len s → (length s - Z.to_nat from < fuel)%nat →
  (∀ j, occurs_at s kw j → j < from → at_boundary s j (j + len kw) = Some false) →
  ∃ i, first_keyword_loop fuel s kw from = Some i ∧
    (i = -1 ∨ occurs_at s kw i ∧ at_boundary s i (i + len kw) = Some true) ∧
    (∀ j, occurs_at s kw j → i = -1 ∨ j < i → at_boundary s j (j + len kw) = Some false).
Proof.
  intros Hkw. pose proof (len_pos kw Hkw) as Hpos. revert from.
  induction fuel as [|fuel IH]; intros from Hfrom Hfuel Hrej; [lia|].
  cbn [Keywords.first_keyword_loop]. rewrite go_slice_Some by lia. cbn [mbind option_bind].
  set (rest := slice s from (len s)). destruct (str_index rest kw <? 0) eqn:E.
  { exists (-1). split_and!; [done|by left|]. intros j Hj _. destruct (decide (j < from)); [auto|].
    exfalso. eapply (index_none rest kw ltac:(lia) (j - from)). by apply occurs_at_drop; [lia..|]. }
  destruct (index_occurs rest kw ltac:(lia)) as [Hocc Hmin].
  set (idx := str_index rest kw + from).
  replace (str_index rest kw) with (idx - from) in Hocc, Hmin by lia.
  apply occurs_at_drop in Hocc; [|lia..]. destruct (occurs_at_slice _ _ _ Hocc) as [Hend _].
  destruct (at_boundary_total s idx (idx + len kw)) as [ok Hok]; [lia..|].
  rewrite Hok. cbn [mbind option_bind].
  assert (∀ j, occurs_at s kw j → j < idx → at_boundary s j (j + len kw) = Some false) as Hbefore.
  { intros j Hj Hlt. destruct (decide (j < from)) as [|Hn]; [auto|exfalso].
    assert (idx - from <= j - from); [|lia]. apply Hmin, occurs_at_drop; (done || lia). }
  destruct ok.
  { exists idx. split_and!; [done|by right|]. intros j Hj [?|?]; [lia|auto]. }
  apply IH; [lia|unfold len in *; lia|]. intros j Hj Hlt.
  destruct (decide (j = idx)) as [->|]; [done|apply Hbefore; [done|lia]].
Qed.

(** The first occurrence at a word boundary. *)
Lemma first_keyword_spec s kw :
  kw ≠ [] →
  ∃ i, first_keyword s kw = Some i ∧
    (i = -1 ∨ occurs_at s kw i ∧ at_boundary s i (i + len kw) = Some true) ∧
    (∀ j, occurs_at s kw j → i = -1 ∨ j < i → at_boundary s j (j + len kw) = Some false).
Proof.
  intros Hkw. apply first_keyword_loop_spec; [done| |lia|].
  - pose proof (len_nonneg s). lia.
  - intros j [? _]. lia.
Qed.
End SearchFacts.
