(* ===== verification/Regexp.v ===== *)
(** * Package [regexp]: matching

    The syntax the program's patterns use and leftmost-first matching, as the
    documentation of package [regexp] defines it: alternatives are tried in order,
    repetitions are greedy, and the first way to match wins. Patterns run over the
    decoded runes of the text, an invalid byte being U+FFFD. *)

From S2P Require Import Prelude GoText.

(** ** Syntax *)

Inductive item :=
| Range (lo hi : Z)
| Letter
| Number
| Outside (rs : list (Z * Z)).

(** A character class; a literal is a class of one rune. [cl_fold] is [(?i)]. *)
Record class := Class { cl_neg : bool; cl_fold : bool; cl_items : list item }.

(** [Bot], [Eot] and [Wordb] are [^], [$] and [\b]. *)
Inductive re :=
| Chr (c : class)
| Eps
| Bot
| Eot
| Wordb
| Cat (r1 r2 : re)
| Alt (r1 r2 : re)
| Star (r : re)
| Grp (n : nat) (r : re).

Fixpoint groups (r : re) : list nat :=
  match r with
  | Cat r1 r2 | Alt r1 r2 => groups r1 ++ groups r2
  | Star r => groups r
  | Grp n r => n :: groups r
  | _ => []
  end.

(** Groups are numbered from 1; a repetition [x{n}] repeats their numbers. *)
Definition NumSubexp (r : re) : nat := foldr Nat.max O (groups r).

Definition in_ranges (rs : list (Z * Z)) (x : Z) : bool := existsb (λ '(lo, hi), in_rng lo hi x) rs.

(** ** Matching *)

(** A place in the text: its byte offset, the rune before it, what follows. *)
Record cursor := MkCursor { cu_pos : Z; cu_prev : option Z; cu_rest : list chunk }.

(** The bounds of the groups that took part, last assignment first. *)
Abbreviation captures := (list (nat * (Z * Z))).
Abbreviation result := (cursor * captures)%type.

Definition cursor_of (s : bytes) : cursor := MkCursor 0 None (chunks s).

Definition step_over (c : chunk) (cu : cursor) (rest : list chunk) : cursor :=
  MkCursor (cu_pos cu + len (snd c)) (Some (fst c)) rest.

Definition is_word (r : option Z) : bool :=
  match r with
  | Some x => ascii_digit x || ascii_upper x || ascii_lower x || (x =? 0x5F)
  | None => false
  end.

Definition at_word_boundary (cu : cursor) : bool :=
  xorb (is_word (cu_prev cu)) (is_word (fst <$> head (cu_rest cu))).

Section Star.
(** [m] matches the body of the repetition. *)
Context (m : cursor → captures → (cursor → captures → option result) → option result).
Context (k : cursor → captures → option result).

(** Greedy repetition: another non-empty round first, then what follows. *)
Fixpoint star_match (fuel : nat) (cu : cursor) (c : captures) : option result :=
  match fuel with
  | O => k cu c
  | S fuel =>
      match m cu c (λ cu' c', if (length (cu_rest cu') <? length (cu_rest cu))%nat
                              then star_match fuel cu' c' else None) with
      | Some x => Some x
      | None => k cu c
      end
  end.
End Star.

Record found := MkFound { m_start : Z; m_end : Z; m_after : cursor; m_caps : captures }.

Section Match.
Context `{Unicode}.

Definition item_mem (x : Z) (i : item) : bool :=
  match i with
  | Range lo hi => in_rng lo hi x
  | Letter => is_letter x
  | Number => is_number x
  | Outside rs => negb (in_ranges rs x)
  end.

Definition class_mem (c : class) (x : Z) : bool :=
  xorb (cl_neg c)
    (existsb (λ y, existsb (item_mem y) (cl_items c)) (if cl_fold c then fold_orbit x else [x])).

Fixpoint re_match (r : re) (cu : cursor) (c : captures)
    (k : cursor → captures → option result) {struct r} : option result :=
  match r with
  | Chr cl => match cu_rest cu with
              | x :: rest => if class_mem cl (fst x) then k (step_over x cu rest) c else None
              | [] => None
              end
  | Eps => k cu c
  | Bot => match cu_prev cu with None => k cu c | _ => None end
  | Eot => match cu_rest cu with [] => k cu c | _ => None end
  | Wordb => if at_word_boundary cu then k cu c else None
  | Cat r1 r2 => re_match r1 cu c (λ cu' c', re_match r2 cu' c' k)
  | Alt r1 r2 => match re_match r1 cu c k with Some x => Some x | None => re_match r2 cu c k end
  | Star r => star_match (re_match r) k (length (cu_rest cu)) cu c
  | Grp n r => re_match r cu c (λ cu' c', k cu' ((n, (cu_pos cu, cu_pos cu')) :: c'))
  end.

Definition match_at (r : re) (cu : cursor) : option result :=
  re_match r cu [] (λ cu' c, Some (cu', c)).

(** The leftmost match from a place on. *)
Fixpoint find_from (r : re) (pos : Z) (prev : option Z) (rest : list chunk) : option found :=
  match match_at r (MkCursor pos prev rest) with
  | Some (cu', c) => Some (MkFound pos (cu_pos cu') cu' c)
  | None =>
      match rest with
      | [] => None
      | x :: rest => find_from r (pos + len (snd x)) (Some (fst x)) rest
      end
  end.

Definition find_at (r : re) (cu : cursor) : option found :=
  find_from r (cu_pos cu) (cu_prev cu) (cu_rest cu).

(** The loop of [FindAll]: after an empty match it moves one rune on; an empty
    match at the end of the previous match does not count. *)
Fixpoint find_all (fuel : nat) (r : re) (cu : cursor) (prev_end : Z) : list found :=
  match fuel with
  | O => []
  | S fuel =>
      match find_at r cu with
      | None => []
      | Some m =>
          if m_end m =? cu_pos cu then
            let rest :=
              match cu_rest cu with
              | [] => []
              | x :: rest => find_all fuel r (step_over x cu rest) (m_end m)
              end in
            if m_start m =? prev_end then rest else m :: rest
          else m :: find_all fuel r (m_after m) (m_end m)
      end
  end.

(** [re.FindAllStringIndex(s, -1)], [re.FindAllStringSubmatchIndex(s, -1)] *)
Definition FindAll (r : re) (s : bytes) : list found :=
  find_all (S (length (chunks s))) r (cursor_of s) (-1).

(** [re.FindStringSubmatchIndex(s)], [re.FindStringIndex(s)] *)
Definition Find (r : re) (s : bytes) : option found := find_at r (cursor_of s).

Definition MatchString (r : re) (s : bytes) : bool := bool_decide (is_Some (Find r s)).
End Match.

(** [sub[2*n]] and [sub[2*n+1]]; [None] is -1. *)
Fixpoint group (n : nat) (c : captures) : option (Z * Z) :=
  match c with
  | [] => None
  | (i, ab) :: c => if decide (i = n) then Some ab else group n c
  end.

(** [m[n]] of [FindStringSubmatch(s)]: the empty string for a group that took no
    part in the match. *)
Definition submatch (s : bytes) (m : found) (n : nat) : bytes :=
  match group n (m_caps m) with Some (a, b) => slice s a b | None => [] end.

Lemma group_in n caps ab : group n caps = Some ab → (n, ab) ∈ caps.
Proof.
  induction caps as [|[i x] caps IH]; cbn [group]; [done|].
  case_decide as Hi; [intros [= ->]; subst; left|]. right. auto.
Qed.

Arguments Find : simpl never.
Arguments FindAll : simpl never.
Arguments MatchString : simpl never.

(** ** What a match consumes *)

(** The class has only runes of the ranges [rs]. Folding adds no rune below [A]. *)
Definition class_within (rs : list (Z * Z)) (c : class) : bool :=
  negb (cl_neg c) &&
  forallb (λ i, match i with
                | Range lo hi =>
                    existsb (λ '(a, b), (a <=? lo) && (hi <=? b)) rs &&
                    (negb (cl_fold c) || (0 <=? lo) && (hi <=? 0x40))
                | _ => false
                end) (cl_items c).

(** Every match of [r] consumes a rune of the ranges. *)
Fixpoint must (rs : list (Z * Z)) (r : re) : bool :=
  match r with
  | Chr c => class_within rs c
  | Cat r1 r2 => must rs r1 || must rs r2
  | Alt r1 r2 => must rs r1 && must rs r2
  | Grp _ r => must rs r
  | _ => false
  end.

(** So does every match of every group. *)
Fixpoint groups_must (rs : list (Z * Z)) (r : re) : bool :=
  match r with
  | Cat r1 r2 | Alt r1 r2 => groups_must rs r1 && groups_must rs r2
  | Star r => groups_must rs r
  | Grp _ r => must rs r && groups_must rs r
  | _ => true
  end.

(** No group inside a repetition or another group. *)
Fixpoint flat_groups (r : re) : bool :=
  match r with
  | Cat r1 r2 | Alt r1 r2 => flat_groups r1 && flat_groups r2
  | Star r | Grp _ r => bool_decide (groups r = [])
  | _ => true
  end.

(** The groups come one after the other, numbered from left to right. *)
Definition ordered_groups (r : re) : bool :=
  flat_groups r && bool_decide (StronglySorted lt (groups r)).

(** A rune of the ranges among the runes matched. *)
Definition touches (rs : list (Z * Z)) (u : list chunk) : Prop :=
  ∃ c, c ∈ u ∧ in_ranges rs (fst c) = true.

Lemma touches_app rs u v : touches rs (u ++ v) ↔ touches rs u ∨ touches rs v.
Proof.
  unfold touches. split.
  - intros (c & [?|?]%elem_of_app & ?); eauto.
  - intros [(c & ? & ?)|(c & ? & ?)]; exists c; rewrite elem_of_app; tauto.
Qed.

Lemma touches_mid rs u v w : touches rs v → touches rs (u ++ v ++ w).
Proof. rewrite !touches_app. tauto. Qed.

(** *** Languages

    The language of a pattern, assertions and groups left out: what a match consumes
    is a word of it. *)

Section Language.
Context `{Unicode}.

Inductive lang : re → list chunk → Prop :=
| lang_chr c x : class_mem c (fst x) = true → lang (Chr c) [x]
| lang_eps : lang Eps []
| lang_bot : lang Bot []
| lang_eot : lang Eot []
| lang_wordb : lang Wordb []
| lang_cat r1 r2 u v : lang r1 u → lang r2 v → lang (Cat r1 r2) (u ++ v)
| lang_left r1 r2 u : lang r1 u → lang (Alt r1 r2) u
| lang_right r1 r2 u : lang r2 u → lang (Alt r1 r2) u
| lang_none r : lang (Star r) []
| lang_more r u v : lang r u → lang (Star r) v → lang (Star r) (u ++ v)
| lang_grp n r u : lang r u → lang (Grp n r) u.

(** Every word of the language has a rune. *)
Fixpoint consumes (r : re) : bool :=
  match r with
  | Chr _ => true
  | Cat r1 r2 => consumes r1 || consumes r2
  | Alt r1 r2 => consumes r1 && consumes r2
  | Grp _ r => consumes r
  | _ => false
  end.

Lemma consumes_sound r u : lang r u → consumes r = true → u ≠ [].
Proof.
  induction 1 as [| | | | |r1 r2 u v _ IH1 _ IH2| | | | |]; cbn [consumes];
    rewrite ?andb_true_iff, ?orb_true_iff; try done; try tauto.
  intros Hc [-> ->]%app_nil. tauto.
Qed.

Definition space_ranges : list (Z * Z) :=
  [(9, 13); (0x20, 0x20); (0x85, 0x85); (0xA0, 0xA0); (0x1680, 0x1680); (0x2000, 0x200A); (0x2028, 0x2029);
   (0x202F, 0x202F); (0x205F, 0x205F); (0x3000, 0x3000)].

(** No white space in the class. *)
Definition spaceless (c : class) : bool :=
  negb (cl_neg c) &&
  forallb (λ i, match i with
                | Range lo hi => forallb (λ '(a, b), (hi <? a) || (b <? lo)) space_ranges
                | _ => false
                end) (cl_items c).

(** A word of the language is empty or ends in a rune that is no white space. *)
Fixpoint ends_solid (r : re) : bool :=
  match r with
  | Chr c => spaceless c
  | Cat r1 r2 => ends_solid r2 && (consumes r2 || ends_solid r1)
  | Alt r1 r2 => ends_solid r1 && ends_solid r2
  | Star r | Grp _ r => ends_solid r
  | _ => true
  end.

Lemma space_ranged x : is_space x = true → in_ranges space_ranges x = true.
Proof. unfold is_space, in_ranges, space_ranges. cbn [existsb]. unfold in_rng. lia. Qed.

Definition solid (u : list chunk) : Prop := ∀ c, last u = Some c → is_space (fst c) = false.

Lemma spaceless_sound c x : spaceless c = true → class_mem c x = true → is_space x = false.
Proof.
  unfold spaceless, class_mem. destruct (cl_neg c); [done|]. cbn [negb andb]. rewrite xorb_false_l.
  intros Hw Hx. destruct (is_space x) eqn:Es; [exfalso|done].
  apply existsb_exists in Hx as (y & Hy & Hm). apply existsb_exists in Hm as (i & Hi & Hm).
  rewrite forallb_forall in Hw. specialize (Hw _ Hi). destruct i as [lo hi| | |]; [|done..].
  assert (y = x) as ->.
  { destruct (cl_fold c); [|by destruct Hy as [->|[]]]. apply fold_space; [done|by apply list_elem_of_In]. }
  apply space_ranged, existsb_exists in Es as ([a b] & Hab & Hs). rewrite forallb_forall in Hw.
  specialize (Hw _ Hab). cbn [item_mem] in Hm. unfold in_rng in *. lia.
Qed.

Lemma solid_app u v : solid v → (v = [] → solid u) → solid (u ++ v).
Proof.
  intros Hv Hu c. destruct v as [|y v]; [rewrite app_nil_r; by apply Hu|]. rewrite last_app_cons. apply Hv.
Qed.

Lemma ends_solid_sound r u : lang r u → ends_solid r = true → solid u.
Proof.
  induction 1 as [c x Hx| | | | |r1 r2 u v _ IH1 Hv IH2| | | |r u v _ IH1 _ IH2|]; cbn [ends_solid];
    rewrite ?andb_true_iff, ?orb_true_iff; try (by intros _ c0); try tauto.
  - intros Hc y [= <-]. by eapply spaceless_sound.
  - intros [Hr2 Hc]. apply solid_app; [auto|]. intros ->. destruct Hc as [Hc|Hc]; [|auto].
    by apply (consumes_sound _ _ Hv) in Hc.
  - intros Hr. apply solid_app; auto.
Qed.
End Language.

Section MatchFacts.
Context `{Unicode}.

Lemma class_within_sound rs c x : class_within rs c = true → class_mem c x = true → in_ranges rs x = true.
Proof.
  unfold class_within, class_mem, in_ranges. destruct (cl_neg c); [done|]. cbn [negb andb].
  rewrite xorb_false_l. intros Hw Hx. apply existsb_exists in Hx as (y & Hy & Hm).
  apply existsb_exists in Hm as (i & Hi & Hm). rewrite forallb_forall in Hw. specialize (Hw _ Hi).
  destruct i as [lo hi| | |]; [|done..]. apply andb_true_iff in Hw as [Hw Hf].
  assert (y = x) as ->.
  { destruct (cl_fold c); cbn [negb orb] in Hf; [|by destruct Hy as [->|[]]].
    apply (fold_caseless x y); [by apply list_elem_of_In| |];
      unfold item_mem, ascii_upper, ascii_lower, in_rng in *; lia. }
  apply existsb_exists in Hw as ([a b] & Hab & Hr). apply existsb_exists. exists (a, b).
  split; [done|]. unfold item_mem, in_rng in *. lia.
Qed.

(** From [cu] to [cu'] a match consumes the runes [u]. *)
Definition moves (cu : cursor) (u : list chunk) (cu' : cursor) : Prop :=
  cu_rest cu = u ++ cu_rest cu' ∧ cu_pos cu' = cu_pos cu + len (raw u).

Lemma raw_app u v : raw (u ++ v) = raw u ++ raw v.
Proof. unfold raw. by rewrite map_app, concat_app. Qed.

Lemma moves_refl cu : moves cu [] cu.
Proof. split; [done|]. change (raw []) with (@nil byte). rewrite len_nil. lia. Qed.

Lemma moves_trans cu u cu1 v cu2 : moves cu u cu1 → moves cu1 v cu2 → moves cu (u ++ v) cu2.
Proof.
  intros [Hr Hp] [Hr' Hp']. split; [by rewrite Hr, Hr', app_assoc|]. rewrite Hp', Hp, raw_app, len_app. lia.
Qed.

Lemma moves_step cu x rest : cu_rest cu = x :: rest → moves cu [x] (step_over x cu rest).
Proof. intros Hr. split; [done|]. unfold raw. cbn. by rewrite app_nil_r. Qed.

(** A group recorded between two places: its bounds are those of runes [g], and it
    consumed a rune of the ranges if every group must. *)
Definition group_at (rs : list (Z * Z)) (r : re) (cu : cursor) (u : list chunk) (nab : nat * (Z * Z)) : Prop :=
  fst nab ∈ groups r ∧ ∃ u1 g u2, u = u1 ++ g ++ u2 ∧
    fst (snd nab) = cu_pos cu + len (raw u1) ∧ snd (snd nab) = fst (snd nab) + len (raw g) ∧
    (groups_must rs r = true → touches rs g).

(** The later group first. *)
Definition after_group (a b : nat * (Z * Z)) : Prop := (fst b < fst a)%nat ∧ snd (snd b) <= fst (snd a).

Record consumed (rs : list (Z * Z)) (r : re) (cu : cursor) (u : list chunk) (new : captures) : Prop := {
  co_must : must rs r = true → touches rs u;
  co_groups : Forall (group_at rs r cu u) new;
  co_order : ordered_groups r = true → StronglySorted after_group new;
  co_lang : lang r u
}.

Lemma group_at_weaken rs (r r' : re) cu u0 cu' u u1 nab :
  group_at rs r cu' u nab → moves cu u0 cu' →
  (∀ n, n ∈ groups r → n ∈ groups r') → (groups_must rs r' = true → groups_must rs r = true) →
  group_at rs r' cu (u0 ++ u ++ u1) nab.
Proof.
  intros (Hn & v1 & g & v2 & -> & Ha & Hb & Hm) [_ Hp] Hi Hg. split; [auto|].
  exists (u0 ++ v1), g, (v2 ++ u1). split_and!; [by rewrite <- !app_assoc| |done|auto].
  rewrite Ha, Hp, raw_app, len_app. lia.
Qed.

Lemma group_at_bounds rs r cu u nab :
  group_at rs r cu u nab →
  cu_pos cu <= fst (snd nab) ∧ fst (snd nab) <= snd (snd nab) ∧ snd (snd nab) <= cu_pos cu + len (raw u).
Proof.
  intros (_ & u1 & g & u2 & -> & Ha & Hb & _). rewrite !raw_app, !len_app.
  pose proof (len_nonneg (raw u1)). pose proof (len_nonneg (raw g)). pose proof (len_nonneg (raw u2)). lia.
Qed.

Lemma consumed_nil rs r cu u : (must rs r = true → touches rs u) → lang r u → consumed rs r cu u [].
Proof. split; [done|constructor|intros; constructor|done]. Qed.

Lemma ordered_app r1 r2 :
  flat_groups r1 && flat_groups r2 = true → StronglySorted lt (groups r1 ++ groups r2) →
  ordered_groups r1 = true ∧ ordered_groups r2 = true ∧
  (∀ n m, n ∈ groups r1 → m ∈ groups r2 → (n < m)%nat).
Proof.
  intros [Hf1 Hf2]%andb_true_iff Hs. unfold ordered_groups. rewrite Hf1, Hf2. cbn [andb].
  rewrite !bool_decide_eq_true. split_and!.
  - by eapply StronglySorted_app_1_l.
  - by eapply StronglySorted_app_1_r.
  - intros. by eapply StronglySorted_app_1_elem_of.
Qed.

Lemma consumed_cat rs r1 r2 cu u1 new1 cu1 u2 new2 :
  consumed rs r1 cu u1 new1 → moves cu u1 cu1 → consumed rs r2 cu1 u2 new2 →
  consumed rs (Cat r1 r2) cu (u1 ++ u2) (new2 ++ new1).
Proof.
  intros [Hm1 Hg1 Ho1 Hl1] Hmv [Hm2 Hg2 Ho2 Hl2]. split; [| | |by constructor].
  - cbn [must]. rewrite touches_app, orb_true_iff. tauto.
  - apply Forall_app. split.
    + eapply Forall_impl; [exact Hg2|]. intros nab Hn.
      rewrite <- (app_nil_r u2). eapply group_at_weaken; [exact Hn|exact Hmv| |].
      * cbn [groups]. intros n. rewrite elem_of_app. tauto.
      * cbn [groups_must]. rewrite andb_true_iff. tauto.
    + eapply Forall_impl; [exact Hg1|]. intros nab Hn.
      apply (group_at_weaken rs r1 _ cu [] cu u1 u2 nab Hn); [apply moves_refl| |].
      * cbn [groups]. intros n. rewrite elem_of_app. tauto.
      * cbn [groups_must]. rewrite andb_true_iff. tauto.
  - unfold ordered_groups at 1. cbn [flat_groups groups]. rewrite andb_true_iff, bool_decide_eq_true.
    intros [Hf Hs]. destruct (ordered_app _ _ Hf Hs) as (H1 & H2 & Hlt).
    apply StronglySorted_app_2; [|by apply Ho2|by apply Ho1].
    intros a b Ha Hb. rewrite Forall_forall in Hg1, Hg2.
    specialize (Hg1 _ Hb). specialize (Hg2 _ Ha). split.
    + apply Hlt; [apply Hg1|apply Hg2].
    + apply group_at_bounds in Hg1, Hg2. destruct Hmv as [_ Hp]. lia.
Qed.

Lemma consumed_sub rs r r' cu u new :
  consumed rs r cu u new →
  (must rs r' = true → must rs r = true) → (∀ n, n ∈ groups r → n ∈ groups r') →
  (groups_must rs r' = true → groups_must rs r = true) → (ordered_groups r' = true → ordered_groups r = true) →
  (lang r u → lang r' u) → consumed rs r' cu u new.
Proof.
  intros [Hm Hg Ho Hl] ?????. split; [auto| |auto|auto]. eapply Forall_impl; [exact Hg|].
  intros nab Hn. rewrite <- (app_nil_r u). apply (group_at_weaken rs r _ cu [] cu u []); auto using moves_refl.
Qed.

(** Without groups there is nothing to record. *)
Lemma consumed_no_groups rs r cu u new : consumed rs r cu u new → groups r = [] → new = [].
Proof.
  intros [_ Hg _ _] Hn. destruct new as [|nab new]; [done|]. apply Forall_inv in Hg as [Hin _].
  rewrite Hn in Hin. by apply elem_of_nil in Hin.
Qed.

(** What [r] matches before it calls [k]. *)
Definition splits (r : re) (cu : cursor) (c : captures) (k : cursor → captures → option result)
    (x : result) : Prop :=
  ∃ u cu' new, moves cu u cu' ∧ k cu' (new ++ c) = Some x ∧ ∀ rs, consumed rs r cu u new.

Lemma star_match_splits r k fuel cu c x :
  (∀ cu c k x, re_match r cu c k = Some x → splits r cu c k x) →
  star_match (re_match r) k fuel cu c = Some x → splits (Star r) cu c k x.
Proof.
  intros Hr. revert cu c.
  assert (∀ cu c, k cu c = Some x → splits (Star r) cu c k x) as Hnil.
  { intros cu c Hk. exists [], cu, []. split_and!; [apply moves_refl|done|].
    intros rs. apply consumed_nil; [done|constructor]. }
  induction fuel as [|fuel IH]; intros cu c; cbn [star_match]; [apply Hnil|].
  destruct (re_match r cu c _) as [y|] eqn:E; [|apply Hnil].
  intros [= ->]. apply Hr in E as (u & cu1 & new & Hm & E & Hc). case_match; [|done].
  apply IH in E as (u' & cu2 & new' & Hm' & Hk & Hc').
  exists (u ++ u'), cu2, (new' ++ new). split_and!; [by eapply moves_trans|by rewrite <- app_assoc|].
  intros rs. destruct (consumed_cat rs r (Star r) cu u new cu1 u' new' (Hc rs) Hm (Hc' rs)) as [_ Hg Ho _].
  split; [done| | |by apply lang_more; [apply (co_lang _ _ _ _ _ (Hc rs))|apply (co_lang _ _ _ _ _ (Hc' rs))]].
  - eapply Forall_impl; [exact Hg|]. intros nab Hn. rewrite <- (app_nil_r (u ++ u')).
    apply (group_at_weaken rs (Cat r (Star r)) _ cu [] cu (u ++ u') [] nab Hn); [apply moves_refl| |].
    + cbn [groups]. intros n. rewrite elem_of_app. tauto.
    + cbn [groups_must]. rewrite andb_true_iff. tauto.
  - unfold ordered_groups. cbn [flat_groups groups]. rewrite andb_true_iff, bool_decide_eq_true.
    intros [Hn _]. rewrite (consumed_no_groups rs r cu u new (Hc rs) Hn), app_nil_r.
    apply (co_order _ _ _ _ _ (Hc' rs)). unfold ordered_groups. cbn [flat_groups groups].
    rewrite Hn. by rewrite !bool_decide_eq_true_2 by (done || constructor).
Qed.

Lemma re_match_splits r cu c k x : re_match r cu c k = Some x → splits r cu c k x.
Proof.
  revert cu c k x.
  induction r as [cl| | | | |r1 IH1 r2 IH2|r1 IH1 r2 IH2|r IH|n r IH]; intros cu c k x; cbn [re_match].
  - destruct (cu_rest cu) as [|y rest] eqn:E; [done|]. destruct (class_mem cl (fst y)) eqn:Ey; [|done].
    intros Hk. exists [y], (step_over y cu rest), []. split_and!; [by apply moves_step|done|].
    intros rs. apply consumed_nil; [|by constructor]. cbn [must]. intros Hw. exists y. split; [left|].
    by eapply class_within_sound.
  - intros Hk. exists [], cu, []. split_and!; [apply moves_refl|done|]. intros; apply consumed_nil; [done|constructor].
  - destruct (cu_prev cu); [done|].
    intros Hk. exists [], cu, []. split_and!; [apply moves_refl|done|]. intros; apply consumed_nil; [done|constructor].
  - destruct (cu_rest cu); [|done].
    intros Hk. exists [], cu, []. split_and!; [apply moves_refl|done|]. intros; apply consumed_nil; [done|constructor].
  - destruct (at_word_boundary cu); [|done].
    intros Hk. exists [], cu, []. split_and!; [apply moves_refl|done|]. intros; apply consumed_nil; [done|constructor].
  - intros (u & cu1 & new & Hm & E & Hc)%IH1. apply IH2 in E as (u' & cu2 & new' & Hm' & Hk & Hc').
    exists (u ++ u'), cu2, (new' ++ new). split_and!; [by eapply moves_trans|by rewrite <- app_assoc|].
    intros rs. by eapply consumed_cat.
  - assert (∀ r', r' = r1 ∨ r' = r2 → splits r' cu c k x → splits (Alt r1 r2) cu c k x) as Hsub.
    { intros r' Hr' (u & cu' & new & Hm & Hk & Hc). exists u, cu', new. split_and!; [done|done|].
      intros rs. apply (consumed_sub rs r'); [apply Hc|..]; cbn [must groups groups_must].
      - rewrite andb_true_iff. destruct Hr' as [->| ->]; tauto.
      - intros i. rewrite elem_of_app. destruct Hr' as [->| ->]; tauto.
      - rewrite andb_true_iff. destruct Hr' as [->| ->]; tauto.
      - unfold ordered_groups at 1. cbn [flat_groups groups]. rewrite andb_true_iff, bool_decide_eq_true.
        intros [Hf Hs]. destruct (ordered_app _ _ Hf Hs) as (? & ? & _). by destruct Hr' as [->| ->].
      - destruct Hr' as [->| ->]; [apply lang_left|apply lang_right]. }
    destruct (re_match r1 cu c k) as [y|] eqn:E.
    + intros [= ->]. apply (Hsub r1); [by left|]. by apply IH1.
    + intros Hk. apply (Hsub r2); [by right|]. by apply IH2.
  - intros Hk. by apply (star_match_splits r k (length (cu_rest cu)) cu c x IH).
  - intros (u & cu' & new & Hm & Hk & Hc)%IH.
    exists u, cu', ((n, (cu_pos cu, cu_pos cu')) :: new). split_and!; [done|done|].
    intros rs. destruct (Hc rs) as [Hmu Hg Ho Hl]. split; [done| | |by constructor].
    + constructor.
      * split; [left|]. exists [], u, []. cbn [fst snd groups_must].
        split_and!; [by rewrite app_nil_r| |apply Hm|rewrite andb_true_iff; tauto].
        change (raw []) with (@nil byte). rewrite len_nil. lia.
      * eapply Forall_impl; [exact Hg|]. intros nab Hn. rewrite <- (app_nil_r u).
        apply (group_at_weaken rs r _ cu [] cu u [] nab Hn); [apply moves_refl| |].
        -- intros i Hi. by right.
        -- cbn [groups_must]. rewrite andb_true_iff. tauto.
    + unfold ordered_groups. cbn [flat_groups]. rewrite andb_true_iff, bool_decide_eq_true.
      intros [Hn _]. rewrite (consumed_no_groups rs r cu u new (Hc rs) Hn). by repeat constructor.
Qed.

(** *** Matches in a text *)

(** The bytes from [a] to [b] are the runes [v] of [s]. *)
Definition at_runes (s : bytes) (a b : Z) (v : list chunk) : Prop :=
  ∃ u w, chunks s = u ++ v ++ w ∧ a = len (raw u) ∧ b = a + len (raw v).

Lemma at_runes_slice s a b v :
  at_runes s a b v → slice s a b = raw v ∧ 0 <= a ∧ a <= b ∧ b <= len s.
Proof.
  intros (u & w & Hs & -> & ->). pose proof (len_nonneg (raw u)). pose proof (len_nonneg (raw v)).
  pose proof (len_nonneg (raw w)). rewrite <- (raw_chunks s), Hs, !raw_app, !len_app.
  split; [apply slice_app_mid|lia].
Qed.

(** The runes of a part of the text are those of its bytes. *)
Lemma at_runes_chunks s a b v : at_runes s a b v → chunks (slice s a b) = v.
Proof.
  intros Hv. destruct (at_runes_slice _ _ _ _ Hv) as [-> _]. destruct Hv as (u & w & Hs & _).
  by eapply chunks_run.
Qed.

(** A match of [r] in [s]. *)
Record match_in (rs : list (Z * Z)) (r : re) (s : bytes) (m : found) : Prop := {
  mi_runes : ∃ v, at_runes s (m_start m) (m_end m) v ∧ (must rs r = true → touches rs v);
  mi_groups : Forall (λ nab, fst nab ∈ groups r ∧
    m_start m <= fst (snd nab) ∧ snd (snd nab) <= m_end m ∧
    ∃ v, at_runes s (fst (snd nab)) (snd (snd nab)) v ∧ (groups_must rs r = true → touches rs v)) (m_caps m);
  mi_order : ordered_groups r = true → StronglySorted after_group (m_caps m);
  mi_lang : ∃ v, at_runes s (m_start m) (m_end m) v ∧ lang r v
}.

(** A place of the text [s]. *)
Definition cursor_in (s : bytes) (cu : cursor) : Prop :=
  ∃ u, chunks s = u ++ cu_rest cu ∧ cu_pos cu = len (raw u).

Lemma cursor_in_start s : cursor_in s (cursor_of s).
Proof. by exists []. Qed.

Lemma cursor_in_moves s cu u cu' : cursor_in s cu → moves cu u cu' → cursor_in s cu'.
Proof.
  intros (v & Hs & Hp) [Hr Hp']. exists (v ++ u). rewrite raw_app, len_app, <- app_assoc, <- Hr. split; [done|lia].
Qed.

Lemma match_at_in rs r s cu cu' c :
  cursor_in s cu → match_at r cu = Some (cu', c) →
  match_in rs r s (MkFound (cu_pos cu) (cu_pos cu') cu' c) ∧ cursor_in s cu' ∧ cu_pos cu <= cu_pos cu'.
Proof.
  intros Hcu Hm. unfold match_at in Hm. apply re_match_splits in Hm as (u & cu1 & new & Hm & [= -> <-] & Hc).
  pose proof (cursor_in_moves _ _ _ _ Hcu Hm) as Hcu'. destruct (Hc rs) as [Hmu Hg Ho Hl].
  destruct Hcu as (v & Hs & Hp). pose proof Hm as [Hr Hp']. pose proof (len_nonneg (raw u)).
  split_and!; [|done|lia]. rewrite app_nil_r. split; cbn [m_start m_end m_caps]; [| |done|].
  3: { exists u. split; [|done]. exists v, (cu_rest cu'). by rewrite Hs, Hr. }
  - exists u. split; [|done]. exists v, (cu_rest cu'). by rewrite Hs, Hr.
  - eapply Forall_impl; [exact Hg|]. intros [n [a b]] Hn.
    pose proof (group_at_bounds _ _ _ _ _ Hn) as Hb.
    destruct Hn as (Hin & u1 & g & u2 & -> & Ha & Hb' & Hmg). cbn [fst snd] in *.
    split_and!; [done|lia|lia|]. exists g. split; [|done].
    exists (v ++ u1), (u2 ++ cu_rest cu'). rewrite Hs, Hr, raw_app, len_app, <- !app_assoc.
    split_and!; [done|lia|done].
Qed.

Lemma find_from_in rs r s pos prev rest m :
  cursor_in s (MkCursor pos prev rest) → find_from r pos prev rest = Some m →
  match_in rs r s m ∧ cursor_in s (m_after m) ∧ cu_pos (m_after m) = m_end m ∧ pos <= m_start m ∧ m_start m <= m_end m.
Proof.
  revert pos prev. induction rest as [|x rest IH]; intros pos prev Hcu; cbn [find_from];
    (destruct (match_at r _) as [[cu' c]|] eqn:E;
      [intros [= <-]; destruct (match_at_in rs r s _ _ _ Hcu E) as (? & ? & ?); cbn in *; split_and!; (done || lia)|]);
    [done|].
  intros Hf. apply IH in Hf as (? & ? & ? & ? & ?).
  - pose proof (len_nonneg (snd x)). split_and!; [done|done|done|lia|done].
  - eapply cursor_in_moves; [exact Hcu|]. by apply (moves_step (MkCursor pos prev (x :: rest))).
Qed.

Lemma find_at_in rs r s cu m :
  cursor_in s cu → find_at r cu = Some m →
  match_in rs r s m ∧ cursor_in s (m_after m) ∧ cu_pos (m_after m) = m_end m ∧
  cu_pos cu <= m_start m ∧ m_start m <= m_end m.
Proof. intros Hcu. destruct cu as [pos prev rest]. by apply find_from_in. Qed.

Lemma find_all_in rs r s fuel cu prev_end :
  cursor_in s cu → Forall (λ m, match_in rs r s m ∧ cu_pos cu <= m_start m) (find_all fuel r cu prev_end) ∧
  StronglySorted (λ m m', m_end m <= m_start m') (find_all fuel r cu prev_end).
Proof.
  revert cu prev_end. induction fuel as [|fuel IH]; intros cu prev_end Hcu; cbn [find_all].
  { split; constructor. }
  destruct (find_at r cu) as [m|] eqn:E; [|split; constructor].
  destruct (find_at_in rs r s cu m Hcu E) as (Hm & Ha & Hp & Hle & Hle').
  destruct (m_end m =? cu_pos cu) eqn:Ee.
  - assert (Forall (λ m', match_in rs r s m' ∧ cu_pos cu <= m_start m')
        match cu_rest cu with [] => [] | x :: rest => find_all fuel r (step_over x cu rest) (m_end m) end ∧
      StronglySorted (λ m m', m_end m <= m_start m')
        match cu_rest cu with [] => [] | x :: rest => find_all fuel r (step_over x cu rest) (m_end m) end) as [Hf Hs].
    { destruct (cu_rest cu) as [|x rest] eqn:Er; [split; constructor|].
      destruct (IH (step_over x cu rest) (m_end m)) as [Hf Hs].
      - eapply cursor_in_moves; [exact Hcu|]. by apply moves_step.
      - split; [|done]. eapply Forall_impl; [exact Hf|]. intros m' [? Hl]. cbn in Hl.
        pose proof (len_nonneg (snd x)). split; [done|lia]. }
    destruct (m_start m =? prev_end); [done|]. split; constructor; auto.
    eapply Forall_impl; [exact Hf|]. intros m' [_ ?]. lia.
  - destruct (IH (m_after m) (m_end m) Ha) as [Hf Hs]. split; constructor; auto.
    + eapply Forall_impl; [exact Hf|]. intros m' [? ?]. split; [done|lia].
    + eapply Forall_impl; [exact Hf|]. intros m' [_ ?]. lia.
Qed.

(** The matches of [FindAll] lie in the text, one after the other. *)
Lemma FindAll_in rs r s :
  Forall (match_in rs r s) (FindAll r s) ∧ StronglySorted (λ m m', m_end m <= m_start m') (FindAll r s).
Proof.
  unfold FindAll. destruct (find_all_in rs r s (S (length (chunks s))) (cursor_of s) (-1)) as [Hf Hs].
  { apply cursor_in_start. }
  split; [|done]. eapply Forall_impl; [exact Hf|]. by intros m [? _].
Qed.

Lemma Find_in rs r s m : Find r s = Some m → match_in rs r s m.
Proof. intros Hf. apply (find_at_in rs r s (cursor_of s) m); [apply cursor_in_start|done]. Qed.

Lemma match_in_bounds rs r s m : match_in rs r s m → 0 <= m_start m ∧ m_start m <= m_end m ∧ m_end m <= len s.
Proof. intros [(v & Hv & _) _ _ _]. by destruct (at_runes_slice _ _ _ _ Hv) as [_ ?]. Qed.

Lemma Find_bounds r s m : Find r s = Some m → 0 <= m_start m ∧ m_start m <= m_end m ∧ m_end m <= len s.
Proof. intros Hm. exact (match_in_bounds [] r s m (Find_in _ _ _ _ Hm)). Qed.

(** A match of a pattern that must consume a rune of some ranges holds one. *)
Lemma match_in_must rs r s m :
  must rs r = true → match_in rs r s m →
  ∃ x, x ∈ runes (slice s (m_start m) (m_end m)) ∧ in_ranges rs x = true.
Proof.
  intros Hr [(v & Hv & Ht) _ _ _]. destruct (Ht Hr) as (c & Hc & Hin). exists (fst c). split; [|done].
  unfold runes. rewrite (at_runes_chunks _ _ _ _ Hv). by apply list_elem_of_fmap_2.
Qed.

(** A match of a pattern that cannot be empty is not. *)
Lemma match_in_nonempty rs r s m : consumes r = true → match_in rs r s m → m_start m < m_end m.
Proof.
  intros Hr Hm. pose proof (match_in_bounds rs r s m Hm) as (? & ? & ?). destruct (mi_lang _ _ _ _ Hm) as (v & Hv & Hl).
  pose proof (consumes_sound _ _ Hl Hr) as Hne. destruct (decide (m_start m = m_end m)) as [He|]; [exfalso|lia].
  apply Hne. rewrite <- (at_runes_chunks _ _ _ _ Hv), He, slice_empty. reflexivity.
Qed.

(** A pattern that must consume a rune of some ranges fails on a text without one. *)
Lemma Find_must rs r s :
  must rs r = true → forallb (λ x, negb (in_ranges rs x)) (runes s) = true → Find r s = None.
Proof.
  intros Hr Hs. destruct (Find r s) as [m|] eqn:E; [|done]. apply (Find_in rs) in E as [(v & Hv & Ht) _ _ _].
  destruct (Ht Hr) as (c & Hc & Hin). destruct Hv as (u & w & Hch & _). rewrite forallb_forall in Hs.
  assert (fst c ∈ runes s) as Hx.
  { unfold runes. rewrite Hch. apply list_elem_of_fmap_2. rewrite !elem_of_app. tauto. }
  apply list_elem_of_In, Hs in Hx. by rewrite Hin in Hx.
Qed.

Lemma find_from_moves r pos prev rest m :
  find_from r pos prev rest = Some m → ∃ u, rest = u ++ cu_rest (m_after m) ∧ m_end m = pos + len (raw u).
Proof.
  revert pos prev. induction rest as [|x rest IH]; intros pos prev; cbn [find_from];
    (destruct (match_at r _) as [[cu' c]|] eqn:E;
      [intros [= <-]; apply re_match_splits in E as (u & cu1 & new & [Hr Hp] & [= -> _] & _); by exists u|]);
    [done|].
  intros (u & -> & ->)%IH. exists (x :: u). split; [done|]. change (x :: u) with ([x] ++ u).
  rewrite raw_app, len_app. unfold raw at 2. cbn. rewrite app_nil_r. lia.
Qed.

(** The fuel of [FindAll] is enough: more changes nothing. *)
Lemma find_all_fuel r fuel fuel' cu prev_end :
  (length (cu_rest cu) < fuel)%nat → (length (cu_rest cu) < fuel')%nat →
  find_all fuel r cu prev_end = find_all fuel' r cu prev_end.
Proof.
  revert fuel' cu prev_end. induction fuel as [|fuel IH]; intros [|fuel'] cu prev_end Hf Hf'; [lia..|].
  cbn [find_all]. destruct (find_at r cu) as [m|] eqn:E; [|done].
  destruct (m_end m =? cu_pos cu) eqn:Ee.
  - destruct (cu_rest cu) as [|x rest] eqn:Er; [done|]. cbn [length] in *.
    by rewrite (IH fuel' (step_over x cu rest)) by (cbn; lia).
  - apply find_from_moves in E as ([|x u] & Hr & Hp).
    { change (raw []) with (@nil byte) in Hp. rewrite len_nil in Hp. lia. }
    apply (f_equal length) in Hr. rewrite length_app in Hr. cbn [length] in Hr.
    f_equal. apply IH; lia.
Qed.
End MatchFacts.

(** ** Groups that always take part *)

(** Every match of [r] records group [n]. *)
Fixpoint sets (n : nat) (r : re) : bool :=
  match r with
  | Cat r1 r2 => sets n r1 || sets n r2
  | Alt r1 r2 => sets n r1 && sets n r2
  | Grp m r => (m =? n)%nat || sets n r
  | _ => false
  end.

Section Sets.
Context `{Unicode}.

Definition recorded (n : nat) (c : captures) : Prop := ∃ ab, (n, ab) ∈ c.

Lemma recorded_group n c : recorded n c → is_Some (group n c).
Proof.
  intros [ab Hin]. induction c as [|[i xy] c IH]; [by apply elem_of_nil in Hin|]. cbn [group].
  destruct (decide (i = n)); [by eexists|]. apply elem_of_cons in Hin as [Heq|Hin]; [congruence|auto].
Qed.

Lemma re_match_sets n r cu c k x :
  re_match r cu c k = Some x →
  ∃ cu' c', k cu' c' = Some x ∧ (sets n r = true ∨ recorded n c → recorded n c').
Proof.
  revert cu c k x.
  induction r as [cl| | | | |r1 IH1 r2 IH2|r1 IH1 r2 IH2|r IH|m r IH]; intros cu c k x; cbn [re_match sets].
  - destruct (cu_rest cu) as [|y rest]; [done|]. destruct (class_mem cl (fst y)); [|done].
    intros Hk. eexists _, c. split; [exact Hk|]. by intros [?|?].
  - intros Hk. exists cu, c. split; [exact Hk|]. by intros [?|?].
  - destruct (cu_prev cu); [done|]. intros Hk. exists cu, c. split; [exact Hk|]. by intros [?|?].
  - destruct (cu_rest cu); [|done]. intros Hk. exists cu, c. split; [exact Hk|]. by intros [?|?].
  - destruct (at_word_boundary cu); [|done]. intros Hk. exists cu, c. split; [exact Hk|]. by intros [?|?].
  - intros (cu1 & c1 & Hk & H1)%IH1. apply IH2 in Hk as (cu2 & c2 & Hk & H2). exists cu2, c2. split; [done|].
    rewrite orb_true_iff. tauto.
  - destruct (re_match r1 cu c k) as [y|] eqn:E.
    + intros [= ->]. apply IH1 in E as (cu1 & c1 & Hk & H1). exists cu1, c1. split; [done|]. rewrite andb_true_iff. tauto.
    + intros (cu1 & c1 & Hk & H1)%IH2. exists cu1, c1. split; [done|]. rewrite andb_true_iff. tauto.
  - generalize (length (cu_rest cu)). intros fuel. revert cu c.
    induction fuel as [|fuel IHf]; intros cu c; cbn [star_match].
    { intros Hk. exists cu, c. split; [exact Hk|]. by intros [?|?]. }
    destruct (re_match r cu c _) as [y|] eqn:E.
    + intros [= ->]. apply IH in E as (cu1 & c1 & Hk & H1). case_match; [|done].
      apply IHf in Hk as (cu2 & c2 & Hk & H2). exists cu2, c2. split; [done|]. intros [?|?]; [done|]. tauto.
    + intros Hk. exists cu, c. split; [exact Hk|]. by intros [?|?].
  - intros (cu1 & c1 & Hk & H1)%IH. eexists _, _. split; [exact Hk|]. rewrite orb_true_iff.
    intros [[Hm|Hs]|Hc].
    + apply Nat.eqb_eq in Hm as ->. eexists. left.
    + destruct H1 as [ab Hin]; [tauto|]. exists ab. by right.
    + destruct H1 as [ab Hin]; [tauto|]. exists ab. by right.
Qed.

Lemma find_from_sets n r pos prev rest m :
  sets n r = true → find_from r pos prev rest = Some m → is_Some (group n (m_caps m)).
Proof.
  intros Hs. revert pos prev. induction rest as [|x rest IH]; intros pos prev; cbn [find_from];
    (destruct (match_at r _) as [[cu' c]|] eqn:E;
      [intros [= <-]; apply (re_match_sets n) in E as (cu1 & c1 & [= -> ->] & Hc); apply recorded_group, Hc; by left|]);
    [done|]. apply IH.
Qed.

Lemma find_all_sets n r fuel cu prev_end :
  sets n r = true → Forall (λ m, is_Some (group n (m_caps m))) (find_all fuel r cu prev_end).
Proof.
  intros Hs. revert cu prev_end. induction fuel as [|fuel IH]; intros cu prev_end; cbn [find_all]; [constructor|].
  destruct (find_at r cu) as [m|] eqn:E; [|constructor]. apply find_from_sets with (n := n) in E; [|done].
  destruct (m_end m =? cu_pos cu).
  - assert (Forall (λ m, is_Some (group n (m_caps m)))
      match cu_rest cu with [] => [] | x :: rest => find_all fuel r (step_over x cu rest) (m_end m) end) as Hrest
      by (destruct (cu_rest cu); [constructor|apply IH]).
    destruct (m_start m =? prev_end); [done|by constructor].
  - constructor; [done|apply IH].
Qed.

Lemma FindAll_sets n r s : sets n r = true → Forall (λ m, is_Some (group n (m_caps m))) (FindAll r s).
Proof. apply find_all_sets. Qed.

Lemma Find_sets n r s m : sets n r = true → Find r s = Some m → is_Some (group n (m_caps m)).
Proof. apply find_from_sets. Qed.
End Sets.
