(* ===== verification/RegexpSyntax.v ===== *)
(** * Package [regexp]: the pattern language

    [regexp.Compile] for the part of the pattern language that the program's patterns
    use: literals, [\d \s \S \b], punctuation and [\x{hex}] escapes, [\p{L}] and
    [\p{N}], character classes, groups (capturing, named, [(?:...)]), alternatives,
    the greedy repetitions, [^], [$], and [(?i)] in front of a pattern. Patterns
    outside this part are errors here. *)

From S2P Require Import Prelude GoText Regexp.

(** ** Escapes *)

Inductive escaped := ERune (r : Z) | EItems (l : list item) | EWordb.

Definition digit_ranges : list (Z * Z) := [(0x30, 0x39)].
Definition space_ranges : list (Z * Z) := [(9, 10); (12, 13); (32, 32)].
Definition items_of (rs : list (Z * Z)) : list item := map (λ '(lo, hi), Range lo hi) rs.

Definition hex_val (r : Z) : option Z :=
  if in_rng 0x30 0x39 r then Some (r - 0x30)
  else if in_rng 0x41 0x46 r then Some (r - 0x41 + 10)
  else if in_rng 0x61 0x66 r then Some (r - 0x61 + 10)
  else None.

(** The hexadecimal digits up to the closing brace. *)
Fixpoint hex_run (acc : Z) (s : list Z) : option (Z * list Z) :=
  match s with
  | [] => None
  | r :: s =>
      if r =? 0x7D then Some (acc, s)
      else d ← hex_val r; hex_run (16 * acc + d) s
  end.

(** What follows a backslash. *)
Definition escape (s : list Z) : option (escaped * list Z) :=
  match s with
  | 0x64 :: s => Some (EItems (items_of digit_ranges), s)                      (* d *)
  | 0x73 :: s => Some (EItems (items_of space_ranges), s)                      (* s *)
  | 0x53 :: s => Some (EItems [Outside space_ranges], s)                       (* S *)
  | 0x62 :: s => Some (EWordb, s)                                              (* b *)
  | 0x6E :: s => Some (ERune 10, s)                                            (* n *)
  | 0x74 :: s => Some (ERune 9, s)                                             (* t *)
  | 0x78 :: 0x7B :: s => '(r, s) ← hex_run 0 s; Some (ERune r, s)              (* x{ *)
  | 0x70 :: 0x7B :: 0x4C :: 0x7D :: s => Some (EItems [Letter], s)             (* p{L} *)
  | 0x70 :: 0x7B :: 0x4E :: 0x7D :: s => Some (EItems [Number], s)             (* p{N} *)
  | r :: s =>
      if (r <? 0x80) && negb (is_word (Some r)) then Some (ERune r, s) else None
  | [] => None
  end.

(** ** Character classes *)

(** One rune or escape inside brackets. *)
Definition class_char (s : list Z) : option (escaped * list Z) :=
  match s with
  | 0x5C :: s => escape s
  | r :: s => Some (ERune r, s)
  | [] => None
  end.

(** The items up to the closing bracket. *)
Fixpoint class_items (fuel : nat) (s : list Z) : option (list item * list Z) :=
  match fuel, s with
  | O, _ => None
  | S _, 0x5D :: s => Some ([], s)
  | S fuel, _ =>
      '(c, s) ← class_char s;
      match c with
      | EWordb => None
      | EItems l => '(l', s) ← class_items fuel s; Some (l ++ l', s)
      | ERune lo =>
          let single := '(l, s) ← class_items fuel s; Some (Range lo lo :: l, s) in
          match s with
          | 0x2D :: 0x5D :: _ => single
          | 0x2D :: s =>
              '(c, s) ← class_char s;
              match c with
              | ERune hi =>
                  if hi <? lo then None
                  else '(l, s) ← class_items fuel s; Some (Range lo hi :: l, s)
              | _ => None
              end
          | _ => single
          end
      end
  end.

(** ** Repetition *)

Fixpoint repeat_re (n : nat) (r : re) (last : re) : re :=
  match n with O => last | S n => Cat r (repeat_re n r last) end.

(** [x?] nested [n] times: [(x(x(...)?)?)?] *)
Fixpoint optional_re (n : nat) (r : re) : re :=
  match n with O => Eps | S n => Alt (Cat r (optional_re n r)) Eps end.

Fixpoint number (acc : nat) (s : list Z) : nat * list Z :=
  match s with
  | r :: s' => if ascii_digit r then number (10 * acc + Z.to_nat (r - 0x30)) s' else (acc, s)
  | [] => (acc, [])
  end.

(** The repetition operator behind [r], if there is one. *)
Definition quantified (r : re) (s : list Z) : option (re * list Z) :=
  match s with
  | 0x2A :: s => Some (Star r, s)                                              (* * *)
  | 0x2B :: s => Some (Cat r (Star r), s)                                      (* + *)
  | 0x3F :: s => Some (Alt r Eps, s)                                           (* ? *)
  | 0x7B :: s =>                                                               (* { *)
      let '(n, s) := number 0 s in
      match s with
      | 0x7D :: s => Some (repeat_re n r Eps, s)
      | 0x2C :: 0x7D :: s => Some (repeat_re n r (Star r), s)
      | 0x2C :: s =>
          let '(m, s) := number 0 s in
          match s with
          | 0x7D :: s => if (m <? n)%nat then None else Some (repeat_re n r (optional_re (m - n) r), s)
          | _ => None
          end
      | _ => None
      end
  | _ => Some (r, s)
  end.

(** ** Patterns *)

Fixpoint skip_name (s : list Z) : list Z :=
  match s with
  | [] => []
  | r :: s => if r =? 0x3E then s else skip_name s
  end.

Definition concat_re (r1 r2 : re) : re := match r2 with Eps => r1 | _ => Cat r1 r2 end.

(** [n] is the number of the next group. *)
Fixpoint parse_alt (fuel : nat) (fold : bool) (n : nat) (s : list Z) : option (re * nat * list Z) :=
  match fuel with
  | O => None
  | S fuel =>
      '(r, n, s) ← parse_seq fuel fold n s;
      match s with
      | 0x7C :: s => '(r', n, s) ← parse_alt fuel fold n s; Some (Alt r r', n, s)
      | _ => Some (r, n, s)
      end
  end
with parse_seq (fuel : nat) (fold : bool) (n : nat) (s : list Z) : option (re * nat * list Z) :=
  match fuel with
  | O => None
  | S fuel =>
      match s with
      | [] | 0x7C :: _ | 0x29 :: _ => Some (Eps, n, s)
      | _ =>
          '(r, n, s) ← parse_atom fuel fold n s;
          '(r, s) ← quantified r s;
          '(r', n, s) ← parse_seq fuel fold n s;
          Some (concat_re r r', n, s)
      end
  end
with parse_atom (fuel : nat) (fold : bool) (n : nat) (s : list Z) : option (re * nat * list Z) :=
  match fuel with
  | O => None
  | S fuel =>
      let closed (f : re → re) (x : option (re * nat * list Z)) :=
        '(r, n, s) ← x;
        match s with 0x29 :: s => Some (f r, n, s) | _ => None end in
      match s with
      | 0x28 :: 0x3F :: 0x3A :: s => closed id (parse_alt fuel fold n s)                          (* (?: *)
      | 0x28 :: 0x3F :: 0x50 :: 0x3C :: s =>
          closed (Grp n) (parse_alt fuel fold (S n) (skip_name s))                                (* (?P< *)
      | 0x28 :: 0x3F :: _ => None
      | 0x28 :: s => closed (Grp n) (parse_alt fuel fold (S n) s)                                 (* ( *)
      | 0x5B :: 0x5E :: s =>
          '(l, s) ← class_items fuel s; Some (Chr (Class true fold l), n, s)                      (* [^ *)
      | 0x5B :: s => '(l, s) ← class_items fuel s; Some (Chr (Class false fold l), n, s)          (* [ *)
      | 0x5E :: s => Some (Bot, n, s)                                                             (* ^ *)
      | 0x24 :: s => Some (Eot, n, s)                                                             (* $ *)
      | 0x2E :: s => Some (Chr (Class true false [Range 10 10]), n, s)                            (* . *)
      | 0x5C :: s =>
          '(c, s) ← escape s;
          Some (match c with
                | EWordb => Wordb
                | EItems l => Chr (Class false false l)
                | ERune r => Chr (Class false fold [Range r r])
                end, n, s)
      | 0x2A :: _ | 0x2B :: _ | 0x3F :: _ | [] => None
      | r :: s => Some (Chr (Class false fold [Range r r]), n, s)
      end
  end.

(** [(?i)] in front of the pattern. *)
Fixpoint parse_flags (fuel : nat) (fold : bool) (s : list Z) : bool * list Z :=
  match fuel, s with
  | S fuel, 0x28 :: 0x3F :: 0x69 :: 0x29 :: s => parse_flags fuel true s
  | _, _ => (fold, s)
  end.

(** [regexp.Compile]; every call of the parser consumes a rune or returns. *)
Definition Compile (pattern : bytes) : option re :=
  let s := runes pattern in
  let '(fold, s) := parse_flags (length s) false s in
  match parse_alt (3 * length s + 3) fold 1 s with
  | Some (r, _, []) => Some r
  | _ => None
  end.

(** [regexp.MustCompile] of a pattern that compiles. *)
Definition MustCompile (pattern : bytes) : re := default (Chr (Class false false [])) (Compile pattern).

Arguments Compile : simpl never.
Arguments MustCompile : simpl never.

(** ** Names of groups

    [SubexpIndex] looks a name up among the groups of a pattern, which are numbered by
    their opening parentheses. *)

Inductive scan :=
| ScanText            (* outside of what follows *)
| ScanEscape          (* behind a backslash *)
| ScanClass           (* inside brackets *)
| ScanClassEscape
| ScanOpen            (* behind an opening parenthesis *)
| ScanQuestion        (* behind [(?] *)
| ScanP               (* behind [(?P] *)
| ScanName (name : list Z).

(** The names of the groups opened so far; the empty name for a group without one. *)
Abbreviation scan_state := (scan * list (list Z))%type.

Definition scan_text (r : Z) : scan :=
  if r =? 0x5C then ScanEscape else if r =? 0x5B then ScanClass else if r =? 0x28 then ScanOpen else ScanText.

Definition scan_step (st : scan_state) (r : Z) : scan_state :=
  let '(mode, names) := st in
  match mode with
  | ScanText => (scan_text r, names)
  | ScanEscape => (ScanText, names)
  | ScanClass => (if r =? 0x5C then ScanClassEscape else if r =? 0x5D then ScanText else ScanClass, names)
  | ScanClassEscape => (ScanClass, names)
  | ScanOpen => if r =? 0x3F then (ScanQuestion, names) else (scan_text r, names ++ [[]])
  | ScanQuestion => (if r =? 0x50 then ScanP else ScanText, names)
  | ScanP => (if r =? 0x3C then ScanName [] else ScanText, names)
  | ScanName name => if r =? 0x3E then (ScanText, names ++ [name]) else (ScanName (name ++ [r]), names)
  end.

Definition scan_pattern (st : scan_state) (pattern : bytes) : scan_state := foldl scan_step st (runes pattern).

Definition SubexpNames (pattern : bytes) : list (list Z) := snd (scan_pattern (ScanText, []) pattern).

(** The index of the first group with the name; [None] is -1. *)
Definition SubexpIndex (pattern : bytes) (name : bytes) : option nat :=
  '(i, _) ← list_find (λ n, n = runes name) (SubexpNames pattern); Some (S i).

(** [regexp.QuoteMeta] *)
Definition is_meta (b : byte) : bool :=
  bool_decide (b ∈ ["\"; "."; "+"; "*"; "?"; "("; ")"; "|"; "["; "]"; "{"; "}"; "^"; "$"]%byte).

Definition QuoteMeta (s : bytes) : bytes :=
  concat (map (λ b, if is_meta b then ["\"%byte; b] else [b]) s).

Example subexp_names : SubexpIndex "(a(?:b|[(])\()(?P<value>c)" "value" = Some 2%nat.
Proof. by vm_compute. Qed.

Lemma scan_pattern_app st a b : utf8_valid a → scan_pattern st (a ++ b) = scan_pattern (scan_pattern st a) b.
Proof. intros Ha. unfold scan_pattern, runes. by rewrite chunks_app_valid, map_app, foldl_app. Qed.

(** The names found so far do not change how the scan goes on. *)
Lemma scan_step_names mode names r :
  scan_step (mode, names) r = (fst (scan_step (mode, []) r), names ++ snd (scan_step (mode, []) r)).
Proof. unfold scan_step. repeat case_match; by rewrite ?app_nil_r. Qed.

Lemma scan_names mode names rs :
  foldl scan_step (mode, names) rs =
  (fst (foldl scan_step (mode, []) rs), names ++ snd (foldl scan_step (mode, []) rs)).
Proof.
  revert mode names. induction rs as [|r rs IH]; intros mode names; cbn [foldl fst snd]; [by rewrite app_nil_r|].
  rewrite scan_step_names. destruct (scan_step (mode, []) r) as [mode' names'] eqn:E. cbn [fst snd].
  rewrite IH, (IH mode' names'). cbn [fst snd]. by rewrite app_assoc.
Qed.

(** A piece of a pattern that opens no group and leaves none of its brackets open. *)
Definition neutral (s : bytes) : Prop := utf8_valid s ∧ scan_pattern (ScanText, []) s = (ScanText, []).

#[export] Instance scan_eq_dec : EqDecision scan.
Proof. solve_decision. Defined.

#[export] Instance neutral_dec s : Decision (neutral s).
Proof. unfold neutral, utf8_valid, chunk_valid. apply _. Defined.

Lemma neutral_scan s names : neutral s → scan_pattern (ScanText, names) s = (ScanText, names).
Proof.
  intros [_ Hs]. unfold scan_pattern in *. rewrite scan_names, Hs. cbn [fst snd]. by rewrite app_nil_r.
Qed.

Lemma neutral_app a b : neutral a → neutral b → neutral (a ++ b).
Proof.
  intros Ha Hb. split; [apply utf8_valid_app; [apply Ha|apply Hb]|].
  rewrite scan_pattern_app by apply Ha. by rewrite !neutral_scan.
Qed.

Lemma neutral_concat ws : Forall neutral ws → neutral (concat ws).
Proof.
  induction 1 as [|w ws Hw _ IH]; cbn [concat]; [by apply (bool_decide_unpack _)|]. by apply neutral_app.
Qed.

Lemma neutral_join sep ws : neutral sep → Forall neutral ws → neutral (join_words sep ws).
Proof.
  intros Hsep [|w ws' Hw Hws]; cbn [join_words]; [by apply (bool_decide_unpack _)|].
  apply neutral_app; [done|]. apply neutral_concat, Forall_map. eapply Forall_impl; [exact Hws|].
  intros x Hx. by apply neutral_app.
Qed.

(** ** Examples *)

Definition spans_of (l : list found) : list (Z * Z) := map (λ m, (m_start m, m_end m)) l.

Example compile_groups :
  Compile "a(b|c)?" =
  Some (Cat (Chr (Class false false [Range 97 97]))
            (Alt (Grp 1 (Alt (Chr (Class false false [Range 98 98])) (Chr (Class false false [Range 99 99])))) Eps)).
Proof. by vm_compute. Qed.

Example compile_unbalanced : Compile "a(b" = None.
Proof. by vm_compute. Qed.

Example find_digits : spans_of (FindAll (MustCompile "\b\d{2,3}\b") "12 1234 567") = [(0, 2); (8, 11)].
Proof. by vm_compute. Qed.

Example find_empty : spans_of (FindAll (MustCompile "a*") "baac") = [(0, 0); (1, 3); (4, 4)].
Proof. by vm_compute. Qed.

Example find_folded : spans_of (FindAll (MustCompile "(?i)код\s+[а-яё]+") "КОД Слово") = [(0, 17)].
Proof. by vm_compute. Qed.

Example find_leftmost_first :
  option_map m_caps (Find (MustCompile "(a|ab)(c|bcd)(d*)") "abcd") = Some [(3%nat, (4, 4)); (2%nat, (1, 4)); (1%nat, (0, 1))].
Proof. by vm_compute. Qed.
