(* ===== verification/Pipeline.v ===== *)
(** * Package [pii]: the detection pipeline

    Models [internal/pii/pipeline.go]: running the detectors, [Resolve], and the
    rules that reclassify dates by the surrounding text. Code that slices or
    indexes the text returns an [option]; [None] is a run-time panic. *)

From S2P Require Import Prelude GoText Float64 Pii Keywords.

(** ** Windows of text around a position *)

(** The start of the window of the last [n] runes before [start]. *)
Fixpoint window_start (n : nat) (s : bytes) (start : Z) : option Z :=
  match n with
  | O => Some start
  | S n =>
      if start <=? 0 then Some start
      else
        prefix ← go_slice s 0 start;
        window_start n s (start - snd (decode_last_rune prefix))
  end.

(** The end of the window of the first [n] runes from [end_] on. *)
Fixpoint window_end (n : nat) (s : bytes) (end_ : Z) : option Z :=
  match n with
  | O => Some end_
  | S n =>
      if len s <=? end_ then Some end_
      else
        rest ← go_slice s end_ (len s);
        window_end n s (end_ + Z.of_nat (snd (decode_rune rest)))
  end.

Definition isLetterRune (r : Z) : bool :=
  in_rng 0x61 0x7A r || in_rng 0x41 0x5A r || in_rng 0x430 0x44F r || in_rng 0x410 0x42F r ||
  (r =? 0x451) || (r =? 0x401).

(** ** Keywords *)

Definition nonPassportContexts : list bytes :=
  [("в/у" : bytes); ("водительск" : bytes); ("вид на жительство" : bytes); ("внж" : bytes);
   ("доверенность" : bytes); ("справка" : bytes); ("действительн" : bytes); ("билет" : bytes);
   ("полис" : bytes); ("сертификат" : bytes); ("лицензия" : bytes)].

Definition nonPassportWordContexts : list bytes := [("ву" : bytes)].

Definition issueContexts : list bytes :=
  [("выдан" : bytes); ("выдано" : bytes); ("выдали" : bytes); ("выдал" : bytes);
   ("выдала" : bytes); ("дата выдачи" : bytes); ("дату выдачи" : bytes); ("получал" : bytes);
   ("получала" : bytes); ("получил" : bytes); ("получила" : bytes); ("получен" : bytes);
   ("поменял" : bytes); ("поменяла" : bytes); ("doc_issue" : bytes); ("issue" : bytes)].

Definition BirthContexts : list bytes :=
  [("родился" : bytes); ("родилась" : bytes); ("родился" : bytes); ("родились" : bytes);
   ("родил" : bytes); ("рожден" : bytes); ("рождён" : bytes); ("дата рождения" : bytes);
   ("дату рождения" : bytes); ("уроженец" : bytes); ("уроженка" : bytes); ("г.р." : bytes);
   ("г. р." : bytes); ("д.р." : bytes); ("др" : bytes); ("род." : bytes); ("род" : bytes);
   ("рожд." : bytes); ("рожд" : bytes); ("birth" : bytes); ("dob" : bytes); ("born" : bytes)].

Definition issuedByCode : list bytes :=
  [("код подразделения" : bytes); ("к/п" : bytes); ("код подр" : bytes)].

(** [s[start:end]] is not part of a longer word. *)
Definition keywordAtBoundary : bytes → Z → Z → option bool := at_boundary isLetterRune.

Definition lastKeywordIndex : bytes → bytes → option Z := last_keyword isLetterRune.

Section Pipeline.
Context `{Unicode}.

Definition windowBefore (t : Text) (pos n : Z) : option bytes :=
  start ← window_start (Z.to_nat n) (t_Raw t) pos;
  w ← go_slice (t_Raw t) start pos;
  Some (lower_string w).

Definition windowAfter (t : Text) (pos n : Z) : option bytes :=
  end_ ← window_end (Z.to_nat n) (t_Raw t) pos;
  w ← go_slice (t_Raw t) pos end_;
  Some (lower_string w).

Definition hasAnyContext (t : Text) (pos n : Z) (keywords : list bytes) : option bool :=
  window ← windowBefore t pos n;
  Some (existsb (str_contains window) keywords).

Definition hasAnyContextAfter (t : Text) (pos n : Z) (keywords : list bytes) : option bool :=
  window ← windowAfter t pos n;
  Some (existsb (str_contains window) keywords).

(** The loop over the keywords; it stops at the first hit. *)
Fixpoint anyKeyword (window : bytes) (keywords : list bytes) : option bool :=
  match keywords with
  | [] => Some false
  | kw :: keywords =>
      idx ← lastKeywordIndex window kw;
      if 0 <=? idx then Some true else anyKeyword window keywords
  end.

Definition hasWordContext (t : Text) (pos n : Z) (keywords : list bytes) : option bool :=
  window ← windowBefore t pos n;
  anyKeyword window keywords.

Definition nearest_step (window : bytes) (best : Z) (kw : bytes) : Z :=
  let idx := str_last_index window kw in
  if 0 <=? idx then
    let d := rune_count (drop (Z.to_nat idx) window) in
    if (best <? 0) || (d <? best) then d else best
  else best.

Definition nearestContext (t : Text) (pos n : Z) (keywords : list bytes) : option Z :=
  window ← windowBefore t pos n;
  Some (foldl (nearest_step window) (-1) keywords).

(** ** Classification of dates *)

Definition isPassportDate (t : Text) (s : Span) : option bool :=
  other ← hasAnyContext t (sp_Start s) 160 nonPassportContexts;
  if other : bool then Some false else
  otherWord ← hasWordContext t (sp_Start s) 160 nonPassportWordContexts;
  if otherWord : bool then Some false else
  issueLeft ← hasAnyContext t (sp_Start s) 160 issueContexts;
  issueRight ← hasAnyContextAfter t (sp_End s) 40 issuedByCode;
  if negb issueLeft && negb issueRight then Some false else
  birthDist ← nearestContext t (sp_Start s) 160 BirthContexts;
  passDist ← nearestContext t (sp_Start s) 160 issueContexts;
  Some (negb ((0 <=? birthDist) && ((passDist <? 0) || (birthDist <? passDist)))).

(** [for lineStart > 0 && t.Raw[lineStart-1] != '\n' { lineStart-- }] *)
Fixpoint line_start (n : nat) (s : bytes) : option nat :=
  match n with
  | O => Some O
  | S m =>
      match s !! m with
      | None => None
      | Some b => if bool_decide (b = "010"%byte) then Some n else line_start m s
      end
  end.

(** [for lineEnd < len(t.Raw) && t.Raw[lineEnd] != '\n' { lineEnd++ }], on the
    text from [lineEnd] on. *)
Fixpoint line_length (s : bytes) : Z :=
  match s with
  | [] => 0
  | b :: s => if bool_decide (b = "010"%byte) then 0 else 1 + line_length s
  end.

Definition isTableBirthDate (t : Text) (s : Span) : option bool :=
  start ← line_start (Z.to_nat (sp_Start s)) (t_Raw t);
  let lineEnd := sp_End s + line_length (drop (Z.to_nat (sp_End s)) (t_Raw t)) in
  line ← go_slice (t_Raw t) (Z.of_nat start) lineEnd;
  if negb (str_contains line ["009"%byte]) then Some false else
  window ← windowBefore t (sp_Start s) 200;
  Some (str_contains window "дата рождения").

Definition followsPassportIssuer (spans : list Span) (s : Span) : bool :=
  existsb (λ p, bool_decide (sp_Category p = CatPassportIssuer) &&
                ((sp_Start p <=? sp_Start s) && (sp_Start s - sp_End p <=? 3))) spans.

(** What [reclassifySpan] writes to [spans[i].Category]. *)
Definition new_category (spans : list Span) (s : Span) (t : Text) : option Category :=
  if negb (bool_decide (sp_Category s = CatDate)) && negb (bool_decide (sp_Category s = CatBirthDate))
  then Some (sp_Category s) else
  passport ← isPassportDate t s;
  if passport : bool then Some CatPassportDate else
  if negb (bool_decide (sp_Category s = CatDate)) then Some (sp_Category s) else
  table ← isTableBirthDate t s;
  if table : bool then Some CatBirthDate else
  if followsPassportIssuer spans s then Some CatPassportDate else Some (sp_Category s).

(** [reclassifySpan spans i t] updates element [i] of the slice in place. *)
Definition reclassifySpan (t : Text) (spans : list Span) (i : nat) : option (list Span) :=
  s ← spans !! i;
  c ← new_category spans s t;
  Some (<[i := set_category s c]> spans).

(** The indices are visited in order; every step sees the categories the
    earlier steps wrote. *)
Definition postProcess (spans : list Span) (t : Text) : option (list Span) :=
  fold_opt (reclassifySpan t) spans (seq 0 (length spans)).

(** ** Run *)

Record Pipeline := MkPipeline { pl_detectors : list Detector }.

Definition NewPipeline (ds : list Detector) : Pipeline := MkPipeline ds.

Definition run_detector (t : Text) (d : Detector) : option (list Span) :=
  match d_DetectLower d with
  | Some detect => detect t
  | None => d_Detect d (t_Raw t)
  end.

Definition Run `{SliceSort} (p : Pipeline) (text : bytes) : option Result :=
  let t := text_of text in
  found ← mapM (run_detector t) (pl_detectors p);
  spans ← postProcess (Resolve (concat found)) t;
  Some (MkResult spans).
End Pipeline.

Arguments Run : simpl never.
Arguments lastKeywordIndex : simpl never.

(** ** The windows exist for every position in the text *)

Lemma window_start_total n s pos :
  0 <= pos <= len s → ∃ a, window_start n s pos = Some a ∧ 0 <= a <= pos.
Proof.
  revert pos. induction n as [|n IH]; intros pos Hpos; simpl; [some_lia|].
  destruct (pos <=? 0) eqn:E; [some_lia|]. rewrite go_slice_Some by lia. simpl.
  assert (len (slice s 0 pos) = pos) as Hl by (rewrite len_slice; lia).
  pose proof (decode_last_rune_width (slice s 0 pos)) as Hw.
  assert (slice s 0 pos ≠ []) as Hne by (intros Hn; rewrite Hn, len_nil in Hl; lia).
  specialize (Hw Hne). destruct (IH (pos - snd (decode_last_rune (slice s 0 pos)))) as (a & -> & ?);
    [lia|]. exists a. split; [done|lia].
Qed.

Lemma window_end_total n s pos :
  0 <= pos <= len s → ∃ b, window_end n s pos = Some b ∧ pos <= b <= len s.
Proof.
  revert pos. induction n as [|n IH]; intros pos Hpos; simpl; [some_lia|].
  destruct (len s <=? pos) eqn:E; [some_lia|]. rewrite go_slice_Some by lia. simpl.
  assert (len (slice s pos (len s)) = len s - pos) as Hl by (rewrite len_slice; lia).
  assert (slice s pos (len s) ≠ []) as Hne by (intros Hn; rewrite Hn, len_nil in Hl; lia).
  pose proof (decode_rune_width _ Hne) as Hw. unfold len in Hl at 1.
  destruct (IH (pos + Z.of_nat (snd (decode_rune (slice s pos (len s)))))) as (b & -> & ?);
    [lia|]. exists b. split; [done|lia].
Qed.

Lemma line_start_total n s : (n <= length s)%nat → ∃ m, line_start n s = Some m ∧ (m <= n)%nat.
Proof.
  induction n as [|n IH]; intros Hn; simpl; [some_lia|].
  destruct (lookup_lt_is_Some_2 s n ltac:(lia)) as [b ->].
  case_bool_decide; [some_lia|]. destruct IH as (m & -> & ?); [lia|].
  exists m. split; [done|lia].
Qed.

Lemma line_length_bound s : 0 <= line_length s <= len s.
Proof.
  unfold len. induction s as [|b s IH]; simpl; [lia|]. case_bool_decide; lia.
Qed.

(** ** Distances to keywords *)

(** The last occurrence of [kw] in [w] starts [d] runes before the end. *)
Definition keyword_distance (w kw : bytes) (d : Z) : Prop :=
  ∃ i, occurs_at w kw i ∧ (∀ j, occurs_at w kw j → j <= i) ∧
       d = rune_count (drop (Z.to_nat i) w).

Lemma nearest_step_hit w best kw :
  0 <= str_last_index w kw →
  ∃ d, keyword_distance w kw d ∧ 0 <= d ∧
    nearest_step w best kw = (if (best <? 0) || (d <? best) then d else best).
Proof.
  intros Hi. destruct (last_index_occurs w kw Hi) as [Ho Hm]. unfold nearest_step.
  replace (0 <=? str_last_index w kw) with true by lia.
  eexists. split; [by exists (str_last_index w kw)|]. split; [apply rune_count_nonneg|done].
Qed.

Lemma keyword_distance_fun w kw d d' : keyword_distance w kw d → keyword_distance w kw d' → d = d'.
Proof.
  intros (i & Hi & Hmi & ->) (j & Hj & Hmj & ->). specialize (Hmi j Hj). specialize (Hmj i Hi).
  by replace j with i by lia.
Qed.

Lemma nearest_fold w kws best :
  let r := foldl (nearest_step w) best kws in
  (r = best ∨ ∃ kw, kw ∈ kws ∧ keyword_distance w kw r) ∧
  (∀ kw d, kw ∈ kws → keyword_distance w kw d → 0 <= r <= d) ∧
  (0 <= best → 0 <= r <= best).
Proof.
  revert best. induction kws as [|kw kws IH]; intros best; simpl.
  { split_and!; [by left|by intros ?? ?%elem_of_nil|lia]. }
  destruct (IH (nearest_step w best kw)) as (Ha & Hb & Hc). clear IH.
  destruct (decide (0 <= str_last_index w kw)) as [Hi|Hi].
  - destruct (nearest_step_hit w best kw Hi) as (d & Hd & Hd0 & Heq). rewrite Heq in *.
    split_and!.
    + destruct Ha as [Ha|(kw' & ? & ?)]; [|right; exists kw'; split; [by right|done]].
      rewrite Ha. case_match; [right; exists kw; split; [left|done]|by left].
    + intros kw' d' [->|Hin]%elem_of_cons Hd'; [|by eapply Hb].
      rewrite (keyword_distance_fun _ _ _ _ Hd' Hd). destruct ((best <? 0) || (d <? best)) eqn:E; lia.
    + intros Hbest. destruct ((best <? 0) || (d <? best)) eqn:E; lia.
  - assert (nearest_step w best kw = best) as Heq.
    { unfold nearest_step. by replace (0 <=? str_last_index w kw) with false by lia. }
    rewrite Heq in *. split_and!; [| |done].
    + destruct Ha as [Ha|(kw' & ? & ?)]; [by left|right; exists kw'; split; [by right|done]].
    + intros kw' d' [->|Hin]%elem_of_cons Hd'; [|by eapply Hb].
      destruct Hd' as (i & Ho & _). exfalso. by eapply (last_index_none w kw ltac:(lia)).
Qed.

(** ** The decision rule for dates *)

Section DateRule.
Context `{Unicode}.

Lemma windowBefore_total t pos n : 0 <= pos <= len (t_Raw t) → ∃ w, windowBefore t pos n = Some w.
Proof.
  intros Hp. unfold windowBefore.
  destruct (window_start_total (Z.to_nat n) (t_Raw t) pos Hp) as (a & -> & ?). simpl.
  rewrite go_slice_Some by lia. by eexists.
Qed.

Lemma windowAfter_total t pos n : 0 <= pos <= len (t_Raw t) → ∃ w, windowAfter t pos n = Some w.
Proof.
  intros Hp. unfold windowAfter.
  destruct (window_end_total (Z.to_nat n) (t_Raw t) pos Hp) as (a & -> & ?). simpl.
  rewrite go_slice_Some by lia. by eexists.
Qed.

(** Some keyword of the list occurs in the window. *)
Definition mentions (w : bytes) (kws : list bytes) : Prop := ∃ kw, kw ∈ kws ∧ str_contains w kw = true.

Lemma mentions_existsb w kws : existsb (str_contains w) kws = true ↔ mentions w kws.
Proof.
  rewrite existsb_exists. unfold mentions. split; intros (kw & Hin & ?); exists kw;
    (split; [by apply list_elem_of_In|done]).
Qed.

Lemma mentions_negb w kws : existsb (str_contains w) kws = false ↔ ¬ mentions w kws.
Proof. rewrite <- mentions_existsb. by destruct (existsb _ _). Qed.

(** "ву" as a word of its own. *)
Definition standalone (w kw : bytes) : Prop :=
  ∃ i, occurs_at w kw i ∧ keywordAtBoundary w i (i + len kw) = Some true.

Lemma anyKeyword_spec w :
  ∃ b, anyKeyword w nonPassportWordContexts = Some b ∧ (b = true ↔ standalone w "ву").
Proof.
  unfold nonPassportWordContexts. cbn [anyKeyword]. unfold lastKeywordIndex.
  destruct (last_keyword_spec isLetterRune w "ву") as (i & -> & Hi & Hj); [done|apply (bool_decide_unpack _); by vm_compute|].
  simpl. destruct (0 <=? i) eqn:E; (eexists; split; [done|]); split; try done.
  - intros _. destruct Hi as [->|Hi]; [lia|]. by exists i.
  - intros (j & Ho & Hb). destruct (decide (i < j)) as [Hlt|].
    + rewrite Hj in Hb by done. done.
    + destruct Hi as [->|[[? _] _]]; [destruct Ho; lia|lia].
Qed.

(** What [isPassportDate] decides, in terms of the lowered windows [w] (160 runes
    to the left) and [w'] (40 runes to the right) of the date. *)
Definition passport_rule (w w' : bytes) : Prop :=
  ¬ mentions w nonPassportContexts ∧ ¬ standalone w "ву" ∧
  (mentions w issueContexts ∨ mentions w' issuedByCode) ∧
  (∀ kw d, kw ∈ BirthContexts → keyword_distance w kw d →
    ∃ kw' d', kw' ∈ issueContexts ∧ keyword_distance w kw' d' ∧ d' <= d).

Lemma nearest_rule w :
  let birth := foldl (nearest_step w) (-1) BirthContexts in
  let pass := foldl (nearest_step w) (-1) issueContexts in
  (0 <=? birth) && ((pass <? 0) || (birth <? pass)) = false ↔
  (∀ kw d, kw ∈ BirthContexts → keyword_distance w kw d →
    ∃ kw' d', kw' ∈ issueContexts ∧ keyword_distance w kw' d' ∧ d' <= d).
Proof.
  pose proof (nearest_fold w BirthContexts (-1)) as (Ha & Hb & _).
  pose proof (nearest_fold w issueContexts (-1)) as (Ha' & Hb' & _).
  revert Ha Hb Ha' Hb'. generalize BirthContexts issueContexts. intros bs ps.
  simpl. intros Ha Hb Ha' Hb'. split.
  - intros Hn kw d Hin Hd. specialize (Hb _ _ Hin Hd).
    destruct Ha' as [Ha'|(kw' & ? & ?)]; [lia|]. exists kw'; eexists; split_and!; [done|done|lia].
  - intros Hall. destruct Ha as [Ha|(kw & Hin & Hd)]; [lia|].
    destruct (Hall _ _ Hin Hd) as (kw' & d' & Hin' & Hd' & Hle).
    specialize (Hb' _ _ Hin' Hd'). lia.
Qed.

Lemma isPassportDate_rule t s w w' :
  windowBefore t (sp_Start s) 160 = Some w → windowAfter t (sp_End s) 40 = Some w' →
  ∃ b, isPassportDate t s = Some b ∧ (b = true ↔ passport_rule w w').
Proof.
  intros Hw Hw'. unfold isPassportDate, hasAnyContext, hasAnyContextAfter, hasWordContext,
    nearestContext. rewrite Hw, Hw'. cbn [mbind option_bind]. unfold passport_rule.
  destruct (existsb (str_contains w) nonPassportContexts) eqn:E1.
  { apply mentions_existsb in E1. eexists. split; [done|]. split; [done|tauto]. }
  apply mentions_negb in E1. destruct (anyKeyword_spec w) as (b & -> & Hb). cbn [mbind option_bind].
  destruct b; [eexists; split; [done|]; split; [done|tauto]|].
  destruct (negb (existsb (str_contains w) issueContexts) && _) eqn:E2.
  { apply andb_true_iff in E2 as [E2%negb_true_iff E3%negb_true_iff].
    apply mentions_negb in E2, E3. eexists. split; [done|]. split; [done|tauto]. }
  rewrite andb_false_iff, !negb_false_iff, !mentions_existsb in E2.
  eexists. split; [done|]. rewrite negb_true_iff, nearest_rule.
  split; [intros Hn; split_and!; try done; intros Hst; by apply Hb in Hst|tauto].
Qed.
End DateRule.

(** ** [postProcess] and [Run] *)

Definition span_in (text : bytes) (s : Span) : Prop :=
  0 <= sp_Start s ∧ sp_Start s < sp_End s ∧ sp_End s <= len text.

#[export] Instance span_in_dec text s : Decision (span_in text s).
Proof. unfold span_in. apply _. Defined.

(** The same fragment, found by the same detector: only the category may differ. *)
Definition same_place (a b : Span) : Prop := b = set_category a (sp_Category b).

(** The reclassifications the pipeline may do. *)
Definition category_step (c c' : Category) : Prop :=
  c' = c ∨ c = CatDate ∧ (c' = CatPassportDate ∨ c' = CatBirthDate) ∨
  c = CatBirthDate ∧ c' = CatPassportDate.

Section RunFacts.
Context `{Unicode} `{SliceSort}.

(** The category [postProcess] gives to a span, given all the resolved spans. *)
Definition final_category (spans : list Span) (t : Text) (s : Span) : Category :=
  default (sp_Category s) (new_category spans s t).

Definition final_span (spans : list Span) (t : Text) (s : Span) : Span :=
  set_category s (final_category spans t s).

Lemma isPassportDate_total t s : span_in (t_Raw t) s → ∃ b, isPassportDate t s = Some b.
Proof.
  intros (?&?&?). destruct (windowBefore_total t (sp_Start s) 160) as [w Hw]; [lia|].
  destruct (windowAfter_total t (sp_End s) 40) as [w' Hw']; [lia|].
  destruct (isPassportDate_rule t s w w' Hw Hw') as (b & -> & _). by eexists.
Qed.

Lemma isTableBirthDate_total t s : span_in (t_Raw t) s → ∃ b, isTableBirthDate t s = Some b.
Proof.
  intros (?&?&?). unfold isTableBirthDate.
  destruct (line_start_total (Z.to_nat (sp_Start s)) (t_Raw t)) as (a & -> & ?); [unfold len in *; lia|].
  cbn [mbind option_bind].
  pose proof (line_length_bound (drop (Z.to_nat (sp_End s)) (t_Raw t))) as Hl.
  rewrite len_drop in Hl. rewrite go_slice_Some by lia. cbn [mbind option_bind].
  destruct (windowBefore_total t (sp_Start s) 200) as [w ->]; [lia|].
  case_match; by eexists.
Qed.

Lemma new_category_step spans t s :
  span_in (t_Raw t) s →
  ∃ c, new_category spans s t = Some c ∧ category_step (sp_Category s) c.
Proof.
  intros Hin. unfold new_category, category_step.
  destruct (isPassportDate_total t s Hin) as [p ->]. destruct (isTableBirthDate_total t s Hin) as [b ->].
  cbn [mbind option_bind].
  repeat case_bool_decide; cbn [negb andb]; repeat case_match;
    (eexists; split; [done|]; tauto).
Qed.

(** Reclassification never makes or unmakes a [passport_issuer] span, which is
    the only thing it reads of the other spans. *)
Lemma category_step_issuer c c' : category_step c c' → c' = CatPassportIssuer ↔ c = CatPassportIssuer.
Proof. unfold category_step. intros [->|[[-> [->| ->]]|[-> ->]]]; split; done. Qed.

Lemma followsPassportIssuer_map (f : Span → Span) spans s :
  (∀ p, p ∈ spans → sp_Start (f p) = sp_Start p ∧ sp_End (f p) = sp_End p ∧
    (sp_Category (f p) = CatPassportIssuer ↔ sp_Category p = CatPassportIssuer)) →
  followsPassportIssuer (map f spans) s = followsPassportIssuer spans s.
Proof.
  unfold followsPassportIssuer. induction spans as [|p spans IH]; intros Hf; [done|].
  destruct (Hf p ltac:(left)) as (Hs & He & Hc). cbn [map existsb].
  rewrite IH by (intros q Hq; apply Hf; by right). by rewrite Hs, He, (bool_decide_ext _ _ Hc).
Qed.

Lemma new_category_congr spans spans' s t :
  followsPassportIssuer spans s = followsPassportIssuer spans' s →
  new_category spans s t = new_category spans' s t.
Proof. intros E. unfold new_category. by rewrite E. Qed.

Lemma final_category_step spans t s :
  span_in (t_Raw t) s →
  new_category spans s t = Some (final_category spans t s) ∧
  category_step (sp_Category s) (final_category spans t s).
Proof.
  intros Hin. unfold final_category. by destruct (new_category_step spans t s Hin) as (c & -> & ?).
Qed.

(** Every span is reclassified on its own: the in-place loop computes a map. *)
Lemma postProcess_map spans t :
  Forall (span_in (t_Raw t)) spans → postProcess spans t = Some (map (final_span spans t) spans).
Proof.
  intros Hin. unfold postProcess. set (f := final_span spans t).
  assert (∀ done todo, spans = done ++ todo →
    fold_opt (reclassifySpan t) (map f done ++ todo) (seq (length done) (length todo)) =
    Some (map f spans)) as Hfold; [|by apply (Hfold [] spans)].
  intros done_ todo. revert done_. induction todo as [|s todo IH]; intros done_ Hs.
  { by rewrite Hs, !app_nil_r. }
  cbn [length seq fold_opt]. unfold reclassifySpan at 2.
  rewrite list_lookup_middle by (by rewrite length_map). cbn [mbind option_bind].
  assert (span_in (t_Raw t) s) as Hsin.
  { rewrite Hs in Hin. apply Forall_app in Hin as [_ Hin]. by inversion Hin. }
  rewrite (new_category_congr _ spans), (proj1 (final_category_step spans t s Hsin)).
  - cbn [mbind option_bind].
    replace (<[length done_ := set_category s (final_category spans t s)]> (map f done_ ++ s :: todo))
      with (map f (done_ ++ [s]) ++ todo).
    + rewrite <- (IH (done_ ++ [s])) by (by rewrite <- app_assoc).
      by rewrite length_app, Nat.add_1_r.
    + rewrite insert_app_r_alt by (by rewrite length_map).
      by rewrite length_map, Nat.sub_diag, map_app, <- app_assoc.
  - rewrite Hs. unfold followsPassportIssuer. rewrite !existsb_app. f_equal.
    apply followsPassportIssuer_map. intros p Hp. split_and!; [done|done|].
    apply category_step_issuer, final_category_step.
    rewrite Forall_forall in Hin. apply Hin. rewrite Hs, elem_of_app. by left.
Qed.
End RunFacts.

(** The detector returns, and its spans lie in the text. *)
Definition detects_in `{Unicode} (text : bytes) (d : Detector) : Prop :=
  match run_detector (text_of text) d with
  | Some spans => Forall (span_in text) spans
  | None => False
  end.

#[export] Instance detects_in_dec `{Unicode} text d : Decision (detects_in text d).
Proof. unfold detects_in. destruct (run_detector _ _); apply _. Defined.

(** Every span the pipeline collects was reported by a detector. *)
Lemma detectors_spec `{Unicode} text ds :
  Forall (detects_in text) ds →
  ∃ found, mapM (run_detector (text_of text)) ds = Some found ∧ Forall (span_in text) (concat found) ∧
    (∀ s, s ∈ concat found → ∃ d l, d ∈ ds ∧ run_detector (text_of text) d = Some l ∧ s ∈ l).
Proof.
  induction 1 as [|d ds Hd _ (found & Hf & Hin & Hfrom)].
  { exists []. split_and!; [done|constructor|]. by intros s Hs%elem_of_nil. }
  unfold detects_in in Hd. destruct (run_detector _ d) as [l|] eqn:E; [|done].
  exists (l :: found). cbn [mapM]. rewrite E. cbn [mbind option_bind]. rewrite Hf. cbn [mbind option_bind concat].
  split_and!; [done|by apply Forall_app|].
  intros s [Hs|Hs]%elem_of_app.
  - exists d, l. split_and!; [left|done|done].
  - destruct (Hfrom s Hs) as (d' & l' & ? & ? & ?). exists d', l'. split_and!; [by right|done|done].
Qed.

Lemma Run_spec `{Unicode} `{SliceSort} p text :
  Forall (detects_in text) (pl_detectors p) →
  ∃ r, Run p text = Some r ∧
    StronglySorted before (r_Spans r) ∧ Forall (span_in text) (r_Spans r) ∧
    (∀ s, s ∈ r_Spans r → ∃ d l s', d ∈ pl_detectors p ∧ run_detector (text_of text) d = Some l ∧ s' ∈ l ∧
      same_place s' s ∧ category_step (sp_Category s') (sp_Category s)).
Proof.
  intros Hdet. unfold Run. destruct (detectors_spec text (pl_detectors p) Hdet) as (found & -> & Hin & Hfrom).
  cbn [mbind option_bind]. set (spans := concat found) in *.
  assert (Forall span_wf spans) as Hwf by (eapply Forall_impl; [exact Hin|]; by intros ? (?&?&?)).
  assert (Forall (span_in text) (Resolve spans)) as Hres.
  { apply Forall_forall. intros s Hs%resolve_incl; [|done]. rewrite Forall_forall in Hin. auto. }
  rewrite (postProcess_map (Resolve spans) (text_of text) Hres).
  cbn [mbind option_bind]. eexists. split; [done|]. cbn [r_Spans]. split_and!.
  - eapply StronglySorted_map; [|by apply resolve_sorted]. done.
  - rewrite Forall_map. eapply Forall_impl; [exact Hres|]. done.
  - intros s (s' & -> & Hs')%list_elem_of_fmap. rewrite Forall_forall in Hres.
    destruct (Hfrom s' (resolve_incl _ _ Hwf Hs')) as (d & l & ? & ? & ?).
    exists d, l, s'. split_and!; [done|done|done|done|]. by apply final_category_step, Hres.
Qed.

(** ** Properties *)

(** C30: when every detector returns spans inside the text, [Run] returns, and its
    spans are sorted, disjoint, inside the text, each found by a detector at that
    very place; only dates are relabelled, to birth or passport dates. *)
Theorem Run_spans `{Unicode} `{SliceSort} p text :
  Forall (detects_in text) (pl_detectors p) →
  ∃ r, Run p text = Some r ∧
    StronglySorted before (r_Spans r) ∧ Forall (span_in text) (r_Spans r) ∧
    (∀ s, s ∈ r_Spans r → ∃ d l s', d ∈ pl_detectors p ∧ run_detector (text_of text) d = Some l ∧ s' ∈ l ∧
      same_place s' s ∧ category_step (sp_Category s') (sp_Category s)).
Proof. apply Run_spec. Qed.

(** Two dates and an issue keyword: the first date is relabelled, the second,
    nearer to a birth keyword, is not. *)
Definition demo_text : bytes := "issued 01.02.2003 dob 05.06.1990".

Definition demo_detector : Detector :=
  MkDetector "dates" [CatDate; CatBirthDate] (λ _, Some
    [MkSpan 22 32 CatBirthDate "dates" (f64_lit 9 10); MkSpan 7 17 CatDate "dates" (f64_lit 9 10)]) None.

Example demo_run : Run (MkPipeline [demo_detector]) demo_text =
  Some (MkResult [MkSpan 7 17 CatPassportDate "dates" (f64_lit 9 10);
                  MkSpan 22 32 CatBirthDate "dates" (f64_lit 9 10)]).
Proof. by vm_compute. Qed.

Lemma Run_spans_witness :
  ∃ r, Run (MkPipeline [demo_detector]) demo_text = Some r ∧ StronglySorted before (r_Spans r).
Proof.
  destruct (Run_spans (MkPipeline [demo_detector]) demo_text) as (r & Hr & Hs & _).
  - apply (bool_decide_unpack _). by vm_compute.
  - exists r. exact (conj Hr Hs).
Defined.

(** The in-place reclassification loop is order independent: it gives every
    span the category computed from the spans before the loop. *)
Lemma postProcess_pointwise `{Unicode} spans t :
  Forall (span_in (t_Raw t)) spans →
  postProcess spans t = Some (map (final_span spans t) spans) ∧
  Forall (λ s, new_category spans s t = Some (final_category spans t s)) spans.
Proof.
  intros Hin. split; [by apply postProcess_map|]. eapply Forall_impl; [exact Hin|].
  intros s Hs. by apply final_category_step.
Qed.

Lemma postProcess_pointwise_witness :
  let t := text_of demo_text in
  let spans := [MkSpan 7 17 CatDate "dates" (f64_lit 9 10)] in
  postProcess spans t = Some (map (final_span spans t) spans).
Proof.
  apply postProcess_pointwise. apply (bool_decide_unpack _). by vm_compute.
Defined.

(** A date in the text is a passport issue date exactly when no other
    document is named in the 160 runes before it, an issue keyword is there or a
    division code follows, and every birth keyword before it has an issue keyword
    at least as near. *)
Lemma isPassportDate_decides `{Unicode} t s :
  span_in (t_Raw t) s →
  ∃ w w' b, windowBefore t (sp_Start s) 160 = Some w ∧ windowAfter t (sp_End s) 40 = Some w' ∧
    isPassportDate t s = Some b ∧ (b = true ↔ passport_rule w w').
Proof.
  intros (?&?&?). destruct (windowBefore_total t (sp_Start s) 160) as [w Hw]; [lia|].
  destruct (windowAfter_total t (sp_End s) 40) as [w' Hw']; [lia|].
  destruct (isPassportDate_rule t s w w' Hw Hw') as (b & Hb & Hr). by exists w, w', b.
Qed.

Lemma isPassportDate_decides_witness :
  ∃ b, isPassportDate (text_of demo_text) (MkSpan 7 17 CatDate "dates" (f64_lit 9 10)) = Some b.
Proof.
  destruct (isPassportDate_decides (text_of demo_text) (MkSpan 7 17 CatDate "dates" (f64_lit 9 10)))
    as (w & w' & b & _ & _ & Hb & _).
  - apply (bool_decide_unpack _). by vm_compute.
  - exists b. exact Hb.
Defined.

(** C31: for a keyword that cannot overlap itself, [lastKeywordIndex] terminates
    and returns the last occurrence that stands at word boundaries, or -1. *)
Theorem lastKeywordIndex_last s kw :
  kw ≠ [] → unbordered kw →
  ∃ i, lastKeywordIndex s kw = Some i ∧
    (i = -1 ∨ occurs_at s kw i ∧ keywordAtBoundary s i (i + len kw) = Some true) ∧
    (∀ j, occurs_at s kw j → i < j → keywordAtBoundary s j (j + len kw) = Some false).
Proof. apply last_keyword_spec. Qed.

Lemma lastKeywordIndex_last_witness :
  ∃ i, lastKeywordIndex "ву, травух, права" "ву" = Some i ∧ i = 0.
Proof.
  destruct (lastKeywordIndex_last "ву, травух, права" "ву") as (i & Hi & _).
  - done.
  - apply (bool_decide_unpack _). by vm_compute.
  - exists i. split; [done|]. apply (inj Some). rewrite <- Hi. by vm_compute.
Defined.
