(* ===== verification/Dict.v ===== *)
(** * The embedded dictionaries

    The contents of [dict/first_names.txt] and [dict/surnames.txt], which packages
    [internal/mask], [internal/synth] and [internal/pii/detectors] embed (the copies are
    equal), and of the [famous.txt] and [cities.txt] of the detectors. *)

From S2P Require Import Prelude.

Definition first_names_txt : bytes := "абай
абдулла
абрам
август
авдей
авксентий
авраам
авраамий
автоном
агап
агафон
ада
адам
аделаида
аделина
адриан
азалия
азарий
азат
аида
аким
аксентий
аксинья
аладин
алан
алевтина
александр
александра
алексей
алина
алиса
алла
альберт
альбина
альфред
амалия
анастасия
анатолий
ангелина
андрей
андриан
анжела
аникита
анисим
анна
антип
антон
антонина
анфим
анфиса
аполлинарий
аполлон
арина
аристарх
аркадий
арсений
артем
артём
артемий
артур
архип
аскольд
ася
афанасий
белла
бенедикт
богдан
борис
борислав
бронислав
вавила
вадим
валентин
валентина
валериан
валерий
валерия
варвара
варлам
варфоломей
василий
василиса
венедикт
вениамин
вера
вероника
викентий
виктор
виктория
вилен
виолетта
виталий
владилен
владимир
владислав
владислава
владлен
влас
вольдемар
всеволод
вячеслав
гавриил
галактион
галина
георгий
герасим
герман
глафира
глеб
гордей
григорий
давид
дамир
дана
даниил
данил
данила
данислав
дарина
дарья
дементий
демид
демьян
денис
диана
димитрий
дина
динара
дмитрий
добрыня
донат
дорофей
евгений
евгения
евграф
евдоким
евдокия
евсей
евстафий
егор
екатерина
елена
елизавета
елизар
елисей
емельян
епифан
ермолай
ерофей
ефим
ефрем
ефросинья
жанна
зарина
захар
зинаида
зиновий
злата
зосима
зоя
иван
игнат
игнатий
игорь
иларион
илья
инга
инна
иннокентий
иосиф
ипполит
ирина
ириней
исидор
ия
казимир
капитолина
капитон
карина
карп
касьян
ким
киприан
кира
кирилл
клавдия
климент
кондрат
кондратий
конон
константин
корней
ксения
кузьма
лавр
лаврентий
лада
лазарь
лариса
лев
леонид
леонтий
лидия
лилия
лина
логин
лука
любовь
людмила
майя
макар
максим
максимилиан
маргарита
марианна
марина
мария
марк
маркел
марта
мартын
марфа
матвей
мефодий
мечислав
милан
милана
милена
мирон
мирослав
мирослава
митрофан
михаил
модест
моисей
мстислав
надежда
назар
наталья
наум
нелли
нестор
никанор
никита
никифор
никодим
николай
нил
нина
нифонт
нонна
оксана
олег
олеся
ольга
остап
павел
паисий
панкрат
пантелей
парамон
пафнутий
пахом
петр
пётр
платон
поликарп
полина
порфирий
прасковья
прокофий
прохор
рада
радион
раиса
ратибор
рафаил
регина
рената
римма
родион
роза
роксана
роман
ростислав
руслан
руслана
савва
савелий
самуил
светлана
святослав
севастьян
семен
семён
серафим
серафима
сергей
сидор
сила
сильвестр
снежана
созонт
сократ
соломон
софия
софья
спиридон
станислав
стелла
степан
таисия
тамара
тарас
татьяна
терентий
тимофей
тимур
тит
тихон
трофим
ульяна
устин
фаина
федор
фёдор
федот
феликс
филарет
филат
филипп
фома
фрол
харитон
христиан
эвелина
эдуард
эльвира
эмилия
эмиль
эмма
эрик
юлиан
юлия
юна
юрий
юстин
яков
ян
яна
ярослав
ярослава
".

Definition surnames_txt : bytes := "иванов
смирнов
кузнецов
попов
васильев
петров
соколов
михайлов
новиков
фёдоров
морозов
волков
алексеев
лебедев
семёнов
егоров
павлов
козлов
степанов
николаев
орлов
андреев
макаров
никитин
захаров
зайцев
соловьёв
борисов
яковлев
григорьев
романов
воробьёв
сергеев
кузьмин
фролов
александров
дмитриев
королёв
гусев
киселёв
ильин
максимов
поляков
сорокин
виноградов
ковалёв
белов
медведев
антонов
тарасов
жуков
баранов
филиппов
комаров
давыдов
беляев
герасимов
богданов
осипов
сидоров
матвеев
титов
марков
миронов
крылов
куликов
карпов
власов
мельников
денисов
гаврилов
тихонов
казаков
афанасьев
данилов
савельев
тимофеев
фомин
чернов
абрамов
мартынов
ефимов
федотов
щербаков
назаров
калинин
исаев
чернышёв
быков
маслов
родионов
коновалов
лазарев
воронин
климов
филатов
пономарёв
голубев
кудрявцев
прохоров
наумов
потапов
журавлёв
овчинников
трофимов
леонов
соболев
ермаков
колесников
гончаров
емельянов
никифоров
грачёв
котов
гришин
ефремов
архипов
громов
кириллов
малышев
панов
моисеев
румянцев
акимов
кондратьев
бирюков
горбунов
анисимов
еремеев
тихомиров
галкин
лукьянов
михеев
скворцов
юдин
белоусов
нестеров
симонов
прокофьев
харитонов
князев".

(** The embedded file system [dict/*.txt]. *)
Definition dict_files (path : bytes) : option bytes :=
  if decide (path = go_bytes "dict/first_names.txt") then Some first_names_txt
  else if decide (path = go_bytes "dict/surnames.txt") then Some surnames_txt
  else None.

Definition famous_txt : bytes := "александр пушкин
лев толстой
фёдор достоевский
михаил лермонтов
николай гоголь
антон чехов
иван тургенев
сергей есенин
владимир маяковский
анна ахматова
марина цветаева
борис пастернак
михаил булгаков
пётр чайковский
дмитрий шостакович
сергей рахманинов
юрий гагарин
дмитрий менделеев
михаил ломоносов
иван павлов
константин циолковский
сергей королёв
пётр первый
иван грозный
екатерина вторая
владимир ленин
иосиф сталин
никита хрущёв
леонид брежнев
михаил горбачёв
борис ельцин
владимир путин
дмитрий медведев
михаил мишустин
сергей лавров
александр суворов
михаил кутузов
георгий жуков
илья репин
казимир малевич
василий кандинский
валентина терешкова
алексей леонов
лев ландау
андрей сахаров
игорь курчатов
николай пирогов
владимир высоцкий
виктор цой
алла пугачёва".

Definition cities_txt : bytes := "москва
санкт-петербург
новосибирск
екатеринбург
казань
нижний новгород
челябинск
самара
омск
ростов-на-дону
уфа
красноярск
воронеж
пермь
волгоград
краснодар
саратов
тюмень
тольятти
ижевск
барнаул
ульяновск
иркутск
хабаровск
ярославль
владивосток
махачкала
томск
оренбург
кемерово
новокузнецк
рязань
астрахань
набережные челны
пенза
липецк
киров
чебоксары
тула
калининград
балашиха
курск
севастополь
сочи
ставрополь
улан-удэ
тверь
магнитогорск
иваново
брянск
белгород
сургут
владимир
нижний тагил
архангельск
чита
симферополь
калуга
смоленск
волжский
якутск
саранск
череповец
курган
вологда
орёл
владикавказ
подольск
грозный
мурманск
тамбов
петрозаводск
стерлитамак
нижневартовск
кострома
новороссийск
йошкар-ола
химки
таганрог
комсомольск-на-амуре
сыктывкар".

(** [namesFS] and [citiesFS] of package [detectors]. *)
Definition names_files (path : bytes) : option bytes :=
  if decide (path = go_bytes "dict/famous.txt") then Some famous_txt
  else if decide (path = go_bytes "dict/cities.txt") then Some cities_txt
  else dict_files path.
