(* ===== verification/TextUtil.v ===== *)
(** * Package [detectors]: runes and windows of a text

    Models [internal/pii/detectors/textutil.go] and the letter class of
    [names_tokens.go]. A result [None] is a run-time panic. *)

From S2P Require Import Prelude GoText Pii.

(** ** Letter classes *)

Definition isLatinLetter (r : Z) : bool := in_rng 0x61 0x7A r || in_rng 0x41 0x5A r.
Definition isUpperLatin (r : Z) : bool := in_rng 0x41 0x5A r.
Definition isLowerCyrillicRune (r : Z) : bool := in_rng 0x430 0x44F r || (r =? 0x451).
Definition isUpperCyrillicRune (r : Z) : bool := in_rng 0x410 0x42F r || (r =? 0x401).
Definition isCyrillicRune (r : Z) : bool := isLowerCyrillicRune r || isUpperCyrillicRune r.
Definition isLetterRune (r : Z) : bool := isLatinLetter r || isCyrillicRune r.
Definition isUpperRune (r : Z) : bool := isUpperLatin r || isUpperCyrillicRune r.

(** ** Runes at a position *)

(** [for i > 0 && s[i]&0xC0 == 0x80 { i-- }] for an index in range. *)
Fixpoint back_rune (s : bytes) (i : nat) : nat :=
  match i with
  | O => O
  | S j => match s !! i with
           | Some b => if is_cont b then back_rune s j else i
           | None => i
           end
  end.

Definition runeBefore (s : bytes) (pos : Z) : option Z :=
  if pos <=? 0 then Some 0
  else if len s <? pos then None
  else
    rest ← go_slice s (Z.of_nat (back_rune s (Z.to_nat (pos - 1)))) (len s);
    Some (fst (decode_rune rest)).

Definition decodedRune (s : bytes) (pos : Z) : option Z :=
  rest ← go_slice s pos (len s);
  Some (fst (decode_rune rest)).

(** The loop of [gapRunes]; [more] is [4 - count]. *)
Fixpoint gap_loop (more : nat) (text : bytes) (i b : Z) : option Z :=
  match more with
  | O => Some 0
  | S more =>
      if i <? b then
        rest ← go_slice text i (len text);
        n ← gap_loop more text (i + Z.of_nat (snd (decode_rune rest))) b;
        Some (1 + n)
      else Some 0
  end.

Definition gapRunes (text : bytes) (a b : Z) : option Z :=
  if b <=? a then Some 0 else gap_loop 4 text a b.

(** The loop of [runeOffsetAfter]; [n] rounds are left. *)
Fixpoint offset_loop (n : nat) (s : bytes) (end_ : Z) : option Z :=
  match n with
  | O => Some end_
  | S n =>
      if end_ <? len s then
        rest ← go_slice s end_ (len s);
        offset_loop n s (end_ + Z.of_nat (snd (decode_rune rest)))
      else Some end_
  end.

Definition runeOffsetAfter (s : bytes) (pos n : Z) : option Z :=
  if n <=? 0 then Some pos else offset_loop (Z.to_nat n) s pos.

(** ** The first and the last runes *)

(** Where the last [n] runes of [s[:i]] start. *)
Fixpoint last_start (n : nat) (s : bytes) (i : nat) : nat :=
  match n, i with
  | S n, S j => last_start n s (back_rune s j)
  | _, _ => i
  end.

(** Where the first [n] runes of [s] end. *)
Fixpoint first_end (n : nat) (s : bytes) : nat :=
  match n, s with
  | S n, _ :: _ =>
      let w := snd (decode_rune s) in
      (w + first_end n (drop w s))%nat
  | _, _ => O
  end.

Definition lastNRunes (s : bytes) (n : Z) : bytes :=
  if n <=? 0 then [] else drop (last_start (Z.to_nat n) s (length s)) s.

Definition firstNRunes (s : bytes) (n : Z) : bytes :=
  if n <=? 0 then [] else take (first_end (Z.to_nat n) s) s.

(** The same code under a second name. *)
Definition lastNRunesLower (s : bytes) (n : Z) : bytes :=
  if n <=? 0 then [] else drop (last_start (Z.to_nat n) s (length s)) s.

Definition firstNRunesLower (s : bytes) (n : Z) : bytes :=
  if n <=? 0 then [] else take (first_end (Z.to_nat n) s) s.

Definition runeWindowBefore `{Unicode} (t : Text) (pos n : Z) : option bytes :=
  if LowerOK t then
    prefix ← go_slice (t_Lower t) 0 pos;
    Some (lastNRunesLower prefix n)
  else
    prefix ← go_slice (t_Raw t) 0 pos;
    Some (lower_string (lastNRunes prefix n)).

Definition runeWindowAfter `{Unicode} (t : Text) (pos n : Z) : option bytes :=
  if LowerOK t then
    rest ← go_slice (t_Lower t) pos (len (t_Lower t));
    Some (firstNRunesLower rest n)
  else
    rest ← go_slice (t_Raw t) pos (len (t_Raw t));
    Some (lower_string (firstNRunes rest n)).

(** [strings.TrimSpace(text[a:b]) == ""] *)
Definition onlyWhitespace (text : bytes) (a b : Z) : option bool :=
  gap ← go_slice text a b;
  Some (bool_decide (trim_space gap = [])).

Example window_short : runeWindowBefore (text_of "ИНН: 12") 7 3 = Some (go_bytes "нн:").
Proof. by vm_compute. Qed.

(** ** The windows as runes *)

Lemma first_end_chunks n s : take (first_end n s) s = raw (take n (chunks s)).
Proof.
  revert s. induction n as [|n IH]; intros s; [done|].
  destruct s as [|b s]; [done|]. rewrite chunks_cons by done.
  cbn [first_end]. set (w := snd (decode_rune (b :: s))).
  rewrite firstn_cons. unfold raw. cbn [map concat snd]. fold (raw (take n (chunks (drop w (b :: s))))).
  rewrite <- IH. rewrite <- (take_drop w (b :: s)) at 2.
  rewrite take_app_ge by (rewrite length_take; lia). f_equal. f_equal.
  rewrite length_take. pose proof (decode_rune_width (b :: s) ltac:(done)). lia.
Qed.

(** The first [n] runes of any text. *)
Lemma firstNRunes_runes s n : firstNRunes s n = raw (take (Z.to_nat n) (chunks s)).
Proof.
  unfold firstNRunes. destruct (n <=? 0) eqn:E; [|apply first_end_chunks].
  by replace (Z.to_nat n) with O by lia.
Qed.

Lemma is_cont_start b : rune_start b = false → is_cont b = true.
Proof. unfold rune_start. by destruct (is_cont b). Qed.

(** From the last byte of a rune, [back_rune] finds its first byte. *)
Lemma back_rune_encode u r t i :
  valid_rune r = true → (i < length (encode_rune r))%nat →
  back_rune (u ++ encode_rune r ++ t) (length u + i) = length u.
Proof.
  intros Hr. induction i as [|i IH]; intros Hi.
  - rewrite Nat.add_0_r. destruct u as [|b u]; [done|]. cbn [length back_rune].
    destruct (encode_rune r) as [|c e] eqn:E; [simpl in Hi; lia|].
    change ((b :: u) ++ (c :: e) ++ t) with ((b :: u) ++ c :: (e ++ t)).
    rewrite list_lookup_middle by done.
    assert (utf8_valid (c :: e)) as Hv.
    { rewrite <- E, <- (app_nil_r (encode_rune r)). apply (encode_runes_valid [r]). by repeat constructor. }
    apply valid_first in Hv. unfold rune_start in Hv. by destruct (is_cont c).
  - replace (length u + S i)%nat with (S (length u + i)) by lia. cbn [back_rune].
    rewrite lookup_app_r by lia. replace (S (length u + i) - length u)%nat with (S i) by lia.
    rewrite lookup_app_l by done. destruct (lookup_lt_is_Some_2 _ _ Hi) as [b Hb]. rewrite Hb.
    rewrite (is_cont_start b) by (by eapply encode_rune_tail). apply IH. lia.
Qed.

Lemma encode_runes_app rs rs' : encode_runes (rs ++ rs') = encode_runes rs ++ encode_runes rs'.
Proof. unfold encode_runes. by rewrite map_app, concat_app. Qed.

Lemma encode_runes_one r : encode_runes [r] = encode_rune r.
Proof. apply app_nil_r. Qed.

Lemma last_start_encode n rs t :
  Forall (λ r, valid_rune r = true) rs →
  last_start n (encode_runes rs ++ t) (length (encode_runes rs)) =
  length (encode_runes (take (length rs - n) rs)).
Proof.
  intros Hr. revert n t. induction rs as [|r rs IH] using rev_ind; intros n t.
  { cbn. by destruct n. }
  apply Forall_app in Hr as [Hr Hlast]. apply Forall_inv in Hlast. specialize (IH Hr).
  destruct n as [|n].
  { cbn [last_start]. by rewrite Nat.sub_0_r, take_ge. }
  rewrite encode_runes_app, encode_runes_one, length_app, <- app_assoc.
  pose proof (encode_rune_nonempty r) as Hne. apply length_positive in Hne.
  destruct (length (encode_runes rs) + length (encode_rune r))%nat as [|j] eqn:E; [lia|].
  cbn [last_start]. replace j with (length (encode_runes rs) + (length (encode_rune r) - 1))%nat by lia.
  rewrite back_rune_encode by (done || lia). rewrite IH, length_app. cbn [length].
  replace (length rs + 1 - S n)%nat with (length rs - n)%nat by lia.
  by rewrite take_app_le by lia.
Qed.

(** The last [n] runes of valid text. *)
Lemma lastNRunes_runes s n :
  utf8_valid s → lastNRunes s n = encode_runes (drop (length (runes s) - Z.to_nat n) (runes s)).
Proof.
  intros Hs. unfold lastNRunes. destruct (n <=? 0) eqn:E.
  { replace (Z.to_nat n) with O by lia. by rewrite Nat.sub_0_r, drop_all. }
  rewrite <- (utf8_valid_encode s Hs) at 1 2 3. pose proof (runes_valid s) as Hr. revert Hr.
  generalize (runes s). intros rs Hr.
  pose proof (last_start_encode (Z.to_nat n) rs [] Hr) as Hl. rewrite app_nil_r in Hl. rewrite Hl.
  set (k := (length rs - Z.to_nat n)%nat).
  replace (encode_runes rs) with (encode_runes (take k rs) ++ encode_runes (drop k rs))
    by (by rewrite <- encode_runes_app, take_drop).
  by apply drop_app_exact.
Qed.

Lemma back_rune_le s i : (back_rune s i <= i)%nat.
Proof.
  induction i as [|i IH]; [done|]. cbn [back_rune]. repeat case_match; lia.
Qed.

Lemma runeBefore_total s pos : 0 <= pos <= len s → ∃ r, runeBefore s pos = Some r.
Proof.
  intros Hpos. unfold runeBefore. destruct (pos <=? 0) eqn:E; [by eexists|]. replace (len s <? pos) with false by lia.
  pose proof (back_rune_le s (Z.to_nat (pos - 1))). rewrite go_slice_Some by lia. by eexists.
Qed.

Lemma runeWindowBefore_total `{Unicode} t pos n :
  0 <= pos <= len (t_Raw t) → ∃ w, runeWindowBefore t pos n = Some w.
Proof.
  intros Hpos. unfold runeWindowBefore. destruct (LowerOK t) eqn:E.
  - unfold LowerOK in E. rewrite go_slice_Some by lia. by eexists.
  - rewrite go_slice_Some by lia. by eexists.
Qed.

Lemma runeWindowAfter_total `{Unicode} t pos n :
  0 <= pos <= len (t_Raw t) → ∃ w, runeWindowAfter t pos n = Some w.
Proof.
  intros Hpos. unfold runeWindowAfter. destruct (LowerOK t) eqn:E.
  - unfold LowerOK in E. rewrite go_slice_Some by lia. by eexists.
  - rewrite go_slice_Some by lia. by eexists.
Qed.
