(* ===== verification/Tokens.v ===== *)
(** * Package [detectors]: words and initials

    Models [tokenize] and [consumeWord] of [internal/pii/detectors/names_tokens.go]:
    a token is a run of letters with inner hyphens, or a letter with its dot. *)

From S2P Require Import Prelude GoText Pii Regexp TextUtil.

Record token := MkToken { tk_start : Z; tk_end : Z; tk_text : bytes }.

#[export] Instance token_eq_dec : EqDecision token.
Proof. solve_decision. Defined.

(** [consumeWord(text, i, runeCount)] on [text[i:]]: the bytes passed and the
    letters counted. Every round passes a byte. *)
Fixpoint consumeWord (fuel : nat) (rest : bytes) : nat * Z :=
  match fuel, rest with
  | S fuel, _ :: _ =>
      let '(r, size) := decode_rune rest in
      if isLetterRune r then
        let '(n, count) := consumeWord fuel (drop size rest) in ((size + n)%nat, 1 + count)
      else if (r =? 0x2D) && (size <? length rest)%nat && isLetterRune (fst (decode_rune (drop size rest))) then
        let '(n, count) := consumeWord fuel (drop size rest) in ((size + n)%nat, count)
      else (O, 0)
  | _, _ => (O, 0)
  end.

(** The end of the token that starts [rest]: the word, and the dot of an initial. *)
Definition token_width (rest : bytes) : nat :=
  let '(n, count) := consumeWord (length rest) rest in
  if (count =? 1) && bool_decide (rest !! n = Some "."%byte) then S n else n.

(** The loop of [tokenize] on [text[i:]]. *)
Fixpoint tokenize_loop (fuel : nat) (i : Z) (rest : bytes) : list token :=
  match fuel, rest with
  | S fuel, _ :: _ =>
      let '(r, size) := decode_rune rest in
      if isLetterRune r then
        let n := token_width rest in
        MkToken i (i + Z.of_nat n) (take n rest) :: tokenize_loop fuel (i + Z.of_nat n) (drop n rest)
      else tokenize_loop fuel (i + Z.of_nat size) (drop size rest)
  | _, _ => []
  end.

Definition tokenize (text : bytes) : list token := tokenize_loop (length text) 0 text.

Definition tokenLower `{Unicode} (t : Text) (tok : token) : option bytes :=
  if LowerOK t then go_slice (t_Lower t) (tk_start tok) (tk_end tok)
  else Some (lower_string (tk_text tok)).

Example tokens_initials :
  tokenize "И.И. Иванов-Петров, 5" =
  [MkToken 0 3 "И."; MkToken 3 6 "И."; MkToken 7 32 "Иванов-Петров"].
Proof. by vm_compute. Qed.

Example tokens_hyphens : map tk_text (tokenize "-а-б- в--г") = [go_bytes "а-б"; go_bytes "в"; go_bytes "г"].
Proof. by vm_compute. Qed.

(** ** Words *)

(** The first [n] bytes of [rest] are the runes [v]. *)
Definition passes (rest : bytes) (n : nat) (v : list chunk) : Prop :=
  chunks rest = v ++ chunks (drop n rest) ∧ take n rest = raw v ∧ (n <= length rest)%nat.

Lemma passes_nil rest : passes rest 0 [].
Proof. split_and!; [by rewrite drop_0|done|lia]. Qed.

Lemma passes_len rest n v : passes rest n v → len (raw v) = Z.of_nat n.
Proof. intros (_ & <- & ?). rewrite len_take. unfold len. lia. Qed.

(** One rune, then the rest. *)
Lemma passes_step rest n v :
  rest ≠ [] → passes (drop (snd (decode_rune rest)) rest) n v →
  passes rest (snd (decode_rune rest) + n)
    ((fst (decode_rune rest), take (snd (decode_rune rest)) rest) :: v).
Proof.
  intros Hne (Hc & Ht & Hl). pose proof (decode_rune_width rest Hne) as Hw.
  set (w := snd (decode_rune rest)) in *. rewrite length_drop in Hl. split_and!; [| |lia].
  - rewrite chunks_cons by done. fold w. rewrite Hc, drop_drop. done.
  - change (raw ((fst (decode_rune rest), take w rest) :: v)) with (take w rest ++ raw v).
    rewrite <- Ht. rewrite <- (take_drop w rest) at 1. rewrite take_app_ge by (rewrite length_take; lia).
    f_equal. rewrite length_take. f_equal. lia.
Qed.

(** ** What a word and a token are *)

Definition letter (c : chunk) : Prop := isLetterRune (fst c) = true.
Definition hyphen (c : chunk) : Prop := fst c = 0x2D.
Definition dot : chunk := (0x2E, ["."%byte]).

(** Letters, with single hyphens between letters. *)
Inductive word : list chunk → Prop :=
| word_one c : letter c → word [c]
| word_letter c v : letter c → word v → word (c :: v)
| word_hyphen c d v : letter c → hyphen d → word v → word (c :: d :: v).

(** No word goes on into [w]: it starts with no letter, and with no hyphen before a
    letter. *)
Definition word_ends (w : list chunk) : Prop :=
  match w with
  | [] => True
  | c :: w => ¬ letter c ∧ (hyphen c → match w with d :: _ => ¬ letter d | [] => True end)
  end.

(** [v], with [w] behind it, is a token: a whole word, or one letter with its dot. *)
Definition token_cut (v w : list chunk) : Prop :=
  (word v ∧ word_ends w ∧ ¬ (length v = 1%nat ∧ head w = Some dot)) ∨
  ∃ c, letter c ∧ v = [c; dot].

Lemma word_starts v : word v → ∃ c v', v = c :: v' ∧ letter c.
Proof. destruct 1; eauto. Qed.

Lemma token_starts v w : token_cut v w → ∃ c v', v = c :: v' ∧ letter c.
Proof. intros [[Hv _]|(c & Hc & ->)]; [by apply word_starts|eauto]. Qed.

Lemma hyphen_no_letter c : hyphen c → ¬ letter c.
Proof. unfold hyphen, letter. intros ->. by vm_compute. Qed.

(** A text is cut into a word in one way. *)
Lemma word_unique v1 w1 v2 w2 :
  word v1 → word v2 → word_ends w1 → word_ends w2 → v1 ++ w1 = v2 ++ w2 → v1 = v2.
Proof.
  assert (∀ v w, word v → ∃ c t, v ++ w = c :: t ∧ letter c) as Hstart.
  { intros v w (c & v' & -> & Hc)%word_starts. by exists c, (v' ++ w). }
  intros Hv1. revert v2. induction Hv1 as [c Hc|c v Hc Hv IH|c d v Hc Hd Hv IH]; intros v2 Hv2 E1 E2 E.
  - destruct Hv2 as [c' _|c' v' _ Hv'|c' d' v' _ Hd' Hv']; simpl in E; injection E as <- E; [done| |];
      destruct (Hstart v' w2 Hv') as (x & t & Ex & Hx); rewrite Ex in E; subst w1; simpl in E1; tauto.
  - destruct Hv2 as [c' _|c' v' _ Hv'|c' d' v' _ Hd' Hv']; simpl in E; injection E as <- E.
    + destruct (Hstart v w1 Hv) as (x & t & Ex & Hx). rewrite Ex in E. subst w2. simpl in E2. tauto.
    + f_equal. by apply IH.
    + destruct (Hstart v w1 Hv) as (x & t & Ex & Hx). rewrite Ex in E. injection E as -> _. by apply hyphen_no_letter in Hd'.
  - destruct Hv2 as [c' _|c' v' _ Hv'|c' d' v' _ Hd' Hv']; simpl in E; injection E as <- E.
    + destruct (Hstart v w1 Hv) as (x & t & Ex & Hx). rewrite Ex in E. subst w2. simpl in E2. tauto.
    + destruct (Hstart v' w2 Hv') as (x & t & Ex & Hx). rewrite Ex in E. injection E as -> _. by apply hyphen_no_letter in Hd.
    + subst d'. do 2 f_equal. by apply IH.
Qed.

Lemma dot_ends_word v c w1 w2 : word v → v ++ w1 = c :: dot :: w2 → v = [c] ∧ head w1 = Some dot.
Proof.
  destruct 1 as [c' _|c' v _ (x & v' & -> & Hx)%word_starts|c' d v _ Hd _]; simpl; intros [= -> E].
  - by rewrite E.
  - subst x. by vm_compute in Hx.
  - subst d. by vm_compute in Hd.
Qed.

Lemma token_unique v1 w1 v2 w2 : token_cut v1 w1 → token_cut v2 w2 → v1 ++ w1 = v2 ++ w2 → v1 = v2.
Proof.
  intros [(Hv1 & E1 & N1)|(c1 & Hc1 & ->)] [(Hv2 & E2 & N2)|(c2 & Hc2 & ->)] E.
  - exact (word_unique v1 w1 v2 w2 Hv1 Hv2 E1 E2 E).
  - destruct (dot_ends_word v1 c2 w1 w2 Hv1 E) as [-> Hd]. by destruct N1.
  - destruct (dot_ends_word v2 c1 w2 w1 Hv2 (eq_sym E)) as [-> Hd]. by destruct N2.
  - by injection E as ->.
Qed.

(** ** Words are what [consumeWord] passes *)

Definition letters_in (v : list chunk) : Z := Z.of_nat (length (List.filter (λ c, isLetterRune (fst c)) v)).

(** A word of more than one rune has more than one letter. *)
Lemma word_letters v : word v → letters_in v = 1 ↔ length v = 1%nat.
Proof.
  assert (∀ v, word v → 1 <= letters_in v) as Hpos.
  { intros u (c & u' & -> & Hc)%word_starts. unfold letters_in. simpl. rewrite Hc. simpl. lia. }
  destruct 1 as [c Hc|c u Hc Hu|c d u Hc Hd Hu]; unfold letters_in in *; simpl; rewrite Hc; simpl.
  - lia.
  - specialize (Hpos u Hu). destruct (word_starts u Hu) as (x & u' & -> & _). simpl in *. lia.
  - specialize (Hpos u Hu). destruct (isLetterRune (fst d)); simpl; lia.
Qed.

(** What is passed inside a word: nothing, a word, or a hyphen and a word. *)
Definition inner (v : list chunk) : Prop := v = [] ∨ word v ∨ ∃ d v', v = d :: v' ∧ hyphen d ∧ word v'.

Lemma word_inner c v : letter c → inner v → word (c :: v).
Proof. intros Hc [->|[Hv|(d & v' & -> & Hd & Hv)]]; by constructor. Qed.

(** [consumeWord] goes to the end of the word. *)
Lemma consumeWord_spec fuel rest :
  (length rest <= fuel)%nat →
  ∃ v, passes rest (fst (consumeWord fuel rest)) v ∧ snd (consumeWord fuel rest) = letters_in v ∧
    inner v ∧ (isLetterRune (fst (decode_rune rest)) = true → rest ≠ [] → word v) ∧
    word_ends (chunks (drop (fst (consumeWord fuel rest)) rest)).
Proof.
  revert rest. induction fuel as [|fuel IH]; intros rest Hf.
  { destruct rest; [|simpl in Hf; lia]. exists []. split_and!; [apply passes_nil|done|by left|done|done]. }
  destruct (decide (rest = [])) as [->|Hne].
  { exists []. split_and!; [apply passes_nil|done|by left|done|done]. }
  pose proof (decode_rune_width rest Hne) as Hw. pose proof (chunks_cons rest Hne) as Hch.
  cbn [consumeWord]. destruct rest as [|b rest]; [done|].
  destruct (decode_rune (b :: rest)) as [r size] eqn:Ed. cbn [fst snd] in Hw, Hch |- *.
  assert (length (drop size (b :: rest)) <= fuel)%nat as Hf' by (rewrite length_drop; simpl in *; lia).
  destruct (IH _ Hf') as (v & Hp & Hc & Hv & Hnext & Hn).
  destruct (consumeWord fuel (drop size (b :: rest))) as [n count]. cbn [fst snd] in *.
  pose proof (passes_step (b :: rest) n v ltac:(done)) as Hstep. rewrite Ed in Hstep. cbn [fst snd] in Hstep.
  specialize (Hstep Hp).
  destruct (isLetterRune r) eqn:Er.
  - assert (word ((r, take size (b :: rest)) :: v)) as Hword by (by apply word_inner).
    eexists. split_and!; [exact Hstep| |by right; left|done|].
    + unfold letters_in in *. cbn [List.filter fst]. rewrite Er. cbn [length snd]. lia.
    + cbn [fst]. by rewrite <- drop_drop.
  - destruct ((r =? 0x2D) && _ && _) eqn:Eh; cbn [fst snd].
    + apply andb_true_iff in Eh as [[Eh1 Eh2]%andb_true_iff Eh3].
      assert (drop size (b :: rest) ≠ []) as Hne'.
      { intros E. apply (f_equal length) in E. rewrite length_drop in E. simpl in *. lia. }
      eexists. split_and!; [exact Hstep| | |done|by rewrite <- drop_drop].
      * unfold letters_in in *. cbn [List.filter fst]. by rewrite Er.
      * right. right. eexists _, _. split; [reflexivity|]. split; [unfold hyphen; cbn [fst]; lia|by apply Hnext].
    + exists []. split_and!; [apply passes_nil|done|by left|done|]. rewrite drop_0, Hch. cbn [word_ends].
      split; [unfold letter; cbn [fst]; congruence|]. intros Hh. unfold hyphen in Hh. cbn [fst] in Hh.
      destruct (decide (drop size (b :: rest) = [])) as [->|Hne']; [done|]. rewrite chunks_cons by done.
      unfold letter. cbn [fst]. intros Hl. rewrite Hl in Eh.
      assert (size < length (b :: rest))%nat by (destruct (decide (size < length (b :: rest))%nat); [done|];
        rewrite drop_ge in Hne' by lia; done). lia.
Qed.

(** ** Tokens *)

Lemma dot_passes rest n v :
  passes rest n v → rest !! n = Some "."%byte → passes rest (S n) (v ++ [(0x2E, ["."%byte])]).
Proof.
  intros (Hc & Ht & Hl) Hd. pose proof (lookup_lt_Some _ _ _ Hd) as Hlt. split_and!; [| |lia].
  - rewrite Hc, <- app_assoc. f_equal. rewrite (drop_S _ _ _ Hd), chunks_cons by done.
    rewrite decode_rune_ascii by (by vm_compute). cbn [fst snd]. change (drop 1 (?b :: ?t)) with t. done.
  - rewrite raw_app, <- Ht. by rewrite (take_S_r _ _ _ Hd).
Qed.

(** What a token that starts with a letter takes. *)
Lemma token_width_spec rest :
  rest ≠ [] → isLetterRune (fst (decode_rune rest)) = true →
  ∃ v, passes rest (token_width rest) v ∧ token_cut v (chunks (drop (token_width rest) rest)).
Proof.
  intros Hne Hr. unfold token_width.
  destruct (consumeWord_spec (length rest) rest ltac:(lia)) as (v & Hp & Hc & _ & Hword & Hends).
  specialize (Hword Hr Hne). pose proof (word_letters v Hword) as Hone.
  destruct (consumeWord (length rest) rest) as [n count]. cbn [fst snd] in *.
  destruct ((count =? 1) && bool_decide (rest !! n = Some "."%byte)) eqn:Ec.
  - apply andb_true_iff in Ec as [Ec Hd]. apply bool_decide_eq_true in Hd.
    destruct (word_starts v Hword) as (c & v' & -> & Hletter). destruct v' as [|? ?]; [|exfalso; simpl in Hone; lia].
    exists [c; dot]. split; [by apply (dot_passes rest n [c])|]. right. by exists c.
  - exists v. split; [exact Hp|]. left. split_and!; [done|done|]. intros [Hlen Hd].
    assert (count = 1) as -> by (rewrite Hc; by apply Hone). cbn [andb] in Ec. rewrite Z.eqb_refl in Ec. cbn [andb] in Ec.
    apply bool_decide_eq_false in Ec. apply Ec. destruct (decide (drop n rest = [])) as [E|Hne']; [by rewrite E in Hd|].
    rewrite chunks_cons in Hd by done. injection Hd as _ Hd.
    rewrite <- (Nat.add_0_r n), <- lookup_drop.
    rewrite <- (take_drop (snd (decode_rune (drop n rest))) (drop n rest)), Hd. done.
Qed.

(** A token of the text, with its place. *)
Definition token_at (i : Z) (rest : bytes) (tok : token) : Prop :=
  ∃ u v w, chunks rest = u ++ v ++ w ∧ tk_start tok = i + len (raw u) ∧
    tk_end tok = tk_start tok + len (raw v) ∧ tk_text tok = raw v ∧ token_cut v w.

Lemma token_at_shift i rest n v tok :
  passes rest n v → token_at (i + Z.of_nat n) (drop n rest) tok → token_at i rest tok.
Proof.
  intros Hp (u & v' & w & Hc & Hs & He & Ht & Hl). pose proof (passes_len _ _ _ Hp) as Hn.
  destruct Hp as [Hp _]. exists (v ++ u), v', w. rewrite Hp, Hc, raw_app, len_app, <- app_assoc.
  split_and!; [done|lia|done|done|done].
Qed.

Lemma token_at_pos i rest tok : token_at i rest tok → i <= tk_start tok ∧ tk_start tok < tk_end tok ∧
  tk_end tok <= i + len rest.
Proof.
  intros (u & v & w & Hc & Hs & He & _ & (c & v' & -> & _)%token_starts).
  pose proof (chunks_nonempty rest) as Hne. rewrite Hc in Hne.
  apply Forall_app in Hne as [_ [Hne _]%Forall_app]. apply Forall_inv in Hne.
  assert (len (raw (c :: v')) = len (snd c) + len (raw v')) as Hl.
  { change (raw (c :: v')) with (snd c ++ raw v'). apply len_app. }
  pose proof (len_pos _ Hne). pose proof (len_nonneg (raw v')). pose proof (len_nonneg (raw u)).
  rewrite <- (raw_chunks rest), Hc, !raw_app, !len_app. pose proof (len_nonneg (raw w)). lia.
Qed.

(** The tokens of a text: in order and disjoint, and together they hold every letter. *)
Record tokens_ok (i : Z) (rest : bytes) (toks : list token) : Prop := {
  to_at : Forall (token_at i rest) toks;
  to_order : StronglySorted (λ a b, tk_end a <= tk_start b) toks;
  to_letters : ∀ u c w, chunks rest = u ++ c :: w → isLetterRune (fst c) = true →
    ∃ tok, tok ∈ toks ∧ tk_start tok <= i + len (raw u) ∧ i + len (raw u) < tk_end tok
}.

Lemma chunk_before {A : Type} (v t u w : list A) (c : A) :
  v ++ t = u ++ c :: w → (∃ u', v = u ++ c :: u') ∨ ∃ u', u = v ++ u' ∧ t = u' ++ c :: w.
Proof.
  revert u. induction v as [|x v IH]; intros u Hv; [right; by exists u|].
  destruct u as [|y u]; [injection Hv as -> _; left; by exists v|].
  injection Hv as -> Hv. destruct (IH _ Hv) as [[u' ->]|(u' & -> & ->)]; [left|right]; by exists u'.
Qed.

(** A token in front of the tokens behind it; [v] are the runes it holds. *)
Lemma tokens_ok_cons i rest n v toks :
  passes rest n v → token_cut v (chunks (drop n rest)) →
  tokens_ok (i + Z.of_nat n) (drop n rest) toks →
  tokens_ok i rest (MkToken i (i + Z.of_nat n) (take n rest) :: toks).
Proof.
  intros Hp Hv [Ha Ho Hl]. pose proof (passes_len _ _ _ Hp) as Hn. split.
  - constructor.
    + destruct Hp as (Hc & Ht & _). exists [], v, (chunks (drop n rest)). cbn [tk_start tk_end tk_text].
      change (raw []) with (@nil byte). rewrite len_nil. split_and!; [done|lia|lia|done|done].
    + eapply Forall_impl; [exact Ha|]. intros tok. by apply token_at_shift with (v := v).
  - constructor; [done|]. eapply Forall_impl; [exact Ha|]. intros tok Ht%token_at_pos. cbn [tk_end]. lia.
  - intros u c w Hc Hr. destruct Hp as (Hch & _ & _). rewrite Hch in Hc.
    destruct (chunk_before _ _ _ _ _ Hc) as [[u' ->]|(u' & -> & Hu')].
    + exists (MkToken i (i + Z.of_nat n) (take n rest)). split; [left|]. cbn [tk_start tk_end].
      rewrite <- Hn, raw_app, len_app. pose proof (len_nonneg (raw u)).
      assert (0 < len (raw (c :: u'))); [|lia]. change (raw (c :: u')) with (snd c ++ raw u'). rewrite len_app.
      pose proof (chunks_nonempty rest) as Hne. rewrite Hch, <- app_assoc in Hne.
      apply Forall_app in Hne as [_ Hne]. apply Forall_inv in Hne.
      pose proof (len_pos _ Hne). pose proof (len_nonneg (raw u')). lia.
    + destruct (Hl _ _ _ Hu' Hr) as (tok & Hin & ? & ?). exists tok. rewrite raw_app, len_app.
      split; [by right|]. lia.
Qed.

Lemma tokenize_loop_ok fuel i rest : (length rest <= fuel)%nat → tokens_ok i rest (tokenize_loop fuel i rest).
Proof.
  revert i rest. induction fuel as [|fuel IH]; intros i rest Hf.
  { destruct rest; [|simpl in Hf; lia]. split; [constructor|constructor|]. by intros [|??] ? ?. }
  destruct (decide (rest = [])) as [->|Hne].
  { split; [constructor|constructor|]. by intros [|??] ? ?. }
  pose proof (decode_rune_width rest Hne) as Hw.
  assert (tokenize_loop (S fuel) i rest =
    if isLetterRune (fst (decode_rune rest))
    then MkToken i (i + Z.of_nat (token_width rest)) (take (token_width rest) rest) ::
         tokenize_loop fuel (i + Z.of_nat (token_width rest)) (drop (token_width rest) rest)
    else tokenize_loop fuel (i + Z.of_nat (snd (decode_rune rest))) (drop (snd (decode_rune rest)) rest)) as ->.
  { destruct rest; [done|]. cbn [tokenize_loop]. by destruct (decode_rune (b :: rest)). }
  destruct (isLetterRune (fst (decode_rune rest))) eqn:Er.
  - destruct (token_width_spec rest Hne Er) as (v & Hp & Hv).
    assert (0 < token_width rest)%nat as Hpos.
    { destruct (token_starts _ _ Hv) as (c & v' & -> & _). destruct Hp as (Hc & Ht & _). pose proof (chunks_nonempty rest) as Hcn.
      rewrite Hc in Hcn. apply Forall_inv in Hcn. destruct (token_width rest); [|lia]. rewrite take_0 in Ht.
      change (raw (c :: v')) with (snd c ++ raw v') in Ht. by destruct (snd c). }
    apply (tokens_ok_cons i rest _ v); [done|done|]. apply IH. rewrite length_drop. lia.
  - destruct (IH (i + Z.of_nat (snd (decode_rune rest))) (drop (snd (decode_rune rest)) rest)) as [Ha Ho Hl].
    { rewrite length_drop. lia. }
    pose proof (passes_step rest 0 [] Hne (passes_nil _)) as Hp. rewrite Nat.add_0_r in Hp.
    split; [|done|].
    + eapply Forall_impl; [exact Ha|]. intros tok. by eapply token_at_shift.
    + intros u c w Hc Hr. pose proof (passes_len _ _ _ Hp) as Hn. destruct Hp as [Hch _]. rewrite Hch in Hc.
      destruct (chunk_before _ _ _ _ _ Hc) as [[u' Hu]|(u' & -> & Hu')].
      * destruct u as [|? [|??]]; [|done..]. injection Hu as <- _. cbn [fst] in Hr. by rewrite Er in Hr.
      * destruct (Hl _ _ _ Hu' Hr) as (tok & Hin & ? & ?). exists tok. rewrite raw_app, len_app. split; [done|]. lia.
Qed.

Lemma tokenize_ok text : tokens_ok 0 text (tokenize text).
Proof. by apply tokenize_loop_ok. Qed.

Lemma token_in_text text tok : tok ∈ tokenize text → 0 <= tk_start tok ∧ tk_start tok < tk_end tok ∧ tk_end tok <= len text.
Proof.
  intros Hin. destruct (tokenize_ok text) as [Ha _ _]. rewrite Forall_forall in Ha.
  specialize (Ha _ Hin). apply token_at_pos in Ha. lia.
Qed.

(** ** There is one way to cut a text into tokens *)

(** What is in front of a place decides nothing but the place. *)
Lemma same_place (u1 u2 x1 x2 : list chunk) :
  Forall (λ c, snd c ≠ []) (u1 ++ x1) → u1 ++ x1 = u2 ++ x2 → len (raw u1) = len (raw u2) → u1 = u2.
Proof.
  revert u2. induction u1 as [|c u1 IH]; intros [|d u2] Hne E Hl; [done| | |].
  - simpl in E. subst x1. apply Forall_inv in Hne. change (raw (d :: u2)) with (snd d ++ raw u2) in Hl.
    rewrite len_app in Hl. pose proof (len_pos _ Hne). pose proof (len_nonneg (raw u2)). change (raw []) with (@nil byte) in Hl.
    rewrite len_nil in Hl. lia.
  - apply Forall_inv in Hne. change (raw (c :: u1)) with (snd c ++ raw u1) in Hl.
    rewrite len_app in Hl. pose proof (len_pos _ Hne). pose proof (len_nonneg (raw u1)). change (raw []) with (@nil byte) in Hl.
    rewrite len_nil in Hl. lia.
  - injection E as -> E. apply Forall_inv_tail in Hne. f_equal. apply IH; [done|done|].
    change (raw (d :: ?u)) with (snd d ++ raw u) in Hl. rewrite !len_app in Hl. lia.
Qed.

Lemma token_at_start i rest t1 t2 : token_at i rest t1 → token_at i rest t2 → tk_start t1 = tk_start t2 → t1 = t2.
Proof.
  intros (u1 & v1 & w1 & C1 & S1 & E1 & T1 & K1) (u2 & v2 & w2 & C2 & S2 & E2 & T2 & K2) Hs.
  pose proof (chunks_nonempty rest) as Hne. rewrite C1 in Hne, C2.
  assert (u1 = u2) as <- by (apply (same_place u1 u2 (v1 ++ w1) (v2 ++ w2) Hne C2); lia).
  apply app_inv_head in C2. assert (v1 = v2) as <- by (by eapply token_unique).
  destruct t1, t2. cbn in *. by subst.
Qed.

(** A token of one list is one of the other: by induction on its place, since its first
    letter is in a token of the other list, which starts no later. *)
Lemma tokens_ok_incl n i rest l1 l2 t :
  tokens_ok i rest l1 → tokens_ok i rest l2 → t ∈ l1 → tk_start t < i + Z.of_nat n → t ∈ l2.
Proof.
  revert l1 l2 t. induction n as [|n IH]; intros l1 l2 t H1 H2 Hin Hn.
  { destruct H1 as [Ha _ _]. rewrite Forall_forall in Ha. apply Ha, token_at_pos in Hin. lia. }
  pose proof (to_at _ _ _ H1) as A1. pose proof (to_at _ _ _ H2) as A2. rewrite Forall_forall in A1, A2.
  pose proof (A1 _ Hin) as (u & v & w & Hc & Hs & He & _ & (c & v' & -> & Hl)%token_starts).
  destruct (to_letters _ _ _ H2 u c (v' ++ w) Hc Hl) as (t' & Hin' & Hle & Hlt).
  destruct (decide (tk_start t' = tk_start t)) as [Heq|Hne].
  { by rewrite (token_at_start i rest t t' (A1 _ Hin) (A2 _ Hin') (eq_sym Heq)). }
  assert (t' ∈ l1) as Hin1 by (apply (IH l2 l1 t' H2 H1 Hin'); lia).
  pose proof (token_at_pos _ _ _ (A1 _ Hin)). pose proof (token_at_pos _ _ _ (A1 _ Hin1)).
  destruct (StronglySorted_two _ _ t t' (to_order _ _ _ H1) Hin Hin1) as [->|[Hlt'|Hlt']]; [done|lia|lia].
Qed.

Lemma tokens_ok_unique i rest l1 l2 : tokens_ok i rest l1 → tokens_ok i rest l2 → l1 = l2.
Proof.
  intros H1 H2.
  assert (∀ l l' t, tokens_ok i rest l → tokens_ok i rest l' → t ∈ l → t ∈ l') as Hincl.
  { intros l l' t Hl Hl' Hin. pose proof (to_at _ _ _ Hl) as Ha. rewrite Forall_forall in Ha.
    pose proof (token_at_pos _ _ _ (Ha _ Hin)). apply (tokens_ok_incl (length rest) i rest l l' t); [done|done|done|].
    unfold len in *. lia. }
  assert (∀ l, tokens_ok i rest l → ∀ t, t ∈ l → tk_start t < tk_end t) as Hpos.
  { intros l Hl t Hin. pose proof (to_at _ _ _ Hl) as Ha. rewrite Forall_forall in Ha. pose proof (token_at_pos _ _ _ (Ha _ Hin)). lia. }
  apply (StronglySorted_unique_strong (λ a b, tk_end a <= tk_start b)); [|apply H1|apply H2|].
  - intros a b Ha%(Hpos _ H1) Hb%(Hpos _ H2). lia.
  - apply NoDup_Permutation.
    + eapply StronglySorted_NoDup; [|apply H1]. intros t Ht%(Hpos _ H1) Hle. cbn beta in Hle. lia.
    + eapply StronglySorted_NoDup; [|apply H2]. intros t Ht%(Hpos _ H2) Hle. cbn beta in Hle. lia.
    + intros t. split; by apply Hincl.
Qed.

(** ** Lists of words *)

(** Words of the text, in order. *)
Definition words_of (text : bytes) (l : list token) : Prop :=
  Forall (λ tok, 0 <= tk_start tok ∧ tk_start tok < tk_end tok ∧ tk_end tok <= len text) l ∧
  StronglySorted (λ a b, tk_end a <= tk_start b) l.

Lemma words_of_tail text tok l : words_of text (tok :: l) → words_of text l.
Proof. intros [Hf Hs]. split; [by inversion Hf|by inversion Hs]. Qed.

Lemma words_of_drop text n l : words_of text l → words_of text (drop n l).
Proof.
  revert n. induction l as [|tok l IH]; intros n Hw; [by rewrite drop_nil|].
  destruct n as [|n]; [done|]. cbn [drop]. apply IH. by eapply words_of_tail.
Qed.

Lemma words_of_span text seq a b :
  words_of text seq → head seq = Some a → last seq = Some b →
  0 <= tk_start a ∧ tk_start a < tk_end b ∧ tk_end b <= len text.
Proof.
  intros [Hf Hs] Ha Hb. destruct seq as [|a' seq]; [done|]. injection Ha as ->.
  apply last_Some in Hb as [seq' Hseq]. rewrite Forall_forall in Hf.
  pose proof (Hf a ltac:(left)) as Hfa.
  assert (b ∈ a :: seq) as Hin by (rewrite Hseq; apply elem_of_app; right; left).
  pose proof (Hf b Hin) as Hfb. apply elem_of_cons in Hin as [->|Hin]; [lia|].
  apply StronglySorted_inv in Hs as [_ Hs]. rewrite Forall_forall in Hs. specialize (Hs _ Hin). lia.
Qed.

Lemma words_of_take text n l : words_of text l → words_of text (take n l).
Proof.
  intros [Hf Hs]. split; [by apply Forall_take|]. rewrite <- (take_drop n l) in Hs.
  by apply StronglySorted_app_1_l in Hs.
Qed.

Lemma words_of_tokens text (p : token → bool) : words_of text (List.filter p (tokenize text)).
Proof.
  destruct (tokenize_ok text) as [_ Ho _]. split.
  - apply Forall_forall. intros tok Hin. apply list_elem_of_In, filter_In in Hin as [Hin _].
    apply token_in_text. by apply list_elem_of_In.
  - induction Ho as [|tok l Ho IH Htok]; cbn [List.filter]; [constructor|].
    destruct (p tok); [|done]. constructor; [done|]. apply Forall_forall. intros x Hx.
    apply list_elem_of_In, filter_In in Hx as [Hx _]. rewrite Forall_forall in Htok.
    apply Htok. by apply list_elem_of_In.
Qed.

(** C19: [tokenize] is the one way to cut a text into words, on any bytes, valid UTF-8 or
    not: a list is [tokenize text] exactly when its tokens are in order and disjoint, each
    is a stretch of whole runes of the text that is a word to its end - letters with
    single hyphens between letters, not going on behind the token - or one letter with
    the dot behind it, and every letter of the text lies in one of them. *)
Theorem tokenize_exact text toks : tokens_ok 0 text toks ↔ toks = tokenize text.
Proof.
  split; [|intros ->; apply tokenize_ok]. intros Ht. exact (tokens_ok_unique 0 text toks _ Ht (tokenize_ok text)).
Qed.
