(* ===== verification/Validators.v ===== *)
(** * Package [detectors]: validators

    Models [internal/pii/detectors/validators.go]: checksums of card, INN and SNILS
    numbers, phone, e-mail and date checks. [int(d[i]-'0')] is [digit_at d i]; the
    argument [d] holds digits only, so the byte subtraction does not wrap. *)

From S2P Require Import Prelude GoText Regexp RegexpSyntax.

(** [nonDigit.ReplaceAllString(s, "")] *)
Definition digits (s : bytes) : bytes := raw (List.filter (λ c, ascii_digit (fst c)) (chunks s)).

Definition digit_at (d : bytes) (i : Z) : Z := byte_at d i - 0x30.

(** Go's [prefix == "800"] on [d[lo:hi]]. *)
Definition part_is (d : bytes) (lo hi : Z) (s : bytes) : bool := eq_bytes (slice d lo hi) s.

Definition tollFreePrefix : bytes := "800".

(** ** E-mail and toll-free filters *)

Definition serviceEmailLocalParts : list bytes :=
  [("support" : bytes); ("info" : bytes); ("noreply" : bytes); ("no-reply" : bytes);
   ("help" : bytes); ("sales" : bytes); ("office" : bytes); ("hello" : bytes);
   ("press" : bytes); ("pr" : bytes); ("hr" : bytes); ("feedback" : bytes);
   ("mail" : bytes); ("clients" : bytes); ("client" : bytes)].

Definition orgEmailDomains : list bytes := [("alfabank.ru" : bytes)].

Definition notServiceEmail `{Unicode} (m : bytes) : bool :=
  let at_ := str_index m "@" in
  if at_ <? 0 then true
  else
    let local := lower_string (slice m 0 at_) in
    let domain := lower_string (slice m (at_ + 1) (len m)) in
    if negb (bool_decide (domain ∈ orgEmailDomains)) then true
    else negb (bool_decide (local ∈ serviceEmailLocalParts)).

Definition notTollFree (m : bytes) : bool :=
  let d := digits m in
  if (len d =? 11) && (byte_at d 0 =? 0x38) && part_is d 1 4 tollFreePrefix then false else true.

(** ** Checksums *)

(** One digit of the Luhn sum; [double] alternates from the last digit on. *)
Definition luhn_digit (double : bool) (n : Z) : Z :=
  if double then (if 9 <? n * 2 then n * 2 - 9 else n * 2) else n.

Definition luhn_step (st : Z * bool) (b : byte) : Z * bool :=
  let '(sum, double) := st in (sum + luhn_digit double (digit_val b), negb double).

(** The loop over [i := len(d) - 1; i >= 0; i--]. *)
Definition luhn_sum (double : bool) (d : bytes) : Z := fst (foldl luhn_step (0, double) (rev d)).

Definition luhn (m : bytes) : bool :=
  let d := digits m in
  if (len d <? 13) || (19 <? len d) then false
  else luhn_sum false d mod 10 =? 0.

Fixpoint weighted_from (i : Z) (d : bytes) (weights : list Z) : Z :=
  match weights with
  | [] => 0
  | w :: weights => digit_at d i * w + weighted_from (i + 1) d weights
  end.

(** [for i, w := range weights { sum += int(d[i]-'0') * w }] *)
Definition weighted (d : bytes) (weights : list Z) : Z := weighted_from 0 d weights.

Definition inn10_weights : list Z := [2; 4; 10; 3; 5; 9; 4; 6; 8].
Definition inn12_w1 : list Z := [7; 2; 4; 10; 3; 5; 9; 4; 6; 8].
Definition inn12_w2 : list Z := [3; 7; 2; 4; 10; 3; 5; 9; 4; 6; 8].

Definition inn10 (d : bytes) : bool :=
  weighted d inn10_weights mod 11 mod 10 =? digit_at d 9.

Definition inn12 (d : bytes) : bool :=
  (weighted d inn12_w1 mod 11 mod 10 =? digit_at d 10) &&
  (weighted d inn12_w2 mod 11 mod 10 =? digit_at d 11).

Definition inn (m : bytes) : bool :=
  let d := digits m in
  if len d =? 10 then inn10 d else if len d =? 12 then inn12 d else false.

(** [9 - i] for [i] from 0 to 8. *)
Definition snils_weights : list Z := [9; 8; 7; 6; 5; 4; 3; 2; 1].

Definition snils_control (sum : Z) : Z :=
  if sum <? 100 then sum
  else if (sum =? 100) || (sum =? 101) then 0
  else let control := sum mod 101 in if control =? 100 then 0 else control.

Definition snils (m : bytes) : bool :=
  let d := digits m in
  if negb (len d =? 11) then false
  else snils_control (weighted d snils_weights) =? digit_at d 9 * 10 + digit_at d 10.

Definition passport (m : bytes) : bool :=
  let d := digits m in
  if negb (len d =? 10) then false
  else negb (part_is d 0 4 "0000") && negb (part_is d 4 (len d) "000000").

Definition phone (m : bytes) : bool :=
  let d := digits m in
  if negb (len d =? 11) then false
  else if (byte_at d 0 =? 0x38) && part_is d 1 4 tollFreePrefix then false
  else (byte_at d 0 =? 0x37) || (byte_at d 0 =? 0x38).

Definition phone10 (m : bytes) : bool :=
  let d := digits m in
  if negb (len d =? 10) then false else negb (part_is d 0 3 tollFreePrefix).

Definition phoneE164 (m : bytes) : bool :=
  let d := digits m in (10 <=? len d) && (len d <=? 15).

(** ** Dates *)

Definition inRange (v lo hi : Z) : bool := (lo <=? v) && (v <=? hi).

(** Go's [%] truncates; the years here are not negative. *)
Definition isLeap (y : Z) : bool :=
  (Z.rem y 4 =? 0) && (negb (Z.rem y 100 =? 0) || (Z.rem y 400 =? 0)).

Definition daysInMonth_table : list Z := [31; 28; 31; 30; 31; 30; 31; 31; 30; 31; 30; 31].

Definition validYMD (year month day : Z) : bool :=
  if negb (inRange year 1900 2100) || negb (inRange month 1 12) || (day <? 1) then false
  else
    let daysInMonth :=
      if isLeap year && (month =? 2) then <[1%nat := 29]> daysInMonth_table else daysInMonth_table in
    day <=? daysInMonth !!! Z.to_nat (month - 1).

Definition monthNames : list (bytes * Z) :=
  [("января" : bytes, 1); ("февраля" : bytes, 2); ("марта" : bytes, 3); ("апреля" : bytes, 4);
   ("мая" : bytes, 5); ("июня" : bytes, 6); ("июля" : bytes, 7); ("августа" : bytes, 8);
   ("сентября" : bytes, 9); ("октября" : bytes, 10); ("ноября" : bytes, 11); ("декабря" : bytes, 12);
   ("янв" : bytes, 1); ("янв." : bytes, 1); ("фев" : bytes, 2); ("фев." : bytes, 2);
   ("мар" : bytes, 3); ("мар." : bytes, 3); ("апр" : bytes, 4); ("апр." : bytes, 4);
   ("май" : bytes, 5); ("май." : bytes, 5); ("июн" : bytes, 6); ("июн." : bytes, 6);
   ("июл" : bytes, 7); ("июл." : bytes, 7); ("авг" : bytes, 8); ("авг." : bytes, 8);
   ("сен" : bytes, 9); ("сен." : bytes, 9); ("сент" : bytes, 9); ("сент." : bytes, 9);
   ("окт" : bytes, 10); ("окт." : bytes, 10); ("ноя" : bytes, 11); ("ноя." : bytes, 11);
   ("дек" : bytes, 12); ("дек." : bytes, 12);
   ("january" : bytes, 1); ("february" : bytes, 2); ("march" : bytes, 3); ("april" : bytes, 4);
   ("may" : bytes, 5); ("june" : bytes, 6); ("july" : bytes, 7); ("august" : bytes, 8);
   ("september" : bytes, 9); ("october" : bytes, 10); ("november" : bytes, 11); ("december" : bytes, 12)].

Fixpoint assoc {A : Type} (k : bytes) (l : list (bytes * A)) : option A :=
  match l with
  | [] => None
  | (k', v) :: l => if eq_bytes k' k then Some v else assoc k l
  end.

Definition wordDateRe : re :=
  MustCompile "^(\d{1,2})(?:-го|-е|-ого|-его)?\s+([a-zа-яё]+)\s+(\d{4})(?:\s+(?:г\.|года|г))?$".

Definition yearFirstDateRe : re :=
  MustCompile "^(\d{4})\s+г\.?\s*,?\s+(\d{1,2})(?:-го|-е|-ого|-его)?\s+([а-яё]+)$".

Definition dateWordShortYearRe : re :=
  MustCompile "^(\d{1,2})(?:-го|-е|-ого|-его)\s+([а-яё]+)\s+(\d{2})-го$".

(** [x, _ := strconv.Atoi(s)] on a group of at most four digits. *)
Definition atoi0 (s : bytes) : Z := default 0 (atoi s).

Definition wordDate (m : nat → bytes) : bool :=
  let day := atoi0 (m 1%nat) in
  match assoc (trim_suffix (m 2%nat) ".") monthNames with
  | None => false
  | Some month => validYMD (atoi0 (m 3%nat)) month day
  end.

Definition yearFirstDate (m : nat → bytes) : bool :=
  let year := atoi0 (m 1%nat) in
  let day := atoi0 (m 2%nat) in
  match assoc (trim_suffix (m 3%nat) ".") monthNames with
  | None => false
  | Some month => validYMD year month day
  end.

Definition date_separator (r : Z) : bool := (r =? 0x2E) || (r =? 0x2F) || (r =? 0x2D).

Definition numericParts (s : bytes) : option (Z * Z * Z) :=
  match fields_func date_separator s with
  | [p0; p1; p2] =>
      match atoi p0, atoi p1, atoi p2 with
      | Some a, Some b, Some c => Some (a, b, c)
      | _, _, _ => None
      end
  | _ => None
  end.

Definition date `{Unicode} (m : bytes) : bool :=
  let s := trim_space m in
  let lower := lower_string s in
  match Find wordDateRe lower with
  | Some m => wordDate (submatch lower m)
  | None =>
      match Find yearFirstDateRe lower with
      | Some m => yearFirstDate (submatch lower m)
      | None =>
          match numericParts s with
          | None => false
          | Some (a, b, c) => validYMD a b c || validYMD c a b || validYMD c b a || validYMD a c b
          end
      end
  end.

Definition shortYearAsLast (a b c : Z) : bool :=
  if (c <? 0) || (99 <? c) then false
  else let year := 1900 + c in validYMD year a b || validYMD year b a.

Definition shortYearAsFirst (a b c : Z) : bool :=
  if (a <? 0) || (99 <? a) then false else validYMD (1900 + a) b c.

(** The body repeats [numericParts]. *)
Definition dateShortYear (m : bytes) : bool :=
  match numericParts (trim_space m) with
  | None => false
  | Some (a, b, c) => shortYearAsLast a b c || shortYearAsFirst a b c
  end.

Definition dateWordShortYear `{Unicode} (m : bytes) : bool :=
  let s := lower_string (trim_space m) in
  match Find dateWordShortYearRe s with
  | None => false
  | Some m =>
      match assoc (submatch s m 2) monthNames with
      | None => false
      | Some month => validYMD (1900 + atoi0 (submatch s m 3)) month (atoi0 (submatch s m 1))
      end
  end.

(** The map from names to functions. *)
Definition Validators `{Unicode} : list (bytes * (bytes → bool)) :=
  [("luhn" : bytes, luhn); ("inn" : bytes, inn); ("snils" : bytes, snils);
   ("passport" : bytes, passport); ("phone" : bytes, phone); ("phone10" : bytes, phone10);
   ("phone_e164" : bytes, phoneE164); ("date" : bytes, date);
   ("date_short_year" : bytes, dateShortYear); ("date_word_short_year" : bytes, dateWordShortYear);
   ("not_service_email" : bytes, notServiceEmail); ("not_toll_free" : bytes, notTollFree)].

Example date_numeric : date "12.05.1990" = true. Proof. by vm_compute. Qed.
Example date_words : date "5-го марта 1985 г." = true. Proof. by vm_compute. Qed.
Example date_year_first : date "1985 г., 5 марта" = true. Proof. by vm_compute. Qed.
Example date_ordinal : dateWordShortYear "25-го марта 90-го" = true. Proof. by vm_compute. Qed.
Example date_english : date "12 may 1990" = true. Proof. by vm_compute. Qed.
Example date_dotted_month : date "05 янв. 1985" = false. Proof. by vm_compute. Qed.
Example luhn_card : luhn "4111 1111 1111 1111" = true. Proof. by vm_compute. Qed.
Example inn_individual : inn "500100732259" = true. Proof. by vm_compute. Qed.
Example snils_number : snils "112-233-445 95" = true. Proof. by vm_compute. Qed.

(** ** Digits of a match *)

Lemma digits_bytes s : digits s = List.filter digit_byte s.
Proof. apply raw_filter_ascii. unfold ascii_digit, in_rng. lia. Qed.

Lemma digits_app s t : digits (s ++ t) = digits s ++ digits t.
Proof. by rewrite !digits_bytes, List.filter_app. Qed.

Lemma digits_all s : forallb digit_byte s = true → digits s = s.
Proof. rewrite digits_bytes. apply forallb_filter_id. Qed.

Lemma digits_digit s : Forall (λ b, digit_byte b = true) (digits s).
Proof.
  rewrite digits_bytes. apply Forall_forall. intros b Hb%list_elem_of_In.
  by apply List.filter_In in Hb as [_ ?].
Qed.

Lemma digit_byte_range b : digit_byte b = true → 0 <= digit_val b <= 9.
Proof. unfold digit_byte, digit_val, ascii_digit, in_rng. lia. Qed.

Lemma digit_val_inj a b : digit_val a = digit_val b → a = b.
Proof. unfold digit_val. intros. apply byte_val_inj. lia. Qed.

(** ** The Luhn sum *)

(** The sum over digits given from the last one on. *)
Fixpoint luhn_rev (double : bool) (d : bytes) : Z :=
  match d with
  | [] => 0
  | b :: d => luhn_digit double (digit_val b) + luhn_rev (negb double) d
  end.

Lemma luhn_foldl s f d : fst (foldl luhn_step (s, f) d) = s + luhn_rev f d.
Proof. revert s f. induction d as [|b d IH]; intros s f; simpl; [lia|]. rewrite IH. lia. Qed.

Lemma luhn_sum_rev f d : luhn_sum f d = luhn_rev f (rev d).
Proof. unfold luhn_sum. rewrite luhn_foldl. lia. Qed.

Definition flip (n : nat) (f : bool) : bool := if Nat.even n then f else negb f.

Lemma luhn_rev_app f u v : luhn_rev f (u ++ v) = luhn_rev f u + luhn_rev (flip (length u) f) v.
Proof.
  revert f. induction u as [|b u IH]; intros f; simpl; [done|]. rewrite IH.
  replace (flip (length u) (negb f)) with (flip (S (length u)) f); [lia|].
  unfold flip. rewrite Nat.even_succ, <- Nat.negb_even. by destruct (Nat.even _), f.
Qed.

(** Doubling permutes the digits, so changing a digit changes the sum by at most 9. *)
Lemma luhn_digit_inj f m n :
  0 <= m <= 9 → 0 <= n <= 9 → m ≠ n → (luhn_digit f m - luhn_digit f n) mod 10 ≠ 0.
Proof.
  intros Hm Hn Hne. unfold luhn_digit. destruct f; repeat case_match; Z.div_mod_to_equations; lia.
Qed.

Lemma luhn_digit_swap f m n :
  0 <= m <= 9 → 0 <= n <= 9 → m ≠ n → ¬ (m = 0 ∧ n = 9) → ¬ (m = 9 ∧ n = 0) →
  (luhn_digit f m + luhn_digit (negb f) n - (luhn_digit f n + luhn_digit (negb f) m)) mod 10 ≠ 0.
Proof.
  intros Hm Hn Hne H1 H2. unfold luhn_digit.
  destruct f; simpl; repeat case_match; Z.div_mod_to_equations; lia.
Qed.

Lemma mod_sum_changed a b k : (a + k) mod 10 = 0 → (a - b) mod 10 ≠ 0 → (b + k) mod 10 ≠ 0.
Proof. intros. Z.div_mod_to_equations; lia. Qed.

Lemma luhn_true s : luhn s = true ↔ 13 <= len (digits s) <= 19 ∧ luhn_sum false (digits s) mod 10 = 0.
Proof. unfold luhn. case_match; lia. Qed.

Lemma luhn_false s : 13 <= len (digits s) <= 19 → luhn_sum false (digits s) mod 10 ≠ 0 → luhn s = false.
Proof. intros Hl Hs. destruct (luhn s) eqn:E; [|done]. apply luhn_true in E. tauto. Qed.

(** The sum as a function of one digit, or of two neighbouring digits. *)
Lemma luhn_sum_at u v : ∃ f k, ∀ a, luhn_sum false (u ++ a :: v) = luhn_digit f (digit_val a) + k.
Proof.
  do 2 eexists. intros a. rewrite luhn_sum_rev, rev_app_distr. cbn [rev].
  rewrite <- app_assoc, luhn_rev_app. cbn [app luhn_rev].
  rewrite Z.add_comm, <- Z.add_assoc. reflexivity.
Qed.

Lemma luhn_sum_at2 u v : ∃ f k, ∀ a b,
  luhn_sum false (u ++ a :: b :: v) = luhn_digit f (digit_val a) + luhn_digit (negb f) (digit_val b) + k.
Proof.
  exists (negb (flip (length (rev v)) false)),
    (luhn_rev false (rev v) + luhn_rev (flip (length (rev v)) false) (rev u)).
  intros a b. rewrite luhn_sum_rev, rev_app_distr. cbn [rev].
  rewrite <- !app_assoc, luhn_rev_app. cbn [app luhn_rev]. rewrite !negb_involutive. lia.
Qed.

(** C36: the Luhn check catches every single wrong digit, and every swap of
    neighbouring digits except 0 with 9. *)
Theorem luhn_detects_errors s s' u a b v :
  luhn s = true → a ≠ b →
  (digits s = u ++ a :: v ∧ digits s' = u ++ b :: v) ∨
  (digits s = u ++ a :: b :: v ∧ digits s' = u ++ b :: a :: v ∧
   ¬ (digit_val a = 0 ∧ digit_val b = 9) ∧ ¬ (digit_val a = 9 ∧ digit_val b = 0)) →
  luhn s' = false.
Proof.
  intros [Hl Hs]%luhn_true Hab Hd.
  assert (digit_val a ≠ digit_val b) as Hne by (intros ?%digit_val_inj; done).
  assert (0 <= digit_val a <= 9 ∧ 0 <= digit_val b <= 9) as [Ha Hb].
  { pose proof (digits_digit s) as Hf. pose proof (digits_digit s') as Hf'.
    rewrite Forall_forall in Hf, Hf'. clear Hl Hs.
    split; apply digit_byte_range; [apply Hf; clear Hf Hf'|apply Hf'; clear Hf Hf'];
      destruct Hd as [[Hd Hd']|(Hd & Hd' & _)]; rewrite ?Hd, ?Hd'; set_solver. }
  destruct Hd as [[Hd Hd']|(Hd & Hd' & H1 & H2)]; rewrite Hd in *;
    (apply luhn_false; rewrite Hd'; [len_solve|]).
  - destruct (luhn_sum_at u v) as (f & k & Hk). rewrite Hk in *.
    eapply mod_sum_changed; [done|]. by apply luhn_digit_inj.
  - destruct (luhn_sum_at2 u v) as (f & k & Hk). rewrite Hk in *.
    eapply mod_sum_changed; [done|]. apply luhn_digit_swap; tauto.
Qed.

Lemma luhn_detects_errors_witness : luhn "4111 1111 1111 1112" = false.
Proof.
  apply (luhn_detects_errors "4111 1111 1111 1111" _ "411111111111111" "1"%byte "2"%byte []).
  - by vm_compute.
  - done.
  - left. by split; vm_compute.
Defined.

(** ** The calendar *)

(** Days from 1 March of year 0 in the Gregorian calendar; years begin in March. *)
Definition civil_day (year month day : Z) : Z :=
  let y := if month <=? 2 then year - 1 else year in
  365 * y + y / 4 - y / 100 + y / 400 + (153 * ((month + 9) mod 12) + 2) / 5 + day - 1.

(** The first day of the following month. *)
Definition next_month (year month : Z) : Z :=
  if month =? 12 then civil_day (year + 1) 1 1 else civil_day year (month + 1) 1.

Definition calendar_date (year month day : Z) : Prop :=
  1900 <= year <= 2100 ∧ 1 <= month <= 12 ∧ 1 <= day ∧ civil_day year month day < next_month year month.

#[export] Instance calendar_date_dec y m d : Decision (calendar_date y m d).
Proof. unfold calendar_date. apply _. Defined.

(** The length of a month by both computations, for every month in range. *)
Definition month_length (year month : Z) : Z := next_month year month - civil_day year month 1.

Definition z_range (lo hi : Z) : list Z := map (λ n, lo + Z.of_nat n) (seq 0 (Z.to_nat (hi - lo + 1))).

Lemma z_range_spec lo hi x : x ∈ z_range lo hi ↔ lo <= x <= hi.
Proof.
  unfold z_range. rewrite list_elem_of_fmap. split.
  - intros (n & -> & Hn%elem_of_seq). lia.
  - intros Hx. exists (Z.to_nat (x - lo)). rewrite elem_of_seq. lia.
Qed.

Definition table_length (y m : Z) : Z :=
  (if isLeap y && (m =? 2) then <[1%nat := 29]> daysInMonth_table else daysInMonth_table)
    !!! Z.to_nat (m - 1).

Lemma month_lengths :
  Forall (λ y, Forall (λ m, table_length y m = month_length y m) (z_range 1 12)) (z_range 1900 2100).
Proof. apply (bool_decide_unpack _). by vm_compute. Qed.

Lemma table_length_calendar y m :
  1900 <= y <= 2100 → 1 <= m <= 12 → table_length y m = month_length y m.
Proof.
  intros Hy%z_range_spec Hm%z_range_spec. pose proof month_lengths as H.
  rewrite Forall_forall in H. specialize (H y Hy). rewrite Forall_forall in H. auto.
Qed.

Lemma validYMD_calendar y m d : validYMD y m d = bool_decide (calendar_date y m d).
Proof.
  unfold validYMD, inRange. fold (table_length y m).
  destruct (_ || _ || _) eqn:E.
  - symmetry. apply bool_decide_eq_false. unfold calendar_date. lia.
  - rewrite table_length_calendar by lia. unfold month_length, calendar_date.
    assert (civil_day y m d = civil_day y m 1 + (d - 1)) by (unfold civil_day; lia).
    destruct (d <=? next_month y m - civil_day y m 1) eqn:E2; symmetry; [apply bool_decide_eq_true|apply bool_decide_eq_false]; lia.
Qed.

(** ** Numeric dates *)

Lemma wordDateRe_space : must space_ranges wordDateRe = true.
Proof. by vm_compute. Qed.

Lemma yearFirstDateRe_space : must space_ranges yearFirstDateRe = true.
Proof. by vm_compute. Qed.

(** A non-empty string of decimal digits that fits an [int]. *)
Definition number (s : bytes) : Prop := s ≠ [] ∧ forallb digit_byte s = true ∧ len s <= 18.

#[export] Instance number_dec s : Decision (number s).
Proof. unfold number. apply _. Defined.

Definition numeric_byte (b : byte) : bool := digit_byte b || date_separator (byte_val b).

Lemma numeric_byte_range b : numeric_byte b = true → 0x2D <= byte_val b <= 0x39.
Proof. unfold numeric_byte, digit_byte, ascii_digit, date_separator, in_rng. lia. Qed.

Section NumericDates.
Context `{Unicode}.

Lemma numeric_ascii s : forallb numeric_byte s = true → is_ascii s = true.
Proof. apply forallb_impl. intros b Hb%numeric_byte_range. lia. Qed.

Lemma numeric_runes (q : Z → bool) s :
  (∀ r, 0x2D <= r <= 0x39 → q r = true) → forallb numeric_byte s = true → forallb q (runes s) = true.
Proof.
  intros Hq Hs. rewrite runes_ascii by (by apply numeric_ascii).
  rewrite forallb_forall in *. intros r (b & <- & Hb)%in_map_iff.
  apply Hq, numeric_byte_range. auto.
Qed.

(** On a text of digits and separators, [date] looks at its three numbers only. *)
Lemma date_numeric_text s :
  forallb numeric_byte s = true →
  date s = match numericParts s with
           | None => false
           | Some (a, b, c) => validYMD a b c || validYMD c a b || validYMD c b a || validYMD a c b
           end.
Proof.
  intros Hs. unfold date. rewrite trim_space_id.
  2: { apply numeric_runes; [|done]. unfold is_space, in_rng. lia. }
  rewrite lower_string_fixed.
  2: { by apply valid_ascii, numeric_ascii. }
  2: { apply numeric_runes; [|done]. unfold lower_fixed, ascii_upper, in_rng. lia. }
  assert (forallb (λ r, negb (in_ranges space_ranges r)) (runes s) = true) as Hns.
  { apply numeric_runes; [|done]. unfold in_ranges, space_ranges, in_rng. cbn [existsb]. lia. }
  rewrite (Find_must space_ranges wordDateRe) by (apply wordDateRe_space || done).
  by rewrite (Find_must space_ranges yearFirstDateRe) by (apply yearFirstDateRe_space || done).
Qed.

Lemma number_numeric s : number s → forallb numeric_byte s = true.
Proof. intros (_ & Hd & _). revert Hd. apply forallb_impl. unfold numeric_byte. by intros b ->. Qed.

Lemma number_no_sep s : number s → forallb (λ b, negb (date_separator (byte_val b))) s = true.
Proof.
  intros (_ & Hd & _). revert Hd. apply forallb_impl.
  unfold digit_byte, ascii_digit, date_separator, in_rng. lia.
Qed.

Lemma numeric_fields s1 s2 p0 p1 p2 :
  number p0 → number p1 → number p2 → date_separator (byte_val s1) = true →
  date_separator (byte_val s2) = true →
  let s := p0 ++ s1 :: p1 ++ s2 :: p2 in
  forallb numeric_byte s = true ∧ numericParts s = Some (digits_val p0, digits_val p1, digits_val p2).
Proof.
  intros H0 H1 H2 Hs1 Hs2 s.
  assert (forallb numeric_byte s = true) as Hs.
  { unfold s. rewrite !forallb_app. cbn [forallb]. rewrite forallb_app. cbn [forallb].
    unfold numeric_byte at 2 4. rewrite Hs1, Hs2, !orb_true_r, !number_numeric; done. }
  split; [done|]. unfold s in *. rewrite forallb_app in Hs. cbn [forallb] in Hs.
  unfold numericParts.
  rewrite fields_func_cons;
    [|apply numeric_ascii; rewrite forallb_app; exact Hs|apply H0|by apply number_no_sep|done].
  apply andb_true_iff in Hs as [_ Hs]. apply andb_true_iff in Hs as [_ Hs].
  rewrite fields_func_cons;
    [|by apply numeric_ascii|apply H1|by apply number_no_sep|done].
  rewrite fields_func_last; [|by apply numeric_ascii, number_numeric|apply H2|by apply number_no_sep].
  destruct H0 as (?&?&?), H1 as (?&?&?), H2 as (?&?&?). by rewrite !atoi_digits.
Qed.
End NumericDates.

Lemma date_of_numbers `{Unicode} p0 p1 p2 s1 s2 :
  number p0 → number p1 → number p2 →
  date_separator (byte_val s1) = true → date_separator (byte_val s2) = true →
  let a := digits_val p0 in let b := digits_val p1 in let c := digits_val p2 in
  date (p0 ++ s1 :: p1 ++ s2 :: p2) = validYMD a b c || validYMD c a b || validYMD c b a || validYMD a c b.
Proof.
  intros H0 H1 H2 Hs1 Hs2. destruct (numeric_fields s1 s2 p0 p1 p2 H0 H1 H2 Hs1 Hs2) as [Hn Hp].
  rewrite date_numeric_text by done. by rewrite Hp.
Qed.

(** C27: a date written as three numbers with separators is accepted exactly when
    the numbers, with the year first or last, name a day of the Gregorian calendar
    between 1900 and 2100. *)
Theorem date_numeric_calendar `{Unicode} p0 p1 p2 s1 s2 :
  number p0 → number p1 → number p2 →
  date_separator (byte_val s1) = true → date_separator (byte_val s2) = true →
  let a := digits_val p0 in let b := digits_val p1 in let c := digits_val p2 in
  date (p0 ++ s1 :: p1 ++ s2 :: p2) = true ↔
  calendar_date a b c ∨ calendar_date c a b ∨ calendar_date c b a ∨ calendar_date a c b.
Proof.
  intros H0 H1 H2 Hs1 Hs2 a b c.
  rewrite date_of_numbers, !validYMD_calendar, !orb_true_iff, !bool_decide_eq_true by done. tauto.
Qed.

Lemma date_numeric_calendar_witness : date "29.02.2000" = true.
Proof.
  apply (date_numeric_calendar "29" "02" "2000" "."%byte "."%byte); try done;
    [..|right; right; left]; apply (bool_decide_unpack _); by vm_compute.
Defined.
