(* ===== verification/Labels.v ===== *)
(** * Package [detectors]: labels around a match

    Models the context functions of [internal/pii/detectors/regex.go] (keywords in a
    window of runes left or right of a match), [hasLeftContext] and [hasRightContext]
    of [names.go] and [dateBirthReclassify] of [dateword.go]. A result [None] is a
    run-time panic or a loop that does not end. *)

From S2P Require Import Prelude GoText Pii Keywords Regexp RegexpSyntax Pipeline.
From S2P Require Import TextUtil.

Section Labels.
Context `{Unicode}.

Definition keywordAtBoundary : bytes → Z → Z → option bool := at_boundary is_letter.
Definition lastKeywordIndex : bytes → bytes → option Z := last_keyword is_letter.
Definition firstKeywordIndex : bytes → bytes → option Z := first_keyword is_letter.

Definition dateBetweenRe : re := MustCompile
  "\d{1,2}[./-]\d{1,2}[./-]\d{2,4}|\d{4}[./-]\d{1,2}[./-]\d{1,2}|\d{1,2}\s+(?:января|февраля|марта|апреля|мая|июня|июля|августа|сентября|октября|ноября|декабря|янв|фев|мар|апр|май|июн|июл|авг|сен|сент|окт|ноя|дек)\.?\s+\d{2,4}".

Definition containsDate (s : bytes) : bool := MatchString dateBetweenRe s.

(** [if e := idx + len(kw); idx >= 0 && e > best { best = e }] *)
Definition later_end (idx : Z) (kw : bytes) (best : Z) : Z :=
  if 0 <=? idx then if best <? idx + len kw then idx + len kw else best else best.

Definition left_step (window : bytes) (best : Z) (kw : bytes) : option Z :=
  idx ← lastKeywordIndex window kw; Some (later_end idx kw best).

Definition leftContextImpl (t : Text) (pos n : Z) (keywords : list bytes) (blockDate : bool)
    : option (bool * Z) :=
  if bool_decide (keywords = []) then Some (false, 0) else
  window ← runeWindowBefore t pos n;
  best ← fold_opt (left_step window) (-1) keywords;
  if best <? 0 then Some (false, 0) else
  gap ← go_slice window best (len window);
  if blockDate && containsDate gap then Some (false, 0) else Some (true, rune_count gap).

Definition leftContext (t : Text) (pos n : Z) (keywords : list bytes) : option (bool * Z) :=
  leftContextImpl t pos n keywords true.

Definition leftContextAnyGap (t : Text) (pos n : Z) (keywords : list bytes) : option (bool * Z) :=
  leftContextImpl t pos n keywords false.

Definition right_step (window : bytes) (best : Z) (kw : bytes) : option Z :=
  idx ← firstKeywordIndex window kw;
  Some (if (0 <=? idx) && ((best <? 0) || (idx <? best)) then idx else best).

Definition rightContext (t : Text) (pos n : Z) (keywords : list bytes) : option (bool * Z) :=
  if bool_decide (keywords = []) then Some (false, 0) else
  window ← runeWindowAfter t pos n;
  best ← fold_opt (right_step window) (-1) keywords;
  if best <? 0 then Some (false, 0) else
  gap ← go_slice window 0 best;
  if containsDate gap then Some (false, 0) else Some (true, rune_count gap).

Definition denyContextLeft (t : Text) (pos n : Z) (keywords : list bytes) : option bool :=
  if bool_decide (keywords = []) then Some false else
  window ← runeWindowBefore t pos n;
  Some (existsb (str_contains window) keywords).

Definition denyContextRight (t : Text) (pos n : Z) (keywords : list bytes) : option bool :=
  if bool_decide (keywords = []) then Some false else
  window ← runeWindowAfter t pos n;
  Some (existsb (str_contains window) keywords).

Definition substring_step (window : bytes) (best : Z) (kw : bytes) : Z :=
  later_end (str_last_index window kw) kw best.

Definition leftSubstringContext (t : Text) (pos n : Z) (keywords : list bytes) : option (bool * Z) :=
  if bool_decide (keywords = []) then Some (false, 0) else
  window ← runeWindowBefore t pos n;
  let best := foldl (substring_step window) (-1) keywords in
  if best <? 0 then Some (false, 0) else
  gap ← go_slice window best (len window);
  Some (true, rune_count gap).

Definition hasLeftContext (t : Text) (pos : Z) (keywords : list bytes) (window : Z) : option bool :=
  prefix ← runeWindowBefore t pos window;
  Some (existsb (str_contains prefix) keywords).

Definition hasRightContext (t : Text) (pos : Z) (keywords : list bytes) (window : Z) : option bool :=
  suffix ← runeWindowAfter t pos window;
  Some (existsb (str_contains suffix) keywords).

Definition dateWordRightContexts : list bytes :=
  [("года рождения" : bytes); ("рождения" : bytes); ("р." : bytes); ("место рождения" : bytes)] ++ BirthContexts.

Definition dateBirthReclassify (t : Text) (start end_ : Z) : option Category :=
  '(ok, _) ← leftContext t start 120 BirthContexts;
  if ok : bool then Some CatBirthDate else
  '(ok, _) ← rightContext t end_ 40 dateWordRightContexts;
  Some (if ok : bool then CatBirthDate else CatDate).
End Labels.

Example left_label :
  leftContext (text_of "ИНН клиента: 12") 23 40 [("инн" : bytes); ("клиент" : bytes)] = Some (true, 10).
Proof. by vm_compute. Qed.

Example left_label_date :
  leftContext (text_of "ИНН от 01.02.2003: 12") 26 40 [("инн" : bytes)] = Some (false, 0).
Proof. by vm_compute. Qed.

Example right_label : rightContext (text_of "12 (cvv)") 2 40 [("cvv" : bytes)] = Some (true, 2).
Proof. by vm_compute. Qed.

(** ** The scans return *)

Section LabelFacts.
Context `{Unicode}.
Implicit Types (t : Text) (kws : list bytes).

Definition keywords_ok kws : Prop := Forall (λ kw, kw ≠ []) kws.

#[export] Instance keywords_ok_dec kws : Decision (keywords_ok kws).
Proof. unfold keywords_ok. apply _. Defined.

(** [kw] stands in the window as a word of its own, at byte [i]. *)
Definition stands_at (w kw : bytes) (i : Z) : Prop :=
  occurs_at w kw i ∧ keywordAtBoundary w i (i + len kw) = Some true.

Lemma left_fold_total w kws best :
  keywords_ok kws → -1 <= best <= len w →
  ∃ e, fold_opt (left_step w) best kws = Some e ∧ best <= e <= len w.
Proof.
  intros Hk. revert best. induction Hk as [|kw kws Hkw _ IH]; intros best Hb; cbn [fold_opt]; [some_lia|].
  unfold left_step at 2, lastKeywordIndex.
  destruct (last_keyword_total is_letter w kw Hkw) as (i & -> & Hi). cbn [mbind option_bind].
  destruct (IH (later_end i kw best)) as (e & -> & He).
  { unfold later_end. repeat case_match; lia. }
  exists e. split; [done|]. unfold later_end in He. repeat case_match; lia.
Qed.

Lemma leftContextImpl_total t pos n kws b :
  keywords_ok kws → 0 <= pos <= len (t_Raw t) → ∃ r, leftContextImpl t pos n kws b = Some r.
Proof.
  intros Hk Hpos. unfold leftContextImpl. case_bool_decide; [by eexists|].
  destruct (runeWindowBefore_total t pos n Hpos) as [w ->]. cbn [mbind option_bind].
  destruct (left_fold_total w kws (-1) Hk) as (e & -> & He).
  { pose proof (len_nonneg w). lia. }
  cbn [mbind option_bind]. destruct (e <? 0) eqn:E; [by eexists|].
  rewrite go_slice_Some by lia. cbn [mbind option_bind]. case_match; by eexists.
Qed.

(** What the fold of [rightContext] has found: the first place where a keyword
    stands, or nothing. *)
Lemma right_fold_spec w kws best :
  keywords_ok kws → -1 <= best →
  ∃ e, fold_opt (right_step w) best kws = Some e ∧
    (e = best ∨ ∃ kw, kw ∈ kws ∧ stands_at w kw e) ∧
    (∀ kw j, kw ∈ kws → stands_at w kw j → 0 <= e <= j) ∧ (0 <= best → 0 <= e <= best).
Proof.
  intros Hk. revert best. induction Hk as [|kw kws Hkw _ IH]; intros best Hb; cbn [fold_opt].
  { exists best. split_and!; [done|by left|by intros ?? ?%elem_of_nil|lia]. }
  unfold right_step at 2, firstKeywordIndex.
  destruct (first_keyword_spec is_letter w kw Hkw) as (i & -> & Hi & Hmin). cbn [mbind option_bind].
  assert (i = -1 ∨ 0 <= i) as Hi0 by (destruct Hi as [?|[[??] _]]; [by left|right; lia]).
  destruct (IH (if (0 <=? i) && ((best <? 0) || (i <? best)) then i else best)) as (e & -> & Ha & Hb' & Hc).
  { case_match; lia. }
  exists e. split; [done|]. split_and!.
  - destruct Ha as [->|(kw' & ? & ?)]; [|right; exists kw'; split; [by right|done]].
    destruct ((0 <=? i) && _) eqn:E; [|by left]. right. exists kw. split; [left|].
    destruct Hi as [?|Hi]; [lia|done].
  - intros kw' j [->|Hin]%elem_of_cons Hj; [|by eapply Hb'].
    assert (i ≠ -1 ∧ i <= j) as [Hne Hle].
    { destruct (decide (i = -1 ∨ j < i)) as [Hlt|]; [|lia]. destruct Hj as [Ho Hs].
      rewrite (Hmin j Ho Hlt : keywordAtBoundary _ _ _ = _) in Hs. done. }
    destruct ((0 <=? i) && ((best <? 0) || (i <? best))) eqn:E; lia.
  - intros Hb0. destruct ((0 <=? i) && ((best <? 0) || (i <? best))) eqn:E; lia.
Qed.

(** The keywords stand in [w], the first of them at byte [i]. *)
Definition first_label (w : bytes) kws (i : Z) : Prop :=
  (∃ kw, kw ∈ kws ∧ stands_at w kw i) ∧ ∀ kw j, kw ∈ kws → stands_at w kw j → i <= j.

Lemma rightContext_spec t pos n kws w :
  keywords_ok kws → runeWindowAfter t pos n = Some w →
  ∃ b d, rightContext t pos n kws = Some (b, d) ∧
    (b = true ↔ ∃ i, first_label w kws i ∧ containsDate (slice w 0 i) = false) ∧
    (∀ i, b = true → first_label w kws i → d = rune_count (slice w 0 i)).
Proof.
  intros Hk Hw. unfold rightContext. case_bool_decide as Hnil.
  { subst kws. exists false, 0. split_and!; [done| |done]. split; [done|].
    intros (i & [(kw & Hin & _) _] & _). by apply elem_of_nil in Hin. }
  rewrite Hw. cbn [mbind option_bind].
  destruct (right_fold_spec w kws (-1) Hk) as (e & -> & Ha & Hb & _); [lia|]. cbn [mbind option_bind].
  destruct (e <? 0) eqn:E.
  { exists false, 0. split_and!; [done| |done]. split; [done|].
    intros (i & [(kw & Hin & Hs) _] & _). specialize (Hb _ _ Hin Hs). lia. }
  destruct Ha as [->|(kw & Hin & Hs)]; [lia|].
  assert (first_label w kws e) as Hfirst.
  { split; [by exists kw|]. intros kw' j Hin' Hs'. specialize (Hb _ _ Hin' Hs'). lia. }
  assert (∀ i, first_label w kws i → i = e) as Huniq.
  { intros i [(kw' & Hin' & Hs') Hmin]. specialize (Hb _ _ Hin' Hs'). specialize (Hmin _ _ Hin Hs). lia. }
  pose proof Hs as [[Ho _] _]. rewrite go_slice_Some by lia. cbn [mbind option_bind].
  destruct (containsDate (slice w 0 e)) eqn:Ed.
  - exists false, 0. split_and!; [done| |done]. split; [done|].
    intros (i & ->%Huniq & ?). congruence.
  - exists true, (rune_count (slice w 0 e)). split_and!; [done| |].
    + split; [|done]. intros _. by exists e.
    + by intros i _ ->%Huniq.
Qed.

Lemma rightContext_total t pos n kws :
  keywords_ok kws → 0 <= pos <= len (t_Raw t) → ∃ r, rightContext t pos n kws = Some r.
Proof.
  intros Hk Hpos. destruct (runeWindowAfter_total t pos n Hpos) as [w Hw].
  destruct (rightContext_spec t pos n kws w Hk Hw) as (b & d & -> & _). by eexists.
Qed.

Lemma denyContextLeft_total t pos n kws :
  0 <= pos <= len (t_Raw t) → ∃ r, denyContextLeft t pos n kws = Some r.
Proof.
  intros Hpos. unfold denyContextLeft. case_bool_decide; [by eexists|].
  destruct (runeWindowBefore_total t pos n Hpos) as [w ->]. by eexists.
Qed.

Lemma denyContextRight_total t pos n kws :
  0 <= pos <= len (t_Raw t) → ∃ r, denyContextRight t pos n kws = Some r.
Proof.
  intros Hpos. unfold denyContextRight. case_bool_decide; [by eexists|].
  destruct (runeWindowAfter_total t pos n Hpos) as [w ->]. by eexists.
Qed.

Lemma substring_fold_bound w kws best :
  -1 <= best <= len w → best <= foldl (substring_step w) best kws <= len w.
Proof.
  revert best. induction kws as [|kw kws IH]; intros best Hb; cbn [foldl]; [lia|].
  assert (best <= substring_step w best kw <= len w) as Hs; [|specialize (IH (substring_step w best kw)); lia].
  unfold substring_step, later_end. destruct (0 <=? str_last_index w kw) eqn:E; [|lia].
  destruct (last_index_occurs w kw) as [Ho _]; [lia|]. apply occurs_at_slice in Ho as [Ho _].
  destruct (best <? _) eqn:E'; lia.
Qed.

Lemma leftSubstringContext_total t pos n kws :
  0 <= pos <= len (t_Raw t) → ∃ r, leftSubstringContext t pos n kws = Some r.
Proof.
  intros Hpos. unfold leftSubstringContext. case_bool_decide; [by eexists|].
  destruct (runeWindowBefore_total t pos n Hpos) as [w ->]. cbn [mbind option_bind].
  destruct (foldl _ _ _ <? 0) eqn:E; [by eexists|].
  pose proof (substring_fold_bound w kws (-1)). pose proof (len_nonneg w).
  rewrite go_slice_Some by lia. by eexists.
Qed.

Lemma hasLeftContext_total t pos kws n :
  0 <= pos <= len (t_Raw t) → ∃ r, hasLeftContext t pos kws n = Some r.
Proof.
  intros Hpos. unfold hasLeftContext. destruct (runeWindowBefore_total t pos n Hpos) as [w ->]. by eexists.
Qed.

Lemma hasRightContext_total t pos kws n :
  0 <= pos <= len (t_Raw t) → ∃ r, hasRightContext t pos kws n = Some r.
Proof.
  intros Hpos. unfold hasRightContext. destruct (runeWindowAfter_total t pos n Hpos) as [w ->]. by eexists.
Qed.

Lemma dateBirthReclassify_total t start end_ :
  0 <= start <= len (t_Raw t) → 0 <= end_ <= len (t_Raw t) →
  ∃ c, dateBirthReclassify t start end_ = Some c ∧ (c = CatBirthDate ∨ c = CatDate).
Proof.
  intros Hs He. unfold dateBirthReclassify.
  destruct (leftContextImpl_total t start 120 BirthContexts true) as [[ok d] Hl];
    [apply (bool_decide_unpack _); by vm_compute|done|].
  unfold leftContext. rewrite Hl. cbn [mbind option_bind].
  destruct ok; [by eauto|].
  destruct (rightContext_total t end_ 40 dateWordRightContexts) as [[ok d'] Hr];
    [apply (bool_decide_unpack _); by vm_compute|done|].
  rewrite Hr. cbn [mbind option_bind]. destruct ok; eauto.
Qed.
End LabelFacts.

(** ** Properties *)

(** [rightContext] looks at the first [n] runes behind [pos], in lower case, and
    succeeds exactly when one of the keywords stands there as a word of its own with
    no date in front of the first of them; the distance is in runes up to it. *)
Lemma rightContext_nearest `{Unicode} t pos n kws :
  keywords_ok kws → 0 <= pos <= len (t_Raw t) →
  ∃ w b d, runeWindowAfter t pos n = Some w ∧ rightContext t pos n kws = Some (b, d) ∧
    (LowerOK t = true → w = raw (take (Z.to_nat n) (chunks (slice (t_Lower t) pos (len (t_Lower t)))))) ∧
    (b = true ↔ ∃ i, first_label w kws i ∧ containsDate (slice w 0 i) = false) ∧
    (∀ i, b = true → first_label w kws i → d = rune_count (slice w 0 i)).
Proof.
  intros Hk Hpos. destruct (runeWindowAfter_total t pos n Hpos) as [w Hw].
  destruct (rightContext_spec t pos n kws w Hk Hw) as (b & d & Hr & Hb & Hd).
  exists w, b, d. split_and!; [done|done| |done|done].
  intros Hl. unfold runeWindowAfter in Hw. rewrite Hl in Hw. unfold LowerOK in Hl.
  rewrite go_slice_Some in Hw by lia. injection Hw as <-. apply firstNRunes_runes.
Qed.

Lemma rightContext_nearest_witness :
  ∃ d, rightContext (text_of "12 (cvv)") 2 40 [("cvv" : bytes)] = Some (true, d).
Proof.
  destruct (rightContext_nearest (text_of "12 (cvv)") 2 40 [("cvv" : bytes)]) as (w & b & d & _ & Hr & _).
  - apply (bool_decide_unpack _). vm_compute. exact I.
  - split; apply Z.leb_le; reflexivity.
  - exists d. rewrite Hr. destruct b; [reflexivity|]. exfalso. rewrite right_label in Hr. discriminate Hr.
Defined.

(** ** Steps that do not panic *)

Section Steps.
Context `{Unicode}.

Lemma returns_slice s lo hi : 0 <= lo <= hi → hi <= len s → returns (go_slice s lo hi) (λ r, r = slice s lo hi).
Proof. intros ? ?. rewrite go_slice_Some by lia. by apply returns_ret. Qed.

Lemma returns_onlyWhitespace text a b :
  0 <= a <= b → b <= len text →
  returns (onlyWhitespace text a b) (λ r, r = bool_decide (trim_space (slice text a b) = [])).
Proof.
  intros ? ?. unfold onlyWhitespace. rewrite go_slice_Some by lia. by apply returns_ret.
Qed.

Lemma returns_windowBefore t pos n : 0 <= pos <= len (t_Raw t) → returns (runeWindowBefore t pos n) (λ _, True).
Proof. intros Hp. by apply returns_any, runeWindowBefore_total. Qed.

Lemma returns_windowAfter t pos n : 0 <= pos <= len (t_Raw t) → returns (runeWindowAfter t pos n) (λ _, True).
Proof. intros Hp. by apply returns_any, runeWindowAfter_total. Qed.

Lemma returns_hasLeftContext t pos kws n : 0 <= pos <= len (t_Raw t) → returns (hasLeftContext t pos kws n) (λ _, True).
Proof. intros Hp. by apply returns_any, hasLeftContext_total. Qed.

Lemma returns_hasRightContext t pos kws n : 0 <= pos <= len (t_Raw t) → returns (hasRightContext t pos kws n) (λ _, True).
Proof. intros Hp. by apply returns_any, hasRightContext_total. Qed.
End Steps.

#[export] Hint Resolve returns_slice returns_onlyWhitespace returns_windowBefore returns_windowAfter : returns.
#[export] Hint Resolve returns_hasLeftContext returns_hasRightContext : returns.
