(* ===== verification/Rules.v ===== *)
(** * Package [detectors]: the rule detector

    Models [internal/pii/detectors/regex.go] but for its context functions, which are
    in [Labels]: rules, [compileRule], [detectRule] and the checks a match must pass.
    Reading a rule from YAML ([yaml.Unmarshal]) is [decode_rule] on a parsed tree; the
    syntax of YAML is not modelled. A result [None] of a detection step is a run-time
    panic or a loop that does not end. *)

From S2P Require Import Prelude GoText Float64 Pii Keywords Regexp RegexpSyntax Pipeline Validators.
From S2P Require Import TextUtil Labels.

(** ** Rules *)

Record ReclassifyRule := MkReclassify {
  rc_Context : list bytes;
  rc_ContextAfter : list bytes;
  rc_ContextWindow : Z;
  rc_ContextAfterWindow : Z;
  rc_Category : Category
}.

(** The fields that [rules.yaml] sets. *)
Record RuleYaml := MkRuleYaml {
  ru_Name : bytes;
  ru_Category : Category;
  ru_Pattern : bytes;
  ru_Validator : bytes;
  ru_ValidatorSoftContext : list bytes;
  ru_Confidence : float64;
  ru_Context : list bytes;
  ru_RequireContext : bool;
  ru_ContextWindow : Z;
  ru_ContextAfter : list bytes;
  ru_ContextAfterWindow : Z;
  ru_Group : Z;
  ru_Reclassify : list ReclassifyRule;
  ru_ReclassifyDate : bool;
  ru_RejectContext : list bytes;
  ru_RejectContextWindow : Z;
  ru_DenyContext : list bytes;
  ru_DenyContextWindow : Z;
  ru_Standalone : option bool;
  ru_NotInDigitSequence : bool;
  ru_MatchLower : bool;
  ru_ContextAllowDateGap : bool
}.

(** A rule with the fields that [compileRule] computes; it lowers the keywords of
    [Reclassify] in place. *)
Record Rule := MkRule {
  ru_yaml :> RuleYaml;
  contextWindow : Z;
  contextAfterWindow : Z;
  contextLower : list bytes;
  validatorSoftContextLower : list bytes;
  contextAfterLower : list bytes;
  rejectContextLower : list bytes;
  rejectContextWindow : Z;
  denyContextLower : list bytes;
  denyContextWindow : Z;
  reclassifyLower : list ReclassifyRule;
  ru_re : re;
  ru_reLower : option re
}.

Definition contextBonusWindow : Z := 60.
Definition softContextWindow : Z := 25.

Definition standalone (r : Rule) : bool :=
  match ru_Standalone r with None => true | Some b => b end.

(** ** rules.yaml *)

(** A parsed YAML document. *)
#[warnings="-register-all"]
Inductive yaml :=
| YStr (s : bytes)
| YInt (n : Z)
| YFloat (x : float64)
| YBool (b : bool)
| YSeq (l : list yaml)
| YMap (l : list (bytes * yaml)).

Definition yaml_str (y : option yaml) : option bytes :=
  match y with None => Some [] | Some (YStr s) => Some s | _ => None end.
Definition yaml_int (y : option yaml) : option Z :=
  match y with None => Some 0 | Some (YInt n) => Some n | _ => None end.
Definition yaml_float (y : option yaml) : option float64 :=
  match y with None => Some (f64_of_Z 0) | Some (YFloat x) => Some x | Some (YInt n) => Some (f64_of_Z n) | _ => None end.
Definition yaml_bool (y : option yaml) : option bool :=
  match y with None => Some false | Some (YBool b) => Some b | _ => None end.
Definition yaml_seq (y : option yaml) : option (list yaml) :=
  match y with None => Some [] | Some (YSeq l) => Some l | _ => None end.
Definition yaml_strs (y : option yaml) : option (list bytes) :=
  l ← yaml_seq y; mapM (λ y, yaml_str (Some y)) l.

Definition decode_reclassify (y : yaml) : option ReclassifyRule :=
  match y with
  | YMap m =>
      context ← yaml_strs (assoc "context" m);
      after ← yaml_strs (assoc "context_after" m);
      window ← yaml_int (assoc "context_window" m);
      after_window ← yaml_int (assoc "context_after_window" m);
      category ← yaml_str (assoc "category" m);
      Some (MkReclassify context after window after_window category)
  | _ => None
  end.

(** The struct tags of [Rule]. *)
Definition decode_rule (y : yaml) : option RuleYaml :=
  match y with
  | YMap m =>
      name ← yaml_str (assoc "name" m);
      category ← yaml_str (assoc "category" m);
      pattern ← yaml_str (assoc "pattern" m);
      validator ← yaml_str (assoc "validator" m);
      soft ← yaml_strs (assoc "validator_soft_context" m);
      confidence ← yaml_float (assoc "confidence" m);
      context ← yaml_strs (assoc "context" m);
      require ← yaml_bool (assoc "require_context" m);
      window ← yaml_int (assoc "context_window" m);
      after ← yaml_strs (assoc "context_after" m);
      after_window ← yaml_int (assoc "context_after_window" m);
      group ← yaml_int (assoc "group" m);
      reclassify ← (l ← yaml_seq (assoc "reclassify" m); mapM decode_reclassify l);
      reclassify_date ← yaml_bool (assoc "reclassify_date" m);
      reject ← yaml_strs (assoc "reject_context" m);
      reject_window ← yaml_int (assoc "reject_context_window" m);
      deny ← yaml_strs (assoc "deny_context" m);
      deny_window ← yaml_int (assoc "deny_context_window" m);
      standalone ← match assoc "standalone" m with
                   | None => Some None
                   | y => b ← yaml_bool y; Some (Some b)
                   end;
      digits ← yaml_bool (assoc "not_in_digit_sequence" m);
      lower ← yaml_bool (assoc "match_lower" m);
      gap ← yaml_bool (assoc "context_allow_date_gap" m);
      Some (MkRuleYaml name category pattern validator soft confidence context require window after
              after_window group reclassify reclassify_date reject reject_window deny deny_window
              standalone digits lower gap)
  | _ => None
  end.

(** The struct tag of [rulesFile]. *)
Definition decode_rules (file : yaml) : option (list RuleYaml) :=
  match file with
  | YMap m => l ← yaml_seq (assoc "rules" m); mapM decode_rule l
  | _ => None
  end.

(** ** Loading *)

Section Load.
Context `{Unicode}.

Definition lowerAll (keywords : list bytes) : list bytes := map lower_string keywords.

(** [true]: no error. *)
Definition validateRuleValidator (rule : RuleYaml) : bool :=
  bool_decide (ru_Validator rule = []) || bool_decide (is_Some (assoc (ru_Validator rule) Validators)).

Definition or_default (n d : Z) : Z := if n =? 0 then d else n.

(** [None] is an error. *)
Definition compileRule (rule : RuleYaml) : option Rule :=
  compiled ← Compile (ru_Pattern rule);
  if negb (validateRuleValidator rule) then None else
  lower ← (if ru_MatchLower rule
           then r ← Compile (go_bytes "(?i)" ++ ru_Pattern rule); Some (Some r)
           else Some None);
  Some (MkRule rule
    (or_default (ru_ContextWindow rule) 40)
    (or_default (ru_ContextAfterWindow rule) 20)
    (lowerAll (ru_Context rule))
    (lowerAll (ru_ValidatorSoftContext rule))
    (lowerAll (ru_ContextAfter rule))
    (lowerAll (ru_RejectContext rule))
    (or_default (ru_RejectContextWindow rule) 25)
    (lowerAll (ru_DenyContext rule))
    (or_default (ru_DenyContextWindow rule) 25)
    (map (λ rc, MkReclassify (lowerAll (rc_Context rc)) (lowerAll (rc_ContextAfter rc))
                  (rc_ContextWindow rc) (rc_ContextAfterWindow rc) (rc_Category rc)) (ru_Reclassify rule))
    compiled lower).

(** [LoadRules] on the parsed file. *)
Definition LoadRules (file : yaml) : option (list Rule) :=
  rules ← decode_rules file;
  mapM compileRule rules.

(** ** Checks of a match *)

(** The trimmed separators: space, dash, period, comma, NBSP, narrow NBSP. *)
Definition separator_rune (r : Z) : bool :=
  (r =? 0x20) || (r =? 0x2D) || (r =? 0x2E) || (r =? 0x2C) || (r =? 0xA0) || (r =? 0x202F).

(** One round per byte trimmed. *)
Fixpoint trim_loop (fuel : nat) (raw : bytes) (start end_ : Z) : option Z :=
  match fuel with
  | O => Some end_
  | S fuel =>
      if start <? end_ then
        s ← go_slice raw start end_;
        let '(r, size) := decode_last_rune s in
        if separator_rune r then trim_loop fuel raw start (end_ - size) else Some end_
      else Some end_
  end.

Definition trimTrailingSeparators (raw : bytes) (start end_ : Z) : option Z :=
  trim_loop (Z.to_nat (end_ - start)) raw start end_.

Definition confidenceWithContext (conf : float64) (dist : Z) : float64 :=
  let conf := f64_add conf (f64_lit 5 100) in
  f64_add conf (f64_mul (f64_lit 1 100)
    (f64_sub (f64_of_Z 1) (f64_div (f64_of_Z dist) (f64_of_Z contextBonusWindow)))).

(** [groupBounds] and [captureBounds] match again, on the text of the match alone. *)
Definition groupBounds (text : bytes) (r : re) (grp start end_ : Z) : option (Z * Z) :=
  s ← go_slice text start end_;
  match Find r s with
  | None => Some (-1, 0)
  | Some sub =>
      if Z.of_nat (NumSubexp r) <? grp then Some (-1, 0) else
      match group (Z.to_nat grp) (m_caps sub) with
      | None => Some (-1, 0)
      | Some (a, b) => Some (start + a, start + a + (b - a))
      end
  end.

(** [first] and [last] after the loop over the groups. *)
Definition capture_step (caps : captures) (fl : Z * Z) (g : nat) : Z * Z :=
  match group g caps with
  | None => fl
  | Some (a, b) => (if fst fl <? 0 then a else fst fl, b)
  end.

Definition captureBounds (text : bytes) (r : re) (start end_ : Z) : option (Z * Z) :=
  s ← go_slice text start end_;
  match Find r s with
  | None => Some (-1, 0)
  | Some sub =>
      let '(first, last) := foldl (capture_step (m_caps sub)) (-1, -1) (seq 1 (NumSubexp r)) in
      if first <? 0 then Some (-1, 0) else Some (start + first, start + first + (last - first))
  end.

Definition spanBounds (text : bytes) (r : re) (rule : Rule) (start end_ : Z) : option (Z * Z) :=
  if 0 <? ru_Group rule then groupBounds text r (ru_Group rule) start end_
  else if (0 <? NumSubexp r)%nat then captureBounds text r start end_
  else Some (start, end_).

Definition validatorPasses (name m : bytes) : bool :=
  match assoc name Validators with None => true | Some v => v m end.

Definition softContextPresent (r : Rule) (t : Text) (start : Z) : option bool :=
  if bool_decide (validatorSoftContextLower r = []) then Some false else
  '(ok, _) ← leftContext t start softContextWindow (validatorSoftContextLower r);
  Some ok.

Definition validatorSoftPassed (r : Rule) (t : Text) (start : Z) (m : bytes) : option bool :=
  if bool_decide (ru_Validator r = []) then Some false
  else if validatorPasses (ru_Validator r) m then Some false
  else softContextPresent r t start.

Definition isDigitByte (b : byte) : bool := digit_byte b.

Definition standaloneBoundary (raw : bytes) (start end_ : Z) : option bool :=
  left_digit ← (if 0 <? start then b ← go_index raw (start - 1); Some (isDigitByte b) else Some false);
  if left_digit : bool then Some false else
  right_digit ← (if end_ <? len raw then b ← go_index raw end_; Some (isDigitByte b) else Some false);
  Some (negb right_digit).

Definition allDigits (s : bytes) : bool := negb (bool_decide (s = [])) && forallb isDigitByte s.

Definition group_separator (b : byte) : bool := (byte_val b =? 0x20) || (byte_val b =? 0x2D).

(** [for tokStart > 0 && !separator(text[tokStart-1]) { tokStart-- }] *)
Fixpoint token_start (text : bytes) (i : nat) : option nat :=
  match i with
  | O => Some O
  | S j => b ← text !! j; if group_separator b then Some i else token_start text j
  end.

Definition digitGroupBefore (text : bytes) (start : Z) : option bool :=
  if start <? 2 then Some false else
  b ← go_index text (start - 1);
  if negb (group_separator b) then Some false else
  let tokEnd := start - 1 in
  tokStart ← token_start text (Z.to_nat tokEnd);
  if Z.of_nat tokStart =? tokEnd then Some false else
  tok ← go_slice text (Z.of_nat tokStart) tokEnd;
  Some (allDigits tok).

(** [for tokEnd < len(text) && !separator(text[tokEnd]) { tokEnd++ }], as a length. *)
Fixpoint token_length (s : bytes) : Z :=
  match s with
  | [] => 0
  | b :: s => if group_separator b then 0 else 1 + token_length s
  end.

Definition digitGroupAfter (text : bytes) (end_ : Z) : option bool :=
  if len text <=? end_ + 1 then Some false else
  b ← go_index text end_;
  if negb (group_separator b) then Some false else
  let tokStart := end_ + 1 in
  let tokEnd := tokStart + token_length (drop (Z.to_nat tokStart) text) in
  if tokStart =? tokEnd then Some false else
  tok ← go_slice text tokStart tokEnd;
  Some (allDigits tok).

Definition isDigitGroupAdjacent (text : bytes) (start end_ : Z) (left : bool) : option bool :=
  if left then digitGroupBefore text start else digitGroupAfter text end_.

Definition inDigitSequence (raw : bytes) (start end_ : Z) : option bool :=
  before ← isDigitGroupAdjacent raw start end_ true;
  if before : bool then Some true else isDigitGroupAdjacent raw start end_ false.

Definition rejectedByContext (r : Rule) (t : Text) (start end_ : Z) : option bool :=
  rejected ←
    (if bool_decide (rejectContextLower r = []) then Some false else
     left ← denyContextLeft t start (rejectContextWindow r) (rejectContextLower r);
     if left : bool then Some true
     else denyContextRight t end_ (rejectContextWindow r) (rejectContextLower r));
  if rejected : bool then Some true else
  if bool_decide (denyContextLower r = []) then Some false else
  '(denyOK, denyDist) ← leftSubstringContext t start (denyContextWindow r) (denyContextLower r);
  if negb denyOK then Some false else
  '(posOK, posDist) ← leftContext t start (contextWindow r) (contextLower r);
  Some (negb posOK || (denyDist <? posDist)).

(** Accepted, and accepted in spite of the validator. *)
Definition acceptsMatch (r : Rule) (t : Text) (start end_ : Z) (m : bytes) : option (bool * bool) :=
  soft ← validatorSoftPassed r t start m;
  if negb (bool_decide (ru_Validator r = [])) && negb soft && negb (validatorPasses (ru_Validator r) m)
  then Some (false, false) else
  alone ← (if standalone r then standaloneBoundary (t_Raw t) start end_ else Some true);
  if negb alone then Some (false, false) else
  sequence ← (if ru_NotInDigitSequence r then inDigitSequence (t_Raw t) start end_ else Some false);
  if sequence : bool then Some (false, false) else
  rejected ← rejectedByContext r t start end_;
  if rejected : bool then Some (false, false) else Some (true, soft).

Definition contextDistance (t : Text) (start end_ : Z) (r : Rule) : option (bool * Z) :=
  '(ok, dist) ← (if ru_ContextAllowDateGap r
                 then leftContextAnyGap t start (contextWindow r) (contextLower r)
                 else leftContext t start (contextWindow r) (contextLower r));
  if ok : bool then Some (true, dist) else
  '(ok, dist) ← rightContext t end_ (contextAfterWindow r) (contextAfterLower r);
  if ok : bool then Some (true, dist) else Some (false, 0).

(** The confidence, or nothing when the match must be skipped. *)
Definition matchConfidence (r : Rule) (t : Text) (start end_ : Z) (soft : bool) : option (option float64) :=
  let conf := if f64_eqb (ru_Confidence r) (f64_of_Z 0) then f64_lit 9 10 else ru_Confidence r in
  let conf := if soft then f64_sub conf (f64_lit 2 10) else conf in
  '(hasCtx, dist) ← contextDistance t start end_ r;
  if ru_RequireContext r && negb hasCtx && negb soft then Some None
  else Some (Some (if hasCtx : bool then confidenceWithContext conf dist else conf)).

Fixpoint reclassify_loop (t : Text) (start end_ : Z) (r : Rule) (l : list ReclassifyRule) : option Category :=
  match l with
  | [] => Some (ru_Category r)
  | rc :: l =>
      '(ok, _) ← leftContext t start (or_default (rc_ContextWindow rc) (contextWindow r)) (rc_Context rc);
      if ok : bool then Some (rc_Category rc) else
      '(ok, _) ← rightContext t end_ (or_default (rc_ContextAfterWindow rc) (contextAfterWindow r))
                   (rc_ContextAfter rc);
      if ok : bool then Some (rc_Category rc) else reclassify_loop t start end_ r l
  end.

Definition reclassify (t : Text) (start end_ : Z) (r : Rule) : option Category :=
  if ru_ReclassifyDate r then dateBirthReclassify t start end_
  else reclassify_loop t start end_ r (reclassifyLower r).

(** ** Detection *)

Definition matchText (r : Rule) (t : Text) : bytes * re :=
  match ru_reLower r with
  | Some lower =>
      if ru_MatchLower r then if LowerOK t then (t_Lower t, lower) else (t_Raw t, lower)
      else (t_Raw t, ru_re r)
  | None => (t_Raw t, ru_re r)
  end.

Definition regex_name : bytes := "regex".

(** The body of the loop of [detectRule]. *)
Definition detect_match (t : Text) (r : Rule) (text : bytes) (compiled : re) (spans : list Span) (m : found)
    : option (list Span) :=
  '(start, end_) ← spanBounds text compiled r (m_start m) (m_end m);
  if start <? 0 then Some spans else
  end_ ← trimTrailingSeparators (t_Raw t) start end_;
  m ← go_slice (t_Raw t) start end_;
  '(ok, soft) ← acceptsMatch r t start end_ m;
  if negb ok then Some spans else
  conf ← matchConfidence r t start end_ soft;
  match conf with
  | None => Some spans
  | Some conf =>
      cat ← reclassify t start end_ r;
      Some (spans ++ [MkSpan start end_ cat regex_name conf])
  end.

Definition detectRule (t : Text) (r : Rule) : option (list Span) :=
  let '(text, compiled) := matchText r t in
  fold_opt (detect_match t r text compiled) [] (FindAll compiled text).

Definition regex_DetectLower (rules : list Rule) (t : Text) : option (list Span) :=
  fold_opt (λ spans r, l ← detectRule t r; Some (spans ++ l)) [] rules.

Definition regex_Detect (rules : list Rule) (text : bytes) : option (list Span) :=
  regex_DetectLower rules (text_of text).

(** The categories in the order in which the rules name them. *)
Definition add_category (cats : list Category) (c : Category) : list Category :=
  if bool_decide (c ∈ cats) then cats else cats ++ [c].

Definition regex_Categories (rules : list Rule) : list Category :=
  foldl (λ (cats : list Category) (r : Rule), foldl (λ cats rc, add_category cats (rc_Category rc))
                     (add_category cats (ru_Category r)) (reclassifyLower r)) [] rules.

Definition NewRegexDetector (rules : list Rule) : Detector :=
  MkDetector regex_name (regex_Categories rules) (regex_Detect rules) (Some (regex_DetectLower rules)).
End Load.
