(* ===== verification/RulesSound.v ===== *)
(** * The rule detector stays within the text

    For rules whose keywords are not empty and whose capture groups come in order,
    [regexDetector] of [internal/pii/detectors/regex.go] returns on every text, and
    its spans are non-empty fragments of the text that passed the rule's checks. *)

From S2P Require Import Prelude GoText Float64 Pii Keywords Regexp RegexpSyntax Pipeline Validators.
From S2P Require Import TextUtil Labels Rules.

(** ** Trimming separators *)

(** ASCII bytes that are part of no separator. *)
Definition anchor_ranges : list (Z * Z) := [(0x30, 0x39); (0x40, 0x40)].

Definition anchor_byte (b : byte) : bool := in_ranges anchor_ranges (byte_val b).

(** An anchor between [a] and [b]. *)
Definition has_anchor (s : bytes) (a b : Z) : Prop :=
  ∃ i c, a <= i < b ∧ 0 <= i ∧ s !! Z.to_nat i = Some c ∧ anchor_byte c = true.

Lemma anchor_ascii x : in_ranges anchor_ranges x = true → 0x30 <= x <= 0x40 ∧ separator_rune x = false.
Proof. unfold in_ranges, anchor_ranges, separator_rune, in_rng. cbn [existsb]. lia. Qed.

(** Bytes of a rune above ASCII are no anchors. *)
Lemma high_no_anchor l i c : Forall (λ b, 0x80 <= byte_val b) l → l !! i = Some c → anchor_byte c = false.
Proof.
  intros Hf Hi. eapply Forall_lookup_1 in Hf; [|exact Hi]. cbv beta in Hf.
  destruct (anchor_byte c) eqn:E; [|done]. apply anchor_ascii in E. lia.
Qed.

Lemma byte_at_lookup s i c : s !! Z.to_nat i = Some c → byte_at s i = byte_val c.
Proof. unfold byte_at. by intros ->. Qed.

Lemma last_separator_anchor s r n i c :
  decode_last_rune s = (r, n) → separator_rune r = true →
  s !! i = Some c → anchor_byte c = true → Z.of_nat i < len s - n.
Proof.
  intros Hd Hr Hi Hc. pose proof (lookup_lt_Some _ _ _ Hi) as Hlt.
  assert (s ≠ []) as Hs by (by intros ->).
  pose proof (decode_last_rune_width s Hs) as Hw. rewrite Hd in Hw. cbn [snd] in Hw.
  destruct (decide (Z.of_nat i < len s - n)) as [|Hge]; [done|exfalso].
  unfold decode_last_rune in Hd. replace (len s =? 0) with false in Hd by lia.
  destruct (byte_at s (len s - 1) <? 0x80) eqn:Eb.
  { injection Hd as <- <-. assert (i = Z.to_nat (len s - 1)) as -> by (unfold len in *; lia).
    rewrite (byte_at_lookup _ _ _ Hi) in Hr. apply anchor_ascii in Hc as [_ Hc].
    by rewrite Hr in Hc. }
  set (st := last_rune_start s) in *.
  assert (0 <= st) as Hst by (unfold st, last_rune_start; repeat case_match; lia).
  destruct (decode_rune (drop (Z.to_nat st) s)) as [r' m] eqn:Em.
  destruct (st + Z.of_nat m =? len s) eqn:El; [|by injection Hd as <- _].
  injection Hd as -> <-.
  destruct (drop (Z.to_nat st) s) as [|b t] eqn:Et.
  { injection Em as <- <-. lia. }
  assert (s !! Z.to_nat st = Some b) as Hb.
  { rewrite <- (Nat.add_0_r (Z.to_nat st)), <- lookup_drop, Et. done. }
  destruct (decide (byte_val b < 0x80)) as [Hlow|Hhigh].
  - rewrite decode_rune_ascii in Em by done. injection Em as <- <-.
    replace (len s - 1) with st in Eb by lia. rewrite (byte_at_lookup _ _ _ Hb) in Eb. lia.
  - destruct (decode_rune_high b t) as [_ Hf]; [lia|]. rewrite Em in Hf. cbn [snd] in Hf.
    assert ((take m (b :: t)) !! (i - Z.to_nat st)%nat = Some c) as Hl.
    { rewrite lookup_take_lt by (unfold len in *; lia). rewrite <- Et, lookup_drop.
      by replace (Z.to_nat st + (i - Z.to_nat st))%nat with i by (unfold len in *; lia). }
    rewrite (high_no_anchor _ _ _ Hf Hl) in Hc. done.
Qed.

Lemma slice_lookup s a b i :
  0 <= a → i < b → a <= i → slice s a b !! Z.to_nat (i - a) = s !! Z.to_nat i.
Proof.
  intros. unfold slice. rewrite lookup_take_lt by lia. rewrite lookup_drop. f_equal. lia.
Qed.

Lemma trim_loop_spec fuel s a b :
  0 <= a → a <= b → b <= len s →
  ∃ e, trim_loop fuel s a b = Some e ∧ a <= e <= b ∧ (has_anchor s a b → a < e ∧ has_anchor s a e).
Proof.
  revert b. induction fuel as [|fuel IH]; intros b Ha Hab Hb; cbn [trim_loop].
  { exists b. split_and!; [done|lia|lia|]. intros (i & c & Hi & H0 & ?). split; [lia|]. by exists i, c. }
  destruct (a <? b) eqn:E.
  2: { exists b. split_and!; [done|lia|lia|]. intros (i & c & Hi & ?). lia. }
  rewrite go_slice_Some by lia. cbn [mbind option_bind].
  destruct (decode_last_rune (slice s a b)) as [r n] eqn:Ed.
  assert (len (slice s a b) = b - a) as Hl by (apply len_slice; lia).
  assert (slice s a b ≠ []) as Hne by (intros Hn; rewrite Hn, len_nil in Hl; lia).
  pose proof (decode_last_rune_width _ Hne) as Hw. rewrite Ed in Hw. cbn [snd] in Hw.
  destruct (separator_rune r) eqn:Er.
  - destruct (IH (b - n)) as (e & -> & He & Hk); [lia..|]. exists e. split_and!; [done|lia|lia|].
    intros (i & c & Hi & H0 & Hc & Hca). apply Hk. exists i, c. split_and!; [lia| |lia|done|done].
    assert (slice s a b !! Z.to_nat (i - a) = Some c) as Hi' by (by rewrite slice_lookup by lia).
    pose proof (last_separator_anchor _ _ _ _ _ Ed Er Hi' Hca). lia.
  - exists b. split_and!; [done|lia|lia|]. intros Hh. split; [lia|done].
Qed.

Lemma trim_spec s a b :
  0 <= a → a <= b → b <= len s →
  ∃ e, trimTrailingSeparators s a b = Some e ∧ a <= e <= b ∧ (has_anchor s a b → a < e).
Proof.
  intros Ha Hab Hb. destruct (trim_loop_spec (Z.to_nat (b - a)) s a b) as (e & He & ? & Hk); [done..|].
  exists e. split_and!; [exact He|lia|lia|]. intros Hh. by apply Hk.
Qed.

(** Matched runes of the ranges are anchors of the text. *)
Lemma touches_anchor s a b v : at_runes s a b v → touches anchor_ranges v → has_anchor s a b.
Proof.
  intros (u & w & Hs & -> & ->) ([r bs] & Hc & Hr). cbn [fst] in Hr.
  pose proof (chunks_ok s) as Hok. rewrite Hs in Hok.
  assert (chunk_ok (r, bs)) as Hcok.
  { rewrite Forall_forall in Hok. apply Hok. rewrite !elem_of_app. tauto. }
  pose proof (anchor_ascii r Hr) as [Hrng _].
  assert (bs = [byte_of r]) as ->.
  { destruct Hcok as [Hcok|[_ Hcok]]; [cbn [fst] in Hcok; unfold rune_error in Hcok; lia|].
    cbn [fst snd] in Hcok. by rewrite Hcok, encode_ascii by lia. }
  apply list_elem_of_split in Hc as (v1 & v2 & ->).
  assert (raw (v1 ++ (r, [byte_of r]) :: v2) = raw v1 ++ byte_of r :: raw v2) as Hraw.
  { rewrite raw_app. done. }
  assert (s = raw u ++ raw v1 ++ byte_of r :: raw v2 ++ raw w) as ->.
  { rewrite <- (raw_chunks s), Hs, !raw_app. unfold raw at 4. cbn. by rewrite <- app_assoc. }
  pose proof (len_nonneg (raw u)). pose proof (len_nonneg (raw v1)). pose proof (len_nonneg (raw v2)).
  exists (len (raw u) + len (raw v1)), (byte_of r). rewrite Hraw, len_app.
  assert (len (byte_of r :: raw v2) = 1 + len (raw v2)) as -> by (unfold len; cbn [length]; lia).
  split_and!; [lia|lia|lia| |].
  - rewrite lookup_app_r by (unfold len; lia). rewrite lookup_app_r by (unfold len; lia).
    by replace (Z.to_nat (len (raw u) + len (raw v1)) - length (raw u) - length (raw v1))%nat with O
      by (unfold len; lia).
  - unfold anchor_byte. by rewrite byte_val_of by lia.
Qed.

(** ** The bounds of a match *)

Lemma has_anchor_mono s a b a' b' : has_anchor s a b → a' <= a → b <= b' → has_anchor s a' b'.
Proof. intros (i & c & ? & ? & ?) ??. exists i, c. split; [lia|done]. Qed.

(** An anchor of a slice is an anchor of the text. *)
Lemma has_anchor_slice s a b x y :
  0 <= a → a <= b → b <= len s → 0 <= x → y <= b - a →
  has_anchor (slice s a b) x y → has_anchor s (a + x) (a + y).
Proof.
  intros Ha Hab Hb Hx Hy (i & c & Hi & H0 & Hc & Hca). exists (a + i), c.
  split_and!; [lia|lia|lia| |done].
  rewrite <- (slice_lookup s a b (a + i)) in * by lia. by replace (a + i - a) with i by lia.
Qed.

Lemma group_order caps g g' a b a' b' :
  StronglySorted after_group caps → group g caps = Some (a, b) → group g' caps = Some (a', b') →
  (g < g')%nat → b <= a'.
Proof.
  intros Hs Hg%group_in Hg'%group_in Hlt. induction Hs as [|x caps Hs IH Hx].
  { by apply elem_of_nil in Hg. }
  rewrite Forall_forall in Hx. apply elem_of_cons in Hg as [<-|Hg], Hg' as [Heq|Hg']; [| | |auto].
  - injection Heq as -> _ _. lia.
  - apply Hx in Hg' as [Hl _]. cbn [fst] in Hl. lia.
  - subst x. by apply Hx in Hg as [_ ?].
Qed.

Section Bounds.
Context `{Unicode}.
Implicit Types (s : bytes) (r : re).

(** What the loop over the groups has found after the groups [1..k]. *)
Definition capture_inv caps (k : nat) (fl : Z * Z) : Prop :=
  fl = (-1, -1) ∨ ∃ g g' ab ab', group g caps = Some ab ∧ group g' caps = Some ab' ∧
    (g <= g')%nat ∧ (g' <= k)%nat ∧ fl = (fst ab, snd ab').

Lemma capture_fold caps k :
  Forall (λ nab, 0 <= fst (snd nab)) caps →
  capture_inv caps k (foldl (capture_step caps) (-1, -1) (seq 1 k)).
Proof.
  intros Hpos. induction k as [|k IH]; [by left|].
  rewrite seq_S, foldl_app. cbn [foldl]. set (fl := foldl _ _ _) in *.
  unfold capture_step. destruct (group (1 + k) caps) as [[a b]|] eqn:E.
  - right. destruct IH as [->|(g & g' & ab & ab' & Hg & Hg' & Hle & Hk & ->)].
    + exists (1 + k)%nat, (1 + k)%nat, (a, b), (a, b). cbn [fst snd]. split_and!; [done|done|lia|lia|done].
    + exists g, (1 + k)%nat, ab, (a, b). cbn [fst snd].
      pose proof (group_in _ _ _ Hg) as Hin. rewrite Forall_forall in Hpos. specialize (Hpos _ Hin).
      cbn [fst snd] in Hpos. replace (fst ab <? 0) with false by lia. split_and!; [done|done|lia|lia|done].
  - destruct IH as [->|(g & g' & ab & ab' & ? & ? & ? & ? & ->)]; [by left|right].
    exists g, g', ab, ab'. split_and!; [done|done|done|lia|done].
Qed.

(** The pattern gives usable bounds: its groups come in order, or the rule names
    one of them. *)
Definition bounds_ok (grp : Z) r : bool := (0 <? grp) || (NumSubexp r =? 0)%nat || ordered_groups r.

Definition bounds_in (s : bytes) (lo hi : Z) r (ab : Z * Z) : Prop :=
  ab = (-1, 0) ∨ lo <= fst ab ∧ fst ab <= snd ab ∧ snd ab <= hi ∧
    (must anchor_ranges r && groups_must anchor_ranges r = true → has_anchor s (fst ab) (snd ab)).

Lemma sub_group_bounds s r lo hi sub n ab :
  0 <= lo → lo <= hi → hi <= len s → Find r (slice s lo hi) = Some sub → group n (m_caps sub) = Some ab →
  0 <= fst ab ∧ fst ab <= snd ab ∧ snd ab <= hi - lo ∧
  (groups_must anchor_ranges r = true → has_anchor s (lo + fst ab) (lo + snd ab)).
Proof.
  intros H0 Hle Hhi Hf Hg%group_in. apply (Find_in anchor_ranges) in Hf as [_ Hgs _].
  rewrite Forall_forall in Hgs. specialize (Hgs _ Hg) as (_ & _ & _ & v & Hv & Ht). cbn [fst snd] in *.
  destruct (at_runes_slice _ _ _ _ Hv) as (_ & ? & ? & Hb). rewrite len_slice in Hb by lia.
  split_and!; [lia|lia|lia|]. intros Hm. apply (has_anchor_slice s lo hi); [lia..|].
  by eapply touches_anchor, Ht.
Qed.

Lemma groupBounds_spec s r grp lo hi :
  0 <= lo → lo <= hi → hi <= len s → ∃ ab, groupBounds s r grp lo hi = Some ab ∧ bounds_in s lo hi r ab.
Proof.
  intros H0 Hle Hhi. unfold groupBounds. rewrite go_slice_Some by lia. cbn [mbind option_bind].
  destruct (Find r (slice s lo hi)) as [sub|] eqn:E; [|eexists; split; [done|by left]].
  destruct (_ <? grp); [eexists; split; [done|by left]|].
  destruct (group (Z.to_nat grp) (m_caps sub)) as [[a b]|] eqn:Eg; [|eexists; split; [done|by left]].
  destruct (sub_group_bounds s r lo hi sub _ (a, b) H0 Hle Hhi E Eg) as (? & ? & ? & Ha). cbn [fst snd] in *.
  eexists. split; [done|]. right. cbn [fst snd]. split_and!; [lia|lia|lia|].
  intros Hm. apply andb_true_iff in Hm as [_ Hm]. replace (lo + a + (b - a)) with (lo + b) by lia. auto.
Qed.

Lemma captureBounds_spec s r lo hi :
  ordered_groups r = true → 0 <= lo → lo <= hi → hi <= len s →
  ∃ ab, captureBounds s r lo hi = Some ab ∧ bounds_in s lo hi r ab.
Proof.
  intros Ho H0 Hle Hhi. unfold captureBounds. rewrite go_slice_Some by lia. cbn [mbind option_bind].
  destruct (Find r (slice s lo hi)) as [sub|] eqn:E; [|eexists; split; [done|by left]].
  pose proof (Find_in anchor_ranges r _ _ E) as [_ Hgs Hord]. specialize (Hord Ho).
  destruct (capture_fold (m_caps sub) (NumSubexp r)) as [Hf|(g & g' & ab & ab' & Hg & Hg' & Hgg & _ & Hf)].
  { eapply Forall_impl; [exact Hgs|]. intros nab (_ & _ & _ & v & Hv & _).
    by apply at_runes_slice in Hv as (_ & ? & _). }
  { rewrite Hf. eexists. split; [done|by left]. }
  rewrite Hf. destruct ab as [a b], ab' as [a' b']. cbn [fst snd].
  destruct (sub_group_bounds s r lo hi sub _ _ H0 Hle Hhi E Hg) as (? & ? & ? & Ha). cbn [fst snd] in *.
  destruct (sub_group_bounds s r lo hi sub _ _ H0 Hle Hhi E Hg') as (? & ? & ? & _). cbn [fst snd] in *.
  replace (a <? 0) with false by lia.
  assert (b <= b') as Hbb.
  { destruct (decide (g = g')) as [->|]; [rewrite Hg in Hg'; injection Hg' as -> ->; lia|].
    pose proof (group_order _ _ _ _ _ _ _ Hord Hg Hg' ltac:(lia)). lia. }
  eexists. split; [done|]. right. cbn [fst snd]. split_and!; [lia|lia|lia|].
  intros Hm. apply andb_true_iff in Hm as [_ Hm]. eapply has_anchor_mono; [by apply Ha|lia|lia].
Qed.

Lemma spanBounds_spec s r (rule : Rule) m :
  bounds_ok (ru_Group rule) r = true → match_in anchor_ranges r s m →
  ∃ ab, spanBounds s r rule (m_start m) (m_end m) = Some ab ∧ bounds_in s (m_start m) (m_end m) r ab.
Proof.
  intros Hok [(v & Hv & Ht) _ _]. destruct (at_runes_slice _ _ _ _ Hv) as (_ & ? & ? & ?).
  unfold spanBounds, bounds_ok in *. destruct (0 <? ru_Group rule) eqn:Eg.
  { by apply groupBounds_spec. }
  destruct (0 <? NumSubexp r)%nat eqn:En; [apply captureBounds_spec; try done; lia|].
  eexists. split; [done|]. right. cbn [fst snd]. split_and!; [lia|lia|lia|].
  intros Hm. apply andb_true_iff in Hm as [Hm _]. by eapply touches_anchor, Ht.
Qed.
End Bounds.

(** ** Rules that stay within the text *)

Section Rules.
Context `{Unicode}.
Implicit Types (t : Text) (r : Rule).

(** A match that is nothing but separators would be trimmed to the empty string:
    either the validator rejects it and nothing softens the rejection, or the pattern
    runs on the raw text and every match, and every group, has an anchor. *)
Definition never_empty r : bool :=
  negb (bool_decide (ru_Validator r = [])) && negb (validatorPasses (ru_Validator r) []) &&
  bool_decide (validatorSoftContextLower r = []) ||
  negb (ru_MatchLower r && bool_decide (is_Some (ru_reLower r))) &&
  must anchor_ranges (ru_re r) && groups_must anchor_ranges (ru_re r).

Record rule_ok r : Prop := {
  ro_keywords : keywords_ok (contextLower r ++ contextAfterLower r ++ validatorSoftContextLower r);
  ro_reclassify : Forall (λ rc, keywords_ok (rc_Context rc ++ rc_ContextAfter rc)) (reclassifyLower r);
  ro_bounds : bounds_ok (ru_Group r) (ru_re r) = true;
  ro_bounds_lower : ∀ lower, ru_reLower r = Some lower → bounds_ok (ru_Group r) lower = true;
  ro_never_empty : never_empty r = true
}.

(** The fragment [m] of the text passed the validator, or is excused by a label. *)
Definition validated t r (start : Z) (m : bytes) : Prop :=
  ru_Validator r = [] ∨ validatorPasses (ru_Validator r) m = true ∨ softContextPresent r t start = Some true.

Definition digit_at_index (s : bytes) (i : Z) : Prop := ∃ b, go_index s i = Some b ∧ isDigitByte b = true.

(** The categories a rule can give to a span. *)
Definition rule_category r (c : Category) : Prop :=
  if ru_ReclassifyDate r then c = CatBirthDate ∨ c = CatDate
  else c = ru_Category r ∨ c ∈ map rc_Category (reclassifyLower r).

(** What the checks of a rule have established for a span. *)
Record accepted t r (s : Span) : Prop := {
  ac_in : span_in (t_Raw t) s;
  ac_detector : sp_Detector s = regex_name;
  ac_validated : validated t r (sp_Start s) (slice (t_Raw t) (sp_Start s) (sp_End s));
  ac_alone : standalone r = true →
    ¬ digit_at_index (t_Raw t) (sp_Start s - 1) ∧ ¬ digit_at_index (t_Raw t) (sp_End s);
  ac_sequence : ru_NotInDigitSequence r = true →
    inDigitSequence (t_Raw t) (sp_Start s) (sp_End s) = Some false;
  ac_context : rejectedByContext r t (sp_Start s) (sp_End s) = Some false;
  ac_labelled : ru_RequireContext r = true →
    softContextPresent r t (sp_Start s) = Some true ∨
    ∃ d, contextDistance t (sp_Start s) (sp_End s) r = Some (true, d);
  ac_category : rule_category r (sp_Category s)
}.

Lemma keywords_ok_app (k l : list bytes) : keywords_ok (k ++ l) ↔ keywords_ok k ∧ keywords_ok l.
Proof. apply Forall_app. Qed.

Lemma softContextPresent_total t r start :
  keywords_ok (validatorSoftContextLower r) → 0 <= start <= len (t_Raw t) →
  ∃ b, softContextPresent r t start = Some b.
Proof.
  intros Hk Hs. unfold softContextPresent. case_bool_decide; [by eexists|].
  unfold leftContext.
  destruct (leftContextImpl_total t start softContextWindow _ true Hk Hs) as [[ok d] ->]. by eexists.
Qed.

Lemma validatorSoftPassed_spec t r start m :
  keywords_ok (validatorSoftContextLower r) → 0 <= start <= len (t_Raw t) →
  ∃ b, validatorSoftPassed r t start m = Some b ∧
    (b = true → softContextPresent r t start = Some true ∧ validatorSoftContextLower r ≠ []).
Proof.
  intros Hk Hs. unfold validatorSoftPassed. case_bool_decide; [by eexists|].
  destruct (validatorPasses _ m); [by eexists|].
  destruct (softContextPresent_total t r start Hk Hs) as [b Hb]. exists b. rewrite Hb. split; [done|].
  intros ->. split; [done|]. intros Hn. unfold softContextPresent in Hb.
  by rewrite bool_decide_true in Hb.
Qed.

(** One side of [standaloneBoundary]; [inside]: the index is in range. *)
Lemma digit_side raw i inside :
  (inside = true → 0 <= i < len raw) → (inside = false → ¬ 0 <= i < len raw) →
  ∃ d, (if inside : bool then b ← go_index raw i; Some (isDigitByte b) else Some false) = Some d ∧
    (d = true ↔ digit_at_index raw i).
Proof.
  intros Hin Hout. unfold digit_at_index. destruct inside.
  - destruct (go_index_some raw i) as [c ->]; [auto|]. cbn [mbind option_bind]. eexists. split; [done|].
    split; [by exists c|]. by intros (? & [= <-] & ?).
  - exists false. split; [done|]. split; [done|]. intros (c & Hc%go_index_range & _). by apply Hout in Hc.
Qed.

Lemma standaloneBoundary_spec raw a b :
  0 <= a → a <= b → b <= len raw →
  ∃ ok, standaloneBoundary raw a b = Some ok ∧
    (ok = true ↔ ¬ digit_at_index raw (a - 1) ∧ ¬ digit_at_index raw b).
Proof.
  intros Ha Hab Hb. unfold standaloneBoundary.
  destruct (digit_side raw (a - 1) (0 <? a)) as (l & -> & Hl); [lia..|].
  destruct (digit_side raw b (b <? len raw)) as (d & -> & Hd); [lia..|].
  cbn [mbind option_bind]. destruct l, d; (eexists; split; [done|]); cbn [negb]; intuition congruence.
Qed.

Lemma token_start_total text i : (i <= length text)%nat → ∃ j, token_start text i = Some j ∧ (j <= i)%nat.
Proof.
  induction i as [|i IH]; intros Hi; cbn [token_start]; [by exists O|].
  destruct (lookup_lt_is_Some_2 text i) as [b ->]; [lia|]. cbn [mbind option_bind].
  case_match; [by exists (S i)|]. destruct IH as (j & -> & ?); [lia|]. exists j. split; [done|lia].
Qed.

Lemma token_length_bound s : 0 <= token_length s <= len s.
Proof. unfold len. induction s as [|b s IH]; cbn [token_length length]; [lia|]. case_match; lia. Qed.

Lemma inDigitSequence_total raw a b :
  0 <= a → a <= b → b <= len raw → ∃ x, inDigitSequence raw a b = Some x.
Proof.
  intros Ha Hab Hb. unfold inDigitSequence, isDigitGroupAdjacent.
  assert (∃ x, digitGroupBefore raw a = Some x) as [x ->].
  { unfold digitGroupBefore. destruct (a <? 2) eqn:E; [by eexists|].
    destruct (go_index_some raw (a - 1)) as [c ->]; [lia|]. cbn [mbind option_bind].
    destruct (negb _); [by eexists|].
    destruct (token_start_total raw (Z.to_nat (a - 1))) as (j & -> & Hj); [unfold len in *; lia|].
    cbn [mbind option_bind]. destruct (_ =? _); [by eexists|]. rewrite go_slice_Some by lia. by eexists. }
  cbn [mbind option_bind]. destruct x; [by eexists|].
  unfold digitGroupAfter. destruct (len raw <=? b + 1) eqn:E; [by eexists|].
  destruct (go_index_some raw b) as [c ->]; [lia|]. cbn [mbind option_bind].
  destruct (negb _); [by eexists|]. pose proof (token_length_bound (drop (Z.to_nat (b + 1)) raw)) as Ht.
  rewrite len_drop in Ht. destruct (_ =? _); [by eexists|]. rewrite go_slice_Some by lia. by eexists.
Qed.

Lemma rejectedByContext_total t r a b :
  keywords_ok (contextLower r) → 0 <= a → a <= b → b <= len (t_Raw t) → ∃ x, rejectedByContext r t a b = Some x.
Proof.
  intros Hk Ha Hab Hb. unfold rejectedByContext.
  assert (∃ x, (if bool_decide (rejectContextLower r = []) then Some false else
     left ← denyContextLeft t a (rejectContextWindow r) (rejectContextLower r);
     if left : bool then Some true
     else denyContextRight t b (rejectContextWindow r) (rejectContextLower r)) = Some x) as [x ->].
  { case_bool_decide; [by eexists|].
    destruct (denyContextLeft_total t a (rejectContextWindow r) (rejectContextLower r)) as [y ->]; [lia|].
    cbn [mbind option_bind]. destruct y; [by eexists|]. apply denyContextRight_total. lia. }
  cbn [mbind option_bind]. destruct x; [by eexists|]. case_bool_decide; [by eexists|].
  destruct (leftSubstringContext_total t a (denyContextWindow r) (denyContextLower r)) as [[ok d] ->]; [lia|].
  cbn [mbind option_bind]. destruct ok; [|by eexists]. cbn [negb]. unfold leftContext.
  destruct (leftContextImpl_total t a (contextWindow r) (contextLower r) true Hk) as [[ok' d'] ->]; [lia|].
  by eexists.
Qed.

Lemma acceptsMatch_spec t r a b :
  rule_ok r → 0 <= a → a <= b → b <= len (t_Raw t) →
  ∃ ok soft, acceptsMatch r t a b (slice (t_Raw t) a b) = Some (ok, soft) ∧
    (ok = true → validated t r a (slice (t_Raw t) a b) ∧
      (standalone r = true → ¬ digit_at_index (t_Raw t) (a - 1) ∧ ¬ digit_at_index (t_Raw t) b) ∧
      (ru_NotInDigitSequence r = true → inDigitSequence (t_Raw t) a b = Some false) ∧
      rejectedByContext r t a b = Some false ∧ (soft = true → softContextPresent r t a = Some true) ∧
      (ru_Validator r = [] ∨ validatorPasses (ru_Validator r) (slice (t_Raw t) a b) = true ∨
       validatorSoftContextLower r ≠ [])).
Proof.
  intros Hr Ha Hab Hb. pose proof (ro_keywords _ Hr) as [Hk Hks]%keywords_ok_app.
  apply keywords_ok_app in Hks as [_ Hks]. set (m := slice (t_Raw t) a b). unfold acceptsMatch.
  destruct (validatorSoftPassed_spec t r a m Hks) as (soft & -> & Hsoft); [lia|]. cbn [mbind option_bind].
  destruct (negb (bool_decide (ru_Validator r = [])) && negb soft && _) eqn:Ev; [by eexists _, _|].
  destruct (standaloneBoundary_spec (t_Raw t) a b Ha Hab Hb) as (alone & Hal & Halone).
  assert (∃ x, (if standalone r then standaloneBoundary (t_Raw t) a b else Some true) = Some x ∧
    (x = true → standalone r = true → alone = true)) as (x & -> & Hx).
  { rewrite Hal. destruct (standalone r); by eexists. }
  cbn [mbind option_bind]. destruct x; [|by eexists _, _]. cbn [negb].
  assert (∃ y, (if ru_NotInDigitSequence r then inDigitSequence (t_Raw t) a b else Some false) = Some y ∧
      (ru_NotInDigitSequence r = true → inDigitSequence (t_Raw t) a b = Some y)) as (y & -> & Hy).
  { destruct (ru_NotInDigitSequence r); [|by eexists].
    destruct (inDigitSequence_total (t_Raw t) a b Ha Hab Hb) as [y ->]. by eexists. }
  cbn [mbind option_bind]. destruct y; [by eexists _, _|].
  destruct (rejectedByContext_total t r a b Hk Ha Hab Hb) as [z Hz]. rewrite Hz. cbn [mbind option_bind].
  destruct z; [by eexists _, _|]. exists true, soft. split; [done|]. intros _. unfold validated.
  split_and!; [|intros Hs; by apply Halone, Hx|done|done|by intros ->; apply Hsoft|];
    destruct soft; try (destruct Hsoft as [? ?]; [done|]; tauto);
    (case_bool_decide; [by left|cbn [negb andb] in Ev; right; left; by apply negb_false_iff in Ev]).
Qed.

Lemma contextDistance_total t r a b :
  rule_ok r → 0 <= a <= len (t_Raw t) → 0 <= b <= len (t_Raw t) →
  ∃ ok d, contextDistance t a b r = Some (ok, d).
Proof.
  intros Hr Ha Hb. pose proof (ro_keywords _ Hr) as [Hk Hks]%keywords_ok_app.
  apply keywords_ok_app in Hks as [Hka _]. unfold contextDistance.
  assert (∃ x, (if ru_ContextAllowDateGap r
                 then leftContextAnyGap t a (contextWindow r) (contextLower r)
                 else leftContext t a (contextWindow r) (contextLower r)) = Some x) as [[ok d] ->].
  { destruct (ru_ContextAllowDateGap r); by apply leftContextImpl_total. }
  cbn [mbind option_bind]. destruct ok; [by eexists _, _|].
  destruct (rightContext_total t b (contextAfterWindow r) _ Hka Hb) as [[ok d'] ->]. cbn [mbind option_bind].
  destruct ok; by eexists _, _.
Qed.

Lemma matchConfidence_spec t r a b soft :
  rule_ok r → 0 <= a <= len (t_Raw t) → 0 <= b <= len (t_Raw t) →
  ∃ x, matchConfidence r t a b soft = Some x ∧
    (is_Some x → ru_RequireContext r = true → soft = true ∨ ∃ d, contextDistance t a b r = Some (true, d)).
Proof.
  intros Hr Ha Hb. unfold matchConfidence.
  destruct (contextDistance_total t r a b Hr Ha Hb) as (ok & d & Hd). rewrite Hd. cbn [mbind option_bind].
  destruct (ru_RequireContext r); cbn [andb]; [|by eexists].
  destruct ok; cbn [negb andb]; [eexists; split; [done|]; eauto|].
  destruct soft; cbn [negb]; eexists; (split; [done|]); [by left|by intros []].
Qed.

Lemma reclassify_spec t r a b :
  rule_ok r → 0 <= a <= len (t_Raw t) → 0 <= b <= len (t_Raw t) →
  ∃ c, reclassify t a b r = Some c ∧ rule_category r c.
Proof.
  intros Hr Ha Hb. unfold reclassify, rule_category. destruct (ru_ReclassifyDate r).
  { by apply dateBirthReclassify_total. }
  induction (ro_reclassify _ Hr) as [|rc l [Hk Hka]%keywords_ok_app _ IH]; cbn [reclassify_loop map].
  { eexists. split; [done|by left]. }
  assert (rc_Category rc = ru_Category r ∨ rc_Category rc ∈ rc_Category rc :: map rc_Category l) as Hin
    by (right; left).
  unfold leftContext.
  destruct (leftContextImpl_total t a (or_default (rc_ContextWindow rc) (contextWindow r)) _ true Hk Ha) as [[ok d] ->].
  cbn [mbind option_bind]. destruct ok; [by eexists|].
  destruct (rightContext_total t b (or_default (rc_ContextAfterWindow rc) (contextAfterWindow r)) _ Hka Hb)
    as [[ok d'] ->].
  cbn [mbind option_bind]. destruct ok; [by eexists|].
  destruct IH as (c & -> & [?|?]); eexists; (split; [done|]); [by left|right; by right].
Qed.

(** The text and the pattern a rule runs on. *)
Lemma matchText_spec t r text compiled :
  rule_ok r → matchText r t = (text, compiled) →
  len text = len (t_Raw t) ∧ bounds_ok (ru_Group r) compiled = true ∧
  (ru_MatchLower r && bool_decide (is_Some (ru_reLower r)) = false → text = t_Raw t ∧ compiled = ru_re r).
Proof.
  intros Hr. unfold matchText. destruct (ru_reLower r) as [lower|] eqn:El.
  - rewrite bool_decide_true by (by eexists). destruct (ru_MatchLower r); cbn [andb].
    + unfold LowerOK. destruct (len (t_Lower t) =? len (t_Raw t)) eqn:E; intros [= <- <-];
        (split_and!; [lia|by apply (ro_bounds_lower _ Hr)|done]).
    + intros [= <- <-]. split_and!; [done|apply Hr|done].
  - intros [= <- <-]. split_and!; [done|apply Hr|done].
Qed.

Lemma never_empty_spec t r a b :
  never_empty r = true → 0 <= a → a <= b → b <= len (t_Raw t) →
  (ru_MatchLower r && bool_decide (is_Some (ru_reLower r)) = false →
   must anchor_ranges (ru_re r) && groups_must anchor_ranges (ru_re r) = true → a < b) →
  (ru_Validator r = [] ∨ validatorPasses (ru_Validator r) (slice (t_Raw t) a b) = true ∨
   validatorSoftContextLower r ≠ []) →
  a < b.
Proof.
  unfold never_empty. intros Hne Ha Hab Hb Hanchor Hval. apply orb_true_iff in Hne as [Hne|Hne].
  - apply andb_true_iff in Hne as [Hne Hsoft]. apply andb_true_iff in Hne as [Hv Hp].
    apply negb_true_iff in Hv, Hp. apply bool_decide_eq_false in Hv. apply bool_decide_eq_true in Hsoft.
    destruct (decide (a = b)) as [->|]; [|lia]. rewrite slice_empty, Hp in Hval. by destruct Hval as [?|[?|?]].
  - rewrite <- andb_assoc in Hne. apply andb_true_iff in Hne as [Hraw Hm]. apply negb_true_iff in Hraw. auto.
Qed.

Lemma detect_match_spec t r text compiled spans m :
  rule_ok r → matchText r t = (text, compiled) → match_in anchor_ranges compiled text m →
  ∃ l, detect_match t r text compiled spans m = Some (spans ++ l) ∧ Forall (accepted t r) l.
Proof.
  intros Hr Ht Hm. destruct (matchText_spec t r text compiled Hr Ht) as (Hlen & Hb & Hraw).
  destruct Hm as [(v & Hv & Hmust) Hg Ho] eqn:Em. clear Em.
  destruct (at_runes_slice _ _ _ _ Hv) as (_ & H1 & H2 & H3).
  destruct (spanBounds_spec text compiled r m Hb) as ([a b] & Hsb & Hab); [split; eauto|].
  unfold detect_match. rewrite Hsb. cbn [mbind option_bind].
  destruct Hab as [[= -> ->]|(Ha & Hle & Hhi & Hanchor)].
  { exists []. by rewrite app_nil_r. }
  cbn [fst snd] in *. replace (a <? 0) with false by lia.
  destruct (trim_spec (t_Raw t) a b) as (e & He & Hae & Htrim); [lia..|].
  rewrite He. cbn [mbind option_bind]. rewrite go_slice_Some by lia. cbn [mbind option_bind].
  destruct (acceptsMatch_spec t r a e Hr) as (ok & soft & -> & Hacc); [lia..|]. cbn [mbind option_bind].
  destruct ok; [|exists []; by rewrite app_nil_r]. cbn [negb].
  destruct Hacc as (Hval & Halone & Hseq & Hctx & Hsoft & Hne); [done|].
  destruct (matchConfidence_spec t r a e soft Hr) as ([conf|] & -> & Hconf);
    [lia..| |exists []; by rewrite app_nil_r].
  cbn [mbind option_bind]. destruct (reclassify_spec t r a e Hr) as (c & -> & Hc); [lia..|]. cbn [mbind option_bind].
  eexists. split; [done|]. constructor; [|done]. split; cbn [sp_Start sp_End sp_Detector sp_Category]; try done.
  2: { intros Hreq. destruct (Hconf ltac:(by eexists) Hreq) as [->|?]; auto. }
  unfold span_in. cbn [sp_Start sp_End]. split_and!; [lia| |lia].
  apply (never_empty_spec t r a e); [apply Hr|lia|lia|lia| |done].
  intros Hl Hmu. destruct (Hraw Hl) as [-> ->]. apply Htrim. auto.
Qed.

Lemma detectRule_spec t r :
  rule_ok r → ∃ l, detectRule t r = Some l ∧ Forall (accepted t r) l.
Proof.
  intros Hr. unfold detectRule. destruct (matchText r t) as [text compiled] eqn:Ht.
  destruct (FindAll_in anchor_ranges compiled text) as [Hf _].
  assert (∀ spans, Forall (accepted t r) spans →
    ∃ l, fold_opt (detect_match t r text compiled) spans (FindAll compiled text) = Some l ∧
      Forall (accepted t r) l) as Hfold; [|by apply Hfold].
  induction Hf as [|m ms Hm _ IH]; intros spans Hs; cbn [fold_opt]; [by exists spans|].
  destruct (detect_match_spec t r text compiled spans m Hr Ht Hm) as (l & -> & Hl). cbn [mbind option_bind].
  apply IH. by apply Forall_app.
Qed.

(** What the rules have established for their spans. *)
Definition found_by (rules : list Rule) t (s : Span) : Prop := ∃ r, r ∈ rules ∧ accepted t r s.

Lemma regex_DetectLower_spec rules t :
  Forall rule_ok rules → ∃ l, regex_DetectLower rules t = Some l ∧ Forall (found_by rules t) l.
Proof.
  intros Hr. unfold regex_DetectLower.
  assert (∀ rest spans, Forall rule_ok rest → (∀ r, r ∈ rest → r ∈ rules) → Forall (found_by rules t) spans →
    ∃ l, fold_opt (λ spans r, l ← detectRule t r; Some (spans ++ l)) spans rest = Some l ∧
      Forall (found_by rules t) l) as Hfold; [|by apply Hfold].
  induction rest as [|r rest IH]; intros spans Hrest Hin Hs; cbn [fold_opt]; [by exists spans|].
  apply Forall_cons_1 in Hrest as [Hr' Hrest].
  destruct (detectRule_spec t r Hr') as (l & -> & Hl). cbn [mbind option_bind]. apply IH; [done| |].
  - intros r' Hr''. apply Hin. by right.
  - apply Forall_app. split; [done|]. eapply Forall_impl; [exact Hl|]. intros s Hacc. exists r.
    split; [apply Hin; left|done].
Qed.
End Rules.
