(* ===== verification/RulesYaml.v ===== *)
(** * The rules of [internal/pii/detectors/rules.yaml]

    The embedded rule file as the tree [yaml.Unmarshal] reads, entry by entry, and the
    proof that it loads and that its rules stay within the text. *)

From S2P Require Import Prelude GoText Float64 Pii Keywords Regexp RegexpSyntax Pipeline Validators.
From S2P Require Import TextUtil Labels Rules RulesSound.

Definition field (key : bytes) (v : yaml) : bytes * yaml := (key, v).

Definition rule_phone_ru : yaml := YMap [
  field "name" (YStr "phone_ru");
  field "category" (YStr "phone");
  field "pattern" (YStr "(?i)(?:\+7|8|7)[\s\x{00A0}\x{202F}(-]*\d{3,4}[\s\x{00A0}\x{202F})-]*\d{2,3}[\s\x{00A0}\x{202F}-]*\d{2}[\s\x{00A0}\x{202F}-]*\d{2}");
  field "validator" (YStr "phone");
  field "confidence" (YFloat (f64_lit 9 10));
  field "context" (YSeq [YStr "телефон"; YStr "тел"]);
  field "reject_context" (YSeq [YStr "горячая линия"; YStr "горячей линии";
    YStr "бесплатно по россии"; YStr "служба поддержки"; YStr "поддержки банка"]);
  field "reject_context_window" (YInt 150)].

Definition rule_phone_moscow : yaml := YMap [
  field "name" (YStr "phone_moscow");
  field "category" (YStr "phone");
  field "pattern" (YStr "(?i)\(\d{3}\)[\s\x{00A0}\x{202F}-]*\d{3}[\s\x{00A0}\x{202F}-]*\d{2}[\s\x{00A0}\x{202F}-]*\d{2}");
  field "validator" (YStr "phone10");
  field "require_context" (YBool true);
  field "context_window" (YInt 40);
  field "confidence" (YFloat (f64_lit 9 10));
  field "deny_context" (YSeq [YStr "+7"; YStr "8"]);
  field "deny_context_window" (YInt 3);
  field "context" (YSeq [YStr "номер"; YStr "номеру"; YStr "номера"; YStr "тел"; YStr "телефон";
    YStr "телефону"; YStr "позвон"; YStr "позвоните"; YStr "позвонить"]);
  field "context_after" (YSeq [YStr "номер"; YStr "номеру"; YStr "номера"; YStr "тел";
    YStr "телефон"; YStr "телефону"; YStr "позвон"; YStr "позвоните"; YStr "позвонить"])].

Definition rule_phone_e164 : yaml := YMap [
  field "name" (YStr "phone_e164");
  field "category" (YStr "phone");
  field "pattern" (YStr "(?i)\+\d{1,3}[\s\x{00A0}\x{202F}-]*\d{2,3}[\s\x{00A0}\x{202F}-]*\d{3,4}[\s\x{00A0}\x{202F}-]*\d{2,4}[\s\x{00A0}\x{202F}-]*\d{2,4}");
  field "validator" (YStr "phone_e164");
  field "confidence" (YFloat (f64_lit 95 100));
  field "reject_context" (YSeq [YStr "горячая линия"; YStr "горячей линии";
    YStr "бесплатно по россии"; YStr "служба поддержки"; YStr "поддержки банка"]);
  field "reject_context_window" (YInt 150)].

Definition rule_phone_ru_mobile : yaml := YMap [
  field "name" (YStr "phone_ru_mobile");
  field "category" (YStr "phone");
  field "pattern" (YStr "(?i)\b9\d{2}[\s\x{00A0}\x{202F}-]?\d{3}[\s\x{00A0}\x{202F}-]?\d{2}[\s\x{00A0}\x{202F}-]?\d{2}\b");
  field "validator" (YStr "phone10");
  field "require_context" (YBool true);
  field "context_window" (YInt 30);
  field "confidence" (YFloat (f64_lit 9 10));
  field "context" (YSeq [YStr "телефон"; YStr "тел"; YStr "моб"; YStr "мобильный";
    YStr "номер телефона"; YStr "сотовый"; YStr "whatsapp"; YStr "telegram"]);
  field "context_after" (YSeq [YStr "телефон"; YStr "тел"; YStr "моб"; YStr "мобильный";
    YStr "номер телефона"; YStr "сотовый"; YStr "whatsapp"; YStr "telegram"])].

Definition rule_email : yaml := YMap [
  field "name" (YStr "email");
  field "category" (YStr "email");
  field "pattern" (YStr "[\p{L}\p{N}._%+\-]+@[\p{L}\p{N}.\-]+\.\p{L}{2,}");
  field "validator" (YStr "not_service_email");
  field "confidence" (YFloat (f64_lit 95 100));
  field "reject_context" (YSeq [YStr "работает круглосуточно"; YStr "служба поддержки";
    YStr "горячая линия"; YStr "поддержки банка"])].

Definition rule_inn : yaml := YMap [
  field "name" (YStr "inn");
  field "category" (YStr "inn");
  field "pattern" (YStr "(?i)\b\d{12}\b");
  field "validator" (YStr "inn");
  field "validator_soft_context" (YSeq [YStr "инн"]);
  field "confidence" (YFloat (f64_lit 9 10));
  field "context" (YSeq [YStr "инн"])].

Definition rule_inn_legal : yaml := YMap [
  field "name" (YStr "inn_legal");
  field "category" (YStr "inn");
  field "pattern" (YStr "(?i)\b\d{10}\b");
  field "validator" (YStr "inn");
  field "require_context" (YBool true);
  field "context_window" (YInt 40);
  field "confidence" (YFloat (f64_lit 9 10));
  field "context" (YSeq [YStr "инн"; YStr "юрлицо"; YStr "ип"]);
  field "reject_context" (YSeq [YStr "ооо"; YStr "ао"; YStr "пао"; YStr "кпп"; YStr "огрн";
    YStr "организац"])].

Definition rule_inn_spaced : yaml := YMap [
  field "name" (YStr "inn_spaced");
  field "category" (YStr "inn");
  field "pattern" (YStr "(?i)\b(?:\d{4}[\s\x{00A0}\x{202F}-]\d{4}[\s\x{00A0}\x{202F}-]\d{4}|\d{4}[\s\x{00A0}\x{202F}-]\d{3}[\s\x{00A0}\x{202F}-]\d{3}|\d{3}[\s\x{00A0}\x{202F}-]\d{3}[\s\x{00A0}\x{202F}-]\d{4}|\d{2}[\s\x{00A0}\x{202F}-]\d{4}[\s\x{00A0}\x{202F}-]\d{4})\b");
  field "validator" (YStr "inn");
  field "validator_soft_context" (YSeq [YStr "инн"]);
  field "require_context" (YBool true);
  field "context_window" (YInt 40);
  field "confidence" (YFloat (f64_lit 9 10));
  field "context" (YSeq [YStr "инн"]);
  field "reject_context" (YSeq [YStr "ооо"; YStr "ао"; YStr "пао"; YStr "кпп"; YStr "огрн";
    YStr "организац"]);
  field "reject_context_window" (YInt 40)].

Definition rule_card_number : yaml := YMap [
  field "name" (YStr "card_number");
  field "category" (YStr "card_number");
  field "pattern" (YStr "(?i)(?:\d[ \x{00A0}\x{202F}-]?){13,19}");
  field "validator" (YStr "luhn");
  field "validator_soft_context" (YSeq [YStr "карта"; YStr "карты"; YStr "номер карты";
    YStr "card"; YStr "pan"]);
  field "confidence" (YFloat (f64_lit 9 10));
  field "context" (YSeq [YStr "карта"; YStr "card"; YStr "номер карты"])].

Definition rule_cvv : yaml := YMap [
  field "name" (YStr "cvv");
  field "category" (YStr "cvv");
  field "pattern" (YStr "(?i)\b\d{3,4}\b");
  field "require_context" (YBool true);
  field "context_window" (YInt 60);
  field "confidence" (YFloat (f64_lit 9 10));
  field "not_in_digit_sequence" (YBool true);
  field "context" (YSeq [YStr "cvv"; YStr "cvc"; YStr "cvv2"; YStr "cvc2";
    YStr "код безопасности"; YStr "код с обратной стороны карты"; YStr "код с обратной стороны";
    YStr "код на обороте"; YStr "на обороте"; YStr "три цифры на обороте"]);
  field "context_after" (YSeq [YStr "cvv"; YStr "cvc"; YStr "cvv2"; YStr "cvc2";
    YStr "код безопасности"; YStr "код с обратной стороны карты"; YStr "код с обратной стороны";
    YStr "код на обороте"; YStr "на обороте"; YStr "три цифры на обороте"]);
  field "deny_context" (YSeq [YStr "wi-fi"; YStr "wifi"; YStr "домофон"; YStr "подъезд";
    YStr "сейф"; YStr "замок"; YStr "пароль"; YStr "сигнализац"])].

Definition rule_pin : yaml := YMap [
  field "name" (YStr "pin");
  field "category" (YStr "pin");
  field "pattern" (YStr "(?i)\b\d{4}\b");
  field "require_context" (YBool true);
  field "context_window" (YInt 50);
  field "confidence" (YFloat (f64_lit 9 10));
  field "not_in_digit_sequence" (YBool true);
  field "context" (YSeq [YStr "pin"; YStr "пин"; YStr "пин-код"; YStr "pin-код";
    YStr "код от карты"]);
  field "context_after" (YSeq [YStr "pin"; YStr "пин"; YStr "пин-код"; YStr "pin-код";
    YStr "код от карты"]);
  field "deny_context" (YSeq [YStr "wi-fi"; YStr "wifi"; YStr "домофон"; YStr "подъезд";
    YStr "сейф"; YStr "замок"; YStr "пароль"; YStr "сигнализац"])].

Definition rule_passport : yaml := YMap [
  field "name" (YStr "passport");
  field "category" (YStr "passport");
  field "pattern" (YStr "(?:серия[\s\x{00A0}\x{202F}]*:?[\s\x{00A0}\x{202F}]*(\d{4})[\s\x{00A0}\x{202F},.]*номер[\s\x{00A0}\x{202F}]*:?[\s\x{00A0}\x{202F}]*(\d{6})|паспорт[\s\x{00A0}\x{202F}]*:?[\s\x{00A0}\x{202F}]*(?:с\.[\s\x{00A0}\x{202F}]*)?(\d{4})[\s\x{00A0}\x{202F}]*(?:№|номер|н\.|ном\.)?[\s\x{00A0}\x{202F}]*(\d{6})|\b(\d{4})[\s\x{00A0}\x{202F}]+(\d{6})\b|\b(\d{4})[\s\x{00A0}\x{202F}]*(?:№|номер|н\.|ном\.)[\s\x{00A0}\x{202F}]*(\d{6})\b|\b(\d{2}[\s\x{00A0}\x{202F}]\d{2})[\s\x{00A0}\x{202F}](\d{6})\b|серия[\s\x{00A0}\x{202F}]*:?[\s\x{00A0}\x{202F}]*(\d{2}[\s\x{00A0}\x{202F}]\d{2})[\s\x{00A0}\x{202F}]*[,.]?[\s\x{00A0}\x{202F}]*(?:№|номер[\s\x{00A0}\x{202F}]*:?)[\s\x{00A0}\x{202F}]*(\d{6})|\b(\d{2}[\s\x{00A0}\x{202F}]\d{2})[\s\x{00A0}\x{202F}]*[,.]?[\s\x{00A0}\x{202F}]*(?:№|номер[\s\x{00A0}\x{202F}]*:?)[\s\x{00A0}\x{202F}]*(\d{6})\b)");
  field "validator" (YStr "passport");
  field "confidence" (YFloat (f64_lit 9 10));
  field "match_lower" (YBool true)].

Definition rule_passport_bare : yaml := YMap [
  field "name" (YStr "passport_bare");
  field "category" (YStr "passport");
  field "pattern" (YStr "(?i)\b\d{10}\b");
  field "validator" (YStr "passport");
  field "validator_soft_context" (YSeq [YStr "паспорт"; YStr "серия"]);
  field "require_context" (YBool true);
  field "context_window" (YInt 40);
  field "confidence" (YFloat (f64_lit 9 10));
  field "context" (YSeq [YStr "паспорт"; YStr "серия"; YStr "серия и номер";
    YStr "паспортные данные"])].

Definition rule_division_code : yaml := YMap [
  field "name" (YStr "division_code");
  field "category" (YStr "division_code");
  field "pattern" (YStr "(?i)\b\d{3}[\s\x{00A0}\x{202F}]*[-\x{2010}-\x{2015}][\s\x{00A0}\x{202F}]*\d{3}\b");
  field "require_context" (YBool true);
  field "context_window" (YInt 60);
  field "confidence" (YFloat (f64_lit 9 10));
  field "context" (YSeq [YStr "код подразделения"; YStr "к/п"; YStr "код подр"; YStr "код"]);
  field "context_after" (YSeq [YStr "код подразделения"; YStr "к/п"; YStr "код подр"; YStr "код"]);
  field "reject_context" (YSeq [YStr "ошибок"; YStr "ошибка"]);
  field "reject_context_window" (YInt 30)].

Definition rule_division_code_spaced : yaml := YMap [
  field "name" (YStr "division_code_spaced");
  field "category" (YStr "division_code");
  field "pattern" (YStr "(?i)\b\d{3}[\s\x{00A0}\x{202F}]+\d{3}\b");
  field "require_context" (YBool true);
  field "context_window" (YInt 30);
  field "confidence" (YFloat (f64_lit 9 10));
  field "context" (YSeq [YStr "код подразделения"; YStr "к/п"; YStr "код подр"]);
  field "context_after" (YSeq [YStr "код подразделения"; YStr "к/п"; YStr "код подр"])].

Definition rule_division_code_bare : yaml := YMap [
  field "name" (YStr "division_code_bare");
  field "category" (YStr "division_code");
  field "pattern" (YStr "(?i)\b\d{6}\b");
  field "require_context" (YBool true);
  field "context_window" (YInt 20);
  field "confidence" (YFloat (f64_lit 9 10));
  field "context" (YSeq [YStr "код подразделения"; YStr "к/п"; YStr "код подр"])].

Definition rule_driver_license : yaml := YMap [
  field "name" (YStr "driver_license");
  field "category" (YStr "driver_license");
  field "pattern" (YStr "(?i)(?:\b\d{2}[\s\x{00A0}\x{202F}]\d{2}[\s\x{00A0}\x{202F}]\d{6}\b|\b\d{4}[\s\x{00A0}\x{202F}]\d{6}\b|\b\d{2}[\s\x{00A0}\x{202F}]?[a-zа-яё]{2}[\s\x{00A0}\x{202F}]?\d{6}\b|\b\d{10}\b)");
  field "require_context" (YBool true);
  field "context_window" (YInt 40);
  field "confidence" (YFloat (f64_lit 9 10));
  field "context" (YSeq [YStr "водительское"; YStr "в/у"; YStr "ву"; YStr "права";
    YStr "удостоверение"]);
  field "context_after" (YSeq [YStr "водительское"; YStr "в/у"; YStr "ву"; YStr "права";
    YStr "удостоверение"])].

Definition rule_driver_license_labeled : yaml := YMap [
  field "name" (YStr "driver_license_labeled");
  field "category" (YStr "driver_license");
  field "pattern" (YStr "(?i)\b\d{2}[\s\x{00A0}\x{202F}]\d{2}[\s\x{00A0}\x{202F}]*(?:№|номер)[\s\x{00A0}\x{202F}]*\d{6}\b");
  field "require_context" (YBool true);
  field "context_window" (YInt 40);
  field "context_allow_date_gap" (YBool true);
  field "confidence" (YFloat (f64_lit 92 100));
  field "context" (YSeq [YStr "водительское"; YStr "в/у"; YStr "ву"; YStr "права";
    YStr "удостоверение"]);
  field "context_after" (YSeq [YStr "водительское"; YStr "в/у"; YStr "ву"; YStr "права";
    YStr "удостоверение"])].

Definition rule_snils : yaml := YMap [
  field "name" (YStr "snils");
  field "category" (YStr "snils");
  field "pattern" (YStr "(?i)(?:\b\d{3}[\s-]\d{3}[\s-]\d{3}[\s-]\d{2}\b|\b\d{11}\b)");
  field "validator" (YStr "snils");
  field "validator_soft_context" (YSeq [YStr "снилс"; YStr "страховой номер"]);
  field "require_context" (YBool true);
  field "context_window" (YInt 40);
  field "confidence" (YFloat (f64_lit 9 10));
  field "context" (YSeq [YStr "снилс"; YStr "страховой номер"]);
  field "context_after" (YSeq [YStr "снилс"; YStr "страховой номер"])].

Definition rule_foreign_passport : yaml := YMap [
  field "name" (YStr "foreign_passport");
  field "category" (YStr "foreign_passport");
  field "pattern" (YStr "(?i)(?:\b\d{2}\s\d{7}\b|\b[A-Z]{1,2}\d{7,8}\b|\b\d{9}\b)");
  field "require_context" (YBool true);
  field "context_window" (YInt 40);
  field "confidence" (YFloat (f64_lit 9 10));
  field "context" (YSeq [YStr "загранпаспорт"; YStr "загран"; YStr "заграничный паспорт";
    YStr "заграничный"; YStr "загран."; YStr "иностранный паспорт";
    YStr "паспорт иностранного гражданина"; YStr "паспорт кнр"]);
  field "context_after" (YSeq [YStr "загранпаспорт"; YStr "загран"; YStr "заграничный паспорт";
    YStr "заграничный"; YStr "загран."; YStr "иностранный паспорт";
    YStr "паспорт иностранного гражданина"; YStr "паспорт кнр"])].

Definition rule_military_id : yaml := YMap [
  field "name" (YStr "military_id");
  field "category" (YStr "id_document");
  field "pattern" (YStr "(?i)(?:^|[^А-ЯЁ])([А-ЯЁ]{2}\s?(?:№|номер)?\s?\d{7})\b");
  field "group" (YInt 1);
  field "require_context" (YBool true);
  field "context_window" (YInt 40);
  field "confidence" (YFloat (f64_lit 9 10));
  field "context" (YSeq [YStr "военный билет"; YStr "военник"; YStr "воен. билет";
    YStr "военного билета"; YStr "билет офицера запаса"; YStr "удостоверение военнослужащего"]);
  field "context_after" (YSeq [YStr "военный билет"; YStr "военник"; YStr "воен. билет";
    YStr "военного билета"; YStr "билет офицера запаса"; YStr "удостоверение военнослужащего"])].

Definition rule_residence_permit : yaml := YMap [
  field "name" (YStr "residence_permit");
  field "category" (YStr "id_document");
  field "pattern" (YStr "(?i)\b\d{2}\s?№?\s?\d{7}\b");
  field "require_context" (YBool true);
  field "context_window" (YInt 40);
  field "confidence" (YFloat (f64_lit 9 10));
  field "context" (YSeq [YStr "вид на жительство"; YStr "внж"; YStr "вида на жительство";
    YStr "разрешение на временное проживание"; YStr "рвп"]);
  field "context_after" (YSeq [YStr "вид на жительство"; YStr "внж"; YStr "вида на жительство";
    YStr "разрешение на временное проживание"; YStr "рвп"])].

Definition rule_birth_certificate : yaml := YMap [
  field "name" (YStr "birth_certificate");
  field "category" (YStr "id_document");
  field "pattern" (YStr "(?i)\b[IVX]{1,4}-[А-ЯЁ]{2}\s?№?\s?\d{6}\b");
  field "require_context" (YBool true);
  field "context_window" (YInt 40);
  field "confidence" (YFloat (f64_lit 9 10));
  field "context" (YSeq [YStr "свидетельство о рождении"; YStr "свид. о рождении";
    YStr "свидетельства о рождении"; YStr "св-во о рождении"]);
  field "context_after" (YSeq [YStr "свидетельство о рождении"; YStr "свид. о рождении";
    YStr "свидетельства о рождении"; YStr "св-во о рождении"])].

Definition rule_date : yaml := YMap [
  field "name" (YStr "date");
  field "category" (YStr "date");
  field "pattern" (YStr "(?:\b\d{1,2}[./-]\d{1,2}[./-]\d{4}\b|\b\d{4}[./-]\d{1,2}[./-]\d{1,2}\b|\b\d{1,2}\s+(?:января|февраля|марта|апреля|мая|июня|июля|августа|сентября|октября|ноября|декабря)\s+\d{4}\b(?:\s+(?:года|г\.|г))?|\b\d{1,2}(?:-го|-е|-ого|-его)\s+(?:января|февраля|марта|апреля|мая|июня|июля|августа|сентября|октября|ноября|декабря)\s+\d{4}\b|\b\d{1,2}\s+(?:янв|фев|мар|апр|мая|май|июн|июл|авг|сен|сент|окт|ноя|дек)\.?\s+\d{4}\b|\b\d{4}\s+г\.?\s*,?\s+\d{1,2}(?:-го|-е|-ого|-его)?\s+(?:января|февраля|марта|апреля|мая|июня|июля|августа|сентября|октября|ноября|декабря)|\b\d{1,2}\s+(?:january|february|march|april|may|june|july|august|september|october|november|december)\s+\d{4}\b)");
  field "validator" (YStr "date");
  field "confidence" (YFloat (f64_lit 85 100));
  field "match_lower" (YBool true);
  field "reclassify_date" (YBool true)].

Definition rule_date_word_short_year : yaml := YMap [
  field "name" (YStr "date_word_short_year");
  field "category" (YStr "date");
  field "pattern" (YStr "(?i)\b\d{1,2}(?:-го|-е|-ого|-его)\s+(?:января|февраля|марта|апреля|мая|июня|июля|августа|сентября|октября|ноября|декабря)\s+\d{2}-го(?:[^\p{L}]|$)");
  field "validator" (YStr "date_word_short_year");
  field "confidence" (YFloat (f64_lit 85 100));
  field "match_lower" (YBool true);
  field "reclassify_date" (YBool true)].

Definition rule_birth_year_labeled : yaml := YMap [
  field "name" (YStr "birth_year_labeled");
  field "category" (YStr "birth_date");
  field "pattern" (YStr "(?i)\b(?:19|20)\d{2}\s+года\s+рождения(?:[^\p{L}]|$)");
  field "confidence" (YFloat (f64_lit 6 10))].

Definition rule_birth_year : yaml := YMap [
  field "name" (YStr "birth_year");
  field "category" (YStr "birth_date");
  field "pattern" (YStr "(?i)\b(?:19|20)\d{2}\b");
  field "confidence" (YFloat (f64_lit 6 10));
  field "require_context" (YBool true);
  field "context_window" (YInt 10);
  field "context_after_window" (YInt 10);
  field "context" (YSeq [YStr "г.р."; YStr "г. р."]);
  field "context_after" (YSeq [YStr "г.р."; YStr "г. р."])].

Definition rule_date_short_year : yaml := YMap [
  field "name" (YStr "date_short_year");
  field "category" (YStr "date");
  field "pattern" (YStr "(?:\b\d{1,2}[./-]\d{1,2}[./-]\d{2}\b)");
  field "validator" (YStr "date_short_year");
  field "confidence" (YFloat (f64_lit 85 100));
  field "match_lower" (YBool true);
  field "reclassify_date" (YBool true);
  field "reject_context" (YSeq [YStr "верси"; YStr "релиз"; YStr "build"; YStr "v"]);
  field "reject_context_window" (YInt 40)].

Definition rules_yaml : yaml := YMap [field "rules" (YSeq [
  rule_phone_ru; rule_phone_moscow; rule_phone_e164; rule_phone_ru_mobile; rule_email; rule_inn;
  rule_inn_legal; rule_inn_spaced; rule_card_number; rule_cvv; rule_pin; rule_passport;
  rule_passport_bare; rule_division_code; rule_division_code_spaced; rule_division_code_bare;
  rule_driver_license; rule_driver_license_labeled; rule_snils; rule_foreign_passport;
  rule_military_id; rule_residence_permit; rule_birth_certificate; rule_date;
  rule_date_word_short_year; rule_birth_year_labeled; rule_birth_year; rule_date_short_year])].

(** ** The rules load, and stay within the text *)

Section Check.
Context `{Unicode}.

Definition pattern_ok (y : RuleYaml) (raw_text : bool) (p : re) : bool :=
  bounds_ok (ru_Group y) p &&
  (negb (bool_decide (ru_Validator y = [])) && negb (validatorPasses (ru_Validator y) []) &&
   bool_decide (ru_ValidatorSoftContext y = []) ||
   raw_text && must anchor_ranges p && groups_must anchor_ranges p).

(** A check of a rule before it is compiled. *)
Definition rule_yaml_ok (y : RuleYaml) : bool :=
  bool_decide (keywords_ok (ru_Context y ++ ru_ContextAfter y ++ ru_ValidatorSoftContext y)) &&
  bool_decide (Forall (λ rc, keywords_ok (rc_Context rc ++ rc_ContextAfter rc)) (ru_Reclassify y)) &&
  validateRuleValidator y &&
  match Compile (ru_Pattern y) with Some p => pattern_ok y (negb (ru_MatchLower y)) p | None => false end &&
  (negb (ru_MatchLower y) ||
   match Compile (go_bytes "(?i)" ++ ru_Pattern y) with Some p => pattern_ok y false p | None => false end).

Lemma lower_string_nil s : lower_string s = [] ↔ s = [].
Proof.
  split; [|by intros ->]. unfold lower_string, map_runes, encode_runes, runes. intros Hs.
  destruct s as [|b s]; [done|exfalso]. rewrite chunks_cons in Hs by done. cbn [map concat] in Hs.
  apply app_nil in Hs as [Hs _]. by apply encode_rune_nonempty in Hs.
Qed.

Lemma lowerAll_ok l : keywords_ok (lowerAll l) ↔ keywords_ok l.
Proof.
  unfold keywords_ok, lowerAll. rewrite Forall_map. split; intros Hl; (eapply Forall_impl; [exact Hl|]);
    intros kw Hkw Hn; apply Hkw; by apply lower_string_nil.
Qed.

Lemma lowerAll_nil l : lowerAll l = [] ↔ l = [].
Proof. unfold lowerAll. by destruct l. Qed.

Lemma compileRule_ok y :
  rule_yaml_ok y = true → ∃ r, compileRule y = Some r ∧ rule_ok r ∧ ru_yaml r = y.
Proof.
  unfold rule_yaml_ok, compileRule. rewrite !andb_true_iff, !bool_decide_eq_true.
  intros [[[[Hk Hrc] Hv] Hp] Hl].
  destruct (Compile (ru_Pattern y)) as [p|]; [|done]. cbn [mbind option_bind]. rewrite Hv. cbn [negb].
  unfold pattern_ok in *. apply andb_true_iff in Hp as [Hb Hp].
  assert (∃ lower, (if ru_MatchLower y then r ← Compile (go_bytes "(?i)" ++ ru_Pattern y); Some (Some r)
      else Some None) = Some lower ∧ (∀ p', lower = Some p' → bounds_ok (ru_Group y) p' = true) ∧
      (ru_MatchLower y = false → lower = None)) as (lower & -> & Hlow & Hnone).
  { destruct (ru_MatchLower y); [|by exists None]. cbn [negb orb] in Hl.
    destruct (Compile (go_bytes "(?i)" ++ ru_Pattern y)) as [p'|]; [|done]. cbn [mbind option_bind].
    apply andb_true_iff in Hl as [Hb' _]. eexists. split_and!; [done|by intros ? [= <-]|done]. }
  cbn [mbind option_bind]. eexists. split_and!; [done| |done].
  apply keywords_ok_app in Hk as [Hc [Ha Hs]%keywords_ok_app].
  split; cbn [contextLower contextAfterLower validatorSoftContextLower reclassifyLower ru_re ru_reLower ru_yaml];
    try done.
  - by rewrite !keywords_ok_app, !lowerAll_ok.
  - rewrite Forall_map. eapply Forall_impl; [exact Hrc|]. intros rc Hrc'.
    cbn [rc_Context rc_ContextAfter]. by rewrite keywords_ok_app, !lowerAll_ok, <- keywords_ok_app.
  - unfold never_empty. cbn [ru_Validator validatorSoftContextLower ru_MatchLower ru_reLower ru_re ru_yaml].
    rewrite (bool_decide_ext _ _ (lowerAll_nil (ru_ValidatorSoftContext y))).
    apply orb_true_iff in Hp as [->|Hp]; [done|]. apply orb_true_iff. right.
    destruct (ru_MatchLower y); cbn [negb andb] in *; [done|]. exact Hp.
Qed.

Lemma LoadRules_ok file ys :
  decode_rules file = Some ys → Forall (λ y, rule_yaml_ok y = true) ys →
  ∃ rules, LoadRules file = Some rules ∧ Forall rule_ok rules ∧ map ru_yaml rules = ys.
Proof.
  intros Hd Hok. unfold LoadRules. rewrite Hd. cbn [mbind option_bind]. clear Hd.
  induction Hok as [|y ys Hy _ (rules & Hl & Hr & Hm)]; [by exists []|].
  destruct (compileRule_ok y Hy) as (r & Hc & Hrok & Hry). exists (r :: rules). cbn [mapM].
  rewrite Hc. cbn [mbind option_bind]. rewrite Hl. cbn [mbind option_bind map].
  split_and!; [done|by constructor|by rewrite Hry, Hm].
Qed.

(** The rules of the file. *)
Definition default_yaml : list RuleYaml := default [] (decode_rules rules_yaml).

Lemma default_yaml_ok : decode_rules rules_yaml = Some default_yaml ∧ forallb rule_yaml_ok default_yaml = true.
Proof. split; by vm_compute. Qed.
End Check.

Lemma default_rules_load `{Unicode} : ∃ rules, LoadRules rules_yaml = Some rules ∧ Forall rule_ok rules.
Proof.
  destruct default_yaml_ok as [Hd Hok].
  destruct (LoadRules_ok rules_yaml default_yaml Hd) as (rules & Hl & Hr & _); [|exists rules; exact (conj Hl Hr)].
  apply Forall_forall. intros y Hy. rewrite forallb_forall in Hok. by apply Hok, list_elem_of_In.
Qed.

(** ** Properties *)

(** C5: the embedded rules load, and the rule detector returns on every text: each
    of its spans is a non-empty fragment of the text that the validator of its rule
    accepted (or a label excused), that is not cut out of a longer number, that no
    reject or deny keyword disqualifies, that has the label its rule requires, and
    whose category is one the rule can give. *)
Theorem default_rules_accept `{Unicode} text :
  ∃ rules spans, LoadRules rules_yaml = Some rules ∧ regex_Detect rules text = Some spans ∧
    Forall (found_by rules (text_of text)) spans.
Proof.
  destruct default_rules_load as (rules & Hl & Hr).
  destruct (regex_DetectLower_spec rules (text_of text) Hr) as (spans & Hs & Hf).
  exists rules, spans. exact (conj Hl (conj Hs Hf)).
Qed.

(** ** What the rules find *)

(** Place and category of what the embedded rules find. *)
Definition rules_find `{Unicode} (text : bytes) : option (list (Z * Z * Category)) :=
  rules ← LoadRules rules_yaml;
  spans ← regex_Detect rules text;
  Some (map (λ s, (sp_Start s, sp_End s, sp_Category s)) spans).

Example find_passport :
  rules_find "Паспорт 4510 123456, ИНН 500100732259." =
  Some [(35, 47, CatINN); (15, 26, CatPassport)].
Proof. by vm_compute. Qed.

Example find_cvv : rules_find "CVV 123, wi-fi 4567" = Some [(4, 7, CatCVV)].
Proof. by vm_compute. Qed.

(** ** Equal lengths are not equal offsets

    [LowerOK] compares lengths. A capital dotted I loses a byte in lower case and a
    capital A with stroke gains one, so a text with both passes although every offset
    in between is shifted. *)

(** A date between two letters whose lower case changes length in opposite ways is
    not found, although [LowerOK] holds; without the two letters it is. *)
Lemma LowerOK_misaligned :
  LowerOK (@text_of shifting_unicode "İ 12.05.1990 Ⱥ") = true ∧
  @rules_find shifting_unicode "İ 12.05.1990 Ⱥ" = Some [] ∧
  @rules_find shifting_unicode "I 12.05.1990 A" = Some [(2, 12, CatDate)].
Proof. split_and!; by vm_compute. Qed.
