(* ===== verification/DateWord.v ===== *)
(** * Package [detectors]: dates in words

    Models [internal/pii/detectors/dateword.go] but for [dateBirthReclassify], which is
    in [Labels]. The Go maps are lists of entries here; [sort.Slice] puts their keys in
    some order of falling length. *)

From S2P Require Import Prelude GoText Float64 Pii Regexp RegexpSyntax Pipeline Validators.
From S2P Require Import TextUtil Labels Rules RulesSound.

Definition dateWordGenUnits : list bytes :=
  [("первого" : bytes); ("второго" : bytes); ("третьего" : bytes); ("четвёртого" : bytes);
   ("пятого" : bytes); ("шестого" : bytes); ("седьмого" : bytes); ("восьмого" : bytes);
   ("девятого" : bytes); ("десятого" : bytes); ("одиннадцатого" : bytes); ("двенадцатого" : bytes);
   ("тринадцатого" : bytes); ("четырнадцатого" : bytes); ("пятнадцатого" : bytes);
   ("шестнадцатого" : bytes); ("семнадцатого" : bytes); ("восемнадцатого" : bytes);
   ("девятнадцатого" : bytes)].

Definition dateWordNomUnits : list bytes :=
  [("первое" : bytes); ("второе" : bytes); ("третье" : bytes); ("четвёртое" : bytes);
   ("пятое" : bytes); ("шестое" : bytes); ("седьмое" : bytes); ("восьмое" : bytes);
   ("девятое" : bytes); ("десятое" : bytes); ("одиннадцатое" : bytes); ("двенадцатое" : bytes);
   ("тринадцатое" : bytes); ("четырнадцатое" : bytes); ("пятнадцатое" : bytes);
   ("шестнадцатое" : bytes); ("семнадцатое" : bytes); ("восемнадцатое" : bytes);
   ("девятнадцатое" : bytes)].

(** The entries of the map, in the order in which they are written. *)
Definition buildDateWordDays : list (bytes * Z) :=
  concat (map (λ '(n, (g, m)), [(g, n); (m, n)])
    (zip (z_range 1 19) (zip dateWordGenUnits dateWordNomUnits))) ++
  [("двадцатого" : bytes, 20); ("двадцатое" : bytes, 20); ("тридцатого" : bytes, 30); ("тридцатое" : bytes, 30)] ++
  concat (map (λ '(n, (g, m)), [(go_bytes "двадцать " ++ g, 20 + n); (go_bytes "двадцать " ++ m, 20 + n)])
    (zip (z_range 1 9) (zip dateWordGenUnits dateWordNomUnits))) ++
  [(go_bytes "тридцать первого", 31); (go_bytes "тридцать первое", 31)].

Definition dateWordDays : list (bytes * Z) := buildDateWordDays.

Definition genTens : list bytes :=
  [("двадцатого" : bytes); ("тридцатого" : bytes); ("сорокового" : bytes); ("пятидесятого" : bytes);
   ("шестидесятого" : bytes); ("семидесятого" : bytes); ("восьмидесятого" : bytes); ("девяностого" : bytes)].

Definition nomTens : list bytes :=
  [("двадцать" : bytes); ("тридцать" : bytes); ("сорок" : bytes); ("пятьдесят" : bytes);
   ("шестьдесят" : bytes); ("семьдесят" : bytes); ("восемьдесят" : bytes); ("девяносто" : bytes)].

(** The round and the compound years behind [century]. *)
Definition year_forms (century : bytes) : list bytes :=
  concat (map (λ '(g, n), (century ++ g) :: map (λ u, century ++ n ++ go_bytes " " ++ u) (take 9 dateWordGenUnits))
    (zip genTens nomTens)).

Definition year_alts : list bytes :=
  map (app (go_bytes "тысяча девятьсот ")) dateWordGenUnits ++ year_forms "тысяча девятьсот " ++
  [go_bytes "двухтысячного"] ++
  map (app (go_bytes "две тысячи ")) dateWordGenUnits ++ year_forms "две тысячи ".

Definition longer (a b : bytes) : bool := len b <? len a.

#[export] Instance longer_order : WeakOrder longer.
Proof. split; unfold longer; intros; lia. Qed.

(** [`(?:` + strings.Join(alts, "|") + `)`] *)
Definition alternation (alts : list bytes) : bytes :=
  go_bytes "(?:" ++ join_words "|" alts ++ go_bytes ")".

Definition datewords_name : bytes := "datewords".

Section DateWords.
Context `{Unicode} `{SliceSort}.

Definition buildDateWordDayRe : bytes := alternation (sort_slice longer (map fst dateWordDays)).

Definition buildDateWordYearRe : bytes :=
  alternation (sort_slice longer year_alts ++ [go_bytes "\d{4}"]).

Definition buildMonthAlt : bytes := alternation (sort_slice longer (map fst monthNames)).

(** The pattern, which is also what [dateWordsRe.String()] returns. *)
Definition dateWordsPattern : bytes :=
  go_bytes "(" ++ buildDateWordDayRe ++ go_bytes ")\s+" ++ buildMonthAlt ++ go_bytes "\s+" ++
  buildDateWordYearRe ++ go_bytes "(?:\s+(?:года|г\.|г))?".

Definition buildDateWordsRe : re := MustCompile dateWordsPattern.

Definition dateWordsRe : re := buildDateWordsRe.

Definition dateWordDayValid (day : bytes) : bool :=
  match assoc day dateWordDays with Some n => n <=? 31 | None => false end.

Definition dateWordBoundary (raw : bytes) (start end_ : Z) : option bool :=
  before ← (if 0 <? start then
              prefix ← go_slice raw 0 start;
              Some (isLetterRune (fst (decode_last_rune prefix)))
            else Some false);
  if before : bool then Some false else
  if end_ <? len raw then
    rest ← go_slice raw end_ (len raw);
    let r := fst (decode_rune rest) in
    Some (negb (isLetterRune r || in_rng 0x30 0x39 r))
  else Some true.

Definition precededByDayTens (search : bytes) (start : Z) : option bool :=
  if start <? 9 then Some false else
  prefix ← go_slice search 0 start;
  Some (existsb (has_suffix prefix) [go_bytes "двадцать "; go_bytes "тридцать "]).

Definition acceptMatch (t : Text) (search : bytes) (start end_ : Z) : option bool :=
  boundary ← dateWordBoundary (t_Raw t) start end_;
  if negb boundary then Some false else
  tens ← precededByDayTens search start;
  if tens : bool then Some false else
  m ← go_slice search start end_;
  match Find dateWordsRe m with
  | None => Some false
  | Some sub =>
      match group 1 (m_caps sub) with
      | None => Some false
      | Some (a, b) => day ← go_slice search (start + a) (start + b); Some (dateWordDayValid day)
      end
  end.

(** The body of the loop of [DetectLower]. *)
Definition dateword_match (t : Text) (search : bytes) (spans : list Span) (m : found) : option (list Span) :=
  end_ ← trimTrailingSeparators (t_Raw t) (m_start m) (m_end m);
  ok ← acceptMatch t search (m_start m) end_;
  if negb ok then Some spans else
  cat ← dateBirthReclassify t (m_start m) end_;
  Some (spans ++ [MkSpan (m_start m) end_ cat datewords_name (f64_lit 85 100)]).

Definition dateword_DetectLower (t : Text) : option (list Span) :=
  let search := if LowerOK t then t_Lower t else t_Raw t in
  fold_opt (dateword_match t search) [] (FindAll dateWordsRe search).

Definition dateword_Detect (text : bytes) : option (list Span) := dateword_DetectLower (text_of text).

Definition NewDateWordsDetector : Detector :=
  MkDetector datewords_name [CatDate; CatBirthDate] dateword_Detect (Some dateword_DetectLower).
End DateWords.

Example dateword_birth :
  dateword_Detect "Родилась двадцать первого марта две тысячи пятого года" =
  Some [MkSpan 17 101 CatBirthDate datewords_name (f64_lit 85 100)].
Proof. by vm_compute. Qed.

Example dateword_compound_day :
  dateword_Detect "тридцать второго марта 1985" = Some [].
Proof. by vm_compute. Qed.

(** ** The detector returns, and its spans are dates of valid days *)

Section DateWordFacts.
Context `{Unicode} `{SliceSort}.

Lemma dateWordBoundary_total raw a b :
  0 <= a → a <= b → b <= len raw → ∃ x, dateWordBoundary raw a b = Some x.
Proof.
  intros Ha Hab Hb. unfold dateWordBoundary.
  destruct (0 <? a) eqn:Ea; [rewrite (go_slice_Some raw 0 a) by lia|]; cbn [mbind option_bind];
    [case_match; [by eexists|]|];
    (destruct (b <? len raw) eqn:Eb; [rewrite (go_slice_Some raw b (len raw)) by lia|]); by eexists.
Qed.

(** What a reported date has been checked for. *)
Definition date_of_day (search : bytes) (s : Span) : Prop :=
  ∃ a b, sp_Start s <= a ∧ b <= sp_End s ∧ dateWordDayValid (slice search a b) = true.

Lemma acceptMatch_spec t search a b :
  0 <= a → a <= b → b <= len (t_Raw t) → len search = len (t_Raw t) →
  ∃ ok, acceptMatch t search a b = Some ok ∧
    (ok = true → ∃ x y, a <= x ∧ x <= y ∧ y <= b ∧ dateWordDayValid (slice search x y) = true).
Proof.
  intros Ha Hab Hb Hl. unfold acceptMatch.
  destruct (dateWordBoundary_total (t_Raw t) a b Ha Hab Hb) as [bd ->]. cbn [mbind option_bind].
  destruct bd; [|by eexists]. cbn [negb].
  assert (∃ x, precededByDayTens search a = Some x) as [x ->].
  { unfold precededByDayTens. destruct (a <? 9); [by eexists|]. rewrite go_slice_Some by lia. by eexists. }
  cbn [mbind option_bind]. destruct x; [by eexists|]. rewrite go_slice_Some by lia. cbn [mbind option_bind].
  destruct (Find dateWordsRe (slice search a b)) as [sub|] eqn:E; [|by eexists].
  destruct (group 1 (m_caps sub)) as [[x y]|] eqn:Eg; [|by eexists].
  destruct (sub_group_bounds search dateWordsRe a b sub 1 (x, y)) as (? & ? & ? & _); [lia..|done|done|].
  cbn [fst snd] in *. rewrite go_slice_Some by lia. cbn [mbind option_bind]. eexists. split; [done|].
  intros Hv. exists (a + x), (a + y). split_and!; [lia|lia|lia|done].
Qed.

Lemma dateWordDayValid_nil : dateWordDayValid [] = false.
Proof. by vm_compute. Qed.

Lemma dateword_match_spec t search spans m :
  len search = len (t_Raw t) → match_in anchor_ranges dateWordsRe search m →
  ∃ l, dateword_match t search spans m = Some (spans ++ l) ∧
    Forall (λ s, span_in (t_Raw t) s ∧ date_of_day search s ∧ (sp_Category s = CatBirthDate ∨ sp_Category s = CatDate)) l.
Proof.
  intros Hl [(v & Hv & _) _ _]. destruct (at_runes_slice _ _ _ _ Hv) as (_ & H1 & H2 & H3).
  unfold dateword_match. destruct (trim_spec (t_Raw t) (m_start m) (m_end m)) as (e & -> & He & _); [lia..|].
  cbn [mbind option_bind].
  destruct (acceptMatch_spec t search (m_start m) e) as (ok & -> & Hok); [lia..|]. cbn [mbind option_bind].
  destruct ok; [|exists []; by rewrite app_nil_r]. cbn [negb].
  destruct (dateBirthReclassify_total t (m_start m) e) as (c & -> & Hc); [lia..|]. cbn [mbind option_bind].
  destruct Hok as (x & y & ? & ? & ? & Hday); [done|].
  eexists. split; [done|]. constructor; [|done]. unfold span_in, date_of_day. cbn [sp_Start sp_End sp_Category].
  split_and!; [lia| |lia|by exists x, y|done].
  destruct (decide (x = y)) as [->|]; [|lia]. by rewrite slice_empty, dateWordDayValid_nil in Hday.
Qed.

Lemma dateword_spec t :
  ∃ l, dateword_DetectLower t = Some l ∧
    Forall (λ s, span_in (t_Raw t) s ∧ date_of_day (if LowerOK t then t_Lower t else t_Raw t) s ∧
      (sp_Category s = CatBirthDate ∨ sp_Category s = CatDate)) l.
Proof.
  unfold dateword_DetectLower. set (search := if LowerOK t then t_Lower t else t_Raw t).
  assert (len search = len (t_Raw t)) as Hl.
  { unfold search, LowerOK. destruct (_ =? _) eqn:E; lia. }
  destruct (FindAll_in anchor_ranges dateWordsRe search) as [Hf _].
  generalize (@nil Span) (Forall_nil_2 (λ s, span_in (t_Raw t) s ∧ date_of_day search s ∧
      (sp_Category s = CatBirthDate ∨ sp_Category s = CatDate))).
  induction Hf as [|m ms Hm _ IH]; intros spans Hs; cbn [fold_opt]; [by exists spans|].
  destruct (dateword_match_spec t search spans m Hl Hm) as (l & -> & Hl'). cbn [mbind option_bind].
  apply IH. by apply Forall_app.
Qed.
End DateWordFacts.
