(* ===== verification/Cardholder.v ===== *)
(** * Package [detectors]: card holders

    Models [internal/pii/detectors/cardholder.go]: runs of two to four Latin words
    next to a card number or a card-holder label. *)

From S2P Require Import Prelude GoText Float64 Pii Regexp RegexpSyntax Pipeline Validators.
From S2P Require Import TextUtil Tokens Labels.

Definition cardholderStop : list bytes :=
  [("VISA" : bytes); ("MASTERCARD" : bytes); ("MIR" : bytes); ("CVV" : bytes); ("CVC" : bytes);
   ("PIN" : bytes); ("LLC" : bytes); ("LTD" : bytes); ("OOO" : bytes); ("PAO" : bytes); ("AO" : bytes);
   ("INN" : bytes); ("USD" : bytes); ("EUR" : bytes); ("RUB" : bytes);
   ("CARD" : bytes); ("VALID" : bytes); ("THRU" : bytes); ("EXP" : bytes); ("NO" : bytes)].

Definition cardholderContext : list bytes :=
  [("держатель" : bytes); ("держателя" : bytes); ("держателю" : bytes); ("держателем" : bytes);
   ("владелец карты" : bytes); ("cardholder" : bytes); ("card holder" : bytes);
   ("name on card" : bytes); ("имя на карте" : bytes); ("имя держателя" : bytes); ("на имя" : bytes);
   ("эмбоссированное имя" : bytes); ("cardholder:" : bytes)].

Definition cardNumRe : re := MustCompile "(?:\d[ -]?){13,19}".

Definition cardholder_name : bytes := "cardholder".

Section Cardholder.
Context `{Unicode}.

(** The loop over the runes with their byte positions; the number of letters, or
    nothing when a rune is not allowed. *)
Fixpoint word_letters (n i : Z) (cs : list chunk) : option Z :=
  match cs with
  | [] => Some 0
  | (r, b) :: cs =>
      if isLatinLetter r then Z.succ <$> word_letters n (i + len b) cs
      else if (r =? 0x2D) && (0 <? i) && (i <? n - 1) then word_letters n (i + len b) cs
      else None
  end.

Definition isCardholderWord (s : bytes) : bool :=
  if bool_decide (upper_string s ∈ cardholderStop) then false
  else if bool_decide (s = []) then false
  else match word_letters (len s) 0 (chunks s) with
       | Some letterCount => 1 <=? letterCount
       | None => false
       end.

Definition isAllUpper (s : bytes) : bool :=
  negb (bool_decide (s = [])) && forallb (λ r, isLatinLetter r && in_rng 0x41 0x5A r) (runes s).

Definition hasCardNumber (text : bytes) : bool :=
  existsb (λ m, luhn (slice text (m_start m) (m_end m))) (FindAll cardNumRe text).

Definition all_upper (seq : list token) : bool := forallb (λ tok, isAllUpper (tk_text tok)) seq.

Definition validCardholder (seq : list token) (t : Text) (hasCard : bool) : option bool :=
  if negb (existsb (λ tok, 2 <=? rune_count (tk_text tok)) seq) then Some false
  else if all_upper seq && hasCard then Some true
  else
    first ← head seq;
    left ← hasLeftContext t (tk_start first) cardholderContext 30;
    if left : bool then Some true else
    last ← last seq;
    hasRightContext t (tk_end last) cardholderContext 30.

Definition cardholderConfidence (seq : list token) (t : Text) (hasCard : bool) : option float64 :=
  if negb (all_upper seq) then Some (f64_lit 85 100)
  else if hasCard then Some (f64_lit 95 100)
  else
    first ← head seq;
    left ← hasLeftContext t (tk_start first) cardholderContext 30;
    Some (if left : bool then f64_lit 95 100 else f64_lit 85 100).

(** The [n] tokens behind [prev], each behind whitespace only; [None] inside: the
    run is broken. *)
Fixpoint whitespace_run (text : bytes) (prev : token) (l : list token) : option (option (list token)) :=
  match l with
  | [] => Some (Some [])
  | tok :: l =>
      ws ← onlyWhitespace text (tk_end prev) (tk_start tok);
      if ws : bool then
        rest ← whitespace_run text tok l;
        Some (option_map (cons tok) rest)
      else Some None
  end.

(** [cands] are the candidate tokens from index [i] on. *)
Definition tryN (text : bytes) (cands : list token) (t : Text) (hasCard : bool) (n : nat)
    : option (option Span) :=
  if (length cands <? n)%nat then Some None else
  match take n cands with
  | [] => Some None
  | first :: rest =>
      run ← whitespace_run text first rest;
      match run with
      | None => Some None
      | Some rest =>
          let seq := first :: rest in
          ok ← validCardholder seq t hasCard;
          if negb ok then Some None else
          last ← last seq;
          conf ← cardholderConfidence seq t hasCard;
          Some (Some (MkSpan (tk_start first) (tk_end last) CatCardHolder cardholder_name conf))
      end
  end.

(** [for n := 4; n >= 2; n--]: the longest run first. *)
Fixpoint try_lengths (text : bytes) (cands : list token) (t : Text) (hasCard : bool) (ns : list nat)
    : option (option (Span * nat)) :=
  match ns with
  | [] => Some None
  | n :: ns =>
      found ← tryN text cands t hasCard n;
      match found with
      | Some span => Some (Some (span, n))
      | None => try_lengths text cands t hasCard ns
      end
  end.

(** Every round drops a candidate. *)
Fixpoint cardholder_loop (fuel : nat) (text : bytes) (cands : list token) (t : Text) (hasCard : bool)
    : option (list Span) :=
  match fuel, cands with
  | S fuel, _ :: rest =>
      found ← try_lengths text cands t hasCard [4%nat; 3%nat; 2%nat];
      match found with
      | Some (span, n) =>
          spans ← cardholder_loop fuel text (drop n cands) t hasCard;
          Some (span :: spans)
      | None => cardholder_loop fuel text rest t hasCard
      end
  | _, _ => Some []
  end.

Definition cardholder_DetectLower (t : Text) : option (list Span) :=
  let text := t_Raw t in
  let cands := List.filter (λ tok, isCardholderWord (tk_text tok)) (tokenize text) in
  cardholder_loop (length cands) text cands t (hasCardNumber text).

Definition cardholder_Detect (text : bytes) : option (list Span) := cardholder_DetectLower (text_of text).

Definition NewCardholderDetector : Detector :=
  MkDetector cardholder_name [CatCardHolder] cardholder_Detect (Some cardholder_DetectLower).
End Cardholder.

Example cardholder_embossed :
  cardholder_Detect "4111 1111 1111 1111 IVAN PETROV VISA" =
  Some [MkSpan 20 31 CatCardHolder cardholder_name (f64_lit 95 100)].
Proof. by vm_compute. Qed.

Example cardholder_none : cardholder_Detect "Dear Ivan Petrov" = Some [].
Proof. by vm_compute. Qed.

(** ** The detector returns, and its spans are runs of words *)

Section CardholderFacts.
Context `{Unicode}.

(** Between the neighbours of [seq] there is only white space. *)
Fixpoint blanks_between (text : bytes) (seq : list token) : Prop :=
  match seq with
  | a :: (b :: _) as rest => onlyWhitespace text (tk_end a) (tk_start b) = Some true ∧ blanks_between text rest
  | _ => True
  end.

(** The name of a card holder: two to four words with white space between them, one of
    them of two runes at least; and what speaks for it: capitals only with a card number
    in the text, or a label on the left of the first word or on the right of the last. *)
Record holder (t : Text) (hasCard : bool) (seq : list token) : Prop := {
  ho_count : (2 <= length seq <= 4)%nat;
  ho_blanks : blanks_between (t_Raw t) seq;
  ho_long : ∃ tok, tok ∈ seq ∧ 2 <= rune_count (tk_text tok);
  ho_evidence :
    (hasCard = true ∧ Forall (λ tok, isAllUpper (tk_text tok) = true) seq) ∨
    (∃ a, head seq = Some a ∧ hasLeftContext t (tk_start a) cardholderContext 30 = Some true) ∨
    (∃ b, last seq = Some b ∧ hasRightContext t (tk_end b) cardholderContext 30 = Some true)
}.

(** The span of [seq]. *)
Record holder_span (seq : list token) (s : Span) : Prop := {
  hs_start : ∃ a, head seq = Some a ∧ sp_Start s = tk_start a;
  hs_end : ∃ b, last seq = Some b ∧ sp_End s = tk_end b;
  hs_category : sp_Category s = CatCardHolder
}.

Lemma whitespace_run_spec text prev l :
  words_of text (prev :: l) →
  (whitespace_run text prev l = Some (Some l) ∧ blanks_between text (prev :: l)) ∨
  (whitespace_run text prev l = Some None ∧ ¬ blanks_between text (prev :: l)).
Proof.
  revert prev. induction l as [|tok l IH]; intros prev Hw; cbn [whitespace_run]; [by left|].
  change (blanks_between text (prev :: tok :: l)) with
    (onlyWhitespace text (tk_end prev) (tk_start tok) = Some true ∧ blanks_between text (tok :: l)).
  pose proof Hw as [Hf Hs]. apply StronglySorted_inv in Hs as [_ Hs].
  apply Forall_cons_1 in Hf as [Hp Hf]. apply Forall_inv in Hf, Hs.
  assert (∃ b, onlyWhitespace text (tk_end prev) (tk_start tok) = Some b) as [ws ->].
  { unfold onlyWhitespace. rewrite go_slice_Some by lia. by eexists. }
  cbn [mbind option_bind]. destruct ws; [|right; by split; [|intros [? _]]].
  destruct (IH tok) as [[-> Hb]|[-> Hb]]; [by eapply words_of_tail|left|right]; cbn [mbind option_bind option_map]; tauto.
Qed.

Lemma all_upper_Forall seq : all_upper seq = true ↔ Forall (λ tok, isAllUpper (tk_text tok) = true) seq.
Proof.
  unfold all_upper. rewrite forallb_forall, Forall_forall. by setoid_rewrite list_elem_of_In.
Qed.

Lemma validCardholder_spec t seq c :
  words_of (t_Raw t) seq → (2 <= length seq <= 4)%nat → blanks_between (t_Raw t) seq →
  ∃ b, validCardholder seq t c = Some b ∧ (b = true ↔ holder t c seq).
Proof.
  intros Hw Hn Hb. unfold validCardholder.
  assert (existsb (λ tok, 2 <=? rune_count (tk_text tok)) seq = true ↔
    ∃ tok, tok ∈ seq ∧ 2 <= rune_count (tk_text tok)) as Hlong.
  { rewrite existsb_exists. setoid_rewrite list_elem_of_In. setoid_rewrite Z.leb_le. done. }
  destruct (existsb _ seq) eqn:El; cbn [negb].
  2: { exists false. split; [done|]. split; [done|]. intros Hh. by apply ho_long, Hlong in Hh. }
  pose proof (all_upper_Forall seq) as Hup. destruct (all_upper seq && c) eqn:Eu.
  { apply andb_true_iff in Eu as [Eu ->]. exists true. split; [done|]. split; [|done]. intros _.
    split; [done|done|by apply Hlong|]. left. split; [done|by apply Hup]. }
  destruct seq as [|a seq]; [simpl in Hn; lia|]. cbn [head mbind option_bind].
  destruct (last_is_Some (a :: seq)) as [_ [b Hlast]]; [done|]. rewrite Hlast.
  destruct (words_of_span _ _ a b Hw eq_refl Hlast) as (? & ? & ?).
  destruct (hasLeftContext_total t (tk_start a) cardholderContext 30) as [l Hl]; [lia|].
  destruct (hasRightContext_total t (tk_end b) cardholderContext 30) as [r Hr]; [lia|]. rewrite Hl. cbn [mbind option_bind].
  destruct l.
  { exists true. split; [done|]. split; [|done]. intros _. split; [done|done|by apply Hlong|]. right. left. by exists a. }
  cbn [mbind option_bind]. rewrite Hr. exists r. split; [done|]. split.
  - intros ->. split; [done|done|by apply Hlong|]. right. right. by exists b.
  - intros [_ _ _ [[-> Hall%Hup]|[(a' & [= <-] & Ha)|(b' & Hb' & Hb'')]]]; [|congruence|].
    + by rewrite Hall in Eu.
    + rewrite Hlast in Hb'. injection Hb' as <-. congruence.
Qed.

Lemma cardholderConfidence_total t seq c :
  words_of (t_Raw t) seq → seq ≠ [] → ∃ x, cardholderConfidence seq t c = Some x.
Proof.
  intros Hw Hne. unfold cardholderConfidence. destruct (negb _); [by eexists|].
  destruct c; [by eexists|]. destruct seq as [|a seq]; [done|]. cbn [head mbind option_bind].
  destruct Hw as [Hf _]. apply Forall_inv in Hf.
  destruct (hasLeftContext_total t (tk_start a) cardholderContext 30) as [l ->]; [lia|]. by eexists.
Qed.

(** [tryN] reports the first [n] candidates exactly when they are a card holder. *)
Lemma tryN_spec t cands c n :
  words_of (t_Raw t) cands → (2 <= n <= 4)%nat →
  ∃ r, tryN (t_Raw t) cands t c n = Some r ∧
    (∀ s, r = Some s → (n <= length cands)%nat ∧ holder t c (take n cands) ∧ holder_span (take n cands) s) ∧
    (r = None → (n <= length cands)%nat → ¬ holder t c (take n cands)).
Proof.
  intros Hw Hn. unfold tryN. destruct (length cands <? n)%nat eqn:El.
  { exists None. split_and!; [done|done|]. intros _ ?. lia. }
  pose proof (words_of_take (t_Raw t) n cands Hw) as Hwt.
  assert (length (take n cands) = n) as Hlen by (rewrite length_take; lia).
  destruct (take n cands) as [|first rest] eqn:Et; [simpl in Hlen; lia|].
  destruct (whitespace_run_spec _ _ _ Hwt) as [[-> Hb]|[-> Hb]]; cbn [mbind option_bind].
  2: { exists None. split_and!; [done|done|]. intros _ _ Hh. by apply ho_blanks in Hh. }
  destruct (validCardholder_spec t (first :: rest) c Hwt) as (ok & -> & Hok); [lia|done|]. cbn [mbind option_bind].
  destruct ok; cbn [negb].
  2: { exists None. split_and!; [done|done|]. intros _ _ Hh. by apply Hok in Hh. }
  destruct (last_is_Some (first :: rest)) as [_ [b Hlast]]; [done|]. rewrite Hlast. cbn [mbind option_bind].
  destruct (cardholderConfidence_total t (first :: rest) c Hwt) as [x ->]; [done|]. cbn [mbind option_bind].
  eexists. split; [done|]. split; [|done]. intros s [= <-]. split; [lia|]. split; [by apply Hok|].
  split; cbn [sp_Start sp_End sp_Category]; eauto.
Qed.

Lemma try_lengths_spec t cands c ns :
  words_of (t_Raw t) cands → Forall (λ n, 2 <= n <= 4)%nat ns →
  ∃ r, try_lengths (t_Raw t) cands t c ns = Some r ∧
    (∀ s n, r = Some (s, n) →
       n ∈ ns ∧ (n <= length cands)%nat ∧ holder t c (take n cands) ∧ holder_span (take n cands) s) ∧
    (r = None → ∀ n, n ∈ ns → (n <= length cands)%nat → ¬ holder t c (take n cands)).
Proof.
  intros Hw Hns. induction Hns as [|n ns Hn _ (r & Hr & Hsome & Hnone)]; cbn [try_lengths].
  { exists None. split_and!; [done|done|]. by intros _ n ?%elem_of_nil. }
  destruct (tryN_spec t cands c n Hw Hn) as (r' & -> & Hs' & Hn'). cbn [mbind option_bind].
  destruct r' as [span|].
  - eexists. split; [done|]. split; [|done]. intros s n' [= <- <-]. destruct (Hs' _ eq_refl). split; [left|done].
  - exists r. split; [done|]. split.
    + intros s n' E. destruct (Hsome s n' E). by split; [right|].
    + intros -> n' Hin Hle. apply elem_of_cons in Hin as [->|Hin]; [by apply Hn'|by apply Hnone].
Qed.

(** What the loop reports for the candidates [cands]: each span is that of consecutive
    candidates that are a card holder, and none is missed. *)
Record holders (t : Text) (c : bool) (cands : list token) (l : list Span) : Prop := {
  hl_order : StronglySorted before l;
  hl_sound : Forall (λ s, span_in (t_Raw t) s ∧
    ∃ pre seq post, cands = pre ++ seq ++ post ∧ holder t c seq ∧ holder_span seq s) l;
  hl_complete : ∀ pre seq post a, cands = pre ++ seq ++ post → holder t c seq → head seq = Some a →
    ∃ s, s ∈ l ∧ sp_Start s <= tk_start a ∧ tk_end a <= sp_End s
}.

Lemma holder_head t c seq : holder t c seq → ∃ a, head seq = Some a.
Proof. intros [Hn _ _ _]. destruct seq as [|a seq]; [simpl in Hn; lia|]. by exists a. Qed.

(** A word of the first [n] lies in their span. *)
Lemma in_span text cands n s tok :
  words_of text cands → holder_span (take n cands) s → tok ∈ take n cands →
  sp_Start s <= tk_start tok ∧ tk_end tok <= sp_End s.
Proof.
  intros Hw [(a & Ha & ->) (b & Hb & ->) _] Hin. pose proof (words_of_take text n cands Hw) as [Hf Hs].
  rewrite Forall_forall in Hf. split.
  - destruct (take n cands) as [|a' l]; [done|]. injection Ha as ->. apply elem_of_cons in Hin as [->|Hin]; [done|].
    apply StronglySorted_inv in Hs as [_ Hs]. rewrite Forall_forall in Hs. specialize (Hs _ Hin).
    pose proof (Hf a ltac:(left)). lia.
  - apply last_Some in Hb as [l Hl]. rewrite Hl in Hs, Hin, Hf. apply elem_of_app in Hin as [Hin|Hin%list_elem_of_singleton]; [|by subst].
    pose proof (StronglySorted_app_1_elem_of _ _ _ tok b Hs Hin ltac:(left)) as Hle. cbn beta in Hle.
    pose proof (Hf b ltac:(apply elem_of_app; right; left)). lia.
Qed.

(** What is reported for the rest is behind the span of the first [n]. *)
Lemma span_before text cands n s s' pre seq post :
  words_of text cands → holder_span (take n cands) s → drop n cands = pre ++ seq ++ post → holder_span seq s' → before s s'.
Proof.
  intros [_ Hs] [_ (b & Hb & He) _] Hd [(a & Ha & Hst) _ _]. unfold before. rewrite He, Hst.
  rewrite <- (take_drop n cands), Hd in Hs. apply last_Some in Hb as [l Hl]. rewrite Hl in Hs.
  apply (StronglySorted_app_1_elem_of _ _ _ b a Hs); [apply elem_of_app; right; left|].
  apply elem_of_app. right. apply elem_of_app. left. destruct seq; [done|]. injection Ha as ->. left.
Qed.

Lemma holders_nil t c : holders t c [] [].
Proof.
  split; [constructor|constructor|]. intros pre seq post a E Hh Ha. destruct pre; [|done]. by destruct seq.
Qed.

(** The first [n] candidates are reported. *)
Lemma holders_take t c cands n s l :
  words_of (t_Raw t) cands → holder t c (take n cands) → holder_span (take n cands) s →
  holders t c (drop n cands) l → holders t c cands (s :: l).
Proof.
  intros Hw Hh Hs [Ho Hsound Hcomp]. split.
  - constructor; [done|]. eapply Forall_impl; [exact Hsound|]. intros s' (_ & pre & seq & post & Hd & _ & Hs').
    by eapply span_before.
  - constructor.
    + split; [|by exists [], (take n cands), (drop n cands); rewrite take_drop].
      pose proof Hs as [(a & Ha & Hsa) (b & Hb & Hsb) _].
      destruct (words_of_span _ _ a b (words_of_take _ n _ Hw) Ha Hb). unfold span_in. lia.
    + eapply Forall_impl; [exact Hsound|]. intros s' (Hin & pre & seq & post & Hd & Hseq). split; [exact Hin|].
      exists (take n cands ++ pre), seq, post. by rewrite <- app_assoc, <- Hd, take_drop.
  - intros pre seq post a E Hseq Ha. destruct seq as [|a' seq]; [done|]. injection Ha as ->.
    destruct (decide (length pre < n)%nat) as [Hlt|Hge].
    + exists s. split; [left|]. apply (in_span (t_Raw t) cands n s a Hw Hs).
      apply list_elem_of_lookup. exists (length pre). rewrite lookup_take_lt by done. subst cands.
      by rewrite lookup_app_r, Nat.sub_diag by lia.
    + destruct (Hcomp (drop n pre) (a :: seq) post a) as (s' & Hin & Hs'); [|done|done|exists s'; by split; [right|]].
      rewrite E, drop_app_le by lia. done.
Qed.

(** The first candidate starts no card holder. *)
Lemma holders_skip t c tok cands l :
  (∀ n, n ∈ [4; 3; 2]%nat → (n <= length (tok :: cands))%nat → ¬ holder t c (take n (tok :: cands))) →
  holders t c cands l → holders t c (tok :: cands) l.
Proof.
  intros Hno [Ho Hsound Hcomp]. split; [done| |].
  - eapply Forall_impl; [exact Hsound|]. intros s (Hin & pre & seq & post & -> & Hseq). split; [exact Hin|].
    by exists (tok :: pre), seq, post.
  - intros pre seq post a E Hseq Ha. destruct pre as [|x pre].
    + exfalso. pose proof (ho_count _ _ _ Hseq) as Hn. simpl in E. apply (Hno (length seq)).
      * rewrite !elem_of_cons. lia.
      * rewrite E, length_app. lia.
      * by rewrite E, take_app_length.
    + injection E as -> E. by apply (Hcomp pre seq post a).
Qed.

Lemma cardholder_loop_spec t c fuel cands :
  (length cands <= fuel)%nat → words_of (t_Raw t) cands →
  ∃ l, cardholder_loop fuel (t_Raw t) cands t c = Some l ∧ holders t c cands l.
Proof.
  revert cands. induction fuel as [|fuel IH]; intros cands Hf Hw.
  { destruct cands; [|simpl in Hf; lia]. exists []. split; [done|apply holders_nil]. }
  destruct cands as [|tok rest]; cbn [cardholder_loop]; [exists []; split; [done|apply holders_nil]|].
  destruct (try_lengths_spec t (tok :: rest) c [4; 3; 2]%nat Hw) as (r & -> & Hsome & Hnone); [repeat constructor|].
  cbn [mbind option_bind]. destruct r as [[span n]|].
  - destruct (Hsome _ _ eq_refl) as (Hn & Hlen & Hh & Hspan). pose proof (ho_count _ _ _ Hh) as Hcount.
    rewrite length_take in Hcount.
    destruct (IH (drop n (tok :: rest))) as (l & -> & Hl); [rewrite length_drop; simpl in *; lia|by apply words_of_drop|].
    cbn [mbind option_bind]. eexists. split; [done|]. by eapply holders_take.
  - destruct (IH rest) as (l & -> & Hl); [simpl in Hf; lia|by eapply words_of_tail|].
    exists l. split; [done|]. apply holders_skip; [by apply Hnone|done].
Qed.

(** The words that may be part of a name. *)
Definition candidates (text : bytes) : list token := List.filter (λ tok, isCardholderWord (tk_text tok)) (tokenize text).

Lemma cardholder_spec t :
  ∃ l, cardholder_DetectLower t = Some l ∧ holders t (hasCardNumber (t_Raw t)) (candidates (t_Raw t)) l.
Proof. unfold cardholder_DetectLower. apply cardholder_loop_spec; [done|apply words_of_tokens]. Qed.
End CardholderFacts.

(** C21: the card-holder detector returns on every text; its spans are in order and
    disjoint; each reaches from the first to the last of two to four neighbours among the
    Latin words of the text that are no stop words, with only white space between them,
    for which capitals and a card number or a label nearby speak ([holder]); and none is
    missed: where such words stand, the first of them lies in a reported span. *)
Theorem cardholder_runs `{Unicode} text :
  ∃ l, cardholder_Detect text = Some l ∧ StronglySorted before l ∧
    (∀ s, s ∈ l → span_in text s ∧ ∃ pre seq post, candidates text = pre ++ seq ++ post ∧
       holder (text_of text) (hasCardNumber text) seq ∧ holder_span seq s) ∧
    (∀ pre seq post a, candidates text = pre ++ seq ++ post → holder (text_of text) (hasCardNumber text) seq →
       head seq = Some a → ∃ s, s ∈ l ∧ sp_Start s <= tk_start a ∧ tk_end a <= sp_End s).
Proof.
  destruct (cardholder_spec (text_of text)) as (l & Hl & [Ho Hsound Hcomp]). exists l.
  rewrite Forall_forall in Hsound. by split_and!.
Qed.
