(* ===== verification/Citizenship.v ===== *)
(** * Package [detectors]: citizenships

    Models [internal/pii/detectors/citizenship.go]. A result [None] is a run-time panic.
    The order in which [range] visits the map of country names is not specified:
    [CountryOrder] is any order. *)

From S2P Require Import Prelude GoText Float64 Pii Regexp RegexpSyntax Pipeline Validators.
From S2P Require Import TextUtil Keywords Mask.

Definition citizenshipKeyword : bytes := "citizenship".

Definition citizenshipContext : list bytes :=
  strs ["гражданство"; "гражданин"; "гражданка"] ++ [citizenshipKeyword].

Definition citizenshipFallbackStop : list bytes := strs ["не"; "нет"; "неизвестно"; "отсутствует"; "н/д"].

Definition citizenshipFallbackRe : re := MustCompile "^[a-zа-яё-]+(?:\s+[a-zа-яё-]+){0,2}".

Definition countryRF : go_literal := "рф".

Definition countryForms : list (bytes * list bytes) := [
  ("россия" : bytes, strs ["россия"; "россии"; "россию"; "россией"; "российская"]);
  ("рф" : bytes, strs [countryRF]);
  ("российская федерация" : bytes, strs ["российская федерация"; "российской федерации";
    "российской федерацией"]);
  ("казахстан" : bytes, strs ["казахстан"; "казахстана"; "казахстане"; "казахстаном"]);
  ("беларусь" : bytes, strs ["беларусь"; "беларуси"; "беларусью"]);
  ("белоруссия" : bytes, strs ["белоруссия"; "белоруссии"]);
  ("узбекистан" : bytes, strs ["узбекистан"; "узбекистана"; "узбекистане"]);
  ("таджикистан" : bytes, strs ["таджикистан"; "таджикистана"; "таджикистане"]);
  ("киргизия" : bytes, strs ["киргизия"; "киргизии"]);
  ("кыргызстан" : bytes, strs ["кыргызстан"; "кыргызстана"]);
  ("кыргызская республика" : bytes, strs ["кыргызская республика"; "кыргызской республики";
    "кыргызской республикой"]);
  ("армения" : bytes, strs ["армения"; "армении"; "армению"]);
  ("азербайджан" : bytes, strs ["азербайджан"; "азербайджана"; "азербайджане"]);
  ("азербайджанская республика" : bytes, strs ["азербайджанская республика"; "азербайджанской республики";
    "азербайджанской республикой"]);
  ("грузия" : bytes, strs ["грузия"; "грузии"]);
  ("молдова" : bytes, strs ["молдова"; "молдовы"; "молдове"]);
  ("украина" : bytes, strs ["украина"; "украины"; "украине"]);
  ("туркменистан" : bytes, strs ["туркменистан"; "туркменистана"]);
  ("вьетнам" : bytes, strs ["вьетнам"; "вьетнама"; "вьетнаме"]);
  ("китай" : bytes, strs ["китай"; "китая"; "китае"]);
  ("кнр" : bytes, strs ["кнр"]);
  ("китайская народная республика" : bytes, strs ["китайская народная республика";
    "китайской народной республики"]);
  ("корея" : bytes, strs ["корея"; "кореи"]);
  ("республика корея" : bytes, strs ["республика корея"; "республики корея"]);
  ("турция" : bytes, strs ["турция"; "турции"]);
  ("индия" : bytes, strs ["индия"; "индии"]);
  ("сша" : bytes, strs ["сша"]);
  ("германия" : bytes, strs ["германия"; "германии"]);
  ("фрг" : bytes, strs ["фрг"]);
  ("великобритания" : bytes, strs ["великобритания"; "великобритании"; "великобританию"]);
  ("израиль" : bytes, strs ["израиль"; "израиля"]);
  ("румыния" : bytes, strs ["румыния"; "румынии"]);
  ("франция" : bytes, strs ["франция"; "франции"; "францию"; "францией"]);
  ("французская республика" : bytes, strs ["французская республика"; "французской республики";
    "французской республикой"]);
  ("испания" : bytes, strs ["испания"; "испании"; "испанию"; "испанией"]);
  ("италия" : bytes, strs ["италия"; "италии"; "италию"; "италией"]);
  ("социалистическая республика вьетнам" : bytes, strs ["социалистическая республика вьетнам";
    "социалистической республики вьетнам"]);
  ("azerbaijani" : bytes, strs ["azerbaijani"]);
  ("russian" : bytes, strs ["russian"]);
  ("kazakh" : bytes, strs ["kazakh"]);
  ("uzbek" : bytes, strs ["uzbek"]);
  ("tajik" : bytes, strs ["tajik"]);
  ("armenian" : bytes, strs ["armenian"]);
  ("georgian" : bytes, strs ["georgian"]);
  ("moldovan" : bytes, strs ["moldovan"]);
  ("ukrainian" : bytes, strs ["ukrainian"]);
  ("turkmen" : bytes, strs ["turkmen"]);
  ("vietnamese" : bytes, strs ["vietnamese"]);
  ("chinese" : bytes, strs ["chinese"]);
  ("korean" : bytes, strs ["korean"]);
  ("turkish" : bytes, strs ["turkish"]);
  ("indian" : bytes, strs ["indian"]);
  ("german" : bytes, strs ["german"]);
  ("israeli" : bytes, strs ["israeli"]);
  ("belarusian" : bytes, strs ["belarusian"]);
  ("kyrgyz" : bytes, strs ["kyrgyz"])].

Definition otherUNStates : list bytes := strs [
  "алжир"; "ангола"; "бенин"; "ботсвана"; "буркина-фасо"; "бурунди"; "габон"; "гамбия"; "гана";
  "гвинея"; "гвинея-бисау"; "джибути"; "египет"; "замбия"; "зимбабве"; "кабо-верде"; "камерун";
  "кения"; "коморы"; "конго"; "демократическая республика конго"; "кот-д’ивуар"; "лесото";
  "либерия"; "ливия"; "маврикий"; "мавритания"; "мадагаскар"; "малави"; "мали"; "марокко";
  "мозамбик"; "намибия"; "нигер"; "нигерия"; "руанда"; "сан-томе и принсипи"; "эсватини";
  "свазиленд"; "сейшелы"; "сенегал"; "сомали"; "судан"; "южный судан"; "сьерра-леоне"; "танзания";
  "того"; "тунис"; "уганда"; "центральноафриканская республика"; "чад"; "экваториальная гвинея";
  "эритрея"; "эфиопия"; "юар"; "южно-африканская республика"; "афганистан"; "бангладеш"; "бахрейн";
  "бруней"; "бутан"; "восточный тимор"; "индонезия"; "иордания"; "ирак"; "иран"; "йемен";
  "камбоджа"; "катар"; "кипр"; "кндр"; "кувейт"; "лаос"; "ливан"; "малайзия"; "мальдивы";
  "монголия"; "мьянма"; "непал"; "оаэ"; "оман"; "пакистан"; "саудовская аравия"; "сингапур";
  "сирия"; "таиланд"; "филиппины"; "шри-ланка"; "япония"; "австрия"; "албания"; "андорра";
  "бельгия"; "болгария"; "босния и герцеговина"; "ватикан"; "венгрия"; "греция"; "дания";
  "ирландия"; "исландия"; "латвия"; "литва"; "лихтенштейн"; "люксембург"; "мальта"; "монако";
  "нидерланды"; "северная македония"; "норвегия"; "польша"; "португалия"; "сан-марино"; "сербия";
  "словакия"; "словения"; "финляндия"; "хорватия"; "черногория"; "чехия"; "швейцария"; "швеция";
  "эстония"; "антигуа и барбуда"; "аргентина"; "багамы"; "барбадос"; "белиз"; "боливия";
  "бразилия"; "венесуэла"; "гаити"; "гайана"; "гватемала"; "гондурас"; "гренада"; "доминика";
  "доминиканская республика"; "канада"; "колумбия"; "коста-рика"; "куба"; "мексика"; "никарагуа";
  "панама"; "парагвай"; "перу"; "сальвадор"; "сент-винсент и гренадины"; "сент-китс и невис";
  "сент-люсия"; "суринам"; "тринидад и тобаго"; "уругвай"; "чили"; "эквадор"; "ямайка";
  "австралия"; "вануату"; "кирибати"; "маршалловы острова"; "микронезия"; "науру";
  "новая зеландия"; "палау"; "папуа-новая гвинея"; "самоа"; "соломоновы острова"; "тонга";
  "тувалу"; "фиджи"].

Definition declineCountry (nom : bytes) : list bytes :=
  let words := fields nom in
  match last words with
  | None => []
  | Some last_word =>
      let r := runes last_word in
      match last r with
      | None => []
      | Some c =>
          let head := if (1 <? length words)%nat then join_words " " (removelast words) ++ go_bytes " " else [] in
          let stem := encode_runes (removelast r) in
          let forms (stem : bytes) (endings : list bytes) := map (λ e, head ++ stem ++ e) endings in
          if c =? 0x44F (* я *) then forms stem (strs ["и"; "ей"; "ю"])
          else if c =? 0x430 (* а *) then forms stem (strs ["ы"; "е"; "ой"; "у"])
          else if c =? 0x439 (* й *) then forms stem (strs ["я"; "ем"; "е"])
          else if c =? 0x44C (* ь *) then forms stem (strs ["и"; "ью"])
          else if bool_decide (c ∈ [0x43E; 0x435; 0x438; 0x443; 0x44B]) (* о е и у ы *) then []
          else forms last_word (strs ["а"; "е"; "ом"; "у"])
      end
  end.

Example decline_sudan : declineCountry "южный судан" =
  strs ["южный судана"; "южный судане"; "южный суданом"; "южный судану"].
Proof. by vm_compute. Qed.

(** The order in which [range countryForms] visits the map. *)
Class CountryOrder := {
  country_entries : list (bytes * list bytes);
  country_entries_perm : Permutation country_entries countryForms
}.

#[export] Instance written_order : CountryOrder | 100 := {| country_entries := countryForms; country_entries_perm := Permutation_refl _ |}.

(** The inner loop: [x] moves left past the shorter forms; the prefix is reversed. *)
Fixpoint sift (x : bytes) (prefix : list bytes) : list bytes :=
  match prefix with
  | y :: l => if len y <? len x then y :: sift x l else x :: prefix
  | [] => [x]
  end.

Definition sort_longest (forms : list bytes) : list bytes := rev (foldl (λ l x, sift x l) [] forms).

Definition other_forms : list bytes :=
  concat (map (λ nom, match assoc nom countryForms with Some _ => [] | None => nom :: declineCountry nom end)
    otherUNStates).

Definition buildCountryFormList `{CountryOrder} : list bytes :=
  sort_longest (concat (map snd country_entries) ++ other_forms).

Definition countryFormList `{CountryOrder} : list bytes := buildCountryFormList.

Definition republicRe : re := MustCompile "республик[аиуойе]?\s+[а-яё]+".

Definition citizenshipValueRe : re := MustCompile
  "^\s*(?P<sep>:|-|—)?\s*(?:заявителя\s*:?\s*|клиента\s*:?\s*)?".

Definition commonWordCountries : list bytes := strs [
  "того"; "мали"; "чад"; "чада"; "гана"; "гане"; "гану"; "куба"; "кубы"; "кубе"; "нигер"; "оман"; "омана";
    "перу"; "чили"; "фиджи"; "самоа"; "тонга"].

Definition citizenship_span (start end_ : Z) : Span :=
  MkSpan start end_ CatCitizenship citizenshipKeyword (f64_lit 9 10).

(** A single byte of [raw] counts as a rune here. *)
Definition isWholeWord (raw : bytes) (start kwLen : Z) : option bool :=
  before ← (if 0 <? start then b ← go_index raw (start - 1); Some (isLetterRune (byte_val b)) else Some false);
  if before : bool then Some false else
  if start + kwLen <? len raw then b ← go_index raw (start + kwLen); Some (negb (isLetterRune (byte_val b)))
  else Some true.

Section Citizenship.
Context `{Unicode} `{CountryOrder}.

Definition ambiguousCountryWord (t : Text) (form : bytes) (rawStart : Z) : option bool :=
  if negb (bool_decide (form ∈ commonWordCountries)) then Some false
  else if (rawStart <? 0) || (len (t_Raw t) <=? rawStart) then Some true
  else rest ← go_slice (t_Raw t) rawStart (len (t_Raw t)); Some (negb (is_upper (fst (decode_rune rest)))).

Definition citizenshipFallbackLen (rest : bytes) : option Z :=
  match Find citizenshipFallbackRe rest with
  | None => Some 0
  | Some m =>
      let m := slice rest (m_start m) (m_end m) in
      if bool_decide (m = []) then Some 0 else
      first ← head (fields m);
      Some (if bool_decide (first ∈ citizenshipFallbackStop) then 0 else len m)
  end.

Definition longer_form (rest : bytes) (best : Z) (form : bytes) : Z :=
  if has_prefix rest form && (best <? len form) then len form else best.

Definition longestCountryPrefix (rest : bytes) : Z :=
  let best := foldl (longer_form rest) 0 countryFormList in
  match Find republicRe rest with
  | Some m => if (m_start m =? 0) && (best <? m_end m) then m_end m else best
  | None => best
  end.

Definition matchValue (t : Text) (lower : bytes) (after : Z) : option (option Span) :=
  rest ← go_slice lower after (len lower);
  '(skipped, labeled, rest) ←
    match Find citizenshipValueRe rest with
    | Some m =>
        rest' ← go_slice rest (m_end m) (len rest);
        Some (m_end m, bool_decide (is_Some (group 1 (m_caps m))), rest')
    | None => Some (0, false, rest)
    end;
  let bestLen := longestCountryPrefix rest in
  bestLen ← (if (0 <? bestLen) && negb labeled then
               form ← go_slice rest 0 bestLen;
               ambiguous ← ambiguousCountryWord t form (after + skipped);
               Some (if ambiguous : bool then 0 else bestLen)
             else Some bestLen);
  bestLen ← (if (bestLen =? 0) && labeled then citizenshipFallbackLen rest else Some bestLen);
  Some (if bestLen =? 0 then None
        else let valStart := after + skipped in Some (citizenship_span valStart (valStart + bestLen))).

(** The body of the loop; [best] is the pair [(bestStart, bestLen)]. *)
Definition before_step (before : bytes) (best : Z * Z) (form : bytes) : option (Z * Z) :=
  let idx := str_last_index before form in
  if idx <? 0 then Some best else
  after ← go_slice before (idx + len form) (len before);
  if negb (bool_decide (trim_space after = [])) then Some best
  else Some (if snd best <? len form then (idx, len form) else best).

Definition matchBefore (lower : bytes) (kwStart : Z) : option (option Span) :=
  before ← go_slice lower 0 kwStart;
  '(bestStart, bestLen) ← fold_opt (before_step before) (-1, 0) countryFormList;
  Some (if bestStart <? 0 then None else Some (citizenship_span bestStart (bestStart + bestLen))).

Definition matchAtKeyword (t : Text) (lower : bytes) (start : Z) (kw : bytes) : option (list Span) :=
  value ← matchValue t lower (start + len kw);
  before ← (if bool_decide (kw = citizenshipKeyword) then matchBefore lower start else Some None);
  Some (option_list value ++ option_list before).

(** The loop of [scanKeyword]; a keyword is not empty, so [idx] grows. *)
Fixpoint scan_loop (fuel : nat) (t : Text) (lower kw : bytes) (idx : Z) (spans : list Span)
    : option (list Span) :=
  match fuel with
  | O => None
  | S fuel =>
      rest ← go_slice lower idx (len lower);
      let pos := str_index rest kw in
      if pos <? 0 then Some spans else
      let start := idx + pos in
      whole ← isWholeWord (t_Raw t) start (len kw);
      if negb whole then scan_loop fuel t lower kw (start + len kw) spans else
      found ← matchAtKeyword t lower start kw;
      scan_loop fuel t lower kw (start + len kw) (spans ++ found)
  end.

Definition scanKeyword (t : Text) (lower kw : bytes) : option (list Span) :=
  scan_loop (S (length lower)) t lower kw 0 [].

Definition matchDialogNext (next : bytes) (lineStart : Z) : option (list Span) :=
  let c := str_index next ":" in
  val ← (if 0 <=? c then go_slice next (c + 1) (len next) else Some next);
  let val := trim_space val in
  Some (match List.find (has_prefix val) countryFormList with
        | Some form =>
            let start := lineStart + (len next - len val) in [citizenship_span start (start + len form)]
        | None => []
        end).

(** The loop of [matchDialog]. *)
Fixpoint dialog_loop (lines : list bytes) (offset : Z) : option (list Span) :=
  match lines with
  | [] => Some []
  | line :: rest =>
      found ← (if str_contains line "гражданств" && str_contains line "?" then
                 match rest with
                 | next :: _ => matchDialogNext next (offset + len line + 1)
                 | [] => Some []
                 end
               else Some []);
      more ← dialog_loop rest (offset + (len line + 1));
      Some (found ++ more)
  end.

Definition newline_byte : byte := "010"%byte.

Definition matchDialog (lower : bytes) : option (list Span) := dialog_loop (split_byte newline_byte lower) 0.

Definition citizenship_DetectLower (t : Text) : option (list Span) :=
  let lower := if LowerOK t then t_Lower t else lower_string (t_Raw t) in
  spans ← fold_opt (λ spans kw, found ← scanKeyword t lower kw; Some (spans ++ found)) [] citizenshipContext;
  dialog ← matchDialog lower;
  Some (spans ++ dialog).

Definition citizenship_Detect (text : bytes) : option (list Span) := citizenship_DetectLower (text_of text).

Definition NewCitizenshipDetector : Detector :=
  MkDetector citizenshipKeyword [CatCitizenship] citizenship_Detect (Some citizenship_DetectLower).
End Citizenship.

Definition places (o : option (list Span)) : option (list (Z * Z)) := map (λ s, (sp_Start s, sp_End s)) <$> o.

Example citizenship_label : places (citizenship_Detect "Гражданство: Республики Армения.") = Some [(24, 59)].
Proof. by vm_compute. Qed.

Example citizenship_unlabeled :
  places (citizenship_Detect "гражданка чада") = Some [] ∧ places (citizenship_Detect "гражданка Чада") = Some [(19, 27)].
Proof. split; by vm_compute. Qed.

Example citizenship_english : places (citizenship_Detect "holds Azerbaijani citizenship") = Some [(6, 17)].
Proof. by vm_compute. Qed.

Example citizenship_dialog :
  places (citizenship_Detect ("Какое гражданство?" ++ [newline_byte] ++ "Клиент: Россия")) = Some [(49, 61)].
Proof. by vm_compute. Qed.

(** ** The list of country forms *)

Section FormList.

Definition not_shorter (x y : bytes) : Prop := len y <= len x.
Definition not_longer (x y : bytes) : Prop := not_shorter y x.

Lemma sift_perm x l : Permutation (sift x l) (x :: l).
Proof.
  induction l as [|y l IH]; cbn [sift]; [done|]. case_match; [|done]. rewrite IH. apply Permutation_swap.
Qed.

Lemma sift_sorted x l : StronglySorted not_longer l → StronglySorted not_longer (sift x l).
Proof.
  induction 1 as [|y l Hl IH Hy]; cbn [sift]; [by repeat constructor|]. destruct (len y <? len x) eqn:E.
  - constructor; [done|]. rewrite (sift_perm x l). constructor; [|done].
    unfold not_longer, not_shorter in *. lia.
  - constructor; [by constructor|]. constructor; [unfold not_longer, not_shorter; lia|].
    eapply Forall_impl; [exact Hy|]. unfold not_longer, not_shorter. lia.
Qed.

Lemma sift_all forms l :
  StronglySorted not_longer l →
  Permutation (foldl (λ l x, sift x l) l forms) (forms ++ l) ∧
  StronglySorted not_longer (foldl (λ l x, sift x l) l forms).
Proof.
  revert l. induction forms as [|x forms IH]; intros l Hl; cbn [foldl]; [done|].
  destruct (IH (sift x l) (sift_sorted x l Hl)) as [Hp Hs]. split; [|done].
  rewrite Hp, sift_perm. cbn [app]. by rewrite Permutation_middle.
Qed.

Lemma StronglySorted_rev {A : Type} (R : A → A → Prop) l : StronglySorted (λ x y, R y x) l → StronglySorted R (rev l).
Proof.
  induction 1 as [|x l Hl IH Hx]; cbn [rev]; [constructor|]. apply StronglySorted_app_2; [|done|by repeat constructor].
  intros a b Ha ->%list_elem_of_singleton. rewrite elem_of_rev in Ha. rewrite Forall_forall in Hx. by apply Hx.
Qed.

Lemma sort_longest_spec forms :
  Permutation (sort_longest forms) forms ∧ StronglySorted not_shorter (sort_longest forms).
Proof.
  unfold sort_longest. destruct (sift_all forms []) as [Hp Hs]; [constructor|].
  split; [by rewrite <- Permutation_rev, Hp, app_nil_r|by apply StronglySorted_rev].
Qed.

Context `{CountryOrder}.

Lemma countryFormList_perm :
  Permutation countryFormList (concat (map snd countryForms) ++ other_forms).
Proof.
  unfold countryFormList, buildCountryFormList. rewrite (proj1 (sort_longest_spec _)).
  apply Permutation_app_tail. rewrite <- !flat_map_concat_map. apply Permutation_flat_map, country_entries_perm.
Qed.

Lemma countryFormList_nonempty : Forall (λ f, 0 < len f) countryFormList.
Proof.
  rewrite countryFormList_perm. apply (bool_decide_unpack _). vm_compute. exact I.
Qed.
End FormList.

(** ** The detector stays in the text when the lowercased text has its length *)

Section CitizenshipFacts.
Context `{Unicode} `{CountryOrder}.

Definition citizenship_in (raw : bytes) (s : Span) : Prop := span_in raw s ∧ sp_Category s = CatCitizenship.

Lemma citizenship_span_in raw a b : 0 <= a → a < b → b <= len raw → citizenship_in raw (citizenship_span a b).
Proof. done. Qed.

Lemma isWholeWord_total raw start n :
  0 <= start → 0 <= n → start + n <= len raw → ∃ b, isWholeWord raw start n = Some b.
Proof.
  intros Hs Hn Hl. unfold isWholeWord.
  assert (∃ b, (if 0 <? start then b ← go_index raw (start - 1); Some (isLetterRune (byte_val b)) else Some false)
    = Some b) as [b ->].
  { destruct (0 <? start) eqn:E; [|by eexists]. destruct (go_index_some raw (start - 1)) as [b ->]; [lia|by eexists]. }
  cbn [mbind option_bind]. destruct b; [by eexists|]. destruct (start + n <? len raw) eqn:E; [|by eexists].
  destruct (go_index_some raw (start + n)) as [b ->]; [lia|by eexists].
Qed.

Lemma longer_forms_bound rest forms best :
  0 <= best <= len rest → 0 <= foldl (longer_form rest) best forms <= len rest.
Proof.
  revert best. induction forms as [|f forms IH]; intros best Hb; cbn [foldl]; [done|]. apply IH.
  unfold longer_form. destruct (has_prefix rest f) eqn:E; cbn [andb]; [|done]. apply has_prefix_len in E.
  destruct (best <? len f) eqn:?; lia.
Qed.

Lemma longestCountryPrefix_bound rest : 0 <= longestCountryPrefix rest <= len rest.
Proof.
  unfold longestCountryPrefix. pose proof (longer_forms_bound rest countryFormList 0) as Hb.
  pose proof (len_nonneg rest). specialize (Hb ltac:(lia)).
  destruct (Find republicRe rest) as [m|] eqn:E; [|done]. apply Find_bounds in E. case_match; lia.
Qed.

Lemma ambiguousCountryWord_total t form start : ∃ b, ambiguousCountryWord t form start = Some b.
Proof.
  unfold ambiguousCountryWord. case_match; [by eexists|].
  destruct ((start <? 0) || (len (t_Raw t) <=? start)) eqn:E; [by eexists|]. rewrite go_slice_Some by lia. by eexists.
Qed.

Definition fallback_ranges : list (Z * Z) := [(0x61, 0x7A); (0x430, 0x44F); (0x451, 0x451); (0x2D, 0x2D)].

Lemma citizenshipFallbackRe_must : must fallback_ranges citizenshipFallbackRe = true.
Proof. by vm_compute. Qed.

Lemma fallback_not_space x : in_ranges fallback_ranges x = true → is_space x = false.
Proof.
  unfold in_ranges, fallback_ranges, existsb, in_rng, is_space. intros Hx.
  repeat match goal with |- context [?a =? ?b] => replace (a =? b) with false by lia end.
  unfold in_rng. lia.
Qed.

Lemma citizenshipFallbackLen_total rest : ∃ n, citizenshipFallbackLen rest = Some n ∧ 0 <= n <= len rest.
Proof.
  unfold citizenshipFallbackLen. pose proof (len_nonneg rest).
  destruct (Find citizenshipFallbackRe rest) as [m|] eqn:E; [|exists 0; split; [done|lia]].
  pose proof (Find_bounds _ _ _ E) as (? & ? & ?). case_bool_decide; [exists 0; split; [done|lia]|].
  destruct (match_in_must fallback_ranges _ _ _ citizenshipFallbackRe_must (Find_in _ _ _ _ E)) as (x & Hx & Hr).
  pose proof (fields_nonempty _ _ Hx (fallback_not_space x Hr)) as Hf.
  destruct (fields _) as [|first words]; [done|]. cbn [head mbind option_bind]. eexists. split; [done|].
  case_bool_decide; [lia|]. rewrite len_slice by lia. lia.
Qed.

Lemma matchValue_spec t lower after :
  len lower = len (t_Raw t) → 0 <= after <= len lower →
  ∃ o, matchValue t lower after = Some o ∧ Forall (citizenship_in (t_Raw t)) (option_list o).
Proof.
  intros Hl Ha. unfold matchValue. rewrite go_slice_Some by lia. cbn [mbind option_bind].
  set (rest := slice lower after (len lower)). assert (len rest = len lower - after) as Hrest by (apply len_slice; lia).
  assert (∃ skipped labeled rest', match Find citizenshipValueRe rest with
    | Some m => rest' ← go_slice rest (m_end m) (len rest);
                Some (m_end m, bool_decide (is_Some (group 1 (m_caps m))), rest')
    | None => Some (0, false, rest) end = Some (skipped, labeled, rest') ∧
    0 <= skipped ∧ skipped + len rest' = len rest) as (skipped & labeled & rest' & -> & ? & ?).
  { destruct (Find citizenshipValueRe rest) as [m|] eqn:E; [|by exists 0, false, rest].
    apply Find_bounds in E. rewrite go_slice_Some by lia. eexists _, _, _. split; [done|]. rewrite len_slice; lia. }
  cbn [mbind option_bind]. pose proof (longestCountryPrefix_bound rest') as Hb. set (best := longestCountryPrefix rest') in *.
  assert (∃ n, (if (0 <? best) && negb labeled then
      form ← go_slice rest' 0 best; ambiguous ← ambiguousCountryWord t form (after + skipped);
      Some (if ambiguous : bool then 0 else best) else Some best) = Some n ∧ 0 <= n <= len rest') as (n & -> & ?).
  { case_match; [|by exists best]. rewrite go_slice_Some by lia. cbn [mbind option_bind].
    destruct (ambiguousCountryWord_total t (slice rest' 0 best) (after + skipped)) as [b ->]. cbn [mbind option_bind].
    eexists. split; [done|]. destruct b; lia. }
  cbn [mbind option_bind].
  assert (∃ k, (if (n =? 0) && labeled then citizenshipFallbackLen rest' else Some n) = Some k ∧ 0 <= k <= len rest')
    as (k & -> & ?).
  { case_match; [apply citizenshipFallbackLen_total|by exists n]. }
  cbn [mbind option_bind]. eexists. split; [done|]. destruct (k =? 0) eqn:Ek; [constructor|].
  constructor; [|constructor]. apply citizenship_span_in; lia.
Qed.

Lemma before_step_spec before best form :
  0 < len form →
  (fst best = -1 ∨ 0 <= fst best ∧ 0 < snd best ∧ fst best + snd best <= len before) →
  ∃ best', before_step before best form = Some best' ∧
    (fst best' = -1 ∨ 0 <= fst best' ∧ 0 < snd best' ∧ fst best' + snd best' <= len before).
Proof.
  intros Hf Hb. unfold before_step. destruct (str_last_index before form <? 0) eqn:E; [by exists best|].
  destruct (last_index_occurs before form) as [Ho _]; [lia|]. apply occurs_at_slice in Ho as [Ho _].
  rewrite go_slice_Some by lia. cbn [mbind option_bind]. case_match; [by exists best|].
  eexists. split; [done|]. case_match; [right; cbn [fst snd]; lia|done].
Qed.

Lemma matchBefore_spec raw lower start :
  len lower = len raw → 0 <= start <= len lower →
  ∃ o, matchBefore lower start = Some o ∧ Forall (citizenship_in raw) (option_list o).
Proof.
  intros Hl Hs. unfold matchBefore. rewrite go_slice_Some by lia. cbn [mbind option_bind].
  set (before := slice lower 0 start). assert (len before = start) as Hlen by (unfold before; rewrite len_slice; lia).
  assert (∃ best, fold_opt (before_step before) (-1, 0) countryFormList = Some best ∧
    (fst best = -1 ∨ 0 <= fst best ∧ 0 < snd best ∧ fst best + snd best <= len before)) as ([a n] & -> & Hbest).
  { assert (∀ best, (fst best = -1 ∨ 0 <= fst best ∧ 0 < snd best ∧ fst best + snd best <= len before) →
      ∃ best', fold_opt (before_step before) best countryFormList = Some best' ∧
        (fst best' = -1 ∨ 0 <= fst best' ∧ 0 < snd best' ∧ fst best' + snd best' <= len before)) as Hfold;
      [|apply Hfold; by left].
    induction countryFormList_nonempty as [|f forms Hf _ IH]; intros best Hb; cbn [fold_opt]; [by exists best|].
    destruct (before_step_spec before best f Hf Hb) as (best' & -> & Hb'). cbn [mbind option_bind]. by apply IH. }
  cbn [mbind option_bind fst snd] in *. eexists. split; [done|]. destruct (a <? 0) eqn:E; [constructor|].
  constructor; [|constructor]. apply citizenship_span_in; lia.
Qed.

Lemma matchAtKeyword_spec t lower start kw :
  len lower = len (t_Raw t) → 0 <= start → start + len kw <= len lower →
  ∃ l, matchAtKeyword t lower start kw = Some l ∧ Forall (citizenship_in (t_Raw t)) l.
Proof.
  intros Hl Hs Hk. pose proof (len_nonneg kw). unfold matchAtKeyword.
  destruct (matchValue_spec t lower (start + len kw)) as (o & -> & Ho); [done|lia|]. cbn [mbind option_bind].
  assert (∃ o', (if bool_decide (kw = citizenshipKeyword) then matchBefore lower start else Some None) = Some o' ∧
    Forall (citizenship_in (t_Raw t)) (option_list o')) as (o' & -> & Ho').
  { case_bool_decide; [apply matchBefore_spec; [done|lia]|]. exists None. by split; [|constructor]. }
  eexists. split; [done|]. by apply Forall_app.
Qed.

Lemma scan_loop_spec fuel t lower kw idx spans :
  len lower = len (t_Raw t) → 0 < len kw → 0 <= idx <= len lower → len lower - idx < Z.of_nat fuel →
  Forall (citizenship_in (t_Raw t)) spans →
  ∃ l, scan_loop fuel t lower kw idx spans = Some l ∧ Forall (citizenship_in (t_Raw t)) l.
Proof.
  intros Hl Hk. revert idx spans. induction fuel as [|fuel IH]; intros idx spans Hi Hf Hs; [lia|].
  cbn [scan_loop]. rewrite go_slice_Some by lia. cbn [mbind option_bind].
  set (pos := str_index (slice lower idx (len lower)) kw).
  destruct (pos <? 0) eqn:E; [by eexists|].
  pose proof (str_index_occurs (slice lower idx (len lower)) kw ltac:(lia)) as Ho. apply occurs_at_slice in Ho as [Ho _].
  rewrite len_slice in Ho by lia. fold pos in Ho.
  destruct (isWholeWord_total (t_Raw t) (idx + pos) (len kw)) as [whole ->]; [lia..|]. cbn [mbind option_bind].
  destruct whole; cbn [negb]; [|apply IH; [lia|lia|done]].
  destruct (matchAtKeyword_spec t lower (idx + pos) kw) as (l & -> & Hlist); [lia..|]. cbn [mbind option_bind].
  apply IH; [lia|lia|by apply Forall_app].
Qed.
End CitizenshipFacts.

Section CitizenshipDetector.
Context `{Unicode} `{CountryOrder}.

(** A span between two positions. *)
Definition span_between (a b : Z) (s : Span) : Prop :=
  a <= sp_Start s ∧ sp_Start s < sp_End s ∧ sp_End s <= b ∧ sp_Category s = CatCitizenship.

Lemma matchDialogNext_spec next start :
  ∃ l, matchDialogNext next start = Some l ∧ Forall (span_between start (start + len next)) l.
Proof.
  unfold matchDialogNext. pose proof (len_nonneg next).
  assert (∃ val, (if 0 <=? str_index next ":" then go_slice next (str_index next ":" + 1) (len next) else Some next)
    = Some val ∧ len val <= len next) as (val & -> & Hval).
  { destruct (0 <=? str_index next ":") eqn:E; [|by exists next].
    destruct (occurs_at_slice next ":" (str_index next ":")) as [Ho _]; [apply str_index_occurs; lia|].
    assert (len (go_bytes ":") = 1) by done. rewrite go_slice_Some by lia. eexists. split; [done|]. rewrite len_slice; lia. }
  cbn [mbind option_bind]. pose proof (len_trim_space val). eexists. split; [done|].
  destruct (List.find _ countryFormList) as [form|] eqn:E; [|constructor].
  apply find_some in E as [Hin Hp%has_prefix_len]. pose proof countryFormList_nonempty as Hne.
  rewrite Forall_forall in Hne. specialize (Hne form ltac:(by apply list_elem_of_In)).
  constructor; [|constructor]. unfold span_between. cbn [citizenship_span sp_Start sp_End sp_Category].
  split_and!; [lia..|done].
Qed.

(** The bytes of the lines, each with its newline. *)
Definition lines_len (lines : list bytes) : Z := foldr (λ l n, len l + 1 + n) 0 lines.

Lemma lines_len_nonneg lines : 0 <= lines_len lines.
Proof. induction lines as [|l lines IH]; cbn; [done|]. pose proof (len_nonneg l). fold (lines_len lines). lia. Qed.

Lemma split_byte_len sep s : lines_len (split_byte sep s) = len s + 1.
Proof.
  induction s as [|b s IH]; cbn [split_byte]; [done|].
  replace (len (b :: s)) with (1 + len s) by (unfold len; cbn [length]; lia).
  destruct (decide (b = sep)); cbn [lines_len foldr].
  - fold (lines_len (split_byte sep s)). rewrite IH, len_nil. lia.
  - destruct (split_byte sep s) as [|w ws]; cbn in *; unfold len in *; cbn [length] in *; lia.
Qed.

Lemma dialog_loop_spec lines offset :
  ∃ l, dialog_loop lines offset = Some l ∧ Forall (span_between offset (offset + lines_len lines - 1)) l.
Proof.
  revert offset. induction lines as [|line lines IH]; intros offset; cbn [dialog_loop]; [by exists []|].
  cbn [lines_len foldr]. fold (lines_len lines). pose proof (len_nonneg line).
  assert (∃ l, (if str_contains line "гражданств" && str_contains line "?" then
      match lines with next :: _ => matchDialogNext next (offset + len line + 1) | [] => Some [] end else Some []) =
    Some l ∧ Forall (span_between offset (offset + (len line + 1 + lines_len lines) - 1)) l) as (l & -> & Hl).
  { case_match; [|by exists []]. destruct lines as [|next lines]; [by exists []|].
    destruct (matchDialogNext_spec next (offset + len line + 1)) as (l & -> & Hl). exists l. split; [done|].
    eapply Forall_impl; [exact Hl|]. intros s (? & ? & ? & ?). cbn [lines_len foldr]. fold (lines_len lines).
    pose proof (lines_len_nonneg lines). unfold span_between. split_and!; [lia..|done]. }
  destruct (IH (offset + (len line + 1))) as (more & -> & Hmore). cbn [mbind option_bind].
  eexists. split; [done|]. apply Forall_app. split; [done|]. eapply Forall_impl; [exact Hmore|].
  intros s (? & ? & ? & ?). unfold span_between. split_and!; [lia..|done].
Qed.

Lemma keywords_nonempty : Forall (λ kw, 0 < len kw) citizenshipContext.
Proof. apply (bool_decide_unpack _). vm_compute. exact I. Qed.

Lemma citizenship_spec t :
  LowerOK t = true →
  ∃ l, citizenship_DetectLower t = Some l ∧ Forall (citizenship_in (t_Raw t)) l.
Proof.
  intros Hok. unfold citizenship_DetectLower. rewrite Hok. assert (len (t_Lower t) = len (t_Raw t)) as Hl
    by (unfold LowerOK in Hok; lia).
  assert (∀ spans, Forall (citizenship_in (t_Raw t)) spans →
    ∃ l, fold_opt (λ spans kw, found ← scanKeyword t (t_Lower t) kw; Some (spans ++ found)) spans citizenshipContext
      = Some l ∧ Forall (citizenship_in (t_Raw t)) l) as Hfold.
  { induction keywords_nonempty as [|kw kws Hk _ IH]; intros spans Hs; cbn [fold_opt]; [by exists spans|].
    destruct (scan_loop_spec (S (length (t_Lower t))) t (t_Lower t) kw 0 []) as (l & Hscan & Hf);
      [done|done|pose proof (len_nonneg (t_Lower t)); lia|unfold len; lia|done|].
    change (scanKeyword t (t_Lower t) kw = Some l) in Hscan. rewrite Hscan. cbn [mbind option_bind].
    apply IH. by apply Forall_app. }
  destruct (Hfold []) as (l & -> & Hf); [done|]. cbn [mbind option_bind]. unfold matchDialog.
  destruct (dialog_loop_spec (split_byte newline_byte (t_Lower t)) 0) as (d & -> & Hd). cbn [mbind option_bind].
  eexists. split; [done|]. apply Forall_app. split; [done|]. eapply Forall_impl; [exact Hd|].
  intros s (? & ? & Hs & ?). rewrite split_byte_len in Hs. unfold citizenship_in, span_in. split_and!; [lia..|done].
Qed.
End CitizenshipDetector.

(** ** Longest forms first *)

Section Longest.
Context `{Unicode} `{CountryOrder}.

(** All forms, in no particular order. *)
Definition country_form (f : bytes) : Prop := f ∈ concat (map snd countryForms) ++ other_forms.

Lemma country_form_list f : country_form f ↔ f ∈ countryFormList.
Proof. unfold country_form. by rewrite countryFormList_perm. Qed.

Lemma countryFormList_sorted : StronglySorted not_shorter countryFormList.
Proof. apply sort_longest_spec. Qed.

Lemma longer_forms_spec rest forms best :
  let n := foldl (longer_form rest) best forms in
  best <= n ∧ (∀ f, f ∈ forms → has_prefix rest f = true → len f <= n) ∧
  (n = best ∨ ∃ f, f ∈ forms ∧ has_prefix rest f = true ∧ n = len f).
Proof.
  revert best. induction forms as [|f forms IH]; intros best; cbn [foldl].
  { split_and!; [lia| |by left]. by intros f []%elem_of_nil. }
  destruct (IH (longer_form rest best f)) as (H1 & H2 & H3).
  assert (best <= longer_form rest best f ∧ (has_prefix rest f = true → len f <= longer_form rest best f) ∧
    (longer_form rest best f = best ∨ has_prefix rest f = true ∧ longer_form rest best f = len f)) as (Hge & Hlong & Hf).
  { unfold longer_form. destruct (has_prefix rest f) eqn:Ep; cbn [andb]; [|split_and!; [lia|done|by left]].
    destruct (best <? len f) eqn:E; split_and!; lia. }
  split_and!; [lia| |].
  - intros g [->|Hg]%elem_of_cons Hp; [specialize (Hlong Hp); lia|auto].
  - destruct H3 as [->|(g & Hg & Hp & ->)]; [|right; exists g; split; [by right|done]].
    destruct Hf as [->|[Hp ->]]; [by left|]. right. exists f. split; [left|done].
Qed.

(** The first form that is a prefix is a longest one. *)
Lemma find_longest val form :
  List.find (has_prefix val) countryFormList = Some form →
  country_form form ∧ has_prefix val form = true ∧
  ∀ f, country_form f → has_prefix val f = true → len f <= len form.
Proof.
  setoid_rewrite country_form_list. pose proof countryFormList_sorted as Hs. revert Hs.
  induction countryFormList as [|x l IH]; intros Hs; [done|]. cbn [List.find].
  apply StronglySorted_inv in Hs as [Hs Hx]. destruct (has_prefix val x) eqn:Ep.
  - intros [= <-]. split_and!; [left|done|]. intros f [->|Hf]%elem_of_cons _; [lia|].
    rewrite Forall_forall in Hx. by apply Hx.
  - intros Hf. destruct (IH Hs Hf) as (Hin & Hp & Hmax). split_and!; [by right|done|].
    intros f [->|Hin']%elem_of_cons Hpf; [congruence|by apply Hmax].
Qed.

Lemma find_none val f :
  List.find (has_prefix val) countryFormList = None → country_form f → has_prefix val f = false.
Proof. intros Hn Hf%country_form_list%list_elem_of_In. by apply (find_none _ _ Hn). Qed.
End Longest.

(** Whatever order the map of country names is visited in: the length that
    [longestCountryPrefix] returns is at least that of every country form the text
    begins with, and is that of one of them, of a "республика <word>" or 0; and the
    answer to a citizenship question is a longest form its line begins with. *)
Lemma longest_country_form `{Unicode} `{CountryOrder} rest next lineStart :
  (∀ f, country_form f → has_prefix rest f = true → len f <= longestCountryPrefix rest) ∧
  (longestCountryPrefix rest = 0 ∨
   (∃ f, country_form f ∧ has_prefix rest f = true ∧ longestCountryPrefix rest = len f) ∨
   ∃ m, Find republicRe rest = Some m ∧ m_start m = 0 ∧ longestCountryPrefix rest = m_end m) ∧
  (str_index next ":" < 0 →
   ∃ l, matchDialogNext next lineStart = Some l ∧
     (l = [] → ∀ f, country_form f → has_prefix (trim_space next) f = false) ∧
     ∀ s, s ∈ l → ∃ form, country_form form ∧ has_prefix (trim_space next) form = true ∧
       sp_End s - sp_Start s = len form ∧
       ∀ f, country_form f → has_prefix (trim_space next) f = true → len f <= len form).
Proof.
  pose proof (longer_forms_spec rest countryFormList 0) as (Hn & Hmax & Hat).
  unfold longestCountryPrefix. set (n := foldl (longer_form rest) 0 countryFormList) in *. split_and!.
  - intros f Hf%country_form_list Hp. specialize (Hmax f Hf Hp). destruct (Find republicRe rest) as [m|]; [|done].
    destruct ((m_start m =? 0) && (n <? m_end m)) eqn:E; lia.
  - destruct (Find republicRe rest) as [m|] eqn:Em.
    + destruct ((m_start m =? 0) && (n <? m_end m)) eqn:E; [right; right; exists m; split_and!; [done|lia|done]|].
      destruct Hat as [->|(f & Hf & Hp & ->)]; [by left|]. right. left. exists f. by rewrite country_form_list.
    + destruct Hat as [->|(f & Hf & Hp & ->)]; [by left|]. right. left. exists f. by rewrite country_form_list.
  - intros Hc. unfold matchDialogNext. replace (0 <=? str_index next ":") with false by lia.
    cbn [mbind option_bind]. eexists. split; [done|]. split.
    + intros Hl f. apply find_none. by destruct (List.find _ _).
    + intros s. destruct (List.find _ _) as [form|] eqn:E; [|by intros []%elem_of_nil].
      intros ->%list_elem_of_singleton. apply find_longest in E as (Hf & Hp & Hlong).
      exists form. split_and!; [done|done| |done]. cbn [citizenship_span sp_Start sp_End]. lia.
Qed.

(** ** Lowercase of another length

    When the lowercased text is longer or shorter than the text, the detector still
    uses its offsets in the text. *)

(** Letters that take three bytes in lower case and two in upper case. *)
Definition crash_text : bytes := str_repeat "Ⱥ" 23 ++ go_bytes "гражданство".

Definition stroke_lower (r : Z) : Z := if r =? 0x23A then 0x2C65 else r.

Lemma crash_text_lower `{Unicode} :
  to_lower 0x23A = 0x2C65 → lower_string crash_text = map_runes stroke_lower crash_text.
Proof.
  intros Ha. unfold lower_string, map_runes. f_equal. apply map_ext_Forall.
  assert (Forall (λ r, r = 0x23A ∨ in_rng 0x430 0x44F r = true) (runes crash_text)) as Hr
    by (apply (bool_decide_unpack _); vm_compute; exact I).
  eapply Forall_impl; [exact Hr|]. cbv beta. intros r [->|Hru]; [done|]. rewrite to_lower_ru by (unfold in_rng in *; lia).
  unfold stroke_lower, in_rng in *. replace (r =? 0x23A) with false by lia.
  by replace ((0x410 <=? r) && (r <=? 0x42F)) with false by lia.
Qed.

(** Twenty-three capital letters A with stroke (U+023A, one byte longer in lower case)
    before the word "гражданство": an index is out of range. *)
Lemma citizenship_panic_spec `{Unicode} `{CountryOrder} :
  to_lower 0x23A = 0x2C65 → citizenship_DetectLower (text_of crash_text) = None.
Proof.
  intros Ha. unfold citizenship_DetectLower, text_of. cbn [t_Raw t_Lower].
  rewrite crash_text_lower by done. vm_compute. reflexivity.
Qed.

(** ** White space behind an answer

    The answer to a question is looked for in the trimmed line, and its place is
    counted from the end of the line: white space behind it moves the span. *)

(** A text with the line ends of Windows. *)
Definition crlf_answer : bytes :=
  "Какое гражданство?" ++ ["013"%byte; "010"%byte] ++ go_bytes "Россия" ++ ["013"%byte; "010"%byte].

(** On a text with the line ends of Windows the span of the answer starts one byte
    late, inside a letter, and ends behind the carriage return: what it replaces is not
    text, and the rest of the letter stays. *)
Lemma citizenship_answer_shifted :
  ∃ s, citizenship_Detect crlf_answer = Some [s] ∧ utf8_valid crlf_answer ∧
    ¬ rune_boundary crlf_answer (sp_Start s) ∧
    slice crlf_answer (sp_Start s - 1) (sp_End s) = go_bytes "Россия" ++ ["013"%byte].
Proof.
  eexists. split; [vm_compute; reflexivity|]. split; [apply (bool_decide_unpack _); vm_compute; exact I|].
  split; [apply (bool_decide_unpack _); vm_compute; exact I|]. by vm_compute.
Qed.
