(* ===== verification/Issuer.v ===== *)
(** * Package [detectors]: issuing authorities of passports

    Models [internal/pii/detectors/issuer.go]. A result [None] is a run-time panic or a
    loop that does not end. *)

From S2P Require Import Prelude GoText Float64 Pii Keywords Mask Regexp RegexpSyntax Pipeline.
From S2P Require Import TextUtil RulesSound DateWord.

Definition issuerContextRe : re := MustCompile
  "(?i)(?:^|[^\p{L}])(кем выдан|выдавший орган|орган выдачи|орган, выдавший|дата выдачи|выдано|выдана|выдан|выдали|выдачи|получал|получала|получил|получила|получен|получена|кем|орган)(?:[^\p{L}]|$)".

Definition issuerStartWordRe : re := MustCompile
  "(?i)(паспортным столом|межрайонным|отделением|отделении|отделения|отделом|отделе|отдел|управлением|управления|управление|миграционным|миграционной|паспортно-визовым|паспортным|паспортного|генеральным консульством|генеральное консульство|консульством|консульство|консульства|посольством|посольство|посольства|министерством внутренних дел|министерство внутренних дел|гу мвд|гувм мвд|гувд|оуфмс|уфмс|фмс|омвд|умвд|увм|овм|увд|овд|мвд|милиции|о/м|тп|оп|мп)".

Definition issuerGapRe : re := MustCompile
  "(?i)^(?:[^а-яёА-ЯЁ]+|клиент\s*:\s*|оператор\s*:\s*)*".

Definition issuerTermRe : re := MustCompile
  "(?i)(?:\n|;|\d{1,2}[./-]\d{1,2}[./-]\d{4}|\d{1,2}\s+(?:января|февраля|марта|апреля|мая|июня|июля|августа|сентября|октября|ноября|декабря)\s+\d{4}|\d{1,2}\s+(?:янв|фев|мар|апр|мая|май|июн|июл|авг|сен|сент|окт|ноя|дек)\.?\s+\d{4}|код подразделения|к/п|дата выдачи|выдан|гражданство)".

Definition issuerContextLowerRe : re := MustCompile
  "(?:^|[^\p{L}])(кем выдан|выдавший орган|орган выдачи|орган, выдавший|дата выдачи|выдано|выдана|выдан|выдали|выдачи|получал|получала|получил|получила|получен|получена|кем|орган)(?:[^\p{L}]|$)".

Definition issuerStartWordLowerRe : re := MustCompile
  "(паспортным столом|межрайонным|отделением|отделении|отделения|отделом|отделе|отдел|управлением|управления|управление|миграционным|миграционной|паспортно-визовым|паспортным|паспортного|генеральным консульством|генеральное консульство|консульством|консульство|консульства|посольством|посольство|посольства|министерством внутренних дел|министерство внутренних дел|гу мвд|гувм мвд|гувд|оуфмс|уфмс|фмс|омвд|умвд|увм|овм|увд|овд|мвд|милиции|о/м|тп|оп|мп)".

Definition issuerGapLowerRe : re := MustCompile
  "^(?:[^а-яёА-ЯЁ]+|клиент\s*:\s*|оператор\s*:\s*)*".

Definition issuerTermLowerRe : re := MustCompile
  "(?:\n|;|\d{1,2}[./-]\d{1,2}[./-]\d{4}|\d{1,2}\s+(?:января|февраля|марта|апреля|мая|июня|июля|августа|сентября|октября|ноября|декабря)\s+\d{4}|\d{1,2}\s+(?:янв|фев|мар|апр|мая|май|июн|июл|авг|сен|сент|окт|ноя|дек)\.?\s+\d{4}|код подразделения|к/п|дата выдачи|выдан|гражданство)".

Definition issuerOrganKeywordRe : re := MustCompile
  "(?i)(?:^|[^\p{L}])(?:внутренних дел|уфмс|мвд|овд|увд|омвд|умвд|милиции|полиции|россии|района|р-на|города|г\.|по|№)(?:[^\p{L}]|$)".

Definition issuerDecadeGap : bytes := "\d{1,4}-х(?:\s+(?:годах|года|гг\.?))?".

Definition issuerAbbrevs : list bytes := strs [
  "г"; "ул"; "д"; "кв"; "пр"; "пер"; "обл"; "респ"; "стр"; "корп"; "оф"; "пом"; "комн"; "пос"; "дер"; "ст";
  "гор"; "наб"; "пл"; "ш"; "р-н"; "пгт"; "т"; "др"; "пр-т"; "пр-д"; "б-р"].

Definition issuerContinuations : list bytes := strs [
  "по"; "в"; "и"; "г"; "гор"; "район"; "района"; "области"; "отдел"; "отделом"; "отделение"; "отделением";
  "тп"; "№"; "край"; "края"; "округ"; "округа"].

Definition issuerAlwaysEnd : list bytes := strs [
  "копия"; "приложена"; "документ"; "дата"; "код"].

(** ** Words *)

Definition isWordBoundary (b : byte) : bool := bool_decide (b ∈ [" "; "009"; "010"; ","]%byte).

(** The two loops of [nextWord] on the bytes that are left. *)
Fixpoint skip_blank (rest : bytes) : bytes :=
  match rest with
  | b :: rest' => if bool_decide (b ∈ [" "; "009"; "010"]%byte) then skip_blank rest' else rest
  | [] => []
  end.

Fixpoint take_word (rest : bytes) : bytes :=
  match rest with
  | b :: rest' => if isWordBoundary b then [] else b :: take_word rest'
  | [] => []
  end.

Definition nextWord (text : bytes) (pos : Z) : option bytes :=
  rest ← go_slice text pos (len text); Some (take_word (skip_blank rest)).

(** The loop of [isAbbrevPeriod]. *)
Fixpoint word_start (text : bytes) (tokStart : nat) : option nat :=
  match tokStart with
  | O => Some O
  | S j => b ← text !! j; if bool_decide (b ∈ [" "; "010"]%byte) then Some tokStart else word_start text j
  end.

(** The loop of [issuerStartWithNumber]. *)
Fixpoint digits_back (search : bytes) (j : nat) : option nat :=
  match j with
  | O => Some O
  | S k => b ← search !! k; if digit_byte b then digits_back search k else Some j
  end.

Definition issuerStartWithNumber (search : bytes) (start : Z) : option Z :=
  let i := start - 1 in
  if i <? 0 then Some start else
  b ← go_index search i;
  if negb (bool_decide (b = " "%byte)) then Some start else
  j ← digits_back search (Z.to_nat i);
  if Z.of_nat j =? i then Some start else
  dated ← (if (0 <? j)%nat then b ← go_index search (Z.of_nat j - 1); Some (bool_decide (b ∈ ["."; "/"; "-"]%byte))
           else Some false);
  Some (if dated : bool then start else Z.of_nat j).

Definition sentenceEnd (raw text : bytes) (pos : Z) : option bool :=
  if pos + 1 =? len text then Some true else
  b ← go_index text (pos + 1);
  if bool_decide (b = " "%byte) && (pos + 2 <? len text) then r ← decodedRune raw (pos + 2); Some (isUpperRune r)
  else Some false.

(** The first position in [[i, end_)] where [stops] holds, else [end_]. *)
Fixpoint cut_at (stops : Z → option bool) (fuel : nat) (i end_ : Z) : option Z :=
  match fuel with
  | O => if i <? end_ then None else Some end_
  | S fuel =>
      if i <? end_ then s ← stops i; if s : bool then Some i else cut_at stops fuel (i + 1) end_
      else Some end_
  end.

Section Issuer.
Context `{Unicode} `{SliceSort}.

Definition issuerGapWordRe : re := MustCompile
  (go_bytes "(?i)(?:в|г\.?|гор\.?|мне|был|была|паспорт)(?:[^\p{L}]|$)|клиент\s*:\s*|оператор\s*:\s*|" ++ dateWordsPattern).

Definition issuerDateGapRe : re := MustCompile
  (go_bytes "(?i)^\s*(?:\d{1,2}[./-]\d{1,2}[./-]\d{4}|\d{1,2}\s+(?:января|февраля|марта|апреля|мая|июня|июля|августа|сентября|октября|ноября|декабря|янв|фев|мар|апр|май|июн|июл|авг|сен|сент|окт|ноя|дек)\.?\s+\d{4}|" ++ dateWordsPattern ++ go_bytes "|" ++ issuerDecadeGap ++ go_bytes ")(?:\s+(?:года|г\.|г\b))?").

Definition isAbbrevPeriod (text : bytes) (pos : Z) : option bool :=
  tokStart ← word_start text (Z.to_nat pos);
  tok ← go_slice text (Z.of_nat tokStart) pos;
  Some (bool_decide (lower_string tok ∈ issuerAbbrevs)).

Definition commaEndsValue (text : bytes) (pos : Z) : option bool :=
  next ← nextWord text (pos + 1);
  if bool_decide (next = []) then Some false else
  let lower := lower_string next in
  Some (bool_decide (lower ∈ issuerAlwaysEnd) || negb (bool_decide (lower ∈ issuerContinuations))).

Definition issuerEndAtPeriod (raw text : bytes) (start end_ : Z) : option Z :=
  cut_at (λ i,
    b ← go_index text i;
    if negb (bool_decide (b = "."%byte)) then Some false else
    abbrev ← isAbbrevPeriod text i;
    if abbrev : bool then Some false else sentenceEnd raw text i)
    (Z.to_nat (end_ - start)) start end_.

Definition issuerEndAtComma (text : bytes) (start end_ : Z) : option Z :=
  cut_at (λ i,
    b ← go_index text i;
    if negb (bool_decide (b = ","%byte)) then Some false else commaEndsValue text i)
    (Z.to_nat (end_ - start)) start end_.

(** [idx := strings.Index(text[cut:], word); cut += idx + len(word)] *)
Definition cut_step (text : bytes) (cut : Z) (word : bytes) : option Z :=
  rest ← go_slice text cut (len text); Some (cut + (str_index rest word + len word)).

Definition issuerEnd (raw text : bytes) (start : Z) (termRe : re) : option Z :=
  windowEnd ← runeOffsetAfter text start 300;
  window ← go_slice text start windowEnd;
  let end_ := foldl (λ e m, Z.min e (start + m_start m)) windowEnd (FindAll termRe window) in
  end_ ← issuerEndAtPeriod raw text start end_;
  end_ ← issuerEndAtComma text start end_;
  value ← go_slice text start end_;
  let words := fields value in
  if (16 <? length words)%nat then
    cut ← fold_opt (cut_step text) start (take 16 words); Some (Z.min cut end_)
  else Some end_.

Definition issuerStartValid (search : bytes) (start : Z) : option bool :=
  word ← nextWord search start;
  if negb (has_prefix (lower_string word) "отдел") then Some true else
  windowEnd ← runeOffsetAfter search start 40;
  window ← go_slice search start windowEnd;
  Some (MatchString issuerOrganKeywordRe window).

Definition consumeIssuerGap (search : bytes) (pos windowEnd : Z) (gapRe : re) : option Z :=
  window ← go_slice search pos windowEnd;
  let at_end r := match Find r window with Some m => m_end m | None => 0 end in
  if 0 <? at_end issuerDateGapRe then Some (pos + at_end issuerDateGapRe)
  else if 0 <? at_end gapRe then Some (pos + at_end gapRe)
  else match Find issuerGapWordRe window with
       | Some m => Some (if (m_start m =? 0) && (0 <? m_end m) then pos + m_end m else pos)
       | None => Some pos
       end.

(** The loop of [findIssuerStart]: every round returns or moves [pos] right. *)
Fixpoint start_loop (fuel : nat) (search : bytes) (pos windowEnd : Z) (startRe gapRe : re) : option Z :=
  match fuel with
  | O => None
  | S fuel =>
      if windowEnd <=? pos then Some (-1) else
      next ← consumeIssuerGap search pos windowEnd gapRe;
      if pos <? next then start_loop fuel search next windowEnd startRe gapRe else
      window ← go_slice search pos windowEnd;
      match Find startRe window with
      | None => Some (-1)
      | Some m =>
          if 0 <? m_start m then Some (-1) else
          let start := pos + m_start m in
          valid ← issuerStartValid search start;
          if negb valid then Some (-1) else issuerStartWithNumber search start
      end
  end.

Definition findIssuerStart (search : bytes) (from : Z) (startRe gapRe : re) : option Z :=
  windowEnd ← runeOffsetAfter search from 300;
  start_loop (S (length search)) search from windowEnd startRe gapRe.

Definition issuer_name : bytes := "issuer".

(** The body of the loop of [DetectLower]. *)
Definition issuer_match (text search : bytes) (startRe gapRe termRe : re) (spans : list Span) (m : found)
    : option (list Span) :=
  let ctxEnd := match group 1 (m_caps m) with Some (_, e) => e | None => -1 end in
  start ← findIssuerStart search ctxEnd startRe gapRe;
  if start <? 0 then Some spans else
  end_ ← issuerEnd text search start termRe;
  value ← go_slice search start end_;
  let value := trim_right [" "; ","; "."]%byte value in
  if bool_decide (value = []) then Some spans else
  Some (spans ++ [MkSpan start (start + len value) CatPassportIssuer issuer_name (f64_lit 9 10)]).

Definition issuer_DetectLower (t : Text) : option (list Span) :=
  let text := t_Raw t in
  if LowerOK t then
    fold_opt (issuer_match text (t_Lower t) issuerStartWordLowerRe issuerGapLowerRe issuerTermLowerRe) []
      (FindAll issuerContextLowerRe (t_Lower t))
  else
    fold_opt (issuer_match text text issuerStartWordRe issuerGapRe issuerTermRe) [] (FindAll issuerContextRe text).

Definition issuer_Detect (text : bytes) : option (list Span) := issuer_DetectLower (text_of text).

Definition NewIssuerDetector : Detector :=
  MkDetector issuer_name [CatPassportIssuer] issuer_Detect (Some issuer_DetectLower).
End Issuer.

Definition issued (text : bytes) : option (list bytes) :=
  spans ← issuer_Detect text; Some (map (λ s, slice text (sp_Start s) (sp_End s)) spans).

Example issued_moscow :
  issued "Паспорт выдан 12.03.2015 ОУФМС России по г. Москве, код 770-001" = Some [go_bytes "ОУФМС России по г. Москве"].
Proof. vm_compute. reflexivity. Qed.

Example issued_number :
  issued "получил пятого марта 1995 года 16 о/м Центрального р-на. Далее" = Some [go_bytes "16 о/м Центрального р-на"].
Proof. vm_compute. reflexivity. Qed.

Example issued_post : issued "выдали в отделении почты" = Some [].
Proof. vm_compute. reflexivity. Qed.

(** ** The detector returns, and its spans lie in the text *)

Section IssuerLoops.

Lemma skip_blank_le rest : (length (skip_blank rest) <= length rest)%nat.
Proof. induction rest as [|b rest IH]; cbn [skip_blank]; [done|]. case_match; cbn [length]; lia. Qed.

Lemma nextWord_total text pos : 0 <= pos <= len text → ∃ w, nextWord text pos = Some w.
Proof. intros Hp. unfold nextWord. rewrite go_slice_Some by lia. by eexists. Qed.

Lemma word_start_total text j : (j <= length text)%nat → ∃ k, word_start text j = Some k ∧ (k <= j)%nat.
Proof.
  induction j as [|j IH]; intros Hj; cbn [word_start]; [by exists O|].
  destruct (lookup_lt_is_Some_2 text j) as [b ->]; [lia|]. cbn [mbind option_bind].
  case_match; [by exists (S j)|]. destruct IH as (k & -> & ?); [lia|]. exists k. split; [done|lia].
Qed.

Lemma digits_back_total text j : (j <= length text)%nat → ∃ k, digits_back text j = Some k ∧ (k <= j)%nat.
Proof.
  induction j as [|j IH]; intros Hj; cbn [digits_back]; [by exists O|].
  destruct (lookup_lt_is_Some_2 text j) as [b ->]; [lia|]. cbn [mbind option_bind].
  case_match; [|by exists (S j)]. destruct IH as (k & -> & ?); [lia|]. exists k. split; [done|lia].
Qed.

Lemma issuerStartWithNumber_spec search start :
  0 <= start <= len search → ∃ j, issuerStartWithNumber search start = Some j ∧ 0 <= j <= start.
Proof.
  intros Hs. unfold issuerStartWithNumber. destruct (start - 1 <? 0) eqn:E; [exists start; split; [done|lia]|].
  destruct (go_index_some search (start - 1)) as [b ->]; [lia|]. cbn [mbind option_bind].
  case_match; [exists start; split; [done|lia]|].
  destruct (digits_back_total search (Z.to_nat (start - 1))) as (j & -> & Hj); [unfold len in Hs; lia|].
  cbn [mbind option_bind]. case_match; [exists start; split; [done|lia]|].
  assert (∃ d, (if (0 <? j)%nat then b ← go_index search (Z.of_nat j - 1); Some (bool_decide (b ∈ ["."; "/"; "-"]%byte))
    else Some false) = Some d) as [d ->].
  { destruct (0 <? j)%nat eqn:Ej; [|by eexists]. destruct (go_index_some search (Z.of_nat j - 1)) as [c ->]; [lia|].
    by eexists. }
  cbn [mbind option_bind]. eexists. split; [done|]. destruct d; lia.
Qed.

Lemma cut_at_spec stops fuel i e :
  i <= e → e <= i + Z.of_nat fuel → (∀ j, i <= j < e → is_Some (stops j)) →
  ∃ c, cut_at stops fuel i e = Some c ∧ i <= c <= e.
Proof.
  revert i. induction fuel as [|fuel IH]; intros i Hi Hf Hs; cbn [cut_at].
  { destruct (i <? e) eqn:E; [lia|]. exists e. split; [done|lia]. }
  destruct (i <? e) eqn:E; [|exists e; split; [done|lia]]. destruct (Hs i) as [s ->]; [lia|]. cbn [mbind option_bind].
  destruct s; [exists i; split; [done|lia]|]. destruct (IH (i + 1)) as (c & -> & ?); [lia|lia| |].
  - intros j Hj. apply Hs. lia.
  - exists c. split; [done|lia].
Qed.

(** The words occur one after the other. *)
Fixpoint in_order (ws : list bytes) (s : bytes) : Prop :=
  match ws with
  | [] => True
  | w :: ws => ∃ u v, s = u ++ w ++ v ∧ in_order ws v
  end.

Lemma in_order_app_l ws u s : in_order ws s → in_order ws (u ++ s).
Proof.
  destruct ws as [|w ws]; [done|]. cbn [in_order]. intros (x & v & -> & H). exists (u ++ x), v.
  by rewrite <- app_assoc.
Qed.

Lemma in_order_app_r ws s u : in_order ws s → in_order ws (s ++ u).
Proof.
  revert s. induction ws as [|w ws IH]; intros s; [done|]. cbn [in_order]. intros (x & v & -> & H).
  exists x, (v ++ u). rewrite <- !app_assoc. split; [done|by apply IH].
Qed.

Lemma in_order_take n ws s : in_order ws s → in_order (take n ws) s.
Proof.
  revert n s. induction ws as [|w ws IH]; intros [|n] s; cbn [firstn in_order]; try done.
  intros (x & v & -> & H). exists x, v. split; [done|by apply IH].
Qed.

Lemma chunk_words_in_order p cs cur : in_order (chunk_words p cs cur) (cur ++ raw cs).
Proof.
  revert cur. induction cs as [|[r b] cs IH]; intros cur; cbn [chunk_words].
  { destruct (decide (cur = [])); [done|]. exists [], []. by rewrite !app_nil_r. }
  change (raw ((r, b) :: cs)) with (b ++ raw cs). destruct (p r).
  - rewrite app_assoc. apply IH.
  - pose proof (in_order_app_l _ b _ (IH [])) as Hrest. destruct (decide (cur = [])) as [->|]; [exact Hrest|].
    by exists [], (b ++ raw cs).
Qed.

Lemma fields_in_order s : in_order (fields s) s.
Proof. unfold fields, fields_func. rewrite <- (raw_chunks s) at 2. apply (chunk_words_in_order _ _ []). Qed.

(** The loop that cuts behind the words finds each of them. *)
Lemma cut_steps_spec text ws cut :
  0 <= cut <= len text → in_order ws (slice text cut (len text)) →
  ∃ c, fold_opt (cut_step text) cut ws = Some c ∧ cut <= c <= len text.
Proof.
  revert cut. induction ws as [|w ws IH]; intros cut Hc Hw; cbn [fold_opt]; [exists cut; split; [done|lia]|].
  destruct Hw as (u & v & Hs & Hv). set (rest := slice text cut (len text)) in *.
  assert (cut_step text cut w = Some (cut + (str_index rest w + len w))) as ->
    by (unfold cut_step; by rewrite go_slice_Some by lia).
  cbn [mbind option_bind].
  assert (len rest = len text - cut) as Hr by (apply len_slice; lia).
  assert (occurs_at rest w (len u)) as Hocc.
  { split; [rewrite Hs, len_app; pose proof (len_nonneg u); pose proof (len_nonneg (w ++ v)); lia|].
    unfold len. rewrite Nat2Z.id, Hs, drop_app_exact by done. apply has_prefix_app. }
  pose proof (index_opt_spec rest w) as Hi. unfold str_index.
  destruct (index_opt rest w) as [i|]; [|by apply Hi in Hocc]. change (default (-1) (Some i)) with i. destruct Hi as [Hi Hmin].
  specialize (Hmin _ Hocc). pose proof (occurs_at_slice _ _ _ Hi) as [Hle _]. destruct Hi as [Hi0 _].
  pose proof (len_nonneg w).
  destruct (IH (cut + (i + len w))) as (c & -> & ?); [lia| |exists c; split; [done|lia]].
  assert (∃ x, slice text (cut + (i + len w)) (len text) = x ++ v) as [x ->]; [|by apply in_order_app_l].
  exists (drop (Z.to_nat (i + len w)) (u ++ w)).
  assert (slice text (cut + (i + len w)) (len text) = drop (Z.to_nat (i + len w)) rest) as ->.
  { unfold rest, slice. rewrite skipn_firstn_comm, drop_drop. f_equal; [lia|]. f_equal. lia. }
  rewrite Hs, app_assoc, drop_app_le; [done|]. rewrite length_app. unfold len in *. lia.
Qed.

Lemma offset_loop_spec n s i :
  0 <= i <= len s → ∃ e, offset_loop n s i = Some e ∧ i <= e <= len s.
Proof.
  revert i. induction n as [|n IH]; intros i Hi; cbn [offset_loop]; [exists i; split; [done|lia]|].
  destruct (i <? len s) eqn:E; [|exists i; split; [done|lia]]. rewrite go_slice_Some by lia. cbn [mbind option_bind].
  set (rest := slice s i (len s)). assert (len rest = len s - i) as Hl by (apply len_slice; lia).
  pose proof (decode_rune_width rest) as Hw.
  assert (rest ≠ []) as Hne by (intros Hr; rewrite Hr, len_nil in Hl; lia). specialize (Hw Hne).
  destruct (IH (i + Z.of_nat (snd (decode_rune rest)))) as (e & -> & ?); [unfold len in *; lia|].
  exists e. split; [done|lia].
Qed.

Lemma runeOffsetAfter_spec s i n :
  0 <= i <= len s → ∃ e, runeOffsetAfter s i n = Some e ∧ i <= e <= len s.
Proof.
  intros Hi. unfold runeOffsetAfter. case_match; [exists i; split; [done|lia]|]. by apply offset_loop_spec.
Qed.

Lemma decodedRune_total s i : 0 <= i <= len s → ∃ r, decodedRune s i = Some r.
Proof. intros Hi. unfold decodedRune. rewrite go_slice_Some by lia. by eexists. Qed.

Lemma sentenceEnd_total raw text i :
  len text = len raw → 0 <= i < len text → is_Some (sentenceEnd raw text i).
Proof.
  intros Hl Hi. unfold sentenceEnd. destruct (i + 1 =? len text) eqn:E; [by eexists|].
  destruct (go_index_some text (i + 1)) as [b ->]; [lia|]. cbn [mbind option_bind].
  destruct (bool_decide _ && _) eqn:Eb; [|by eexists]. apply andb_true_iff in Eb as [_ Eb].
  destruct (decodedRune_total raw (i + 2)) as [r ->]; [lia|by eexists].
Qed.
End IssuerLoops.

Section IssuerFacts.
Context `{Unicode} `{SliceSort}.

Lemma isAbbrevPeriod_total text i : 0 <= i <= len text → ∃ b, isAbbrevPeriod text i = Some b.
Proof.
  intros Hi. unfold isAbbrevPeriod. destruct (word_start_total text (Z.to_nat i)) as (k & -> & Hk); [unfold len in Hi; lia|].
  cbn [mbind option_bind]. rewrite go_slice_Some by lia. by eexists.
Qed.

Lemma commaEndsValue_total text i : 0 <= i < len text → is_Some (commaEndsValue text i).
Proof.
  intros Hi. unfold commaEndsValue. destruct (nextWord_total text (i + 1)) as [w ->]; [lia|]. cbn [mbind option_bind].
  case_match; by eexists.
Qed.

Lemma issuerEndAtPeriod_spec raw text start e :
  len text = len raw → 0 <= start → start <= e → e <= len text →
  ∃ c, issuerEndAtPeriod raw text start e = Some c ∧ start <= c <= e.
Proof.
  intros Hl ???. apply cut_at_spec; [done|lia|]. intros j Hj.
  destruct (go_index_some text j) as [b ->]; [lia|]. cbn [mbind option_bind]. case_match; [by eexists|].
  destruct (isAbbrevPeriod_total text j) as [a ->]; [lia|]. cbn [mbind option_bind]. destruct a; [by eexists|].
  apply sentenceEnd_total; [done|lia].
Qed.

Lemma issuerEndAtComma_spec text start e :
  0 <= start → start <= e → e <= len text →
  ∃ c, issuerEndAtComma text start e = Some c ∧ start <= c <= e.
Proof.
  intros ???. apply cut_at_spec; [done|lia|]. intros j Hj.
  destruct (go_index_some text j) as [b ->]; [lia|]. cbn [mbind option_bind]. case_match; [by eexists|].
  apply commaEndsValue_total. lia.
Qed.

Lemma min_starts_spec (ms : list found) start e :
  Forall (λ m, 0 <= m_start m) ms → start <= e →
  start <= foldl (λ e m, Z.min e (start + m_start m)) e ms <= e.
Proof.
  intros Hm. revert e. induction Hm as [|m ms Hm _ IH]; intros e He; cbn [foldl]; [lia|].
  specialize (IH (Z.min e (start + m_start m)) ltac:(lia)). lia.
Qed.

Lemma issuerEnd_spec raw text start termRe :
  len text = len raw → 0 <= start <= len text →
  ∃ e, issuerEnd raw text start termRe = Some e ∧ start <= e <= len text.
Proof.
  intros Hl Hs. unfold issuerEnd. destruct (runeOffsetAfter_spec text start 300 Hs) as (we & -> & Hwe).
  cbn [mbind option_bind]. rewrite go_slice_Some by lia. cbn [mbind option_bind].
  pose proof (min_starts_spec (FindAll termRe (slice text start we)) start we) as Hmin.
  set (e1 := foldl _ we _) in *. specialize (Hmin ltac:(
    eapply Forall_impl; [apply (FindAll_in [] termRe)|]; intros m Hm; apply (match_in_bounds _ _ _ _ Hm)) ltac:(lia)).
  destruct (issuerEndAtPeriod_spec raw text start e1) as (e2 & -> & He2); [done|lia..|]. cbn [mbind option_bind].
  destruct (issuerEndAtComma_spec text start e2) as (e3 & -> & He3); [lia..|]. cbn [mbind option_bind].
  rewrite go_slice_Some by lia. cbn [mbind option_bind]. case_match; [|exists e3; split; [done|lia]].
  destruct (cut_steps_spec text (take 16 (fields (slice text start e3))) start) as (c & -> & Hc); [lia| |].
  - apply in_order_take. rewrite (slice_split text start e3 (len text)) by lia. apply in_order_app_r, fields_in_order.
  - cbn [mbind option_bind]. eexists. split; [done|lia].
Qed.

Lemma issuerStartValid_total search start : 0 <= start <= len search → ∃ b, issuerStartValid search start = Some b.
Proof.
  intros Hs. unfold issuerStartValid. destruct (nextWord_total search start) as [w ->]; [lia|]. cbn [mbind option_bind].
  case_match; [by eexists|]. destruct (runeOffsetAfter_spec search start 40 Hs) as (e & -> & ?).
  cbn [mbind option_bind]. rewrite go_slice_Some by lia. by eexists.
Qed.

Lemma match_end_bound r s : 0 <= match Find r s with Some m => m_end m | None => 0 end <= len s.
Proof. destruct (Find r s) eqn:E; [apply Find_bounds in E|pose proof (len_nonneg s)]; lia. Qed.

Lemma consumeIssuerGap_spec search pos we gapRe :
  0 <= pos → pos <= we → we <= len search →
  ∃ n, consumeIssuerGap search pos we gapRe = Some n ∧ pos <= n <= we.
Proof.
  intros ???. unfold consumeIssuerGap. rewrite go_slice_Some by lia. cbn [mbind option_bind].
  set (w := slice search pos we). assert (len w = we - pos) as Hw by (apply len_slice; lia).
  pose proof (match_end_bound issuerDateGapRe w). pose proof (match_end_bound gapRe w).
  set (x := match Find issuerDateGapRe w with Some m => m_end m | None => 0 end) in *.
  set (y := match Find gapRe w with Some m => m_end m | None => 0 end) in *. clearbody x y.
  destruct (0 <? x) eqn:Ex; [eexists; split; [done|lia]|]. destruct (0 <? y) eqn:Ey; [eexists; split; [done|lia]|].
  destruct (Find issuerGapWordRe w) as [m|] eqn:E; [|exists pos; split; [done|lia]].
  apply Find_bounds in E. eexists. split; [done|]. case_match; lia.
Qed.

Lemma start_loop_spec fuel search pos we startRe gapRe :
  0 <= pos <= we → we <= len search → we - pos < Z.of_nat fuel →
  ∃ r, start_loop fuel search pos we startRe gapRe = Some r ∧ (r = -1 ∨ 0 <= r <= len search).
Proof.
  intros Hpos Hwe. revert pos Hpos. induction fuel as [|fuel IH]; intros pos Hpos Hf; cbn [start_loop].
  { lia. }
  destruct (we <=? pos) eqn:E; [exists (-1); split; [done|by left]|].
  destruct (consumeIssuerGap_spec search pos we gapRe) as (n & -> & Hn); [lia..|]. cbn [mbind option_bind].
  destruct (pos <? n) eqn:En; [apply IH; lia|]. rewrite go_slice_Some by lia. cbn [mbind option_bind].
  destruct (Find startRe (slice search pos we)) as [m|] eqn:Em; [|exists (-1); split; [done|by left]].
  apply Find_bounds in Em. rewrite len_slice in Em by lia.
  destruct (0 <? m_start m) eqn:Es; [exists (-1); split; [done|by left]|].
  destruct (issuerStartValid_total search (pos + m_start m)) as [v ->]; [lia|]. cbn [mbind option_bind].
  destruct v; cbn [negb]; [|exists (-1); split; [done|by left]].
  destruct (issuerStartWithNumber_spec search (pos + m_start m)) as (j & -> & Hj); [lia|].
  exists j. split; [done|lia].
Qed.

Lemma findIssuerStart_spec search from startRe gapRe :
  0 <= from <= len search →
  ∃ r, findIssuerStart search from startRe gapRe = Some r ∧ (r = -1 ∨ 0 <= r <= len search).
Proof.
  intros Hf. unfold findIssuerStart. destruct (runeOffsetAfter_spec search from 300 Hf) as (we & -> & ?).
  cbn [mbind option_bind]. apply start_loop_spec; [lia|lia|]. unfold len in *. lia.
Qed.

Definition issuer_in (raw : bytes) (s : Span) : Prop := span_in raw s ∧ sp_Category s = CatPassportIssuer.

Lemma issuer_match_spec raw search startRe gapRe termRe ctxRe spans m :
  len search = len raw → match_in [] ctxRe search m → is_Some (group 1 (m_caps m)) →
  ∃ l, issuer_match raw search startRe gapRe termRe spans m = Some (spans ++ l) ∧ Forall (issuer_in raw) l.
Proof.
  intros Hl Hm [[a b] Hg]. unfold issuer_match. rewrite Hg.
  assert (0 <= b <= len search) as Hb.
  { destruct Hm as [_ Hgs _]. rewrite Forall_forall in Hgs. apply group_in in Hg. specialize (Hgs _ Hg).
    cbn [fst snd] in Hgs. destruct Hgs as (_ & _ & _ & v & Hv & _). apply at_runes_slice in Hv. lia. }
  destruct (findIssuerStart_spec search b startRe gapRe Hb) as (start & -> & Hs). cbn [mbind option_bind].
  destruct (start <? 0) eqn:E; [exists []; by rewrite app_nil_r|].
  destruct (issuerEnd_spec raw search start termRe) as (e & -> & He); [done|lia|]. cbn [mbind option_bind].
  rewrite go_slice_Some by lia. cbn [mbind option_bind].
  pose proof (trim_right_le [" "; ","; "."]%byte (slice search start e)) as Ht. rewrite len_slice in Ht by lia.
  case_bool_decide as Hne; [exists []; by rewrite app_nil_r|]. eexists. split; [done|]. constructor; [|constructor].
  apply len_pos in Hne. unfold issuer_in, span_in. cbn [sp_Start sp_End sp_Category]. split_and!; [lia..|done].
Qed.

Lemma issuer_sets : sets 1 issuerContextLowerRe && sets 1 issuerContextRe = true.
Proof. by vm_compute. Qed.

Lemma issuer_fold raw search startRe gapRe termRe ctxRe :
  len search = len raw → sets 1 ctxRe = true →
  ∃ l, fold_opt (issuer_match raw search startRe gapRe termRe) [] (FindAll ctxRe search) = Some l ∧
    Forall (issuer_in raw) l.
Proof.
  intros Hl Hset. pose proof (FindAll_sets 1 ctxRe search Hset) as Hg.
  destruct (FindAll_in [] ctxRe search) as [Hf _]. revert Hg Hf.
  generalize (@nil Span) (Forall_nil_2 (issuer_in raw)).
  induction (FindAll ctxRe search) as [|m ms IH]; intros spans Hs Hg Hf; cbn [fold_opt]; [by exists spans|].
  apply Forall_cons_1 in Hg as [Hg Hgs]. apply Forall_cons_1 in Hf as [Hm Hms].
  destruct (issuer_match_spec raw search startRe gapRe termRe ctxRe spans m Hl Hm Hg) as (l & -> & Hlist).
  cbn [mbind option_bind]. apply IH; [by apply Forall_app|done|done].
Qed.

Lemma issuer_spec t :
  ∃ l, issuer_DetectLower t = Some l ∧ Forall (issuer_in (t_Raw t)) l.
Proof.
  pose proof issuer_sets as [H1 H2]%andb_true_iff. unfold issuer_DetectLower. destruct (LowerOK t) eqn:E.
  - apply issuer_fold; [unfold LowerOK in E; lia|done].
  - by apply issuer_fold.
Qed.
End IssuerFacts.
