(* ===== verification/NameDict.v ===== *)
(** * Package [detectors]: the classes of name words

    Models the dictionaries and the classification of words of
    [internal/pii/detectors/names_tokens.go]. The Go maps to [bool] are lists of keys
    here; the suffix constants of [names.go] are written out. *)

From S2P Require Import Prelude GoText Pii Regexp RegexpSyntax Dict.
From S2P Require Import TextUtil Tokens.

(** ** Words and stems *)

(** [lower[:len(lower)-len(e)]] for the first suffix [e] of the list that [lower] has. *)
Fixpoint cut_suffix (suffixes : list bytes) (lower : bytes) : bytes :=
  match suffixes with
  | [] => lower
  | e :: rest => if has_suffix lower e then trim_suffix lower e else cut_suffix rest lower
  end.

Definition nameStem (name : bytes) : bytes :=
  let r := runes name in
  match last r with
  | None => name
  | Some c => if bool_decide (c ∈ [0x430; 0x44F; 0x439]) (* а я й *) then encode_runes (removelast r) else name
  end.

Definition surnameStem (s : bytes) : bytes := cut_suffix (strs ["ов"; "ев"; "ин"; "ын"]) s.

Definition case_endings : list bytes := strs ["ыми"; "ими"; "ого"; "ому"; "ами"; "ах"; "ым"; "им"; "ой";
    "ом"; "ем"].

Definition normalizeWord (lower : bytes) : bytes :=
  cut_suffix (strs ["ов"; "ев"; "ёв"; "ин"; "ын"])
    (cut_suffix (case_endings ++ strs ["а"; "я"; "у"; "ы"; "е"; "й"]) lower).

Definition stopWords : list bytes := strs [
  "банк"; "москва"; "россия"; "российская"; "федерация"; "область"; "город"; "улица"; "дом"; "клиент";
  "паспорт"; "отделение"; "офис"; "договор"; "счёт"; "карта"; "номер"; "карты"; "зачисления"; "для"; "на";
  "по"; "от"; "гражданин"; "гражданка"; "республики"; "республика"; "дата"; "место"; "рождения";
  "рождение"; "рожден"; "рождён"; "xxxx"; "тест"; "тестов"; "тестовой"; "тестовой среде"; "январь";
  "января"; "февраль"; "февраля"; "март"; "апрель"; "апреля"; "май"; "мая"; "июнь"; "июня"; "июль"; "июля";
  "августа"; "сентябрь"; "сентября"; "октябрь"; "октября"; "ноябрь"; "ноября"; "декабрь"; "декабря";
  "понедельник"; "вторник"; "среда"; "четверг"; "пятница"; "суббота"; "воскресенье"; "основной";
  "гражданина"; "гражданину"; "гражданином"; "гражданине"; "имя"; "фамилия"; "фамилию"; "отчество";
  "свидетель"; "клиентка"; "заёмщик"; "заемщик"; "созаёмщик"; "созаемщик"; "заявитель"; "оператор"].

Definition nameContext : list bytes := strs [
  "клиент"; "клиентка"; "заявитель"; "гражданин"; "гражданка"; "держатель"; "владелец"; "фио"; "имя";
  "зовут"; "меня зовут"; "сотрудник"; "менеджер"; "фамилия"; "фамилию"; "отчество"; "свидетель"; "заёмщик";
  "заемщик"; "созаёмщик"; "созаемщик"; "поручитель"; "получатель"; "отправитель"; "вкладчик";
  "представитель"].

Definition fieldLabelContext : list bytes := strs [
  "фамилия"; "фамилию"; "отчество"; "свидетель"].

Definition famousSubjectMarkers : list bytes := strs [
  "клиент"; "клиентка"; "заёмщик"; "заемщик"; "созаёмщик"; "созаемщик"; "заявитель"; "гражданин";
  "гражданка"; "фио"; "ф.и.о."; "имя"; "зовут"; "на имя"; "для"; "паспорт"; "тел."; "тел:"; "телефон";
  "поручитель"; "получатель"; "отправитель"; "держатель"; "вкладчик"; "владелец счета"; "владелец счёта";
  "представитель"; "доверенное лицо"; "позвонил"; "позвонила"; "звонил"; "звонила"; "обратился";
  "обратилась"; "пришёл"; "пришла"].

Definition familyRelationRe : re := MustCompile
  "(?:^|[^а-яёА-ЯЁ])мо(?:й|я|его|ю)\s+(?:брат|муж|жен|сын|доч|отц|отец|матер|мать)[а-яё]*".

Definition personActionContext : list bytes := strs [
  "позвонил"; "позвонила"; "звонил"; "звонила"; "обратился"; "обратилась"; "пришёл"; "пришла"; "просил";
  "просила"; "попросил"; "попросила"].

Definition greetingContext : list bytes := strs [
  "уважаемый"; "уважаемая"; "уважаемые"].

Definition lowercaseNameContext : list bytes := strs [
  "клиент"; "фио"; "ф.и.о."; "заёмщик"; "заемщик"; "имя"; "зовут"; "обращаться"; "представьтесь";
  "фамилию"; "фамилия"].

Definition patrMarkers : list bytes := strs [
  "кызы"; "оглы"; "улы"].

Definition fleetingVowelNameStems : list (bytes * bytes) := [("павл" : bytes, "павел" : bytes)].

(** ** Patronymics and suffixes *)

Definition patSuffixes : list bytes := strs ["ович"; "евич"; "ич"; "овна"; "евна"; "ична"; "инична"].

Definition buildPatForms : list bytes :=
  concat (map (λ suf,
    suf :: (if has_suffix suf "а" then
              let base := encode_runes (removelast (runes suf)) in
              map (app base) (strs ["ы"; "е"; "у"; "ой"; "ою"; "ам"; "ами"; "ах"])
            else
              map (app suf) (strs ["а"; "у"; "ы"; "е"; "ем"; "ом"; "и"; "ей"; "ам"; "ами"; "ах"])))
    patSuffixes).

Definition patForms : list bytes := buildPatForms.

Definition isPatronymic (lower : bytes) : bool := existsb (has_suffix lower) patForms.

Definition isInitialToken (lower : bytes) : bool :=
  match runes lower with
  | [r0; r1] => (r1 =? 0x2E) && isLetterRune r0
  | _ => false
  end.

Definition suffixSurnameBase (base : bytes) : bool :=
  existsb (has_suffix base) (strs ["ов"; "ев"; "ёв"; "ин"; "ын"; "ский"; "цкий"; "ская"; "цкая"]).

Definition suffixSurname (lower : bytes) : bool :=
  existsb (has_suffix lower)
    (strs ["ский"; "цкий"; "ская"; "цкая"; "енко"; "ук"; "юк"; "ян"; "дзе"; "швили"; "ых"; "их"; "ова";
    "ева"; "ёва"; "ина"; "ына"; "ов"; "ев"; "ёв"; "ин"; "ын"]) ||
  existsb (λ e, has_suffix lower e && suffixSurnameBase (trim_suffix lower e))
    (case_endings ++ strs ["а"; "у"; "ы"; "е"]).

(** ** Dictionaries *)

Record namesDict := MkNamesDict {
  nd_names : list bytes;
  nd_nameStems : list bytes;
  nd_surnameStems : list bytes;
  nd_famous : list (list bytes);
  nd_famousSurnames : list bytes
}.

(** [readDict(path)], [data] being the file if it is there. *)
Definition readDict (data : option bytes) : list bytes :=
  match data with
  | None => []
  | Some data => List.filter (λ line, negb (bool_decide (line = []))) (map trim_space (split_byte "010" data))
  end.

(** The two things [loadFamousLine] adds for a line. *)
Definition famous_stems (line : bytes) : list bytes := map normalizeWord (fields line).
Definition famous_surname (line : bytes) : list bytes :=
  match last (fields line) with Some w => [normalizeWord w] | None => [] end.

Definition loadNamesDict (fs : bytes → option bytes) : namesDict :=
  let first_names := readDict (fs "dict/first_names.txt") in
  let surnames := readDict (fs "dict/surnames.txt") in
  let famous := readDict (fs "dict/famous.txt") in
  MkNamesDict first_names (map nameStem first_names) (map surnameStem surnames)
    (map famous_stems famous) (concat (map famous_surname famous)).

(** ** Classification *)

Definition mem (w : bytes) (l : list bytes) : bool := existsb (eq_bytes w) l.

Section Classify.
Context (dict : namesDict).

Definition isNameToken (lower : bytes) : bool :=
  mem lower (nd_names dict) ||
  existsb (λ e,
    has_suffix lower e &&
    let stem := trim_suffix lower e in
    mem stem (nd_names dict) || mem stem (nd_nameStems dict) ||
    existsb (λ '(cut, full), eq_bytes cut stem && mem full (nd_names dict)) fleetingVowelNameStems)
    (strs ["а"; "я"; "у"; "ю"; "ой"; "ей"; "ом"; "ем"; "е"; "и"; "ы"]).

Definition dictSurnameBase (s : bytes) : bool :=
  existsb (λ suf, has_suffix s suf && mem (trim_suffix s suf) (nd_surnameStems dict)) (strs ["ов"; "ев";
    "ин"; "ын"]).

Definition dictSurname (lower : bytes) : bool :=
  existsb (λ e, has_suffix lower e && dictSurnameBase (trim_suffix lower e))
    (case_endings ++ strs ["а"; "у"; "ы"; "е"; "ов"; "ев"; "ин"; "ын"]) ||
  dictSurnameBase lower.

Definition isSurnameToken (lower : bytes) : bool * bool :=
  if mem (normalizeWord lower) (nd_famousSurnames dict) then (true, false)
  else (dictSurname lower, suffixSurname lower).

Record nameToken := MkNameToken {
  nt_token : token;
  nt_lower : bytes;
  isName : bool;
  isSurname : bool;
  isSurnameGuess : bool;
  isPatr : bool;
  isInitial : bool;
  isPatrMarker : bool
}.

(** [classify], on the token it is called for. *)
Definition classify (tok : token) (lower : bytes) : nameToken :=
  if mem lower stopWords then MkNameToken tok lower false false false false false false
  else
    let '(surname, guess) := isSurnameToken lower in
    MkNameToken tok lower (isNameToken lower) surname guess (isPatronymic lower) (isInitialToken lower)
      (mem lower patrMarkers).
End Classify.

Definition nt_start (t : nameToken) : Z := tk_start (nt_token t).
Definition nt_end (t : nameToken) : Z := tk_end (nt_token t).
Definition nt_text (t : nameToken) : bytes := tk_text (nt_token t).

Definition isNameOrSurname (t : nameToken) : bool := isName t || isSurname t || isSurnameGuess t.
Definition isCoreName (t : nameToken) : bool := isNameOrSurname t || isPatr t || isInitial t.
Definition isNameLike (t : nameToken) : bool := isCoreName t || isPatrMarker t.
Definition isNameLikeNoMarker (t : nameToken) : bool := isCoreName t.
Definition isNameLikeConfident (t : nameToken) : bool := isName t || isSurname t || isPatr t || isInitial t.
Definition isSurnameLike (t : nameToken) : bool := isSurname t || isSurnameGuess t.

(** [m[x]++] and [m[x]--], with the counts as a map. *)
Definition sameMultiset (a b : list bytes) : bool :=
  if negb (length a =? length b)%nat then false
  else
    let m := foldl (λ (m : gmap bytes Z) x, <[x := default 0 (m !! x) + 1]> m) ∅ a in
    bool_decide (is_Some (fold_opt (λ (m : gmap bytes Z) x,
      let n := default 0 (m !! x) - 1 in if n <? 0 then None else Some (<[x := n]> m)) m b)).

Example classes :
  let d := loadNamesDict names_files in
  let c w := let t := classify d (MkToken 0 0 []) w in
             (isName t, isSurname t, isSurnameGuess t, isPatr t) in
  c "павла" = (true, true, false, false) ∧ c "иванову" = (false, true, true, false) ∧
  c "сергеевны" = (false, false, false, true) ∧ c "толстым" = (false, true, false, false) ∧
  c "город" = (false, false, false, false).
Proof. vm_compute. split_and!; reflexivity. Qed.

(** ** Multisets *)

Section Multiset.

Definition count_in (l : list bytes) (x : bytes) : Z := Z.of_nat (length (List.filter (λ y, bool_decide (y = x)) l)).

Lemma count_in_cons y l x : count_in (y :: l) x = (if bool_decide (y = x) then 1 else 0) + count_in l x.
Proof. unfold count_in. cbn [List.filter]. case_bool_decide; cbn [length]; lia. Qed.

Lemma count_in_nonneg l x : 0 <= count_in l x.
Proof. unfold count_in. lia. Qed.

Lemma count_up (a : list bytes) (m : gmap bytes Z) x :
  default 0 (foldl (λ (m : gmap bytes Z) x, <[x := default 0 (m !! x) + 1]> m) m a !! x) =
  default 0 (m !! x) + count_in a x.
Proof.
  revert m. induction a as [|y a IH]; intros m; cbn [foldl]; [unfold count_in; simpl; lia|].
  rewrite IH, count_in_cons. case_bool_decide as Hy.
  - subst y. rewrite lookup_insert_eq. simpl. lia.
  - rewrite lookup_insert_ne by done. lia.
Qed.

Lemma count_down (b : list bytes) (m : gmap bytes Z) :
  (∀ x, 0 <= default 0 (m !! x)) →
  is_Some (fold_opt (λ (m : gmap bytes Z) x,
    let n := default 0 (m !! x) - 1 in if n <? 0 then None else Some (<[x := n]> m)) m b) ↔
  ∀ x, count_in b x <= default 0 (m !! x).
Proof.
  revert m. induction b as [|y b IH]; intros m Hm; cbn [fold_opt].
  { split; [intros _ x; apply Hm|by eexists]. }
  assert (∀ x, count_in (y :: b) x = (if bool_decide (y = x) then 1 else 0) + count_in b x) as Hc
    by (intros; apply count_in_cons).
  destruct (default 0 (m !! y) - 1 <? 0) eqn:E; cbn [mbind option_bind].
  - split; [by intros [? ?]|]. intros Hle. specialize (Hle y). rewrite Hc, bool_decide_eq_true_2 in Hle by done.
    pose proof (count_in_nonneg b y). lia.
  - rewrite IH.
    + split; intros Hle x; specialize (Hle x); rewrite Hc in *; (destruct (decide (y = x)) as [->|Hne];
        [rewrite lookup_insert_eq, bool_decide_eq_true_2 in * by done; simpl in *; lia|
         rewrite lookup_insert_ne, bool_decide_eq_false_2 in * by done; lia]).
    + intros x. destruct (decide (y = x)) as [->|Hne]; [rewrite lookup_insert_eq; simpl; lia|].
      rewrite lookup_insert_ne by done. apply Hm.
Qed.

Lemma count_in_perm a b : Permutation a b → ∀ x, count_in a x = count_in b x.
Proof.
  induction 1 as [|y a b _ IH|y z a|a b c _ IH1 _ IH2]; intros x; [done| | |].
  - rewrite !count_in_cons, IH. done.
  - rewrite !count_in_cons. lia.
  - by rewrite IH1, IH2.
Qed.

Lemma count_in_elem l x : 0 < count_in l x → x ∈ l.
Proof.
  induction l as [|y l IH]; [done|]. rewrite count_in_cons. case_bool_decide as Hy; [subst; left|].
  intros H. right. apply IH. lia.
Qed.

Lemma count_le_perm a b : length a = length b → (∀ x, count_in b x <= count_in a x) → Permutation a b.
Proof.
  revert a. induction b as [|y b IH]; intros a Hl Hc; [by destruct a|].
  assert (y ∈ a) as Hy.
  { apply count_in_elem. specialize (Hc y). rewrite count_in_cons, bool_decide_eq_true_2 in Hc by done.
    pose proof (count_in_nonneg b y). lia. }
  apply list_elem_of_split in Hy as (a1 & a2 & ->). rewrite <- Permutation_middle. constructor. apply IH.
  - rewrite length_app in *. cbn [length] in Hl. lia.
  - intros x. specialize (Hc x). rewrite (count_in_perm _ _ (symmetry (Permutation_middle a1 a2 y))) in Hc.
    rewrite !count_in_cons in Hc. lia.
Qed.

(** [sameMultiset] decides equality up to order. *)
Lemma sameMultiset_perm a b : sameMultiset a b = true ↔ Permutation a b.
Proof.
  unfold sameMultiset. destruct (length a =? length b)%nat eqn:El; cbn [negb].
  - apply Nat.eqb_eq in El. rewrite bool_decide_eq_true, count_down.
    + setoid_rewrite count_up. setoid_rewrite lookup_empty. simpl. split.
      * intros Hc. apply count_le_perm; [done|]. intros x. specialize (Hc x). lia.
      * intros Hp x. rewrite (count_in_perm _ _ Hp). lia.
    + intros x. rewrite count_up, lookup_empty. simpl. pose proof (count_in_nonneg a x). lia.
  - split; [done|]. intros Hp%Permutation_length. apply Nat.eqb_neq in El. lia.
Qed.
End Multiset.
