(* ===== verification/NamesLatin.v ===== *)
(** * Package [detectors]: names in Latin letters and foreign names

    Models [internal/pii/detectors/names_latin.go], and the state that the name detector
    threads through its rules: which tokens a span covers, and the spans so far. A
    result [None] is a run-time panic. *)

From S2P Require Import Prelude GoText Float64 Pii Regexp Pipeline.
From S2P Require Import TextUtil Tokens Labels NameDict.

(** ** The state *)

Record nstate := MkNState { ns_covered : list bool; ns_spans : list Span }.

Definition names_name : bytes := "names".

Definition name_span (start end_ : Z) (conf : float64) : Span := MkSpan start end_ CatFullName names_name conf.

(** [covered[i] = true] *)
Definition cover (covered : list bool) (i : nat) : option (list bool) :=
  if decide (i < length covered)%nat then Some (<[i := true]> covered) else None.

Definition emit_name (st : nstate) (s : Span) (idxs : list nat) : option nstate :=
  covered ← fold_opt cover (ns_covered st) idxs; Some (MkNState covered (ns_spans st ++ [s])).

(** ** Words *)

Definition latinNameContext : list bytes := strs [
  "my name is"; "name:"; "full name:"; "имя:"; "клиент"; "заявитель"; "фио:"; "ф.и.о."; "client:"].

Definition foreignNameContext : list bytes := strs [
  "обращаться"; "зовут"; "фамилию"; "фамилия"; "фио"; "представьтесь"; "пропуска"; "для"; "на имя"].

Definition isLatinToken (tok : token) : bool := forallb isLatinLetter (runes (tk_text tok)).

Definition isCapitalized (text : bytes) : bool := isUpperRune (fst (decode_rune text)).

Definition isLowercaseLatinCandidate (tok : token) : bool :=
  if negb (isLatinToken tok) || isCapitalized (tk_text tok) then false else 2 <=? rune_count (tk_text tok).

Definition isForeignNameCandidate (t : nameToken) : bool :=
  if isNameLike t then false
  else if mem (nt_lower t) stopWords then false
  else if rune_count (nt_text t) <? 2 then false
  else isUpperRune (fst (decode_rune (nt_text t))).

(** The bytes behind blanks. *)
Fixpoint skip_spaces (rest : bytes) : bytes :=
  match rest with
  | b :: rest' => if bool_decide (b ∈ [" "; "009"]%byte) then skip_spaces rest' else rest
  | [] => []
  end.

Definition endsPhrase (text : bytes) (b : Z) : bool :=
  match skip_spaces (drop (Z.to_nat b) text) with
  | [] => true
  | c :: rest => bool_decide (c = "010"%byte) || negb (isLetterRune (fst (decode_rune (c :: rest))))
  end.

Definition hasOpenParen (text : bytes) (a b : Z) : option bool := gap ← go_slice text a b; Some (str_contains gap "(").
Definition hasCloseParen (text : bytes) (a b : Z) : option bool := gap ← go_slice text a b; Some (str_contains gap ")").

Section Latin.
Context `{Unicode} (t : Text) (toks : list token).

Fixpoint hasImmediateLabel_in (labels : list bytes) (pos : Z) : option bool :=
  match labels with
  | [] => Some false
  | kw :: labels =>
      window ← runeWindowBefore t pos (rune_count kw + 2);
      if has_suffix (trim_right [" "; "009"]%byte window) kw then Some true else hasImmediateLabel_in labels pos
  end.

Definition hasImmediateLabel (pos : Z) : option bool := hasImmediateLabel_in latinNameContext pos.

(** ** Runs of capitalised Latin words *)

(** How many of the tokens in front are Latin. *)
Fixpoint latin_run (l : list token) : nat :=
  match l with
  | tok :: l => if isLatinToken tok then S (latin_run l) else O
  | [] => O
  end.

Definition collectCapitalized (covered : list bool) (i j : nat) : option (list nat) :=
  fold_opt (λ capIdx k,
    cov ← covered !! k; tok ← toks !! k;
    Some (if negb cov && isCapitalized (tk_text tok) then capIdx ++ [k] else capIdx)) [] (seq i (j - i)).

(** The body of the loop of [emitLatinSpans] on two words and those behind them; the
    flag tells that the third word was taken too. *)
Definition latin_pair (a b : nat) (rest : list nat) (st : nstate) : option (nstate * bool) :=
  cov_a ← ns_covered st !! a; cov_b ← ns_covered st !! b;
  if cov_a || cov_b then Some (st, false) else
  tok_a ← toks !! a; tok_b ← toks !! b;
  ws ← onlyWhitespace (t_Raw t) (tk_end tok_a) (tk_start tok_b);
  if negb ws then Some (st, false) else
  ctx ← hasLeftContext t (tk_start tok_a) latinNameContext 40;
  if negb ctx then Some (st, false) else
  third ← match rest with
          | c :: _ =>
              tok_c ← toks !! c;
              ws ← onlyWhitespace (t_Raw t) (tk_end tok_b) (tk_start tok_c);
              Some (if ws : bool then Some (c, tk_end tok_c) else None)
          | [] => Some None
          end;
  match third with
  | Some (c, end_) =>
      st ← emit_name st (name_span (tk_start tok_a) end_ (f64_lit 9 10)) [a; b; c]; Some (st, true)
  | None =>
      st ← emit_name st (name_span (tk_start tok_a) (tk_end tok_b) (f64_lit 9 10)) [a; b]; Some (st, false)
  end.

(** The loop of [emitLatinSpans] on [capIdx[k:]]. *)
Fixpoint emitLatinSpans (capIdx : list nat) (st : nstate) : option nstate :=
  match capIdx with
  | a :: (b :: rest) as tail =>
      '(st, third) ← latin_pair a b rest st;
      if third : bool then emitLatinSpans rest st else emitLatinSpans tail st
  | _ => Some st
  end.

(** The loop of [detectLatinNames]; as many rounds as tokens are enough [fuel]. *)
Fixpoint latin_loop (fuel i : nat) (st : nstate) : option nstate :=
  match toks !! i with
  | None => Some st
  | Some tok =>
      match fuel with
      | O => None
      | S fuel =>
          cov ← ns_covered st !! i;
          if cov || negb (isLatinToken tok) then latin_loop fuel (S i) st else
          let j := (i + latin_run (drop i toks))%nat in
          capIdx ← collectCapitalized (ns_covered st) i j;
          st ← emitLatinSpans capIdx st;
          latin_loop fuel j st
      end
  end.

Definition detectLatinNames (st : nstate) : option nstate := latin_loop (length toks) 0 st.

(** ** Labelled lowercase Latin words *)

(** The inner loop: [j] moves right at most [more] times. *)
Fixpoint lower_run (more : nat) (covered : list bool) (j : nat) : option nat :=
  match more, toks !! S j with
  | S more, Some next =>
      cov ← covered !! S j; tok ← toks !! j;
      if negb cov && isLowercaseLatinCandidate next then
        ws ← onlyWhitespace (t_Raw t) (tk_end tok) (tk_start next);
        if ws : bool then lower_run more covered (S j) else Some j
      else Some j
  | _, _ => Some j
  end.

Fixpoint lower_loop (fuel i : nat) (st : nstate) : option nstate :=
  match toks !! i with
  | None => Some st
  | Some tok =>
      match fuel with
      | O => None
      | S fuel =>
          cov ← ns_covered st !! i;
          if cov || negb (isLowercaseLatinCandidate tok) then lower_loop fuel (S i) st else
          label ← hasImmediateLabel (tk_start tok);
          if negb label then lower_loop fuel (S i) st else
          j ← lower_run 3 (ns_covered st) i;
          if (j =? i)%nat then lower_loop fuel (S i) st else
          last ← toks !! j;
          st ← emit_name st (name_span (tk_start tok) (tk_end last) (f64_lit 85 100)) (seq i (S j - i));
          lower_loop fuel (S j) st
      end
  end.

Definition detectLowercaseLatinNames (st : nstate) : option nstate := lower_loop (length toks) 0 st.
End Latin.

(** ** Foreign names *)

Section Foreign.
Context `{Unicode} (t : Text) (nt : list nameToken).

Definition foreignRunContinues (covered : list bool) (j : nat) : option bool :=
  match nt !! S j with
  | None => Some false
  | Some next =>
      cov ← covered !! S j;
      if cov || negb (isForeignNameCandidate next) then Some false else
      tok ← nt !! j;
      ws ← onlyWhitespace (t_Raw t) (nt_end tok) (nt_start next);
      if negb ws then Some false else
      gap ← go_slice (t_Raw t) (nt_end tok) (nt_start next);
      Some (negb (str_contains gap (go_bytes "
")))
  end.

(** The run stays below the number of tokens. *)
Fixpoint foreignNameRunEnd (fuel : nat) (covered : list bool) (j : nat) : option nat :=
  more ← foreignRunContinues covered j;
  if more : bool then match fuel with O => None | S fuel => foreignNameRunEnd fuel covered (S j) end else Some j.

Definition validForeignRun (i j : nat) (runLen : Z) : option bool :=
  if (runLen <? 2) || (4 <? runLen) then Some false else
  first ← nt !! i;
  ctx ← hasLeftContext t (nt_start first) foreignNameContext 40;
  if negb ctx then Some false else
  last ← nt !! j;
  Some (endsPhrase (t_Raw t) (nt_end last)).

Fixpoint foreign_loop (fuel i : nat) (st : nstate) : option nstate :=
  match nt !! i with
  | None => Some st
  | Some tok =>
      match fuel with
      | O => None
      | S fuel =>
          cov ← ns_covered st !! i;
          if cov || negb (isForeignNameCandidate tok) then foreign_loop fuel (S i) st else
          j ← foreignNameRunEnd (length nt) (ns_covered st) i;
          valid ← validForeignRun i j (Z.of_nat j - Z.of_nat i + 1);
          if valid : bool then
            last ← nt !! j;
            st ← emit_name st (name_span (nt_start tok) (nt_end last) (f64_lit 9 10)) (seq i (S j - i));
            foreign_loop fuel (S j) st
          else foreign_loop fuel (S i) st
      end
  end.

Definition detectForeignNames (st : nstate) : option nstate := foreign_loop (length nt) 0 st.
End Foreign.

(** ** Names reach from word to word *)

(** From the start of a word to the end of the same or a later word. *)
Definition name_in (toks : list token) (s : Span) : Prop :=
  ∃ i j a b, (i <= j)%nat ∧ toks !! i = Some a ∧ toks !! j = Some b ∧ sp_Start s = tk_start a ∧
    sp_End s = tk_end b ∧ sp_Category s = CatFullName.

Record st_ok (toks : list token) (st : nstate) : Prop := {
  so_covered : length (ns_covered st) = length toks;
  so_spans : Forall (name_in toks) (ns_spans st)
}.

Lemma returns_cover covered i :
  (i < length covered)%nat → returns (cover covered i) (λ c, length c = length covered).
Proof.
  intros Hi. unfold cover. destruct (decide _); [|done]. apply returns_ret, length_insert.
Qed.

(** The second of [a] and [b] is the first of [b]'s suffix of the text. *)
Lemma returns_emit_name toks st i j a b start end_ conf idxs :
  st_ok toks st → (i <= j)%nat → toks !! i = Some a → toks !! j = Some b → start = tk_start a → end_ = tk_end b →
  Forall (λ k, (k < length toks)%nat) idxs →
  returns (emit_name st (name_span start end_ conf) idxs) (st_ok toks).
Proof.
  intros [Hc Hs] Hij Ha Hb -> -> Hk. unfold emit_name.
  eapply returns_bind.
  - apply (returns_fold _ (λ c, length c = length toks) (λ k, (k < length toks)%nat)); [done|done|].
    intros c k Hlen Hlt. eapply returns_mono; [apply returns_cover; lia|]. intros c' ->. done.
  - intros c Hlen. apply returns_ret. split; [done|]. apply Forall_app. split; [done|].
    constructor; [|constructor]. exists i, j, a, b. done.
Qed.

Section WordFacts.
Context `{Unicode} (t : Text) (toks : list token) (Hw : words_of (t_Raw t) toks).

Lemma word_pos i a :
  toks !! i = Some a → 0 <= tk_start a ∧ tk_start a < tk_end a ∧ tk_end a <= len (t_Raw t).
Proof. intros Ha. destruct Hw as [Hf _]. rewrite Forall_lookup in Hf. exact (Hf i a Ha). Qed.

Lemma word_order i j a b :
  toks !! i = Some a → toks !! j = Some b → (i < j)%nat → tk_end a <= tk_start b.
Proof.
  intros Ha Hb Hij. destruct Hw as [_ Hs]. revert i j Ha Hb Hij.
  induction Hs as [|x l Hs IH Hx]; intros i j Ha Hb Hij; [done|].
  destruct j as [|j]; [lia|]. destruct i as [|i]; cbn in Ha, Hb.
  - injection Ha as <-. rewrite Forall_lookup in Hx. by eapply Hx.
  - eapply IH; [|exact Ha|exact Hb|lia]. by eapply words_of_tail.
Qed.

Lemma words_monotone i j a b :
  toks !! i = Some a → toks !! j = Some b → (i <= j)%nat → tk_start a <= tk_start b ∧ tk_end a <= tk_end b.
Proof.
  intros Ha Hb Hij. destruct (decide (i = j)) as [->|]; [simplify_eq; lia|].
  pose proof (word_order _ _ _ _ Ha Hb ltac:(lia)). pose proof (word_pos _ _ Ha). pose proof (word_pos _ _ Hb). lia.
Qed.

Lemma name_in_text s : name_in toks s → span_in (t_Raw t) s ∧ sp_Category s = CatFullName.
Proof.
  intros (i & j & a & b & Hij & Ha & Hb & Hs & He & Hc). split; [|done]. unfold span_in.
  pose proof (words_monotone _ _ _ _ Ha Hb Hij). pose proof (word_pos _ _ Ha). pose proof (word_pos _ _ Hb). lia.
Qed.
End WordFacts.

(** Adds where the words of the context begin and end, and their order. *)
Ltac pose_new pf := let P := type of pf in assert_fails (assert P by assumption); pose proof pf.

Ltac word_facts t toks Hw :=
  repeat match goal with
  | H : toks !! _ = Some _ |- _ => pose_new (word_pos t toks Hw _ _ H)
  end;
  repeat match goal with
  | H1 : toks !! ?i = Some ?a, H2 : toks !! ?j = Some ?b |- _ =>
      assert_fails (constr_eq i j);
      let Hlt := fresh in
      assert (i < j)%nat as Hlt by lia; pose_new (word_order t toks Hw _ _ _ _ H1 H2 Hlt); clear Hlt
  end.

Section LatinFacts.
Context `{Unicode} (t : Text) (toks : list token) (Hw : words_of (t_Raw t) toks).

Ltac step := ret_step; word_facts t toks Hw.

Lemma latin_run_le l : (latin_run l <= length l)%nat.
Proof. induction l as [|tok l IH]; cbn; [done|]. case_match; lia. Qed.

(** Increasing indices of words. *)
Definition word_indices (idxs : list nat) : Prop :=
  StronglySorted lt idxs ∧ Forall (λ k, (k < length toks)%nat) idxs.

Lemma collectCapitalized_returns covered i j :
  length covered = length toks → (j <= length toks)%nat → returns (collectCapitalized toks covered i j) word_indices.
Proof.
  intros Hc Hj. unfold collectCapitalized. set (f := λ (capIdx : list nat) k, _ : option (list nat)).
  assert (∀ n i acc, (i + n <= length toks)%nat → StronglySorted lt acc → Forall (λ k, k < i)%nat acc →
    returns (fold_opt f acc (seq i n)) word_indices) as Hfold.
  { clear i j Hj. induction n as [|n IH]; intros i acc Hn Hs Hf; cbn [seq fold_opt].
    - apply returns_ret. split; [done|]. eapply Forall_impl; [exact Hf|]. cbv beta. lia.
    - eapply (returns_bind _ _ (λ acc, StronglySorted lt acc ∧ Forall (λ k, k < S i)%nat acc)).
      + subst f. cbv beta. repeat step. split.
        * destruct (_ && _); [|done]. by apply StronglySorted_app_cons.
        * assert (Forall (λ k, k < S i)%nat acc) by (eapply Forall_impl; [exact Hf|]; cbv beta; lia).
          destruct (_ && _); [|done]. apply Forall_app. split; [done|]. repeat constructor.
      + intros acc' [Hs' Hf']. apply IH; [lia|done|done]. }
  destruct (decide (i <= j)%nat); [apply Hfold; [lia|constructor|constructor]|].
  replace (j - i)%nat with O by lia. cbn [seq fold_opt]. apply returns_ret. split; constructor.
Qed.

Lemma word_indices_tail a l : word_indices (a :: l) → word_indices l.
Proof. intros [Hs Hf]. split; [by inversion Hs|by inversion Hf]. Qed.

Lemma latin_pair_returns a b rest st :
  word_indices (a :: b :: rest) → st_ok toks st →
  returns (latin_pair t toks a b rest st) (λ '(st', third), st_ok toks st' ∧ (third = true → rest ≠ [])).
Proof.
  intros [Hs Hf] Hst. apply StronglySorted_inv in Hs as [Hs Hab]. apply Forall_inv in Hab.
  pose proof (Forall_inv Hf). apply Forall_inv_tail in Hf. pose proof (Forall_inv Hf). cbv beta in *.
  pose proof (so_covered _ _ Hst). unfold latin_pair. repeat step; [done..|].
  eapply (returns_bind _ _ (λ third, ∀ c e, third = Some (c, e) →
    ∃ tok, head rest = Some c ∧ (b < c < length toks)%nat ∧ toks !! c = Some tok ∧ e = tk_end tok)).
  { destruct rest as [|c rest]; [by apply returns_ret|].
    apply StronglySorted_inv in Hs as [_ Hbc]. apply Forall_inv in Hbc. pose proof (Forall_inv (Forall_inv_tail Hf)).
    cbv beta in *. repeat step. intros c' e. case_match; [|done]. intros [= <- <-]. by eexists. }
  intros [[c e]|] Hthird.
  - destruct (Hthird _ _ eq_refl) as (tok & Hc & ? & Htok & ->).
    eapply returns_bind; [eapply (returns_emit_name toks st a c); eauto; first [lia|repeat constructor; lia]|].
    intros st' Hst'. apply returns_ret. split; [done|]. intros _ ->. done.
  - eapply returns_bind; [eapply (returns_emit_name toks st a b); eauto; first [lia|repeat constructor; lia]|].
    intros st' Hst'. by apply returns_ret.
Qed.

Lemma emitLatinSpans_returns n capIdx st :
  (length capIdx <= n)%nat → word_indices capIdx → st_ok toks st →
  returns (emitLatinSpans t toks capIdx st) (st_ok toks).
Proof.
  revert capIdx st. induction n as [|n IH]; intros capIdx st Hn Hi Hst.
  { destruct capIdx; [by apply returns_ret|simpl in Hn; lia]. }
  destruct capIdx as [|a [|b rest]]; [by apply returns_ret..|].
  pose proof (word_indices_tail _ _ Hi) as Hi'. cbn [length] in Hn.
  change (emitLatinSpans t toks (a :: b :: rest) st) with
    ('(st, third) ← latin_pair t toks a b rest st;
     if third : bool then emitLatinSpans t toks rest st else emitLatinSpans t toks (b :: rest) st).
  eapply returns_bind; [by apply latin_pair_returns|]. intros [st' []] [Hst' _].
  - apply IH; [lia|by eapply word_indices_tail|done].
  - apply IH; [cbn [length]; lia|done|done].
Qed.

Lemma latin_loop_returns fuel i st :
  (length toks - i <= fuel)%nat → st_ok toks st → returns (latin_loop t toks fuel i st) (st_ok toks).
Proof.
  revert i st. induction fuel as [|fuel IH]; intros i st Hf Hst; cbn [latin_loop].
  { rewrite (proj2 (lookup_ge_None _ _)) by lia. by apply returns_ret. }
  destruct (toks !! i) as [tok|] eqn:Ei; [|by apply returns_ret].
  pose proof (lookup_lt_Some _ _ _ Ei). pose proof (so_covered _ _ Hst). step.
  destruct (_ || negb _) eqn:E; [apply IH; [lia|done]|].
  pose proof (latin_run_le (drop i toks)) as Hrun. rewrite length_drop in Hrun.
  assert (0 < latin_run (drop i toks))%nat.
  { rewrite (drop_S _ _ _ Ei). cbn [latin_run]. apply orb_false_iff in E as [_ E]. apply negb_false_iff in E. rewrite E. lia. }
  eapply returns_bind; [apply collectCapitalized_returns; lia|]. intros capIdx Hcap.
  eapply returns_bind; [by eapply emitLatinSpans_returns|]. intros st' Hst'. apply IH; [lia|done].
Qed.

Lemma hasImmediateLabel_in_returns labels pos :
  0 <= pos <= len (t_Raw t) → returns (hasImmediateLabel_in t labels pos) (λ _, True).
Proof.
  intros Hpos. induction labels as [|kw labels IH]; cbn [hasImmediateLabel_in]; [by apply returns_ret|].
  step. by repeat step.
Qed.

Lemma lower_run_returns more covered i :
  length covered = length toks → (i < length toks)%nat →
  returns (lower_run t toks more covered i) (λ j, (i <= j < length toks)%nat).
Proof.
  intros Hc. revert i. induction more as [|more IH]; intros i Hi; cbn [lower_run]; [by apply returns_ret|].
  destruct (toks !! S i) as [next|] eqn:En; [|by apply returns_ret].
  pose proof (lookup_lt_Some _ _ _ En). repeat step; [|lia..].
  eapply returns_mono; [by apply IH|]. cbv beta. lia.
Qed.

Lemma Forall_seq_lt i n k : (i + n <= k)%nat → Forall (λ x, (x < k)%nat) (seq i n).
Proof. intros Hk. apply Forall_seq. lia. Qed.

Lemma lower_loop_returns fuel i st :
  (length toks - i <= fuel)%nat → st_ok toks st → returns (lower_loop t toks fuel i st) (st_ok toks).
Proof.
  revert i st. induction fuel as [|fuel IH]; intros i st Hf Hst; cbn [lower_loop].
  { rewrite (proj2 (lookup_ge_None _ _)) by lia. by apply returns_ret. }
  destruct (toks !! i) as [tok|] eqn:Ei; [|by apply returns_ret].
  pose proof (lookup_lt_Some _ _ _ Ei). pose proof (so_covered _ _ Hst). word_facts t toks Hw. step.
  destruct (_ || negb _); [apply IH; [lia|done]|].
  eapply returns_bind; [apply hasImmediateLabel_in_returns; lia|]. intros label _. destruct label; cbn [negb]; [|apply IH; [lia|done]].
  eapply returns_bind; [apply lower_run_returns; lia|]. intros j [Hij Hj]. case_match; [apply IH; [lia|done]|].
  step. eapply returns_bind; [eapply (returns_emit_name toks st i j); eauto; apply Forall_seq_lt; lia|].
  intros st' Hst'. apply IH; [lia|done].
Qed.
End LatinFacts.

Section ForeignFacts.
Context `{Unicode} (t : Text) (nt : list nameToken).
Let toks := map nt_token nt.
Context (Hw : words_of (t_Raw t) toks).

Lemma name_word i a : nt !! i = Some a → toks !! i = Some (nt_token a).
Proof. intros Ha. unfold toks. rewrite list_lookup_fmap. by rewrite Ha. Qed.

Lemma name_words_length : length nt = length toks.
Proof. symmetry. apply length_map. Qed.

Lemma name_pos i a : nt !! i = Some a → 0 <= nt_start a ∧ nt_start a < nt_end a ∧ nt_end a <= len (t_Raw t).
Proof. intros Ha. apply (word_pos t toks Hw i), name_word, Ha. Qed.

Lemma name_order i j a b : nt !! i = Some a → nt !! j = Some b → (i < j)%nat → nt_end a <= nt_start b.
Proof. intros Ha%name_word Hb%name_word. by apply (word_order t toks Hw i j). Qed.
End ForeignFacts.

Ltac name_facts t nt Hw :=
  repeat match goal with
  | H : nt !! _ = Some _ |- _ => pose_new (name_pos t nt Hw _ _ H)
  end;
  repeat match goal with
  | H1 : nt !! ?i = Some ?a, H2 : nt !! ?j = Some ?b |- _ =>
      assert_fails (constr_eq i j);
      let Hlt := fresh in
      assert (i < j)%nat as Hlt by lia; pose_new (name_order t nt Hw _ _ _ _ H1 H2 Hlt); clear Hlt
  end.

Section ForeignLoop.
Context `{Unicode} (t : Text) (nt : list nameToken) (Hw : words_of (t_Raw t) (map nt_token nt)).

Ltac step := ret_step; name_facts t nt Hw.

Lemma foreignRunContinues_returns covered j :
  length covered = length nt → (j < length nt)%nat →
  returns (foreignRunContinues t nt covered j) (λ b, b = true → (S j < length nt)%nat).
Proof.
  intros Hc Hj. unfold foreignRunContinues. destruct (nt !! S j) as [next|] eqn:En; [|by apply returns_ret].
  pose proof (lookup_lt_Some _ _ _ En). repeat step; done.
Qed.

Lemma foreignNameRunEnd_returns fuel covered i :
  length covered = length nt → (i < length nt)%nat → (length nt - i <= S fuel)%nat →
  returns (foreignNameRunEnd t nt fuel covered i) (λ j, (i <= j < length nt)%nat).
Proof.
  intros Hc. revert i. induction fuel as [|fuel IH]; intros i Hi Hf; cbn [foreignNameRunEnd];
    (eapply returns_bind; [by apply foreignRunContinues_returns|]); intros [] Hb; try (apply returns_ret; lia).
  - specialize (Hb eq_refl). lia.
  - specialize (Hb eq_refl). eapply returns_mono; [apply IH; lia|]. cbv beta. lia.
Qed.

Lemma foreign_loop_returns fuel i st :
  (length nt - i <= fuel)%nat → st_ok (map nt_token nt) st →
  returns (foreign_loop t nt fuel i st) (st_ok (map nt_token nt)).
Proof.
  revert i st. induction fuel as [|fuel IH]; intros i st Hf Hst; cbn [foreign_loop].
  { rewrite (proj2 (lookup_ge_None _ _)) by lia. by apply returns_ret. }
  destruct (nt !! i) as [tok|] eqn:Ei; [|by apply returns_ret].
  pose proof (lookup_lt_Some _ _ _ Ei). pose proof (so_covered _ _ Hst) as Hc. rewrite length_map in Hc.
  name_facts t nt Hw. step. destruct (_ || negb _); [apply IH; [lia|done]|].
  eapply returns_bind; [apply foreignNameRunEnd_returns; lia|]. intros j [Hij Hj].
  eapply (returns_bind _ _ (λ _, True)); [unfold validForeignRun; by repeat step|]. intros [] _; [|apply IH; [lia|done]].
  step. eapply returns_bind.
  { eapply (returns_emit_name _ st i j); [done|done|by apply name_word|by apply name_word|done|done|].
    rewrite length_map. apply Forall_seq_lt. lia. }
  intros st' Hst'. apply IH; [lia|done].
Qed.
End ForeignLoop.
