(* ===== verification/Names.v ===== *)
(** * Package [detectors]: Russian full names

    Models [internal/pii/detectors/names.go]: the rules that combine name words into
    spans, tried in order at every candidate. A result [None] is a run-time panic; a
    rule returns [Some None] when it does not apply. *)

From S2P Require Import Prelude GoText Float64 Pii Regexp RegexpSyntax Pipeline Validators.
From S2P Require Import Dict TextUtil Tokens Labels NameDict NamesLatin.

(** ** Lines and cards *)

Definition famousOtherPIIRe : re := MustCompile
  "(?i)(?:\+7|8|7)[\s(-]*\d{3,4}[\s)-]*\d{2,3}[\s-]*\d{2}[\s-]*\d{2}|\b\d{4}\s+\d{6}\b|\b\d{1,2}[./-]\d{1,2}[./-]\d{4}\b|\b\d{4}\s+года\s+рожд|[\p{L}\p{N}._%+\-]+@[\p{L}\p{N}.\-]+\.\p{L}{2,}|\b\d{3}[\s-]\d{3}[\s-]\d{3}[\s-]\d{2}\b|\b\d{12}\b".

Definition newline_char : byte := "010"%byte.

(** [for lineStart > 0 && text[lineStart-1] != '\n' { lineStart-- }] *)
Fixpoint line_start (text : bytes) (i : nat) : option nat :=
  match i with
  | O => Some O
  | S j => b ← text !! j; if decide (b = newline_char) then Some i else line_start text j
  end.

(** The bytes in front of the first newline. *)
Fixpoint line_length (rest : bytes) : Z :=
  match rest with
  | b :: rest => if decide (b = newline_char) then 0 else 1 + line_length rest
  | [] => 0
  end.

Definition line_end (text : bytes) (i : Z) : Z := i + line_length (drop (Z.to_nat i) text).

(** [luhnValid], for a string of digits: the same sum as [validators.luhn]. *)
Fixpoint luhn_sum (double : bool) (digits : bytes) : Z :=
  match digits with
  | [] => 0
  | b :: rest =>
      let n := digit_val b in
      (if double then if 9 <? 2 * n then 2 * n - 9 else 2 * n else n) + luhn_sum (negb double) rest
  end.

Definition luhnValid (d : bytes) : bool := luhn_sum false (rev d) mod 10 =? 0.

(** The loop of [containsLuhnCard]: [digits] is emptied by a byte that is no digit,
    space or dash, and only looked at behind the loop. *)
Definition card_step (digits : bytes) (c : byte) : bytes :=
  if digit_byte c then digits ++ [c]
  else if bool_decide (c ∈ [" "; "-"]%byte) then digits else [].

Definition containsLuhnCard (s : bytes) : bool :=
  let digits := foldl card_step [] s in
  if (len digits <? 13) || (19 <? len digits) then false else luhnValid digits.

Fixpoint drop_runes (p : Z → bool) (cs : list chunk) : list chunk :=
  match cs with
  | (r, _) :: cs' => if p r then drop_runes p cs' else cs
  | [] => []
  end.

(** [strings.TrimFunc] *)
Definition trim_func (p : Z → bool) (s : bytes) : bytes :=
  raw (rev (drop_runes p (rev (drop_runes p (chunks s))))).

Definition onlyWhitespaceOrParen (text : bytes) (a b : Z) : option bool :=
  gap ← go_slice text a b;
  let s := trim_func (λ r, (r =? 0x28) || (r =? 0x29)) (trim_space gap) in
  Some (bool_decide (trim_space s = [])).

Definition occupiesWholeLine (text : bytes) (a b : Z) : option bool :=
  lineStart ← line_start text (Z.to_nat a);
  before ← onlyWhitespace text (Z.of_nat lineStart) a;
  if negb before then Some false else onlyWhitespace text b (line_end text b).

Definition capitalised (t : nameToken) : bool := isUpperRune (fst (decode_rune (nt_text t))).

Section Names.
Context `{Unicode} (dict : namesDict) (t : Text).

Definition famousOtherPIISameLine (start end_ : Z) : option bool :=
  lineStart ← line_start (t_Raw t) (Z.to_nat start);
  let lineStart := Z.of_nat lineStart in
  line ← go_slice (t_Raw t) lineStart (line_end (t_Raw t) end_);
  before ← go_slice line 0 (start - lineStart);
  after ← go_slice line (end_ - lineStart) (len line);
  Some (MatchString famousOtherPIIRe before || MatchString famousOtherPIIRe after ||
        containsLuhnCard before || containsLuhnCard after).

Definition name_stems (seq : list nameToken) : list bytes :=
  map (λ tok, normalizeWord (nt_lower tok)) (List.filter (λ tok, negb (isPatr tok || isInitial tok)) seq).

Definition isFamous (seq : list nameToken) : option bool :=
  if negb (existsb (sameMultiset (name_stems seq)) (nd_famous dict)) then Some false else
  first ← head seq; last ← last seq;
  left_marker ← hasLeftContext t (nt_start first) famousSubjectMarkers 30;
  if left_marker : bool then Some false else
  right_marker ← hasRightContext t (nt_end last) famousSubjectMarkers 30;
  if right_marker : bool then Some false else
  before ← runeWindowBefore t (nt_start first) 30;
  if MatchString familyRelationRe before then Some false else
  after ← runeWindowAfter t (nt_end last) 30;
  if MatchString familyRelationRe after then Some false else
  other ← famousOtherPIISameLine (nt_start first) (nt_end last);
  Some (negb other).

(** ** Sequences of two and three tokens; the confidence of a valid one *)

Definition hasDictOrPatr (seq : list nameToken) : bool :=
  existsb (λ tok, isName tok || isSurname tok || isSurnameGuess tok || isPatr tok) seq.

Definition seq3SurnameNamePatr (a b c : nameToken) : bool :=
  isSurnameLike a && negb (isPatr b) && negb (isInitial b) && isPatr c && hasDictOrPatr [a; b; c].
Definition seq3NamePatrSurname (a b c : nameToken) : bool :=
  isName a && isPatr b && isSurnameLike c && hasDictOrPatr [a; b; c].
Definition seq3SurnameInitials (a b c : nameToken) : bool :=
  isSurnameLike a && isInitial b && isInitial c && hasDictOrPatr [a; b; c].
Definition seq3NameInitials (a b c : nameToken) : bool :=
  isName a && isInitial b && isInitial c && hasDictOrPatr [a; b; c].
Definition seq3InitialsSurname (a b c : nameToken) : bool :=
  isInitial a && isInitial b && isSurnameLike c && hasDictOrPatr [a; b; c].

Definition validSeq3 (a b c : nameToken) : option float64 :=
  if seq3SurnameNamePatr a b c || seq3NamePatrSurname a b c || seq3SurnameInitials a b c ||
     seq3NameInitials a b c || seq3InitialsSurname a b c
  then Some (f64_lit 95 100) else None.

Definition seq2NameSurname (a b : nameToken) : bool := isName a && isSurnameLike b && hasDictOrPatr [a; b].
Definition seq2SurnameName (a b : nameToken) : bool := isSurnameLike a && isName b && hasDictOrPatr [a; b].

Definition seq2NamePatr (a b : nameToken) : option bool :=
  if negb (isName a) || negb (isPatr b) || negb (hasDictOrPatr [a; b]) then Some false else
  left_ctx ← hasLeftContext t (nt_start a) nameContext 30;
  if left_ctx : bool then Some true else
  right_ctx ← hasRightContext t (nt_end b) personActionContext 30;
  if right_ctx : bool then Some true else Some (endsPhrase (t_Raw t) (nt_end b)).

Definition validSeq2 (a b : nameToken) : option (option float64) :=
  if seq2NameSurname a b || seq2SurnameName a b then Some (Some (f64_lit 85 100)) else
  ok ← seq2NamePatr a b;
  Some (if ok : bool then Some (f64_lit 85 100) else None).

Definition validSeq (seq : list nameToken) : option (option float64) :=
  famous ← isFamous seq;
  if famous : bool then Some None else
  match seq with
  | [a; b; c] => Some (validSeq3 a b c)
  | [a; b] => validSeq2 a b
  | _ => Some None
  end.

(** ** Words between and beside candidates *)

Context (nt : list nameToken) (cands : list nat).

Definition singleNameGap (a b : nat) : option (option nat) :=
  if negb (b =? a + 2)%nat then Some None else
  let mid := S a in
  tok_a ← nt !! a; tok ← nt !! mid; tok_b ← nt !! b;
  before ← onlyWhitespaceOrParen (t_Raw t) (nt_end tok_a) (nt_start tok);
  if negb before then Some None else
  after ← onlyWhitespaceOrParen (t_Raw t) (nt_end tok) (nt_start tok_b);
  Some (if negb after then None
        else if isNameLikeConfident tok then None
        else if mem (nt_lower tok) stopWords then None
        else if negb (capitalised tok) then None
        else Some mid).

(** The body of the loop of [twoNameGap]. *)
Definition plain_name (tok : nameToken) : bool :=
  negb (isNameLike tok) && negb (mem (nt_lower tok) stopWords) && capitalised tok.

Definition twoNameGap (a b : nat) : option (option (nat * nat)) :=
  if negb (b =? a + 3)%nat then Some None else
  let mid1 := S a in let mid2 := S (S a) in
  tok_a ← nt !! a; tok1 ← nt !! mid1; tok2 ← nt !! mid2; tok_b ← nt !! b;
  gap1 ← onlyWhitespaceOrParen (t_Raw t) (nt_end tok_a) (nt_start tok1);
  if negb gap1 then Some None else
  gap2 ← onlyWhitespaceOrParen (t_Raw t) (nt_end tok1) (nt_start tok2);
  if negb gap2 then Some None else
  gap3 ← onlyWhitespaceOrParen (t_Raw t) (nt_end tok2) (nt_start tok_b);
  if negb gap3 then Some None else
  Some (if plain_name tok1 && plain_name tok2 then Some (mid1, mid2) else None).

Definition lowercaseNameGap (a b : nat) : option (option nat) :=
  if negb (b =? a + 2)%nat then Some None else
  let mid := S a in
  tok_a ← nt !! a; tok ← nt !! mid; tok_b ← nt !! b;
  before ← onlyWhitespaceOrParen (t_Raw t) (nt_end tok_a) (nt_start tok);
  if negb before then Some None else
  after ← onlyWhitespaceOrParen (t_Raw t) (nt_end tok) (nt_start tok_b);
  if negb after then Some None
  else if isNameLikeConfident tok || isPatrMarker tok then Some None
  else if mem (nt_lower tok) stopWords then Some None
  else
    ctx ← hasLeftContext t (nt_start tok) lowercaseNameContext 40;
    if ctx : bool then Some (Some mid) else
    whole ← occupiesWholeLine (t_Raw t) (nt_start tok_a) (nt_end tok_b);
    Some (if whole : bool then Some mid else None).

Definition unknownNameBefore (b : nat) : option (option nat) :=
  match b with
  | O => Some None
  | S mid => tok ← nt !! mid; Some (if plain_name tok then Some mid else None)
  end.

Definition hyphenSurnameStart (ci : nat) : option (option Z) :=
  match ci with
  | O => Some None
  | S j =>
      prev ← nt !! j; tok ← nt !! ci;
      if isNameLike prev || mem (nt_lower prev) stopWords then Some None
      else if negb (str_contains (nt_text prev) "-") then Some None
      else
        ws ← onlyWhitespace (t_Raw t) (nt_end prev) (nt_start tok);
        Some (if negb ws then None else if negb (capitalised prev) then None else Some (nt_start prev))
  end.

Definition surnamePrecedesFamousPatr (ci : nat) (a b : nameToken) : option bool :=
  match ci with
  | O => Some false
  | S j =>
      prev ← nt !! j; tok ← nt !! ci;
      if negb (isSurnameLike prev) then Some false else
      ws ← onlyWhitespace (t_Raw t) (nt_end prev) (nt_start tok);
      if negb ws then Some false else isFamous [prev; a; b]
  end.

Definition maidenSurnameStart (i : nat) (endPos : Z) : option (option Z) :=
  match i with
  | O => Some None
  | S j =>
      p ← cands !! j; prev ← nt !! p; c ← cands !! i; tok ← nt !! c;
      if negb (isSurnameLike prev) then Some None else
      open ← hasOpenParen (t_Raw t) (nt_end prev) (nt_start tok);
      if negb open then Some None else
      close ← hasCloseParen (t_Raw t) (nt_end tok) endPos;
      Some (if close : bool then Some (nt_start prev) else None)
  end.

Definition trailingPatrMarkerEnd (lastIdx : nat) : option (option Z) :=
  match nt !! S lastIdx with
  | None => Some None
  | Some next =>
      tok ← nt !! lastIdx;
      if negb (isPatrMarker next) then Some None else
      ws ← onlyWhitespace (t_Raw t) (nt_end tok) (nt_start next);
      Some (if ws : bool then Some (nt_end next) else None)
  end.

Definition threeWhitespaceSeparated (i : nat) : option bool :=
  if (length cands <=? i + 2)%nat then Some false else
  a ← cands !! i; b ← cands !! S i; c ← cands !! S (S i);
  tok_a ← nt !! a; tok_b ← nt !! b; tok_c ← nt !! c;
  ws ← onlyWhitespace (t_Raw t) (nt_end tok_a) (nt_start tok_b);
  if negb ws then Some false else onlyWhitespace (t_Raw t) (nt_end tok_b) (nt_start tok_c).

Definition hasAdjacentUncoveredNameLike (covered : list bool) (idx : nat) : option bool :=
  tok ← nt !! idx;
  before ← match idx with
           | O => Some false
           | S j =>
               cov ← covered !! j; prev ← nt !! j;
               if negb cov && isNameLike prev then onlyWhitespace (t_Raw t) (nt_end prev) (nt_start tok)
               else Some false
           end;
  if before : bool then Some true else
  match nt !! S idx with
  | None => Some false
  | Some next =>
      cov ← covered !! S idx;
      if negb cov && isNameLike next then onlyWhitespace (t_Raw t) (nt_end tok) (nt_start next) else Some false
  end.

(** ** The rules

    A rule looks at the candidate [i]; when it applies it returns the new state and the
    number of candidates to pass. *)

Definition name_rule : Type := nat → nstate → option (option (nstate * nat)).

Definition emit (st : nstate) (start end_ : Z) (conf : float64) (idxs : list nat) (adv : nat) :
    option (option (nstate * nat)) :=
  st ← emit_name st (name_span start end_ conf) idxs; Some (Some (st, adv)).

Definition maiden (i : nat) (endPos start : Z) (st : nstate) : option (Z * nstate) :=
  ext ← maidenSurnameStart i endPos;
  match ext with
  | None => Some (start, st)
  | Some start' =>
      p ← cands !! (i - 1)%nat;
      covered ← cover (ns_covered st) p;
      Some (start', MkNState covered (ns_spans st))
  end.

Definition turkicPatronymic : name_rule := λ i st,
  if (length cands <=? i + 1)%nat then Some None else
  a ← cands !! i; b ← cands !! S i; tok_a ← nt !! a; tok_b ← nt !! b;
  if negb (isSurnameLike tok_a && isPatrMarker tok_b) then Some None else
  mid ← twoNameGap a b;
  match mid with
  | None => Some None
  | Some (mid1, mid2) =>
      tok1 ← nt !! mid1; tok2 ← nt !! mid2;
      famous ← isFamous [tok_a; tok1; tok2; tok_b];
      if famous : bool then Some None
      else emit st (nt_start tok_a) (nt_end tok_b) (f64_lit 95 100) [a; mid1; mid2; b] 2
  end.

Definition threeTokenName : name_rule := λ i st,
  ws ← threeWhitespaceSeparated i;
  if negb ws then Some None else
  a ← cands !! i; b ← cands !! S i; c ← cands !! S (S i);
  tok_a ← nt !! a; tok_b ← nt !! b; tok_c ← nt !! c;
  valid ← validSeq [tok_a; tok_b; tok_c];
  match valid with
  | None => Some None
  | Some conf =>
      '(start, st) ← maiden i (nt_start tok_b) (nt_start tok_a) st;
      ext ← trailingPatrMarkerEnd c;
      '(end_, st) ← match ext with
                    | None => Some (nt_end tok_c, st)
                    | Some end_ =>
                        covered ← cover (ns_covered st) (S c); Some (end_, MkNState covered (ns_spans st))
                    end;
      emit st start end_ conf [a; b; c] 3
  end.

Definition twoTokenName : name_rule := λ i st,
  if (length cands <=? i + 1)%nat then Some None else
  a ← cands !! i; b ← cands !! S i; tok_a ← nt !! a; tok_b ← nt !! b;
  ws ← onlyWhitespace (t_Raw t) (nt_end tok_a) (nt_start tok_b);
  if negb ws then Some None else
  valid ← validSeq [tok_a; tok_b];
  match valid with
  | None => Some None
  | Some conf =>
      tail ← (if isName tok_a && isPatr tok_b then surnamePrecedesFamousPatr a tok_a tok_b else Some false);
      if tail : bool then Some None else
      ext ← hyphenSurnameStart a;
      '(start, st) ← match ext with
                     | None => Some (nt_start tok_a, st)
                     | Some start =>
                         covered ← cover (ns_covered st) (a - 1)%nat; Some (start, MkNState covered (ns_spans st))
                     end;
      emit st start (nt_end tok_b) conf [a; b] 2
  end.

Definition emitGapName (i mid : nat) (conf : float64) (st : nstate) : option (option (nstate * nat)) :=
  a ← cands !! i; b ← cands !! S i; tok_a ← nt !! a; tok ← nt !! mid; tok_b ← nt !! b;
  famous ← isFamous [tok_a; tok; tok_b];
  if famous : bool then Some None else
  '(start, st) ← maiden i (nt_start tok) (nt_start tok_a) st;
  emit st start (nt_end tok_b) conf [a; mid; b] 2.

Definition surnameGapName : name_rule := λ i st,
  if (length cands <=? i + 1)%nat then Some None else
  a ← cands !! i; b ← cands !! S i; tok_a ← nt !! a; tok_b ← nt !! b;
  if negb (isSurnameLike tok_a && isPatr tok_b) then Some None else
  mid ← singleNameGap a b;
  match mid with
  | Some mid => emitGapName i mid (f64_lit 95 100) st
  | None =>
      mid ← lowercaseNameGap a b;
      match mid with
      | Some mid => emitGapName i mid (f64_lit 9 10) st
      | None => Some None
      end
  end.

Definition patrSurnameName : name_rule := λ i st,
  if (length cands <=? i + 1)%nat then Some None else
  a ← cands !! i; b ← cands !! S i; tok_a ← nt !! a; tok_b ← nt !! b;
  if negb (isPatr tok_a && isSurnameLike tok_b) then Some None else
  mid ← unknownNameBefore a;
  match mid with
  | None => Some None
  | Some mid =>
      tok ← nt !! mid;
      famous ← isFamous [tok; tok_a; tok_b];
      if famous : bool then Some None
      else emit st (nt_start tok) (nt_end tok_b) (f64_lit 9 10) [mid; a; b] 2
  end.

Definition greetingNamePatr : name_rule := λ i st,
  a ← cands !! i; tok_a ← nt !! a;
  if negb (isPatr tok_a) then Some None else
  mid ← unknownNameBefore a;
  match mid with
  | None => Some None
  | Some mid =>
      tok ← nt !! mid;
      greeted ← hasLeftContext t (nt_start tok) greetingContext 20;
      if negb greeted then Some None else
      famous ← isFamous [tok; tok_a];
      if famous : bool then Some None
      else emit st (nt_start tok) (nt_end tok_a) (f64_lit 85 100) [mid; a] 1
  end.

Definition surnameUnknownName : name_rule := λ i st,
  a ← cands !! i; tok_a ← nt !! a;
  if negb (isSurnameLike tok_a) then Some None else
  match nt !! S a with
  | None => Some None
  | Some next =>
      if isNameLike next || mem (nt_lower next) stopWords then Some None else
      ws ← onlyWhitespace (t_Raw t) (nt_end tok_a) (nt_start next);
      if negb ws then Some None else
      gap ← go_slice (t_Raw t) (nt_end tok_a) (nt_start next);
      if str_contains gap [newline_char] then Some None
      else if negb (capitalised next) then Some None
      else
        ctx ← hasLeftContext t (nt_start tok_a) nameContext 30;
        if negb ctx then Some None else
        famous ← isFamous [tok_a; next];
        if famous : bool then Some None
        else emit st (nt_start tok_a) (nt_end next) (f64_lit 9 10) [a; S a] 1
  end.

Definition singleNameWithContext : name_rule := λ i st,
  a ← cands !! i; tok ← nt !! a;
  if isName tok then
    ctx ← hasLeftContext t (nt_start tok) nameContext 30;
    if negb ctx then Some None else emit st (nt_start tok) (nt_end tok) (f64_lit 8 10) [a] 1
  else if isSurnameLike tok || isPatr tok then
    ctx ← hasLeftContext t (nt_start tok) fieldLabelContext 25;
    if negb ctx then Some None else
    adjacent ← hasAdjacentUncoveredNameLike (ns_covered st) a;
    if adjacent : bool then Some None else emit st (nt_start tok) (nt_end tok) (f64_lit 75 100) [a] 1
  else Some None.

(** The first rule that applies. *)
Fixpoint first_rule (rules : list name_rule) (i : nat) (st : nstate) : option (nstate * nat) :=
  match rules with
  | [] => Some (st, 1%nat)
  | r :: rules =>
      handled ← r i st;
      match handled with
      | Some result => Some result
      | None => first_rule rules i st
      end
  end.

Definition name_rules : list name_rule :=
  [turkicPatronymic; threeTokenName; twoTokenName; surnameGapName; patrSurnameName; greetingNamePatr;
   surnameUnknownName; singleNameWithContext].

Definition processCandidate (i : nat) (st : nstate) : option (nstate * nat) :=
  ci ← cands !! i;
  cov ← ns_covered st !! ci;
  if cov : bool then Some (st, 1%nat) else first_rule name_rules i st.

(** Every round passes at least one candidate, so their number is enough fuel. *)
Fixpoint names_loop (fuel i : nat) (st : nstate) : option nstate :=
  if (i <? length cands)%nat then
    match fuel with
    | O => None
    | S fuel =>
        '(st, adv) ← processCandidate i st;
        names_loop fuel (i + adv) st
    end
  else Some st.
End Names.

(** ** The detector *)

Section Detector.
Context `{Unicode}.

Definition nameTokens (dict : namesDict) (t : Text) : option (list nameToken) :=
  mapM (λ tok, lower ← tokenLower t tok; Some (classify dict tok lower)) (tokenize (t_Raw t)).

(** The indices of the words that look like part of a name. *)
Definition name_candidates (nt : list nameToken) : list nat :=
  List.filter (λ i, if nt !! i is Some tok then isNameLike tok else false) (seq 0 (length nt)).

Definition names_DetectLower (dict : namesDict) (t : Text) : option (list Span) :=
  nt ← nameTokens dict t;
  let cands := name_candidates nt in
  let toks := tokenize (t_Raw t) in
  st ← names_loop dict t nt cands (length cands) 0 (MkNState (repeat false (length nt)) []);
  st ← detectLatinNames t toks st;
  st ← detectLowercaseLatinNames t toks st;
  st ← detectForeignNames t nt st;
  Some (ns_spans st).

Definition names_Detect (dict : namesDict) (text : bytes) : option (list Span) :=
  names_DetectLower dict (text_of text).

Definition names_dict : namesDict := loadNamesDict names_files.

Definition NewNamesDetector : Detector :=
  MkDetector names_name [CatFullName] (names_Detect names_dict) (Some (names_DetectLower names_dict)).
End Detector.

Definition found_names (text : bytes) : option (list bytes) :=
  spans ← names_Detect names_dict text; Some (map (λ s, slice text (sp_Start s) (sp_End s)) spans).

Example names_found :
  found_names "Клиент Иванов Иван Иванович, Уважаемая Севиль Эльдаровна! My name is John Smith." =
    Some [go_bytes "Иванов Иван Иванович"; go_bytes "Севиль Эльдаровна"; go_bytes "John Smith"] ∧
  found_names "Поэт Пушкин Александр Сергеевич" = Some [] ∧
  found_names "Клиент Пушкин Александр Сергеевич" = Some [go_bytes "Пушкин Александр Сергеевич"].
Proof. vm_compute. split_and!; reflexivity. Qed.
