(* ===== verification/NamesSound.v ===== *)
(** * Package [detectors]: the name detector returns

    The rules of [Names] never index out of range, and every span they report reaches
    from the start of a word to the end of the same or a later one. *)

From S2P Require Import Prelude GoText Float64 Pii Regexp Pipeline Validators.
From S2P Require Import TextUtil Tokens Labels NameDict NamesLatin Names.

(** ** The detector returns, and its spans reach from word to word *)

Lemma line_start_returns text i : (i <= length text)%nat → returns (line_start text i) (λ j, (j <= i)%nat).
Proof.
  induction i as [|i IH]; intros Hi; cbn [line_start]; [by apply returns_ret|].
  ret_step. case_match; [by apply returns_ret|]. eapply returns_mono; [apply IH; lia|]. cbv beta. lia.
Qed.

Lemma line_length_range rest : 0 <= line_length rest <= len rest.
Proof.
  induction rest as [|b rest IH]; cbn [line_length]; [done|].
  replace (len (b :: rest)) with (1 + len rest) by (unfold len; cbn [length]; lia). case_match; lia.
Qed.

Lemma line_end_bound text i : 0 <= i <= len text → i <= line_end text i <= len text.
Proof.
  intros Hi. unfold line_end. pose proof (line_length_range (drop (Z.to_nat i) text)). rewrite len_drop in *. lia.
Qed.

Lemma returns_onlyWhitespaceOrParen text a b :
  0 <= a <= b → b <= len text → returns (onlyWhitespaceOrParen text a b) (λ _, True).
Proof. intros ? ?. unfold onlyWhitespaceOrParen. repeat ret_step. done. Qed.
#[local] Hint Resolve returns_onlyWhitespaceOrParen : returns.

Lemma returns_line_start text i :
  0 <= i <= len text → returns (line_start text (Z.to_nat i)) (λ j, 0 <= Z.of_nat j <= i).
Proof.
  intros Hi. unfold len in Hi. eapply returns_mono; [apply line_start_returns; lia|]. cbv beta. lia.
Qed.
#[local] Hint Resolve returns_line_start : returns.

Section NamesFacts.
Context `{Unicode} (dict : namesDict) (t : Text).

Lemma occupiesWholeLine_returns a b :
  0 <= a <= b → b <= len (t_Raw t) → returns (occupiesWholeLine (t_Raw t) a b) (λ _, True).
Proof.
  intros ? ?. unfold occupiesWholeLine. pose proof (line_end_bound (t_Raw t) b). repeat ret_step; [done|].
  eapply returns_mono; [apply returns_onlyWhitespace; lia|done].
Qed.
#[local] Hint Resolve occupiesWholeLine_returns : returns.

Lemma famousOtherPIISameLine_returns start end_ :
  0 <= start <= end_ → end_ <= len (t_Raw t) → returns (famousOtherPIISameLine t start end_) (λ _, True).
Proof.
  intros ? ?. unfold famousOtherPIISameLine. pose proof (line_end_bound (t_Raw t) end_).
  ret_step. ret_step. subst. rewrite len_slice by lia.
  set (line := slice _ _ _). assert (len line = line_end (t_Raw t) end_ - Z.of_nat x) by (apply len_slice; lia).
  repeat ret_step. done.
Qed.
#[local] Hint Resolve famousOtherPIISameLine_returns : returns.

Lemma isFamous_returns seq a b :
  head seq = Some a → last seq = Some b → 0 <= nt_start a <= nt_end b → nt_end b <= len (t_Raw t) →
  returns (isFamous dict t seq) (λ _, True).
Proof.
  intros Ha Hb ? ?. unfold isFamous. case_match; [by apply returns_ret|]. rewrite Ha, Hb. repeat ret_step; done.
Qed.

Lemma validSeq2_returns a b :
  0 <= nt_start a <= nt_end b → nt_end b <= len (t_Raw t) → nt_start a <= nt_end a →
  returns (validSeq2 t a b) (λ _, True).
Proof.
  intros ? ? ?. unfold validSeq2. case_match; [by apply returns_ret|]. eapply (returns_bind _ _ (λ _, True)).
  - unfold seq2NamePatr. repeat ret_step; done.
  - intros ok _. by apply returns_ret.
Qed.
End NamesFacts.

Section RuleFacts.
Context `{Unicode} (dict : namesDict) (t : Text) (nt : list nameToken) (cands : list nat).
Context (Hw : words_of (t_Raw t) (map nt_token nt)).
Context (Hsorted : StronglySorted lt cands) (Hbound : Forall (λ k, (k < length nt)%nat) cands).

Lemma cand_bound i a : cands !! i = Some a → (a < length nt)%nat.
Proof. intros Ha. rewrite Forall_lookup in Hbound. by eapply Hbound. Qed.

Lemma cand_order i j a b : cands !! i = Some a → cands !! j = Some b → (i < j)%nat → (a < b)%nat.
Proof.
  clear Hbound. revert i j. induction Hsorted as [|x l Hl IH Hx]; intros i j Ha Hb Hij; [done|].
  destruct j as [|j]; [lia|]. destruct i as [|i]; cbn in Ha, Hb.
  - injection Ha as <-. rewrite Forall_lookup in Hx. by eapply Hx.
  - eapply (IH Hl); [exact Ha|exact Hb|lia].
Qed.

Ltac facts :=
  repeat match goal with
  | H : cands !! _ = Some _ |- _ => pose_new (cand_bound _ _ H)
  end;
  repeat match goal with
  | H1 : cands !! ?i = Some _, H2 : cands !! ?j = Some _ |- _ =>
      assert_fails (constr_eq i j);
      let Hlt := fresh in
      assert (i < j)%nat as Hlt by lia; pose_new (cand_order _ _ _ _ H1 H2 Hlt); clear Hlt
  end;
  name_facts t nt Hw.

Ltac step := ret_step; facts.
#[local] Hint Resolve returns_onlyWhitespaceOrParen occupiesWholeLine_returns validSeq2_returns : returns.

Lemma singleNameGap_returns a b :
  (a < b < length nt)%nat →
  returns (singleNameGap t nt a b) (λ o, ∀ mid, o = Some mid → mid = S a ∧ b = S (S a)).
Proof.
  intros ?. unfold singleNameGap. repeat step; repeat case_match; intros; simplify_eq; lia.
Qed.

Lemma lowercaseNameGap_returns a b :
  (a < b < length nt)%nat →
  returns (lowercaseNameGap t nt a b) (λ o, ∀ mid, o = Some mid → mid = S a ∧ b = S (S a)).
Proof.
  intros ?. unfold lowercaseNameGap. repeat step; repeat case_match; intros; simplify_eq; lia.
Qed.

Lemma twoNameGap_returns a b :
  (a < b < length nt)%nat →
  returns (twoNameGap t nt a b)
    (λ o, ∀ mid1 mid2, o = Some (mid1, mid2) → mid1 = S a ∧ mid2 = S (S a) ∧ b = S (S (S a))).
Proof.
  intros ?. unfold twoNameGap. repeat step; repeat case_match; intros; simplify_eq; lia.
Qed.

Lemma unknownNameBefore_returns b :
  (b < length nt)%nat → returns (unknownNameBefore nt b) (λ o, ∀ mid, o = Some mid → b = S mid).
Proof.
  intros ?. unfold unknownNameBefore. destruct b as [|b]; [by apply returns_ret|].
  repeat step; repeat case_match; intros; simplify_eq; lia.
Qed.

Lemma hyphenSurnameStart_returns b :
  (b < length nt)%nat →
  returns (hyphenSurnameStart t nt b)
    (λ o, ∀ start, o = Some start → ∃ j tok, b = S j ∧ nt !! j = Some tok ∧ start = nt_start tok).
Proof.
  intros ?. unfold hyphenSurnameStart. destruct b as [|b]; [by apply returns_ret|].
  repeat step; repeat case_match; intros ? [=]; subst; eauto.
Qed.

Lemma surnamePrecedesFamousPatr_returns i j a b :
  nt !! i = Some a → nt !! j = Some b → (i < j)%nat →
  returns (surnamePrecedesFamousPatr dict t nt i a b) (λ _, True).
Proof.
  intros Ha Hb Hij. unfold surnamePrecedesFamousPatr. destruct i as [|i]; [by apply returns_ret|].
  pose proof (lookup_lt_Some _ _ _ Ha). repeat step; [done..|]. eapply isFamous_returns; [done|done|lia..].
Qed.

Lemma trailingPatrMarkerEnd_returns i :
  (i < length nt)%nat →
  returns (trailingPatrMarkerEnd t nt i) (λ o, ∀ z, o = Some z → ∃ tok, nt !! S i = Some tok ∧ z = nt_end tok).
Proof.
  intros ?. unfold trailingPatrMarkerEnd. destruct (nt !! S i) as [next|] eqn:E; [|by apply returns_ret].
  repeat step; repeat case_match; intros ? [=]; subst; eauto.
Qed.

Lemma threeWhitespaceSeparated_returns i :
  returns (threeWhitespaceSeparated t nt cands i) (λ b, b = true → (i + 2 < length cands)%nat).
Proof.
  unfold threeWhitespaceSeparated. repeat step; [done..|].
  eapply returns_mono; [apply returns_onlyWhitespace; lia|]. cbv beta. lia.
Qed.

Lemma hasAdjacentUncoveredNameLike_returns covered i :
  length covered = length nt → (i < length nt)%nat →
  returns (hasAdjacentUncoveredNameLike t nt covered i) (λ _, True).
Proof.
  intros ? ?. unfold hasAdjacentUncoveredNameLike. ret_step. facts. eapply (returns_bind _ _ (λ _, True)).
  - destruct i as [|i]; [by apply returns_ret|]. repeat step; [|done].
    eapply returns_mono; [apply returns_onlyWhitespace; lia|done].
  - intros before _. destruct before; [by apply returns_ret|].
    destruct (nt !! S i) as [next|] eqn:E; [|by apply returns_ret].
    pose proof (lookup_lt_Some _ _ _ E). repeat step; [|done].
    eapply returns_mono; [apply returns_onlyWhitespace; lia|done].
Qed.

(** ** The rules keep the state *)

Let toks := map nt_token nt.

(** What a rule that applies leaves. *)
Definition handled_ok (o : option (nstate * nat)) : Prop :=
  ∀ st adv, o = Some (st, adv) → st_ok toks st ∧ (0 < adv)%nat.

Lemma not_handled : handled_ok None.
Proof. by intros ??. Qed.

Lemma emit_returns st i j a b start end_ conf idxs adv :
  st_ok toks st → start = nt_start a → end_ = nt_end b → nt !! i = Some a → nt !! j = Some b → (i <= j)%nat →
  Forall (λ k, (k < length nt)%nat) idxs → (0 < adv)%nat → returns (emit st start end_ conf idxs adv) handled_ok.
Proof.
  intros Hst -> -> Ha Hb Hij Hk Hadv. unfold emit. eapply returns_bind.
  - eapply (returns_emit_name toks st i j); [done|done|by apply name_word|by apply name_word|done|done|].
    unfold toks. by rewrite length_map.
  - intros st' Hst'. apply returns_ret. by intros ? ? [= <- <-].
Qed.

Lemma st_cover st i :
  st_ok toks st → (i < length nt)%nat →
  returns (cover (ns_covered st) i) (λ c, st_ok toks (MkNState c (ns_spans st))).
Proof.
  intros [Hc Hs] Hi. pose proof (length_map nt_token nt) as Hl. fold toks in Hl.
  eapply returns_mono; [apply returns_cover; lia|]. cbv beta.
  intros c Hlen. split; cbn [ns_covered ns_spans]; [lia|done].
Qed.

Lemma returns_hasOpenParen a b :
  0 <= a <= b → b <= len (t_Raw t) → returns (hasOpenParen (t_Raw t) a b) (λ _, True).
Proof. intros ? ?. unfold hasOpenParen. by repeat ret_step. Qed.

Lemma returns_hasCloseParen a b :
  0 <= a <= b → b <= len (t_Raw t) → returns (hasCloseParen (t_Raw t) a b) (λ _, True).
Proof. intros ? ?. unfold hasCloseParen. by repeat ret_step. Qed.
#[local] Hint Resolve returns_hasOpenParen returns_hasCloseParen : returns.

Lemma maidenSurnameStart_returns i endPos a tok :
  cands !! i = Some a → nt !! a = Some tok → nt_end tok <= endPos <= len (t_Raw t) →
  returns (maidenSurnameStart t nt cands i endPos) (λ o, ∀ z, o = Some z →
    ∃ k p tok', i = S k ∧ cands !! k = Some p ∧ (p < a)%nat ∧ nt !! p = Some tok' ∧ z = nt_start tok').
Proof.
  intros Ha Htok ?. unfold maidenSurnameStart. destruct i as [|i]; [by apply returns_ret|].
  pose proof (lookup_lt_Some _ _ _ Ha). facts. ret_step. facts. ret_step. rewrite Ha. cbn [mbind option_bind].
  rewrite Htok. cbn [mbind option_bind]. facts. repeat step; try done.
  case_match; intros ? [=]; subst. eauto 10.
Qed.

Lemma maiden_returns i endPos a tok st :
  st_ok toks st → cands !! i = Some a → nt !! a = Some tok → nt_end tok <= endPos <= len (t_Raw t) →
  returns (maiden t nt cands i endPos (nt_start tok) st)
    (λ '(start, st'), st_ok toks st' ∧ ∃ k tok', (k <= a)%nat ∧ nt !! k = Some tok' ∧ start = nt_start tok').
Proof.
  intros Hst Ha Htok He. unfold maiden. eapply returns_bind; [by eapply maidenSurnameStart_returns|].
  intros [start|] Hs; [|apply returns_ret; eauto 10].
  destruct (Hs _ eq_refl) as (k & p & tok' & -> & Hp & Hpa & Htok' & ->).
  replace (S k - 1)%nat with k by lia. rewrite Hp. cbn [mbind option_bind].
  eapply returns_bind; [apply st_cover; [done|by eapply cand_bound]|]. intros c Hc. apply returns_ret. split; [done|].
  exists p, tok'. split_and!; [lia|done|done].
Qed.

#[local] Hint Resolve singleNameGap_returns lowercaseNameGap_returns twoNameGap_returns : returns.
#[local] Hint Resolve unknownNameBefore_returns hyphenSurnameStart_returns trailingPatrMarkerEnd_returns : returns.
#[local] Hint Resolve threeWhitespaceSeparated_returns hasAdjacentUncoveredNameLike_returns : returns.
#[local] Hint Resolve surnamePrecedesFamousPatr_returns : returns.
#[local] Hint Extern 4 (_ < _ < _)%nat => lia : returns.

(** What is known of a gap that was found. *)
Ltac gap_facts :=
  repeat match goal with
  | Hg : ∀ mid, Some _ = Some mid → _ |- _ => specialize (Hg _ eq_refl)
  | Hg : ∀ mid1 mid2, Some _ = Some (mid1, mid2) → _ |- _ => specialize (Hg _ _ eq_refl)
  end; destruct_and?; subst.

Ltac famous := eapply returns_bind; [eapply isFamous_returns; [reflexivity|reflexivity|lia..]|intros [] _; [apply returns_ret, not_handled|]].

Definition name_rule_ok (r : name_rule) : Prop :=
  ∀ i st, (i < length cands)%nat → st_ok toks st → returns (r i st) handled_ok.

Ltac emits :=
  eapply emit_returns; [done|reflexivity|reflexivity|eassumption|eassumption|lia|repeat constructor; lia|lia].

Lemma turkicPatronymic_ok : name_rule_ok (turkicPatronymic dict t nt cands).
Proof.
  intros i st Hi Hst. unfold turkicPatronymic. repeat step; try apply not_handled.
  gap_facts. repeat step. famous. emits.
Qed.

Lemma emitGapName_ok i a b mid conf st :
  cands !! i = Some a → cands !! S i = Some b → mid = S a → b = S (S a) → st_ok toks st →
  returns (emitGapName dict t nt cands i mid conf st) handled_ok.
Proof.
  intros Ha Hb -> -> Hst. unfold emitGapName. facts. repeat step. famous.
  eapply returns_bind; [eapply maiden_returns; [done|exact Ha|done|lia]|].
  intros [start st'] (Hst' & k & tok & Hk & Htok & ->). emits.
Qed.

Lemma surnameGapName_ok : name_rule_ok (surnameGapName dict t nt cands).
Proof.
  intros i st Hi Hst. unfold surnameGapName. repeat step; try apply not_handled.
  - gap_facts. by eapply emitGapName_ok.
  - gap_facts. by eapply emitGapName_ok.
Qed.

Lemma patrSurnameName_ok : name_rule_ok (patrSurnameName dict t nt cands).
Proof.
  intros i st Hi Hst. unfold patrSurnameName. repeat step; try apply not_handled.
  gap_facts. repeat step. famous. emits.
Qed.

Lemma greetingNamePatr_ok : name_rule_ok (greetingNamePatr dict t nt cands).
Proof.
  intros i st Hi Hst. unfold greetingNamePatr. repeat step; try apply not_handled.
  gap_facts. repeat step; try apply not_handled. famous. emits.
Qed.

Lemma surnameUnknownName_ok : name_rule_ok (surnameUnknownName dict t nt cands).
Proof.
  intros i st Hi Hst. unfold surnameUnknownName. do 3 step; [apply returns_ret, not_handled|].
  destruct (nt !! S _) as [next|] eqn:En; [|apply returns_ret, not_handled].
  pose proof (lookup_lt_Some _ _ _ En). repeat step; try apply not_handled. famous. emits.
Qed.

Lemma singleNameWithContext_ok : name_rule_ok (singleNameWithContext t nt cands).
Proof.
  intros i st Hi Hst. unfold singleNameWithContext.
  pose proof (so_covered _ _ Hst) as Hc. unfold toks in Hc. rewrite length_map in Hc.
  repeat step; try apply not_handled; emits.
Qed.

Lemma validSeq_returns seq a b :
  head seq = Some a → last seq = Some b → 0 <= nt_start a <= nt_end b → nt_end b <= len (t_Raw t) →
  nt_start a <= nt_end a → returns (validSeq dict t seq) (λ _, True).
Proof.
  intros Ha Hb ? ? ?. unfold validSeq. eapply returns_bind; [by eapply isFamous_returns|].
  intros [] _; [by apply returns_ret|]. destruct seq as [|x [|y [|z [|??]]]]; try by apply returns_ret.
  injection Ha as ->. injection Hb as ->. by apply validSeq2_returns.
Qed.

Lemma threeTokenName_ok : name_rule_ok (threeTokenName dict t nt cands).
Proof.
  intros i st Hi Hst. unfold threeTokenName. do 2 step; [apply returns_ret, not_handled|].
  assert (i + 2 < length cands)%nat by (destruct x; auto). do 6 step.
  eapply returns_bind; [eapply validSeq_returns; [reflexivity|reflexivity|lia..]|].
  intros [conf|] _; [|apply returns_ret, not_handled].
  eapply returns_bind; [eapply maiden_returns; [done|eassumption|eassumption|lia]|].
  intros [start st1] (Hst1 & k & tok & Hk & Htok & ->). step.
  eapply (returns_bind _ _ (λ '(end_, st2), st_ok toks st2 ∧
    ∃ j tok', (k <= j)%nat ∧ nt !! j = Some tok' ∧ end_ = nt_end tok')).
  - match goal with |- returns (match ?o with Some _ => _ | None => _ end) _ => destruct o as [end_|] end.
    + gap_facts. match goal with H : ∃ _, _ |- _ => destruct H as (tok' & Htok' & ->) end.
      eapply returns_bind; [apply st_cover; [done|by eapply lookup_lt_Some]|]. intros c Hc. apply returns_ret.
      split; [done|]. eexists _, tok'. split_and!; [|exact Htok'|done]. lia.
    + apply returns_ret. split; [done|]. eexists _, _. split_and!; [| |reflexivity]; [|eassumption]; lia.
  - intros [end_ st2] (Hst2 & j & tok' & Hj & Htok' & ->). emits.
Qed.

Lemma twoTokenName_ok : name_rule_ok (twoTokenName dict t nt cands).
Proof.
  intros i st Hi Hst. unfold twoTokenName. step; [apply returns_ret, not_handled|]. do 6 step; [apply returns_ret, not_handled|].
  eapply returns_bind; [eapply validSeq_returns; [reflexivity|reflexivity|lia..]|].
  intros [conf|] _; [|apply returns_ret, not_handled].
  eapply (returns_bind _ _ (λ _, True)); [case_match; [by eapply surnamePrecedesFamousPatr_returns|by apply returns_ret]|].
  intros [] _; [apply returns_ret, not_handled|]. step.
  eapply (returns_bind _ _ (λ '(start, st1), st_ok toks st1 ∧
    ∃ k tok', (k <= x)%nat ∧ nt !! k = Some tok' ∧ start = nt_start tok')).
  - match goal with |- returns (match ?o with Some _ => _ | None => _ end) _ => destruct o as [start|] end.
    + gap_facts. match goal with H : ∃ _, _ |- _ => destruct H as (j & tok' & -> & Htok' & ->) end.
      replace (S j - 1)%nat with j by lia.
      eapply returns_bind; [apply st_cover; [done|lia]|]. intros c Hc. apply returns_ret.
      split; [done|]. eexists _, tok'. split_and!; [|exact Htok'|done]. lia.
    + apply returns_ret. split; [done|]. eexists _, _. split_and!; [| |reflexivity]; [|eassumption]; lia.
  - intros [start st1] (Hst1 & k & tok' & Hk & Htok' & ->). emits.
Qed.

Lemma name_rules_ok : Forall name_rule_ok (name_rules dict t nt cands).
Proof.
  unfold name_rules.
  repeat constructor; [apply turkicPatronymic_ok|apply threeTokenName_ok|apply twoTokenName_ok|apply surnameGapName_ok
    |apply patrSurnameName_ok|apply greetingNamePatr_ok|apply surnameUnknownName_ok|apply singleNameWithContext_ok].
Qed.

Lemma first_rule_ok rules i st :
  Forall name_rule_ok rules → (i < length cands)%nat → st_ok toks st →
  returns (first_rule rules i st) (λ '(st', adv), st_ok toks st' ∧ (0 < adv)%nat).
Proof.
  intros Hr Hi Hst. induction Hr as [|r rules Hr _ IH]; cbn [first_rule].
  - apply returns_ret. split; [done|lia].
  - eapply returns_bind; [by apply Hr|]. intros [[st' adv]|] Ho; [|done]. apply returns_ret. by apply Ho.
Qed.

Lemma processCandidate_ok i st :
  (i < length cands)%nat → st_ok toks st →
  returns (processCandidate dict t nt cands i st) (λ '(st', adv), st_ok toks st' ∧ (0 < adv)%nat).
Proof.
  intros Hi Hst. pose proof (so_covered _ _ Hst) as Hc. unfold toks in Hc. rewrite length_map in Hc.
  unfold processCandidate. repeat step; [split; [done|lia]|].
  apply first_rule_ok; [apply name_rules_ok|done|done].
Qed.

Lemma names_loop_ok fuel i st :
  (length cands - i <= fuel)%nat → st_ok toks st → returns (names_loop dict t nt cands fuel i st) (st_ok toks).
Proof.
  revert i st. induction fuel as [|fuel IH]; intros i st Hf Hst; cbn [names_loop];
    (destruct (i <? length cands)%nat eqn:E; [|by apply returns_ret]); [lia|].
  eapply returns_bind; [apply processCandidate_ok; [lia|done]|]. intros [st' adv] [Hst' Hadv]. apply IH; [lia|done].
Qed.
End RuleFacts.

(** ** The whole detector *)

Section DetectorFacts.
Context `{Unicode} (dict : namesDict) (t : Text).

Lemma words_of_text text : words_of text (tokenize text).
Proof.
  pose proof (words_of_tokens text (λ _, true)) as Hw. by rewrite (List.forallb_filter_id _ _ (proj2 (forallb_forall _ _) (λ _ _, eq_refl))) in Hw.
Qed.

Lemma nameTokens_returns : returns (nameTokens dict t) (λ nt, map nt_token nt = tokenize (t_Raw t)).
Proof.
  unfold nameTokens. pose proof (words_of_text (t_Raw t)) as [Hw _]. induction Hw as [|tok l Htok _ IH]; cbn [mapM].
  - by apply returns_ret.
  - eapply (returns_bind _ _ (λ tok', nt_token tok' = tok)).
    + unfold tokenLower. destruct (LowerOK t) eqn:E.
      * unfold LowerOK in E. ret_step. apply returns_ret. unfold classify. repeat case_match; done.
      * ret_step. apply returns_ret. unfold classify. repeat case_match; done.
    + intros tok' Htok'. eapply returns_bind; [exact IH|]. intros nt Hnt. apply returns_ret. cbn [map]. by f_equal.
Qed.

Lemma filter_seq_sorted (p : nat → bool) i n :
  StronglySorted lt (List.filter p (seq i n)) ∧ Forall (λ k, (i <= k < i + n)%nat) (List.filter p (seq i n)).
Proof.
  revert i. induction n as [|n IH]; intros i; cbn [seq List.filter]; [by split; constructor|].
  destruct (IH (S i)) as [Hs Hf].
  assert (Forall (λ k, (i <= k < i + S n)%nat) (List.filter p (seq (S i) n))) as Hf'
    by (eapply Forall_impl; [exact Hf|]; cbv beta; lia).
  destruct (p i); [|done]. split; constructor; [done| |lia|done].
  eapply Forall_impl; [exact Hf|]. cbv beta. lia.
Qed.

Lemma names_spec :
  ∃ l, names_DetectLower dict t = Some l ∧ Forall (name_in (tokenize (t_Raw t))) l.
Proof.
  unfold names_DetectLower. fold (returns (nt ← nameTokens dict t;
    st ← names_loop dict t nt (name_candidates nt) (length (name_candidates nt)) 0
      (MkNState (repeat false (length nt)) []);
    st ← detectLatinNames t (tokenize (t_Raw t)) st;
    st ← detectLowercaseLatinNames t (tokenize (t_Raw t)) st;
    st ← detectForeignNames t nt st; Some (ns_spans st)) (Forall (name_in (tokenize (t_Raw t))))).
  eapply returns_bind; [apply nameTokens_returns|]. intros nt Hnt.
  pose proof (words_of_text (t_Raw t)) as Hw.
  destruct (filter_seq_sorted (λ i, if nt !! i is Some tok then isNameLike tok else false) 0 (length nt)) as [Hs Hf].
  fold (name_candidates nt) in Hs, Hf.
  rewrite <- Hnt in Hw |- *. pose proof (length_map nt_token nt) as Hlen.
  eapply returns_bind.
  { apply names_loop_ok; [done|done|eapply Forall_impl; [exact Hf|]; cbv beta; lia|lia|].
    split; cbn [ns_covered ns_spans]; [by rewrite repeat_length|constructor]. }
  intros st1 Hst1. eapply returns_bind; [apply latin_loop_returns; [done|lia|done]|].
  intros st2 Hst2. eapply returns_bind; [apply lower_loop_returns; [done|lia|done]|].
  intros st3 Hst3. eapply returns_bind; [apply foreign_loop_returns; [done|lia|done]|].
  intros st4 Hst4. apply returns_ret, Hst4.
Qed.
End DetectorFacts.

(** ** Names before marriage, in parentheses *)

Lemma drop_spaces_nil cs : drop_spaces cs = [] → Forall (λ c, is_space (fst c) = true) cs.
Proof.
  intros Hd. destruct (drop_spaces_split cs) as (u & Hu & Hs). rewrite Hd, app_nil_r in Hu. by subst.
Qed.

Lemma trim_space_nil s : trim_space s = [] → Forall (λ c, is_space (fst c) = true) (chunks s).
Proof.
  unfold trim_space. set (l := drop_spaces (rev (drop_spaces (chunks s)))). intros Hr.
  assert (l = []) as Hl.
  { destruct l as [|c l'] eqn:El; [done|]. exfalso.
    assert (c ∈ chunks s) as Hc.
    { destruct (drop_spaces_split (rev (drop_spaces (chunks s)))) as (w & Hw & _).
      destruct (drop_spaces_split (chunks s)) as (u & Hu & _). rewrite Hu. apply elem_of_app. right.
      rewrite <- elem_of_rev, Hw. apply elem_of_app. right. fold l. rewrite El. left. }
    pose proof (chunks_nonempty s) as Hne. rewrite Forall_forall in Hne. specialize (Hne c Hc).
    cbn [rev] in Hr. rewrite raw_app in Hr. apply app_nil in Hr as [_ Hr]. cbn in Hr. by rewrite app_nil_r in Hr. }
  apply drop_spaces_nil, Forall_rev in Hl. rewrite rev_involutive in Hl.
  destruct (drop_spaces_split (chunks s)) as (u & Hu & Hs). rewrite Hu. by apply Forall_app.
Qed.

(** What separates two words by white space only holds no parenthesis. *)
Lemma blank_no_paren s : trim_space s = [] → str_contains s ")" = false.
Proof.
  intros Ht%trim_space_nil. destruct (str_contains s ")") eqn:E; [|done]. exfalso.
  apply str_contains_spec in E as [i Hi]. apply occurs_at_slice in Hi as [Hi Hs].
  assert (")"%byte ∈ s) as Hin.
  { assert (")"%byte ∈ slice s i (i + len (go_bytes ")"))) as Hin by (rewrite Hs; left).
    unfold slice in Hin. apply elem_of_take in Hin as (k & Hk & _). rewrite lookup_drop in Hk.
    by eapply list_elem_of_lookup_2. }
  pose proof (raw_filter_ascii (λ r, r =? 0x29) s ltac:(lia)) as Hf.
  assert (List.filter (λ c : chunk, fst c =? 0x29) (chunks s) = []) as Hnil.
  { clear Hf Hin. induction Ht as [|c l Hc _ IH]; [done|]. cbn [List.filter]. destruct (fst c =? 0x29) eqn:Ec; [|done].
    apply Z.eqb_eq in Ec. rewrite Ec in Hc. by vm_compute in Hc. }
  cbv beta in Hf. rewrite Hnil in Hf. apply list_elem_of_In in Hin.
  assert (In ")"%byte (List.filter (λ b, byte_val b =? 0x29) s)) as Hin' by by apply filter_In.
  by rewrite <- Hf in Hin'.
Qed.

Section Maiden.
Context `{Unicode} (t : Text) (nt : list nameToken) (cands : list nat).

Lemma onlyWhitespace_no_paren a b : onlyWhitespace (t_Raw t) a b = Some true → hasCloseParen (t_Raw t) a b = Some false.
Proof.
  unfold onlyWhitespace, hasCloseParen. destruct (go_slice _ _ _) as [gap|]; [|done]. cbn [mbind option_bind].
  intros [= Hb]. case_bool_decide as Ht; [|done]. by rewrite blank_no_paren.
Qed.

(** When three candidates follow each other, no surname is taken from in front. *)
Lemma three_no_maiden i b tok_b :
  threeWhitespaceSeparated t nt cands i = Some true → cands !! S i = Some b → nt !! b = Some tok_b →
  ∀ start, maidenSurnameStart t nt cands i (nt_start tok_b) ≠ Some (Some start).
Proof.
  unfold threeWhitespaceSeparated. case_match; [done|]. intros Hthree Hb Htok start.
  destruct i as [|i]; [done|]. rewrite Hb in Hthree. cbn [maidenSurnameStart].
  destruct (cands !! i) as [p|]; [|done]. cbn [mbind option_bind]. destruct (nt !! p) as [prev|]; [|done].
  cbn [mbind option_bind] in *. destruct (cands !! S i) as [a|] eqn:Ea; [|done]. cbn [mbind option_bind] in *.
  destruct (cands !! S (S (S i))) as [c|]; [|done]. cbn [mbind option_bind] in *.
  destruct (nt !! a) as [tok_a|]; [|done]. cbn [mbind option_bind] in *. rewrite Htok in Hthree.
  cbn [mbind option_bind] in Hthree. destruct (nt !! c) as [tok_c|]; [|done]. cbn [mbind option_bind] in Hthree.
  destruct (onlyWhitespace (t_Raw t) (nt_end tok_a) (nt_start tok_b)) as [ws|] eqn:Ews; [|done].
  cbn [mbind option_bind] in Hthree. destruct ws; [|done]. apply onlyWhitespace_no_paren in Ews.
  destruct (negb (isSurnameLike prev)); [done|]. destruct (hasOpenParen _ _ _) as [open|]; [|done].
  cbn [mbind option_bind]. destruct open; cbn [negb]; [|done]. rewrite Ews. by cbn [mbind option_bind].
Qed.
End Maiden.

(** The rule for three words never takes in a surname in front of a maiden name in
    parentheses: where its three words are separated by white space only, there is no
    closing parenthesis between the first two, so the extension cannot apply. With a
    given name of the dictionary, both surnames stay in the text; with an unknown one
    another rule takes them in, and with them any words between the surname and the
    parenthesis. *)
Lemma maiden_surname_extension `{Unicode} t nt cands i b tok_b start :
  threeWhitespaceSeparated t nt cands i = Some true → cands !! S i = Some b → nt !! b = Some tok_b →
  maidenSurnameStart t nt cands i (nt_start tok_b) ≠ Some (Some start) ∧
  found_names "Сафина (Ганиева) Анна Ильдаровна" = Some [go_bytes "Анна Ильдаровна"] ∧
  found_names "Сафина (Ганиева) Гульнара Ильдаровна" = Some [go_bytes "Сафина (Ганиева) Гульнара Ильдаровна"] ∧
  found_names "Петрова просит закрыть счёт (у неё Иванова) Севиль Эльдаровна" =
    Some [go_bytes "Петрова просит закрыть счёт (у неё Иванова) Севиль Эльдаровна"].
Proof.
  intros Ht Hb Htok. split; [by eapply three_no_maiden|]. vm_compute. split_and!; reflexivity.
Qed.

(** C38: the name detector returns on every text, valid UTF-8 or not, and each span it
    reports is a full name that reaches from the start of a word of the text to the end
    of the same or a later word; so it lies in the text and never cuts a word. *)
Theorem names_whole_words `{Unicode} dict text :
  ∃ l, names_Detect dict text = Some l ∧ Forall (name_in (tokenize text)) l ∧
    Forall (λ s, span_in text s ∧ sp_Category s = CatFullName) l.
Proof.
  destruct (names_spec dict (text_of text)) as (l & Hl & Hall). exists l. split_and!; [exact Hl|exact Hall|].
  eapply Forall_impl; [exact Hall|]. intros s. apply (name_in_text (text_of text) (tokenize text)).
  apply (words_of_text text).
Qed.

Lemma maiden_surname_extension_witness :
  let t := text_of "Петрова (Сафина Анна Ильдаровна)" in
  let nt := default [] (nameTokens names_dict t) in
  ∃ tok, maidenSurnameStart t nt [0; 1; 2; 3]%nat 1 (nt_start tok) ≠ Some (Some 0) ∧
    found_names "Сафина (Ганиева) Анна Ильдаровна" = Some [go_bytes "Анна Ильдаровна"].
Proof.
  cbv zeta.
  destruct (default [] (nameTokens names_dict (text_of "Петрова (Сафина Анна Ильдаровна)")) !! 2%nat) as [tok|] eqn:E.
  - exists tok. destruct (maiden_surname_extension (text_of "Петрова (Сафина Анна Ильдаровна)")
      (default [] (nameTokens names_dict (text_of "Петрова (Сафина Анна Ильдаровна)"))) [0; 1; 2; 3]%nat 1 2 tok 0) as (H1 & H2 & _).
    + vm_compute. reflexivity.
    + reflexivity.
    + exact E.
    + split; [exact H1|exact H2].
  - exfalso. vm_compute in E. discriminate E.
Defined.
