(* ===== verification/Cities.v ===== *)
(** * Package [detectors]: the dictionary of cities

    Models [loadCities] and what it builds, of
    [internal/pii/detectors/address.go]: the cities in falling length, their oblique
    forms, and an index by their first two runes. *)

From S2P Require Import Prelude GoText Pii Regexp Dict TextUtil.

Record citiesDict := MkCities {
  cd_cities : list bytes;
  cd_oblique : gmap bytes (list bytes);
  cd_byPrefix : gmap bytes (list bytes)
}.

(** [strings.Split], [TrimSpace] and the lines that are left. *)
Definition cityList (data : bytes) : list bytes :=
  List.filter (λ line, negb (bool_decide (line = []))) (map trim_space (split_byte "010" data)).

(** Its comment promises the empty string for a text of one rune; the code returns the
    text. *)
Definition firstTwoRunes (s : bytes) : bytes := take (first_end 2 s) s.

Definition obliqueEndings : list bytes := strs ["е"; "и"; "у"; "ой"; "ом"; "а"; "ы"].

Definition obliqueForms (city : bytes) : list bytes :=
  let r := runes city in
  match last r with
  | None => []
  | Some c =>
      let stem := if bool_decide (c ∈ [0x430; 0x44F; 0x44C; 0x439]) (* а я ь й *)
                  then encode_runes (removelast r) else encode_runes r in
      List.filter (λ f, negb (eq_bytes f city)) (map (app stem) obliqueEndings)
  end.

Definition add_city (cd : citiesDict) (c : bytes) : citiesDict :=
  let p := firstTwoRunes c in
  MkCities (cd_cities cd) (<[c := obliqueForms c]> (cd_oblique cd))
    (if bool_decide (p = []) then cd_byPrefix cd
     else <[p := default [] (cd_byPrefix cd !! p) ++ [c]]> (cd_byPrefix cd)).

Definition buildCitiesDict (cities : list bytes) : citiesDict := foldl add_city (MkCities cities ∅ ∅) cities.

(** [less] of [sort.Slice]: longer cities first. *)
Definition longer_runes (a b : bytes) : bool := rune_count b <? rune_count a.

#[export] Instance longer_runes_order : WeakOrder longer_runes.
Proof. split; unfold longer_runes; intros; lia. Qed.

Section Load.
Context `{SliceSort}.

(** The dictionary when the embedded file cannot be read is empty. *)
Definition loadCities (fs : bytes → option bytes) : citiesDict :=
  match fs "dict/cities.txt" with
  | None => MkCities [] ∅ ∅
  | Some data => buildCitiesDict (sort_slice longer_runes (cityList data))
  end.

(** [citiesData] *)
Definition cities_dict : citiesDict := loadCities names_files.
End Load.

Example oblique_kazan : obliqueForms "казань" = strs ["казане"; "казани"; "казану"; "казаной"; "казаном"; "казана"; "казаны"].
Proof. by vm_compute. Qed.

Example two_runes : firstTwoRunes "уфа" = go_bytes "уф" ∧ firstTwoRunes "у" = go_bytes "у".
Proof. split; by vm_compute. Qed.

(** ** What the dictionary holds *)

Section CityFacts.
Context `{SliceSort}.

Lemma add_city_cities cities cd : cd_cities (foldl add_city cd cities) = cd_cities cd.
Proof. revert cd. induction cities as [|c cities IH]; intros cd; [done|]. cbn [foldl]. by rewrite IH. Qed.

(** The dictionary of the program, whatever order its equally long cities are in. *)
Definition cities_file : list bytes := cityList cities_txt.

Lemma cities_embedded : names_files "dict/cities.txt" = Some cities_txt.
Proof. reflexivity. Qed.

Lemma loadCities_perm : Permutation (cd_cities cities_dict) cities_file.
Proof.
  unfold cities_dict, loadCities, cities_file. rewrite cities_embedded. generalize (cityList cities_txt). intros l.
  unfold buildCitiesDict. rewrite add_city_cities. apply sort_slice_perm.
Qed.

End CityFacts.
