(* ===== verification/Birthplace.v ===== *)
(** * Package [detectors]: birth places

    Models [internal/pii/detectors/birthplace.go]. A result [None] is a run-time panic. *)

From S2P Require Import Prelude GoText Float64 Pii Mask Regexp RegexpSyntax Pipeline Dict.
From S2P Require Import TextUtil Tokens Labels RulesSound DateWord NameDict NamesLatin Names NamesSound Cities.

Definition birthContextRe : re := MustCompile
  "(?i)(?:место рождения|место рожд\.|город рождения|родился\s+в\s+|родилась\s+в\s+|родился|родилась|рожден в|рождён в|уроженец|уроженка|род\.|ур\.|\bborn\b)".

Definition birthContextLowerRe : re := MustCompile
  "(?:место рождения|место рожд\.|город рождения|родился\s+в\s+|родилась\s+в\s+|родился|родилась|рожден в|рождён в|уроженец|уроженка|род\.|ур\.|\bborn\b)".

Definition settlementPrefixes : list bytes := strs [
  "посёлоке"; "поселке"; "посёлка"; "посёлок"; "поселок"; "деревня"; "деревне"; "станица"; "станице";
  "городе"; "город"; "гор."; "г."; "пос."; "с."; "ст."; "дер."; "д."; "пгт"; "аул"; "х."; "хутор"; "п.";
  "рп"; "село"; "селе"; "кишлаке"; "кишлак"].

Definition birthStopWords : list bytes := strs [
  "как"; "где"; "когда"; "что"; "который"; "которая"; "которое"; "которые"].

Definition bareRegionNames : list bytes := strs [
  "башкирия"; "татарстан"; "чувашия"; "якутия"; "дагестан"; "ингушетия"; "осетия"; "адыгея"; "калмыкия";
  "мордовия"; "удмуртия"; "хакасия"; "тыва"; "бурятия"; "коми"; "карелия"; "крым"; "марий эл";
  "кабардино-балкария"; "карачаево-черкесия"; "саха"].

(** ** The pattern of a value *)

Section Pattern.
Context `{SliceSort}.

Definition birth_dateTail : bytes := "(?:г\.|года|году|г)?\s*".

Definition birth_date : bytes :=
  go_bytes "(?:" ++ dateWordsPattern ++ go_bytes "\s+в\s+|\d{1,2}[./-]\d{1,2}[./-]\d{4}\s+" ++ birth_dateTail ++
  go_bytes "в\s+|\d{1,2}\s+(?:января|февраля|марта|апреля|мая|июня|июля|августа|сентября|октября|ноября|декабря|янв|фев|мар|апр|май|июн|июл|авг|сен|окт|ноя|дек)\s+\d{4}\s+" ++
  birth_dateTail ++ go_bytes "в\s+|\d{4}\s+" ++ birth_dateTail ++ go_bytes "в\s+)?".

Definition birth_lead : bytes := "(?:я\s+)?(?:в\s+|in\s+)?".

Definition birth_prefix : bytes :=
  "(?:г\.|гор\.|город|городе|пос\.|посёлок|поселок|село|дер\.|деревня|деревне|станица|пгт|с\.|ст\.|аул|х\.|хутор|п\.|рп|д\.|кишлак|кишлаке)?".

Definition birth_word (upper : bool) : bytes := if upper then "[А-ЯЁ][а-яё-]+" else "[а-яё-]+".

Definition birth_firstWord (upper : bool) : bytes :=
  if upper then "[А-ЯЁ][а-яё-]+|[A-Z][A-Za-z-]+" else "[а-яё-]+|[a-z-]+".

Definition birth_cityAlt : bytes := join_words "|" (map QuoteMeta (cd_cities cities_dict)).

Definition birth_place (upper : bool) : bytes :=
  go_bytes "(?:" ++ birth_firstWord upper ++ go_bytes "|" ++ birth_cityAlt ++ go_bytes ")(?:\s+" ++
  birth_word upper ++ go_bytes "){0,1}".

Definition birth_region : bytes :=
  "(?:область|области|обл\.|край|края|района|район|республики|республика|асср)".

Definition birth_tail (upper : bool) : bytes :=
  let word := birth_word upper in
  go_bytes "(?:,?\s*(?:(?:республики|республика)\s+" ++ word ++ go_bytes "(?:\s+" ++ word ++ go_bytes ")?|" ++
  word ++ go_bytes "\s+" ++ birth_region ++ go_bytes "|" ++ birth_region ++ go_bytes "|" ++
  alternation bareRegionNames ++ go_bytes ")){0,2}".

Definition birthValueBody (upper : bool) : bytes :=
  birth_date ++ birth_lead ++ go_bytes "(?P<value>" ++ birth_prefix ++ go_bytes "\s*" ++ birth_place upper ++
  birth_tail upper ++ go_bytes ")".

Definition birthValuePattern : bytes := go_bytes "(?i)^\s*:?\s*(?:—\s*)?" ++ birthValueBody true.
Definition birthValueLowerPattern : bytes := go_bytes "^\s*:?\s*(?:—\s*)?" ++ birthValueBody false.

Definition birthValueRe : re := MustCompile birthValuePattern.
Definition birthValueLowerRe : re := MustCompile birthValueLowerPattern.
End Pattern.

(** ** Regions and settlements *)

Definition isBareRegionName (lower : bytes) : bool := mem lower bareRegionNames.

Definition isRegionKeyword (lower : bytes) : bool :=
  mem lower (strs ["область"; "области"; "обл."; "край"; "края"; "район"; "района"; "республика"; "республики"]).

Definition isRegionAdjective (lower : bytes) : bool :=
  existsb (has_suffix lower) (strs ["ский"; "ская"; "ой"; "ая"]).

Definition hasSettlementPrefix (s : bytes) : bool := existsb (has_prefix s) settlementPrefixes.

(** [settlementPrefixLen], [None] being -1. *)
Fixpoint settlement_prefix (prefixes : list bytes) (s : bytes) : option Z :=
  match prefixes with
  | [] => None
  | p :: prefixes =>
      if has_prefix s p &&
         match drop (length p) s with [] => true | b :: _ => bool_decide (b ∈ [" "; "."]%byte) end
      then Some (len p) else settlement_prefix prefixes s
  end.

Definition settlementPrefixLen (s : bytes) : option Z := settlement_prefix settlementPrefixes s.

Definition wordCount (s : bytes) : Z := Z.of_nat (length (fields s)).

Section Birthplace.
Context `{Unicode} `{SliceSort}.

Definition isRegionTail (s : bytes) : option bool :=
  if bool_decide (s = []) then Some false else
  first ← head (fields s);
  let lower := lower_string first in
  Some (isRegionKeyword lower || isRegionAdjective lower || isBareRegionName lower).

(** [trimBirthValue]: the end of the value. *)
Definition trimBirthValue (search : bytes) (start end_ : Z) : option Z :=
  value ← go_slice search start end_;
  let idx := str_index value "граждан" in
  '(value, end_) ← (if 0 <=? idx then
                      value ← go_slice search start (start + idx); Some (value, start + idx)
                    else Some (value, end_));
  let idx := str_index value "," in
  if 0 <=? idx then
    after ← go_slice value (idx + 1) (len value);
    region ← isRegionTail (trim_space after);
    Some (if region : bool then end_ else start + idx)
  else Some end_.

Definition starts_city (lower : bytes) : bool := existsb (has_prefix lower) (cd_cities cities_dict).

Definition hasPlaceAfterPrefix (t : Text) (start : Z) (value : bytes) : option bool :=
  match settlementPrefixLen value with
  | None => Some true
  | Some prefixLen =>
      after ← go_slice value prefixLen (len value);
      let rest := trim_space after in
      if bool_decide (rest = []) then Some false
      else if has_prefix rest "." || has_prefix rest "," then Some false else
      raw ← go_slice (t_Raw t) (start + prefixLen) (start + len value);
      let raw := trim_space raw in
      if negb (bool_decide (raw = [])) && isUpperRune (fst (decode_rune raw)) then Some true else
      let lower := lower_string rest in
      if starts_city lower then Some true
      else Some (match head (fields lower) with Some first => negb (mem first birthStopWords) | None => false end)
  end.

Definition validStart (t : Text) (start : Z) (value : bytes) : option bool :=
  let trimmed := trim_space value in
  if bool_decide (trimmed = []) then Some false
  else if hasSettlementPrefix trimmed then Some true else
  raw ← go_slice (t_Raw t) start (start + len value);
  let raw := trim_space raw in
  if negb (bool_decide (raw = [])) && isUpperRune (fst (decode_rune raw)) then Some true
  else Some (starts_city (lower_string trimmed)).

Definition prepositional_prefixes : list bytes :=
  strs ["городе "; "деревне "; "посёлке "; "поселке "; "селе "; "станице "; "кишлаке "].

Definition birthplace_name : bytes := "birthplace".

(** [valueIdx] is what [SubexpIndex] returned. *)
Definition matchAtContext (t : Text) (search : bytes) (ctxEnd : Z) (valueRe : re) (valueIdx : option nat)
    : option (option Span) :=
  rest ← go_slice search ctxEnd (len search);
  match Find valueRe rest with
  | None => Some None
  | Some sub =>
      i ← valueIdx;
      match group i (m_caps sub) with
      | None => Some None
      | Some (a, b) =>
          let start := ctxEnd + a in
          end_ ← trimBirthValue search start (ctxEnd + b);
          value ← go_slice search start end_;
          valid ← validStart t start value;
          if negb valid then Some None else
          place ← hasPlaceAfterPrefix t start value;
          if negb place then Some None else
          '(start, value) ← match List.find (has_prefix value) prepositional_prefixes with
                            | Some p => value ← go_slice search (start + len p) end_; Some (start + len p, value)
                            | None => Some (start, value)
                            end;
          if 10 <? wordCount value then Some None
          else Some (Some (MkSpan start end_ CatBirthPlace birthplace_name (f64_lit 92 100)))
      end
  end.

Definition isBornContext (search : bytes) (m : found) : option bool :=
  ctx ← go_slice search (m_start m) (m_end m); Some (has_prefix ctx "родил").

Definition ctxEndIsAbbrevInWord (search : bytes) (m : found) : option bool :=
  ctx ← go_slice search (m_start m) (m_end m);
  if negb (has_suffix ctx ".") then Some false
  else if 0 <? m_start m then r ← runeBefore search (m_start m); Some (isLetterRune r)
  else Some false.

(** The loop of [subjectWindowStart]; [more] is [40 - count]. *)
Fixpoint window_start (more : nat) (raw : bytes) (start : Z) : option Z :=
  match more with
  | O => Some start
  | S more =>
      if 0 <? start then
        prefix ← go_slice raw 0 start; window_start more raw (start - snd (decode_last_rune prefix))
      else Some start
  end.

Definition subjectWindowStart (t : Text) (ctxStart : Z) : option Z := window_start 40 (t_Raw t) ctxStart.

Definition famousSeqMatch (dict : namesDict) (seq : list token) : bool :=
  let words := map (λ tok, lower_string (tk_text tok)) seq in
  let stems := map normalizeWord (List.filter (λ w, negb (isPatronymic w || isInitialToken w)) words) in
  existsb (sameMultiset stems) (nd_famous dict).

(** The loop of [famousSubjectBefore] over the lengths [ns] of the sequence. *)
Fixpoint famous_subject (t : Text) (windowStart : Z) (toks : list token) (ns : list nat) : option bool :=
  match ns with
  | [] => Some false
  | n :: ns =>
      if (length toks <? n)%nat then Some false else
      let seq := drop (length toks - n) toks in
      if negb (famousSeqMatch names_dict seq) then famous_subject t windowStart toks ns else
      first ← head seq; last_tok ← last seq;
      let absStart := windowStart + tk_start first in
      let absEnd := windowStart + tk_end last_tok in
      marker ← hasLeftContext t absStart famousSubjectMarkers 30;
      if marker : bool then Some false else
      other ← famousOtherPIISameLine t absStart absEnd;
      Some (negb other)
  end.

Definition famousSubjectBefore (t : Text) (ctxStart : Z) : option bool :=
  windowStart ← subjectWindowStart t ctxStart;
  subject ← go_slice (t_Raw t) windowStart ctxStart;
  famous_subject t windowStart (tokenize subject) [2; 3]%nat.

(** The body of the loop of [DetectLower]. *)
Definition birthplace_match (t : Text) (search : bytes) (valueRe : re) (valueIdx : option nat)
    (spans : list Span) (m : found) : option (list Span) :=
  abbrev ← ctxEndIsAbbrevInWord search m;
  if abbrev : bool then Some spans else
  born ← isBornContext search m;
  famous ← (if born : bool then famousSubjectBefore t (m_start m) else Some false);
  if famous : bool then Some spans else
  span ← matchAtContext t search (m_end m) valueRe valueIdx;
  Some (spans ++ option_list span).

Definition birthplace_DetectLower (t : Text) : option (list Span) :=
  if LowerOK t then
    fold_opt (birthplace_match t (t_Lower t) birthValueLowerRe (SubexpIndex birthValueLowerPattern "value")) []
      (FindAll birthContextLowerRe (t_Lower t))
  else
    fold_opt (birthplace_match t (t_Raw t) birthValueRe (SubexpIndex birthValuePattern "value")) []
      (FindAll birthContextRe (t_Raw t)).

Definition birthplace_Detect (text : bytes) : option (list Span) := birthplace_DetectLower (text_of text).

Definition NewBirthplaceDetector : Detector :=
  MkDetector birthplace_name [CatBirthPlace] birthplace_Detect (Some birthplace_DetectLower).
End Birthplace.

Definition born_in (text : bytes) : option (list bytes) :=
  spans ← birthplace_Detect text; Some (map (λ s, slice text (sp_Start s) (sp_End s)) spans).

Example born_examples :
  born_in "Место рождения: г. Краснодар, Краснодарский край" = Some [go_bytes "г. Краснодар, Краснодарский край"] ∧
  born_in "Родилась я в Ташкенте" = Some [go_bytes "Ташкенте"] ∧
  born_in "Александр Сергеевич Пушкин родился в Москве" = Some [] ∧
  born_in "Родился 05.06.1985 г. в городе Тула" = Some [go_bytes "Тула"].
Proof. vm_compute. split_and!; reflexivity. Qed.

(** ** The number of the group [value] *)

Section ValueIndex.
Context `{SliceSort}.

Lemma scan_neutral_app a b names : neutral a → scan_pattern (ScanText, names) (a ++ b) = scan_pattern (ScanText, names) b.
Proof. intros Ha. rewrite scan_pattern_app by apply Ha. by rewrite neutral_scan. Qed.

Lemma neutral_alternation alts : Forall neutral alts → neutral (alternation alts).
Proof.
  intros Ha. unfold alternation. repeat apply neutral_app; [by apply (bool_decide_unpack _)| |by apply (bool_decide_unpack _)].
  apply neutral_join; [by apply (bool_decide_unpack _)|done].
Qed.

Lemma Forall_sort {A : Type} (P : A → Prop) (less : A → A → bool) l : Forall P l → Forall P (sort_slice less l).
Proof. by rewrite sort_slice_perm. Qed.

Lemma day_words_neutral : Forall neutral (sort_slice longer (map fst dateWordDays)).
Proof. apply Forall_sort, (bool_decide_unpack _). vm_compute. exact I. Qed.

Lemma month_words_neutral : neutral buildMonthAlt.
Proof. apply neutral_alternation, Forall_sort, (bool_decide_unpack _). vm_compute. exact I. Qed.

Lemma year_words_neutral : neutral buildDateWordYearRe.
Proof.
  apply neutral_alternation, Forall_app. split; [apply Forall_sort|]; apply (bool_decide_unpack _); vm_compute; exact I.
Qed.

Lemma cities_neutral : neutral birth_cityAlt.
Proof.
  apply neutral_join; [by apply (bool_decide_unpack _)|]. apply Forall_map.
  rewrite loadCities_perm. apply (bool_decide_unpack _). vm_compute. exact I.
Qed.

Ltac neutral_text := apply (bool_decide_unpack _); vm_compute; exact I.

Lemma scan_dateWords b names :
  scan_pattern (ScanText, names) (dateWordsPattern ++ b) = scan_pattern (ScanText, names ++ [[]]) b.
Proof.
  unfold dateWordsPattern, buildDateWordDayRe, alternation. rewrite <- !app_assoc.
  rewrite scan_pattern_app by neutral_text.
  replace (scan_pattern (ScanText, names) (go_bytes "(")) with (ScanOpen, names) by reflexivity.
  rewrite scan_pattern_app by neutral_text.
  replace (scan_pattern (ScanOpen, names) (go_bytes "(?:")) with (ScanText, names ++ [[]]) by reflexivity.
  rewrite scan_neutral_app by (apply neutral_join; [neutral_text|apply day_words_neutral]).
  rewrite scan_neutral_app by neutral_text. rewrite scan_neutral_app by neutral_text.
  rewrite scan_neutral_app by apply month_words_neutral. rewrite scan_neutral_app by neutral_text.
  rewrite scan_neutral_app by apply year_words_neutral. by rewrite scan_neutral_app by neutral_text.
Qed.

Lemma value_index lead upper :
  neutral lead → SubexpIndex (lead ++ birthValueBody upper) "value" = Some 2%nat.
Proof.
  intros Hl. unfold SubexpIndex, SubexpNames, birthValueBody, birth_date. rewrite <- !app_assoc.
  rewrite scan_neutral_app by done. rewrite scan_neutral_app by neutral_text. rewrite scan_dateWords.
  repeat (rewrite scan_neutral_app by neutral_text).
  rewrite scan_pattern_app by neutral_text.
  replace (scan_pattern (ScanText, [] ++ [[]]) (go_bytes "(?P<value>"))
    with (ScanText, [[]; runes (go_bytes "value")]) by (vm_compute; reflexivity).
  unfold scan_pattern. rewrite scan_names. cbn [snd app list_find].
  rewrite decide_False by (vm_compute; discriminate). rewrite decide_True by done. reflexivity.
Qed.

Lemma birthValueLower_index : SubexpIndex birthValueLowerPattern "value" = Some 2%nat.
Proof. apply value_index. neutral_text. Qed.

Lemma birthValue_index : SubexpIndex birthValuePattern "value" = Some 2%nat.
Proof. apply value_index. neutral_text. Qed.
End ValueIndex.

(** ** The detector returns *)

Lemma drop_spaces_head cs c cs' : drop_spaces cs = c :: cs' → is_space (fst c) = false.
Proof.
  induction cs as [|[r b] cs IH]; cbn [drop_spaces]; [done|].
  destruct (is_space r) eqn:E; [exact IH|]. intros [= <- _]. done.
Qed.

(** What white space was trimmed off holds a word. *)
Lemma trim_fields s : trim_space s ≠ [] → fields (trim_space s) ≠ [].
Proof.
  intros Hne. destruct (drop_spaces_split (chunks s)) as (u & Hu & _).
  destruct (drop_spaces_split (rev (drop_spaces (chunks s)))) as (w & Hw & _).
  destruct (drop_spaces (rev (drop_spaces (chunks s)))) as [|c e] eqn:He.
  { exfalso. apply Hne. unfold trim_space. by rewrite He. }
  apply drop_spaces_head in He as Hc.
  apply (f_equal (@rev _)) in Hw. rewrite rev_involutive, rev_app_distr in Hw.
  assert (chunks (trim_space s) = rev (c :: e)) as Ht.
  { unfold trim_space. rewrite He. apply (chunks_run s u _ (rev w)). by rewrite <- Hw. }
  apply (fields_nonempty _ (fst c)); [|done]. unfold runes. rewrite Ht. apply list_elem_of_fmap.
  exists c. split; [done|]. apply elem_of_rev. left.
Qed.

Lemma str_index_bound s sub : 0 <= str_index s sub → str_index s sub + len sub <= len s.
Proof. intros Hi. by apply occurs_at_slice, str_index_occurs. Qed.

Lemma Find_group_bounds `{Unicode} r s m n a b :
  Find r s = Some m → group n (m_caps m) = Some (a, b) → 0 <= a ∧ a <= b ∧ b <= len s.
Proof.
  intros Hf Hg. destruct (sub_group_bounds s r 0 (len s) m n (a, b)) as (? & ? & ? & _);
    [done|apply len_nonneg|done|by rewrite slice_full|done|]. cbn [fst snd] in *. lia.
Qed.

Section BirthFacts.
Context `{Unicode} `{SliceSort}.

Lemma isRegionTail_returns s : returns (isRegionTail (trim_space s)) (λ _, True).
Proof.
  unfold isRegionTail. case_bool_decide as Hs; [by apply returns_ret|]. apply trim_fields in Hs.
  destruct (fields (trim_space s)); [done|]. cbn [head mbind option_bind]. by apply returns_ret.
Qed.

Lemma trimBirthValue_returns search start end_ :
  0 <= start → start <= end_ → end_ <= len search →
  returns (trimBirthValue search start end_) (λ e, start <= e ∧ e <= end_).
Proof.
  intros ? ? ?. unfold trimBirthValue. ret_step. subst x. set (value := slice search start end_).
  assert (len value = end_ - start) as Hlen by (apply len_slice; lia).
  pose proof (str_index_bound value "граждан") as Hg. assert (0 <= len (go_bytes "граждан")) by apply len_nonneg.
  eapply (returns_bind _ _ (λ '(v, e), start <= e ∧ e <= end_ ∧ len v = e - start)).
  { destruct (0 <=? str_index value "граждан") eqn:E; [|by apply returns_ret].
    ret_step. apply returns_ret. subst. split_and!; [lia|lia|]. rewrite len_slice by lia. lia. }
  intros [v e] (? & ? & Hv). pose proof (str_index_bound v ",") as Hc.
  assert (len (go_bytes ",") = 1) by done.
  destruct (0 <=? str_index v ",") eqn:E; [|by apply returns_ret].
  ret_step. eapply returns_bind; [apply isRegionTail_returns|]. intros region _. apply returns_ret.
  destruct region; lia.
Qed.

Lemma settlement_prefix_bound prefixes s n : settlement_prefix prefixes s = Some n → 0 <= n ∧ n <= len s.
Proof.
  induction prefixes as [|p prefixes IH]; cbn [settlement_prefix]; [done|].
  destruct (has_prefix s p) eqn:E; cbn [andb]; [|exact IH].
  case_match; [|exact IH]. intros [= <-]. apply has_prefix_len in E. pose proof (len_nonneg p). lia.
Qed.

Lemma hasPlaceAfterPrefix_returns t start value :
  0 <= start → start + len value <= len (t_Raw t) → returns (hasPlaceAfterPrefix t start value) (λ _, True).
Proof.
  intros ? ?. unfold hasPlaceAfterPrefix. destruct (settlementPrefixLen value) as [n|] eqn:E; [|by apply returns_ret].
  apply settlement_prefix_bound in E. by repeat ret_step.
Qed.

Lemma validStart_returns t start value :
  0 <= start → start + len value <= len (t_Raw t) →
  returns (validStart t start value) (λ b, b = true → value ≠ []).
Proof.
  intros ? ?. unfold validStart. pose proof (len_nonneg value). case_bool_decide as Hv; [by apply returns_ret|].
  assert (value ≠ []) by (intros ->; done). by repeat ret_step.
Qed.

(** A prepositional prefix alone is no place, but for the one that [settlementPrefixes]
    spells differently. *)
Lemma bare_prefix t start p :
  p ∈ prepositional_prefixes → p ≠ go_bytes "посёлке " → hasPlaceAfterPrefix t start p = Some false.
Proof.
  unfold prepositional_prefixes, strs. cbn [map]. rewrite !elem_of_cons. intros Hp Hne.
  destruct Hp as [->|[->|[->|[->|[->|[->|[->|[]%elem_of_nil]]]]]]]; by vm_compute.
Qed.

(** A span inside the text, which may be empty. *)
Definition place_in (raw search : bytes) (s : Span) : Prop :=
  0 <= sp_Start s ∧ sp_Start s <= sp_End s ∧ sp_End s <= len raw ∧ sp_Category s = CatBirthPlace ∧
  (str_contains search "посёлке " = false → sp_Start s < sp_End s).

Lemma slice_prefix_contains s a b p : 0 <= a → a <= b → b <= len s → has_prefix (slice s a b) p = true → str_contains s p = true.
Proof.
  intros ? ? ? Hp. apply str_contains_spec. exists a. split; [lia|].
  apply has_prefix_spec in Hp as [w Hw]. apply has_prefix_spec. exists (w ++ drop (Z.to_nat (b - a)) (drop (Z.to_nat a) s)).
  rewrite app_assoc, <- Hw. unfold slice. by rewrite take_drop.
Qed.

Lemma matchAtContext_returns t search ctxEnd valueRe :
  len search = len (t_Raw t) → 0 <= ctxEnd → ctxEnd <= len search →
  returns (matchAtContext t search ctxEnd valueRe (Some 2%nat))
    (λ o, Forall (place_in (t_Raw t) search) (option_list o)).
Proof.
  intros Hl ? ?. unfold matchAtContext. ret_step. subst x.
  destruct (Find valueRe _) as [sub|] eqn:Ef; [|apply returns_ret; constructor]. cbn [mbind option_bind].
  destruct (group 2 (m_caps sub)) as [[a b]|] eqn:Eg; [|apply returns_ret; constructor].
  destruct (Find_group_bounds _ _ _ _ _ _ Ef Eg) as (? & ? & Hb). rewrite len_slice in Hb by lia.
  eapply returns_bind; [apply trimBirthValue_returns; lia|]. intros e [? ?].
  ret_step. subst x. set (value := slice search (ctxEnd + a) e).
  assert (len value = e - (ctxEnd + a)) as Hlen by (apply len_slice; lia).
  eapply returns_bind; [apply validStart_returns; lia|]. intros valid Hvalid.
  destruct valid; cbn [negb]; [|apply returns_ret; constructor]. specialize (Hvalid eq_refl). apply len_pos in Hvalid.
  destruct (hasPlaceAfterPrefix_returns t (ctxEnd + a) value) as (place & Hplace & _); [lia..|].
  rewrite Hplace. cbn [mbind option_bind]. destruct place; cbn [negb]; [|apply returns_ret; constructor].
  eapply (returns_bind _ _ (λ '(st, v), ctxEnd + a <= st ∧ st <= e ∧ (str_contains search "посёлке " = false → st < e))).
  { destruct (List.find (has_prefix value) prepositional_prefixes) as [p|] eqn:Ep; [|apply returns_ret; split_and!; lia].
    apply find_some in Ep as [Hin Hp]. apply list_elem_of_In in Hin. pose proof (has_prefix_len _ _ Hp). pose proof (len_nonneg p).
    ret_step. apply returns_ret. split_and!; [lia|lia|]. intros Hno.
    destruct (decide (ctxEnd + a + len p = e)) as [He|]; [exfalso|lia].
    apply has_prefix_spec in Hp as Hw. destruct Hw as [w Hw]. assert (w = []) as ->.
    { apply (f_equal len) in Hw. rewrite len_app in Hw. destruct w; [done|]. unfold len in *. cbn [length] in *. lia. }
    rewrite app_nil_r in Hw. destruct (decide (p = go_bytes "посёлке ")) as [->|Hne].
    - by rewrite (slice_prefix_contains search (ctxEnd + a) e) in Hno by (done || lia).
    - rewrite Hw, bare_prefix in Hplace by done. done. }
  intros [st v] (? & ? & ?). case_match; apply returns_ret; [constructor|].
  constructor; [|constructor]. unfold place_in. cbn [sp_Start sp_End sp_Category]. split_and!; [lia..|done|done].
Qed.

Lemma window_start_returns more raw start :
  0 <= start → start <= len raw → returns (window_start more raw start) (λ w, 0 <= w ∧ w <= start).
Proof.
  revert start. induction more as [|more IH]; intros start ? ?; cbn [window_start]; [by apply returns_ret; lia|].
  destruct (0 <? start) eqn:E; [|apply returns_ret; lia]. ret_step. subst x.
  assert (len (slice raw 0 start) = start) as Hl by (rewrite len_slice by lia; lia).
  pose proof (decode_last_rune_width (slice raw 0 start)) as Hw.
  assert (slice raw 0 start ≠ []) as Hne by (intros He; rewrite He, len_nil in Hl; lia). specialize (Hw Hne).
  eapply returns_mono; [apply IH; lia|]. cbv beta. lia.
Qed.

Lemma famous_subject_returns t w ctxStart toks ns :
  0 <= w → w <= ctxStart → ctxStart <= len (t_Raw t) → words_of (slice (t_Raw t) w ctxStart) toks →
  Forall (λ n, 2 <= n)%nat ns → returns (famous_subject t w toks ns) (λ _, True).
Proof.
  intros ? ? ? Hw. induction 1 as [|n ns Hn _ IH]; cbn [famous_subject]; [by apply returns_ret|].
  destruct (length toks <? n)%nat eqn:El; [by apply returns_ret|].
  pose proof (words_of_drop _ (length toks - n) _ Hw) as Hd.
  assert (length (drop (length toks - n) toks) = n) as Hlen by (rewrite length_drop; lia).
  destruct (drop (length toks - n) toks) as [|a l] eqn:Ed; [cbn in Hlen; lia|].
  case_match; [exact IH|]. cbn [head mbind option_bind].
  destruct (last_is_Some (a :: l)) as [_ [b Hb]]; [done|]. rewrite Hb. cbn [mbind option_bind].
  destruct (words_of_span _ _ a b Hd eq_refl Hb) as (? & ? & Hle). rewrite len_slice in Hle by lia.
  ret_step. destruct x; [by apply returns_ret|].
  eapply returns_bind; [apply famousOtherPIISameLine_returns; lia|]. intros other _. by apply returns_ret.
Qed.

Lemma famousSubjectBefore_returns t ctxStart :
  0 <= ctxStart → ctxStart <= len (t_Raw t) → returns (famousSubjectBefore t ctxStart) (λ _, True).
Proof.
  intros ? ?. unfold famousSubjectBefore, subjectWindowStart.
  eapply returns_bind; [apply window_start_returns; lia|]. intros w [? ?]. ret_step. subst x.
  apply (famous_subject_returns t w ctxStart); [lia..|apply words_of_text|repeat constructor].
Qed.

Lemma birthplace_match_returns t search valueRe spans m :
  len search = len (t_Raw t) → 0 <= m_start m → m_start m <= m_end m → m_end m <= len search →
  Forall (place_in (t_Raw t) search) spans →
  returns (birthplace_match t search valueRe (Some 2%nat) spans m) (Forall (place_in (t_Raw t) search)).
Proof.
  intros Hl ? ? ? Hs. unfold birthplace_match. eapply (returns_bind _ _ (λ _, True)).
  { unfold ctxEndIsAbbrevInWord. ret_step. subst x. repeat case_match; try by apply returns_ret.
    destruct (runeBefore_total search (m_start m)) as [r Hr]; [lia|]. rewrite Hr. by apply returns_ret. }
  intros abbrev _. destruct abbrev; [by apply returns_ret|]. unfold isBornContext. rewrite go_slice_Some by lia. cbn [mbind option_bind].
  eapply (returns_bind _ _ (λ _, True)); [case_match; [apply famousSubjectBefore_returns; lia|by apply returns_ret]|].
  intros famous _. destruct famous; [by apply returns_ret|].
  eapply returns_bind; [apply matchAtContext_returns; lia|]. intros o Ho. apply returns_ret. by apply Forall_app.
Qed.

Lemma birthplace_fold t search ctxRe valueRe :
  len search = len (t_Raw t) →
  ∃ l, fold_opt (birthplace_match t search valueRe (Some 2%nat)) [] (FindAll ctxRe search) = Some l ∧
    Forall (place_in (t_Raw t) search) l.
Proof.
  intros Hl. destruct (FindAll_in [] ctxRe search) as [Hf _].
  apply (returns_fold _ (Forall (place_in (t_Raw t) search))
    (λ m, 0 <= m_start m ∧ m_start m <= m_end m ∧ m_end m <= len search)); [constructor| |].
  - eapply Forall_impl; [exact Hf|]. intros m. apply match_in_bounds.
  - intros spans m Hs (? & ? & ?). by apply birthplace_match_returns.
Qed.

Lemma birthplace_spec t :
  ∃ l, birthplace_DetectLower t = Some l ∧
    Forall (place_in (t_Raw t) (if LowerOK t then t_Lower t else t_Raw t)) l.
Proof.
  unfold birthplace_DetectLower. rewrite birthValueLower_index, birthValue_index.
  destruct (LowerOK t) eqn:E; [|by apply birthplace_fold]. apply birthplace_fold. unfold LowerOK in E. lia.
Qed.
End BirthFacts.
