(* ===== verification/Address.v ===== *)
(** * Package [detectors]: addresses

    Models [internal/pii/detectors/address.go], without its dictionary of cities
    ([Cities]). A result [None] is a run-time panic or a loop that does not end. *)

From S2P Require Import Prelude GoText Float64 Pii Mask Regexp RegexpSyntax.
From S2P Require Import TextUtil Labels NameDict Issuer Cities.

(** ** Fragments of an address *)

Definition kindStreet : bytes := "street".
Definition kindHouse : bytes := "house".
Definition kindStreetHouse : bytes := "street_house".
Definition kindLocality : bytes := "locality".
Definition kindLabeled : bytes := "labeled".

Definition markerKorp : bytes := "корп".
Definition markerStr : bytes := "стр".

Record addrComponent := MkComp { co_start : Z; co_end : Z; co_kind : bytes }.

(** ** Patterns *)

Definition addrIndexRe : re := MustCompile "\b[1-6]\d{5}\b".

Definition addrCountryRe : re := MustCompile
  "(?i)(?:российская федерация|республика беларусь|россия|рф|казахстан|беларусь|армения|узбекистан)".
Definition addrCountryLowerRe : re := MustCompile
  "(?:российская федерация|республика беларусь|россия|рф|казахстан|беларусь|армения|узбекистан)".

Definition addrRegionRe : re := MustCompile
  "(?i)(?:\S+\s+(?:область|обл\.|край|автономный округ|ао)|(?:республика|респ\.)\s+\S+)".
Definition addrRegionLowerRe : re := MustCompile
  "(?:\S+\s+(?:область|обл\.|край|автономный округ|ао)|(?:республика|респ\.)\s+\S+)".

Definition addrDistrictRe : re := MustCompile "(?i)\S+\s+(?:район|р-н)".
Definition addrDistrictLowerRe : re := MustCompile "\S+\s+(?:район|р-н)".

Definition addrLocalityRe : re := MustCompile
  "(?i)(?:г\.|город|гор\.|пос\.|посёлок|поселок|с\.|село|дер\.|деревня|ст\.|станица|пгт|мкр\.|микрорайон)\s+[А-Яа-яЁё-]+(?:\s+[А-Яа-яЁё-]+){0,2}".
Definition addrLocalityLowerRe : re := MustCompile
  "(?:г\.|город|гор\.|пос\.|посёлок|поселок|с\.|село|дер\.|деревня|ст\.|станица|пгт|мкр\.|микрорайон)\s+[а-яё-]+(?:\s+[а-яё-]+){0,2}".

Definition addrStreetMarkerRe : re := MustCompile
  "(?i)(?:ул\.|ул|улица|улице|улицу|пр-кт|пр-т|пр\.|проспект|проспекте|пер\.|переулок|б-р|бульвар|ш\.|шоссе|наб\.|набережная|пл\.|площадь|проезд|пр-д|тупик|аллея|линия)\s+[А-Яа-яЁё-]+\.?(?:\s+[А-Яа-яЁё-]+\.?){0,2}".

Definition addrStreetNameRe : re := MustCompile
  "[А-ЯЁ][а-яё-]+(?:\s+[А-ЯЁ][а-яё-]+){0,1}\s+(?:улица|ул\.|проспект|пр-т|пр\.|переулок|пер\.|бульвар|б-р|шоссе|ш\.|набережная|наб\.|площадь|пл\.|проезд|тупик|аллея|линия)".

Definition addrHouseRe : re := MustCompile
  "(?i)(?:д\.|дом|д)\s*\d+[а-яa-z]?(?:\s*/\s*\d+)?(?:\s*-\s*\d+)?(?:\s*(?:к\.|корп\.|корпус|к)\s*\d+)?(?:\s*(?:стр\.|строение|с)\s*\d+)?".
Definition addrHouseLowerRe : re := MustCompile
  "(?:д\.|дом|д)\s*\d+[а-яa-z]?(?:\s*/\s*\d+)?(?:\s*-\s*\d+)?(?:\s*(?:к\.|корп\.|корпус|к)\s*\d+)?(?:\s*(?:стр\.|строение|с)\s*\d+)?".

Definition addrStrRe : re := MustCompile "(?i)(?:стр\.|строение)\s*\d+[а-яa-z]?".
Definition addrStrLowerRe : re := MustCompile "(?:стр\.|строение)\s*\d+[а-яa-z]?".

Definition addrAptRe : re := MustCompile "(?i)(?:кв\.|кв|квартира|оф\.|офис|пом\.|помещение|комн\.)\s*\d+[а-я]?".
Definition addrAptLowerRe : re := MustCompile "(?:кв\.|кв|квартира|оф\.|офис|пом\.|помещение|комн\.)\s*\d+[а-я]?".

Definition addrAptWordRe : re := MustCompile "(?i)(?:кв\.|квартира)\s+[а-яё]+(?:\s+[а-яё]+)?".
Definition addrAptWordLowerRe : re := MustCompile "(?:кв\.|квартира)\s+[а-яё]+(?:\s+[а-яё]+)?".

Definition addrPOBoxRe : re := MustCompile "(?i)а/я\s*\d+".
Definition addrPOBoxLowerRe : re := MustCompile "а/я\s*\d+".

Definition addrBareStreetCtxRe : re := MustCompile
  "[А-ЯЁ][а-яё-]+(?:\s+[А-ЯЁ][а-яё-]+){0,2}\s*,?\s*\d{1,4}[а-яa-z]?(?:\s+(?:корп\.|корпус|к)\s*\d+)?(?:\s*,\s*(?:кв\.|квартира)\s*\d+[а-я]?)?".

Definition addrBareStreetCtxLowerRe : re := MustCompile
  "(?:на|в|по)\s+([а-яё-]+(?:\s+[а-яё-]+){0,2}\s*,?\s*\d{1,4}[а-яa-z]?(?:\s+(?:корп\.|корпус|к)\s*\d+)?(?:\s*,\s*(?:кв\.|квартира)\s*\d+[а-я]?)?)".

Definition addrBareHouseRe : re := MustCompile ",\s*\d{1,4}[а-яa-z]?(?:\s*-\s*\d+)?".

Definition addrBareHouseDirectRe : re := MustCompile "\d{1,4}[а-яa-z]?(?:\s+(?:к\.|корп\.|корпус|к)\s*\d+)?".

Definition addrBareStreetHouseRe : re := MustCompile "[А-ЯЁ][а-яё-]+(?:\s+[А-ЯЁ][а-яё-]+){0,2}\s+\d{1,4}[а-яa-z]?".

Definition addrParenLocalityRe : re := MustCompile "\([А-ЯЁ][а-яё-]+\)".

Definition addrLabeledRe : re := MustCompile
  "(?i)(?:страна проживания|страна|индекс|город|улица|дом|квартира|кв\.|кв|region|country|index|zip|city|street|building|apt)(?:\s*:\s*|\s*=\s*|\s+[-—]\s+)".

(** ** Word lists *)

Definition addrContext : list bytes := strs [
  "адрес"; "проживает"; "прописан"; "зарегистрирован"; "проживающий"; "место жительства"; "доставка";
  "доставить"; "живу"; "живёт"; "снимаю"; "проживаю"; "прописка"; "почтовый адрес"].

Definition addrExceptionStems : list bytes := strs [
  "отделени"; "офис"; "банкомат"; "филиал"; "юридическ"; "юрадрес"; "головн"; "отель"; "гостиниц"; "конференц"].

Definition bareStreetAdjectiveSuffixes : list bytes := strs [
  "ской"; "ская"; "ая"; "ой"; "ий"; "ому"; "ом"].

Definition bareStreetStopWords : list bytes := strs [
  "будний"; "рабочий"; "любой"; "ближайший"; "следующий"; "этот"; "каждый"; "день"; "время"; "час"].

Definition bareStreetDurationWords : list bytes := strs ["час"; "день"; "до"].

Definition addrNonStreetWords : list bytes := strs [
  "паспорт"; "серия"; "снилс"; "инн"; "телефон"; "тел"; "карта"; "счёт"; "счет"; "заказ"; "договор"; "код";
  "пин"; "cvc"; "cvv"; "выдан"; "выдано"; "получатель"; "клиент"; "оператор"; "фио"; "ф.и.о"; "адрес";
  "адресу"; "адреса"; "адресе"; "проживаю"; "проживает"; "живу"; "живёт"; "живет"; "снимаю"; "прописка";
  "регистрации"; "регистрация"].

Definition addrExceptionPhrases : list bytes := strs [
  "пункт выдачи"; "адрес банка"; "до"; "банка"; "банке"].

Definition addrPersonalMarkers : list bytes := strs [
  "живу"; "живёт"; "живет"; "проживаю"; "проживает"; "прописан"; "прописана"; "зарегистрирован";
  "зарегистрирована"; "адрес регистрации"; "адрес проживания"; "мой адрес"; "домашний адрес";
  "фактический адрес"; "прописка"].

Definition addrExceptionWindow : Z := 60.

Definition addrClauseBoundary : list byte := [","; "."; "!"; "?"; "010"]%byte.

Definition addrNonStreetPhrases : list bytes := strs ["горячая линия"].

Definition addrHotlineFollowWords : list bytes := strs ["банка"; "банку"; "банке"].

(** ** Scans over bytes *)

(** [for i < end && p(s[i]) { i++ }] with [n = end - i]. *)
Fixpoint skip_while (p : byte → bool) (n : nat) (s : bytes) (i : Z) : option Z :=
  match n with
  | O => Some i
  | S n => b ← go_index s i; if p b : bool then skip_while p n s (i + 1) else Some i
  end.

(** [for end > start && p(s[end-1]) { end-- }] with [n = end - start]. *)
Fixpoint back_while (p : byte → bool) (n : nat) (s : bytes) (e : Z) : option Z :=
  match n with
  | O => Some e
  | S n => b ← go_index s (e - 1); if p b : bool then back_while p n s (e - 1) else Some e
  end.

Definition followedByDigit (text : bytes) (pos : Z) : option bool :=
  if len text <=? pos then Some false else
  r ← decodedRune text pos; Some (ascii_digit r).

(** [lastDigitRun]: the last digit of [[i, i + n)], the last one found being [pos]. *)
Fixpoint last_digit (n : nat) (s : bytes) (i pos : Z) : option Z :=
  match n with
  | O => Some pos
  | S n => b ← go_index s i; last_digit n s (i + 1) (if digit_byte b then i else pos)
  end.

Definition lastDigitRun (s : bytes) (start end_ : Z) : option Z := last_digit (Z.to_nat (end_ - start)) s start (-1).

Definition hasAdjectiveSuffix (word : bytes) : bool := existsb (has_suffix word) bareStreetAdjectiveSuffixes.

(** [sentenceEndPeriod] with [n = end - i] positions to go. *)
Fixpoint sentence_period (n : nat) (text : bytes) (i end_ : Z) : option Z :=
  match n with
  | O => Some (-1)
  | S n =>
      b ← go_index text i;
      if negb (bool_decide (b = "."%byte)) then sentence_period n text (i + 1) end_ else
      stops ← (if i + 1 <? len text then
                 c ← go_index text (i + 1);
                 if bool_decide (c = " "%byte) && (i + 2 <? end_) then r ← decodedRune text (i + 2); Some (isUpperRune r)
                 else Some false
               else Some false);
      if stops : bool then Some i else sentence_period n text (i + 1) end_
  end.

Definition sentenceEndPeriod (text : bytes) (start end_ : Z) : option Z :=
  sentence_period (Z.to_nat (end_ - start)) text start end_.

(** The period after a digit that [trimLabeledValue] drops last. *)
Definition drop_period (text : bytes) (start end_ : Z) : option Z :=
  if end_ <=? start then Some end_ else
  b ← go_index text (end_ - 1);
  if bool_decide (b = "."%byte) && (start <=? end_ - 2) then
    c ← go_index text (end_ - 2); Some (if digit_byte c then end_ - 1 else end_)
  else Some end_.

Definition trimLabeledValue (text : bytes) (start end_ : Z) : option (Z * Z) :=
  p ← sentenceEndPeriod text start end_;
  let end_ := if 0 <=? p then p else end_ in
  start ← skip_while (λ b, bool_decide (b ∈ [" "; "009"]%byte)) (Z.to_nat (end_ - start)) text start;
  end_ ← back_while (λ b, bool_decide (b ∈ [" "; "009"; ","; ";"; "010"]%byte)) (Z.to_nat (end_ - start)) text end_;
  end_ ← drop_period text start end_;
  Some (start, end_).

(** ** Occurrences of words *)

(** The loop that [lastStemIndex] and [lastWordIndex] each contain. *)
Fixpoint last_occurrence (stands : Z → option bool) (fuel : nat) (s kw : bytes) (idx best : Z) : option Z :=
  match fuel with
  | O => None
  | S fuel =>
      rest ← go_slice s idx (len s);
      let pos := str_index rest kw in
      if pos <? 0 then Some best else
      let start := idx + pos in
      ok ← stands start;
      last_occurrence stands fuel s kw (start + 1) (if ok : bool then start else best)
  end.

Definition word_left (s : bytes) (start : Z) : option bool :=
  if start =? 0 then Some true else r ← runeBefore s start; Some (negb (isLetterRune r)).

Definition word_right (s : bytes) (end_ : Z) : option bool :=
  if end_ =? len s then Some true else r ← decodedRune s end_; Some (negb (isLetterRune r)).

Definition lastStemIndex (s stem : bytes) : option Z :=
  last_occurrence (word_left s) (S (length s)) s stem 0 (-1).

Definition whole_word (s kw : bytes) (start : Z) : option bool :=
  left ← word_left s start; right ← word_right s (start + len kw); Some (left && right).

Definition lastWordIndex (s kw : bytes) : option Z :=
  last_occurrence (whole_word s kw) (S (length s)) s kw 0 (-1).

Definition containsStem (s stem : bytes) : option bool := i ← lastStemIndex s stem; Some (0 <=? i).
Definition containsWord (s kw : bytes) : option bool := i ← lastWordIndex s kw; Some (0 <=? i).

(** [if idx := f(s, kw); idx > best { best = idx }] *)
Definition rightmost (f : bytes → option Z) (best : Z) (kw : bytes) : option Z := idx ← f kw; Some (Z.max best idx).

Definition lastExceptionIndex (s : bytes) : option Z :=
  best ← fold_opt (rightmost (lastStemIndex s)) (-1) addrExceptionStems;
  fold_opt (rightmost (lastWordIndex s)) best addrExceptionPhrases.

Definition lastMarkerIndex (s : bytes) : option Z := fold_opt (rightmost (lastWordIndex s)) (-1) addrPersonalMarkers.

(** The tail after the last byte of the set, or the whole. *)
Definition lastClause (s : bytes) : bytes :=
  foldl (λ tail b, if bool_decide (b ∈ addrClauseBoundary) then [] else tail ++ [b]) [] s.

Section Address.
Context `{Unicode} `{SliceSort}.

(** ** Streets, houses, localities *)

Definition component_at (kind : bytes) (m : found) : addrComponent := MkComp (m_start m) (m_end m) kind.

(** [add] of [findComponents] *)
Definition find_kind (r : re) (search kind : bytes) : list addrComponent :=
  map (component_at kind) (FindAll r search).

(** The matches that a check lets pass. *)
Definition keep_matches (check : found → option bool) (kind : bytes) (ms : list found) : option (list addrComponent) :=
  fold_opt (λ comps m, ok ← check m; Some (if ok : bool then comps ++ [component_at kind m] else comps)) [] ms.

Definition findLocalities (search text : bytes) (localityRe : re) : option (list addrComponent) :=
  keep_matches (λ m, if 0 <? m_start m then r ← runeBefore text (m_start m); Some (negb (isLetterRune r)) else Some true)
    kindLocality (FindAll localityRe search).

Definition isHotlineLinija (matchText : bytes) : bool :=
  match fields (lower_string matchText) with
  | w :: v :: _ => eq_bytes w "линия" && mem v addrHotlineFollowWords
  | _ => false
  end.

Definition findStreets (text : bytes) : option (list addrComponent) :=
  marked ← keep_matches (λ m,
    r ← runeBefore text (m_start m);
    if isLetterRune r then Some false else
    s ← go_slice text (m_start m) (m_end m); Some (negb (isHotlineLinija s))) kindStreet (FindAll addrStreetMarkerRe text);
  named ← keep_matches (λ m,
    s ← go_slice text (m_start m) (m_end m); Some (negb (mem (lower_string s) addrNonStreetPhrases)))
    kindStreet (FindAll addrStreetNameRe text);
  Some (marked ++ named).

Definition trim_markers : list bytes := strs ["д"; "дом"; "к"] ++ [markerKorp] ++ strs ["корпус"] ++ [markerStr] ++ strs ["строение"].

Definition trimStreetMarker (text : bytes) (start end_ : Z) : option Z :=
  street ← go_slice text start end_;
  match last (fields street) with
  | None => Some end_
  | Some w =>
      if mem (lower_string (trim_right ["."%byte] w)) trim_markers
      then back_while (λ b, negb (bool_decide (b = " "%byte))) (Z.to_nat (end_ - start)) text end_
      else Some end_
  end.

Definition trim_component (text : bytes) (c : addrComponent) : option addrComponent :=
  if eq_bytes (co_kind c) kindStreet
  then e ← trimStreetMarker text (co_start c) (co_end c); Some (MkComp (co_start c) e (co_kind c))
  else Some c.

(** The loop changes the slice in place. *)
Definition trimStreetMarkers (text : bytes) (comps : list addrComponent) : option (list addrComponent) :=
  mapM (trim_component text) comps.

Definition shift (from : Z) (kind : bytes) (m : found) : addrComponent :=
  MkComp (from + m_start m) (from + m_end m) kind.

Definition bareHousesInWindow (text : bytes) (from windowEnd : Z) (r : re) (maxGap : Z) : option (list addrComponent) :=
  window ← go_slice text from windowEnd;
  fold_opt (λ out m,
    digit ← followedByDigit text (from + m_end m);
    gap ← gapRunes text from (from + m_start m);
    Some (if negb digit && (gap <=? maxGap) then out ++ [shift from kindHouse m] else out)) [] (FindAll r window).

Definition bareHousesAfterStreet (text : bytes) (comps : list addrComponent) : option (list addrComponent) :=
  fold_opt (λ out s,
    if negb (eq_bytes (co_kind s) kindStreet) then Some out else
    windowEnd ← runeOffsetAfter text (co_end s) 200;
    commas ← bareHousesInWindow text (co_end s) windowEnd addrBareHouseRe 3;
    direct ← bareHousesInWindow text (co_end s) windowEnd addrBareHouseDirectRe 1;
    Some (out ++ commas ++ direct)) [] comps.

Definition bareStreetIsNonStreet (text : bytes) (start : Z) : option bool :=
  word ← nextWord text start; Some (mem (lower_string word) addrNonStreetWords).

Definition bareStreetsAfterLocality (text : bytes) (comps : list addrComponent) : option (list addrComponent) :=
  fold_opt (λ out s,
    if negb (eq_bytes (co_kind s) kindLocality) then Some out else
    windowEnd ← runeOffsetAfter text (co_end s) 200;
    window ← go_slice text (co_end s) windowEnd;
    fold_opt (λ out m,
      digit ← followedByDigit text (co_end s + m_end m);
      gap ← gapRunes text (co_end s) (co_end s + m_start m);
      if negb digit && (gap <=? 3) then
        other ← bareStreetIsNonStreet text (co_end s + m_start m);
        Some (if other : bool then out else out ++ [shift (co_end s) kindStreetHouse m])
      else Some out) out (FindAll addrBareStreetHouseRe window)) [] comps.

(** *** Cities of the dictionary *)

Definition localityComponent (text : bytes) (start end_ : Z) (needCtx : bool) (t : Text) : option (list addrComponent) :=
  before ← (if 0 <? start then b ← go_index text (start - 1); Some (isLetterRune (byte_val b)) else Some false);
  if before : bool then Some [] else
  after ← (if end_ <? len text then b ← go_index text end_; Some (isLetterRune (byte_val b)) else Some false);
  if after : bool then Some [] else
  context ← (if needCtx then hasLeftContext t start addrContext 30 else Some true);
  Some (if context : bool then [MkComp start end_ kindLocality] else []).

(** [rest] is [lower[i:]]. *)
Definition matchCity (cd : citiesDict) (text : bytes) (t : Text) (i : Z) (rest : bytes) (includeCity needCtx : bool)
    (city : bytes) : option (list addrComponent) :=
  nominative ← (if includeCity && has_prefix rest city then localityComponent text i (i + len city) false t else Some []);
  fold_opt (λ comps form,
    if has_prefix rest form then found ← localityComponent text i (i + len form) needCtx t; Some (comps ++ found)
    else Some comps) nominative (default [] (cd_oblique cd !! city)).

(** The loop of [scanLocalities] over the runes of the lowercased text. *)
Fixpoint scan_runes (cd : citiesDict) (text : bytes) (t : Text) (includeCity needCtx : bool)
    (cs : list chunk) (i : Z) (comps : list addrComponent) : option (list addrComponent) :=
  match cs with
  | [] => Some comps
  | c :: cs' =>
      let rest := raw cs in
      comps ← fold_opt (λ comps city, found ← matchCity cd text t i rest includeCity needCtx city; Some (comps ++ found))
        comps (default [] (cd_byPrefix cd !! firstTwoRunes rest));
      scan_runes cd text t includeCity needCtx cs' (i + len (snd c)) comps
  end.

Definition scanLocalities (lower text : bytes) (cd : citiesDict) (includeCity needCtx : bool) (t : Text) :
    option (list addrComponent) :=
  scan_runes cd text t includeCity needCtx (chunks lower) 0 [].

Definition findDictLocalities (t : Text) (text : bytes) : option (list addrComponent) :=
  let lower := if LowerOK t then t_Lower t else lower_string text in
  nominative ← scanLocalities lower text cities_dict true false t;
  oblique ← scanLocalities lower text cities_dict false true t;
  Some (nominative ++ oblique ++ find_kind addrParenLocalityRe text kindLocality).

(** *** Streets without a marker, and labels *)

Definition findBareStreet (check : Z → Z → option bool) (t : Text) (spans : list (Z * Z)) : option (list addrComponent) :=
  fold_opt (λ comps '(start, end_),
    ok ← check start end_;
    if negb ok then Some comps else
    context ← hasLeftContext t start addrContext 30;
    Some (if context : bool then comps ++ [MkComp start end_ kindStreetHouse] else comps)) [] spans.

Definition bareStreetAdjectiveOK (lower : bytes) (start end_ : Z) : option bool :=
  word ← nextWord lower start;
  if mem word bareStreetStopWords || negb (hasAdjectiveSuffix word) then Some false else
  number ← lastDigitRun lower start end_;
  if number <? 0 then Some false else
  after ← skip_while (λ b, bool_decide (b = " "%byte)) (Z.to_nat (end_ - (number + 1))) lower (number + 1);
  colon ← (if after <? len lower then b ← go_index lower after; Some (bool_decide (b = ":"%byte)) else Some false);
  if colon : bool then Some false else
  if after <? end_ then w ← nextWord lower after; Some (negb (mem w bareStreetDurationWords)) else Some true.

Definition bareStreetContextMatchOK (text lower : bytes) (start end_ : Z) : option bool :=
  digit ← followedByDigit text end_;
  if digit : bool then Some false else
  other ← bareStreetIsNonStreet text start;
  if other : bool then Some false else bareStreetAdjectiveOK lower start end_.

Definition bare_lower_search (t : Text) (text : bytes) : bytes := if LowerOK t then t_Lower t else text.

(** The matches whose group did not take part are skipped. *)
Definition findBareStreetContextLower (t : Text) (text : bytes) : option (list addrComponent) :=
  let search := bare_lower_search t text in
  findBareStreet (bareStreetContextMatchOK text search) t
    (omap (λ m, group 1 (m_caps m)) (FindAll addrBareStreetCtxLowerRe search)).

Definition findBareStreetContext (t : Text) (text : bytes) : option (list addrComponent) :=
  upper ← findBareStreet (λ _ end_, digit ← followedByDigit text end_; Some (negb digit)) t
    (map (λ m, (m_start m, m_end m)) (FindAll addrBareStreetCtxRe text));
  lower ← findBareStreetContextLower t text;
  Some (upper ++ lower).

(** Where the value of a label ends at the latest. *)
Definition label_end (text : bytes) (start : Z) (rest : list found) : option Z :=
  match rest with
  | next :: _ => Some (m_start next)
  | [] =>
      line ← go_slice text start (len text);
      let nl := str_index line ["010"%byte] in
      Some (if 0 <=? nl then start + nl else len text)
  end.

Fixpoint labeled_values (text : bytes) (labels : list found) : option (list addrComponent) :=
  match labels with
  | [] => Some []
  | m :: rest =>
      end_ ← label_end text (m_end m) rest;
      '(start, end_) ← trimLabeledValue text (m_end m) end_;
      values ← labeled_values text rest;
      Some (if start <? end_ then MkComp start end_ kindLabeled :: values else values)
  end.

Definition findLabeledComponents (text : bytes) : option (list addrComponent) :=
  labeled_values text (FindAll addrLabeledRe text).

(** ** All components *)

Record searchRes := MkRes {
  countryRe : re; regionRe : re; districtRe : re; localityRe : re; houseRe : re;
  aptRe : re; aptWordRe : re; poBoxRe : re; strRe : re }.

Definition rawRes : searchRes :=
  MkRes addrCountryRe addrRegionRe addrDistrictRe addrLocalityRe addrHouseRe addrAptRe addrAptWordRe addrPOBoxRe addrStrRe.

Definition lowerRes : searchRes :=
  MkRes addrCountryLowerRe addrRegionLowerRe addrDistrictLowerRe addrLocalityLowerRe addrHouseLowerRe addrAptLowerRe
    addrAptWordLowerRe addrPOBoxLowerRe addrStrLowerRe.

(** What is found before the street markers are trimmed. *)
Definition first_components (res : searchRes) (search text : bytes) : option (list addrComponent) :=
  localities ← findLocalities search text (localityRe res);
  streets ← findStreets text;
  Some (find_kind addrIndexRe search "index" ++ find_kind (countryRe res) search "country" ++
        find_kind (regionRe res) search "region" ++ find_kind (districtRe res) search "district" ++
        localities ++ streets).

Definition house_components (res : searchRes) (search : bytes) : list addrComponent :=
  find_kind (houseRe res) search kindHouse ++ find_kind (strRe res) search kindHouse ++
  find_kind (aptRe res) search "apartment" ++ find_kind (aptWordRe res) search "apartment" ++
  find_kind (poBoxRe res) search "po_box".

Definition findComponents (t : Text) : option (list addrComponent) :=
  let text := t_Raw t in
  let '(search, res) := if LowerOK t then (t_Lower t, lowerRes) else (text, rawRes) in
  comps ← first_components res search text;
  comps ← trimStreetMarkers text comps;
  let comps := comps ++ house_components res search in
  houses ← bareHousesAfterStreet text comps;
  let comps := comps ++ houses in
  cities ← findDictLocalities t text;
  let comps := comps ++ cities in
  streets ← bareStreetsAfterLocality text comps;
  let comps := comps ++ streets in
  bare ← findBareStreetContext t text;
  labeled ← findLabeledComponents text;
  Some (comps ++ bare ++ labeled).

(** ** Groups *)

Definition addrComponentLess (a b : addrComponent) : bool :=
  if negb (co_start a =? co_start b) then co_start a <? co_start b
  else if negb (co_end a =? co_end b) then co_end b <? co_end a
  else eq_bytes (co_kind a) kindLabeled && negb (eq_bytes (co_kind b) kindLabeled).

(** The loop that drops overlapping components; [kept_end] is the end of the last one kept. *)
Fixpoint drop_overlaps (kept_end : option Z) (comps : list addrComponent) : list addrComponent :=
  match comps with
  | [] => []
  | c :: comps =>
      if match kept_end with Some e => co_start c <? e | None => false end then drop_overlaps kept_end comps
      else c :: drop_overlaps (Some (co_end c)) comps
  end.

(** The loop of [crossesSentenceBoundary]; [after] is computed from [from] in every
    round, however much of the gap is cut off. *)
Fixpoint crosses_loop (fuel : nat) (text : bytes) (from : Z) (search : bytes) : option bool :=
  match fuel with
  | O => None
  | S fuel =>
      let i := str_index search ". " in
      if i <? 0 then Some false else
      let after := from + i + 2 in
      capital ← (if after <? len text then r ← decodedRune text after; Some (isUpperRune r) else Some false);
      if capital : bool then Some true else
      rest ← go_slice search (i + 2) (len search); crosses_loop fuel text from rest
  end.

Definition crossesSentenceBoundary (text : bytes) (from to : Z) : option bool :=
  seg ← go_slice text from to;
  if existsb (λ b, bool_decide (b ∈ ["!"; "?"; "010"]%byte)) seg then Some true
  else crosses_loop (S (length seg)) text from seg.

Definition joins (text : bytes) (a b : addrComponent) : option bool :=
  gap ← gapRunes text (co_end a) (co_start b);
  if negb (gap <=? 3) then Some false else
  crosses ← crossesSentenceBoundary text (co_end a) (co_start b); Some (negb crosses).

(** The rest of the group of [c], and what comes after it. *)
Fixpoint groupEnd (text : bytes) (c : addrComponent) (rest : list addrComponent) :
    option (list addrComponent * list addrComponent) :=
  match rest with
  | [] => Some ([], [])
  | d :: rest' =>
      joined ← joins text c d;
      if joined : bool then '(group, beyond) ← groupEnd text d rest'; Some (d :: group, beyond) else Some ([], rest)
  end.

Record groupFlags := MkFlags { fl_street : bool; fl_house : bool; fl_locality : bool; fl_other : bool; fl_labeled : bool }.

Definition classify (f : groupFlags) (c : addrComponent) : groupFlags :=
  let k := co_kind c in
  if eq_bytes k kindStreet then MkFlags true (fl_house f) (fl_locality f) (fl_other f) (fl_labeled f)
  else if eq_bytes k kindHouse then MkFlags (fl_street f) true (fl_locality f) (fl_other f) (fl_labeled f)
  else if eq_bytes k kindStreetHouse then MkFlags true true (fl_locality f) (fl_other f) (fl_labeled f)
  else if eq_bytes k kindLocality then MkFlags (fl_street f) (fl_house f) true (fl_other f) (fl_labeled f)
  else if eq_bytes k kindLabeled then MkFlags (fl_street f) (fl_house f) (fl_locality f) (fl_other f) true
  else MkFlags (fl_street f) (fl_house f) (fl_locality f) true (fl_labeled f).

Definition classifyGroup (group : list addrComponent) : groupFlags :=
  foldl classify (MkFlags false false false false false) group.

Definition hasException (t : Text) (pos : Z) (clauseBound : bool) : option bool :=
  prefix ← runeWindowBefore t pos addrExceptionWindow;
  let prefix := if clauseBound then lastClause prefix else prefix in
  orgIdx ← lastExceptionIndex prefix;
  if orgIdx <? 0 then Some false else
  markerIdx ← lastMarkerIndex prefix;
  Some (markerIdx <? orgIdx).

Definition validGroup (t : Text) (group : list addrComponent) : option bool :=
  let flags := classifyGroup group in
  first ← head group;
  let start := co_start first in
  if (length group =? 1)%nat && fl_labeled flags then e ← hasException t start false; Some (negb e)
  else if fl_street flags && fl_house flags then e ← hasException t start true; Some (negb e)
  else if fl_locality flags && (fl_other flags || fl_street flags || fl_house flags) then
    e ← hasException t start true; Some (negb e)
  else
    context ← hasLeftContext t start addrContext 30;
    if context : bool then e ← hasException t start true; Some (negb e) else Some false.

Definition address_name : bytes := "address".

Definition group_span (first last : addrComponent) : Span :=
  MkSpan (co_start first) (co_end last) CatAddress address_name (f64_lit 9 10).

(** The loop of [DetectLower] over the groups. *)
Fixpoint address_groups (fuel : nat) (t : Text) (kept : list addrComponent) : option (list Span) :=
  match kept with
  | [] => Some []
  | c :: rest =>
      match fuel with
      | O => None
      | S fuel =>
          '(group, rest) ← groupEnd (t_Raw t) c rest;
          valid ← validGroup t (c :: group);
          spans ← address_groups fuel t rest;
          Some (if valid : bool then group_span c (List.last group c) :: spans else spans)
      end
  end.

Definition address_DetectLower (t : Text) : option (list Span) :=
  comps ← findComponents t;
  let kept := drop_overlaps None (sort_slice addrComponentLess comps) in
  address_groups (length kept) t kept.

Definition address_Detect (text : bytes) : option (list Span) := address_DetectLower (text_of text).

Definition NewAddressDetector : Detector :=
  MkDetector address_name [CatAddress] address_Detect (Some address_DetectLower).
End Address.

Definition addresses (text : bytes) : option (list bytes) :=
  spans ← address_Detect text; Some (map (λ s, slice text (sp_Start s) (sp_End s)) spans).

Example address_examples :
  addresses "Проживаю: г. Казань, ул. Баумана, д. 5, кв. 12" = Some [go_bytes "г. Казань, ул. Баумана, д. 5, кв. 12"] ∧
  addresses "Адрес отделения банка: ул. Баумана, д. 5" = Some [] ∧
  addresses "снимаю на тверской 5, квартира 8" = Some [go_bytes "тверской 5, квартира 8"] ∧
  addresses "Страна: Россия, Город: Москва" = Some [go_bytes "Россия"; go_bytes "Москва"] ∧
  addresses "ул можайское шоссе д 112" = Some [go_bytes "ул можайское шоссе д 112"].
Proof. vm_compute. split_and!; reflexivity. Qed.

(** A street whose name is a house marker on a line of its own is trimmed to nothing. *)
Example address_empty :
  addresses ("Адрес: улица" ++ go_bytes "
Дом 5") = Some [[]; go_bytes "Дом 5"].
Proof. by vm_compute. Qed.

(** The tests of the byte before and the byte after a city see no Russian letter. *)
Example address_inside_word : addresses "Туфан, Россия" = Some [go_bytes "уфан, Россия"].
Proof. by vm_compute. Qed.

(** An oblique form is taken without a context as well. *)
Example address_oblique : addresses "был в Казани, Россия" = Some [go_bytes "Казани, Россия"].
Proof. by vm_compute. Qed.

(** Offsets of a longer lowercased text. *)
Definition long_lower : bytes := encode_runes (replicate 13 0x23A) ++ "москва".

Example address_panic : @address_Detect shifting_unicode _ long_lower = None.
Proof. by vm_compute. Qed.
