(* ===== verification/AddressSound.v ===== *)
(** * Package [detectors]: where addresses lie

    The address detector ([Address]) does not panic when the lowercased text is no
    longer than the text; its spans lie in the text, one after the other; and none is
    empty unless a marker of houses follows white space other than a blank. *)

From S2P Require Import Prelude GoText Float64 Pii Keywords Mask Regexp RegexpSyntax.
From S2P Require Import Dict TextUtil Labels RulesSound NameDict Issuer Cities Address.

(** ** Texts without a broken street *)

Section Broken.
Context `{Unicode}.

(** White space other than the blank [trimStreetMarker] looks for - a line break, a tab, a
    no-break space, ... - directly before a letter that a house marker starts with. *)
Definition break_before (x y : Z) : bool :=
  is_space x && negb (x =? 0x20) && bool_decide (to_lower y ∈ [0x434; 0x43A; 0x441]) (* д к с *).

Fixpoint broken (rs : list Z) : bool :=
  match rs with
  | x :: (y :: _) as rest => break_before x y || broken rest
  | _ => false
  end.

(** No marker can be trimmed back over white space that is not a blank. *)
Definition unbroken (text : bytes) : bool := negb (broken (runes text)).

Lemma broken_app l x y k : break_before x y = true → broken (l ++ x :: y :: k) = true.
Proof.
  intros Hb. induction l as [|z l IH]; cbn [app broken]; [by rewrite Hb|].
  destruct (l ++ x :: y :: k) as [|w m] eqn:E; [by destruct l|]. rewrite IH. by rewrite orb_true_r.
Qed.

Lemma broken_infix u v w : broken v = true → broken (u ++ v ++ w) = true.
Proof.
  intros Hv. assert (broken (v ++ w) = true) as Hw.
  { revert Hv. induction v as [|x v IH]; [done|]. cbn [app broken]. destruct v as [|y v]; [done|]. cbn [app].
    rewrite !orb_true_iff. intros [?|?]; [by left|right; by apply IH]. }
  induction u as [|x u IH]; cbn [app]; [done|]. cbn [broken]. destruct (u ++ v ++ w); [done|]. by rewrite IH, orb_true_r.
Qed.
End Broken.

(** ** Scans *)

Lemma returns_index s i : 0 <= i < len s → returns (go_index s i) (λ b, go_index s i = Some b).
Proof. intros Hi. destruct (go_index_some s i Hi) as [b Hb]. exists b. by rewrite Hb. Qed.

Lemma returns_runeBefore s i : 0 <= i <= len s → returns (runeBefore s i) (λ _, True).
Proof. intros Hi. by apply returns_any, runeBefore_total. Qed.

Lemma returns_decodedRune s i : 0 <= i <= len s → returns (decodedRune s i) (λ _, True).
Proof. intros Hi. by apply returns_any, decodedRune_total. Qed.

Lemma returns_nextWord s i : 0 <= i <= len s → returns (nextWord s i) (λ _, True).
Proof. intros Hi. by apply returns_any, nextWord_total. Qed.

Lemma returns_offsetAfter s i n : 0 <= i <= len s → returns (runeOffsetAfter s i n) (λ e, i <= e <= len s).
Proof. intros Hi. destruct (runeOffsetAfter_spec s i n Hi) as (e & -> & ?). by apply returns_ret. Qed.

#[export] Hint Resolve returns_index returns_runeBefore returns_decodedRune returns_nextWord returns_offsetAfter : returns.
#[export] Hint Extern 4 (_ <= _ < _) => lia : returns.

Lemma gap_loop_total more text i b : 0 <= i → b <= len text → returns (gap_loop more text i b) (λ _, True).
Proof.
  revert i. induction more as [|more IH]; intros i ? ?; cbn [gap_loop]; [by apply returns_ret|].
  destruct (i <? b) eqn:E; [|by apply returns_ret]. ret_step. subst x.
  eapply returns_bind; [apply IH; lia|]. intros n _. by apply returns_ret.
Qed.

Lemma returns_gapRunes text a b : 0 <= a → b <= len text → returns (gapRunes text a b) (λ _, True).
Proof. intros ? ?. unfold gapRunes. case_match; [by apply returns_ret|by apply gap_loop_total]. Qed.

Lemma returns_followedByDigit text i : 0 <= i → returns (followedByDigit text i) (λ _, True).
Proof. intros ?. unfold followedByDigit. case_match; [by apply returns_ret|]. ret_step. by apply returns_ret. Qed.

Lemma skip_while_spec p n s i :
  0 <= i → i + Z.of_nat n <= len s → returns (skip_while p n s i) (λ j, i <= j <= i + Z.of_nat n).
Proof.
  revert i. induction n as [|n IH]; intros i ? ?; cbn [skip_while]; [apply returns_ret; lia|].
  ret_step. destruct (p x); [|apply returns_ret; lia]. eapply returns_mono; [apply IH; lia|]. cbv beta. lia.
Qed.

(** A scan back stops at the start only when the test holds of every byte. *)
Lemma back_while_spec p n s e :
  0 <= e - Z.of_nat n → e <= len s →
  returns (back_while p n s e) (λ j, e - Z.of_nat n <= j <= e ∧
    (j = e - Z.of_nat n → Forall (λ b, p b = true) (slice s j e))).
Proof.
  revert e. induction n as [|n IH]; intros e ? ?; cbn [back_while].
  { apply returns_ret. split; [lia|]. intros _. by rewrite slice_empty. }
  ret_step. destruct (p x) eqn:Ep; [|apply returns_ret; split; lia].
  eapply returns_mono; [apply IH; lia|]. cbv beta. intros j [Hj Hall]. split; [lia|]. intros ->.
  rewrite (slice_split s _ (e - 1) e) by lia. apply Forall_app. split; [apply Hall; lia|].
  unfold go_index in *. destruct (0 <=? e - 1) eqn:E; [|lia].
  unfold slice. replace (Z.to_nat (e - (e - 1))) with 1%nat by lia.
  erewrite drop_S by eassumption. cbn [take]. by repeat constructor.
Qed.

Lemma lastDigitRun_spec s a b :
  0 <= a → b <= len s → returns (lastDigitRun s a b) (λ n, n = -1 ∨ a <= n < b).
Proof.
  intros ? ?. unfold lastDigitRun.
  assert (∀ n i pos, a <= i → i + Z.of_nat n <= Z.max i b → pos = -1 ∨ a <= pos < i → i <= b ∨ n = O →
    returns (last_digit n s i pos) (λ m, m = -1 ∨ a <= m < b ∨ m = pos)) as Hd.
  { induction n as [|n IH]; intros i pos ? ? ? ?; cbn [last_digit]; [apply returns_ret; lia|].
    ret_step. eapply returns_mono; [apply IH; try lia|cbv beta; case_match; lia]. case_match; lia. }
  destruct (decide (a <= b)).
  - eapply returns_mono; [apply Hd; lia|]. cbv beta. lia.
  - replace (Z.to_nat (b - a)) with O by lia. apply returns_ret. by left.
Qed.

Lemma sentence_period_spec n text i e :
  0 <= i → i + Z.of_nat n <= e → e <= len text →
  returns (sentence_period n text i e) (λ p, p = -1 ∨ i <= p < e).
Proof.
  revert i. induction n as [|n IH]; intros i ? ? ?; cbn [sentence_period]; [apply returns_ret; by left|].
  ret_step. assert (returns (sentence_period n text (i + 1) e) (λ p, p = -1 ∨ i <= p < e)) as Hrest.
  { eapply returns_mono; [apply IH; lia|]. cbv beta. lia. }
  case_match; [done|]. eapply (returns_bind _ _ (λ _, True)).
  { destruct (i + 1 <? len text) eqn:E; [|by apply returns_ret]. ret_step. case_match; [|by apply returns_ret].
    ret_step. by apply returns_ret. }
  intros stops _. destruct stops; [apply returns_ret; lia|done].
Qed.

Lemma sentenceEndPeriod_spec text a b :
  0 <= a → a <= b → b <= len text → returns (sentenceEndPeriod text a b) (λ p, p = -1 ∨ a <= p < b).
Proof. intros ? ? ?. apply sentence_period_spec; lia. Qed.

Lemma drop_period_spec text a b :
  0 <= a → b <= len text → returns (drop_period text a b) (λ e, Z.min a b <= e <= b).
Proof.
  intros ? ?. unfold drop_period. destruct (b <=? a) eqn:E; [apply returns_ret; lia|]. ret_step.
  case_match eqn:E2; [|apply returns_ret; lia]. ret_step. apply returns_ret. case_match; lia.
Qed.

Lemma trimLabeledValue_spec text a b :
  0 <= a → a <= b → b <= len text →
  returns (trimLabeledValue text a b) (λ '(x, y), a <= x ∧ x <= y ∧ y <= b).
Proof.
  intros ? ? ?. unfold trimLabeledValue. eapply returns_bind; [by apply sentenceEndPeriod_spec|]. intros p Hp. cbv beta in Hp.
  set (e := if 0 <=? p then p else b). assert (a <= e <= b) as He by (unfold e; cbv beta in Hp; destruct (0 <=? p) eqn:?; lia).
  eapply returns_bind; [apply skip_while_spec; lia|]. intros x Hx. cbv beta in Hx.
  eapply returns_bind; [apply back_while_spec; lia|]. intros y [Hy _].
  eapply returns_bind; [apply (drop_period_spec _ x); lia|]. intros z Hz. cbv beta in Hz. apply returns_ret. lia.
Qed.

(** ** The last occurrence of a word *)

Section Occurrences.
Context (s kw : bytes) (stands : Z → option bool) (ok : Z → Prop).
Context (Hkw : kw ≠ []).
Context (Hstands : ∀ i, occurs_at s kw i → ∃ b, stands i = Some b ∧ (b = true ↔ ok i)).

(** The greatest place from [idx] on where the word stands, or [best]. *)
Lemma last_occurrence_spec fuel idx best :
  0 <= idx <= len s → best < idx → len s - idx < Z.of_nat fuel →
  returns (last_occurrence stands fuel s kw idx best) (λ i,
    (i = best ∨ occurs_at s kw i ∧ ok i) ∧ best <= i ∧ ∀ j, idx <= j → occurs_at s kw j → ok j → j <= i).
Proof.
  revert idx best. induction fuel as [|fuel IH]; intros idx best ? ? ?; [lia|]. cbn [last_occurrence].
  ret_step. subst x. pose proof (len_pos kw Hkw).
  set (rest := slice s idx (len s)).
  assert (∀ j, idx <= j → occurs_at s kw j ↔ occurs_at rest kw (j - idx)) as Hrest.
  { intros j Hj. unfold occurs_at, rest. rewrite len_slice by lia.
    replace (drop (Z.to_nat (j - idx)) (slice s idx (len s))) with (drop (Z.to_nat j) s); [split; intros [? ?]; split; (done || lia)|].
    unfold slice. rewrite take_ge by (rewrite length_drop; unfold len; lia). rewrite drop_drop. f_equal. lia. }
  unfold str_index. pose proof (index_opt_spec rest kw) as Hi. destruct (index_opt rest kw) as [pos|].
  - change (default (-1) (Some pos)) with pos. destruct Hi as [Hi Hmin]. pose proof (proj1 Hi).
    replace (pos <? 0) with false by lia.
    assert (occurs_at s kw (idx + pos)) as Hocc by (apply Hrest; [lia|]; by replace (idx + pos - idx) with pos by lia).
    cbv zeta. destruct (Hstands _ Hocc) as (b & -> & Hb). cbn [mbind option_bind].
    pose proof (occurs_at_slice _ _ _ Hocc) as [Hle _].
    set (best' := if b then idx + pos else best). assert (best' = idx + pos ∧ ok (idx + pos) ∨ best' = best ∧ ¬ ok (idx + pos)) as Hbest.
    { unfold best'. destruct b; [left|right]; (split; [done|]); [tauto|]. intros Hc. by apply Hb in Hc. }
    eapply returns_mono; [apply IH; lia|]. cbv beta. intros i (Hor & Hge & Hmax). split_and!.
    + destruct Hor as [->|?]; [|by right]. destruct Hbest as [[-> ?]|[-> _]]; [by right|by left].
    + lia.
    + intros j Hj Hoj Hokj. destruct (decide (j < idx + pos)) as [Hlt|].
      { specialize (Hmin (j - idx)). rewrite <- Hrest in Hmin by lia. specialize (Hmin Hoj). lia. }
      destruct (decide (j = idx + pos)) as [->|]; [destruct Hbest as [[-> _]|[_ Hn]]; [lia|done]|]. apply Hmax; (done || lia).
  - change (default (-1) None) with (-1). replace (-1 <? 0) with true by lia. apply returns_ret.
    split_and!; [by left|lia|]. intros j Hj Hoj. apply Hrest in Hoj; [|done]. by apply Hi in Hoj.
Qed.
End Occurrences.

Lemma word_left_total s i : 0 <= i <= len s → is_Some (word_left s i).
Proof. intros Hi. unfold word_left. case_match; [done|]. destruct (runeBefore_total s i Hi) as [r ->]. done. Qed.

Lemma whole_word_total s kw i : occurs_at s kw i → is_Some (whole_word s kw i).
Proof.
  intros Ho. pose proof (occurs_at_slice _ _ _ Ho) as [Hle _]. pose proof (proj1 Ho). pose proof (len_nonneg kw).
  unfold whole_word. destruct (word_left_total s i) as [l ->]; [lia|]. cbn [mbind option_bind]. unfold word_right.
  case_match; [done|]. destruct (decodedRune_total s (i + len kw)) as [r ->]; [lia|]. done.
Qed.

(** A word with the given beginning, and a whole word, at [i]. *)
Definition stem_at (s stem : bytes) (i : Z) : Prop := occurs_at s stem i ∧ word_left s i = Some true.
Definition word_at (s kw : bytes) (i : Z) : Prop := occurs_at s kw i ∧ whole_word s kw i = Some true.

(** The greatest of the places [P], or -1. *)
Definition last_of (P : Z → Prop) (i : Z) : Prop := (i = -1 ∨ P i) ∧ -1 <= i ∧ ∀ j, P j → j <= i.

Lemma last_occurrence_of s kw stands :
  kw ≠ [] → (∀ i, occurs_at s kw i → is_Some (stands i)) →
  returns (last_occurrence stands (S (length s)) s kw 0 (-1)) (last_of (λ i, occurs_at s kw i ∧ stands i = Some true)).
Proof.
  intros Hkw Hst. pose proof (len_nonneg s).
  eapply returns_mono; [apply (last_occurrence_spec s kw stands (λ i, stands i = Some true) Hkw); unfold len in *; try lia|].
  - intros i Hi. destruct (Hst i Hi) as [b Hb]. exists b. rewrite Hb. split; [done|]. split; [by intros ->|by intros [= ->]].
  - cbv beta. intros i (Hor & Hge & Hmax). split_and!; [done|lia|]. intros j [Hj Hs]. apply Hmax; [|done..]. destruct Hj; lia.
Qed.

Lemma lastStemIndex_spec s stem : stem ≠ [] → returns (lastStemIndex s stem) (last_of (stem_at s stem)).
Proof.
  intros Hs. apply last_occurrence_of; [done|]. intros i Hi. apply word_left_total.
  pose proof (occurs_at_slice _ _ _ Hi) as [Hle _]. pose proof (proj1 Hi). pose proof (len_nonneg stem). lia.
Qed.

Lemma lastWordIndex_spec s kw : kw ≠ [] → returns (lastWordIndex s kw) (last_of (word_at s kw)).
Proof. intros Hs. apply last_occurrence_of; [done|]. intros i. apply whole_word_total. Qed.

(** The rightmost over a list of words. *)
Lemma rightmost_spec (f : bytes → option Z) (at_word : bytes → Z → Prop) kws (P : Z → Prop) best :
  (∀ kw, kw ∈ kws → returns (f kw) (last_of (at_word kw))) → last_of P best →
  returns (fold_opt (rightmost f) best kws) (last_of (λ i, P i ∨ ∃ kw, kw ∈ kws ∧ at_word kw i)).
Proof.
  revert P best. induction kws as [|kw kws IH]; intros P best Hf (Hor & Hge & Hmax); cbn [fold_opt].
  - apply returns_ret. split_and!; [tauto|done|]. intros j [Hj|(kw & Hin & _)]; [by apply Hmax|]. by apply elem_of_nil in Hin.
  - change (rightmost f best kw) with (idx ← f kw; Some (Z.max best idx)). destruct (Hf kw) as (i & -> & Hor' & Hge' & Hmax'); [left|]. cbn [mbind option_bind].
    eapply returns_mono; [apply (IH (λ i, P i ∨ at_word kw i)); [intros w Hw; apply Hf; by right|]|].
    + split_and!; [|lia|intros j [Hj|Hj]; [apply Hmax in Hj|apply Hmax' in Hj]; lia].
      destruct (Z.max_spec best i) as [[_ ->]|[_ ->]]; tauto.
    + cbv beta. intros m (Horm & Hgem & Hmaxm). split_and!; [|done|].
      * destruct Horm as [->|[[Hp|Hw]|(w & Hin & Hw)]]; [by left|by right; left|right; right..].
        -- exists kw. split; [left|done].
        -- exists w. split; [by right|done].
      * intros j [Hj|(w & [->|Hw]%elem_of_cons & Hj)]; apply Hmaxm; [tauto|tauto|]. right. by exists w.
Qed.

(** Where an organisation, and where a person, is named. *)
Definition exception_at (w : bytes) (i : Z) : Prop :=
  (∃ stem, stem ∈ addrExceptionStems ∧ stem_at w stem i) ∨ ∃ kw, kw ∈ addrExceptionPhrases ∧ word_at w kw i.

Definition marker_at (w : bytes) (i : Z) : Prop := ∃ kw, kw ∈ addrPersonalMarkers ∧ word_at w kw i.

Lemma lastExceptionIndex_spec w : returns (lastExceptionIndex w) (last_of (exception_at w)).
Proof.
  unfold lastExceptionIndex. eapply returns_bind.
  - apply (rightmost_spec _ (stem_at w) _ (λ _, False)); [|split_and!; [by left|lia|done]].
    intros stem Hin. apply lastStemIndex_spec. intros ->. revert Hin. apply (bool_decide_unpack _). vm_compute. exact I.
  - intros best Hbest. eapply returns_mono; [eapply (rightmost_spec (lastWordIndex w) (word_at w)); [|exact Hbest]|].
    + intros kw Hin. apply lastWordIndex_spec. intros ->. revert Hin. apply (bool_decide_unpack _). vm_compute. exact I.
    + cbv beta. unfold last_of, exception_at. intros i (Hor & Hge & Hmax). split_and!; [tauto|done|]. intros j Hj. apply Hmax. tauto.
Qed.

Lemma lastMarkerIndex_spec w : returns (lastMarkerIndex w) (last_of (marker_at w)).
Proof.
  unfold lastMarkerIndex.
  eapply returns_mono; [apply (rightmost_spec _ (word_at w) _ (λ _, False)); [|split_and!; [by left|lia|done]]|].
  - intros kw Hin. apply lastWordIndex_spec. intros ->. revert Hin. apply (bool_decide_unpack _). vm_compute. exact I.
  - cbv beta. unfold last_of, marker_at. intros i (Hor & Hge & Hmax). split_and!; [tauto|done|]. intros j Hj. apply Hmax. tauto.
Qed.

(** The stretch of text before [pos] that may name an organisation. *)
Definition exception_window `{Unicode} (t : Text) (pos : Z) (clauseBound : bool) : option bytes :=
  prefix ← runeWindowBefore t pos addrExceptionWindow; Some (if clauseBound then lastClause prefix else prefix).

Lemma hasException_spec `{Unicode} t pos clauseBound w :
  exception_window t pos clauseBound = Some w →
  returns (hasException t pos clauseBound) (λ b,
    b = true ↔ ∃ i, exception_at w i ∧ ∀ j, marker_at w j → j < i).
Proof.
  unfold exception_window, hasException. destruct (runeWindowBefore _ _ _) as [prefix|]; [|done].
  cbn [mbind option_bind]. intros [= ->].
  eapply returns_bind; [apply lastExceptionIndex_spec|]. intros org (Hor & Hge & Hmax). cbv beta in *.
  destruct (org <? 0) eqn:E.
  { apply returns_ret. split; [done|]. intros (i & Hi & _). specialize (Hmax _ Hi).
    assert (0 <= i) by (destruct Hi as [(? & _ & [[? _] _])|(? & _ & [[? _] _])]; lia). lia. }
  destruct Hor as [->|Horg]; [done|].
  eapply returns_bind; [apply lastMarkerIndex_spec|]. intros m (Horm & Hgem & Hmaxm). apply returns_ret.
  rewrite Z.ltb_lt. split.
  - intros Hlt. exists org. split; [done|]. intros j Hj. specialize (Hmaxm _ Hj). lia.
  - intros (i & Hi & Hj). specialize (Hmax _ Hi). destruct Horm as [->|Hm]; [lia|]. specialize (Hj _ Hm). lia.
Qed.

(** ** Trimming a street *)

Lemma last_satisfying {A : Type} (p : A → bool) v :
  (∃ c, c ∈ v ∧ p c = true) → ∃ u x z, v = u ++ x :: z ∧ p x = true ∧ Forall (λ c, p c = false) z.
Proof.
  induction v as [|y v IH]; [by intros (c & []%elem_of_nil & _)|]. intros (c & Hc & Hp).
  destruct (existsb p v) eqn:E.
  - apply existsb_exists in E as (d & Hd%list_elem_of_In & Hpd). destruct IH as (u & x & z & -> & ? & ?); [by exists d|].
    by exists (y :: u), x, z.
  - assert (Forall (λ c, p c = false) v) as Hv.
    { apply Forall_forall. intros d Hd. destruct (p d) eqn:Ed; [|done]. exfalso.
      assert (existsb p v = true) as Ht by (apply existsb_exists; exists d; split; [by apply list_elem_of_In|done]). congruence. }
    exists [], y, v. split; [done|]. split; [|done]. apply elem_of_cons in Hc as [->|Hc]; [done|].
    rewrite Forall_forall in Hv. by rewrite (Hv c Hc) in Hp.
Qed.

Lemma chunk_words_split p u x z cur :
  p (fst x) = false → ∃ l, chunk_words p (u ++ x :: z) cur = l ++ chunk_words p z [].
Proof.
  intros Hx. revert cur. induction u as [|[r b] u IH]; intros cur; cbn [app chunk_words].
  - destruct x as [r b]. cbn [fst] in Hx. rewrite Hx. case_decide; [by exists []|by exists [cur]].
  - destruct (p r); [apply IH|]. case_decide; [apply IH|]. destruct (IH []) as [l ->]. by exists (cur :: l).
Qed.

Lemma chunk_words_all p z cur :
  Forall (λ c, p (fst c) = true) z → cur ++ raw z ≠ [] → chunk_words p z cur = [cur ++ raw z].
Proof.
  intros Hz. revert cur. induction Hz as [|[r b] z Hr _ IH]; intros cur Hne; cbn [chunk_words].
  - change (raw []) with (@nil byte) in *. rewrite app_nil_r in *. by rewrite decide_False.
  - cbn [fst] in Hr. rewrite Hr. change (raw ((r, b) :: z)) with (b ++ raw z) in *. rewrite app_assoc in *. by apply IH.
Qed.

Lemma fields_last s u x z :
  chunks s = u ++ x :: z → is_space (fst x) = true → Forall (λ c, is_space (fst c) = false) z → raw z ≠ [] →
  last (fields s) = Some (raw z).
Proof.
  intros Hs Hx Hz Hne. unfold fields, fields_func. rewrite Hs.
  destruct (chunk_words_split (λ r, negb (is_space r)) u x z []) as [l ->]; [by rewrite Hx|].
  rewrite chunk_words_all; [by rewrite last_snoc| |done].
  eapply Forall_impl; [exact Hz|]. cbv beta. by intros c ->.
Qed.

Lemma trim_right_split cutset s : ∃ w, s = trim_right cutset s ++ w ∧ Forall (.∈ cutset) w.
Proof.
  induction s as [|b s (w & Hs & Hw)]; cbn [trim_right]; [by exists []|].
  destruct (trim_right cutset s) as [|c t].
  - cbn [app] in Hs. subst w. case_bool_decide; [exists (b :: s)|exists s]; (split; [done|]); [by constructor|done].
  - exists w. split; [cbn [app]; by rewrite Hs at 1|done].
Qed.

(** Decoding does not look past an ASCII byte. *)
Lemma decode_before_ascii t b s :
  t ≠ [] → byte_val b < 0x80 → fst (decode_rune (t ++ b :: s)) = fst (decode_rune t).
Proof.
  intros Ht Hb. assert (is_cont b = false) as Hc by (unfold is_cont, in_rng; lia).
  assert (∀ p, second_ok p b = false) as Hs by (intros p; unfold second_ok, is_cont, in_rng; repeat case_match; lia).
  unfold decode_rune. destruct t as [|b0 [|b1 [|b2 [|b3 t]]]]; [done|..]; cbn [app];
    repeat (rewrite ?Hc, ?Hs, ?andb_false_r; cbn [andb fst]; try reflexivity; case_match); congruence.
Qed.

(** The first rune of a text, in lower case, is the first of its lower case. *)
Lemma lower_first `{Unicode} s m :
  s ≠ [] → lower_string s = m → to_lower (fst (decode_rune s)) = fst (decode_rune m).
Proof.
  intros Hs <-. unfold lower_string, map_runes, runes. rewrite chunks_cons by done. cbn [map].
  change (encode_runes (?r :: ?rs)) with (encode_rune r ++ encode_runes rs). rewrite decode_encode; [done|].
  apply to_lower_valid. pose proof (runes_valid s) as Hv. unfold runes in Hv. rewrite chunks_cons in Hv by done.
  by apply Forall_inv in Hv.
Qed.

Section Streets.
Context `{Unicode}.

Definition blank_ranges : list (Z * Z) := [(9, 13); (0x20, 0x20)].

(** A street is white space and letters, in this order at its end. *)
Definition street_match (text : bytes) (a b : Z) : Prop :=
  ∃ v, at_runes text a b v ∧ touches blank_ranges v ∧ solid v.

Lemma trimmed_marker w : mem (lower_string (trim_right ["."%byte] w)) trim_markers = true → w ≠ [] →
  to_lower (fst (decode_rune w)) ∈ [0x434; 0x43A; 0x441].
Proof.
  intros Hm Hw. destruct (trim_right_split ["."%byte] w) as (dots & Hsplit & Hdots).
  assert (trim_right ["."%byte] w ≠ []) as Hne by (intros E; rewrite E in Hm; by vm_compute in Hm).
  apply existsb_exists in Hm as (m & Hin & Heq%bool_decide_eq_true). pose proof (lower_first _ _ Hne Heq) as Hl.
  assert (fst (decode_rune w) = fst (decode_rune (trim_right ["."%byte] w))) as ->.
  { rewrite Hsplit at 1. destruct dots as [|d dots]; [by rewrite app_nil_r|]. apply decode_before_ascii; [done|].
    apply Forall_inv, list_elem_of_singleton in Hdots as ->. by vm_compute. }
  rewrite Hl. apply list_elem_of_In in Hin. revert m Hin Heq Hl.
  assert (Forall (λ m, fst (decode_rune m) ∈ [0x434; 0x43A; 0x441]) trim_markers) as Hall
    by (apply (bool_decide_unpack _); vm_compute; exact I).
  rewrite Forall_forall in Hall. intros m Hin _ _. by apply Hall.
Qed.
(** A stretch without a blank whose last word follows white space holds a broken street. *)
Lemma broken_street text a b u x z :
  at_runes text a b (u ++ x :: z) → is_space (fst x) = true → raw z ≠ [] →
  Forall (λ c, negb (bool_decide (c = " "%byte)) = true) (slice text a b) →
  to_lower (fst (decode_rune (raw z))) ∈ [0x434; 0x43A; 0x441] → unbroken text = false.
Proof.
  intros Hv Hx Hz Hno Hl. pose proof (at_runes_slice _ _ _ _ Hv) as [Hs _]. destruct Hv as (u0 & w0 & Hch & _).
  destruct z as [|y z]; [by destruct Hz|].
  assert (fst (decode_rune (raw (y :: z))) = fst y) as Hy.
  { assert (chunks (raw (y :: z)) = y :: z) as Hc.
    { apply (chunks_run text (u0 ++ u ++ [x]) (y :: z) w0). rewrite Hch, <- !app_assoc. done. }
    rewrite chunks_cons in Hc by done. exact (f_equal (λ l, default 0 (fst <$> head l)) Hc). }
  rewrite Hy in Hl. unfold unbroken, runes. rewrite Hch, !map_app. cbn [map].
  rewrite broken_infix; [done|]. apply broken_app. unfold break_before. rewrite Hx, bool_decide_eq_true_2 by done.
  destruct (fst x =? 0x20) eqn:E; [exfalso|done]. apply Z.eqb_eq in E.
  assert (chunk_ok x) as Hok.
  { pose proof (chunks_ok text) as Hok. rewrite Hch, !Forall_app, Forall_cons in Hok. tauto. }
  destruct Hok as [Hok|[_ Hok]]; [rewrite E in Hok; discriminate|]. rewrite E in Hok. rewrite Hs in Hno.
  destruct x as [r bs]. cbn [fst snd] in *. subst bs. rewrite raw_app in Hno. apply Forall_app in Hno as [_ Hno].
  change (raw ((r, encode_rune 32) :: y :: z)) with (encode_rune 32 ++ raw (y :: z)) in Hno.
  apply Forall_app in Hno as [Hno _]. by apply Forall_inv in Hno.
Qed.

Lemma trimStreetMarker_spec text a b :
  street_match text a b →
  returns (trimStreetMarker text a b) (λ e, a <= e ∧ e <= b ∧ (unbroken text = true → a < e)).
Proof.
  intros (v & Hv & (c & Hc & Hblank) & Hsolid). pose proof (at_runes_slice _ _ _ _ Hv) as (Hs & ? & ? & ?).
  pose proof (at_runes_chunks _ _ _ _ Hv) as Hch.
  assert (∃ c, c ∈ v ∧ is_space (fst c) = true) as Hsp.
  { exists c. split; [done|]. unfold in_ranges, blank_ranges, is_space in *. cbn [existsb] in Hblank. unfold in_rng in *. lia. }
  destruct (last_satisfying (λ c, is_space (fst c)) v Hsp) as (u & x & z & -> & Hx & Hz).
  assert (raw z ≠ []) as Hne.
  { intros He. destruct z as [|y z]; [|]. { rewrite (Hsolid x) in Hx; [done|]. by rewrite last_snoc. }
    pose proof (chunks_nonempty (slice text a b)) as Hn. rewrite Hch, Forall_app, !Forall_cons in Hn.
    destruct Hn as (_ & _ & Hy & _). destruct y as [r bs]. cbn [snd] in Hy. change (raw ((r, bs) :: z)) with (bs ++ raw z) in He.
    by apply app_nil in He as [-> _]. }
  assert (a < b) as Hab.
  { destruct (decide (a = b)) as [->|]; [|lia]. rewrite slice_empty in Hch. by destruct u. }
  unfold trimStreetMarker. rewrite go_slice_Some by lia. cbn [mbind option_bind].
  rewrite (fields_last _ u x z Hch Hx Hz Hne). case_match eqn:Em; [|apply returns_ret; lia].
  eapply returns_mono; [apply back_while_spec; lia|]. cbv beta. intros e [He Hall]. split_and!; [lia..|]. intros Hu.
  destruct (decide (e = a)) as [->|]; [exfalso|lia].
  assert (unbroken text = false) as Hf; [|congruence].
  apply (broken_street text a b u x z Hv Hx Hne); [apply Hall; lia|by apply trimmed_marker].
Qed.
End Streets.

(** ** Components *)

Section Components.
Context `{Unicode} `{SliceSort}.

(** A component in the text, empty in a broken text only. *)
Definition comp_in (text : bytes) (c : addrComponent) : Prop :=
  0 <= co_start c ∧ co_start c <= co_end c ∧ co_end c <= len text ∧ (unbroken text = true → co_start c < co_end c).

Lemma match_comp text search r kind rs m :
  len search = len text → consumes r = true → match_in rs r search m → comp_in text (component_at kind m).
Proof.
  intros Hl Hr Hm. pose proof (match_in_bounds _ _ _ _ Hm). pose proof (match_in_nonempty _ _ _ _ Hr Hm).
  unfold comp_in, component_at. cbn [co_start co_end]. lia.
Qed.

Lemma find_kind_in text search r kind :
  len search = len text → consumes r = true → Forall (comp_in text) (find_kind r search kind).
Proof.
  intros Hl Hr. apply Forall_map. eapply Forall_impl; [apply (FindAll_in [])|]. intros m. by apply match_comp.
Qed.

(** A component that is kept is a match. *)
Lemma keep_matches_spec rs r search check kind :
  (∀ m, match_in rs r search m → returns (check m) (λ _, True)) →
  returns (keep_matches check kind (FindAll r search))
    (Forall (λ c, ∃ m, match_in rs r search m ∧ c = component_at kind m)).
Proof.
  intros Hc. apply (returns_fold _ _ (match_in rs r search)); [constructor|apply FindAll_in|].
  intros comps m Hcomps Hm. eapply returns_bind; [by apply Hc|]. intros ok _. apply returns_ret.
  destruct ok; [|done]. apply Forall_app. split; [done|]. constructor; [by exists m|constructor].
Qed.

(** The components found before trimming: the streets among them can be trimmed. *)
Definition first_ok (text : bytes) (c : addrComponent) : Prop :=
  comp_in text c ∧ (co_kind c = kindStreet → street_match text (co_start c) (co_end c)).

Lemma findLocalities_in search text r :
  len search = len text → consumes r = true →
  returns (findLocalities search text r) (Forall (first_ok text)).
Proof.
  intros Hl Hr. eapply returns_mono; [apply (keep_matches_spec [])|].
  - intros m Hm. pose proof (match_in_bounds _ _ _ _ Hm). case_match; [|by apply returns_ret]. ret_step. by apply returns_ret.
  - intros comps Hc. eapply Forall_impl; [exact Hc|]. intros c (m & Hm & ->). split; [by eapply match_comp|done].
Qed.

Lemma street_matches text r check :
  consumes r && must blank_ranges r && ends_solid r = true →
  (∀ m, match_in blank_ranges r text m → returns (check m) (λ _, True)) →
  returns (keep_matches check kindStreet (FindAll r text)) (Forall (first_ok text)).
Proof.
  intros [[Hr Hb]%andb_true_iff Hs]%andb_true_iff Hc. eapply returns_mono; [by apply keep_matches_spec|].
  intros comps Hall. eapply Forall_impl; [exact Hall|]. intros c (m & Hm & ->). split; [by eapply match_comp|]. intros _.
  destruct (mi_lang _ _ _ _ Hm) as (v & Hv & Hl). exists v. split_and!; [done| |by eapply ends_solid_sound].
  destruct (mi_runes _ _ _ _ Hm) as (v' & Hv' & Ht). specialize (Ht Hb).
  by rewrite <- (at_runes_chunks _ _ _ _ Hv), (at_runes_chunks _ _ _ _ Hv').
Qed.

Lemma findStreets_in text : returns (findStreets text) (Forall (first_ok text)).
Proof.
  unfold findStreets. eapply returns_bind; [apply street_matches; [by vm_compute|]|].
  { intros m Hm. pose proof (match_in_bounds _ _ _ _ Hm). ret_step. case_match; [by apply returns_ret|].
    ret_step. by apply returns_ret. }
  intros marked Hmarked. eapply returns_bind; [apply street_matches; [by vm_compute|]|].
  { intros m Hm. pose proof (match_in_bounds _ _ _ _ Hm). ret_step. by apply returns_ret. }
  intros named Hnamed. apply returns_ret. by apply Forall_app.
Qed.

Lemma trimStreetMarkers_in text comps :
  Forall (first_ok text) comps → returns (trimStreetMarkers text comps) (Forall (comp_in text)).
Proof.
  unfold trimStreetMarkers. induction 1 as [|c comps [Hc Hs] _ IH]; cbn [mapM]; [by apply returns_ret|].
  eapply (returns_bind _ _ (comp_in text)).
  - unfold trim_component. destruct (eq_bytes (co_kind c) kindStreet) eqn:E; [|by apply returns_ret].
    apply bool_decide_eq_true in E. eapply returns_bind; [by apply trimStreetMarker_spec, Hs|].
    intros e (? & ? & ?). apply returns_ret. unfold comp_in in *. cbn [co_start co_end]. split_and!; [lia..|done].
  - intros d Hd. eapply returns_bind; [exact IH|]. intros ds Hds. apply returns_ret. by constructor.
Qed.
(** *** Components in a window *)

Lemma shift_in text from e r kind m :
  0 <= from → from <= e → e <= len text → consumes r = true → match_in [] r (slice text from e) m →
  0 <= m_start m ∧ from + m_end m <= len text ∧ comp_in text (shift from kind m).
Proof.
  intros ? ? ? Hr Hm. pose proof (match_in_bounds _ _ _ _ Hm) as Hb. pose proof (match_in_nonempty _ _ _ _ Hr Hm).
  rewrite len_slice in Hb by lia. unfold comp_in, shift. cbn [co_start co_end]. lia.
Qed.

Lemma bareHousesInWindow_in text from e r maxGap :
  0 <= from → from <= e → e <= len text → consumes r = true →
  returns (bareHousesInWindow text from e r maxGap) (Forall (comp_in text)).
Proof.
  intros ? ? ? Hr. unfold bareHousesInWindow. ret_step. subst x.
  apply (returns_fold _ _ (match_in [] r (slice text from e))); [constructor|apply FindAll_in|].
  intros out m Hout Hm. destruct (shift_in text from e r kindHouse m) as (? & ? & Hs); [done..|].
  pose proof (match_in_bounds _ _ _ _ Hm).
  eapply returns_bind; [apply returns_followedByDigit; lia|]. intros digit _.
  eapply returns_bind; [apply returns_gapRunes; lia|]. intros gap _. apply returns_ret.
  case_match; [|done]. apply Forall_app. split; [done|constructor; [done|constructor]].
Qed.

Lemma bareHousesAfterStreet_in text comps :
  Forall (comp_in text) comps → returns (bareHousesAfterStreet text comps) (Forall (comp_in text)).
Proof.
  intros Hc. apply (returns_fold _ _ (comp_in text)); [constructor|done|]. intros out s Hout (? & ? & ? & _).
  case_match; [by apply returns_ret|]. ret_step.
  eapply returns_bind; [apply bareHousesInWindow_in; [lia..|by vm_compute]|]. intros commas Hcommas.
  eapply returns_bind; [apply bareHousesInWindow_in; [lia..|by vm_compute]|]. intros direct Hdirect.
  apply returns_ret. by rewrite !Forall_app.
Qed.

Lemma returns_nonStreet text i : 0 <= i <= len text → returns (bareStreetIsNonStreet text i) (λ _, True).
Proof. intros Hi. unfold bareStreetIsNonStreet. ret_step. by apply returns_ret. Qed.

Lemma bareStreetsAfterLocality_in text comps :
  Forall (comp_in text) comps → returns (bareStreetsAfterLocality text comps) (Forall (comp_in text)).
Proof.
  intros Hc. apply (returns_fold _ _ (comp_in text)); [constructor|done|]. intros out s Hout (? & ? & ? & _).
  case_match; [by apply returns_ret|]. ret_step. ret_step. subst.
  apply (returns_fold _ _ (match_in [] addrBareStreetHouseRe (slice text (co_end s) x))); [done|apply FindAll_in|].
  clear dependent out. intros out m Hout Hm.
  destruct (shift_in text (co_end s) x addrBareStreetHouseRe kindStreetHouse m) as (? & ? & Hs); [lia..|by vm_compute|done|].
  pose proof (match_in_bounds _ _ _ _ Hm).
  eapply returns_bind; [apply returns_followedByDigit; lia|]. intros digit _.
  eapply returns_bind; [apply returns_gapRunes; lia|]. intros gap _. case_match; [|by apply returns_ret].
  eapply returns_bind; [apply returns_nonStreet; lia|]. intros other _. apply returns_ret.
  destruct other; [done|]. apply Forall_app. split; [done|constructor; [done|constructor]].
Qed.

(** *** Cities *)

Lemma localityComponent_in text a b needCtx t :
  t_Raw t = text → 0 <= a → a < b → b <= len text →
  returns (localityComponent text a b needCtx t) (Forall (comp_in text)).
Proof.
  intros Ht ? ? ?. unfold localityComponent. eapply (returns_bind _ _ (λ _, True)).
  { case_match; [|by apply returns_ret]. ret_step. by apply returns_ret. }
  intros before _. destruct before; [by apply returns_ret|]. eapply (returns_bind _ _ (λ _, True)).
  { destruct (b <? len text) eqn:E; [|by apply returns_ret]. ret_step. by apply returns_ret. }
  intros after _. destruct after; [by apply returns_ret|]. eapply (returns_bind _ _ (λ _, True)).
  { destruct needCtx; [|by apply returns_ret]. apply returns_hasLeftContext. rewrite Ht. lia. }
  intros context _. apply returns_ret. destruct context; [|constructor].
  constructor; [|constructor]. unfold comp_in. cbn [co_start co_end]. lia.
Qed.

(** The dictionary holds no empty city and no empty form. *)
Definition cities_ok (cd : citiesDict) : Prop :=
  (∀ p city, city ∈ default [] (cd_byPrefix cd !! p) → city ≠ []) ∧
  ∀ city form, form ∈ default [] (cd_oblique cd !! city) → form ≠ [].

Lemma obliqueForms_nonempty city form : form ∈ obliqueForms city → form ≠ [].
Proof.
  unfold obliqueForms. destruct (last _) as [c|]; [|by intros []%elem_of_nil].
  intros Hin%list_elem_of_In. apply filter_In in Hin as [Hin _]. apply in_map_iff in Hin as (e & <- & He%list_elem_of_In).
  intros [_ ->]%app_nil. revert He. apply (bool_decide_unpack _). vm_compute. exact I.
Qed.

Lemma firstTwoRunes_nil : firstTwoRunes [] = [].
Proof. reflexivity. Qed.

Lemma add_city_ok cd c : cities_ok cd → cities_ok (add_city cd c).
Proof.
  intros [Hp Ho]. unfold cities_ok, add_city. cbn [cd_byPrefix cd_oblique]. split.
  - intros p city. case_bool_decide as Hc; [apply Hp|].
    destruct (decide (firstTwoRunes c = p)) as [<-|]; [|rewrite lookup_insert_ne by done; apply Hp].
    rewrite lookup_insert_eq. cbn [default]. intros [Hin|Hin]%elem_of_app; [by eapply Hp|].
    apply list_elem_of_singleton in Hin as ->. intros ->. by rewrite firstTwoRunes_nil in Hc.
  - intros city form. destruct (decide (c = city)) as [<-|]; [|rewrite lookup_insert_ne by done; apply Ho].
    rewrite lookup_insert_eq. apply obliqueForms_nonempty.
Qed.

Lemma cities_dict_ok : cities_ok cities_dict.
Proof.
  unfold cities_dict, loadCities. rewrite cities_embedded. generalize (sort_slice longer_runes (cityList cities_txt)).
  intros l. unfold buildCitiesDict.
  assert (cities_ok (MkCities l ∅ ∅)) as Hok.
  { split; intros ? ?; cbn [cd_byPrefix cd_oblique]; rewrite lookup_empty; by intros []%elem_of_nil. }
  revert Hok. generalize (MkCities l ∅ ∅). induction l as [|c l IH]; intros cd Hok; cbn [foldl]; [done|].
  by apply IH, add_city_ok.
Qed.

Lemma matchCity_in cd text t i rest includeCity needCtx city :
  t_Raw t = text → cities_ok cd → city ≠ [] → 0 <= i → i + len rest <= len text →
  returns (matchCity cd text t i rest includeCity needCtx city) (Forall (comp_in text)).
Proof.
  intros Ht [_ Ho] Hc ? ?. unfold matchCity. eapply returns_bind.
  { instantiate (1 := Forall (comp_in text)). destruct includeCity; cbn [andb]; [|by apply returns_ret].
    destruct (has_prefix rest city) eqn:E; [|by apply returns_ret]. apply has_prefix_len in E. pose proof (len_pos _ Hc).
    apply localityComponent_in; [done|lia..]. }
  intros nominative Hn. apply (returns_fold _ _ (.≠ [])); [done|apply Forall_forall; intros form; apply Ho|].
  intros comps form Hcomps Hf. destruct (has_prefix rest form) eqn:E; [|by apply returns_ret].
  apply has_prefix_len in E. pose proof (len_pos _ Hf).
  eapply returns_bind; [apply localityComponent_in; [done|lia..]|]. intros l Hl. apply returns_ret. by apply Forall_app.
Qed.

Lemma scan_runes_in cd text t includeCity needCtx cs i comps :
  t_Raw t = text → cities_ok cd → 0 <= i → i + len (raw cs) <= len text → Forall (comp_in text) comps →
  returns (scan_runes cd text t includeCity needCtx cs i comps) (Forall (comp_in text)).
Proof.
  intros Ht Hcd. revert i comps. induction cs as [|c cs IH]; intros i comps ? Hle Hcomps; cbn [scan_runes]; [by apply returns_ret|].
  eapply (returns_bind _ _ (Forall (comp_in text))).
  - apply (returns_fold _ _ (.≠ [])); [done|apply Forall_forall; intros city; apply Hcd|].
    intros l city Hl Hcity. eapply returns_bind; [by apply matchCity_in|]. intros k Hk. apply returns_ret. by apply Forall_app.
  - intros l Hl. pose proof (len_nonneg (snd c)). apply IH; [lia| |done].
    change (raw (c :: cs)) with (snd c ++ raw cs) in Hle. rewrite len_app in Hle. lia.
Qed.

Lemma findDictLocalities_in t text :
  t_Raw t = text → LowerOK t = true ∨ len (lower_string text) <= len text →
  returns (findDictLocalities t text) (Forall (comp_in text)).
Proof.
  intros Ht Hlow. unfold findDictLocalities. set (lower := if LowerOK t then t_Lower t else lower_string text).
  assert (len lower <= len text) as Hl.
  { unfold lower. destruct (LowerOK t) eqn:E; [unfold LowerOK in E; rewrite <- Ht; lia|by destruct Hlow]. }
  eapply returns_bind; [apply scan_runes_in; [done|apply cities_dict_ok|lia|by rewrite raw_chunks|constructor]|]. intros nom Hnom.
  eapply returns_bind; [apply scan_runes_in; [done|apply cities_dict_ok|lia|by rewrite raw_chunks|constructor]|]. intros obl Hobl.
  apply returns_ret. rewrite !Forall_app. split_and!; [done..|]. apply find_kind_in; [done|by vm_compute].
Qed.
(** *** Streets without a marker *)

Definition stretch (text : bytes) (ab : Z * Z) : Prop := 0 <= fst ab ∧ fst ab < snd ab ∧ snd ab <= len text.

Lemma findBareStreet_in check t spans :
  Forall (stretch (t_Raw t)) spans → (∀ a b, stretch (t_Raw t) (a, b) → returns (check a b) (λ _, True)) →
  returns (findBareStreet check t spans) (Forall (comp_in (t_Raw t))).
Proof.
  intros Hs Hc. apply (returns_fold _ _ (stretch (t_Raw t))); [constructor|done|].
  intros comps [a b] Hcomps Hab. eapply returns_bind; [by apply Hc|]. intros ok _. destruct Hab as (? & ? & ?). cbn [fst snd] in *.
  destruct ok; cbn [negb]; [|by apply returns_ret]. ret_step. apply returns_ret. case_match; [|done].
  apply Forall_app. split; [done|]. constructor; [|constructor]. unfold comp_in. cbn [co_start co_end]. lia.
Qed.

Lemma bareStreetAdjectiveOK_total lower a b :
  0 <= a → a < b → b <= len lower → returns (bareStreetAdjectiveOK lower a b) (λ _, True).
Proof.
  intros ? ? ?. unfold bareStreetAdjectiveOK. ret_step. case_match; [by apply returns_ret|].
  eapply returns_bind; [apply lastDigitRun_spec; lia|]. intros n Hn. cbv beta in Hn.
  destruct (n <? 0) eqn:E; [by apply returns_ret|].
  eapply returns_bind; [apply skip_while_spec; lia|]. intros after Ha. cbv beta in Ha. eapply (returns_bind _ _ (λ _, True)).
  { destruct (after <? len lower) eqn:?; [|by apply returns_ret]. ret_step. by apply returns_ret. }
  intros colon _. destruct colon; [by apply returns_ret|]. case_match; [|by apply returns_ret]. ret_step. by apply returns_ret.
Qed.

Lemma bareStreetContextMatchOK_total text lower a b :
  len lower = len text → stretch text (a, b) → returns (bareStreetContextMatchOK text lower a b) (λ _, True).
Proof.
  intros Hl (? & ? & ?). cbn [fst snd] in *. unfold bareStreetContextMatchOK.
  eapply returns_bind; [apply returns_followedByDigit; lia|]. intros digit _. destruct digit; [by apply returns_ret|].
  eapply returns_bind; [apply returns_nonStreet; lia|]. intros other _. destruct other; [by apply returns_ret|].
  apply bareStreetAdjectiveOK_total; lia.
Qed.

(** A group that must consume a digit is not empty. *)
Lemma group_stretch rs search text r n :
  len search = len text → groups_must rs r = true →
  Forall (stretch text) (omap (λ m, group n (m_caps m)) (FindAll r search)).
Proof.
  intros Hl Hr. apply Forall_forall. intros [a b] (m & Hm & Hg)%list_elem_of_omap.
  destruct (FindAll_in rs r search) as [Hf _]. rewrite Forall_forall in Hf. specialize (Hf m Hm).
  pose proof (match_in_bounds _ _ _ _ Hf). pose proof (mi_groups _ _ _ _ Hf) as Hgs. rewrite Forall_forall in Hgs.
  destruct (Hgs (n, (a, b)) (group_in _ _ _ Hg)) as (_ & ? & ? & v & Hv & Ht). cbn [fst snd] in *.
  pose proof (at_runes_slice _ _ _ _ Hv) as (_ & ? & ? & ?). destruct (Ht Hr) as (c & Hc & _).
  unfold stretch. cbn [fst snd]. split_and!; [lia| |lia]. destruct (decide (a = b)) as [->|]; [|lia]. exfalso.
  pose proof (at_runes_chunks _ _ _ _ Hv) as He. rewrite slice_empty in He. subst v. by apply elem_of_nil in Hc.
Qed.

Lemma findBareStreetContext_in t : returns (findBareStreetContext t (t_Raw t)) (Forall (comp_in (t_Raw t))).
Proof.
  unfold findBareStreetContext. eapply returns_bind; [apply findBareStreet_in|].
  - apply Forall_map. destruct (FindAll_in [] addrBareStreetCtxRe (t_Raw t)) as [Hf _].
    eapply Forall_impl; [exact Hf|]. intros m Hm. pose proof (match_in_bounds _ _ _ _ Hm).
    assert (m_start m < m_end m) by (eapply match_in_nonempty; [|exact Hm]; by vm_compute). unfold stretch. cbn [fst snd]. lia.
  - intros a b (? & ? & ?). cbn [fst snd] in *. eapply returns_bind; [apply returns_followedByDigit; lia|].
    intros digit _. by apply returns_ret.
  - intros upper Hupper.
    assert (len (bare_lower_search t (t_Raw t)) = len (t_Raw t)) as Hl.
    { unfold bare_lower_search. destruct (LowerOK t) eqn:E; [unfold LowerOK in E; lia|done]. }
    eapply returns_bind; [apply findBareStreet_in|].
    + apply (group_stretch [(0x30, 0x39)]); [done|by vm_compute].
    + intros a b Hab. by apply bareStreetContextMatchOK_total.
    + intros lower Hlower. apply returns_ret. by apply Forall_app.
Qed.

(** *** Labels *)

Lemma label_end_spec text a rest :
  0 <= a → a <= len text → Forall (λ m, a <= m_start m ∧ m_start m <= len text) rest →
  returns (label_end text a rest) (λ e, a <= e ∧ e <= len text).
Proof.
  intros ? ? Hrest. unfold label_end. destruct Hrest as [|m rest [? ?] _]; [|by apply returns_ret]. ret_step. subst x.
  apply returns_ret. unfold str_index. pose proof (index_opt_spec (slice text a (len text)) ["010"%byte]) as Hi.
  destruct (index_opt _ _) as [i|]; [|cbn; lia]. change (default (-1) (Some i)) with i. destruct Hi as [Hi _].
  pose proof (occurs_at_slice _ _ _ Hi) as [Hle _]. pose proof (proj1 Hi) as Hi0. rewrite len_slice in * by lia.
  change (len ["010"%byte]) with 1 in Hle. case_match; lia.
Qed.

Lemma labeled_values_in text labels :
  Forall (match_in [] addrLabeledRe text) labels → StronglySorted (λ m m', m_end m <= m_start m') labels →
  returns (labeled_values text labels) (Forall (comp_in text)).
Proof.
  intros Hl. induction 1 as [|m labels _ IH Hm]; cbn [labeled_values]; [by apply returns_ret|].
  apply Forall_cons in Hl as [Hin Hl]. pose proof (match_in_bounds _ _ _ _ Hin).
  eapply returns_bind; [apply label_end_spec; [lia..|]|].
  { apply Forall_forall. intros m' Hm'. rewrite Forall_forall in Hm, Hl. specialize (Hm _ Hm').
    pose proof (match_in_bounds _ _ _ _ (Hl _ Hm')). lia. }
  intros e [? ?]. eapply returns_bind; [apply trimLabeledValue_spec; lia|]. intros [a b] (? & ? & ?).
  eapply returns_bind; [by apply IH|]. intros values Hv. apply returns_ret. case_match eqn:E; [|done].
  constructor; [|done]. unfold comp_in. cbn [co_start co_end]. lia.
Qed.

(** *** All of them *)

Lemma first_kinds text search r kind :
  len search = len text → consumes r = true → kind ≠ kindStreet → Forall (first_ok text) (find_kind r search kind).
Proof.
  intros Hl Hr Hk. apply Forall_forall. intros c Hc. pose proof (find_kind_in text search r kind Hl Hr) as Hin.
  rewrite Forall_forall in Hin. split; [by apply Hin|]. by apply list_elem_of_fmap in Hc as (m & -> & _).
Qed.

Definition res_ok (res : searchRes) : bool :=
  forallb (λ f, consumes (f res)) [countryRe; regionRe; districtRe; localityRe; houseRe; aptRe; aptWordRe; poBoxRe; strRe].

Lemma first_components_in res search text :
  len search = len text → res_ok res = true → returns (first_components res search text) (Forall (first_ok text)).
Proof.
  intros Hl Hr. unfold res_ok in Hr. cbn [forallb] in Hr. rewrite !andb_true_iff in Hr. destruct Hr as (? & ? & ? & ? & _).
  unfold first_components. eapply returns_bind; [by apply findLocalities_in|]. intros localities Hloc.
  eapply returns_bind; [apply findStreets_in|]. intros streets Hst. apply returns_ret. rewrite !Forall_app.
  split_and!; try done; (apply first_kinds; [done|done || by vm_compute|by vm_compute]).
Qed.

Lemma house_components_in res search text :
  len search = len text → res_ok res = true → Forall (comp_in text) (house_components res search).
Proof.
  intros Hl Hr. unfold res_ok in Hr. cbn [forallb] in Hr. rewrite !andb_true_iff in Hr.
  destruct Hr as (? & ? & ? & ? & ? & ? & ? & ? & ? & _). unfold house_components. rewrite !Forall_app.
  split_and!; by apply find_kind_in.
Qed.

(** The lowercased text is no longer than the text. *)
Definition lower_fits (t : Text) : Prop := LowerOK t = true ∨ len (lower_string (t_Raw t)) <= len (t_Raw t).

Lemma findComponents_in t : lower_fits t → returns (findComponents t) (Forall (comp_in (t_Raw t))).
Proof.
  intros Hlow. unfold findComponents.
  destruct (if LowerOK t then (t_Lower t, lowerRes) else (t_Raw t, rawRes)) as [search res] eqn:Es.
  assert (len search = len (t_Raw t) ∧ res_ok res = true) as [Hl Hr].
  { destruct (LowerOK t) eqn:E; injection Es as <- <-; (split; [|by vm_compute]); [unfold LowerOK in E; lia|done]. }
  eapply returns_bind; [by apply first_components_in|]. intros c1 H1.
  eapply returns_bind; [by apply trimStreetMarkers_in|]. intros c2 H2. cbv zeta.
  pose proof (house_components_in res search (t_Raw t) Hl Hr) as H3.
  eapply returns_bind; [apply bareHousesAfterStreet_in; by apply Forall_app|]. intros c4 H4.
  eapply returns_bind; [by apply findDictLocalities_in|]. intros c5 H5.
  eapply returns_bind; [apply bareStreetsAfterLocality_in; by rewrite !Forall_app|]. intros c6 H6.
  eapply returns_bind; [apply findBareStreetContext_in|]. intros c7 H7.
  eapply returns_bind.
  { unfold findLabeledComponents. destruct (FindAll_in [] addrLabeledRe (t_Raw t)). by apply labeled_values_in. }
  intros c8 H8. apply returns_ret. by rewrite !Forall_app.
Qed.
End Components.

(** ** Groups *)

Section Groups.
Context `{Unicode} `{SliceSort}.

#[export] Instance addrComponentLess_order : WeakOrder addrComponentLess.
Proof.
  split; unfold addrComponentLess; intros; repeat case_match;
    repeat match goal with
    | H : negb _ = true |- _ => apply negb_true_iff in H
    | H : negb _ = false |- _ => apply negb_false_iff in H
    end; try lia; destruct (eq_bytes (co_kind a) kindLabeled), (eq_bytes (co_kind b) kindLabeled);
    try destruct (eq_bytes (co_kind c) kindLabeled); cbn in *; done || lia.
Qed.

(** Each component starts where the one before has ended. *)
Fixpoint chain (e : Z) (comps : list addrComponent) : Prop :=
  match comps with
  | [] => True
  | c :: comps => e <= co_start c ∧ chain (co_end c) comps
  end.

Lemma drop_overlaps_in text kept_end comps : Forall (comp_in text) comps →
  Forall (comp_in text) (drop_overlaps kept_end comps) ∧ chain (default 0 kept_end) (drop_overlaps kept_end comps).
Proof.
  intros Hc. revert kept_end. induction Hc as [|c comps Hc _ IH]; intros kept_end; cbn [drop_overlaps]; [done|].
  case_match eqn:E; [apply IH|]. destruct (IH (Some (co_end c))) as [Hf Hch]. split; [by constructor|].
  cbn [chain]. split; [|done]. destruct Hc as (? & _). destruct kept_end; cbn [default]; unfold id; lia.
Qed.

Lemma crosses_loop_total fuel text from search :
  0 <= from → (length search < fuel)%nat → returns (crosses_loop fuel text from search) (λ _, True).
Proof.
  revert search. induction fuel as [|fuel IH]; intros search ? ?; [lia|]. cbn [crosses_loop].
  unfold str_index. pose proof (index_opt_spec search ". ") as Hi. destruct (index_opt search ". ") as [i|]; [|by apply returns_ret].
  change (default (-1) (Some i)) with i. destruct Hi as [Hi _]. pose proof (occurs_at_slice _ _ _ Hi) as [Hle _].
  pose proof (proj1 Hi). change (len (go_bytes ". ")) with 2 in *. replace (i <? 0) with false by lia.
  eapply (returns_bind _ _ (λ _, True)).
  { case_match; [|by apply returns_ret]. ret_step. by apply returns_ret. }
  intros capital _. destruct capital; [by apply returns_ret|]. ret_step. subst x. apply IH; [done|].
  assert (len (slice search (i + 2) (len search)) = len search - (i + 2)) as Hl by (apply len_slice; lia). unfold len in *. lia.
Qed.

Lemma joins_total text a b :
  0 <= co_end a → co_end a <= co_start b → co_start b <= len text → returns (joins text a b) (λ _, True).
Proof.
  intros ? ? ?. unfold joins. eapply returns_bind; [apply returns_gapRunes; lia|]. intros gap _.
  case_match; [by apply returns_ret|]. unfold crossesSentenceBoundary. rewrite go_slice_Some by lia. cbn [mbind option_bind].
  eapply (returns_bind _ _ (λ _, True)); [|intros ? _; by apply returns_ret].
  case_match; [by apply returns_ret|]. apply crosses_loop_total; lia.
Qed.

Lemma groupEnd_spec text c rest :
  comp_in text c → Forall (comp_in text) rest → chain (co_end c) rest →
  returns (groupEnd text c rest) (λ '(group, beyond), rest = group ++ beyond).
Proof.
  intros Hc Hr. revert c Hc. induction Hr as [|d rest Hd _ IH]; intros c Hc Hch; cbn [groupEnd]; [by apply returns_ret|].
  destruct Hch as [? Hch]. pose proof Hc as (? & ? & ? & _). pose proof Hd as (? & ? & ? & _).
  eapply returns_bind; [apply joins_total; lia|]. intros joined _. destruct joined; [|by apply returns_ret].
  eapply returns_bind; [by apply IH|]. intros [group beyond] ->. by apply returns_ret.
Qed.

(** The last component of a group ends last. *)
Lemma chain_last text c group beyond :
  comp_in text c → Forall (comp_in text) group → chain (co_end c) (group ++ beyond) →
  co_end c <= co_end (List.last group c) ∧ comp_in text (List.last group c) ∧ chain (co_end (List.last group c)) beyond.
Proof.
  intros Hc Hg. revert c Hc. induction Hg as [|d group Hd Hg IH]; intros c Hc; [cbn; done|].
  cbn [app chain]. intros [? Hch]. destruct (IH d Hd Hch) as (? & ? & ?).
  assert (List.last (d :: group) c = List.last group d) as ->.
  { clear. revert c d. induction group as [|e group IH]; intros c d; [done|].
    change (List.last (d :: e :: group) c) with (List.last (e :: group) c). by rewrite !IH. }
  destruct Hd as (? & ? & _). split_and!; [lia|done|done].
Qed.

Lemma exception_window_total t pos b : 0 <= pos <= len (t_Raw t) → ∃ w, exception_window t pos b = Some w.
Proof. intros Hp. unfold exception_window. destruct (runeWindowBefore_total t pos addrExceptionWindow Hp) as [w ->]. by eexists. Qed.

Lemma hasException_total t pos b : 0 <= pos <= len (t_Raw t) → returns (hasException t pos b) (λ _, True).
Proof.
  intros Hp. destruct (exception_window_total t pos b Hp) as [w Hw].
  eapply returns_mono; [by apply (hasException_spec t pos b w)|done].
Qed.

Lemma validGroup_total t c group :
  0 <= co_start c <= len (t_Raw t) → returns (validGroup t (c :: group)) (λ _, True).
Proof.
  intros Hc. pose proof (λ b, hasException_total t (co_start c) b Hc) as He.
  assert (∀ b, returns (e ← hasException t (co_start c) b; Some (negb e)) (λ _, True)) as Hn.
  { intros b. eapply returns_bind; [apply He|]. intros e _. by apply returns_ret. }
  unfold validGroup. cbn [head mbind option_bind]. repeat (case_match; [apply Hn|]).
  eapply returns_bind; [by apply returns_hasLeftContext|]. intros context _.
  destruct context; [apply Hn|by apply returns_ret].
Qed.

(** A span in the text, empty in a broken text only. *)
Definition address_in (text : bytes) (s : Span) : Prop :=
  0 <= sp_Start s ∧ sp_Start s <= sp_End s ∧ sp_End s <= len text ∧ sp_Category s = CatAddress ∧
  (unbroken text = true → sp_Start s < sp_End s).

Lemma address_groups_spec t fuel e kept :
  Forall (comp_in (t_Raw t)) kept → chain e kept → (length kept <= fuel)%nat →
  returns (address_groups fuel t kept) (λ l,
    Forall (address_in (t_Raw t)) l ∧ StronglySorted (λ s s', sp_End s <= sp_Start s') l ∧ Forall (λ s, e <= sp_Start s) l).
Proof.
  revert e kept. induction fuel as [|fuel IH]; intros e [|c rest] Hc Hch Hf; cbn [address_groups];
    try (apply returns_ret; split_and!; constructor); [cbn in Hf; lia|].
  apply Forall_cons in Hc as [Hc Hrest]. destruct Hch as [He Hch].
  eapply returns_bind; [by apply groupEnd_spec|]. intros [group beyond] ->.
  apply Forall_app in Hrest as [Hg Hb]. destruct (chain_last _ _ _ _ Hc Hg Hch) as (Hle & Hlast & Hch').
  eapply returns_bind; [apply validGroup_total; unfold comp_in in Hc; lia|]. intros valid _.
  eapply returns_bind; [apply (IH _ _ Hb Hch')|].
  { cbn [length] in Hf. rewrite length_app in Hf. lia. }
  intros spans (Hin & Hsort & Hfrom). apply returns_ret.
  assert (Forall (λ s, e <= sp_Start s) spans) as Hfrom'.
  { eapply Forall_impl; [exact Hfrom|]. unfold comp_in in *. cbv beta. lia. }
  destruct valid; [|done]. split_and!.
  - constructor; [|done]. unfold address_in, group_span, comp_in in *. cbn [sp_Start sp_End sp_Category].
    split_and!; [lia..|done|lia].
  - by constructor.
  - by constructor.
Qed.

Lemma address_spec t :
  lower_fits t → returns (address_DetectLower t) (λ l,
    Forall (address_in (t_Raw t)) l ∧ StronglySorted (λ s s', sp_End s <= sp_Start s') l).
Proof.
  intros Hlow. unfold address_DetectLower. eapply returns_bind; [by apply findComponents_in|]. intros comps Hc. cbv zeta.
  destruct (drop_overlaps_in (t_Raw t) None (sort_slice addrComponentLess comps)) as [Hin Hch].
  { by rewrite sort_slice_perm. }
  eapply returns_mono; [by apply (address_groups_spec t _ 0)|]. cbv beta. tauto.
Qed.
End Groups.

(** ** Properties *)

(** C6: on every text whose lower case is no longer than the text, the address detector
    returns; its spans lie in the text, one after the other; and none is empty, unless
    somewhere in the text white space other than a blank (a line break, a tab, ...) stands
    directly before a letter that a marker of houses starts with. *)
Theorem addresses_in_text `{Unicode} `{SliceSort} t :
  lower_fits t →
  ∃ l, address_DetectLower t = Some l ∧ StronglySorted (λ s s', sp_End s <= sp_Start s') l ∧
    Forall (λ s, 0 <= sp_Start s ∧ sp_Start s <= sp_End s ∧ sp_End s <= len (t_Raw t) ∧ sp_Category s = CatAddress ∧
      (unbroken (t_Raw t) = true → sp_Start s < sp_End s)) l.
Proof. intros Hl. destruct (address_spec t Hl) as (l & -> & Hin & Hs). by exists l. Qed.

Lemma addresses_in_text_witness :
  let t := text_of "Проживаю: ул. Баумана, д. 5" in
  ∃ l, address_DetectLower t = Some l ∧ length l = 1%nat ∧ Forall (λ s, sp_Start s < sp_End s) l.
Proof.
  intros t. destruct (addresses_in_text t) as (l & Hl & _ & Hin).
  - left. by vm_compute.
  - exists l. split_and!; [exact Hl| |].
    + apply (f_equal (option_map (@length Span))) in Hl. vm_compute in Hl. injection Hl as Hl. symmetry. exact Hl.
    + eapply Forall_impl; [exact Hin|]. intros s (_ & _ & _ & _ & Hs). apply Hs. by vm_compute.
Defined.

(** C20: an address counts as that of an organisation exactly when, in the stretch
    before it, some word of an organisation stands behind every phrase that says the
    address is the client's own. The search ends on every text. *)
Theorem exception_nearest `{Unicode} t pos clauseBound :
  0 <= pos <= len (t_Raw t) →
  ∃ w b, exception_window t pos clauseBound = Some w ∧ hasException t pos clauseBound = Some b ∧
    (b = true ↔ ∃ i, exception_at w i ∧ ∀ j, marker_at w j → j < i).
Proof.
  intros Hp. destruct (exception_window_total t pos clauseBound Hp) as [w Hw].
  destruct (hasException_spec t pos clauseBound w Hw) as (b & Hb & Hiff). by exists w, b.
Qed.

Lemma exception_nearest_witness :
  let t := text_of "Живу рядом, отделение банка: ул. Баумана" in
  ∃ w i, exception_window t 52 true = Some w ∧ exception_at w i ∧ ∀ j, marker_at w j → j < i.
Proof.
  intros t. destruct (exception_nearest t 52 true) as (w & b & Hw & Hb & Hiff).
  - split; apply Z.leb_le; reflexivity.
  - assert (b = true) as Ht.
    { assert (hasException t 52 true = Some true) as E by (vm_compute; reflexivity). rewrite E in Hb. by injection Hb. }
    apply Hiff in Ht as (i & Hi & Hj). exists w, i. exact (conj Hw (conj Hi Hj)).
Defined.
