(* ===== verification/Synth.v ===== *)
(** * Package [synth]: generators of plausible fake values

    Models [internal/synth/synth.go]. A generator is a computation in the state of
    the random number generator; [None] is a run-time panic ([Intn] of a count that
    is not positive, a slice out of range). The generator of [math/rand] is the
    interface [Rng]: all that is documented of [Intn(n)] is its range. *)

From S2P Require Import Prelude GoText Regexp Validators.

(** ** math/rand *)

Class Rng := {
  rng_state : Type;
  rng_seed : Z → rng_state;
  rng_intn : rng_state → Z → Z * rng_state;
  rng_intn_range r n : 0 < n → 0 <= fst (rng_intn r n) < n
}.

(** A linear congruential generator, to run the generators on. *)
#[export] Program Instance lcg_rng : Rng | 100 := {
  rng_state := Z;
  rng_seed := λ s, s;
  rng_intn := λ s n, (s / 65536 mod n, (s * 1103515245 + 12345) mod 2 ^ 31)
}.
Next Obligation. intros r n Hn. simpl. apply Z.mod_pos_bound. lia. Qed.

Definition rand `{Rng} (A : Type) : Type := rng_state → option (A * rng_state).

#[export] Instance rand_ret `{Rng} : MRet rand := λ A a r, Some (a, r).
#[export] Instance rand_bind `{Rng} : MBind rand :=
  λ A B f m r, '(a, r) ← m r; f a r.

Definition Intn `{Rng} (n : Z) : rand Z := λ r, if 0 <? n then Some (rng_intn r n) else None.

(** A computation that draws nothing and may panic. *)
Definition lift `{Rng} {A} (o : option A) : rand A := λ r, a ← o; Some (a, r).

(** [l[rng.Intn(len(l))]] *)
Definition pick `{Rng} (l : list bytes) : rand bytes :=
  i ← Intn (Z.of_nat (length l));
  lift (l !! Z.to_nat i).

(** ** Numbers as text *)

Definition itoa (n : Z) : bytes := decimal n.

Definition twoDigits (n : Z) : bytes := if n <? 10 then "0" ++ itoa n else itoa n.

(** [string(b)] for a byte: the encoding of the rune [b]. *)
Definition string_of_byte (b : byte) : bytes := encode_rune (byte_val b).

Definition clamp_digit (d : Z) : Z := if (d <? 0) || (9 <? d) then 0 else d.

Fixpoint randDigits `{Rng} (n : nat) : rand bytes :=
  match n with
  | O => mret []
  | S n =>
      d ← Intn 10;
      rest ← randDigits n;
      mret (byte_of (0x30 + clamp_digit d) :: rest)
  end.

(** ** Check digits *)

Definition luhnCheckDigit (d : bytes) : byte := byte_of (0x30 + (10 - luhn_sum true d mod 10) mod 10).

Definition innControl (d : bytes) (weights : list Z) : byte :=
  byte_of (0x30 + weighted d weights mod 11 mod 10).

Section Generators.
Context `{Rng}.

Definition Phone : rand bytes :=
  ds ← randDigits 9;
  mret ("7" ++ "9" ++ ds).

Definition Card : rand bytes :=
  coin ← Intn 2;
  let bin : bytes := if coin =? 0 then "5" else "4" in
  d2 ← randDigits 2;
  d12 ← randDigits 12;
  let body := (bin ++ d2) ++ d12 in
  mret (body ++ string_of_byte (luhnCheckDigit body)).

Definition INN : rand bytes :=
  base ← randDigits 10;
  let n11 := innControl base inn12_w1 in
  let n12 := innControl (base ++ string_of_byte n11) inn12_w2 in
  mret (base ++ string_of_byte n11 ++ string_of_byte n12).

Definition INN10 : rand bytes :=
  base ← randDigits 9;
  let n10 := innControl base inn10_weights in
  mret (base ++ string_of_byte n10).

Definition SNILS : rand bytes :=
  base ← randDigits 9;
  let control := snils_control (weighted base snils_weights) in
  mret (base ++ twoDigits control).

Definition Passport : rand bytes :=
  a ← randDigits 3;
  b ← randDigits 6;
  mret ("4" ++ a ++ b).

Definition ForeignPassport : rand bytes :=
  a ← randDigits 1;
  b ← randDigits 7;
  mret ("7" ++ a ++ b).

Definition DriverLicense : rand bytes :=
  a ← Intn 90;
  b ← Intn 90;
  c ← randDigits 6;
  mret (twoDigits (1 + a) ++ twoDigits (1 + b) ++ c).

Definition DivisionCode : rand bytes :=
  a ← randDigits 3;
  b ← randDigits 3;
  mret (a ++ "-" ++ b).

Definition CVV : rand bytes := randDigits 3.

Definition PIN : rand bytes := randDigits 4.

(** ** Dates *)

Definition isLeapYear (y : Z) : bool :=
  (Z.rem y 4 =? 0) && (negb (Z.rem y 100 =? 0) || (Z.rem y 400 =? 0)).

Definition daysInMonth (year month : Z) : Z :=
  if (month =? 2) && isLeapYear year then 29 else daysInMonth_table !!! Z.to_nat (month - 1).

Definition monthGenitiveList : list bytes :=
  [("января" : bytes); ("февраля" : bytes); ("марта" : bytes); ("апреля" : bytes);
   ("мая" : bytes); ("июня" : bytes); ("июля" : bytes); ("августа" : bytes);
   ("сентября" : bytes); ("октября" : bytes); ("ноября" : bytes); ("декабря" : bytes)].

Definition monthGenitive (m : Z) : bytes :=
  if (m <? 1) || (12 <? m) then [] else default [] (monthGenitiveList !! Z.to_nat (m - 1)).

(** The three draws of both date generators: year, month, day. *)
Definition rand_date : rand (Z * Z * Z) :=
  y ← Intn 56;
  let year := 1950 + y in
  m ← Intn 12;
  let month := 1 + m in
  d ← Intn (daysInMonth year month);
  mret (year, month, 1 + d).

Definition Date : rand bytes :=
  '(year, month, day) ← rand_date;
  mret (twoDigits day ++ "." ++ twoDigits month ++ itoa year).

Definition dateWord_text (year month day : Z) : bytes :=
  itoa day ++ " " ++ monthGenitive month ++ " " ++ itoa year ++ " года".

Definition DateWord : rand bytes :=
  '(year, month, day) ← rand_date;
  mret (dateWord_text year month day).

Definition email_domains : list bytes :=
  [("mail.ru" : bytes); ("yandex.ru" : bytes); ("gmail.com" : bytes); ("example.com" : bytes);
   ("bank.ru" : bytes)].

Definition Email : rand bytes :=
  user ← randDigits 6;
  domain ← pick email_domains;
  mret ("user" ++ user ++ "@" ++ domain).
End Generators.

(** ** Names *)

(** The lines of an embedded dictionary file; [None] is a read error. *)
Definition readDict (data : option bytes) : list bytes :=
  match data with
  | None => []
  | Some data =>
      List.filter (λ line, negb (bool_decide (line = []))) (map trim_space (split_byte "010"%byte data))
  end.

Record Dict := MkDict {
  names : list bytes; surnames : list bytes; patrM : list bytes; patrF : list bytes
}.

Definition patrM_list : list bytes :=
  [("Александрович" : bytes); ("Андреевич" : bytes); ("Борисович" : bytes); ("Васильевич" : bytes);
   ("Викторович" : bytes); ("Владимирович" : bytes); ("Дмитриевич" : bytes); ("Евгеньевич" : bytes);
   ("Иванович" : bytes); ("Игоревич" : bytes); ("Константинович" : bytes); ("Михайлович" : bytes);
   ("Николаевич" : bytes); ("Олегович" : bytes); ("Павлович" : bytes); ("Петрович" : bytes);
   ("Сергеевич" : bytes); ("Фёдорович" : bytes); ("Юрьевич" : bytes)].

Definition patrF_list : list bytes :=
  [("Александровна" : bytes); ("Андреевна" : bytes); ("Борисовна" : bytes); ("Васильевна" : bytes);
   ("Викторовна" : bytes); ("Владимировна" : bytes); ("Дмитриевна" : bytes); ("Евгеньевна" : bytes);
   ("Ивановна" : bytes); ("Игоревна" : bytes); ("Константиновна" : bytes); ("Михайловна" : bytes);
   ("Николаевна" : bytes); ("Олеговна" : bytes); ("Павловна" : bytes); ("Петровна" : bytes);
   ("Сергеевна" : bytes); ("Фёдоровна" : bytes); ("Юрьевна" : bytes)].

(** [dictFS] is the embedded file system; the [sync.Once] makes the value a constant. *)
Definition LoadDict (dictFS : bytes → option bytes) : Dict :=
  MkDict (readDict (dictFS "dict/first_names.txt")) (readDict (dictFS "dict/surnames.txt"))
    patrM_list patrF_list.

Definition masculine_suffixes : list bytes :=
  [("ов" : bytes); ("ев" : bytes); ("ёв" : bytes); ("ин" : bytes); ("ын" : bytes)].

(** The first suffix of the list that [lower] ends with. *)
Definition suffix_of (lower : bytes) (sufs : list bytes) : option bytes :=
  List.find (has_suffix lower) sufs.

(** [s[:len(s)-n]] *)
Definition cut_end (s : bytes) (n : Z) : option bytes := go_slice s 0 (len s - n).

Section Names.
Context `{Unicode}.

Definition isFemaleName (name : bytes) : bool :=
  let lower := lower_string name in
  existsb (has_suffix lower) [("а" : bytes); ("я" : bytes); ("ия" : bytes); ("ья" : bytes)].

Definition feminize (s : bytes) : option bytes :=
  match suffix_of (lower_string s) masculine_suffixes with
  | Some suf => t ← cut_end s (len suf); Some (t ++ "а")
  | None => Some s
  end.

Definition genitiveSurname (s : bytes) (female : bool) : option bytes :=
  let lower := lower_string s in
  if female then
    match suffix_of lower [("ова" : bytes); ("ева" : bytes); ("ёва" : bytes); ("ина" : bytes);
                           ("ына" : bytes)] with
    | Some _ => t ← cut_end s 1; Some (t ++ "ой")
    | None => Some s
    end
  else
    match suffix_of lower masculine_suffixes with
    | Some _ => Some (s ++ "а")
    | None => Some s
    end.

(** The result is [None] when the slice panics, [Some None] for [("", false)]. *)
Definition replaceSuffix (s lower : bytes) (suffixes : list bytes) (repl : bytes) (drop : Z)
    : option (option bytes) :=
  match suffix_of lower suffixes with
  | Some _ => t ← cut_end s drop; Some (Some (t ++ repl))
  | None => Some None
  end.

Definition genitiveName (s : bytes) (female : bool) : option bytes :=
  let lower := lower_string s in
  if female then
    o1 ← replaceSuffix s lower [("ия" : bytes); ("ья" : bytes)] "и" 1;
    match o1 with
    | Some out => Some out
    | None =>
        o2 ← replaceSuffix s lower [("а" : bytes); ("я" : bytes)] "ы" 1;
        match o2 with Some out => Some out | None => Some s end
    end
  else
    o1 ← replaceSuffix s lower [("ий" : bytes); ("ей" : bytes)] "я" 2;
    match o1 with
    | Some out => Some out
    | None =>
        o2 ← replaceSuffix s lower [("й" : bytes)] "я" 1;
        match o2 with Some out => Some out | None => Some s end
    end.

Definition genitivePatr (p : bytes) : bytes :=
  let lower := lower_string p in
  if existsb (has_suffix lower) [("овна" : bytes); ("евна" : bytes); ("ична" : bytes); ("инична" : bytes)]
  then p ++ "ы"
  else if existsb (has_suffix lower) [("ович" : bytes); ("евич" : bytes); ("ич" : bytes)]
  then p ++ "а" else p.

Definition capitalize (s : bytes) : bytes :=
  if bool_decide (s = []) then s
  else
    let '(first, size) := decode_rune s in
    upper_string (encode_rune first) ++ drop size s.

Context `{Rng}.

Definition FullName (d : Dict) : rand bytes :=
  first ← pick (names d);
  surname ← pick (surnames d);
  patr ← pick (patrM d);
  if isFemaleName first then
    surname ← lift (feminize surname);
    patr ← pick (patrF d);
    mret (capitalize surname ++ " " ++ capitalize first ++ " " ++ patr)
  else mret (capitalize surname ++ " " ++ capitalize first ++ " " ++ patr).

Definition FullNameGenitive (d : Dict) : rand bytes :=
  first ← pick (names d);
  surname ← pick (surnames d);
  patr ← pick (patrM d);
  let female := isFemaleName first in
  '(surname, patr) ← (if female then
      surname ← lift (feminize surname);
      patr ← pick (patrF d);
      mret (surname, patr)
    else mret (surname, patr));
  gs ← lift (genitiveSurname (capitalize surname) female);
  gn ← lift (genitiveName (capitalize first) female);
  mret (gs ++ " " ++ gn ++ " " ++ genitivePatr patr).
End Names.

(** ** E-mail from a hash *)

Definition mask64 (n : Z) : Z := n mod 2 ^ 64.

(** [fnv.New64a]: FNV-1a with 64 bits. *)
Definition fnv64a (s : bytes) : Z :=
  foldl (λ h b, mask64 (Z.lxor h (byte_val b) * 1099511628211)) 14695981039346656037 s.

Definition hexdigits : bytes := "0123456789abcdef".

(** The loop over [b[i] = hexdigits[hash&0xf]; hash >>= 4]. *)
Fixpoint hex_low (n : nat) (hash : Z) : bytes :=
  match n with
  | O => []
  | S n => default "0"%byte (hexdigits !! Z.to_nat (Z.land hash 0xf)) :: hex_low n (Z.shiftr hash 4)
  end.

Definition HashEmail (value : bytes) : bytes := "user" ++ hex_low 6 (fnv64a value) ++ "@example.com".

Example dateWord_accepted : Forall (λ m, date (dateWord_text 1990 m 28) = true) (z_range 1 12).
Proof. apply (bool_decide_unpack _). by vm_compute. Qed.
Example synth_card : luhn (default [] (fst <$> Card 42)) = true. Proof. by vm_compute. Qed.
Example fnv_of_a : fnv64a "a" = 0xaf63dc4c8601ec8c. Proof. by vm_compute. Qed.

Arguments luhn_sum : simpl never.
Arguments weighted : simpl never.
Arguments digit_at : simpl never.

(** ** Total correctness of a generator

    [always m P]: whatever the state, [m] returns, with a value that satisfies [P]. *)

Section Always.
Context `{Rng}.

Definition always {A : Type} (m : rand A) (P : A → Prop) : Prop :=
  ∀ r, ∃ a r', m r = Some (a, r') ∧ P a.

Lemma always_ret {A : Type} (a : A) (P : A → Prop) : P a → always (mret a) P.
Proof. intros HP r. by exists a, r. Qed.

Lemma always_bind {A B : Type} (m : rand A) (f : A → rand B) P Q :
  always m P → (∀ a, P a → always (f a) Q) → always (m ≫= f) Q.
Proof.
  intros Hm Hf r. destruct (Hm r) as (a & r' & Hr & Ha). destruct (Hf a Ha r') as (b & r'' & Hb & HQ).
  exists b, r''. split; [|done]. unfold mbind, rand_bind. by rewrite Hr.
Qed.

Lemma always_impl {A : Type} (m : rand A) (P Q : A → Prop) :
  always m P → (∀ a, P a → Q a) → always m Q.
Proof. intros Hm HPQ r. destruct (Hm r) as (a & r' & ? & ?). exists a, r'. auto. Qed.

Lemma always_intn n : 0 < n → always (Intn n) (λ x, 0 <= x < n).
Proof.
  intros Hn r. unfold Intn. replace (0 <? n) with true by lia.
  pose proof (rng_intn_range r n Hn). destruct (rng_intn r n) as [x r']. by exists x, r'.
Qed.

(** A string of [n] decimal digits. *)
Definition digit_string (n : nat) (s : bytes) : Prop := length s = n ∧ forallb digit_byte s = true.

Lemma always_randDigits n : always (randDigits n) (digit_string n).
Proof.
  induction n as [|n IH]; cbn [randDigits]; [by apply always_ret|].
  eapply always_bind; [by apply always_intn|]. intros d Hd.
  eapply always_bind; [exact IH|]. intros s [Hl Hs]. apply always_ret.
  split; [simpl; by rewrite Hl|]. cbn [forallb]. rewrite Hs, digit_byte_of; [done|].
  unfold clamp_digit. case_match; lia.
Qed.

Lemma digit_string_app n m s t : digit_string n s → digit_string m t → digit_string (n + m) (s ++ t).
Proof. intros [<- Hs] [<- Ht]. split; [apply length_app|]. by rewrite forallb_app, Hs, Ht. Qed.

Lemma digit_string_digits n s : digit_string n s → digits s = s ∧ len s = Z.of_nat n.
Proof. intros [<- Hs]. split; [by apply digits_all|done]. Qed.
End Always.

(** Steps through a generator, using what is known of its parts. *)
Ltac gen_step :=
  first
    [ eapply always_bind; [apply always_randDigits|]
    | eapply always_bind; [by apply always_intn|]
    | apply always_ret ].

(** ** Check digits complete a number to a valid one *)

Lemma string_of_digit d : 0 <= d <= 9 → string_of_byte (byte_of (0x30 + d)) = [byte_of (0x30 + d)].
Proof.
  intros. unfold string_of_byte. rewrite byte_val_of, encode_ascii by lia. done.
Qed.

Lemma digit_string_1 d : 0 <= d <= 9 → digit_string 1 [byte_of (0x30 + d)].
Proof. intros. split; [done|]. cbn [forallb]. by rewrite digit_byte_of by lia. Qed.

Lemma luhn_complete body n :
  digit_string n body → 12 <= Z.of_nat n <= 18 →
  let s := body ++ string_of_byte (luhnCheckDigit body) in luhn s = true ∧ digit_string (n + 1) s.
Proof.
  intros Hb Hn. unfold luhnCheckDigit.
  rewrite string_of_digit by (Z.div_mod_to_equations; lia). set (c := (10 - _) mod 10).
  assert (0 <= c <= 9) by (unfold c; Z.div_mod_to_equations; lia).
  pose proof (digit_string_app _ _ _ _ Hb (digit_string_1 c ltac:(lia))) as Hs.
  split; [|done]. apply luhn_true. destruct (digit_string_digits _ _ Hs) as [-> ->]. split; [lia|].
  rewrite luhn_sum_rev, rev_app_distr. cbn [rev app luhn_rev luhn_digit negb].
  rewrite digit_val_of, <- luhn_sum_rev by lia. unfold c. Z.div_mod_to_equations; lia.
Qed.

Lemma digit_at_app_l s t i : 0 <= i < len s → digit_at (s ++ t) i = digit_at s i.
Proof. intros. unfold digit_at, byte_at. by rewrite lookup_app_l by (unfold len in *; lia). Qed.

Lemma digit_at_app_r s d t i :
  i = len s → 0 <= d <= 9 → digit_at (s ++ byte_of (0x30 + d) :: t) i = d.
Proof.
  intros ->. intros. unfold digit_at, byte_at. rewrite list_lookup_middle by (unfold len; lia).
  cbn [default]. simpl. rewrite byte_val_of; lia.
Qed.

Lemma weighted_from_app s t i ws :
  0 <= i → i + Z.of_nat (length ws) <= len s → weighted_from i (s ++ t) ws = weighted_from i s ws.
Proof.
  revert i. induction ws as [|w ws IH]; intros i Hi Hl; [done|]. cbn [weighted_from length] in *.
  rewrite digit_at_app_l, IH; [done|lia..].
Qed.

Lemma weighted_app s t ws : Z.of_nat (length ws) <= len s → weighted (s ++ t) ws = weighted s ws.
Proof. intros. apply weighted_from_app; lia. Qed.

Lemma inn12_complete base :
  digit_string 10 base →
  let n11 := innControl base inn12_w1 in
  let n12 := innControl (base ++ string_of_byte n11) inn12_w2 in
  let s := base ++ string_of_byte n11 ++ string_of_byte n12 in
  inn s = true ∧ digit_string 12 s.
Proof.
  intros Hb. unfold innControl. rewrite !string_of_digit by (Z.div_mod_to_equations; lia).
  set (c1 := weighted base _ mod 11 mod 10). set (c2 := weighted (base ++ _) _ mod 11 mod 10).
  assert (0 <= c1 <= 9) by (unfold c1; Z.div_mod_to_equations; lia).
  assert (0 <= c2 <= 9) by (unfold c2; Z.div_mod_to_equations; lia).
  pose proof (digit_string_app _ _ _ _ Hb (digit_string_1 c1 ltac:(lia))) as H1.
  pose proof (digit_string_app _ _ _ _ H1 (digit_string_1 c2 ltac:(lia))) as Hs.
  destruct (digit_string_digits _ _ Hb) as [_ Hl]. destruct (digit_string_digits _ _ H1) as [_ Hl1].
  rewrite <- app_assoc in Hs. split; [|done]. unfold inn.
  destruct (digit_string_digits _ _ Hs) as [-> ->].
  change (Z.of_nat _ =? 10) with false. change (Z.of_nat _ =? 12) with true. cbv iota.
  unfold inn12. apply andb_true_iff. split; apply Z.eqb_eq.
  - rewrite weighted_app by (by rewrite Hl). fold c1.
    symmetry. apply (digit_at_app_r base c1); lia.
  - rewrite app_assoc, weighted_app by (by rewrite Hl1). fold c2.
    symmetry. apply digit_at_app_r; lia.
Qed.

Lemma inn10_complete base :
  digit_string 9 base →
  let s := base ++ string_of_byte (innControl base inn10_weights) in
  inn s = true ∧ digit_string 10 s.
Proof.
  intros Hb. unfold innControl. rewrite !string_of_digit by (Z.div_mod_to_equations; lia).
  set (c := weighted base _ mod 11 mod 10).
  assert (0 <= c <= 9) by (unfold c; Z.div_mod_to_equations; lia).
  pose proof (digit_string_app _ _ _ _ Hb (digit_string_1 c ltac:(lia))) as Hs.
  destruct (digit_string_digits _ _ Hb) as [_ Hl]. split; [|done]. unfold inn.
  destruct (digit_string_digits _ _ Hs) as [-> ->]. change (Z.of_nat _ =? 10) with true. cbv iota.
  unfold inn10. apply Z.eqb_eq. rewrite weighted_app by (by rewrite Hl). fold c.
  symmetry. apply digit_at_app_r; lia.
Qed.

Lemma twoDigits_table :
  Forall (λ n, twoDigits n = [byte_of (0x30 + n / 10); byte_of (0x30 + n mod 10)]) (z_range 0 99).
Proof. apply (bool_decide_unpack _). by vm_compute. Qed.

Lemma twoDigits_spec n :
  0 <= n <= 99 → twoDigits n = [byte_of (0x30 + n / 10); byte_of (0x30 + n mod 10)].
Proof. intros Hn%z_range_spec. pose proof twoDigits_table as H. rewrite Forall_forall in H. auto. Qed.

Lemma twoDigits_string n : 0 <= n <= 99 → digit_string 2 (twoDigits n).
Proof.
  intros Hn. rewrite twoDigits_spec by done. split; [done|]. cbn [forallb].
  rewrite !digit_byte_of by (Z.div_mod_to_equations; lia). done.
Qed.

Lemma digit_at_bound s i : forallb digit_byte s = true → 0 <= i < len s → 0 <= digit_at s i <= 9.
Proof.
  intros Hs Hi. unfold digit_at, byte_at. unfold len in Hi.
  destruct (lookup_lt_is_Some_2 s (Z.to_nat i)) as [b Hb]; [lia|]. rewrite Hb. cbn.
  rewrite forallb_forall in Hs. apply list_elem_of_lookup_2, list_elem_of_In, Hs in Hb.
  apply digit_byte_range in Hb. unfold digit_val in Hb. lia.
Qed.

Lemma weighted_from_bound d i ws :
  forallb digit_byte d = true → 0 <= i → i + Z.of_nat (length ws) <= len d →
  Forall (λ w, 0 <= w) ws → 0 <= weighted_from i d ws <= 9 * foldr Z.add 0 ws.
Proof.
  intros Hd Hi Hl Hw. revert i Hi Hl. induction Hw as [|w ws Hw _ IH]; intros i Hi Hl; simpl; [lia|].
  cbn [length] in Hl. pose proof (digit_at_bound d i Hd ltac:(lia)).
  specialize (IH (i + 1) ltac:(lia) ltac:(lia)). nia.
Qed.

Lemma weighted_snils_bound base :
  digit_string 9 base → 0 <= weighted base snils_weights <= 405.
Proof.
  intros [Hl Hs]. pose proof (weighted_from_bound base 0 snils_weights Hs) as Hb. apply Hb.
  - lia.
  - unfold len. by rewrite Hl.
  - unfold snils_weights. repeat constructor; lia.
Qed.

Lemma snils_complete base :
  digit_string 9 base →
  let s := base ++ twoDigits (snils_control (weighted base snils_weights)) in
  snils s = true ∧ digit_string 11 s.
Proof.
  intros Hb. pose proof (weighted_snils_bound base Hb). set (c := snils_control _).
  assert (0 <= c <= 99) as Hc.
  { unfold c, snils_control. repeat case_match; Z.div_mod_to_equations; lia. }
  pose proof (digit_string_app _ _ _ _ Hb (twoDigits_string c Hc)) as Hs.
  destruct (digit_string_digits _ _ Hb) as [_ Hl]. split; [|done]. unfold snils.
  destruct (digit_string_digits _ _ Hs) as [-> ->]. change (negb (Z.of_nat _ =? 11)) with false. cbv iota.
  apply Z.eqb_eq. rewrite weighted_app by (by rewrite Hl). fold c.
  rewrite twoDigits_spec by done. rewrite digit_at_app_r by (Z.div_mod_to_equations; lia).
  change (base ++ [?x; ?y]) with (base ++ [x] ++ [y]). rewrite app_assoc.
  rewrite digit_at_app_r; [Z.div_mod_to_equations; lia| |Z.div_mod_to_equations; lia].
  rewrite len_app. change (len [_]) with 1. lia.
Qed.

Lemma phone_79 s : digit_string 9 s → phone ("7" ++ "9" ++ s) = true ∧ digit_string 11 ("7" ++ "9" ++ s).
Proof.
  intros Hs. assert (digit_string 11 ("7" ++ "9" ++ s)) as H11 by (by apply (digit_string_app 2 9 "79")).
  split; [|done]. unfold phone. destruct (digit_string_digits _ _ H11) as [-> ->]. done.
Qed.

(** ** Generated dates *)

Lemma daysInMonth_pos y m : 1 <= m <= 12 → 28 <= daysInMonth y m <= 31.
Proof.
  intros Hm%z_range_spec. unfold daysInMonth. case_match; [lia|].
  assert (Forall (λ m, 28 <= daysInMonth_table !!! Z.to_nat (m - 1) <= 31) (z_range 1 12)) as Ht
    by (apply (bool_decide_unpack _); by vm_compute).
  rewrite Forall_forall in Ht. auto.
Qed.

Lemma daysInMonth_validYMD y m d :
  1900 <= y <= 2100 → 1 <= m <= 12 → 1 <= d <= daysInMonth y m → calendar_date y m d.
Proof.
  intros Hy Hm Hd. apply (bool_decide_eq_true (calendar_date y m d)).
  rewrite <- validYMD_calendar.
  unfold validYMD, inRange. replace (_ || _ || _) with false by lia.
  assert (isLeap y && (m =? 2) = (m =? 2) && isLeapYear y) as -> by apply andb_comm.
  unfold daysInMonth in Hd. destruct (m =? 2) eqn:E; cbn [andb] in *; [|lia].
  destruct (isLeapYear y); [|lia]. assert (m = 2) as -> by lia.
  change (<[1%nat:=29]> daysInMonth_table !!! Z.to_nat (2 - 1)) with 29. lia.
Qed.

Section Dates.
Context `{Rng}.

Lemma always_rand_date : always rand_date (λ '(y, m, d),
  1950 <= y <= 2005 ∧ 1 <= m <= 12 ∧ 1 <= d <= daysInMonth y m).
Proof.
  unfold rand_date. gen_step. intros y Hy. gen_step. intros m Hm. cbv beta in *.
  pose proof (daysInMonth_pos (1950 + y) (1 + m) ltac:(lia)).
  eapply always_bind; [apply always_intn; lia|]. intros d Hd.
  apply always_ret. cbv beta iota in *. lia.
Qed.

Lemma itoa_number y : 1950 <= y <= 2005 → number (itoa y).
Proof.
  intros Hy%z_range_spec. assert (Forall (λ y, number (itoa y)) (z_range 1950 2005)) as Ht
    by (apply (bool_decide_unpack _); by vm_compute).
  rewrite Forall_forall in Ht. auto.
Qed.

Lemma number_of_digits n s : digit_string n s → (0 < n <= 18)%nat → number s.
Proof. intros [Hl Hs] Hn. unfold number, len. rewrite Hl. destruct s; [simpl in Hl|]; split_and!; (done || lia). Qed.
End Dates.

(** The text [Date] builds has two separated parts only. *)
Lemma date_two_parts `{Unicode} p q : number p → number q → date (p ++ "." ++ q) = false.
Proof.
  intros Hp Hq. change ("." ++ q) with ("."%byte :: q).
  assert (forallb numeric_byte (p ++ "."%byte :: q) = true) as Hs.
  { rewrite forallb_app. cbn [forallb]. rewrite !number_numeric; done. }
  rewrite date_numeric_text by done. unfold numericParts.
  assert (forallb numeric_byte q = true) as Hsq by (by apply number_numeric).
  rewrite fields_func_cons; [|by apply numeric_ascii|apply Hp|by apply number_no_sep|done].
  rewrite fields_func_last; [done|by apply numeric_ascii|apply Hq|by apply number_no_sep].
Qed.

(** ** The numbers are valid *)

Section Numbers.
Context `{Rng}.

Lemma always_Card : always Card (λ s, luhn s = true ∧ digit_string 16 s).
Proof.
  unfold Card. gen_step. intros coin _. gen_step. intros d2 H2. gen_step. intros d12 H12.
  apply always_ret, (luhn_complete _ 15); [|lia].
  apply (digit_string_app 3 12); [|done]. apply (digit_string_app 1 2); [|done].
  by destruct (coin =? 0).
Qed.

Lemma always_INN : always INN (λ s, inn s = true ∧ digit_string 12 s).
Proof. unfold INN. gen_step. intros base Hb. apply always_ret. by apply inn12_complete. Qed.

Lemma always_INN10 : always INN10 (λ s, inn s = true ∧ digit_string 10 s).
Proof. unfold INN10. gen_step. intros base Hb. apply always_ret. by apply inn10_complete. Qed.

Lemma always_SNILS : always SNILS (λ s, snils s = true ∧ digit_string 11 s).
Proof. unfold SNILS. gen_step. intros base Hb. apply always_ret. by apply snils_complete. Qed.

Lemma always_Phone : always Phone (λ s, phone s = true ∧ digit_string 11 s).
Proof. unfold Phone. gen_step. intros ds Hs. apply always_ret. by apply phone_79. Qed.
End Numbers.

(** ** Properties *)

(** C32: whatever the generator draws, the fake card, tax, insurance and phone
    numbers pass the service's own validators, and the dates in words are dates of
    the calendar. *)
Theorem synth_values_valid `{Unicode} `{Rng} :
  always Card (λ s, luhn s = true ∧ digit_string 16 s) ∧
  always INN (λ s, inn s = true ∧ digit_string 12 s) ∧
  always INN10 (λ s, inn s = true ∧ digit_string 10 s) ∧
  always SNILS (λ s, snils s = true ∧ digit_string 11 s) ∧
  always Phone (λ s, phone s = true ∧ digit_string 11 s) ∧
  always DateWord (λ s, ∃ y m d, s = dateWord_text y m d ∧ calendar_date y m d).
Proof.
  split_and!; [apply always_Card|apply always_INN|apply always_INN10|apply always_SNILS|apply always_Phone|].
  unfold DateWord. eapply always_bind; [apply always_rand_date|].
  intros [[y m] d] (Hy & Hm & Hd). apply always_ret.
  exists y, m, d. split; [done|]. apply daysInMonth_validYMD; lia.
Qed.

(** [Date] leaves out the separator before the year, so none of its values is
    a date to the service's own validator. *)
Lemma synth_Date_invalid `{Unicode} `{Rng} : always Date (λ s, date s = false).
Proof.
  unfold Date. eapply always_bind; [apply always_rand_date|].
  intros [[y m] d] (Hy & Hm & Hd). apply always_ret.
  pose proof (daysInMonth_pos y m Hm).
  apply date_two_parts; [apply (number_of_digits 2); [|lia]; apply twoDigits_string; lia|].
  destruct (itoa_number y Hy) as (Hne & Hdig & Hl).
  destruct (twoDigits_string m ltac:(lia)) as [Hl2 Hd2]. split_and!.
  - intros [E _]%app_nil. by rewrite E in Hl2.
  - by rewrite forallb_app, Hd2, Hdig.
  - rewrite len_app. unfold len at 1. rewrite Hl2.
    assert (Forall (λ y, len (itoa y) = 4) (z_range 1950 2005)) as Ht
      by (apply (bool_decide_unpack _); by vm_compute).
    rewrite Forall_forall in Ht. rewrite Ht by (by apply z_range_spec). lia.
Qed.

(** The genitive of a feminine name cuts its last letter, of two bytes, in
    half, and the feminine form of a surname loses its suffix. *)
Lemma synth_name_forms :
  (∃ g, genitiveName "Анна" true = Some g ∧ ¬ utf8_valid g) ∧
  feminize "Иванов" = Some ("Ивана" : bytes).
Proof.
  split; [|by vm_compute]. eexists. split; [by vm_compute|].
  intros Hv. apply (bool_decide_pack _) in Hv. by vm_compute in Hv.
Qed.
