(* ===== verification/Synthetic.v ===== *)
(** * The strategy [synthetic]

    Models [internal/mask/synthetic.go]: fake values of the same format, drawn from
    a generator seeded with a hash of category and value. [None] is a run-time
    panic. *)

From S2P Require Import Prelude GoText Regexp Pii Mask Strategies Validators Synth Dict.

(** ** Dictionaries *)

Record syntheticStrategy := MkSynthetic {
  ss_names : list bytes; ss_surnames : list bytes; ss_patrM : list bytes; ss_patrF : list bytes
}.

(** [readSynthDict], whose body is that of [synth.readDict]. *)
Definition readSynthDict (data : option bytes) : list bytes := readDict data.

(** [load]: the [sync.Once] makes the dictionaries constants. *)
Definition load (synthFS : bytes → option bytes) : syntheticStrategy :=
  MkSynthetic (readSynthDict (synthFS "dict/first_names.txt"))
    (readSynthDict (synthFS "dict/surnames.txt")) patrM_list patrF_list.

Definition monthWords : list bytes := monthGenitiveList.

(** ** Digits *)

Definition ascii_digit_byte (b : byte) : bool := digit_byte b.

Definition digitsOnly (s : bytes) : bytes := List.filter ascii_digit_byte s.

Fixpoint applyDigits (value fake : bytes) : bytes :=
  match value with
  | [] => []
  | b :: value =>
      if ascii_digit_byte b then
        match fake with
        | f :: fake => f :: applyDigits value fake
        | [] => b :: applyDigits value []
        end
      else b :: applyDigits value fake
  end.

(** ** Seeding *)

(** [seed := int64(sum &^ (1 << 63))] *)
Definition newSeeded `{Rng} (cat : Category) (value : bytes) : rng_state :=
  let sum := fnv64a (cat ++ ["000"%byte] ++ value) in
  rng_seed (Z.ldiff sum (Z.shiftl 1 63)).

Section Synthetic.
Context `{Unicode} `{Rng}.

Definition tokenFallback (value : bytes) (cat : Category) (doc : option DocState)
    : bytes * option DocState :=
  match memo_hit doc value with
  | Some m => (m, doc)
  | None =>
      let '(n, doc) := next_number doc cat in
      let repl := "[" ++ upper_string cat ++ "_" ++ itoa n ++ "]" in
      (repl, remember doc value repl)
  end.

(** ** Names *)

Definition isFemaleName (value : bytes) : bool :=
  match last (fields value) with
  | None => false
  | Some w =>
      let lower := lower_string w in
      existsb (has_suffix lower) [("овна" : bytes); ("евна" : bytes); ("ична" : bytes); ("инична" : bytes)] ||
      existsb (has_suffix lower)
        [("ова" : bytes); ("ева" : bytes); ("ёва" : bytes); ("ина" : bytes); ("ына" : bytes);
         ("ская" : bytes); ("цкая" : bytes)]
  end.

Definition feminize (s : bytes) : option bytes :=
  match suffix_of (lower_string s) masculine_suffixes with
  | Some suf => t ← cut_end s (len suf); Some (t ++ suf ++ "а")
  | None => Some s
  end.

Definition capitalize (s : bytes) : bytes :=
  if bool_decide (s = []) then s
  else
    let '(first, size) := decode_rune s in
    upper_string (encode_rune first) ++ drop size s.

Definition rand_name (d : syntheticStrategy) (female : bool) : rand (bytes * bytes * bytes) :=
  first ← pick (ss_names d);
  surname ← pick (ss_surnames d);
  surname ← lift (if female then feminize surname else Some surname);
  patr ← pick (ss_patrM d);
  patr ← (if female then pick (ss_patrF d) else mret patr);
  mret (capitalize first, capitalize surname, patr).

(** The result of the draws; the generator is not used afterwards. *)
Definition drawn {A} (m : rand A) (rng : rng_state) : option A := fst <$> m rng.

Definition synthName (d : syntheticStrategy) (value : bytes) (cat : Category) (rng : rng_state)
    (doc : option DocState) : option (bytes * option DocState) :=
  let words := fields value in
  if bool_decide (words = []) || bool_decide (ss_names d = []) || bool_decide (ss_surnames d = []) ||
     bool_decide (ss_patrM d = []) || bool_decide (ss_patrF d = [])
  then Some (tokenFallback value cat doc)
  else
    '(first, surname, patr) ← drawn (rand_name d (isFemaleName value)) rng;
    Some (match words with
          | [_] => surname
          | [_; _] => surname ++ " " ++ first
          | _ => surname ++ " " ++ first ++ " " ++ patr
          end, doc).

(** ** Numbers *)

(** The common shape of [synthPhone], [synthINN], [synthSNILS], [synthPassport]. *)
Definition synth_number (ok : Z → bool) (fake : rand bytes) (value : bytes) (cat : Category)
    (rng : rng_state) (doc : option DocState) : option (bytes * option DocState) :=
  if negb (ok (len (digitsOnly value))) then Some (tokenFallback value cat doc)
  else
    f ← drawn fake rng;
    Some (applyDigits value f, doc).

Definition synthPhone := synth_number (Z.eqb 11) Phone.
Definition synthCard := synth_number (λ n, negb ((n <? 13) || (19 <? n))) Card.
Definition synthINN := synth_number (Z.eqb 12) INN.
Definition synthSNILS := synth_number (Z.eqb 11) SNILS.
Definition synthPassport := synth_number (Z.eqb 10) Passport.

(** ** Dates *)

Definition isWordDate (value : bytes) : bool :=
  let lower := lower_string value in existsb (str_contains lower) monthWords.

Definition dateTailGoda : bytes := "года".
Definition dateTailG : bytes := "г.".

Definition synthDateWord (value : bytes) (rng : rng_state) : option bytes :=
  '(year, month, day) ← drawn rand_date rng;
  let tail := if has_suffix (lower_string value) dateTailG then dateTailG else dateTailGoda in
  word ← monthWords !! Z.to_nat (month - 1);
  Some (itoa day ++ " " ++ word ++ " " ++ itoa year ++ " " ++ tail).

(** The first byte that is not a digit; [None] for [sep == 0]. *)
Fixpoint first_separator (value : bytes) : option byte :=
  match value with
  | [] => None
  | b :: value => if ascii_digit_byte b then first_separator value
                  else if byte_val b =? 0 then None else Some b
  end.

(** [strings.IndexByte] *)
Definition index_byte (s : bytes) (b : byte) : Z := str_index s [b].

Definition synthDateNumeric (value : bytes) (cat : Category) (rng : rng_state)
    (doc : option DocState) : option (bytes * option DocState) :=
  match first_separator value with
  | None => Some (tokenFallback value cat doc)
  | Some sep =>
      '(year, month, day) ← drawn rand_date rng;
      let dd := twoDigits day in
      let mm := twoDigits month in
      let yy := itoa year in
      let n := len (digitsOnly value) in
      let sp := string_of_byte sep in
      Some (if n =? 6 then (dd ++ sp ++ mm ++ sp ++ itoa (Z.rem year 100), doc)
            else if n =? 8 then
              if index_byte value sep =? 4 then (yy ++ sp ++ mm ++ sp ++ dd, doc)
              else (dd ++ sp ++ mm ++ sp ++ yy, doc)
            else tokenFallback value cat doc)
  end.

Definition synthDate (value : bytes) (cat : Category) (rng : rng_state) (doc : option DocState)
    : option (bytes * option DocState) :=
  if isWordDate value then out ← synthDateWord value rng; Some (out, doc)
  else synthDateNumeric value cat rng doc.

Definition synthEmail (value : bytes) : bytes := HashEmail value.

(** ** The strategy *)

Definition synthFor (d : syntheticStrategy) (value : bytes) (cat : Category) (rng : rng_state)
    (doc : option DocState) : option (bytes * option DocState) :=
  if decide (cat = CatFullName) then synthName d value cat rng doc
  else if decide (cat = CatPhone) then synthPhone value cat rng doc
  else if decide (cat = CatCardNumber) then synthCard value cat rng doc
  else if decide (cat = CatINN) then synthINN value cat rng doc
  else if decide (cat = CatSNILS) then synthSNILS value cat rng doc
  else if decide (cat = CatPassport) then synthPassport value cat rng doc
  else if decide (cat = CatDate) then synthDate value cat rng doc
  else if decide (cat = CatBirthDate) then synthDate value cat rng doc
  else if decide (cat = CatPassportDate) then synthDate value cat rng doc
  else if decide (cat = CatEmail) then Some (synthEmail value, doc)
  else Some (tokenFallback value cat doc).

Definition syntheticMask (d : syntheticStrategy) (value : bytes) (cat : Category)
    (doc : option DocState) : option (bytes * option DocState) :=
  match memo_hit doc value with
  | Some m => Some (m, doc)
  | None =>
      '(out, doc) ← synthFor d value cat (newSeeded cat value) doc;
      Some (out, remember doc value out)
  end.

Definition NewSynthetic (synthFS : bytes → option bytes) : Strategy :=
  MkStrategy "synthetic" (syntheticMask (load synthFS)).
End Synthetic.


(** ** [applyDigits] *)

(** Digits stand where digits stood, every other byte is kept. *)
Definition keeps_shape (value out : bytes) : Prop :=
  Forall2 (λ b c, digit_byte c = digit_byte b ∧ (digit_byte b = false → c = b)) value out.

Lemma applyDigits_shape value fake :
  forallb digit_byte fake = true → keeps_shape value (applyDigits value fake).
Proof.
  revert fake. induction value as [|b value IH]; intros fake Hf; cbn [applyDigits]; [constructor|].
  unfold ascii_digit_byte. destruct (digit_byte b) eqn:E; [destruct fake as [|f fake]|].
  - constructor; [by rewrite E|]. by apply IH.
  - cbn [forallb] in Hf. apply andb_true_iff in Hf as [Hb Hf].
    constructor; [by rewrite E, Hb|by apply IH].
  - constructor; [by rewrite E|by apply IH].
Qed.

(** The digits of the result: fake ones as long as they last, then the original ones. *)
Lemma applyDigits_digits value fake :
  forallb digit_byte fake = true →
  digitsOnly (applyDigits value fake) =
  take (length (digitsOnly value)) fake ++ drop (length fake) (digitsOnly value).
Proof.
  unfold digitsOnly, ascii_digit_byte. revert fake.
  induction value as [|b value IH]; intros fake Hf; cbn [applyDigits List.filter]; [by destruct fake|].
  unfold ascii_digit_byte. destruct (digit_byte b) eqn:E; cbn [List.filter].
  - destruct fake as [|f fake]; cbn [List.filter].
    + rewrite E, IH by done. simpl. by rewrite take_nil, drop_0.
    + cbn [forallb] in Hf. apply andb_true_iff in Hf as [Hb Hf].
      rewrite Hb, IH by done. done.
  - by rewrite E, IH.
Qed.

Lemma applyDigits_replaced value fake n :
  digit_string n fake → length (digitsOnly value) = n → digits (applyDigits value fake) = fake.
Proof.
  intros [Hl Hf] Hn. rewrite digits_bytes. fold (digitsOnly (applyDigits value fake)).
  rewrite applyDigits_digits by done. rewrite Hn, Hl.
  rewrite <- Hl at 1. rewrite firstn_all, drop_ge by lia. apply app_nil_r.
Qed.

Lemma applyDigits_length value fake : length (applyDigits value fake) = length value.
Proof.
  revert fake. induction value as [|b value IH]; intros fake; cbn [applyDigits]; [done|].
  repeat case_match; simpl; by rewrite IH.
Qed.

(** A validator of numbers looks at the digits only. *)
Definition digits_only_check (check : bytes → bool) : Prop :=
  ∀ s t, digits s = digits t → check s = check t.

Lemma digits_idemp s : digits (digits s) = digits s.
Proof. apply digits_all. apply forallb_forall. intros b Hb. pose proof (digits_digit s) as H.
  rewrite Forall_forall in H. apply H. by apply list_elem_of_In. Qed.

Section Numbers.
Context `{Unicode} `{Rng}.

Lemma drawn_always {A : Type} (m : rand A) P rng : always m P → ∃ a, drawn m rng = Some a ∧ P a.
Proof. intros Hm. destruct (Hm rng) as (a & r' & E & Ha). exists a. unfold drawn. by rewrite E. Qed.

(** The result of a numeric generator: valid, and of the shape of the value. *)
Lemma synth_number_valid ok fake check n value cat rng doc :
  always fake (λ s, check s = true ∧ digit_string n s) → digits_only_check check →
  length (digitsOnly value) = n → ok (Z.of_nat n) = true →
  ∃ out, synth_number ok fake value cat rng doc = Some (out, doc) ∧ check out = true ∧
    keeps_shape value out.
Proof.
  intros Hf Hc Hn Hok. unfold synth_number, len. rewrite Hn, Hok. cbn [negb].
  destruct (drawn_always fake _ rng Hf) as (f & -> & Hv & Hd). cbn [mbind option_bind].
  eexists. split; [done|]. split; [|apply applyDigits_shape, Hd].
  rewrite <- Hv. apply Hc. rewrite (applyDigits_replaced _ _ n) by done.
  symmetry. apply digits_all, Hd.
Qed.

(** The numeric categories: how many digits are replaced, by whom, and which
    validator the fake value passes. *)
Inductive numeric_format : Category → nat → (bytes → bool) → Prop :=
| format_phone : numeric_format CatPhone 11 phone
| format_card : numeric_format CatCardNumber 16 luhn
| format_inn : numeric_format CatINN 12 inn
| format_snils : numeric_format CatSNILS 11 snils.

Lemma format_check cat n check : numeric_format cat n check → digits_only_check check.
Proof. destruct 1; intros s t E; [unfold phone|unfold luhn|unfold inn|unfold snils]; by rewrite E. Qed.

Lemma synthFor_number d cat n check value rng doc :
  numeric_format cat n check → length (digitsOnly value) = n →
  ∃ out, synthFor d value cat rng doc = Some (out, doc) ∧ check out = true ∧ keeps_shape value out.
Proof.
  intros Hf Hn. pose proof (format_check _ _ _ Hf) as Hc. pose proof always_Card as Hcard.
  pose proof always_INN as Hinn. pose proof always_SNILS as Hsnils. pose proof always_Phone as Hphone.
  destruct Hf; [change (synthFor d value CatPhone rng doc) with (synthPhone value CatPhone rng doc)
    |change (synthFor d value CatCardNumber rng doc) with (synthCard value CatCardNumber rng doc)
    |change (synthFor d value CatINN rng doc) with (synthINN value CatINN rng doc)
    |change (synthFor d value CatSNILS rng doc) with (synthSNILS value CatSNILS rng doc)];
    eapply synth_number_valid; done.
Qed.
End Numbers.

(** ** The strategy returns, and never an empty replacement *)

Lemma encode_runes_nonempty rs : rs ≠ [] → encode_runes rs ≠ [].
Proof.
  destruct rs as [|r rs]; [done|]. unfold encode_runes. simpl. intros _ [E _]%app_nil.
  by apply (encode_rune_nonempty r).
Qed.

Lemma decimal_nonempty n : 0 <= n → decimal n ≠ [].
Proof.
  intros Hn E. pose proof (decimal_val n Hn) as Hv. unfold decimal in *.
  destruct (n =? 0) eqn:E0; [done|]. rewrite E in Hv. change (digits_val []) with 0 in Hv. lia.
Qed.

Lemma has_suffix_len s p : has_suffix s p = true → len p <= len s.
Proof. unfold has_suffix. lia. Qed.

Section Total.
Context `{Unicode} `{Rng}.

Lemma capitalize_nonempty s : s ≠ [] → capitalize s ≠ [].
Proof.
  intros Hs. unfold capitalize. rewrite bool_decide_false by done.
  destruct (decode_rune s) as [r n]. intros [E _]%app_nil.
  apply encode_runes_nonempty in E; [done|]. unfold runes.
  intros [=E']%map_eq_nil%map_eq_nil. revert E'. apply chunks_not_nil, encode_rune_nonempty.
Qed.

Lemma tokenFallback_nonempty value cat doc : (tokenFallback value cat doc).1 ≠ [].
Proof.
  unfold tokenFallback. destruct (memo_hit doc value) eqn:E; [by eapply memo_hit_nonempty|].
  by destruct (next_number doc cat).
Qed.

Lemma synth_number_nonempty ok fake value cat rng doc :
  value ≠ [] → always fake (λ _, True) →
  ∃ r doc', synth_number ok fake value cat rng doc = Some (r, doc') ∧ r ≠ [].
Proof.
  intros Hv Hf. unfold synth_number. destruct (negb (ok _)).
  - destruct (tokenFallback value cat doc) as [r doc'] eqn:E. exists r, doc'. split; [done|].
    pose proof (tokenFallback_nonempty value cat doc). by rewrite E in *.
  - destruct (drawn_always fake _ rng Hf) as (f & -> & _). cbn [mbind option_bind].
    do 2 eexists. split; [done|]. intros E. apply (f_equal length) in E.
    rewrite applyDigits_length in E. by destruct value.
Qed.

Lemma synthDateWord_nonempty value rng : ∃ out, synthDateWord value rng = Some out ∧ out ≠ [].
Proof.
  unfold synthDateWord. destruct (drawn_always _ _ rng always_rand_date) as ([[y m] d] & -> & Hy & Hm & Hd).
  cbn [mbind option_bind].
  destruct (lookup_lt_is_Some_2 monthWords (Z.to_nat (m - 1))) as [w ->].
  { change (length monthWords) with 12%nat. lia. }
  cbn [mbind option_bind]. eexists. split; [done|]. intros [E _]%app_nil.
  by apply decimal_nonempty in E; [|lia].
Qed.

Lemma app_nonempty_r (s t : bytes) : t ≠ [] → s ++ t ≠ [].
Proof. intros Ht [_ ?]%app_nil. done. Qed.

Lemma app_nonempty_l (s t : bytes) : s ≠ [] → s ++ t ≠ [].
Proof. intros Ht [? _]%app_nil. done. Qed.

Lemma synthDate_nonempty value cat rng doc :
  ∃ r doc', synthDate value cat rng doc = Some (r, doc') ∧ r ≠ [].
Proof.
  assert (∃ r doc', Some (tokenFallback value cat doc) = Some (r, doc') ∧ r ≠ []) as Hfb.
  { destruct (tokenFallback value cat doc) as [r doc'] eqn:E. exists r, doc'. split; [done|].
    pose proof (tokenFallback_nonempty value cat doc). by rewrite E in *. }
  unfold synthDate. destruct (isWordDate value).
  { destruct (synthDateWord_nonempty value rng) as (out & -> & ?). by exists out, doc. }
  unfold synthDateNumeric. destruct (first_separator value) as [sep|]; [|done].
  destruct (drawn_always _ _ rng always_rand_date) as ([[y m] d] & -> & _).
  cbn [mbind option_bind]. repeat case_match; try done;
    (do 2 eexists; split; [done|]); repeat first [apply app_nonempty_r; apply encode_rune_nonempty
      | apply app_nonempty_r, app_nonempty_l, encode_rune_nonempty].
Qed.

(** The names that [feminize] can cut: it never slices below zero. *)
Definition dict_ok (d : syntheticStrategy) : Prop :=
  Forall (λ s, s ≠ [] ∧ is_Some (feminize s)) (ss_surnames d).

Lemma feminize_nonempty s t : s ≠ [] → feminize s = Some t → t ≠ [].
Proof.
  unfold feminize. intros Hs. destruct (suffix_of _ _); [|by intros [= <-]].
  destruct (cut_end _ _); simpl; [|done]. intros [= <-]. by apply app_nonempty_r, app_nonempty_r.
Qed.

Lemma always_pick l P : l ≠ [] → Forall P l → always (pick l) P.
Proof.
  intros Hl HP. unfold pick. eapply always_bind; [apply always_intn; destruct l; [done|simpl; lia]|].
  intros i Hi. cbv beta in Hi. destruct (lookup_lt_is_Some_2 l (Z.to_nat i)) as [w Hw]; [lia|].
  intros r. exists w, r. unfold lift. rewrite Hw. split; [done|].
  eapply Forall_lookup_1; done.
Qed.

Lemma always_rand_name d female :
  dict_ok d → ss_names d ≠ [] → ss_surnames d ≠ [] → ss_patrM d ≠ [] → ss_patrF d ≠ [] →
  always (rand_name d female) (λ '(_, surname, _), surname ≠ []).
Proof.
  intros Hd Hn Hs Hm Hf. unfold rand_name.
  eapply always_bind; [apply (always_pick _ (λ _, True)); [done|by apply Forall_true]|]. intros first _.
  eapply always_bind; [by apply (always_pick _ _ Hs Hd)|]. intros surname [Hne [t Ht]].
  eapply (always_bind _ _ (λ s, s ≠ [])).
  { intros r. destruct female; [exists t, r|exists surname, r]; (split; [|done || by eapply feminize_nonempty]).
    - unfold lift. by rewrite Ht.
    - done. }
  intros surname' Hne'.
  eapply always_bind; [apply (always_pick _ (λ _, True)); [done|by apply Forall_true]|]. intros patr _.
  eapply (always_bind _ _ (λ _, True)).
  { destruct female; [apply (always_pick _ (λ _, True)); [done|by apply Forall_true]|by apply always_ret]. }
  intros patr' _. apply always_ret. by apply capitalize_nonempty.
Qed.

Lemma synthName_nonempty d value cat rng doc :
  dict_ok d → ∃ r doc', synthName d value cat rng doc = Some (r, doc') ∧ r ≠ [].
Proof.
  intros Hd. unfold synthName. destruct (_ || _) eqn:E.
  - destruct (tokenFallback value cat doc) as [r doc'] eqn:E'. exists r, doc'. split; [done|].
    pose proof (tokenFallback_nonempty value cat doc). by rewrite E' in *.
  - rewrite !orb_false_iff, !bool_decide_eq_false in E. destruct E as ((((?&?)&?)&?)&?).
    destruct (drawn_always _ _ rng (always_rand_name d (isFemaleName value) Hd ltac:(done) ltac:(done)
      ltac:(done) ltac:(done))) as ([[first surname] patr] & -> & Hs). cbn [mbind option_bind].
    do 2 eexists. split; [done|]. repeat case_match; try done; by apply app_nonempty_l.
Qed.

Lemma always_true {A : Type} (m : rand A) P : always m P → always m (λ _, True).
Proof. intros Hm. by eapply always_impl. Qed.

Lemma synthFor_nonempty d value cat rng doc :
  dict_ok d → value ≠ [] → ∃ r doc', synthFor d value cat rng doc = Some (r, doc') ∧ r ≠ [].
Proof.
  intros Hd Hv. pose proof always_Card as Hcard.
  pose proof always_INN as Hinn. pose proof always_SNILS as Hsnils. pose proof always_Phone as Hphone.
  assert (∃ r doc', Some (tokenFallback value cat doc) = Some (r, doc') ∧ r ≠ []) as Hfb.
  { destruct (tokenFallback value cat doc) as [r doc'] eqn:E. exists r, doc'. split; [done|].
    pose proof (tokenFallback_nonempty value cat doc). by rewrite E in *. }
  unfold synthFor. repeat case_decide; try done.
  - by apply synthName_nonempty.
  - apply synth_number_nonempty; [done|by eapply always_true].
  - apply synth_number_nonempty; [done|by eapply always_true].
  - apply synth_number_nonempty; [done|by eapply always_true].
  - apply synth_number_nonempty; [done|by eapply always_true].
  - apply synth_number_nonempty; [done|]. unfold Passport. gen_step. intros. gen_step. intros.
    by apply always_ret.
  - apply synthDate_nonempty.
  - apply synthDate_nonempty.
  - apply synthDate_nonempty.
  - by eexists _, _.
Qed.
End Total.

(** ** The embedded dictionary *)

Lemma feminize_lower `{Unicode} s :
  utf8_valid s → forallb lower_fixed (runes s) = true → is_Some (feminize s).
Proof.
  intros Hv Hl. unfold feminize. rewrite lower_string_fixed by done.
  unfold suffix_of. destruct (List.find _ _) as [suf|] eqn:E; [|done].
  apply List.find_some in E as [_ Hs%has_suffix_len]. unfold cut_end.
  pose proof (len_nonneg suf). rewrite go_slice_Some by lia. done.
Qed.

Definition dict_word_ok (s : bytes) : bool :=
  negb (bool_decide (s = [])) && bool_decide (utf8_valid s) && forallb lower_fixed (runes s).

Lemma dict_files_ok `{Unicode} : dict_ok (load dict_files).
Proof.
  assert (forallb dict_word_ok (ss_surnames (load dict_files)) = true) as Ht by (by vm_compute).
  unfold dict_ok. apply Forall_forall. intros s Hs%list_elem_of_In.
  rewrite forallb_forall in Ht. specialize (Ht s Hs). unfold dict_word_ok in Ht.
  rewrite !andb_true_iff, negb_true_iff, bool_decide_eq_true, bool_decide_eq_false in Ht.
  destruct Ht as [[??]?]. split; [done|by apply feminize_lower].
Qed.

#[export] Instance synthetic_nonempty `{Unicode} `{Rng} : NonEmptyStrategy (NewSynthetic dict_files).
Proof.
  intros value cat doc Hv. cbn [NewSynthetic s_Mask]. unfold syntheticMask.
  destruct (memo_hit doc value) as [m|] eqn:E; [exists m, doc; split; [done|by eapply memo_hit_nonempty]|].
  destruct (synthFor_nonempty (load dict_files) value cat (newSeeded cat value) doc dict_files_ok Hv)
    as (r & doc' & -> & ?). cbn [mbind option_bind]. by do 2 eexists.
Qed.

(** ** Fake dates *)

Lemma itoa_digits_val n : 0 <= n → digits_val (itoa n) = n.
Proof. apply decimal_val. Qed.

Lemma twoDigits_val n : 0 <= n <= 99 → digits_val (twoDigits n) = n.
Proof.
  intros Hn. rewrite twoDigits_spec by done. unfold digits_val. cbn [foldl].
  rewrite !digit_val_of by (Z.div_mod_to_equations; lia). Z.div_mod_to_equations; lia.
Qed.

Lemma string_of_ascii b : byte_val b < 0x80 → string_of_byte b = [b].
Proof.
  intros Hb. pose proof (byte_val_range b). unfold string_of_byte.
  rewrite encode_ascii by lia. by rewrite byte_of_val.
Qed.

Lemma cons_middle_app {A : Type} (x : A) l : [x] ++ l = x :: l.
Proof. done. Qed.

Section FakeDates.
Context `{Unicode} `{Rng}.

Lemma date_dmy y m d sep :
  1950 <= y <= 2005 → 1 <= m <= 12 → 1 <= d <= daysInMonth y m → date_separator (byte_val sep) = true →
  date (twoDigits d ++ [sep] ++ twoDigits m ++ [sep] ++ itoa y) = true ∧
  date (itoa y ++ [sep] ++ twoDigits m ++ [sep] ++ twoDigits d) = true.
Proof.
  intros Hy Hm Hd Hsep. pose proof (daysInMonth_pos y m Hm).
  assert (calendar_date y m d) as Hc by (apply daysInMonth_validYMD; lia).
  assert (number (twoDigits d)) as Hnd by (apply (number_of_digits 2); [apply twoDigits_string|]; lia).
  assert (number (twoDigits m)) as Hnm by (apply (number_of_digits 2); [apply twoDigits_string|]; lia).
  pose proof (itoa_number y Hy) as Hny. rewrite !(cons_middle_app sep). split.
  - rewrite date_numeric_text by (by apply (numeric_fields sep sep)).
    rewrite (proj2 (numeric_fields sep sep _ _ _ Hnd Hnm Hny Hsep Hsep)).
    rewrite !twoDigits_val, itoa_digits_val, !validYMD_calendar by lia.
    rewrite !orb_true_iff, !bool_decide_eq_true. tauto.
  - rewrite date_numeric_text by (by apply (numeric_fields sep sep)).
    rewrite (proj2 (numeric_fields sep sep _ _ _ Hny Hnm Hnd Hsep Hsep)).
    rewrite !twoDigits_val, itoa_digits_val, !validYMD_calendar by lia.
    rewrite !orb_true_iff, !bool_decide_eq_true. tauto.
Qed.
End FakeDates.

(** ** Properties *)

(** C33: a value of exactly 11 digits as a phone number, 16 as a card number, 12 as a tax
    number or 11 as an insurance number is replaced, when the document does not have it
    yet, by a number that passes the validator of its category, digit for digit:
    separators and every other byte stay where they were. Of other lengths nothing is
    said: a longer card keeps its last digits ([synthCard_keeps_tail]), and a phone, tax
    or insurance number of another length becomes a token. *)
Theorem synthetic_numbers_valid `{Unicode} `{Rng} d cat n check value doc :
  numeric_format cat n check → length (digitsOnly value) = n → memo_hit doc value = None →
  ∃ out, syntheticMask d value cat doc = Some (out, remember doc value out) ∧
    check out = true ∧ keeps_shape value out.
Proof.
  intros Hf Hn Hmiss. unfold syntheticMask. rewrite Hmiss.
  destruct (synthFor_number d cat n check value (newSeeded cat value) doc Hf Hn) as (out & -> & ? & ?).
  by exists out.
Qed.

Lemma synthetic_numbers_valid_witness :
  ∃ out, syntheticMask (load dict_files) "4111-1111-1111-1111" CatCardNumber None = Some (out, None) ∧
    luhn out = true ∧ keeps_shape "4111-1111-1111-1111" out.
Proof.
  apply (synthetic_numbers_valid (load dict_files) CatCardNumber 16 luhn "4111-1111-1111-1111" None).
  - constructor.
  - by vm_compute.
  - done.
Defined.

(** A card number of 17 to 19 digits is replaced in its first sixteen digits
    only: the rest of the original number is in the output. *)
Lemma synthCard_keeps_tail `{Unicode} `{Rng} value rng doc :
  (16 <= length (digitsOnly value) <= 19)%nat →
  ∃ out fake, synthCard value CatCardNumber rng doc = Some (out, doc) ∧ digit_string 16 fake ∧
    digitsOnly out = fake ++ drop 16 (digitsOnly value).
Proof.
  intros Hn. unfold synthCard, synth_number. unfold len.
  replace (negb _) with false by lia. pose proof always_Card as Hcard.
  destruct (drawn_always Card _ rng Hcard) as (f & -> & _ & Hf). cbn [mbind option_bind].
  exists (applyDigits value f), f. split_and!; [done|done|]. destruct Hf as [Hl Hd].
  rewrite applyDigits_digits, Hl by done. by rewrite take_ge by lia.
Qed.

Lemma synthCard_keeps_tail_witness :
  ∃ out fake, synthCard "4111 1111 1111 1111 789" CatCardNumber (rng_seed 5) None = Some (out, None) ∧
    digit_string 16 fake ∧ digitsOnly out = fake ++ (go_bytes "789").
Proof.
  apply (synthCard_keeps_tail "4111 1111 1111 1111 789" (rng_seed 5) None). vm_compute. lia.
Defined.

(** A date of eight digits with a dot, slash or dash is replaced by a date that
    the date validator accepts. *)
Lemma synthetic_date_valid `{Unicode} `{Rng} value cat rng doc sep :
  isWordDate value = false → first_separator value = Some sep → date_separator (byte_val sep) = true →
  length (digitsOnly value) = 8%nat →
  ∃ out, synthDate value cat rng doc = Some (out, doc) ∧ date out = true.
Proof.
  intros Hw Hfs Hsep Hn. unfold synthDate. rewrite Hw. unfold synthDateNumeric. rewrite Hfs.
  destruct (drawn_always _ _ rng always_rand_date) as ([[y m] d] & -> & Hy & Hm & Hd).
  cbn [mbind option_bind]. unfold len. rewrite Hn.
  change (Z.of_nat 8 =? 6) with false. change (Z.of_nat 8 =? 8) with true. cbv iota.
  rewrite string_of_ascii by (unfold date_separator in Hsep; lia).
  destruct (date_dmy y m d sep Hy Hm Hd Hsep) as [Hdmy Hymd].
  case_match; eexists; (split; [reflexivity|done]).
Qed.

Lemma synthetic_date_valid_witness :
  ∃ out, synthDate "1985-03-05" CatBirthDate (rng_seed 9) None = Some (out, None) ∧ date out = true.
Proof. apply (synthetic_date_valid "1985-03-05" CatBirthDate (rng_seed 9) None "-"%byte); by vm_compute. Defined.

(** A date with a two-digit year that draws one of the years 2000 to 2005 comes
    back with a year of one digit. *)
Lemma synthetic_short_year `{Unicode} `{Rng} value cat rng doc sep y m d :
  isWordDate value = false → first_separator value = Some sep →
  length (digitsOnly value) = 6%nat → drawn rand_date rng = Some (y, m, d) → 2000 <= y →
  ∃ out year, synthDate value cat rng doc = Some (out, doc) ∧
    out = twoDigits d ++ string_of_byte sep ++ twoDigits m ++ string_of_byte sep ++ year ∧
    len year = 1.
Proof.
  intros Hw Hfs Hn Hr Hy. unfold synthDate. rewrite Hw. unfold synthDateNumeric. rewrite Hfs.
  destruct (drawn_always _ _ rng always_rand_date) as ([[y' m'] d'] & Hr' & Hy' & _).
  rewrite Hr in Hr'. injection Hr' as <- <- <-. rewrite Hr. cbn [mbind option_bind]. unfold len at 1.
  rewrite Hn.
  change (Z.of_nat 6 =? 6) with true. cbv iota. do 2 eexists. split_and!; [reflexivity|reflexivity|].
  assert (Forall (λ y, len (itoa (Z.rem y 100)) = 1) (z_range 2000 2005)) as Ht
    by (apply (bool_decide_unpack _); by vm_compute).
  rewrite Forall_forall in Ht. apply Ht, z_range_spec. lia.
Qed.

Lemma synthetic_short_year_witness :
  ∃ out year, synthDate "05.03.85" CatBirthDate (rng_seed 3400000) None = Some (out, None) ∧
    out = twoDigits 23 ++ string_of_byte "."%byte ++ twoDigits 5 ++ string_of_byte "."%byte ++ year ∧
    len year = 1.
Proof.
  apply (synthetic_short_year "05.03.85" CatBirthDate (rng_seed 3400000) None "."%byte 2001 5 23);
    by vm_compute.
Defined.
