(* ===== verification/Gen.v ===== *)
(** * The test-data generator

    Models [internal/pii/testdata/gen] ([main.go], [templates.go]): the command that
    writes the blind corpus of labelled texts, on which the detectors are measured. A
    text is a template whose placeholders are replaced by random values; the labels are
    the places of the values.

    The command line, the output file and the JSON encoder are not modelled. The
    dictionaries are an argument; the conversions of package [fmt] are written for the
    verbs the command uses. *)

From S2P Require Import Prelude GoText Float64 Regexp RegexpSyntax Validators Synth Dict.

(** ** Values of the text formats *)

(** [fmt.Sprintf] with verbs [%s] and [%d] only, the integers already as text. *)
Fixpoint sprintf (format : bytes) (args : list bytes) : bytes :=
  match format with
  | [] => []
  | "%"%byte :: _ :: format =>
      match args with
      | a :: args => a ++ sprintf format args
      | [] => []
      end
  | b :: format => b :: sprintf format args
  end.

(** [%0wd] of a number that is not negative. *)
Definition zero_pad (w : nat) (n : Z) : bytes := replicate (w - length (decimal n)) "0"%byte ++ decimal n.

Definition itoa (n : Z) : bytes := if n =? 0 then "0" else itoa_loop (itoa_fuel n) n [].

Definition twoDigits (n : Z) : bytes := if n <? 10 then "0" ++ itoa n else itoa n.

Fixpoint atoi_loop (n : Z) (rs : list Z) : Z :=
  match rs with
  | [] => n
  | c :: rs => if (c <? 0x30) || (0x39 <? c) then n else atoi_loop (n * 10 + (c - 0x30)) rs
  end.

Definition atoi (s : bytes) : Z := atoi_loop 0 (runes s).

(** [r[:len(r)-n]] for the runes [r] of [s]. *)
Definition dropLastRune (s : bytes) : bytes :=
  let r := runes s in
  if (length r =? 0)%nat then s else encode_runes (take (length r - 1) r).

Definition dropLastRunes (s : bytes) (n : nat) : bytes :=
  let r := runes s in
  if (length r <=? n)%nat then [] else encode_runes (take (length r - n) r).

(** ** The random source

    [math/rand] as in [Synth], with [Float64]. *)

Class RngFloat64 `{Rng} := { rng_float64 : rng_state → float64 * rng_state }.

#[export] Instance lcg_float64 : @RngFloat64 lcg_rng | 100 := {
  rng_float64 := λ s, (f64_div (f64_of_Z (s / 65536 mod 1024)) (f64_of_Z 1024), (s * 1103515245 + 12345) mod 2 ^ 31)
}.

Definition Float64 `{RngFloat64} : rand float64 := λ r, Some (rng_float64 r).

(** [l[rng.Intn(len(l))]] *)
Definition choose `{Rng} {A : Type} (l : list A) : rand A :=
  i ← Intn (Z.of_nat (length l));
  lift (l !! Z.to_nat i).

(** ** Names and cases *)

Definition patrM : list bytes := strs [
   "Александрович"; "Андреевич"; "Борисович"; "Васильевич"; "Викторович"; "Владимирович"; "Дмитриевич";
   "Евгеньевич"; "Иванович"; "Игоревич"; "Константинович"; "Михайлович"; "Николаевич"; "Олегович";
   "Павлович"; "Петрович"; "Сергеевич"; "Фёдорович"; "Юрьевич"].

Definition patrF : list bytes := strs [
   "Александровна"; "Андреевна"; "Борисовна"; "Васильевна"; "Викторовна"; "Владимировна"; "Дмитриевна";
   "Евгеньевна"; "Ивановна"; "Игоревна"; "Константиновна"; "Михайловна"; "Николаевна"; "Олеговна";
   "Павловна"; "Петровна"; "Сергеевна"; "Фёдоровна"; "Юрьевна"].

Definition maleNamesEndingInVowel : list bytes := strs [
   "никита"; "аникита"; "илья"; "фома"; "кузьма"; "савва"; "данила"; "лука"; "зосима"; "вавила";
   "добрыня"; "сила"].

Definition monthGenitiveList : list bytes := strs [
   "января"; "февраля"; "марта"; "апреля"; "мая"; "июня"; "июля"; "августа"; "сентября"; "октября";
   "ноября"; "декабря"].

Definition monthGenitive (m : Z) : option bytes :=
  if (m <? 1) || (12 <? m) then Some [] else monthGenitiveList !! Z.to_nat (m - 1).

(** [lower] ends with one of the suffixes. *)
Definition ends_with (lower : bytes) (sufs : list go_literal) : bool := existsb (has_suffix lower) (strs sufs).

Section Cases.
Context `{Unicode}.

Definition capitalize (s : bytes) : bytes :=
  match runes s with
  | [] => s
  | r :: rs => upper_string (encode_rune r) ++ encode_runes rs
  end.

Definition isFemaleName (name : bytes) : bool :=
  let lower := lower_string name in
  if existsb (eq_bytes lower) maleNamesEndingInVowel then false
  else ends_with lower ["а"; "я"; "ия"; "ья"].

Definition feminize (s : bytes) : option bytes :=
  match List.find (has_suffix (lower_string s)) (strs ["ов"; "ев"; "ёв"; "ин"; "ын"]) with
  | Some suf => t ← go_slice s 0 (len s - len suf); Some (t ++ suf ++ "а")
  | None => Some s
  end.

Definition genitiveSurname (s : bytes) (female : bool) : bytes :=
  let lower := lower_string s in
  if female then
    if ends_with lower ["ова"; "ева"; "ёва"; "ина"; "ына"] then dropLastRune s ++ "ой" else s
  else if ends_with lower ["ов"; "ев"; "ёв"; "ин"; "ын"] then s ++ "а" else s.

Definition replaceSuffixRunes (s lower : bytes) (suffixes : list go_literal) (repl : bytes) (drop : nat)
    : option bytes :=
  if ends_with lower suffixes then Some (dropLastRunes s drop ++ repl) else None.

Definition genitiveName (s : bytes) (female : bool) : bytes :=
  let lower := lower_string s in
  if female then
    match replaceSuffixRunes s lower ["ия"; "ья"] "и" 1 with
    | Some out => out
    | None =>
        match replaceSuffixRunes s lower ["а"; "я"] "ы" 1 with
        | Some out => out
        | None => s
        end
    end
  else
    match replaceSuffixRunes s lower ["ий"; "ей"] "я" 2 with
    | Some out => out
    | None =>
        match replaceSuffixRunes s lower ["й"] "я" 1 with
        | Some out => out
        | None => if has_suffix lower "ь" then dropLastRune s ++ "я" else s ++ "а"
        end
    end.

Definition genitivePatr (p : bytes) : bytes :=
  let lower := lower_string p in
  if ends_with lower ["овна"; "евна"; "ична"; "инична"] then p ++ "ы"
  else if ends_with lower ["ович"; "евич"; "ич"] then p ++ "а" else p.

Definition cityPrepositional (city : bytes) : bytes :=
  let lower := lower_string city in
  if ends_with lower ["ск"; "цк"; "нск"; "бург"; "град"] then city ++ "е"
  else if has_suffix lower "а" then dropLastRune city ++ "е"
  else if has_suffix lower "ь" then dropLastRune city ++ "и"
  else if has_suffix lower "й" then dropLastRune city ++ "е"
  else city ++ "е".

Definition cityGenitive (city : bytes) : bytes :=
  let lower := lower_string city in
  if has_suffix lower "а" then dropLastRune city ++ "ы"
  else if has_suffix lower "я" then dropLastRune city ++ "и"
  else if has_suffix lower "ь" then dropLastRune city ++ "и"
  else city ++ "а".

Definition translit_table : list (bytes * bytes) := map (λ '(a, b), (go_bytes a, go_bytes b)) [
   ("а", "a"); ("б", "b"); ("в", "v"); ("г", "g"); ("д", "d"); ("е", "e"); ("ё", "e");
   ("ж", "zh"); ("з", "z"); ("и", "i"); ("й", "i"); ("к", "k"); ("л", "l"); ("м", "m");
   ("н", "n"); ("о", "o"); ("п", "p"); ("р", "r"); ("с", "s"); ("т", "t"); ("у", "u");
   ("ф", "f"); ("х", "kh"); ("ц", "ts"); ("ч", "ch"); ("ш", "sh"); ("щ", "shch");
   ("ъ", GoLiteral []); ("ы", "y"); ("ь", GoLiteral []); ("э", "e"); ("ю", "yu"); ("я", "ya")]%go.

Definition translit (s : bytes) : bytes :=
  concat (map (λ r, default [] (assoc (encode_rune r) translit_table)) (runes (lower_string s))).
End Cases.

Example genitive_andrei : genitiveName "Андрей" false = "Андря". Proof. by vm_compute. Qed.
Example genitive_ilya : genitiveName "Илья" false = "Ильяа". Proof. by vm_compute. Qed.
Example genitive_maria : genitiveName "Мария" true = "Марии". Proof. by vm_compute. Qed.
Example feminize_ivanov : feminize "Иванов" = Some (go_bytes "Иванова"). Proof. by vm_compute. Qed.
Example translit_ivanov : translit "Щукин" = "shchukin". Proof. by vm_compute. Qed.

(** ** Templates *)

Definition positiveTemplates : list bytes := strs [
   "ФИО: {full_name}, дата рождения {birth_date}, место рождения: {birth_place}";
   "Анкета: {full_name}, паспорт {passport}, выдан {issuer}, код подразделения {division}";
   "Заявитель: {full_name}, гражданство {citizenship}, адрес регистрации: {address}";
   "Клиент {full_name}, телефон {phone}, email {email}";
   "Паспортные данные: {full_name}, серия и номер {passport}, дата рождения {birth_date}";
   "Регистрация: {full_name}, дата рождения {birth_date}, адрес {address}, тел. {phone}";
   "Личные данные: {full_name}, ИНН {inn}, СНИЛС {snils}";
   "Анкета клиента: {full_name}, дата рождения {birth_date}, место рождения: {birth_place}, гражданство {citizenship}";
   "Данные заявителя: {full_name}, паспорт {passport}, выдан {issuer}, код подразделения {division}";
   "Заполните анкету: ФИО {full_name}, дата рождения {birth_date}, адрес {address}";
   "Здравствуйте, меня зовут {full_name}, мой номер {phone}, помогите с заказом";
   "Подскажите, я {full_name}, мой email {email}, не могу войти в приложение";
   "Добрый день, я {full_name}, паспорт {passport}, хочу восстановить доступ";
   "Уважаемая поддержка, я {full_name}, мой телефон {phone}, проблема с картой {card}";
   "Здравствуйте, я {full_name}, дата рождения {birth_date}, подтвердите личность";
   "Помогите, пожалуйста, я {full_name}, мой ИНН {inn}";
   "Добрый день, я {full_name}, СНИЛС {snils}, не могу получить выплату";
   "Здравствуйте, я {full_name}, адрес {address}, жду доставку";
   "Я {full_name}, мой номер {phone}, карта {card}, CVV {cvv}";
   "Поддержка, я {full_name}, email {email}, телефон {phone}";
   "Заявление от {full_name_gen}, паспорт {passport}, выдан {issuer}";
   "Прошу выдать справку, {full_name}, дата рождения {birth_date}";
   "Заявление: {full_name}, адрес {address}, телефон {phone}";
   "Прошу пересчитать, {full_name}, ИНН {inn}, СНИЛС {snils}";
   "Заявление о выдаче: {full_name}, паспорт {passport}, код подразделения {division}";
   "От {full_name_gen}: прошу изменить адрес на {address}";
   "Заявление от {full_name_gen}, дата рождения {birth_date}, место рождения: {birth_place}";
   "Прошу оформить, {full_name}, гражданство {citizenship}";
   "Заявление: {full_name}, водительское удостоверение {driver_license}";
   "От {full_name_gen}, паспорт {passport}, телефон {phone}";
   "Меня зовут {full_name}, мой номер {phone}";
   "Я {full_name}, хочу узнать баланс карты {card}";
   "Мой email {email}, имя {full_name}";
   "Подтвердите, что вы {full_name}, дата рождения {birth_date}";
   "Мой паспорт {passport}, я {full_name}";
   "Я {full_name}, адрес {address}";
   "Мой ИНН {inn}, ФИО {full_name}";
   "Я {full_name}, СНИЛС {snils}";
   "Мой телефон {phone}, я {full_name}";
   "Я {full_name}, карта {card}, CVV {cvv}";
   "Клиент {full_name}, телефон {phone}, обратился по вопросу кредита";
   "Заметка: {full_name}, паспорт {passport}, выдан {issuer}";
   "Клиент {full_name}, адрес {address}, нужна проверка";
   "Менеджер: {full_name}, email {email}, карта {card}";
   "Клиент {full_name}, дата рождения {birth_date}, место рождения: {birth_place}";
   "Заметка: {full_name}, ИНН {inn}, СНИЛС {snils}";
   "Клиент {full_name}, водительское {driver_license}";
   "Менеджер: {full_name}, загранпаспорт {foreign_passport}";
   "Клиент {full_name}, телефон {phone}, адрес {address}";
   "Заметка: {full_name}, паспорт {passport}, код подразделения {division}";
   "Ваш код безопасности для {full_name}: {cvv}";
   "Уважаемый {full_name}, ваш заказ готов, телефон {phone}";
   "Здравствуйте, {full_name}, ваша карта {card} заблокирована";
   "Уважаемый {full_name}, подтвердите операцию по карте {card}";
   "Ваш номер {phone} подтверждён, {full_name}";
   "Уважаемый {full_name}, ваш email {email} изменён";
   "Здравствуйте, {full_name}, ваш паспорт {passport} на проверке";
   "Уважаемый {full_name}, ваша заявка принята, дата рождения {birth_date}";
   "Ваш код безопасности: {cvv}, {full_name}";
   "Уважаемый {full_name}, ваш адрес {address} подтверждён";
   "Уважаемый {full_name}, ваш договор готов, телефон {phone}";
   "Здравствуйте, {full_name}, подтвердите адрес {address}";
   "Уважаемый {full_name}, ваша карта {card} готова к выдаче";
   "Здравствуйте, {full_name}, ваш ИНН {inn} подтверждён";
   "Уважаемый {full_name}, ваш СНИЛС {snils} на проверке";
   "Здравствуйте, {full_name}, ваш паспорт {passport} готов";
   "Уважаемый {full_name}, ваша дата рождения {birth_date} уточнена";
   "Здравствуйте, {full_name}, ваш email {email} подтверждён";
   "Уважаемый {full_name}, ваше водительское {driver_license} готово";
   "Здравствуйте, {full_name}, ваш загранпаспорт {foreign_passport} готов";
   "Держатель карты {card_holder}, карта {card}, CVV {cvv}";
   "{card_holder} {card}";
   "Имя на карте {card_holder}, номер {card}";
   "Cardholder {card_holder}, card {card}";
   "Держатель {card_holder}, карта {card}"].

Definition negativeTemplates_with (famousName : bytes) : list bytes := [
   ("поэт " : bytes) ++ famousName ++ " родился в 1799 году";
   ("стихи " : bytes) ++ famousName ++ " изучают в школе";
   go_bytes "отделение банка по адресу ул. Ленина, 1";
   go_bytes "филиал банка: г. Москва, ул. Тверская, д. 10";
   go_bytes "банкомат по адресу: г. Москва, ул. Ленина, д. 5";
   go_bytes "доп. офис: г. Москва, ул. Ленина, д. 5";
   go_bytes "головной офис: г. Москва, ул. Ленина, д. 5";
   go_bytes "Номер заказа 1234567890";
   go_bytes "сумма 15000 рублей";
   go_bytes "версия 1.2.3";
   go_bytes "в 14:30";
   go_bytes "в 1990 году";
   go_bytes "код 1234";
   go_bytes "число 1234567890";
   go_bytes "счёт 40817810099910004312";
   go_bytes "номер 1234567890";
   go_bytes "телефон 1234567890";
   go_bytes "дата 31.02.2020";
   go_bytes "ИНН 500100732258";
   go_bytes "карта 4111 1111 1111 1112";
   go_bytes "паспорт 0000 123456";
   go_bytes "снилс 112-233-445 96";
   go_bytes "загранпаспорт 71 123456";
   go_bytes "код 1234";
   go_bytes "дата 32.01.2020";
   go_bytes "ИНН 3664069398";
   go_bytes "улица Иванова";
   go_bytes "Москва — столица";
   go_bytes "IVAN IVANOV";
   go_bytes "держатель карты VISA MASTERCARD"].

(** ** Random digits and dates *)

Section Generator.
Context `{Unicode} `{RngFloat64}.

(** The body is that of [synth.go]. *)
Definition randDigits (n : nat) : rand bytes := Synth.randDigits n.

Definition synthPhoneDigits : rand bytes :=
  ds ← randDigits 9;
  mret ("7" ++ "9" ++ ds).

Definition synthPassportDigits : rand bytes :=
  a ← randDigits 3;
  b ← randDigits 6;
  mret ("4" ++ a ++ b).

(** The body is that of [synth.go]. *)
Definition luhnCheckDigit (d : bytes) : byte := Synth.luhnCheckDigit d.

Definition synthCardDigits : rand bytes :=
  coin ← Intn 2;
  let bin : bytes := if coin =? 0 then "5" else "4" in
  d2 ← randDigits 2;
  d12 ← randDigits 12;
  let body := (bin ++ d2) ++ d12 in
  mret (body ++ string_of_byte (luhnCheckDigit body)).

(** The body is that of [synth.go]. *)
Definition innControl (d : bytes) (weights : list Z) : byte := Synth.innControl d weights.

Definition synthINNDigits : rand bytes :=
  base ← randDigits 10;
  let n11 := innControl base [7; 2; 4; 10; 3; 5; 9; 4; 6; 8] in
  let n12 := innControl (base ++ string_of_byte n11) [3; 7; 2; 4; 10; 3; 5; 9; 4; 6; 8] in
  mret (base ++ string_of_byte n11 ++ string_of_byte n12).

Definition synthSNILSDigits : rand bytes :=
  base ← randDigits 9;
  let sum := weighted base [9; 8; 7; 6; 5; 4; 3; 2; 1] in
  let control :=
    if sum <? 100 then sum
    else if (sum =? 100) || (sum =? 101) then 0
    else let control := sum mod 101 in if control =? 100 then 0 else control in
  mret (base ++ twoDigits control).

Definition isLeapYear (y : Z) : bool :=
  (Z.rem y 4 =? 0) && (negb (Z.rem y 100 =? 0) || (Z.rem y 400 =? 0)).

Definition daysInMonth (year month : Z) : option Z :=
  let dm := [31; 28; 31; 30; 31; 30; 31; 31; 30; 31; 30; 31] in
  if (month =? 2) && isLeapYear year then Some 29
  else if month <? 1 then None else dm !! Z.to_nat (month - 1).

Definition synthDateParts : rand (bytes * bytes * bytes) :=
  y ← Intn 56;
  let year := 1950 + y in
  m ← Intn 12;
  let month := 1 + m in
  days ← lift (daysInMonth year month);
  d ← Intn days;
  let day := 1 + d in
  mret (twoDigits day, twoDigits month, itoa year).

(** ** The generator *)

Record gen := MkGen {
  g_names : list bytes; g_surnames : list bytes; g_cities : list bytes; g_famous : list (list bytes);
  g_streets : list bytes
}.

(** The lines of a file; a file that cannot be read ends the command. *)
Definition readLines (data : option bytes) : option (list bytes) :=
  data ← data;
  Some (List.filter (λ line, negb (eq_bytes line [])) (map trim_space (split_byte "010"%byte data))).

Definition streets_list : list bytes := strs [
   "Ленина"; "Пушкина"; "Советская"; "Красная"; "Малышева"; "Кирова"; "Гагарина"; "Мира"; "Победы";
   "Ленинградская"; "Тверская"; "Октябрьская"; "Садовая"; "Молодёжная"; "Центральная"; "Школьная";
   "Лесная"; "Парковая"; "Заречная"; "Набережная"; "Комсомольская"; "Первомайская"; "Юбилейная"].

(** [fs] reads a file of [dictDir]; the seed is the initial state of the random source. *)
Definition newGen (fs : bytes → option bytes) : option gen :=
  names ← readLines (fs "dict/first_names.txt");
  surnames ← readLines (fs "dict/surnames.txt");
  cities ← readLines (fs "dict/cities.txt");
  famous ← readLines (fs "dict/famous.txt");
  Some (MkGen names surnames cities (map fields famous) streets_list).

Definition synthFullName (names surnames : list bytes) : rand bytes :=
  first ← pick names;
  surname ← pick surnames;
  patr ← pick patrM;
  if isFemaleName first then
    surname ← lift (feminize surname);
    patr ← pick patrF;
    mret (capitalize surname ++ " " ++ capitalize first ++ " " ++ patr)
  else mret (capitalize surname ++ " " ++ capitalize first ++ " " ++ patr).

Definition synthFullNameGenitive (names surnames : list bytes) : rand bytes :=
  first ← pick names;
  surname ← pick surnames;
  patr ← pick patrM;
  let female := isFemaleName first in
  '(surname, patr) ← (if female then
      surname ← lift (feminize surname);
      patr ← pick patrF;
      mret (surname, patr)
    else mret (surname, patr));
  mret (genitiveSurname (capitalize surname) female ++ " " ++ genitiveName (capitalize first) female ++ " " ++
    genitivePatr patr).

Definition phone_formats : list bytes := strs [
   "+7 (%s) %s-%s-%s"; "8%s%s%s"; "8 %s %s %s %s"; "+7-%s-%s-%s-%s"; "8(%s)%s-%s-%s"; "7 %s %s %s %s"].

Definition format_phone (f d : bytes) : option bytes :=
  area ← go_slice d 1 4;
  mid ← go_slice d 4 7;
  t1 ← go_slice d 7 9;
  t2 ← go_slice d 9 11;
  Some (
    if eq_bytes f "+7 (%s) %s-%s-%s" then sprintf f [area; mid; t1; t2]
    else if eq_bytes f "8%s%s%s" then "8" ++ area ++ mid ++ t1 ++ t2
    else if eq_bytes f "8 %s %s %s %s" then sprintf "8 %s %s %s %s" [area; mid; t1; t2]
    else if eq_bytes f "+7-%s-%s-%s-%s" then sprintf "+7-%s-%s-%s-%s" [area; mid; t1; t2]
    else if eq_bytes f "8(%s)%s-%s-%s" then sprintf "8(%s)%s-%s-%s" [area; mid; t1; t2]
    else sprintf "7 %s %s %s %s" [area; mid; t1; t2]).

Definition phone : rand bytes :=
  d ← synthPhoneDigits;
  f ← pick phone_formats;
  lift (format_phone f d).

Definition passport_formats : list bytes := strs ["%s %s"; "%s%s"; "%s %s %s"; "серия %s номер %s"].

Definition format_passport (f d : bytes) : option bytes :=
  if eq_bytes f "%s %s" then a ← go_slice d 0 4; n ← go_slice d 4 10; Some (a ++ " " ++ n)
  else if eq_bytes f "%s%s" then Some d
  else if eq_bytes f "%s %s %s" then
    a1 ← go_slice d 0 2; a2 ← go_slice d 2 4; n ← go_slice d 4 10; Some (a1 ++ " " ++ a2 ++ " " ++ n)
  else a ← go_slice d 0 4; n ← go_slice d 4 10; Some ("серия " ++ a ++ " номер " ++ n).

Definition passport : rand bytes :=
  d ← synthPassportDigits;
  f ← pick passport_formats;
  lift (format_passport f d).

Definition birthDate_formats : list bytes := strs ["%s.%s.%s"; "%s %s %s года"; "%s-%s-%s"].

Definition format_birthDate (f day month year : bytes) : option bytes :=
  if eq_bytes f "%s.%s.%s" then Some (sprintf "%s.%s.%s" [day; month; year])
  else if eq_bytes f "%s %s %s года" then
    mg ← monthGenitive (atoi month); Some (sprintf "%s %s %s года" [day; mg; year])
  else Some (sprintf "%s-%s-%s" [year; month; day]).

Definition birthDate : rand bytes :=
  f ← pick birthDate_formats;
  '(day, month, year) ← synthDateParts;
  lift (format_birthDate f day month year).

Definition city (g : gen) : rand bytes := pick (g_cities g).

Definition address_formats : list bytes := strs [
   "г. %s, ул. %s, д. %d, кв. %d"; "г. %s, ул. %s, д. %d"; "%s, %s %d"].

Definition address (g : gen) : rand bytes :=
  city ← city g;
  street ← pick (g_streets g);
  h ← Intn 200;
  let house := 1 + h in
  a ← Intn 200;
  let apt := 1 + a in
  f ← pick address_formats;
  mret (
    if eq_bytes f "г. %s, ул. %s, д. %d, кв. %d" then sprintf f [city; street; decimal house; decimal apt]
    else if eq_bytes f "г. %s, ул. %s, д. %d" then sprintf f [city; street; decimal house]
    else sprintf "%s, %s %d" [cityPrepositional city; street; decimal house]).

Definition birthPlace (g : gen) : rand bytes :=
  city ← city g;
  f ← pick (strs ["г. %s"; "%s"; "города %s"]);
  mret (
    if eq_bytes f "г. %s" then "г. " ++ city
    else if eq_bytes f "города %s" then "города " ++ cityGenitive city
    else cityPrepositional city).

Definition card_formats : list bytes := strs ["%s %s %s %s"; "%s"; "%s-%s-%s-%s"].

Definition format_card (f d : bytes) : option bytes :=
  let groups := mapM (λ i, go_slice d (4 * i) (4 * i + 4)) [0; 1; 2; 3] in
  if eq_bytes f "%s %s %s %s" then g ← groups; Some (sprintf "%s %s %s %s" g)
  else if eq_bytes f "%s" then Some d
  else g ← groups; Some (sprintf "%s-%s-%s-%s" g).

Definition card : rand bytes :=
  d ← synthCardDigits;
  f ← pick card_formats;
  lift (format_card f d).

Definition cvv : rand bytes :=
  n ← Intn 1000;
  mret (zero_pad 3 n).

Definition email (g : gen) : rand bytes :=
  surname ← pick (g_surnames g);
  let user := translit surname in
  domain ← pick (strs ["mail.ru"; "yandex.ru"; "gmail.com"; "example.com"; "bank.ru"]);
  mret (user ++ "@" ++ domain).

Definition inn : rand bytes := synthINNDigits.

Definition format_snils (coin : Z) (d : bytes) : option bytes :=
  if coin =? 0 then
    a ← go_slice d 0 3; b ← go_slice d 3 6; c ← go_slice d 6 9; e ← go_slice d 9 11;
    Some (sprintf "%s-%s-%s %s" [a; b; c; e])
  else Some d.

Definition snils : rand bytes :=
  d ← synthSNILSDigits;
  coin ← Intn 2;
  lift (format_snils coin d).

Definition issuer (g : gen) : rand bytes :=
  city ← city g;
  o ← pick (strs ["ОУФМС России по г. %s"; "ГУ МВД России по г. %s"; "УФМС России по г. %s";
                  "ОМВД России по району Хамовники"; "ОВД района Хамовники"]);
  mret (if str_contains o "%s" then sprintf o [city] else o).

Definition division : rand bytes :=
  a ← Intn 1000;
  b ← Intn 1000;
  mret (zero_pad 3 a ++ "-" ++ zero_pad 3 b).

Definition citizenship : rand bytes :=
  pick (strs ["РФ"; "Российская Федерация"; "России"; "Республики Казахстан"; "Беларуси"]).

Definition driverLicense : rand bytes :=
  r ← Intn 90;
  let region := 1 + r in
  coin ← Intn 2;
  if coin =? 0 then
    a ← Intn 90;
    n ← Intn 1000000;
    mret (zero_pad 2 region ++ " " ++ zero_pad 2 (1 + a) ++ " " ++ zero_pad 6 n)
  else
    n ← Intn 1000000;
    mret (zero_pad 2 region ++ "АА " ++ zero_pad 6 n).

Definition foreignPassport : rand bytes :=
  a ← Intn 90;
  n ← Intn 10000000;
  mret (zero_pad 2 (1 + a) ++ " " ++ zero_pad 7 n).

Definition cardHolder (g : gen) : rand bytes :=
  first ← pick (g_names g);
  surname ← pick (g_surnames g);
  mret (upper_string (translit first ++ " " ++ translit surname)).

Definition fullName (g : gen) : rand bytes := synthFullName (g_names g) (g_surnames g).

Definition fullNameGenitive (g : gen) : rand bytes := synthFullNameGenitive (g_names g) (g_surnames g).

(** The cases of the [switch] over the placeholder names. *)
Definition values (g : gen) : list (bytes * rand bytes) := [
  (go_bytes "full_name", fullName g); (go_bytes "full_name_gen", fullNameGenitive g); (go_bytes "phone", phone);
  (go_bytes "passport", passport); (go_bytes "birth_date", birthDate); (go_bytes "address", address g);
  (go_bytes "card", card); (go_bytes "cvv", cvv); (go_bytes "email", email g); (go_bytes "inn", inn);
  (go_bytes "snils", snils); (go_bytes "issuer", issuer g); (go_bytes "division", division);
  (go_bytes "birth_place", birthPlace g); (go_bytes "citizenship", citizenship);
  (go_bytes "driver_license", driverLicense); (go_bytes "foreign_passport", foreignPassport);
  (go_bytes "card_holder", cardHolder g)].

Definition value (g : gen) (name : bytes) : rand bytes := default (mret []) (assoc name (values g)).

Definition categories : list (bytes * bytes) := map (λ '(a, b), (go_bytes a, go_bytes b)) [
  ("full_name", "full_name"); ("phone", "phone"); ("passport", "passport"); ("birth_date", "birth_date");
  ("address", "address"); ("card", "card_number"); ("cvv", "cvv"); ("email", "email"); ("inn", "inn");
  ("snils", "snils"); ("issuer", "passport_issuer"); ("division", "division_code");
  ("birth_place", "birth_place"); ("citizenship", "citizenship"); ("driver_license", "driver_license");
  ("foreign_passport", "foreign_passport"); ("card_holder", "card_holder")]%go.

Definition categoryFor (name : bytes) : bytes := default [] (assoc name categories).

(** ** Records *)

Record span := MkSpan { s_Start : Z; s_End : Z; s_Value : bytes; s_Category : bytes }.

#[export] Instance span_eq_dec : EqDecision span.
Proof. solve_decision. Defined.

Record record := MkRecord { r_ID : bytes; r_Text : bytes; r_Spans : list span }.

Definition placeholderRe : re := MustCompile "\{([a-z_]+)\}".

(** [valuesFor]: a value is drawn at the first placeholder of its name. *)
Fixpoint values_loop (g : gen) (names : list bytes) (vals : gmap bytes bytes) : rand (gmap bytes bytes) :=
  match names with
  | [] => mret vals
  | name :: names =>
      match vals !! name with
      | Some _ => values_loop g names vals
      | None => v ← value g name; values_loop g names (<[name := v]> vals)
      end
  end.

Definition placeholders (tmpl : bytes) : list bytes :=
  map (λ m, submatch tmpl m 1) (FindAll placeholderRe tmpl).

Definition valuesFor (g : gen) (tmpl : bytes) : rand (gmap bytes bytes) := values_loop g (placeholders tmpl) ∅.

(** One round of the loop of [fill]: the text so far, the spans, the position. *)
Definition fill_step (tmpl : bytes) (vals : gmap bytes bytes) (st : bytes * list span * Z) (m : found)
    : option (bytes * list span * Z) :=
  let '(b, spans, pos) := st in
  lit ← go_slice tmpl pos (m_start m);
  let b := b ++ lit in
  '(lo, hi) ← group 1 (m_caps m);
  name ← go_slice tmpl lo hi;
  let val := default [] (vals !! name) in
  let spStart := len b in
  let b := b ++ val in
  Some (b, spans ++ [MkSpan spStart (len b) [] (categoryFor name)], m_end m).

Definition fill (tmpl : bytes) (vals : gmap bytes bytes) : option (bytes * list span) :=
  '(b, spans, pos) ← fold_opt (fill_step tmpl vals) ([], [], 0) (FindAll placeholderRe tmpl);
  rest ← go_slice tmpl pos (len tmpl);
  Some (b ++ rest, spans).

Definition positiveRecord (g : gen) (i : Z) : rand record :=
  tmpl ← pick positiveTemplates;
  vals ← valuesFor g tmpl;
  '(text, spans) ← lift (fill tmpl vals);
  mret (MkRecord ("blind-" ++ zero_pad 5 i) text spans).

Definition negativeTemplates (g : gen) : rand (list bytes) :=
  famous ← choose (g_famous g);
  mret (negativeTemplates_with (join_words " " famous)).

(** The pool is built twice: once to be indexed, once for its length. *)
Definition negativeRecord (g : gen) (i : Z) : rand record :=
  pool ← negativeTemplates g;
  pool' ← negativeTemplates g;
  k ← Intn (Z.of_nat (length pool'));
  tmpl ← lift (pool !! Z.to_nat k);
  '(text, _) ← lift (fill tmpl ∅);
  mret (MkRecord ("blind-neg-" ++ zero_pad 5 i) text []).

(** The [n] rounds from [i] on. *)
Fixpoint generate_loop (g : gen) (n : nat) (i : Z) : rand (list record) :=
  match n with
  | O => mret []
  | S n =>
      x ← Float64;
      r ← (if f64_ltb x (f64_lit 2 10) then negativeRecord g i else positiveRecord g i);
      rs ← generate_loop g n (i + 1);
      mret (r :: rs)
  end.

(** [make] panics when the count is negative. *)
Definition generate (g : gen) (n : Z) : rand (list record) :=
  if n <? 0 then lift None else generate_loop g (Z.to_nat n) 0.
End Generator.

Definition demo_gen : option gen := newGen names_files.

Example demo_texts :
  (λ '(rs, _), map r_Text rs) <$> (g ← demo_gen; @generate _ _ lcg_float64 g 4 2) =
  Some (strs ["версия 1.2.3"; "Я Назарова Юлия Константиновна, СНИЛС 151-835-214 50";
     "Уважаемый Николаев Авксентий Павлович, ваше водительское 06 27 003077 готово"; "дата 31.02.2020"]).
Proof. vm_compute. reflexivity. Qed.
