(* ===== verification/GenSound.v ===== *)
(** * The labels of the generated corpus

    Theorems about [Gen]: [fill] labels exactly the values it puts in, the generator
    never panics, and what it writes is what its templates and its value generators
    say; its numbers and dates are valid for the validators of the detectors. *)

From S2P Require Import Prelude GoText Float64 Regexp RegexpSyntax Validators Synth Dict Synthetic Gen.

(** ** Filling a template *)

Section Fill.
Context `{Unicode} (tmpl : bytes) (vals : gmap bytes bytes).

Definition value_at (m : found) : bytes := default [] (vals !! submatch tmpl m 1).
Definition placeholder_at (m : found) : bytes := slice tmpl (m_start m) (m_end m).

(** Matches in the template from [pos] on, one after the other. *)
Fixpoint in_order (pos : Z) (ms : list found) : Prop :=
  match ms with
  | [] => pos <= len tmpl
  | m :: ms =>
      pos <= m_start m ∧ m_start m <= m_end m ∧
      (∃ lo hi, group 1 (m_caps m) = Some (lo, hi) ∧ 0 <= lo ∧ lo <= hi ∧ hi <= len tmpl) ∧ in_order (m_end m) ms
  end.

Lemma in_order_le pos ms : in_order pos ms → pos <= len tmpl.
Proof.
  revert pos. induction ms as [|m ms IH]; intros pos; cbn [in_order]; [done|].
  intros (? & ? & _ & Hms%IH). lia.
Qed.

(** The text from [pos] on, and its labels when it starts at [off]. *)
Fixpoint rendered (pos : Z) (ms : list found) : bytes :=
  match ms with
  | [] => slice tmpl pos (len tmpl)
  | m :: ms => slice tmpl pos (m_start m) ++ value_at m ++ rendered (m_end m) ms
  end.

Fixpoint labels (off pos : Z) (ms : list found) : list Gen.span :=
  match ms with
  | [] => []
  | m :: ms =>
      let s := off + (m_start m - pos) in
      let e := s + len (value_at m) in
      Gen.MkSpan s e [] (categoryFor (submatch tmpl m 1)) :: labels e (m_end m) ms
  end.

Lemma fill_step_eq b spans pos m lo hi :
  0 <= pos → pos <= m_start m → m_start m <= len tmpl →
  group 1 (m_caps m) = Some (lo, hi) → 0 <= lo → lo <= hi → hi <= len tmpl →
  let b' := b ++ slice tmpl pos (m_start m) in
  fill_step tmpl vals (b, spans, pos) m =
    Some (b' ++ value_at m,
      spans ++ [Gen.MkSpan (len b') (len (b' ++ value_at m)) [] (categoryFor (submatch tmpl m 1))], m_end m).
Proof.
  intros ? ? ? Hg ? ? ?. cbv zeta. unfold value_at, submatch. rewrite Hg. unfold fill_step.
  rewrite go_slice_Some by done. cbn [mbind option_bind]. rewrite Hg. cbn [mbind option_bind].
  by rewrite go_slice_Some by done.
Qed.

Lemma fill_from b spans pos ms :
  0 <= pos → in_order pos ms →
  ('(b, _, pos) ← fold_opt (fill_step tmpl vals) (b, spans, pos) ms;
   rest ← go_slice tmpl pos (len tmpl); Some (b ++ rest)) = Some (b ++ rendered pos ms) ∧
  ('(_, spans, _) ← fold_opt (fill_step tmpl vals) (b, spans, pos) ms; Some spans) =
    Some (spans ++ labels (len b) pos ms).
Proof.
  revert b spans pos. induction ms as [|m ms IH]; intros b spans pos Hp; cbn [in_order fold_opt rendered labels].
  { intros Hl. cbn [mbind option_bind]. rewrite go_slice_Some by lia. cbn [mbind option_bind]. by rewrite app_nil_r. }
  intros (Hle & Hse & (lo & hi & Hg & Hlo & Hhi & Hh) & Hms). pose proof (in_order_le _ _ Hms).
  rewrite (fill_step_eq _ _ _ _ lo hi) by (done || lia). cbn [mbind option_bind].
  destruct (IH ((b ++ slice tmpl pos (m_start m)) ++ value_at m)
    (spans ++ [Gen.MkSpan (len (b ++ slice tmpl pos (m_start m))) (len ((b ++ slice tmpl pos (m_start m)) ++ value_at m)) []
      (categoryFor (submatch tmpl m 1))]) (m_end m)) as [-> ->]; [lia|done|].
  rewrite <- !app_assoc. split; [done|]. cbn [app]. do 2 f_equal.
  rewrite !len_app, len_slice by lia. repeat (f_equal; try lia).
Qed.

(** Replaces each labelled place of [text] from [pos] on by a placeholder. *)
Fixpoint unfill (text : bytes) (pos : Z) (spans : list Gen.span) (phs : list bytes) : bytes :=
  match spans, phs with
  | s :: spans, ph :: phs => slice text pos (s_Start s) ++ ph ++ unfill text (s_End s) spans phs
  | _, _ => slice text pos (len text)
  end.

(** What a label says about the text. *)
Definition label_of (text : bytes) (m : found) (s : Gen.span) : Prop :=
  0 <= s_Start s ∧ s_End s <= len text ∧ slice text (s_Start s) (s_End s) = value_at m ∧
  s_Category s = categoryFor (submatch tmpl m 1).

Lemma slice_tail (s u : bytes) : slice (s ++ u) (len s) (len (s ++ u)) = u.
Proof. rewrite len_app. pose proof (slice_app_mid s u []) as Hu. by rewrite app_nil_r in Hu. Qed.

Lemma labels_spec b pos ms :
  0 <= pos → in_order pos ms →
  let text := b ++ rendered pos ms in let spans := labels (len b) pos ms in
  Forall2 (label_of text) ms spans ∧ Forall (λ s, len b <= s_Start s ∧ s_Start s <= s_End s) spans ∧
  StronglySorted (λ s s', s_End s <= s_Start s') spans ∧
  unfill text (len b) spans (map placeholder_at ms) = slice tmpl pos (len tmpl).
Proof.
  cbv zeta. revert b pos. induction ms as [|m ms IH]; intros b pos Hp; cbn [in_order rendered labels map unfill].
  { intros Hl. split_and!; try constructor. apply slice_tail. }
  intros (Hle & Hse & _ & Hms). pose proof (in_order_le _ _ Hms).
  set (lit := slice tmpl pos (m_start m)). assert (len lit = m_start m - pos) as Hlit by (apply len_slice; lia).
  destruct (IH ((b ++ lit) ++ value_at m) (m_end m) ltac:(lia) Hms) as (Hf & Hlo & Hs & Hu). clear IH.
  assert (len ((b ++ lit) ++ value_at m) = len b + (m_start m - pos) + len (value_at m)) as E
    by (rewrite !len_app; lia). rewrite E in *. clear E.
  rewrite <- !app_assoc in *. set (text := b ++ lit ++ value_at m ++ rendered (m_end m) ms) in *.
  pose proof (len_nonneg (value_at m)). pose proof (len_nonneg b). pose proof (len_nonneg (rendered (m_end m) ms)).
  split_and!.
  - constructor; [|done]. split_and!; cbn [s_Start s_End s_Category]; [lia| |  |done].
    + unfold text. rewrite !len_app. lia.
    + unfold text. rewrite app_assoc. rewrite <- Hlit, <- len_app. apply slice_app_mid.
  - constructor; [cbn [s_Start s_End]; lia|]. eapply Forall_impl; [exact Hlo|]. intros s. cbn beta. lia.
  - constructor; [done|]. eapply Forall_impl; [exact Hlo|]. intros s. cbn beta. cbn [s_End]. lia.
  - cbn [s_Start s_End]. rewrite Hu. unfold text. rewrite <- Hlit, slice_app_mid.
    rewrite (slice_split tmpl pos (m_start m) (len tmpl)), (slice_split tmpl (m_start m) (m_end m) (len tmpl)) by lia.
    reflexivity.
Qed.

Lemma placeholder_group m : match_in [] placeholderRe tmpl m → is_Some (group 1 (m_caps m)) →
  ∃ lo hi, group 1 (m_caps m) = Some (lo, hi) ∧ 0 <= lo ∧ lo <= hi ∧ hi <= len tmpl.
Proof.
  intros [_ Hg _ _] [[lo hi] E]. exists lo, hi. split; [done|]. apply group_in in E.
  rewrite Forall_forall in Hg. destruct (Hg _ E) as (_ & _ & _ & v & Hv & _).
  by destruct (at_runes_slice _ _ _ _ Hv) as [_ ?].
Qed.

Lemma matches_in_order ms :
  Forall (match_in [] placeholderRe tmpl) ms → Forall (λ m, is_Some (group 1 (m_caps m))) ms →
  StronglySorted (λ m m', m_end m <= m_start m') ms →
  ∀ pos, pos <= len tmpl → Forall (λ m, pos <= m_start m) ms → in_order pos ms.
Proof.
  intros Hin Hg Hs. induction Hs as [|m ms Hs IH Hm]; intros pos Hp Hlo; cbn [in_order]; [done|].
  decompose_Forall. pose proof (match_in_bounds [] placeholderRe tmpl m) as Hb.
  destruct Hb as (? & ? & ?); [done|]. split_and!; [done|done|by apply placeholder_group|]. by apply IH.
Qed.
End Fill.

(** A filled template labels exactly the values: one label for each placeholder, in
    order and without overlap, with the value of the placeholder's name in its place and
    the category of the name; putting the placeholders back gives the template. *)
Lemma fill_spec `{Unicode} tmpl vals :
  ∃ text spans, fill tmpl vals = Some (text, spans) ∧
    Forall2 (label_of tmpl vals text) (FindAll placeholderRe tmpl) spans ∧
    Forall (λ s, 0 <= s_Start s ∧ s_Start s <= s_End s) spans ∧
    StronglySorted (λ s s', s_End s <= s_Start s') spans ∧
    unfill text 0 spans (map (placeholder_at tmpl) (FindAll placeholderRe tmpl)) = tmpl.
Proof.
  destruct (FindAll_in [] placeholderRe tmpl) as [Hin Hs].
  pose proof (FindAll_sets 1 placeholderRe tmpl ltac:(vm_compute; reflexivity)) as Hg.
  assert (in_order tmpl 0 (FindAll placeholderRe tmpl)) as Ho.
  { apply matches_in_order; [done|done|done|apply len_nonneg|]. eapply Forall_impl; [exact Hin|].
    intros m Hm. by destruct (match_in_bounds _ _ _ _ Hm). }
  destruct (labels_spec tmpl vals [] 0 _ ltac:(lia) Ho) as (Hf & Hlo & Hd & Hu). cbn [app] in *.
  rewrite slice_full in Hu. rewrite len_nil in *.
  exists (rendered tmpl vals 0 (FindAll placeholderRe tmpl)), (labels tmpl vals 0 0 (FindAll placeholderRe tmpl)).
  split_and!; try done. unfold fill. destruct (fill_from tmpl vals [] [] 0 _ ltac:(lia) Ho) as [H1 H2].
  destruct (fold_opt _ _ _) as [[[b spans] pos]|]; [|done]. cbn [mbind option_bind app] in *.
  destruct (go_slice tmpl pos (len tmpl)) as [rest|]; [|done]. cbn [mbind option_bind] in *. rewrite len_nil in H2.
  injection H1 as ->. injection H2 as ->. reflexivity.
Qed.

(** ** The formatted numbers keep their digits *)

Lemma digits_cons_digit b s : digit_byte b = true → digits (b :: s) = b :: digits s.
Proof. intros Hb. rewrite !digits_bytes. cbn [List.filter]. by rewrite Hb. Qed.

Lemma digits_cons_other b s : digit_byte b = false → digits (b :: s) = digits s.
Proof. intros Hb. rewrite !digits_bytes. cbn [List.filter]. by rewrite Hb. Qed.

Lemma digits_empty : digits [] = [].
Proof. done. Qed.

(** Splits a digit string of known length into its bytes. *)
Ltac explode_digits d Hd :=
  let Hl := fresh "Hl" in
  destruct Hd as [Hl Hd]; repeat (destruct d as [|? d]; [discriminate Hl|cbn [length] in Hl; injection Hl as Hl]);
  destruct d; [clear Hl|discriminate Hl];
  cbn [forallb] in Hd; rewrite !andb_true_iff in Hd; destruct_and!.

(** Computes the digits of a text of digit bytes and literal bytes. *)
Ltac collect_digits :=
  repeat first
    [ rewrite digits_cons_digit by assumption
    | rewrite digits_cons_other by (vm_compute; reflexivity)
    | rewrite digits_cons_digit by (vm_compute; reflexivity)
    | rewrite digits_empty ].

Ltac each_format Hf :=
  repeat (apply elem_of_cons in Hf as [->|Hf]; [|]); [..|by apply elem_of_nil in Hf].

Lemma format_card_digits f d :
  digit_string 16 d → f ∈ card_formats → ∃ v, format_card f d = Some v ∧ digits v = d.
Proof.
  intros Hd Hf. explode_digits d Hd. unfold card_formats in Hf. cbn [strs map] in Hf.
  each_format Hf; (eexists; split; [vm_compute; reflexivity|collect_digits; reflexivity]).
Qed.

Lemma format_snils_digits coin d :
  digit_string 11 d → ∃ v, format_snils coin d = Some v ∧ digits v = d.
Proof.
  intros Hd. explode_digits d Hd. unfold format_snils.
  destruct (coin =? 0); (eexists; split; [vm_compute; reflexivity|collect_digits; reflexivity]).
Qed.

Lemma format_passport_digits f d :
  digit_string 10 d → f ∈ passport_formats → ∃ v, format_passport f d = Some v ∧ digits v = d.
Proof.
  intros Hd Hf. explode_digits d Hd. unfold passport_formats in Hf. cbn [strs map] in Hf.
  each_format Hf; (eexists; split; [vm_compute; reflexivity|collect_digits; reflexivity]).
Qed.

(** Some formats write the trunk digit 8 for the country code 7. *)
Lemma format_phone_digits f d :
  digit_string 10 d → f ∈ phone_formats →
  ∃ v, format_phone f ("7" ++ d) = Some v ∧ (digits v = "7" ++ d ∨ digits v = "8" ++ d).
Proof.
  intros Hd Hf. explode_digits d Hd. unfold phone_formats in Hf. cbn [strs map] in Hf.
  each_format Hf; (eexists; split; [vm_compute; reflexivity|]);
    first [left; collect_digits; reflexivity|right; collect_digits; reflexivity].
Qed.

(** ** The validators read the digits only *)

Lemma digits_idem v d : digits v = d → digits d = d.
Proof.
  intros <-. apply digits_all, forallb_forall. intros b Hb%list_elem_of_In.
  pose proof (digits_digit v) as Hd. rewrite Forall_forall in Hd. by apply Hd.
Qed.

Lemma luhn_digits v d : digits v = d → luhn v = luhn d.
Proof. intros Hv. unfold luhn. by rewrite Hv, (digits_idem v d Hv). Qed.

Lemma snils_digits v d : digits v = d → Validators.snils v = Validators.snils d.
Proof. intros Hv. unfold Validators.snils. by rewrite Hv, (digits_idem v d Hv). Qed.

(** ** Dates *)

Lemma daysInMonth_synth y m : 1 <= m <= 12 → Gen.daysInMonth y m = Some (Synth.daysInMonth y m).
Proof.
  intros Hm. unfold Gen.daysInMonth, Synth.daysInMonth. change (Gen.isLeapYear y) with (Synth.isLeapYear y).
  destruct (_ && _); [done|]. replace (m <? 1) with false by lia.
  apply list_lookup_lookup_total_lt. simpl. lia.
Qed.

Lemma two_digits_table :
  Forall (λ n, digits_val (Gen.twoDigits n) = n ∧ Gen.atoi (Gen.twoDigits n) = n ∧ number (Gen.twoDigits n)) (z_range 1 31).
Proof. apply (bool_decide_unpack _). by vm_compute. Qed.

Lemma two_digits n : 1 <= n <= 31 →
  digits_val (Gen.twoDigits n) = n ∧ Gen.atoi (Gen.twoDigits n) = n ∧ number (Gen.twoDigits n).
Proof. intros Hn%z_range_spec. pose proof two_digits_table as Ht. rewrite Forall_forall in Ht. auto. Qed.

Lemma year_digits y : 1950 <= y <= 2005 → digits_val (Gen.itoa y) = y ∧ number (Gen.itoa y).
Proof.
  intros Hy. split; [by apply decimal_val; lia|]. by apply itoa_number.
Qed.

(** The date in words is read without its case: its letters are lower case. *)
Definition word_date (y m d : Z) : bytes :=
  Gen.twoDigits d ++ " " ++ default [] (Gen.monthGenitiveList !! Z.to_nat (m - 1)) ++ " " ++ Gen.itoa y ++ " года".

Definition word_date_ok `{Unicode} (s : bytes) : bool :=
  eq_bytes (trim_space s) s && bool_decide (utf8_valid s) && forallb lower_fixed (runes s) &&
  match Find wordDateRe s with Some m => wordDate (submatch s m) | None => false end.

Lemma word_date_ok_date `{Unicode} s : word_date_ok s = true → date s = true.
Proof.
  unfold word_date_ok, eq_bytes. rewrite !andb_true_iff, !bool_decide_eq_true. intros (((Ht & Hv) & Hl) & Hm).
  unfold date. rewrite Ht, lower_string_fixed by done. by destruct (Find wordDateRe s).
Qed.

Lemma word_dates_ok `{Unicode} :
  forallb (λ y, forallb (λ m, forallb (λ d, negb (validYMD y m d) || word_date_ok (word_date y m d))
    (z_range 1 31)) (z_range 1 12)) (z_range 1950 2005) = true.
Proof. vm_cast_no_check (eq_refl true). Qed.

Lemma word_date_accepted `{Unicode} y m d :
  1950 <= y <= 2005 → 1 <= m <= 12 → 1 <= d <= 31 → calendar_date y m d → date (word_date y m d) = true.
Proof.
  intros Hy Hm Hd Hc. apply word_date_ok_date. pose proof word_dates_ok as Ht. rewrite forallb_forall in Ht.
  specialize (Ht y ltac:(by apply list_elem_of_In, z_range_spec)). cbv beta in Ht. rewrite forallb_forall in Ht.
  specialize (Ht m ltac:(by apply list_elem_of_In, z_range_spec)). cbv beta in Ht. rewrite forallb_forall in Ht.
  specialize (Ht d ltac:(by apply list_elem_of_In, z_range_spec)). cbv beta in Ht.
  rewrite validYMD_calendar, (bool_decide_true _ Hc) in Ht. exact Ht.
Qed.

Lemma sprintf_dots a b c : sprintf "%s.%s.%s" [a; b; c] = a ++ "."%byte :: b ++ "."%byte :: c.
Proof. rewrite <- (app_nil_r c) at 2. reflexivity. Qed.

Lemma sprintf_dashes a b c : sprintf "%s-%s-%s" [a; b; c] = a ++ "-"%byte :: b ++ "-"%byte :: c.
Proof. rewrite <- (app_nil_r c) at 2. reflexivity. Qed.

Lemma format_birthDate_accepted `{Unicode} f y m d :
  1950 <= y <= 2005 → 1 <= m <= 12 → 1 <= d <= 31 → calendar_date y m d → f ∈ birthDate_formats →
  ∃ v, format_birthDate f (Gen.twoDigits d) (Gen.twoDigits m) (Gen.itoa y) = Some v ∧ date v = true.
Proof.
  intros Hy Hm Hd Hc Hf. destruct (two_digits d Hd) as (Ed & _ & Nd). destruct (two_digits m ltac:(lia)) as (Em & Am & Nm).
  destruct (year_digits y Hy) as (Ey & Ny).
  assert (validYMD y m d = true) as Hv by (rewrite validYMD_calendar; by apply bool_decide_eq_true).
  unfold birthDate_formats in Hf. cbn [strs map] in Hf.
  each_format Hf; unfold format_birthDate.
  - eexists. split; [reflexivity|]. rewrite sprintf_dots, date_of_numbers, Ed, Em, Ey, Hv by done.
    by rewrite ?orb_true_r.
  - rewrite Am. unfold Gen.monthGenitive. replace (_ || _) with false by lia.
    destruct (lookup_lt_is_Some_2 Gen.monthGenitiveList (Z.to_nat (m - 1))) as [mg Hmg]; [simpl; lia|].
    pose proof (word_date_accepted y m d Hy Hm Hd Hc) as Hw. unfold word_date in Hw. rewrite Hmg in *.
    eexists. split; [reflexivity|]. exact Hw.
  - eexists. split; [reflexivity|]. rewrite sprintf_dashes, date_of_numbers, Ed, Em, Ey, Hv by done.
    by rewrite ?orb_true_r.
Qed.

(** ** The values *)

Section Values.
Context `{Unicode} `{RngFloat64}.

Lemma always_choose {A : Type} (l : list A) P : l ≠ [] → Forall P l → always (choose l) P.
Proof.
  intros Hl HP. unfold choose. eapply always_bind; [apply always_intn; destruct l; [done|simpl; lia]|].
  intros i Hi. cbv beta in Hi. destruct (lookup_lt_is_Some_2 l (Z.to_nat i)) as [w Hw]; [lia|].
  intros r. exists w, r. unfold lift. rewrite Hw. split; [done|]. eapply Forall_lookup_1; done.
Qed.

Lemma always_member l : l ≠ [] → always (pick l) (λ f, f ∈ l).
Proof. intros Hl. apply always_pick; [done|]. by apply Forall_forall. Qed.

Lemma always_lift {A : Type} (o : option A) (P : A → Prop) : (∃ a, o = Some a ∧ P a) → always (lift o) P.
Proof. intros (a & -> & HP) r. by exists a, r. Qed.

Lemma always_card : always Gen.card (λ v, luhn v = true ∧ digit_string 16 (digits v)).
Proof.
  unfold Gen.card. eapply always_bind; [exact always_Card|]. intros d [Hl Hd].
  eapply always_bind; [by apply always_member|]. intros f Hf. apply always_lift.
  destruct (format_card_digits f d Hd Hf) as (v & Hv & Hdv). exists v. by rewrite (luhn_digits v d Hdv), Hdv.
Qed.

Lemma always_inn : always Gen.inn (λ v, Validators.inn v = true ∧ digit_string 12 v).
Proof. exact always_INN. Qed.

Lemma always_snils : always Gen.snils (λ v, Validators.snils v = true ∧ digit_string 11 (digits v)).
Proof.
  unfold Gen.snils. eapply always_bind; [exact always_SNILS|]. intros d [Hl Hd].
  eapply always_bind; [by apply always_intn|]. intros coin _. apply always_lift.
  destruct (format_snils_digits coin d Hd) as (v & Hv & Hdv). exists v. by rewrite (snils_digits v d Hdv), Hdv.
Qed.

Lemma always_phone : always Gen.phone (λ v, Validators.phone v = true).
Proof.
  unfold Gen.phone, synthPhoneDigits, Gen.randDigits.
  eapply (always_bind _ _ (λ d, ∃ ds, d = "7" ++ "9" ++ ds ∧ digit_string 9 ds)).
  { gen_step. intros ds Hds. apply always_ret. by exists ds. }
  intros d (ds & -> & Hds). eapply always_bind; [by apply always_member|]. intros f Hf. apply always_lift.
  assert (digit_string 10 ("9" ++ ds)) as H10 by (by apply (digit_string_app 1 9 "9")).
  destruct (format_phone_digits f _ H10 Hf) as (v & Hv & Hdv). exists v. split; [exact Hv|].
  unfold Validators.phone. destruct H10 as [Hl _]. unfold len.
  destruct Hdv as [-> | ->]; rewrite length_app, Hl; done.
Qed.

Lemma always_passport : always Gen.passport (λ v, digit_string 10 (digits v) ∧
  Validators.passport v = negb (part_is (digits v) 4 10 "000000")).
Proof.
  unfold Gen.passport, synthPassportDigits, Gen.randDigits.
  eapply (always_bind _ _ (λ d, ∃ ds, d = "4" ++ ds ∧ digit_string 9 ds)).
  { gen_step. intros a Ha. gen_step. intros b Hb. apply always_ret. exists (a ++ b). split; [done|].
    by apply (digit_string_app 3 6). }
  intros d (ds & -> & Hds). eapply always_bind; [by apply always_member|]. intros f Hf. apply always_lift.
  assert (digit_string 10 ("4" ++ ds)) as H10 by (by apply (digit_string_app 1 9 "4")).
  destruct (format_passport_digits f _ H10 Hf) as (v & Hv & Hdv). exists v. split; [exact Hv|].
  rewrite Hdv. split; [done|]. unfold Validators.passport. rewrite Hdv. destruct H10 as [Hl _]. unfold len. rewrite Hl.
  done.
Qed.

Lemma always_birthDate : always Gen.birthDate (λ v, date v = true).
Proof.
  unfold Gen.birthDate. eapply always_bind; [by apply always_member|]. intros f Hf.
  eapply (always_bind _ _ (λ '(day, month, year), ∃ y m d, day = Gen.twoDigits d ∧ month = Gen.twoDigits m ∧
    year = Gen.itoa y ∧ 1950 <= y <= 2005 ∧ 1 <= m <= 12 ∧ 1 <= d <= 31 ∧ calendar_date y m d)).
  { unfold synthDateParts. gen_step. intros y Hy. gen_step. intros m Hm. cbv beta in *.
    pose proof (daysInMonth_pos (1950 + y) (1 + m) ltac:(lia)).
    eapply always_bind.
    { apply (always_lift _ (λ n, n = Synth.daysInMonth (1950 + y) (1 + m))). rewrite daysInMonth_synth by lia. by eexists. }
    intros n ->. eapply always_bind; [apply always_intn; lia|]. intros d Hd. cbv beta in *. apply always_ret.
    exists (1950 + y), (1 + m), (1 + d). split_and!; try done; try lia. apply daysInMonth_validYMD; lia. }
  intros [[day month] year] (y & m & d & -> & -> & -> & Hy & Hm & Hd & Hc). apply always_lift.
  by apply format_birthDate_accepted.
Qed.

(** What is checked of a drawn value: the validator of the detectors; of a passport number
    that it passes the validator or has the serial 000000, which can be drawn and which
    the validator rejects. *)
Definition checks : list (bytes * (bytes → bool)) := [
  (go_bytes "card", luhn); (go_bytes "inn", Validators.inn); (go_bytes "snils", Validators.snils);
  (go_bytes "phone", Validators.phone); (go_bytes "birth_date", date);
  (go_bytes "passport", λ v, Validators.passport v || part_is (digits v) 4 10 "000000")].

Definition value_ok (name v : bytes) : Prop := v ≠ [] ∧ ∀ check, assoc name checks = Some check → check v = true.

(** What the dictionaries must give. *)
Record gen_ok (g : gen) : Prop := {
  go_names : g_names g ≠ [];
  go_surnames : g_surnames g ≠ [] ∧ Forall (λ s, is_Some (Gen.feminize s)) (g_surnames g);
  go_cities : g_cities g ≠ [];
  go_streets : g_streets g ≠ [];
  go_famous : g_famous g ≠ [];
  go_traps : Forall (λ f, Forall (λ tmpl, fill tmpl ∅ = Some (tmpl, []))
    (negativeTemplates_with (join_words " " f))) (g_famous g)
}.

Context (g : gen) (Hg : gen_ok g).

Lemma always_any l : l ≠ [] → always (pick l) (λ _, True).
Proof. intros Hl. apply always_pick; [done|]. by apply Forall_true. Qed.

Lemma always_names : always (synthFullName (g_names g) (g_surnames g)) (λ v, v ≠ []).
Proof.
  destruct Hg as [Hn [Hs Hf] _ _ _ _]. unfold synthFullName.
  eapply always_bind; [by apply always_any|]. intros first _.
  eapply always_bind; [by apply (always_pick _ _ Hs Hf)|]. intros surname [t Ht].
  eapply always_bind; [by apply always_any|]. intros patr _.
  destruct (isFemaleName first).
  - eapply always_bind; [apply (always_lift _ (λ _, True)); by exists t|]. intros s _.
    eapply always_bind; [by apply always_any|]. intros p _. apply always_ret. by apply app_nonempty_r.
  - apply always_ret. by apply app_nonempty_r.
Qed.

Lemma always_genitive : always (synthFullNameGenitive (g_names g) (g_surnames g)) (λ v, v ≠ []).
Proof.
  destruct Hg as [Hn [Hs Hf] _ _ _ _]. unfold synthFullNameGenitive.
  eapply always_bind; [by apply always_any|]. intros first _.
  eapply always_bind; [by apply (always_pick _ _ Hs Hf)|]. intros surname [t Ht].
  eapply always_bind; [by apply always_any|]. intros patr _.
  eapply (always_bind _ _ (λ _, True)); [|intros [s p] _; apply always_ret; by apply app_nonempty_r].
  destruct (isFemaleName first); [|by apply always_ret].
  eapply always_bind; [apply (always_lift _ (λ _, True)); by exists t|]. intros s _.
  eapply always_bind; [by apply always_any|]. intros p _. by apply always_ret.
Qed.

Lemma cityPrepositional_nonempty c : cityPrepositional c ≠ [].
Proof. unfold cityPrepositional. repeat case_match; by apply app_nonempty_r. Qed.

Lemma zero_pad_nonempty w n : 0 <= n → zero_pad w n ≠ [].
Proof. intros Hn. by apply app_nonempty_r, decimal_nonempty. Qed.

Lemma value_ok_plain name v : assoc name checks = None → v ≠ [] → value_ok name v.
Proof. intros Hn Hv. split; [done|]. by rewrite Hn. Qed.

Lemma value_ok_check name check v :
  assoc name checks = Some check → check [] = false → check v = true → value_ok name v.
Proof. intros Hn He Hv. split; [|by rewrite Hn; intros ? [= <-]]. intros ->. by rewrite He in Hv. Qed.

(** Draws whatever a generator draws, then shows that the value is not empty. *)
Ltac draw_plain :=
  repeat (eapply always_bind; [first [by apply always_intn|by apply always_member]|]; intros ? ?);
  cbv beta in *.

Lemma always_email : always (Gen.email g) (λ v, v ≠ []).
Proof. unfold Gen.email. destruct Hg as [_ [Hs _] _ _ _ _]. draw_plain. apply always_ret. by apply app_nonempty_r. Qed.

Lemma always_address : always (address g) (λ v, v ≠ []).
Proof.
  unfold address, Gen.city. destruct Hg as [_ _ Hc Hs _ _]. draw_plain. apply always_ret. unfold eq_bytes.
  repeat case_bool_decide; subst; [done|done|]. by apply app_nonempty_r.
Qed.

Lemma always_birthPlace : always (birthPlace g) (λ v, v ≠ []).
Proof.
  unfold birthPlace, Gen.city. destruct Hg as [_ _ Hc _ _ _]. draw_plain. apply always_ret. unfold eq_bytes.
  repeat case_bool_decide; subst; [done|done|]. apply cityPrepositional_nonempty.
Qed.

Lemma always_issuer : always (issuer g) (λ v, v ≠ []).
Proof.
  unfold issuer, Gen.city. destruct Hg as [_ _ Hc _ _ _]. draw_plain. apply always_ret.
  match goal with Ho : _ ∈ strs _ |- _ => rename Ho into Hf end. cbn [strs map] in Hf. each_format Hf; done.
Qed.

Lemma always_citizenship : always citizenship (λ v, v ≠ []).
Proof. apply always_pick; [done|]. repeat constructor; done. Qed.

Lemma always_driverLicense : always driverLicense (λ v, v ≠ []).
Proof.
  unfold driverLicense. draw_plain. case_match; draw_plain; apply always_ret; by apply app_nonempty_r.
Qed.

Lemma upper_nonempty s : s ≠ [] → upper_string s ≠ [].
Proof.
  intros Hs. unfold upper_string, map_runes, runes. rewrite chunks_cons by done.
  apply app_nonempty_l, encode_rune_nonempty.
Qed.

Lemma always_cardHolder : always (cardHolder g) (λ v, v ≠ []).
Proof.
  unfold cardHolder. destruct Hg as [Hn [Hs _] _ _ _ _]. draw_plain. apply always_ret.
  by apply upper_nonempty, app_nonempty_r.
Qed.

Lemma values_spec : Forall (λ '(name, m), always m (value_ok name)) (values g).
Proof.
  assert (∀ name (m : rand bytes), assoc name checks = None → always m (λ v, v ≠ []) → always m (value_ok name)) as Hplain.
  { intros name m Hn Hm. eapply always_impl; [exact Hm|]. intros v. by apply value_ok_plain. }
  unfold values. repeat (apply Forall_cons; split); [..|constructor].
  - apply Hplain; [done|]. exact always_names.
  - apply Hplain; [done|]. exact always_genitive.
  - eapply always_impl; [exact always_phone|]. intros v Hv. by apply (value_ok_check _ Validators.phone).
  - eapply always_impl; [exact always_passport|]. intros v [_ Hv]. eapply value_ok_check; [reflexivity|reflexivity|].
    cbv beta. rewrite Hv. by destruct (part_is _ _ _ _).
  - eapply always_impl; [exact always_birthDate|]. intros v Hv. by apply (value_ok_check _ date).
  - apply Hplain; [done|]. exact always_address.
  - eapply always_impl; [exact always_card|]. intros v [Hv _]. by apply (value_ok_check _ luhn).
  - apply Hplain; [done|]. unfold cvv. draw_plain. apply always_ret, zero_pad_nonempty. lia.
  - apply Hplain; [done|]. exact always_email.
  - eapply always_impl; [exact always_inn|]. intros v [Hv _]. by apply (value_ok_check _ Validators.inn).
  - eapply always_impl; [exact always_snils|]. intros v [Hv _]. by apply (value_ok_check _ Validators.snils).
  - apply Hplain; [done|]. exact always_issuer.
  - apply Hplain; [done|]. unfold division. draw_plain. apply always_ret. by apply app_nonempty_r.
  - apply Hplain; [done|]. exact always_birthPlace.
  - apply Hplain; [done|]. exact always_citizenship.
  - apply Hplain; [done|]. exact always_driverLicense.
  - apply Hplain; [done|]. unfold foreignPassport. draw_plain. apply always_ret. by apply app_nonempty_r.
  - apply Hplain; [done|]. exact always_cardHolder.
Qed.

(** ** Records *)

Definition known (name : bytes) : bool := bool_decide (name ∈ map fst (values g)).

Lemma assoc_in {A : Type} k (l : list (bytes * A)) : k ∈ map fst l → ∃ v, assoc k l = Some v ∧ (k, v) ∈ l.
Proof.
  induction l as [|[k' v] l IH]; [by intros ?%elem_of_nil|]. cbn [map fst assoc]. unfold eq_bytes.
  case_bool_decide as Hk; [subst; intros _; exists v; split; [done|left]|].
  intros [->|Hin]%elem_of_cons; [done|]. destruct (IH Hin) as (w & Hw & Hl). exists w. split; [done|by right].
Qed.

(** A value that the generator can draw for the name. *)
Definition drawn_for (name v : bytes) : Prop := value_ok name v ∧ ∃ st st', value g name st = Some (v, st').

Lemma always_value name : known name = true → always (value g name) (drawn_for name).
Proof.
  unfold known. rewrite bool_decide_eq_true. intros (m & Hm & Hin)%assoc_in r. unfold drawn_for, value. rewrite Hm.
  cbn [default]. pose proof values_spec as Hv. rewrite Forall_forall in Hv. destruct (Hv _ Hin r) as (v & r' & E & Hok).
  exists v, r'. split; [exact E|]. split; [exact Hok|]. by exists r, r'.
Qed.

Lemma always_values_loop names vals :
  forallb known names = true → (∀ name v, vals !! name = Some v → drawn_for name v) →
  always (values_loop g names vals) (λ vals',
    (∀ name v, vals !! name = Some v → vals' !! name = Some v) ∧
    (∀ name v, vals' !! name = Some v → drawn_for name v) ∧ Forall (λ name, is_Some (vals' !! name)) names).
Proof.
  revert vals. induction names as [|name names IH]; intros vals Hk Hd; cbn [values_loop].
  { by apply always_ret. }
  cbn [forallb] in Hk. apply andb_true_iff in Hk as [Hn Hk]. destruct (vals !! name) as [v|] eqn:E.
  - eapply always_impl; [by apply IH|]. cbv beta. intros vals' (Hsub & Hd' & Hall). split_and!; [done|done|].
    constructor; [|done]. exists v. auto.
  - eapply always_bind; [by apply always_value|]. intros v Hv. eapply always_impl; [apply IH; [done|]|].
    + intros name' v'. rewrite lookup_insert_Some. intros [[<- <-]|[_ ?]]; auto.
    + cbv beta. intros vals' (Hsub & Hd' & Hall). split_and!; [|done|].
      * intros name' v' Hv'. apply Hsub. rewrite lookup_insert_ne; [done|]. intros ->. congruence.
      * constructor; [|done]. exists v. apply Hsub. by rewrite lookup_insert_eq.
Qed.

Lemma positive_known : Forall (λ tmpl, forallb known (placeholders tmpl) = true) positiveTemplates.
Proof. unfold known, values. cbn [map fst]. apply (bool_decide_unpack _). vm_compute. exact I. Qed.

Definition braces (name : bytes) : bytes := "{" ++ name ++ "}".

Lemma positive_placeholders :
  Forall (λ tmpl, map (placeholder_at tmpl) (FindAll placeholderRe tmpl) = map braces (placeholders tmpl) ∧
    Forall (λ name, categoryFor name = [] ↔ name = go_bytes "full_name_gen") (placeholders tmpl)) positiveTemplates.
Proof. apply (bool_decide_unpack _). vm_compute. exact I. Qed.

(** What a label of a placeholder says: its place in the text holds a value drawn for
    the name, under the category of the name, which is empty for names in the genitive
    and for these only. *)
Definition labels_value (text : bytes) (name : bytes) (s : Gen.span) : Prop :=
  0 <= s_Start s ∧ s_End s <= len text ∧ drawn_for name (slice text (s_Start s) (s_End s)) ∧
  s_Category s = categoryFor name ∧ (s_Category s = [] ↔ name = go_bytes "full_name_gen").

(** A labelled text: one label for each placeholder of a template, in order; with the
    placeholders back in the places of the labels it is the template. *)
Definition positive (text : bytes) (spans : list Gen.span) : Prop :=
  ∃ tmpl, tmpl ∈ positiveTemplates ∧ Forall2 (labels_value text) (placeholders tmpl) spans ∧
    StronglySorted (λ s s', s_End s <= s_Start s') spans ∧
    unfill text 0 spans (map braces (placeholders tmpl)) = tmpl.

Lemma fill_positive tmpl vals text spans :
  tmpl ∈ positiveTemplates → fill tmpl vals = Some (text, spans) →
  Forall (λ name, ∃ v, vals !! name = Some v ∧ drawn_for name v) (placeholders tmpl) → positive text spans.
Proof.
  intros Ht Hf Hv. exists tmpl. destruct (fill_spec tmpl vals) as (text' & spans' & Hf' & Hl & _ & Hs & Hu).
  rewrite Hf in Hf'. injection Hf' as <- <-. pose proof positive_placeholders as Hp. rewrite Forall_forall in Hp.
  destruct (Hp tmpl Ht) as [Hb Hc]. rewrite Hb in Hu. split_and!; [done| |done|done].
  unfold placeholders in *. rewrite Forall_map in Hv, Hc. apply Forall2_fmap_l.
  clear Hb Hu Hs Ht Hf Hp. induction Hl as [|m s ms spans (Hlo & Hhi & Hval & Hcat) Hl IH]; [constructor|].
  apply Forall_cons in Hv as [(v & Hv & Hd) Hvs]. apply Forall_cons in Hc as [Hc Hcs]. constructor; [|auto].
  unfold value_at in Hval. rewrite Hv in Hval. change (default [] (Some v)) with v in Hval.
  change (labels_value text (submatch tmpl m 1) s). unfold labels_value. rewrite Hval, Hcat. done.
Qed.

(** A trap: a text without labels. *)
Definition trap (text : bytes) : Prop :=
  ∃ famous, famous ∈ g_famous g ∧ text ∈ negativeTemplates_with (join_words " " famous).

Definition record_id (i : Z) (id : bytes) : Prop := id = "blind-" ++ zero_pad 5 i ∨ id = "blind-neg-" ++ zero_pad 5 i.

Definition labelled (r : record) : Prop := positive (r_Text r) (r_Spans r) ∨ r_Spans r = [] ∧ trap (r_Text r).

Lemma always_positive i : always (positiveRecord g i) (λ r, record_id i (r_ID r) ∧ labelled r).
Proof.
  unfold positiveRecord. eapply always_bind; [by apply always_member|]. intros tmpl Ht.
  pose proof positive_known as Hk. rewrite Forall_forall in Hk. specialize (Hk tmpl Ht).
  eapply always_bind; [apply (always_values_loop _ ∅ Hk); by intros name v ?%lookup_empty_Some|].
  cbv beta. intros vals (_ & Hd & Hall). destruct (fill_spec tmpl vals) as (text & spans & Hf & _).
  eapply always_bind; [apply (always_lift _ (λ ts, ts = (text, spans))); by eexists|]. intros ? ->.
  apply always_ret. split; [by left|]. left. apply (fill_positive tmpl vals _ _ Ht Hf).
  eapply Forall_impl; [exact Hall|]. intros name [v Hv]. exists v. auto.
Qed.

Lemma always_negative i : always (negativeRecord g i) (λ r, record_id i (r_ID r) ∧ labelled r).
Proof.
  destruct Hg as [_ _ _ _ Hf Ht]. unfold negativeRecord.
  assert (always (negativeTemplates g) (λ pool, ∃ f, f ∈ g_famous g ∧ pool = negativeTemplates_with (join_words " " f))) as Hp.
  { unfold negativeTemplates. eapply always_bind.
    - apply (always_choose _ (λ f, f ∈ g_famous g)); [done|]. by apply Forall_forall.
    - intros f Hin. apply always_ret. by exists f. }
  eapply always_bind; [exact Hp|]. intros pool (f & Hin & ->). eapply always_bind; [exact Hp|].
  intros pool' (f' & _ & ->). eapply always_bind; [apply always_intn; done|]. intros k Hk. cbv beta in Hk.
  destruct (lookup_lt_is_Some_2 (negativeTemplates_with (join_words " " f)) (Z.to_nat k)) as [tmpl Htm].
  { change (length (negativeTemplates_with (join_words " " f))) with (length (negativeTemplates_with (join_words " " f'))). lia. }
  eapply always_bind; [apply (always_lift _ (λ t, t = tmpl)); by eexists|]. intros ? ->.
  rewrite Forall_forall in Ht. specialize (Ht f Hin). cbv beta in Ht. apply list_elem_of_lookup_2 in Htm.
  rewrite Forall_forall in Ht. specialize (Ht tmpl Htm). cbv beta in Ht. rewrite Ht.
  eapply always_bind; [apply (always_lift _ (λ ts, ts = (tmpl, []))); by eexists|]. intros ? ->.
  apply always_ret. split; [by right|]. right. split; [done|]. by exists f.
Qed.

Lemma always_generate_loop n i :
  always (generate_loop g n i) (λ rs, length rs = n ∧
    (∀ k r, rs !! k = Some r → record_id (i + Z.of_nat k) (r_ID r)) ∧ Forall labelled rs).
Proof.
  revert i. induction n as [|n IH]; intros i; cbn [generate_loop].
  { apply always_ret. split_and!; [done| |constructor]. intros k r. by rewrite lookup_nil. }
  eapply (always_bind _ _ (λ _, True)).
  { intros r. unfold Float64. destruct (rng_float64 r) as [x r']. by exists x, r'. }
  intros x _. eapply (always_bind _ _ (λ r, record_id i (r_ID r) ∧ labelled r)).
  { destruct (f64_ltb _ _); [apply always_negative|apply always_positive]. }
  intros r [Hid Hl]. eapply always_bind; [apply IH|]. cbv beta. intros rs (Hn & Hids & Hall). apply always_ret.
  split_and!; [simpl; lia| |by constructor]. intros [|k] r'; cbn [lookup list_lookup].
  - intros [= <-]. by rewrite Z.add_0_r.
  - intros Hr%Hids. by replace (i + Z.of_nat (S k)) with (i + 1 + Z.of_nat k) by lia.
Qed.
End Values.

(** ** The identifiers differ *)

Lemma digits_val_zeros n s : digits_val (replicate n "0"%byte ++ s) = digits_val s.
Proof. unfold digits_val. induction n as [|n IH]; [done|]. exact IH. Qed.

Lemma zero_pad_val w n : 0 <= n → digits_val (zero_pad w n) = n.
Proof. intros Hn. unfold zero_pad. rewrite digits_val_zeros. by apply decimal_val. Qed.

Lemma zero_pad_digits w n : 0 <= n → forallb digit_byte (zero_pad w n) = true.
Proof.
  intros Hn. unfold zero_pad. rewrite forallb_app, decimal_digits by done. rewrite andb_true_r.
  induction (w - _)%nat as [|k IH]; [done|]. exact IH.
Qed.

Lemma record_id_inj i j id : 0 <= i → 0 <= j → record_id i id → record_id j id → i = j.
Proof.
  intros Hi Hj. rewrite <- (zero_pad_val 5 i Hi), <- (zero_pad_val 5 j Hj) at 2.
  pose proof (zero_pad_digits 5 i Hi) as Di. pose proof (zero_pad_digits 5 j Hj) as Dj.
  intros [->| ->] [E|E].
  - by apply app_inv_head in E as ->.
  - apply (app_inv_head (go_bytes "blind-") _ (go_bytes "neg-" ++ zero_pad 5 j)) in E. by rewrite E in Di.
  - apply (app_inv_head (go_bytes "blind-") (go_bytes "neg-" ++ zero_pad 5 i)) in E. by rewrite <- E in Dj.
  - by apply app_inv_head in E as ->.
Qed.

Lemma record_ids_distinct i rs :
  0 <= i → (∀ k r, rs !! k = Some r → record_id (i + Z.of_nat k) (r_ID r)) → NoDup (map r_ID rs).
Proof.
  intros Hi Hids. apply NoDup_alt. intros k k' id (r & Hr & Hk)%list_lookup_fmap_Some_1 (r' & Hr' & Hk')%list_lookup_fmap_Some_1.
  apply Hids in Hk, Hk'. rewrite <- Hr in Hk. rewrite <- Hr' in Hk'.
  pose proof (record_id_inj (i + Z.of_nat k) (i + Z.of_nat k') id ltac:(lia) ltac:(lia) Hk Hk'). lia.
Qed.

(** ** The dictionaries of the repository *)

Definition files_check `{Unicode} (g : gen) : bool :=
  negb (bool_decide (g_names g = [])) && negb (bool_decide (g_surnames g = [])) &&
  negb (bool_decide (g_cities g = [])) && negb (bool_decide (g_streets g = [])) &&
  negb (bool_decide (g_famous g = [])) && forallb dict_word_ok (g_surnames g) &&
  forallb (λ f, forallb (λ tmpl, bool_decide (fill tmpl ∅ = Some (tmpl, [])))
    (negativeTemplates_with (join_words " " f))) (g_famous g).

Lemma feminize_word `{Unicode} s : dict_word_ok s = true → is_Some (Gen.feminize s).
Proof.
  unfold dict_word_ok. rewrite !andb_true_iff, bool_decide_eq_true. intros ((_ & Hv) & Hl).
  unfold Gen.feminize. rewrite lower_string_fixed by done. destruct (List.find _ _) as [suf|] eqn:E; [|done].
  apply List.find_some in E as [_ Hs%has_suffix_len]. pose proof (len_nonneg suf). by rewrite go_slice_Some by lia.
Qed.

Lemma files_check_ok `{Unicode} g : files_check g = true → gen_ok g.
Proof.
  unfold files_check. rewrite !andb_true_iff, !negb_true_iff, !bool_decide_eq_false, !forallb_forall.
  intros ((((((Hn & Hs) & Hc) & Hst) & Hf) & Hw) & Ht). split; try done.
  - split; [done|]. apply Forall_forall. intros s Hin%list_elem_of_In. apply feminize_word. auto.
  - apply Forall_forall. intros f Hin%list_elem_of_In. apply Forall_forall. intros tmpl Htm%list_elem_of_In.
    specialize (Ht f Hin). cbv beta in Ht. rewrite forallb_forall in Ht. specialize (Ht tmpl Htm). cbv beta in Ht.
    by apply bool_decide_eq_true in Ht.
Qed.

Lemma newGen_ok `{Unicode} : ∃ g, newGen names_files = Some g ∧ gen_ok g.
Proof.
  assert (match newGen names_files with Some g => files_check g | None => false end = true) as Hc
    by (vm_compute; reflexivity).
  destruct (newGen names_files) as [g|]; [|discriminate Hc]. exists g. split; [reflexivity|]. exact (files_check_ok g Hc).
Qed.

(** ** Properties *)

(** C39: with the dictionaries of the repository and any random source the command writes
    as many records as asked, without a panic, with identifiers of their own. Each record
    is a trap without labels, or a template whose placeholders are replaced by values,
    with one label for each in order: the label's place holds a value drawn for the
    placeholder; every drawn card, tax, insurance and phone number and birth date passes the
    validator that the detectors use, and every drawn passport number passes it unless its
    serial is drawn as 000000, which the validator rejects. The label has the category of
    its placeholder - except that a name in the genitive is labelled with no category. *)
Theorem generated_corpus `{Unicode} `{RngFloat64} n :
  0 <= n → ∃ g, newGen names_files = Some g ∧
  ∀ seed, ∃ rs st, generate g n seed = Some (rs, st) ∧ Z.of_nat (length rs) = n ∧
    NoDup (map r_ID rs) ∧ Forall (labelled g) rs.
Proof.
  intros Hn. destruct newGen_ok as (g & Hg & Hok). exists g. split; [exact Hg|]. intros seed.
  unfold generate. replace (n <? 0) with false by lia.
  destruct (always_generate_loop g Hok (Z.to_nat n) 0 seed) as (rs & st & E & Hl & Hids & Hall).
  exists rs, st. split_and!; [exact E|lia| |exact Hall]. by apply (record_ids_distinct 0).
Qed.

Lemma generated_corpus_witness :
  ∃ g rs st, newGen names_files = Some g ∧ @generate _ _ lcg_float64 g 4 2 = Some (rs, st) ∧
    NoDup (map r_ID rs) ∧ Forall (@labelled _ _ g) rs.
Proof.
  destruct (@generated_corpus _ _ lcg_float64 4) as (g & Hg & Hall); [lia|].
  destruct (Hall 2) as (rs & st & E & _ & Hd & Hl). exact (ex_intro _ g (ex_intro _ rs (ex_intro _ st
    (conj Hg (conj E (conj Hd Hl)))))).
Defined.
