(* ===== verification/Crypto.v ===== *)
(** * Package [crypto]: authenticated encryption of records

    Models [internal/crypto/crypto.go]. AES-GCM and the system's random source come
    from the standard library: the interface [Aead] states the one documented law
    the code relies on, that [Open] inverts [Seal] under the same key and nonce; the
    bytes of [rand.Read] are an argument, [None] being its error. *)

From S2P Require Import Prelude GoText.

Class Aead := {
  nonce_size : nat;
  seal : bytes → bytes → bytes → bytes;
  open_ : bytes → bytes → bytes → option bytes;
  open_seal key nonce plaintext : open_ key nonce (seal key nonce plaintext) = Some plaintext
}.

(** A stand-in that tags the text with its key: enough to run examples on. *)
#[export] Program Instance tag_aead : Aead | 100 := {
  nonce_size := 12;
  seal := λ key nonce p, key ++ p;
  open_ := λ key nonce c, if has_prefix c key then Some (drop (length key) c) else None
}.
Next Obligation. intros key nonce p. simpl. by rewrite has_prefix_app, drop_app_length. Qed.

Inductive crypto_error :=
| ErrKeySize (n : Z)
| ErrRandom
| ErrTooShort
| ErrOpen
| ErrInvalidKey.

(** The cipher object holds its key. *)
Record Cipher := MkCipher { cipher_key : bytes }.

Definition New (key : bytes) : outcome crypto_error Cipher :=
  if negb (len key =? 32) then Err (ErrKeySize (len key)) else Ret (MkCipher key).

Section Crypto.
Context `{Aead}.

(** [c.aead.Seal(nonce, nonce, plaintext, nil)] appends to the nonce. *)
Definition Encrypt (c : Cipher) (rand_read : option bytes) (plaintext : bytes) : outcome crypto_error bytes :=
  match rand_read with
  | None => Err ErrRandom
  | Some nonce => Ret (nonce ++ seal (cipher_key c) nonce plaintext)
  end.

Definition Decrypt (c : Cipher) (ciphertext : bytes) : outcome crypto_error bytes :=
  if len ciphertext <? Z.of_nat nonce_size then Err ErrTooShort
  else
    nonce ← no_panic (go_slice ciphertext 0 (Z.of_nat nonce_size));
    body ← no_panic (go_slice ciphertext (Z.of_nat nonce_size) (len ciphertext));
    match open_ (cipher_key c) nonce body with
    | Some p => Ret p
    | None => Err ErrOpen
    end.

(** [KeyFromEnv]: [raw] is the value of the variable, [hex_decode] and
    [base64_decode] the decoders of the standard library. *)
Definition KeyFromEnv (hex_decode base64_decode : bytes → option bytes) (raw : bytes)
    (rand_read : option bytes) : outcome crypto_error bytes :=
  let valid (o : option bytes) := match o with Some k => len k =? 32 | None => false end in
  if bool_decide (raw = []) then
    match rand_read with None => Err ErrRandom | Some key => Ret key end
  else if valid (hex_decode raw) then Ret (default [] (hex_decode raw))
  else if valid (base64_decode raw) then Ret (default [] (base64_decode raw))
  else Err ErrInvalidKey.

Lemma slice_prefix s t : slice (s ++ t) 0 (len s) = s.
Proof. pose proof (slice_app_mid [] s t) as E. by rewrite len_nil in E. Qed.

Lemma slice_rest s t : slice (s ++ t) (len s) (len (s ++ t)) = t.
Proof. rewrite len_app. pose proof (slice_app_mid s t []) as E. by rewrite app_nil_r in E. Qed.

(** What [Encrypt] wrote, [Decrypt] reads back, for every nonce. *)
Lemma decrypt_encrypt c nonce plaintext ct :
  length nonce = nonce_size → Encrypt c (Some nonce) plaintext = Ret ct → Decrypt c ct = Ret plaintext.
Proof.
  intros Hn [= <-]. unfold Decrypt. rewrite <- Hn. fold (len nonce).
  pose proof (len_nonneg (seal (cipher_key c) nonce plaintext)). pose proof (len_nonneg nonce).
  replace (len (nonce ++ _) <? len nonce) with false by (rewrite len_app; lia).
  rewrite !go_slice_Some by (rewrite ?len_app; lia). cbn [no_panic mbind outcome_mbind outcome_bind].
  by rewrite slice_prefix, slice_rest, open_seal.
Qed.

(** Decryption of arbitrary bytes never panics: the slices are guarded. *)
Lemma decrypt_total c ct : Decrypt c ct ≠ Panic.
Proof.
  unfold Decrypt. destruct (_ <? _) eqn:E; [done|].
  rewrite !go_slice_Some by lia. cbn [no_panic mbind outcome_mbind outcome_bind]. by case_match.
Qed.
End Crypto.
