(* ===== verification/Store.v ===== *)
(** * Package [store]: records, the store contract, and its two implementations

    Models [internal/store/store.go], [internal/store/memory.go] and
    [internal/store/redis.go].

    The contract is stated once, on an abstract state that maps hashed ids to
    records with expiry times ([spec_call]); [Memory] and [Redis] are proved to
    implement it ([StoreImpl]). What comes from outside is explicit: the clock, the
    random nonce and the fate of a network call are an [Env], one per call;
    HMAC-SHA256 and JSON are interfaces; the Redis server is an interface with the
    documented behaviour of its four commands. *)

From S2P Require Import Prelude GoText Pii Mask Crypto.

(** ** Records *)

(** [CreatedAt] and all times are in nanoseconds. *)
Record Record_ := MkRecord {
  rec_Replacements : list Replacement;
  rec_Strategy : bytes;
  rec_CreatedAt : Z;
  rec_MaskedText : bytes;
  rec_Hash : bytes;
  rec_SystemID : bytes
}.

#[export] Instance record_eq_dec : EqDecision Record_.
Proof. solve_decision. Defined.

Definition LegacyOwner : bytes := [].

(** [encoding/json] replaces invalid UTF-8 in strings, so a record survives the
    round trip when all its strings are valid. *)
Definition replacement_utf8 (r : Replacement) : Prop :=
  utf8_valid (rp_Category r) ∧ utf8_valid (rp_Original r) ∧ utf8_valid (rp_Masked r).

Definition record_utf8 (r : Record_) : Prop :=
  Forall replacement_utf8 (rec_Replacements r) ∧ utf8_valid (rec_Strategy r) ∧
  utf8_valid (rec_MaskedText r) ∧ utf8_valid (rec_Hash r) ∧ utf8_valid (rec_SystemID r).

#[export] Instance record_utf8_dec r : Decision (record_utf8 r).
Proof. unfold record_utf8, replacement_utf8. apply _. Defined.

Class Codec := {
  marshal : Record_ → option bytes;
  unmarshal : bytes → option Record_;
  unmarshal_marshal r b : record_utf8 r → marshal r = Some b → unmarshal b = Some r
}.

Class Hmac := {
  hmac_sha256 : bytes → bytes → bytes;
  hmac_length key msg : length (hmac_sha256 key msg) = 32%nat
}.

Definition hex_digit (n : Z) : byte := if n <? 10 then byte_of (0x30 + n) else byte_of (0x57 + n).

(** [hex.EncodeToString] *)
Definition hex_encode (s : bytes) : bytes :=
  concat (map (λ b, [hex_digit (byte_val b / 16); hex_digit (byte_val b mod 16)]) s).

Definition hashIDLen : nat := 16.

Definition hashID `{Hmac} (key id : bytes) : bytes := take hashIDLen (hex_encode (hmac_sha256 key id)).

(** ** The environment of a store call *)

Inductive network :=
| Net_ok
| Net_fail (applied : bool).  (** an error; the server may have run the command *)

Record Env := MkEnv {
  env_now : Z;
  env_rand : option bytes;
  env_net : network
}.

Inductive store_error :=
| Err_crypto (e : crypto_error)
| Err_marshal
| Err_unmarshal
| Err_network.

(** [expiryFor]: [None] is the zero time, "no expiry". *)
Definition expiryFor (now ttl : Z) : option Z := if ttl <=? 0 then None else Some (now + ttl).

(** [now.After(expiry)] *)
Definition past (expiry : option Z) (now : Z) : bool :=
  match expiry with None => false | Some t => t <? now end.

Section Encode.
Context `{Aead} `{Codec}.

(** [encode], the same in both stores. *)
Definition encode (c : Cipher) (e : Env) (rec : Record_) : outcome store_error bytes :=
  match marshal rec with
  | None => Err Err_marshal
  | Some plain =>
      match Encrypt c (env_rand e) plain with
      | Ret ct => Ret ct
      | Err er => Err (Err_crypto er)
      | Panic => Panic
      end
  end.

(** The decryption and decoding at the end of [Load]. *)
Definition decode (c : Cipher) (ct : bytes) : outcome store_error Record_ :=
  match Decrypt c ct with
  | Ret plain => match unmarshal plain with Some rec => Ret rec | None => Err Err_unmarshal end
  | Err er => Err (Err_crypto er)
  | Panic => Panic
  end.

(** The nonce has the size [rand.Read] was asked for. *)
Definition env_ok (e : Env) : Prop := ∀ nonce, env_rand e = Some nonce → length nonce = nonce_size.

#[export] Instance env_ok_dec e : Decision (env_ok e).
Proof.
  unfold env_ok. destruct (env_rand e) as [n|].
  - destruct (decide (length n = nonce_size)) as [Hn|Hn]; [left|right].
    + by intros ? [= <-].
    + intros Hall. by apply Hn, Hall.
  - by left.
Defined.

Lemma decode_encode_record c e rec ct :
  env_ok e → record_utf8 rec → encode c e rec = Ret ct → decode c ct = Ret rec.
Proof.
  unfold encode, decode. intros He Hr. destruct (marshal rec) as [plain|] eqn:Em; [|done].
  destruct (Encrypt c (env_rand e) plain) as [ct'| |] eqn:Ee; [|done|done]. intros [= ->].
  unfold env_ok in He. destruct (env_rand e) as [nonce|]; [|done].
  rewrite (decrypt_encrypt _ _ _ _ (He nonce eq_refl) Ee). by rewrite (unmarshal_marshal rec plain).
Qed.
End Encode.

(** ** memory.go *)

Record memoryEntry := MkEntry { ct : bytes; expiry : option Z }.

Definition expired (e : memoryEntry) (now : Z) : bool := past (expiry e) now.

Record Memory := MkMemory {
  items : gmap bytes memoryEntry;
  m_cipher : Cipher;
  m_key : bytes
}.

Definition set_items (m : Memory) (i : gmap bytes memoryEntry) : Memory := MkMemory i (m_cipher m) (m_key m).

Definition NewMemory (key : bytes) : outcome crypto_error Memory :=
  c ← New key;
  Ret (MkMemory ∅ c key).

Section MemoryOps.
Context `{Aead} `{Codec} `{Hmac}.

Definition Memory_HashID (m : Memory) (id : bytes) : bytes := hashID (m_key m) id.

(** One tick of [cleanupLoop]. *)
Definition Memory_cleanup (m : Memory) (now : Z) : Memory :=
  set_items m (filter (λ p, expired p.2 now = false) (items m)).

(** Every operation returns its result and the store after it. *)
Definition Memory_Save (e : Env) (id : bytes) (rec : Record_) (ttl : Z) (m : Memory)
    : outcome store_error unit * Memory :=
  match encode (m_cipher m) e rec with
  | Ret c => (Ret (), set_items m (<[Memory_HashID m id := MkEntry c (expiryFor (env_now e) ttl)]> (items m)))
  | Err er => (Err er, m)
  | Panic => (Panic, m)
  end.

Definition Memory_SaveNew (e : Env) (id : bytes) (rec : Record_) (ttl : Z) (m : Memory)
    : outcome store_error bool * Memory :=
  match encode (m_cipher m) e rec with
  | Ret c =>
      let key := Memory_HashID m id in
      let put := set_items m (<[key := MkEntry c (expiryFor (env_now e) ttl)]> (items m)) in
      match items m !! key with
      | Some en => if negb (expired en (env_now e)) then (Ret false, m) else (Ret true, put)
      | None => (Ret true, put)
      end
  | Err er => (Err er, m)
  | Panic => (Panic, m)
  end.

(** [Load] holds the lock twice: it reads the entry under the read lock, and when
    the entry has expired it deletes the key under the write lock. [inl] asks for
    the second step. *)
Definition Memory_Load_read (e : Env) (id : bytes) (m : Memory)
    : bytes + outcome store_error (option Record_) :=
  let key := Memory_HashID m id in
  match items m !! key with
  | None => inr (Ret None)
  | Some en =>
      if past (expiry en) (env_now e) then inl key
      else inr match decode (m_cipher m) (ct en) with
               | Ret rec => Ret (Some rec)
               | Err er => Err er
               | Panic => Panic
               end
  end.

Definition Memory_Load_evict (key : bytes) (m : Memory) : Memory := set_items m (delete key (items m)).

(** [Load] when nothing runs between its two steps. *)
Definition Memory_Load (e : Env) (id : bytes) (m : Memory) : outcome store_error (option Record_) * Memory :=
  match Memory_Load_read e id m with
  | inl key => (Ret None, Memory_Load_evict key m)
  | inr res => (res, m)
  end.

Definition Memory_Delete (id : bytes) (m : Memory) : outcome store_error unit * Memory :=
  (Ret (), set_items m (delete (Memory_HashID m id) (items m))).

Definition Memory_Ping : outcome store_error unit := Ret ().
End MemoryOps.

(** ** redis.go *)

(** The server: [SET] with expiry, [SET NX], [GET] and [DEL], as documented, seen
    through the keys live at a time. *)
Class RedisServer := {
  srv : Type;
  srv_live : Z → srv → bytes → option bytes;
  srv_set : Z → bytes → bytes → Z → srv → srv;
  srv_setnx : Z → bytes → bytes → Z → srv → bool * srv;
  srv_get : Z → bytes → srv → option bytes * srv;
  srv_del : bytes → srv → srv;
  srv_set_live now k v ttl s t k' : now <= t →
    srv_live t (srv_set now k v ttl s) k' =
    (if decide (k' = k) then (if past (expiryFor now ttl) t then None else Some v) else srv_live t s k');
  srv_setnx_live now k v ttl s :
    srv_setnx now k v ttl s =
    (match srv_live now s k with Some _ => (false, s) | None => (true, srv_set now k v ttl s) end);
  srv_get_live now k s : (srv_get now k s).1 = srv_live now s k;
  srv_get_same now k s t k' : now <= t → srv_live t (srv_get now k s).2 k' = srv_live t s k';
  srv_del_live k s t k' : srv_live t (srv_del k s) k' = (if decide (k' = k) then None else srv_live t s k')
}.

Definition DefaultRedisPoolSize : Z := 64.
Definition DefaultRedisWait : Z := 500 * 1000000.
Definition DefaultRedisTimeout : Z := 500 * 1000000.
Definition DefaultRedisDial : Z := 1000000000.
Definition DefaultRedisMinIdle : Z := 8.
Definition redisKeyPrefix : bytes := "pdn:".

Record Options := MkOptions { PoolSize : Z; Wait : Z; Timeout : Z; Dial : Z }.

(** The defaults [NewRedisWithOptions] fills in. *)
Definition redis_options (opt : Options) : Options :=
  MkOptions (if PoolSize opt <=? 0 then DefaultRedisPoolSize else PoolSize opt)
    (if Wait opt <=? 0 then DefaultRedisWait else Wait opt)
    (if Timeout opt <=? 0 then DefaultRedisTimeout else Timeout opt)
    (if Dial opt <=? 0 then DefaultRedisDial else Dial opt).

Record Redis `{RedisServer} := MkRedis { client : srv; r_cipher : Cipher; r_key : bytes }.
Arguments MkRedis {_} client r_cipher r_key.

Section RedisOps.
Context `{Aead} `{Codec} `{Hmac} `{RedisServer}.

Definition Redis_HashID (r : Redis) (id : bytes) : bytes := hashID (r_key r) id.

Definition redisKey (r : Redis) (id : bytes) : bytes := redisKeyPrefix ++ Redis_HashID r id.

Definition set_client (r : Redis) (s : srv) : Redis := MkRedis s (r_cipher r) (r_key r).

(** A command over the network: on an error it may still have been executed. *)
Definition command {A : Type} (e : Env) (run : srv → A * srv) (r : Redis) : outcome store_error A * Redis :=
  match env_net e with
  | Net_ok => let '(a, s) := run (client r) in (Ret a, set_client r s)
  | Net_fail true => (Err Err_network, set_client r (run (client r)).2)
  | Net_fail false => (Err Err_network, r)
  end.

Definition Redis_Save (e : Env) (id : bytes) (rec : Record_) (ttl : Z) (r : Redis)
    : outcome store_error unit * Redis :=
  match encode (r_cipher r) e rec with
  | Ret c => command e (λ s, ((), srv_set (env_now e) (redisKey r id) c ttl s)) r
  | Err er => (Err er, r)
  | Panic => (Panic, r)
  end.

Definition Redis_SaveNew (e : Env) (id : bytes) (rec : Record_) (ttl : Z) (r : Redis)
    : outcome store_error bool * Redis :=
  match encode (r_cipher r) e rec with
  | Ret c => command e (srv_setnx (env_now e) (redisKey r id) c ttl) r
  | Err er => (Err er, r)
  | Panic => (Panic, r)
  end.

Definition Redis_Load (e : Env) (id : bytes) (r : Redis) : outcome store_error (option Record_) * Redis :=
  let '(res, r') := command e (srv_get (env_now e) (redisKey r id)) r in
  (match res with
   | Ret None => Ret None
   | Ret (Some c) => match decode (r_cipher r) c with
                     | Ret rec => Ret (Some rec)
                     | Err er => Err er
                     | Panic => Panic
                     end
   | Err er => Err er
   | Panic => Panic
   end, r').

Definition Redis_Delete (e : Env) (id : bytes) (r : Redis) : outcome store_error unit * Redis :=
  command e (λ s, ((), srv_del (redisKey r id) s)) r.

Definition Redis_Ping (e : Env) (r : Redis) : outcome store_error unit :=
  match env_net e with Net_ok => Ret () | Net_fail _ => Err Err_network end.
End RedisOps.

(** ** The contract *)

(** Hashed ids to records with their expiry. *)
Abbreviation spec_state := (gmap bytes (Record_ * option Z)).

Definition live (now : Z) (σ : spec_state) (k : bytes) : option Record_ :=
  match σ !! k with
  | Some (r, x) => if past x now then None else Some r
  | None => None
  end.

Inductive call :=
| CLoad (id : bytes)
| CSave (id : bytes) (rec : Record_) (ttl : Z)
| CSaveNew (id : bytes) (rec : Record_) (ttl : Z)
| CDelete (id : bytes).

Definition resp (c : call) : Type :=
  match c with
  | CLoad _ => option Record_
  | CSave _ _ _ => unit
  | CSaveNew _ _ _ => bool
  | CDelete _ => unit
  end.

Definition put (h : bytes → bytes) (now : Z) (id : bytes) (rec : Record_) (ttl : Z) (σ : spec_state)
    : spec_state := <[h id := (rec, expiryFor now ttl)]> σ.

(** What a call may answer at time [now], and the state after it. A call may fail,
    with or without its effect. *)
Inductive spec_call (h : bytes → bytes) (now : Z) (σ : spec_state)
    : ∀ c : call, outcome store_error (resp c) → spec_state → Prop :=
| spec_load id : spec_call h now σ (CLoad id) (Ret (live now σ (h id))) σ
| spec_save id rec ttl : spec_call h now σ (CSave id rec ttl) (Ret ()) (put h now id rec ttl σ)
| spec_savenew_kept id rec ttl r :
    live now σ (h id) = Some r → spec_call h now σ (CSaveNew id rec ttl) (Ret false) σ
| spec_savenew_created id rec ttl :
    live now σ (h id) = None → spec_call h now σ (CSaveNew id rec ttl) (Ret true) (put h now id rec ttl σ)
| spec_delete id : spec_call h now σ (CDelete id) (Ret ()) (delete (h id) σ)
| spec_failed c e : spec_call h now σ c (Err e) σ
| spec_failed_applied c e r σ' : spec_call h now σ c (Ret r) σ' → spec_call h now σ c (Err e) σ'.

#[export] Hint Constructors spec_call : pdn.

(** A record written by the call is valid UTF-8 throughout. *)
Definition call_utf8 (c : call) : Prop :=
  match c with
  | CSave _ rec _ | CSaveNew _ rec _ => record_utf8 rec
  | _ => True
  end.

#[export] Instance call_utf8_dec c : Decision (call_utf8 c).
Proof. destruct c; apply _. Defined.

(** An implementation of the contract: its calls, simulated by [spec_call] as time
    goes on. *)
Class StoreImpl `{Aead} := {
  impl_state : Type;
  impl_hash : bytes → bytes;
  impl_call : Env → ∀ c : call, impl_state → outcome store_error (resp c) * impl_state;
  impl_rel : Z → spec_state → impl_state → Prop;
  impl_refines now σ s e c :
    impl_rel now σ s → now <= env_now e → env_ok e → call_utf8 c →
    ∃ σ', spec_call impl_hash (env_now e) σ c (impl_call e c s).1 σ' ∧
      impl_rel (env_now e) σ' (impl_call e c s).2
}.

Lemma past_mono x t t' : past x t = true → t <= t' → past x t' = true.
Proof. destruct x; simpl; [lia|done]. Qed.

Lemma live_put h now id rec ttl σ t k :
  live t (put h now id rec ttl σ) k =
  if decide (k = h id) then (if past (expiryFor now ttl) t then None else Some rec) else live t σ k.
Proof.
  unfold live, put. destruct (decide (k = h id)) as [->|Hne].
  - by rewrite lookup_insert_eq.
  - by rewrite lookup_insert_ne.
Qed.

Lemma live_delete k' σ t k :
  live t (delete k' σ) k = if decide (k = k') then None else live t σ k.
Proof.
  unfold live. destruct (decide (k = k')) as [->|Hne].
  - by rewrite lookup_delete_eq.
  - by rewrite lookup_delete_ne.
Qed.

(** A fresh entry is live while its time to live lasts. *)
Lemma expiryFor_live now ttl t : past (expiryFor now ttl) t = false ↔ ttl <= 0 ∨ t <= now + ttl.
Proof. unfold expiryFor. case_match; simpl; lia. Qed.

(** ** [Memory] implements the contract *)

Section MemoryRefines.
Context `{Aead} `{Codec} `{Hmac}.

Definition Memory_call (e : Env) (c : call) (m : Memory) : outcome store_error (resp c) * Memory :=
  match c with
  | CLoad id => Memory_Load e id m
  | CSave id rec ttl => Memory_Save e id rec ttl m
  | CSaveNew id rec ttl => Memory_SaveNew e id rec ttl m
  | CDelete id => Memory_Delete id m
  end.

Definition entry_live (m : Memory) (t : Z) (en : memoryEntry) : option Record_ :=
  if past (expiry en) t then None
  else match decode (m_cipher m) (ct en) with Ret r => Some r | _ => None end.

Definition Memory_live (t : Z) (m : Memory) (k : bytes) : option Record_ :=
  items m !! k ≫= entry_live m t.

(** The live entries are the live records of the abstract state, from [now] on, and
    all of them decode. *)
Record Memory_rel (key : bytes) (now : Z) (σ : spec_state) (m : Memory) : Prop := {
  mr_key : m_key m = key;
  mr_live t k : now <= t → Memory_live t m k = live t σ k;
  mr_decodes k en : items m !! k = Some en → past (expiry en) now = false →
    ∃ r, decode (m_cipher m) (ct en) = Ret r
}.

Lemma Memory_rel_later key now now' σ m :
  Memory_rel key now σ m → now <= now' → Memory_rel key now' σ m.
Proof.
  intros [Hk Hl Hd] Hle. split; [done| |].
  - intros t k Ht. apply Hl. lia.
  - intros k en He Hp. apply (Hd k en He). destruct (past (expiry en) now) eqn:E; [|done].
    by rewrite (past_mono _ _ now' E) in Hp.
Qed.

Lemma Memory_rel_new key m : NewMemory key = Ret m → Memory_rel key 0 ∅ m.
Proof.
  unfold NewMemory. destruct (New key) as [c| |]; simpl; [|done|done]. intros [= <-].
  split; [done| |]; intros; unfold Memory_live, live; simpl in *; by rewrite ?lookup_empty in *.
Qed.

Lemma Memory_rel_put key now σ m id rec ttl c :
  Memory_rel key now σ m → decode (m_cipher m) c = Ret rec →
  Memory_rel key now (put (hashID key) now id rec ttl σ)
    (set_items m (<[Memory_HashID m id := MkEntry c (expiryFor now ttl)]> (items m))).
Proof.
  intros [Hk Hl Hd] Hc. unfold Memory_HashID. rewrite Hk. split; [done| |].
  - intros t k Ht. rewrite live_put. unfold Memory_live. cbn [items set_items].
    destruct (decide (k = hashID key id)) as [->|Hne].
    + rewrite lookup_insert_eq. cbn. unfold entry_live. cbn. by rewrite Hc.
    + rewrite lookup_insert_ne by done. by apply Hl.
  - intros k en. cbn [items set_items]. destruct (decide (k = hashID key id)) as [->|Hne].
    + rewrite lookup_insert_eq. intros [= <-] _. by exists rec.
    + rewrite lookup_insert_ne by done. apply Hd.
Qed.

Lemma Memory_rel_delete key now σ m id :
  Memory_rel key now σ m →
  Memory_rel key now (delete (hashID key id) σ) (set_items m (delete (Memory_HashID m id) (items m))).
Proof.
  intros [Hk Hl Hd]. unfold Memory_HashID. rewrite Hk. split; [done| |].
  - intros t k Ht. rewrite live_delete. unfold Memory_live. cbn [items set_items].
    destruct (decide (k = hashID key id)) as [->|Hne].
    + by rewrite lookup_delete_eq.
    + rewrite lookup_delete_ne by done. by apply Hl.
  - intros k en. cbn [items set_items]. intros [_ He]%lookup_delete_Some. by apply Hd with k.
Qed.

(** Removing expired entries is invisible from [now] on. *)
Lemma Memory_rel_expired key now σ m i :
  Memory_rel key now σ m → i ⊆ items m →
  (∀ k en, items m !! k = Some en → i !! k = None → past (expiry en) now = true) →
  Memory_rel key now σ (set_items m i).
Proof.
  intros [Hk Hl Hd] Hi Hx. split; [done| |].
  - intros t k Ht. rewrite <- Hl by done. unfold Memory_live. cbn [items set_items].
    destruct (i !! k) as [en|] eqn:E; [by rewrite (lookup_weaken _ _ _ _ E Hi)|].
    destruct (items m !! k) as [en|] eqn:Em; [|done].
    cbn. unfold entry_live. by rewrite (past_mono _ now t (Hx _ _ Em E) Ht).
  - intros k en. cbn [items set_items]. intros He. by apply (Hd k en (lookup_weaken _ _ _ _ He Hi)).
Qed.

Lemma Memory_cleanup_rel key now σ m :
  Memory_rel key now σ m → Memory_rel key now σ (Memory_cleanup m now).
Proof.
  intros Hr. apply Memory_rel_expired; [done|apply map_filter_subseteq|].
  intros k en He Hn. destruct (past (expiry en) now) eqn:E; [done|].
  by rewrite (map_lookup_filter_Some_2 _ _ _ _ He) in Hn.
Qed.

Lemma Memory_evict_rel key now σ m k en :
  Memory_rel key now σ m → items m !! k = Some en → past (expiry en) now = true →
  Memory_rel key now σ (Memory_Load_evict k m).
Proof.
  intros Hr He Hx. apply Memory_rel_expired; [done|apply delete_subseteq|].
  intros k' en' He' Hn. destruct (decide (k' = k)) as [->|Hne]; [congruence|].
  rewrite lookup_delete_ne in Hn by done. congruence.
Qed.

Lemma Memory_refines key now σ m e c :
  Memory_rel key now σ m → now <= env_now e → env_ok e → call_utf8 c →
  ∃ σ', spec_call (hashID key) (env_now e) σ c (Memory_call e c m).1 σ' ∧
    Memory_rel key (env_now e) σ' (Memory_call e c m).2.
Proof.
  intros Hr Hle He Hc. apply (Memory_rel_later _ _ _ _ _ Hr) in Hle. clear Hr. rename Hle into Hr.
  pose proof Hr as [Hk Hl Hd].
  assert (∀ k, items m !! k = None → live (env_now e) σ k = None) as Hnone.
  { intros k E. rewrite <- Hl by lia. unfold Memory_live. by rewrite E. }
  destruct c as [id|id rec ttl|id rec ttl|id]; cbn [Memory_call].
  - unfold Memory_Load, Memory_Load_read, Memory_HashID. rewrite Hk.
    destruct (items m !! hashID key id) as [en|] eqn:E.
    + destruct (past (expiry en) (env_now e)) eqn:Ex; cbn [fst snd].
      * exists σ. split.
        { replace None with (live (env_now e) σ (hashID key id)); [constructor|].
          rewrite <- Hl by lia. unfold Memory_live. rewrite E. cbn. unfold entry_live. by rewrite Ex. }
        by eapply Memory_evict_rel.
      * destruct (Hd _ _ E Ex) as [rec Hrec]. rewrite Hrec. exists σ. split; [|done].
        replace (Some rec) with (live (env_now e) σ (hashID key id)); [constructor|].
        rewrite <- Hl by lia. unfold Memory_live. rewrite E. cbn. unfold entry_live. by rewrite Ex, Hrec.
    + exists σ. split; [|done]. cbn [fst]. rewrite <- (Hnone _ E). constructor.
  - unfold Memory_Save. destruct (encode (m_cipher m) e rec) as [ct|er|] eqn:E; cbn [fst snd].
    + eexists. split; [constructor|]. apply Memory_rel_put; [done|]. by eapply decode_encode_record.
    + exists σ. split; [constructor|done].
    + unfold encode, Encrypt in E. by repeat case_match.
  - unfold Memory_SaveNew. destruct (encode (m_cipher m) e rec) as [ct|er|] eqn:E; cbn [fst snd].
    + pose proof (decode_encode_record _ _ _ _ He Hc E) as Hdec.
      pose proof (Memory_rel_put key (env_now e) σ m id rec ttl ct Hr Hdec) as Hput.
      unfold Memory_HashID in *. rewrite Hk in *.
      destruct (items m !! hashID key id) as [en|] eqn:Ei.
      * unfold expired. destruct (past (expiry en) (env_now e)) eqn:Ex; cbn [negb fst snd].
        -- eexists. split; [apply spec_savenew_created|exact Hput].
           rewrite <- Hl by lia. unfold Memory_live. rewrite Ei. cbn. unfold entry_live. by rewrite Ex.
        -- destruct (Hd _ _ Ei Ex) as [r Hrec]. exists σ. split; [|done].
           apply spec_savenew_kept with r. rewrite <- Hl by lia. unfold Memory_live. rewrite Ei. cbn.
           unfold entry_live. by rewrite Ex, Hrec.
      * cbn [fst snd]. eexists. split; [|exact Hput]. by apply spec_savenew_created, Hnone.
    + exists σ. split; [constructor|done].
    + unfold encode, Encrypt in E. by repeat case_match.
  - unfold Memory_Delete. eexists. split; [constructor|]. by apply Memory_rel_delete.
Qed.
End MemoryRefines.

#[export] Instance memory_store `{Aead} `{Codec} `{Hmac} (key : bytes) : StoreImpl := {
  impl_state := Memory;
  impl_hash := hashID key;
  impl_call := Memory_call;
  impl_rel := Memory_rel key;
  impl_refines := Memory_refines key
}.

(** ** [Redis] implements the contract *)

Section RedisRefines.
Context `{Aead} `{Codec} `{Hmac} `{RedisServer}.

Definition Redis_call (e : Env) (c : call) (r : Redis) : outcome store_error (resp c) * Redis :=
  match c with
  | CLoad id => Redis_Load e id r
  | CSave id rec ttl => Redis_Save e id rec ttl r
  | CSaveNew id rec ttl => Redis_SaveNew e id rec ttl r
  | CDelete id => Redis_Delete e id r
  end.

(** The live keys of the server under the prefix are the live records. *)
Record Redis_rel (key : bytes) (now : Z) (σ : spec_state) (r : Redis) : Prop := {
  rr_key : r_key r = key;
  rr_live t k : now <= t →
    match srv_live t (client r) (redisKeyPrefix ++ k) with
    | Some c => ∃ rec, decode (r_cipher r) c = Ret rec ∧ live t σ k = Some rec
    | None => live t σ k = None
    end
}.

Lemma Redis_rel_later key now now' σ r :
  Redis_rel key now σ r → now <= now' → Redis_rel key now' σ r.
Proof. intros [Hk Hl] Hle. split; [done|]. intros t k Ht. apply Hl. lia. Qed.

Lemma Redis_rel_put key now σ r id rec ttl c :
  Redis_rel key now σ r → decode (r_cipher r) c = Ret rec →
  Redis_rel key now (put (hashID key) now id rec ttl σ)
    (set_client r (srv_set now (redisKey r id) c ttl (client r))).
Proof.
  intros [Hk Hl] Hc. unfold redisKey, Redis_HashID. rewrite Hk. split; [done|].
  intros t k Ht. cbn [client set_client r_cipher]. rewrite srv_set_live, live_put by done.
  destruct (decide (k = hashID key id)) as [->|Hne].
  - rewrite decide_True by done. destruct (past _ _); [done|]. by exists rec.
  - rewrite decide_False; [by apply Hl|]. intros E%app_inv_head. done.
Qed.

Lemma Redis_rel_delete key now σ r id :
  Redis_rel key now σ r →
  Redis_rel key now (delete (hashID key id) σ) (set_client r (srv_del (redisKey r id) (client r))).
Proof.
  intros [Hk Hl]. unfold redisKey, Redis_HashID. rewrite Hk. split; [done|].
  intros t k Ht. cbn [client set_client r_cipher]. rewrite srv_del_live, live_delete.
  destruct (decide (k = hashID key id)) as [->|Hne].
  - by rewrite decide_True.
  - rewrite decide_False; [by apply Hl|]. intros E%app_inv_head. done.
Qed.

Lemma Redis_rel_get key now σ r k :
  Redis_rel key now σ r → Redis_rel key now σ (set_client r (srv_get now k (client r)).2).
Proof.
  intros [Hk Hl]. split; [done|]. intros t k' Ht. cbn [client set_client r_cipher].
  rewrite srv_get_same by done. by apply Hl.
Qed.

(** A command whose effect is that of a call [c] of the contract. *)
Lemma command_refines key σ r e c run :
  (∃ σ', spec_call (hashID key) (env_now e) σ c (Ret (run (client r)).1) σ' ∧
     Redis_rel key (env_now e) σ' (set_client r (run (client r)).2)) →
  Redis_rel key (env_now e) σ r →
  ∃ σ', spec_call (hashID key) (env_now e) σ c (command e run r).1 σ' ∧
    Redis_rel key (env_now e) σ' (command e run r).2.
Proof.
  intros (σ' & Hc & Hr') Hr. unfold command. destruct (env_net e) as [|[]].
  - destruct (run (client r)) as [a s]. by exists σ'.
  - exists σ'. split; [by eapply spec_failed_applied|done].
  - exists σ. split; [constructor|done].
Qed.

Lemma Redis_refines key now σ r e c :
  Redis_rel key now σ r → now <= env_now e → env_ok e → call_utf8 c →
  ∃ σ', spec_call (hashID key) (env_now e) σ c (Redis_call e c r).1 σ' ∧
    Redis_rel key (env_now e) σ' (Redis_call e c r).2.
Proof.
  intros Hr Hle He Hc. apply (Redis_rel_later _ _ _ _ _ Hr) in Hle. clear Hr. rename Hle into Hr.
  pose proof Hr as [Hk Hl].
  destruct c as [id|id rec ttl|id rec ttl|id]; cbn [Redis_call].
  - unfold Redis_Load, command. destruct (env_net e) as [|[]]; cbn [fst snd].
    + pose proof (srv_get_live (env_now e) (redisKey r id) (client r)) as Hg.
      pose proof (Redis_rel_get key (env_now e) σ r (redisKey r id) Hr) as Hr'.
      specialize (Hl (env_now e) (hashID key id) ltac:(lia)).
      unfold redisKey, Redis_HashID in *. rewrite Hk in *. rewrite <- Hg in Hl.
      destruct (srv_get (env_now e) _ (client r)) as [res s]. cbn [fst snd] in *.
      exists σ. split; [|exact Hr']. destruct res as [c|].
      * destruct Hl as (rec & -> & Hrec). rewrite <- Hrec. constructor.
      * rewrite <- Hl. constructor.
    + exists σ. split; [constructor|]. by apply Redis_rel_get.
    + exists σ. split; [constructor|done].
  - unfold Redis_Save. destruct (encode (r_cipher r) e rec) as [ct|er|] eqn:E; cbn [fst snd].
    + apply command_refines; [|done]. cbn [fst snd]. eexists. split; [constructor|].
      apply Redis_rel_put; [done|]. by eapply decode_encode_record.
    + exists σ. split; [constructor|done].
    + unfold encode, Encrypt in E. by repeat case_match.
  - unfold Redis_SaveNew. destruct (encode (r_cipher r) e rec) as [ct|er|] eqn:E; cbn [fst snd].
    + apply command_refines; [|done]. rewrite srv_setnx_live.
      pose proof (decode_encode_record _ _ _ _ He Hc E) as Hdec.
      pose proof (Redis_rel_put key (env_now e) σ r id rec ttl ct Hr Hdec) as Hput.
      specialize (Hl (env_now e) (hashID key id) ltac:(lia)).
      unfold redisKey, Redis_HashID in *. rewrite Hk in *.
      destruct (srv_live (env_now e) (client r) _) as [c|]; cbn [fst snd].
      * destruct Hl as (rec' & _ & Hrec). exists σ. split; [by eapply spec_savenew_kept|by destruct r].
      * eexists. split; [by apply spec_savenew_created|exact Hput].
    + exists σ. split; [constructor|done].
    + unfold encode, Encrypt in E. by repeat case_match.
  - unfold Redis_Delete. apply command_refines; [|done]. cbn [fst snd].
    eexists. split; [constructor|]. by apply Redis_rel_delete.
Qed.
End RedisRefines.

#[export] Instance redis_store `{Aead} `{Codec} `{Hmac} `{RedisServer} (key : bytes) : StoreImpl := {
  impl_state := Redis;
  impl_hash := hashID key;
  impl_call := Redis_call;
  impl_rel := Redis_rel key;
  impl_refines := Redis_refines key
}.

(** ** Instances to run examples on *)

#[export] Instance replacement_countable : Countable Replacement :=
  inj_countable' (λ r, (rp_Category r, rp_Original r, rp_Masked r, rp_Start r, rp_End r))
    (λ '(c, o, m, s, e), MkReplacement c o m s e) ltac:(by intros []).

#[export] Instance record_countable : Countable Record_ :=
  inj_countable' (λ r, (rec_Replacements r, rec_Strategy r, rec_CreatedAt r, rec_MaskedText r,
                        rec_Hash r, rec_SystemID r))
    (λ '(rs, s, c, m, h, i), MkRecord rs s c m h i) ltac:(by intros []).

Fixpoint pos_bytes (p : positive) : bytes :=
  match p with
  | xH => []
  | xO p => "0"%byte :: pos_bytes p
  | xI p => "1"%byte :: pos_bytes p
  end.

Fixpoint bytes_pos (s : bytes) : positive :=
  match s with
  | [] => xH
  | b :: s => if decide (b = "0"%byte) then xO (bytes_pos s) else xI (bytes_pos s)
  end.

Lemma bytes_pos_bytes p : bytes_pos (pos_bytes p) = p.
Proof. induction p; simpl; congruence. Qed.

#[export] Program Instance countable_codec : Codec | 100 := {
  marshal r := Some (pos_bytes (countable.encode r));
  unmarshal b := countable.decode (bytes_pos b)
}.
Next Obligation. intros r b _ [= <-]. rewrite bytes_pos_bytes. apply countable.decode_encode. Qed.

#[export] Program Instance pad_hmac : Hmac | 100 := {
  hmac_sha256 key msg := take 32 (msg ++ replicate 32 "000"%byte)
}.
Next Obligation. intros key msg. cbv beta. rewrite length_take, length_app, length_replicate. lia. Qed.

(** A server that is a map with expiry times. *)
Definition map_live (now : Z) (s : gmap bytes (bytes * option Z)) (k : bytes) : option bytes :=
  match s !! k with Some (v, x) => if past x now then None else Some v | None => None end.

Definition map_set (now : Z) (k v : bytes) (ttl : Z) (s : gmap bytes (bytes * option Z)) :=
  <[k := (v, expiryFor now ttl)]> s.

Lemma map_live_set now k v ttl s t k' : now <= t →
  map_live t (map_set now k v ttl s) k' =
  (if decide (k' = k) then (if past (expiryFor now ttl) t then None else Some v) else map_live t s k').
Proof.
  intros _. unfold map_live, map_set. destruct (decide (k' = k)) as [->|Hne].
  - by rewrite lookup_insert_eq.
  - by rewrite lookup_insert_ne.
Qed.

Lemma map_live_del k s t k' :
  map_live t (delete k s) k' = (if decide (k' = k) then None else map_live t s k').
Proof.
  unfold map_live. destruct (decide (k' = k)) as [->|Hne].
  - by rewrite lookup_delete_eq.
  - by rewrite lookup_delete_ne.
Qed.

#[export] Instance map_redis : RedisServer | 100 := {
  srv := gmap bytes (bytes * option Z);
  srv_live := map_live;
  srv_set := map_set;
  srv_setnx now k v ttl s :=
    match map_live now s k with Some _ => (false, s) | None => (true, map_set now k v ttl s) end;
  srv_get now k s := (map_live now s k, s);
  srv_del k s := delete k s;
  srv_set_live := map_live_set;
  srv_setnx_live _ _ _ _ _ := eq_refl;
  srv_get_live _ _ _ := eq_refl;
  srv_get_same _ _ _ _ _ _ := eq_refl;
  srv_del_live := map_live_del
}.

Definition demo_key : bytes := replicate 32 "k"%byte.

Definition demo_env (now : Z) : Env := MkEnv now (Some (replicate 12 "n"%byte)) Net_ok.

Definition demo_record : Record_ :=
  MkRecord [MkReplacement CatPhone "+7 916" "[PHONE_1]" 0 9] "token" 5 "[PHONE_1]" "h" "crm".

Definition demo_memory : Memory := MkMemory ∅ (MkCipher demo_key) demo_key.

Lemma demo_env_ok now : env_ok (demo_env now).
Proof. intros nonce [= <-]. done. Qed.

Lemma demo_memory_rel now : Memory_rel demo_key now ∅ demo_memory.
Proof.
  split; [done| |]; intros; unfold Memory_live, live; simpl in *; by rewrite ?lookup_empty in *.
Qed.

(** ** Properties *)

(** C22: the in-memory store implements the contract: from a store related to an
    abstract state, every call answers as the contract allows and leaves a related
    store, and so does a tick of the background cleanup. *)
Theorem Memory_implements_contract `{Aead} `{Codec} `{Hmac} key now σ m e c :
  Memory_rel key now σ m → now <= env_now e → env_ok e → call_utf8 c →
  (∃ σ', spec_call (hashID key) (env_now e) σ c (Memory_call e c m).1 σ' ∧
     Memory_rel key (env_now e) σ' (Memory_call e c m).2) ∧
  Memory_rel key (env_now e) σ (Memory_cleanup m (env_now e)).
Proof.
  intros Hr Hle He Hc. split; [by eapply Memory_refines|].
  apply Memory_cleanup_rel. by eapply Memory_rel_later.
Qed.

Lemma Memory_implements_contract_witness :
  ∃ σ', spec_call (hashID demo_key) 10 ∅ (CSave "doc" demo_record 60)
    (Memory_call (demo_env 10) (CSave "doc" demo_record 60) demo_memory).1 σ'.
Proof.
  destruct (Memory_implements_contract demo_key 0 ∅ demo_memory (demo_env 10) (CSave "doc" demo_record 60))
    as [(σ' & Hc & _) _].
  - apply demo_memory_rel.
  - done.
  - apply demo_env_ok.
  - apply (bool_decide_unpack _). by vm_compute.
  - exists σ'. exact Hc.
Defined.

(** C23: the Redis store implements the same contract over any server with the
    documented commands, also when a command fails after the server ran it. *)
Theorem Redis_implements_contract `{Aead} `{Codec} `{Hmac} `{RedisServer} key now σ r e c :
  Redis_rel key now σ r → now <= env_now e → env_ok e → call_utf8 c →
  ∃ σ', spec_call (hashID key) (env_now e) σ c (Redis_call e c r).1 σ' ∧
    Redis_rel key (env_now e) σ' (Redis_call e c r).2.
Proof. apply Redis_refines. Qed.

Lemma Redis_implements_contract_witness :
  let r := MkRedis (∅ : @srv map_redis) (MkCipher demo_key) demo_key in
  ∃ σ', spec_call (hashID demo_key) 10 ∅ (CSaveNew "doc" demo_record 60)
    (Redis_call (demo_env 10) (CSaveNew "doc" demo_record 60) r).1 σ'.
Proof.
  destruct (Redis_implements_contract demo_key 0 ∅ (MkRedis (∅ : @srv map_redis) (MkCipher demo_key) demo_key)
    (demo_env 10) (CSaveNew "doc" demo_record 60)) as (σ' & Hc & _).
  - split; [done|]. intros t k _. unfold live. cbn. unfold map_live. by rewrite !lookup_empty.
  - done.
  - apply demo_env_ok.
  - apply (bool_decide_unpack _). by vm_compute.
  - exists σ'. exact Hc.
Defined.

(** The expired entry the race starts from. *)
Definition demo_stale : Memory := (Memory_Save (demo_env 10) "doc" demo_record 60 demo_memory).2.

(** [Memory.Load] re-checks nothing between its two locked steps. A record that
    [SaveNew] reports as created in between is deleted by [Load], long before its
    time to live is over. *)
Lemma Memory_Load_evicts_fresh :
  ∃ e1 e2 e3 key m2,
    env_now e1 <= env_now e2 <= env_now e3 ∧ env_now e3 < env_now e2 + 60 ∧
    Memory_Load_read e1 "doc" demo_stale = inl key ∧
    Memory_SaveNew e2 "doc" demo_record 60 demo_stale = (Ret true, m2) ∧
    (Memory_Load e3 "doc" m2).1 = Ret (Some demo_record) ∧
    (Memory_Load e3 "doc" (Memory_Load_evict key m2)).1 = Ret None.
Proof.
  exists (demo_env 100), (demo_env 101), (demo_env 102), (hashID demo_key "doc"),
    (Memory_SaveNew (demo_env 101) "doc" demo_record 60 demo_stale).2.
  split_and!; [simpl; lia..|by vm_compute| |by vm_compute|by vm_compute].
  assert ((Memory_SaveNew (demo_env 101) "doc" demo_record 60 demo_stale).1 = Ret true) as E by (by vm_compute).
  destruct (Memory_SaveNew _ _ _ _ _) as [res m]. simpl in E. by rewrite E.
Qed.
