(* ===== verification/Cleaner.v ===== *)
(** * The life of the in-memory store

    The cleanup goroutine of [internal/store/memory.go] and [Close]: the goroutine drops
    expired entries at each tick until the channel [stop] is closed; [Close] closes it and
    waits for [done]. Several goroutines may call [Close]; its test of the channel and its
    closing of it are two steps. *)

From S2P Require Import Prelude Store.

(** Where a call of [Close] stands. *)
Inductive closer :=
| Called
| MustClose
| Waiting
| Returned
| Panicked.

#[export] Instance closer_eq_dec : EqDecision closer.
Proof. solve_decision. Defined.

(** The store, whether [stop] is closed, whether the goroutine runs (it closes [done] at
    its end), and the calls of [Close]. *)
Record life := MkLife { lf_store : Memory; lf_stop : bool; lf_loop : bool; lf_closers : list closer }.

Definition set_closer (i : nat) (c : closer) (l : life) : life :=
  MkLife (lf_store l) (lf_stop l) (lf_loop l) (<[i := c]> (lf_closers l)).

(** The [select] of [Close]. *)
Definition look (l : life) : closer := if lf_stop l then Returned else MustClose.

(** [close(m.stop)]: closing a closed channel panics. *)
Definition close_stop (i : nat) (l : life) : life :=
  if lf_stop l then set_closer i Panicked l
  else MkLife (lf_store l) true (lf_loop l) (<[i := Waiting]> (lf_closers l)).

(** [life_tick] and [life_end] are the cases of the [select] of [cleanupLoop]; when both
    are ready either is taken. *)
Inductive life_step : life → life → Prop :=
| life_tick l now :
    lf_loop l = true →
    life_step l (MkLife (Memory_cleanup (lf_store l) now) (lf_stop l) (lf_loop l) (lf_closers l))
| life_end l :
    lf_loop l = true → lf_stop l = true → life_step l (MkLife (lf_store l) (lf_stop l) false (lf_closers l))
| life_look l i :
    lf_closers l !! i = Some Called → life_step l (set_closer i (look l) l)
| life_close l i :
    lf_closers l !! i = Some MustClose → life_step l (close_stop i l)
| life_joined l i :
    lf_closers l !! i = Some Waiting → lf_loop l = false → life_step l (set_closer i Returned l).

(** [NewMemory] starts the goroutine; [n] goroutines will call [Close]. *)
Definition newborn (m : Memory) (n : nat) : life := MkLife m false true (replicate n Called).

(** ** One call of [Close] *)

(** The states that one call goes through. *)
Definition one_closer (l : life) : Prop :=
  match lf_closers l with
  | [Called] | [MustClose] => lf_stop l = false ∧ lf_loop l = true
  | [Waiting] => lf_stop l = true
  | [Returned] => lf_stop l = true ∧ lf_loop l = false
  | _ => False
  end.

Lemma one_closer_step l l' : life_step l l' → one_closer l → one_closer l'.
Proof.
  unfold one_closer. intros Hstep.
  destruct Hstep as [l now Hl|l Hl Hs|l i Hc|l i Hc|l i Hc Hl]; destruct l as [m stop loop [|c [|? ?]]]; cbn in *; try done; try (by destruct c).
  - subst. destruct c; cbn; intuition congruence.
  - destruct i as [|i]; [|discriminate Hc]. injection Hc as ->. intros [-> ->]. done.
  - destruct i as [|i]; [|discriminate Hc]. injection Hc as ->. intros [-> ->]. done.
  - destruct i as [|i]; [|discriminate Hc]. injection Hc as ->. intros ->. done.
Qed.

Lemma one_closer_reachable m l : rtc life_step (newborn m 1) l → one_closer l.
Proof.
  intros Hr. cut (one_closer (newborn m 1) → one_closer l); [intros Hc; by apply Hc|].
  induction Hr as [|l1 l2 l3 H12 _ IH]; [done|]. intros Hc. apply IH. by eapply one_closer_step.
Qed.

(** A single [Close] never panics, and when it has returned the goroutine is over: no
    step is left, so nothing changes the store behind the caller's back. *)
Lemma Close_ends m l :
  rtc life_step (newborn m 1) l →
  lf_closers l ≠ [Panicked] ∧ (lf_closers l = [Returned] → ∀ l', ¬ life_step l l').
Proof.
  intros Hr%one_closer_reachable. unfold one_closer in Hr. split; [intros Hp; by rewrite Hp in Hr|].
  intros Hc. rewrite Hc in Hr. destruct Hr as [Hs Hl]. intros l' Hstep. revert Hc Hs Hl.
  destruct Hstep as [l now Hr|l Hr ?|l i Hi|l i Hi|l i Hi ?]; intros Hc Hs Hl; try congruence; rewrite Hc in Hi;
    destruct i; discriminate Hi.
Qed.

(** It can always go on to its end. *)
Lemma Close_returns m l :
  rtc life_step (newborn m 1) l → ∃ l', rtc life_step l l' ∧ lf_closers l' = [Returned].
Proof.
  intros Hr%one_closer_reachable. unfold one_closer in Hr.
  destruct l as [m' stop loop [|c [|? ?]]]; cbn in Hr; [done| |by destruct c].
  assert (∀ lp, rtc life_step (MkLife m' true lp [Waiting]) (MkLife m' true false [Returned])) as Hw.
  { intros [|].
    - eapply rtc_l; [by apply life_end|]. apply rtc_once. exact (life_joined (MkLife m' true false [Waiting]) 0 eq_refl eq_refl).
    - apply rtc_once. exact (life_joined (MkLife m' true false [Waiting]) 0 eq_refl eq_refl). }
  assert (rtc life_step (MkLife m' false true [MustClose]) (MkLife m' true false [Returned])) as Hm.
  { eapply rtc_l; [by apply (life_close _ 0)|]. apply Hw. }
  exists (MkLife m' true false [Returned]). split; [|reflexivity]. destruct c; [| | | |done].
  - destruct Hr as [-> ->]. eapply rtc_l; [by apply (life_look _ 0)|]. exact Hm.
  - destruct Hr as [-> ->]. exact Hm.
  - subst stop. apply Hw.
  - destruct Hr as [-> ->]. apply rtc_refl.
Qed.

(** ** Two calls at once *)

(** Both find the channel open, and the second to close it panics. *)
Lemma Close_twice_panics m : ∃ l, rtc life_step (newborn m 2) l ∧ lf_closers l = [Waiting; Panicked].
Proof.
  exists (MkLife m true true [Waiting; Panicked]). split; [|reflexivity].
  eapply rtc_l; [by apply (life_look _ 0)|]. eapply rtc_l; [by apply (life_look _ 1)|].
  eapply rtc_l; [by apply (life_close _ 0)|]. apply rtc_once.
  exact (life_close (MkLife m true true [Waiting; MustClose]) 1 eq_refl).
Qed.

(** A second call returns while the goroutine still runs. *)
Lemma Close_returns_early m :
  ∃ l, rtc life_step (newborn m 2) l ∧ lf_closers l = [Waiting; Returned] ∧ lf_loop l = true.
Proof.
  exists (MkLife m true true [Waiting; Returned]). split; [|split; reflexivity].
  eapply rtc_l; [by apply (life_look _ 0)|]. eapply rtc_l; [by apply (life_close _ 0)|].
  apply rtc_once. exact (life_look (MkLife m true true [Waiting; Called]) 1 eq_refl).
Qed.
