(* ===== verification/Chunk.v ===== *)
(** * Package [engine]: large texts

    Models [internal/engine/chunk.go]: the overlapping detection windows of a large
    text, detection over the windows, the category filter and the combo rules. Code
    that indexes the text returns an [option]; [None] is a run-time panic.

    The windows are processed by goroutines that write disjoint slots of one slice
    and are all waited for, so the result is that of processing them in order. *)

From S2P Require Import Prelude GoText Float64 Pii Pipeline.

Definition chunkThreshold : Z := 64 * 1024.
Definition chunkSize : Z := 32 * 1024.
Definition chunkOverlap : Z := 4 * 1024.

Record window := MkWindow { w_start : Z; w_end : Z }.

Definition isBoundaryByte (b : byte) : bool :=
  let v := byte_val b in (v =? 0x20) || (v =? 0x0A) || (v =? 0x09) || (v =? 0x0D).

(** [n] bytes from [lo] on, scanned from the last one down. *)
Fixpoint last_boundary (text : bytes) (lo n : nat) : option Z :=
  match n with
  | O => Some (-1)
  | S n =>
      match text !! (lo + n)%nat with
      | None => None
      | Some b => if isBoundaryByte b then Some (Z.of_nat (lo + n)) else last_boundary text lo n
      end
  end.

Definition indexLastBoundaryByte (text : bytes) (lo hi : Z) : option Z :=
  last_boundary text (Z.to_nat lo) (Z.to_nat (hi - lo)).

(** [n] bytes from [lo] on, scanned from the first one up. *)
Fixpoint first_boundary (text : bytes) (lo n : nat) : option Z :=
  match n with
  | O => Some (-1)
  | S n =>
      match text !! lo with
      | None => None
      | Some b => if isBoundaryByte b then Some (Z.of_nat lo) else first_boundary text (S lo) n
      end
  end.

Definition indexFirstBoundaryByte (text : bytes) (lo hi : Z) : option Z :=
  first_boundary text (Z.to_nat lo) (Z.to_nat (hi - lo)).

(** [for lo > 0 && !utf8.RuneStart(text[lo]) { lo-- }] *)
Fixpoint rune_start_down (text : bytes) (lo : nat) : option Z :=
  match lo with
  | O => Some 0
  | S m =>
      match text !! lo with
      | None => None
      | Some b => if rune_start b then Some (Z.of_nat lo) else rune_start_down text m
      end
  end.

(** [for hi < len(text) && !utf8.RuneStart(text[hi]) { hi++ }], on the text from
    [hi] on. *)
Fixpoint rune_start_up (rest : bytes) (hi : Z) : Z :=
  match rest with
  | [] => hi
  | b :: rest => if rune_start b then hi else rune_start_up rest (hi + 1)
  end.

Definition extendBefore (text : bytes) (pos n : Z) : option Z :=
  let lo := pos - n in
  if lo <? 0 then Some 0
  else
    i ← indexLastBoundaryByte text 0 (lo + 1);
    if 0 <=? i then Some (i + 1) else rune_start_down text (Z.to_nat lo).

Definition extendAfter (text : bytes) (pos n : Z) : option Z :=
  let hi := pos + n in
  if len text <? hi then Some (len text)
  else
    i ← indexFirstBoundaryByte text hi (len text);
    if 0 <=? i then Some i else Some (rune_start_up (drop (Z.to_nat hi) text) hi).

(** The loop of [coreBoundaries]: the interior cuts from [pos] on. *)
Fixpoint core_cuts (fuel : nat) (text : bytes) (pos : Z) : option (list Z) :=
  match fuel with
  | O => None
  | S fuel =>
      if pos <? len text then
        let target := pos + chunkSize in
        if len text <=? target then Some []
        else
          i ← indexLastBoundaryByte text pos target;
          cut ← (if 0 <=? i then Some (i + 1)
                 else
                   j ← indexFirstBoundaryByte text target (len text);
                   Some (if 0 <=? j then j + 1 else -1));
          if cut <=? pos then Some []
          else
            cuts ← core_cuts fuel text cut;
            Some (cut :: cuts)
      else Some []
  end.

(** Every cut is further right, so one iteration per byte is enough. *)
Definition coreBoundaries (text : bytes) : option (list Z) :=
  cuts ← core_cuts (S (length text)) text 0;
  Some (0 :: cuts ++ [len text]).

(** [for i := 0; i+1 < len(bounds); i++] *)
Fixpoint core_windows (text : bytes) (bounds : list Z) : option (list window) :=
  match bounds with
  | b0 :: ((b1 :: _) as rest) =>
      s ← extendBefore text b0 chunkOverlap;
      e ← extendAfter text b1 chunkOverlap;
      ws ← core_windows text rest;
      Some (MkWindow s e :: ws)
  | _ => Some []
  end.

Definition windows (text : bytes) : option (list window) :=
  if len text <=? chunkSize + 2 * chunkOverlap then Some [MkWindow 0 (len text)]
  else
    bounds ← coreBoundaries text;
    core_windows text bounds.

(** ** Detection over the windows *)

Section Detect.
Context `{Unicode} `{SliceSort}.

(** The body of the goroutine: the spans of one window at global offsets. *)
Definition detect_window (p : Pipeline) (text : bytes) (w : window) : option (list Span) :=
  part ← go_slice text (w_start w) (w_end w);
  res ← Run p part;
  Some (map (shift_span (w_start w)) (r_Spans res)).

Fixpoint detect_windows (p : Pipeline) (text : bytes) (ws : list window) : option (list (list Span)) :=
  match ws with
  | [] => Some []
  | w :: ws =>
      spans ← detect_window p text w;
      rest ← detect_windows p text ws;
      Some (spans :: rest)
  end.

Definition detectWindowed (p : Pipeline) (text : bytes) : option (list Span) :=
  ws ← windows text;
  match ws with
  | [_] =>
      res ← Run p text;
      Some (r_Spans res)
  | _ =>
      perWindow ← detect_windows p text ws;
      Some (Resolve (concat perWindow))
  end.
End Detect.

(** ** Category filter and combo rules *)

Record ComboRule := MkComboRule { cr_Category : Category; cr_RequiresAny : list Category }.

(** A Go [map[K]bool] used as a set. *)
Definition set_of (cs : list Category) : gset Category := list_to_set cs.

(** The first rule for the category decides. *)
Fixpoint comboAllowed (cat : Category) (present : gset Category) (rules : list ComboRule) : bool :=
  match rules with
  | [] => true
  | r :: rules =>
      if negb (bool_decide (cr_Category r = cat)) then comboAllowed cat present rules
      else existsb (λ req, bool_decide (req ∈ present)) (cr_RequiresAny r)
  end.

Definition filterSpans (spans : list Span) (categories : list Category) (rules : list ComboRule)
    : list Span :=
  let wanted := set_of categories in
  let present := set_of (map sp_Category spans) in
  List.filter (λ s,
    negb (negb (bool_decide (wanted = ∅)) && negb (bool_decide (sp_Category s ∈ wanted))) &&
    comboAllowed (sp_Category s) present rules) spans.

Arguments windows : simpl never.
Arguments chunkSize : simpl never.
Arguments chunkOverlap : simpl never.

(** ** Scans *)

Lemma isBoundaryByte_ascii b : isBoundaryByte b = true → byte_val b < 0x80.
Proof. unfold isBoundaryByte. lia. Qed.

Lemma last_boundary_spec text lo n :
  (lo + n <= length text)%nat →
  ∃ i, last_boundary text lo n = Some i ∧
    (i = -1 ∨ Z.of_nat lo <= i < Z.of_nat (lo + n) ∧
       ∃ b, text !! Z.to_nat i = Some b ∧ isBoundaryByte b = true).
Proof.
  induction n as [|n IH]; intros Hl; simpl; [eexists; split; [done|by left]|].
  destruct (lookup_lt_is_Some_2 text (lo + n)%nat) as [b Hb]; [lia|]. rewrite Hb.
  destruct (isBoundaryByte b) eqn:E.
  - eexists. split; [done|right]. rewrite Nat2Z.id. split; [lia|]. by exists b.
  - destruct IH as (i & -> & Hi); [lia|]. exists i. split; [done|].
    destruct Hi as [?|[? ?]]; [by left|right; split; [lia|done]].
Qed.

Lemma first_boundary_spec text lo n :
  (lo + n <= length text)%nat →
  ∃ i, first_boundary text lo n = Some i ∧
    (i = -1 ∨ Z.of_nat lo <= i < Z.of_nat (lo + n) ∧
       ∃ b, text !! Z.to_nat i = Some b ∧ isBoundaryByte b = true).
Proof.
  revert lo. induction n as [|n IH]; intros lo Hl; simpl; [eexists; split; [done|by left]|].
  destruct (lookup_lt_is_Some_2 text lo) as [b Hb]; [lia|]. rewrite Hb.
  destruct (isBoundaryByte b) eqn:E.
  - eexists. split; [done|right]. rewrite Nat2Z.id. split; [lia|]. by exists b.
  - destruct (IH (S lo)) as (i & -> & Hi); [lia|]. exists i. split; [done|].
    destruct Hi as [?|[? ?]]; [by left|right; split; [lia|done]].
Qed.

(** A position a window may start or end at: a text edge, the byte after or before
    a boundary byte, or the first byte of a rune. *)
Definition cut_ok (text : bytes) (i : Z) : Prop :=
  0 <= i <= len text ∧
  (i = 0 ∨ i = len text ∨
   (∃ b, text !! Z.to_nat (i - 1) = Some b ∧ isBoundaryByte b = true) ∨
   (∃ b, text !! Z.to_nat i = Some b ∧ rune_start b = true)).

Lemma isBoundaryByte_start b : isBoundaryByte b = true → rune_start b = true.
Proof. intros Hb%isBoundaryByte_ascii. unfold rune_start, is_cont, in_rng. lia. Qed.

Lemma rune_start_down_spec text lo :
  (lo < length text)%nat →
  ∃ i, rune_start_down text lo = Some i ∧ i <= Z.of_nat lo ∧ cut_ok text i.
Proof.
  unfold cut_ok, len. induction lo as [|lo IH]; intros Hl; cbn [rune_start_down].
  { exists 0. split_and!; [done|lia|lia|lia|by left]. }
  destruct (lookup_lt_is_Some_2 text (S lo)) as [b Hb]; [lia|]. rewrite Hb.
  destruct (rune_start b) eqn:E.
  - eexists. split_and!; [done|lia|lia|lia|]. right. right. right. rewrite Nat2Z.id. by exists b.
  - destruct IH as (i & -> & ? & ?); [lia|]. exists i. split_and!; [done|lia|lia|lia|]. tauto.
Qed.

Lemma rune_start_up_spec text hi :
  0 <= hi <= len text →
  let e := rune_start_up (drop (Z.to_nat hi) text) hi in hi <= e ∧ cut_ok text e.
Proof.
  intros Hhi. cbv zeta. remember (drop (Z.to_nat hi) text) as rest eqn:Hr. revert hi Hhi Hr.
  unfold cut_ok. induction rest as [|b rest IH]; intros hi Hhi Hr; cbn [rune_start_up].
  { apply (f_equal length) in Hr. rewrite length_drop in Hr. simpl in Hr.
    unfold len in *. split_and!; [lia..|]. right. left. lia. }
  assert (text !! Z.to_nat hi = Some b) as Hb.
  { pose proof (lookup_drop text (Z.to_nat hi) 0) as Hd. rewrite <- Hr, Nat.add_0_r in Hd. by rewrite <- Hd. }
  destruct (rune_start b) eqn:E.
  - split_and!; [lia..|]. right. right. right. by exists b.
  - pose proof (lookup_lt_Some _ _ _ Hb). unfold len in *.
    destruct (IH (hi + 1)) as (? & ? & ?); [lia| |split_and!; [lia|lia|lia|done]].
    replace (Z.to_nat (hi + 1)) with (S (Z.to_nat hi)) by lia.
    rewrite <- Nat.add_1_r, <- drop_drop, <- Hr. done.
Qed.

(** ** The windows *)

Lemma extendBefore_spec text pos n :
  0 < n → 0 <= pos <= len text →
  ∃ s, extendBefore text pos n = Some s ∧ s <= Z.max 0 (pos - n + 1) ∧ cut_ok text s.
Proof.
  intros Hn Hp. unfold extendBefore. pose proof (len_nonneg text) as Hlen.
  assert (cut_ok text 0) as H0 by (unfold cut_ok; split; [lia|by left]).
  destruct (pos - n <? 0) eqn:E; [exists 0; split_and!; [done|lia|done]|].
  unfold indexLastBoundaryByte.
  destruct (last_boundary_spec text (Z.to_nat 0) (Z.to_nat (pos - n + 1 - 0))) as (i & -> & Hi).
  { unfold len in *. lia. }
  cbn [mbind option_bind]. destruct Hi as [->|(Hi & b & Hb & Hbb)].
  - simpl. destruct (rune_start_down_spec text (Z.to_nat (pos - n))) as (s & -> & ? & ?).
    + unfold len in *. lia.
    + exists s. split_and!; [done|lia|done].
  - replace (0 <=? i) with true by lia. exists (i + 1). split_and!; [done|lia|].
    pose proof (lookup_lt_Some _ _ _ Hb). unfold cut_ok, len in *. split; [lia|].
    right. right. left. exists b. by replace (i + 1 - 1) with i by lia.
Qed.

Lemma extendAfter_spec text pos n :
  0 < n → 0 <= pos <= len text →
  ∃ e, extendAfter text pos n = Some e ∧ Z.min (len text) (pos + n) <= e ∧ cut_ok text e.
Proof.
  intros Hn Hp. unfold extendAfter. pose proof (len_nonneg text) as Hlen.
  destruct (len text <? pos + n) eqn:E.
  { exists (len text). split_and!; [done|lia|]. split; [lia|]. right. by left. }
  unfold indexFirstBoundaryByte.
  destruct (first_boundary_spec text (Z.to_nat (pos + n)) (Z.to_nat (len text - (pos + n)))) as (i & -> & Hi).
  { unfold len in *. lia. }
  cbn [mbind option_bind]. destruct Hi as [->|(Hi & b & Hb & Hbb)].
  - simpl. destruct (rune_start_up_spec text (pos + n)) as [? ?]; [lia|].
    eexists. split_and!; [done|lia|done].
  - replace (0 <=? i) with true by lia. exists i. split_and!; [done|lia|].
    pose proof (lookup_lt_Some _ _ _ Hb). unfold cut_ok, len in *. split; [lia|].
    right. right. right. exists b. split; [done|by apply isBoundaryByte_start].
Qed.

(** The core boundaries do not decrease from [pos] on. *)
Fixpoint ascending (pos : Z) (bs : list Z) : Prop :=
  match bs with
  | [] => True
  | b :: bs => pos <= b ∧ ascending b bs
  end.

Lemma core_cuts_spec fuel text pos :
  0 <= pos <= len text → (Z.to_nat (len text - pos) < fuel)%nat →
  ∃ cuts, core_cuts fuel text pos = Some cuts ∧ ascending pos (cuts ++ [len text]).
Proof.
  revert pos. induction fuel as [|fuel IH]; intros pos Hp Hf; [lia|]. cbn [core_cuts].
  assert (0 < chunkSize) as Hcs by (unfold chunkSize; lia).
  assert (ascending pos ([] ++ [len text])) as H0 by (simpl; lia).
  destruct (pos <? len text) eqn:E0; [|by exists []].
  destruct (len text <=? pos + chunkSize) eqn:E; [by exists []|].
  unfold indexLastBoundaryByte.
  destruct (last_boundary_spec text (Z.to_nat pos) (Z.to_nat (pos + chunkSize - pos))) as (i & -> & Hi).
  { unfold len in *. lia. }
  cbn [mbind option_bind].
  assert (∃ cut, (if 0 <=? i then Some (i + 1)
      else j ← indexFirstBoundaryByte text (pos + chunkSize) (len text);
           Some (if 0 <=? j then j + 1 else -1)) = Some cut ∧ (cut = -1 ∨ pos < cut <= len text))
    as (cut & -> & Hcut).
  { destruct Hi as [->|(Hi & _)].
    - simpl. unfold indexFirstBoundaryByte.
      destruct (first_boundary_spec text (Z.to_nat (pos + chunkSize)) (Z.to_nat (len text - (pos + chunkSize))))
        as (j & -> & Hj); [unfold len in *; lia|].
      cbn [mbind option_bind]. eexists. split; [done|].
      destruct Hj as [->|(Hj & _)]; [by left|right]. case_match; unfold len in *; lia.
    - replace (0 <=? i) with true by lia. eexists. split; [done|right]. unfold len in *. lia. }
  cbn [mbind option_bind]. destruct (cut <=? pos) eqn:Ec; [by exists []|].
  destruct (IH cut) as (cuts & -> & Hasc); [lia|lia|]. exists (cut :: cuts).
  split; [done|]. simpl. split; [lia|done].
Qed.

(** A window that reaches one overlap beyond the core region it is cut around. *)
Definition covers (text : bytes) (b0 b1 : Z) (w : window) : Prop :=
  w_start w <= Z.max 0 (b0 - chunkOverlap + 1) ∧ Z.min (len text) (b1 + chunkOverlap) <= w_end w ∧
  cut_ok text (w_start w) ∧ cut_ok text (w_end w).

Lemma core_windows_spec text b0 bs :
  0 <= b0 <= len text → ascending b0 bs → Forall (λ b, b <= len text) bs →
  ∃ ws, core_windows text (b0 :: bs) = Some ws ∧
    (∀ a, b0 <= a < default b0 (last bs) → ∃ w c0 c1, w ∈ ws ∧ c0 <= a < c1 ∧ covers text c0 c1 w) ∧
    Forall (λ w, w_start w <= w_end w ∧ cut_ok text (w_start w) ∧ cut_ok text (w_end w)) ws.
Proof.
  revert b0. induction bs as [|b1 bs IH]; intros b0 Hb0 Hasc Hle.
  { exists []. split_and!; [done|simpl; lia|constructor]. }
  destruct Hasc as [Hb1 Hasc]. apply Forall_cons_1 in Hle as [Hb1l Hle].
  change (core_windows text (b0 :: b1 :: bs)) with
    (s ← extendBefore text b0 chunkOverlap; e ← extendAfter text b1 chunkOverlap;
     ws ← core_windows text (b1 :: bs); Some (MkWindow s e :: ws)).
  destruct (extendBefore_spec text b0 chunkOverlap) as (s & -> & Hs & Hsc); [unfold chunkOverlap; lia|lia|].
  destruct (extendAfter_spec text b1 chunkOverlap) as (e & -> & He & Hec); [unfold chunkOverlap; lia|lia|].
  destruct (IH b1) as (ws & -> & Hcov & Hall); [lia|done|done|].
  cbn [mbind option_bind]. exists (MkWindow s e :: ws). split_and!; [done| |].
  - intros a Ha. destruct (decide (a < b1)) as [Hlt|Hge].
    + exists (MkWindow s e), b0, b1. split_and!; [left|lia|lia|]. unfold covers. by split_and!.
    + destruct (Hcov a) as (w & c0 & c1 & Hw & ?).
      { split; [lia|]. destruct bs as [|b2 bs]; [simpl in *; lia|]. rewrite last_cons_cons in Ha.
        destruct (last (b2 :: bs)) eqn:El; [simpl in *; lia|by apply last_None in El]. }
      exists w, c0, c1. split; [by right|done].
  - constructor; [|done]. simpl. split_and!; [|done|done].
    assert (0 < chunkOverlap) by (unfold chunkOverlap; lia).
    destruct Hec as [[??] _]. lia.
Qed.

Lemma ascending_le pos bs m : ascending pos (bs ++ [m]) → pos <= m ∧ Forall (λ b, b <= m) (bs ++ [m]).
Proof.
  revert pos. induction bs as [|b bs IH]; simpl; intros pos [H1 H2].
  - split; [done|]. by repeat constructor.
  - destruct (IH b H2) as [? ?]. split; [lia|]. by constructor.
Qed.

(** The windows exist; every position lies in a core region whose window reaches an
    overlap beyond it on both sides. *)
Lemma windows_spec text :
  ∃ ws, windows text = Some ws ∧
    (∀ a, 0 <= a < len text → ∃ w c0 c1, w ∈ ws ∧ c0 <= a < c1 ∧ covers text c0 c1 w) ∧
    Forall (λ w, w_start w <= w_end w ∧ cut_ok text (w_start w) ∧ cut_ok text (w_end w)) ws.
Proof.
  pose proof (len_nonneg text) as Hlen. assert (0 < chunkOverlap) as Ho by (unfold chunkOverlap; lia).
  unfold windows. destruct (_ <=? _) eqn:E.
  - exists [MkWindow 0 (len text)].
    assert (cut_ok text 0 ∧ cut_ok text (len text)) as [H0 H1].
    { unfold cut_ok. split; (split; [lia|]); [by left|right; by left]. }
    split_and!; [done| |by repeat constructor].
    intros a Ha. exists (MkWindow 0 (len text)), 0, (len text).
    split_and!; [left|lia|lia|]. unfold covers. simpl. split_and!; [lia|lia|done|done].
  - unfold coreBoundaries.
    destruct (core_cuts_spec (S (length text)) text 0) as (cuts & -> & Hasc).
    { lia. } { unfold len. lia. }
    cbn [mbind option_bind]. destruct (ascending_le _ _ _ Hasc) as [_ Hle].
    destruct (core_windows_spec text 0 (cuts ++ [len text])) as (ws & -> & Hcov & Hall); [lia|done|done|].
    exists ws. split_and!; [done| |done]. intros a Ha. apply Hcov. by rewrite last_snoc.
Qed.

(** On valid UTF-8 every cut is a rune boundary. *)
Lemma cut_ok_boundary text i : utf8_valid text → cut_ok text i → rune_boundary text i.
Proof.
  intros Hv [Hi [->|[->|[(b & Hb & Hbb)|(b & Hb & Hst)]]]].
  - split; [done|]. destruct text as [|b t]; [by left|right].
    exists b. split; [done|by eapply valid_first].
  - split; [done|by left].
  - destruct (decide (i = 0)) as [->|Hne].
    { split; [done|]. destruct text as [|c t]; [by left|right].
      exists c. split; [done|by eapply valid_first]. }
    replace i with (i - 1 + 1) by lia. eapply boundary_after_ascii; [done|exact Hb| |lia].
    by apply isBoundaryByte_ascii.
  - split; [done|right]. by exists b.
Qed.

(** ** Detection over windows is sound *)

Section DetectFacts.
Context `{Unicode} `{SliceSort}.

(** On every piece of [text] that may be cut out as a window, every detector returns,
    and reports spans inside the piece. *)
Definition pipeline_ok (p : Pipeline) (text : bytes) : Prop :=
  ∀ a b, a <= b → cut_ok text a → cut_ok text b → Forall (detects_in (slice text a b)) (pl_detectors p).

Lemma pipeline_ok_self p text : pipeline_ok p text → Forall (detects_in text) (pl_detectors p).
Proof.
  intros Hp. pose proof (len_nonneg text). specialize (Hp 0 (len text)). rewrite slice_full in Hp.
  apply Hp; unfold cut_ok; [lia|split; [lia|tauto]..].
Qed.

(** What masking needs of a span list. *)
Definition spans_ok (text : bytes) (spans : list Span) : Prop :=
  StronglySorted before spans ∧ Forall (span_in text) spans.

Lemma Run_ok p text :
  Forall (detects_in text) (pl_detectors p) → ∃ r, Run p text = Some r ∧ spans_ok text (r_Spans r).
Proof.
  intros Hp. destruct (Run_spec p text Hp) as (r & Hr & Hs & Hin & _).
  exists r. split; [done|by split].
Qed.

Lemma detect_window_ok p text w :
  pipeline_ok p text → w_start w <= w_end w → cut_ok text (w_start w) → cut_ok text (w_end w) →
  ∃ spans, detect_window p text w = Some spans ∧ Forall (span_in text) spans.
Proof.
  intros Hp Hw Ha Hb. pose proof (proj1 Ha). pose proof (proj1 Hb). unfold detect_window. rewrite go_slice_Some by lia. cbn [mbind option_bind].
  destruct (Run_ok p (slice text (w_start w) (w_end w))) as (r & -> & _ & Hin).
  { by apply Hp. }
  cbn [mbind option_bind]. eexists. split; [done|]. rewrite Forall_map.
  eapply Forall_impl; [exact Hin|]. intros s (?&?&Hs). rewrite len_slice in Hs by lia.
  unfold span_in, shift_span. simpl. lia.
Qed.

Lemma detect_windows_ok p text ws :
  pipeline_ok p text → Forall (λ w, w_start w <= w_end w ∧ cut_ok text (w_start w) ∧ cut_ok text (w_end w)) ws →
  ∃ l, detect_windows p text ws = Some l ∧ Forall (Forall (span_in text)) l.
Proof.
  intros Hp. induction 1 as [|w ws (? & ? & ?) _ IH]; [by exists []|]. cbn [detect_windows].
  destruct (detect_window_ok p text w) as (s & -> & ?); [done..|].
  destruct IH as (l & -> & ?). cbn [mbind option_bind]. exists (s :: l). split; [done|by constructor].
Qed.

Lemma detectWindowed_ok p text :
  pipeline_ok p text → ∃ spans, detectWindowed p text = Some spans ∧ spans_ok text spans.
Proof.
  intros Hp. unfold detectWindowed. destruct (windows_spec text) as (ws & -> & _ & Hws).
  cbn [mbind option_bind].
  assert (∃ spans, (perWindow ← detect_windows p text ws; Some (Resolve (concat perWindow))) = Some spans ∧
    spans_ok text spans) as Hmany.
  { destruct (detect_windows_ok p text ws Hp Hws) as (l & -> & Hl). cbn [mbind option_bind].
    eexists. split; [done|]. apply Forall_concat in Hl.
    assert (Forall span_wf (concat l)) as Hwf by (eapply Forall_impl; [exact Hl|]; by intros ? (?&?&?)).
    split; [by apply resolve_sorted|]. apply Forall_forall. intros s Hs%resolve_incl; [|done].
    rewrite Forall_forall in Hl. auto. }
  destruct ws as [|w [|w' ws]]; [exact Hmany| |exact Hmany].
  destruct (Run_ok p text (pipeline_ok_self _ _ Hp)) as (r & -> & Hr). cbn [mbind option_bind]. by eexists.
Qed.

(** What the filter keeps, said declaratively. *)
Definition kept (spans : list Span) (categories : list Category) (rules : list ComboRule) (s : Span) : Prop :=
  (categories = [] ∨ sp_Category s ∈ categories) ∧
  match List.find (λ r, bool_decide (cr_Category r = sp_Category s)) rules with
  | None => True
  | Some r => ∃ s', s' ∈ spans ∧ sp_Category s' ∈ cr_RequiresAny r
  end.

Lemma comboAllowed_spec cat present rules :
  comboAllowed cat present rules = true ↔
  match List.find (λ r, bool_decide (cr_Category r = cat)) rules with
  | None => True
  | Some r => ∃ c, c ∈ present ∧ c ∈ cr_RequiresAny r
  end.
Proof.
  induction rules as [|r rules IH]; cbn [comboAllowed List.find]; [done|].
  case_bool_decide; cbn [negb]; [|exact IH]. rewrite existsb_exists. split.
  - intros (c & Hc & Hp%bool_decide_eq_true). exists c. split; [done|by apply list_elem_of_In].
  - intros (c & Hp & Hc). exists c. split; [by apply list_elem_of_In|by apply bool_decide_eq_true].
Qed.

Lemma filterSpans_elem spans categories rules s :
  s ∈ filterSpans spans categories rules ↔ s ∈ spans ∧ kept spans categories rules s.
Proof.
  unfold filterSpans. rewrite list_elem_of_In, List.filter_In, <- list_elem_of_In.
  apply and_iff_compat_l. rewrite andb_true_iff, comboAllowed_spec, negb_true_iff, andb_false_iff,
    !negb_false_iff, !bool_decide_eq_true. unfold kept, set_of.
  assert (list_to_set categories =@{gset Category} ∅ ↔ categories = []) as ->.
  { destruct categories as [|c cs]; [done|]. split; [intros E|done]. exfalso.
    assert (c ∈ (∅ : gset Category)) as Hc by (rewrite <- E; set_solver). set_solver. }
  rewrite elem_of_list_to_set. apply and_iff_compat_l.
  case_match; [|done]. split.
  - intros (cat & Hc & Hr). apply elem_of_list_to_set, list_elem_of_fmap in Hc as (s' & -> & Hs').
    by exists s'.
  - intros (s' & Hs' & Hr). exists (sp_Category s'). split; [|done].
    by apply elem_of_list_to_set, list_elem_of_fmap_2.
Qed.

Lemma filter_sorted {A : Type} (R : A → A → Prop) (f : A → bool) l :
  StronglySorted R l → StronglySorted R (List.filter f l).
Proof.
  induction 1 as [|x l Hl IH Hx]; simpl; [constructor|]. destruct (f x); [|done].
  constructor; [done|]. rewrite Forall_forall in *. intros y Hy. apply Hx.
  rewrite list_elem_of_In in *. by apply List.filter_In in Hy as [? _].
Qed.

Lemma filterSpans_ok text spans categories rules :
  spans_ok text spans → spans_ok text (filterSpans spans categories rules).
Proof.
  intros [Hs Hin]. split; [by apply filter_sorted|]. apply Forall_forall.
  intros s [Hs' _]%filterSpans_elem. rewrite Forall_forall in Hin. auto.
Qed.
End DetectFacts.

(** ** Properties *)

(** C34: the windows of any text exist, and every range no longer than the overlap lies
    inside one window, with the [chunkOverlap - 1] bytes before it, or all the text before
    it if that is less: no value with its label before it is cut by every window that
    could see it. *)
Theorem windows_contain text a b :
  0 <= a → a < b → b <= len text → b - a <= chunkOverlap →
  ∃ ws w, windows text = Some ws ∧ w ∈ ws ∧
    0 <= w_start w <= Z.max 0 (a - chunkOverlap + 1) ∧ b <= w_end w <= len text.
Proof.
  intros Ha Hab Hb Hl. destruct (windows_spec text) as (ws & -> & Hcov & _).
  destruct (Hcov a) as (w & c0 & c1 & Hw & Hc & Hs & He & [[??] _] & [[??] _]); [lia|].
  exists ws, w. split_and!; [done|done|lia|lia|lia|lia].
Qed.

(** Words of ten bytes, 45000 bytes in all: more than one window. *)
Definition demo_long_text : bytes := concat (replicate 4500 (go_bytes "word word ")).

Lemma windows_contain_witness :
  ∃ ws w, windows demo_long_text = Some ws ∧ w ∈ ws ∧
    0 <= w_start w <= Z.max 0 (32766 - chunkOverlap + 1) ∧ 32770 <= w_end w <= len demo_long_text.
Proof.
  apply windows_contain; [lia|lia| |unfold chunkOverlap; lia]. apply Z.leb_le. by vm_compute.
Defined.

Example windows_demo : windows demo_long_text = Some [MkWindow 0 36864; MkWindow 28670 45000].
Proof. by vm_compute. Qed.

(** Every window of a valid UTF-8 text is valid UTF-8: no window starts or ends
    inside a rune. *)
Lemma windows_rune_safe text :
  utf8_valid text →
  ∃ ws, windows text = Some ws ∧
    Forall (λ w, 0 <= w_start w ∧ w_start w <= w_end w ∧ w_end w <= len text ∧
                 utf8_valid (slice text (w_start w) (w_end w))) ws.
Proof.
  intros Hv. destruct (windows_spec text) as (ws & Hws & _ & Hall). exists ws. split; [done|].
  eapply Forall_impl; [exact Hall|]. intros w (Hle & Hs & He).
  pose proof (cut_ok_boundary text _ Hv Hs) as Hbs. pose proof (cut_ok_boundary text _ Hv He) as Hbe.
  destruct Hs as [? _], He as [? _]. split_and!; [lia|lia|lia|by apply utf8_slice].
Qed.

Lemma windows_rune_safe_witness :
  ∃ ws, windows "Иванов" = Some ws ∧ Forall (λ w, utf8_valid (slice "Иванов" (w_start w) (w_end w))) ws.
Proof.
  destruct (windows_rune_safe "Иванов") as (ws & Hws & Hall).
  - apply (bool_decide_unpack _). by vm_compute.
  - exists ws. split; [exact Hws|]. eapply Forall_impl; [exact Hall|]. by intros w (?&?&?&?).
Defined.

(** The filter keeps exactly the spans whose category is wanted (an empty list
    wants all) and whose first combo rule, if any, finds a required category among
    all the detected spans, wanted or not; the order does not change. *)
Lemma filterSpans_keeps spans categories rules :
  (∀ s, s ∈ filterSpans spans categories rules ↔ s ∈ spans ∧ kept spans categories rules s) ∧
  (∀ text, spans_ok text spans → spans_ok text (filterSpans spans categories rules)).
Proof. split; [intros s; apply filterSpans_elem|intros text; apply filterSpans_ok]. Qed.
