(* ===== verification/Engine.v ===== *)
(** * Package [engine]: the engine over the store

    Models [internal/engine/engine.go]. An operation is a program ([prog]) that asks
    the store and the clock and goes on with what they answer, so that requests can be
    interleaved at every store call. Programs run over the contract of the store
    ([spec_backend]) and over any implementation of it ([impl_backend]); a run over an
    implementation is a run over the contract ([sys_refines]).

    The stage timings are not modelled. A strategy map holds no nil strategies.
    SHA-256 is a parameter. *)

From S2P Require Import Prelude GoText Float64 Pii Mask Pipeline Crypto Store Chunk.

(** ** Programs *)

Inductive prog (A : Type) : Type :=
| Done (a : A)
| Now (k : Z → prog A)
| Ask (c : call) (k : outcome store_error (resp c) → prog A).
Arguments Done {A} a.
Arguments Now {A} k.
Arguments Ask {A} c k.

Fixpoint prog_bind {A B : Type} (f : A → prog B) (p : prog A) : prog B :=
  match p with
  | Done a => f a
  | Now k => Now (λ t, prog_bind f (k t))
  | Ask c k => Ask c (λ r, prog_bind f (k r))
  end.

#[export] Instance prog_mret : MRet prog := λ A a, Done a.
#[export] Instance prog_mbind : MBind prog := @prog_bind.
#[export] Instance prog_fmap : FMap prog := λ A B f p, prog_bind (λ a, Done (f a)) p.

(** ** Data *)

Inductive engine_error :=
| ErrNotFound
| ErrLooksLikeUnmask
| ErrForeignRecord
| Err_no_strategy
| Err_store (e : store_error).

Record Options := MkOptions {
  Categories : list Category;
  opt_Strategy : bytes;
  TTL : Z;
  ComboRules : list ComboRule;
  Unmask_allowed : bool;
  SystemID : bytes;
  DefaultSystemID : bytes
}.

(** The store is behind the calls of the programs. *)
Record Engine := MkEngine {
  pipeline : Pipeline;
  strategies : gmap bytes Strategy
}.

Abbreviation counter := (gmap Category Z).

Record MaskResult := MkMaskResult { Masked : bytes; Found : option counter }.
Record MaskBatchResult := MkMaskBatchResult { b_Masked : list bytes; b_Found : counter }.
Record UnmaskResult := MkUnmaskResult { Restored : bytes; Misses : Z }.

(** [None] is a nil map. *)
Record ProcessResult := MkProcessResult {
  p_Result : bytes;
  p_Found : option counter;
  p_Unmasked : bool;
  p_Misses : Z
}.

(** The digest of [crypto/sha256]. *)
Class Sha256 := { sha256 : bytes → bytes; sha256_length s : length (sha256 s) = 32%nat }.

(** [for _, s := range m { return s }]: some value of a map that is not empty. *)
Class MapRange := {
  range_first : ∀ {A : Type}, gmap bytes A → option A;
  range_first_None {A : Type} (m : gmap bytes A) : range_first m = None → m = ∅;
  range_first_Some {A : Type} (m : gmap bytes A) a : range_first m = Some a → ∃ k, m !! k = Some a
}.

(** ** Helpers *)

Definition hashText `{Sha256} (text : bytes) : bytes := hex_encode (sha256 text).

Definition newline : byte := "010"%byte.

Definition joinMasked (masked : list bytes) : bytes := concat (map (λ m, m ++ [newline]) masked).
Definition joinTexts (texts : list bytes) : bytes := concat (map (λ t, t ++ [newline]) texts).

Definition counts (spans : list Span) : counter := foldl (λ out s, incr out (sp_Category s)) ∅ spans.

Definition countsFromRec (rec : Record_) : counter :=
  foldl (λ out r, incr out (rp_Category r)) ∅ (rec_Replacements rec).

(** [found[c] += n] for the entries of [f]; a missing entry counts as 0. *)
Definition add_counts (found f : counter) : counter := union_with (λ a b, Some (a + b)) found f.

Definition ownsRecord (rec : Record_) (opt : Options) : bool :=
  if bool_decide (rec_SystemID rec = LegacyOwner)
  then negb (bool_decide (SystemID opt = [])) && bool_decide (SystemID opt = DefaultSystemID opt)
  else bool_decide (rec_SystemID rec = SystemID opt).

Definition resolveStrategy `{MapRange} (e : Engine) (name : bytes) : option Strategy :=
  match strategies e !! name with
  | Some s => Some s
  | None =>
      match strategies e !! (go_bytes "partial") with
      | Some s => Some s
      | None => range_first (strategies e)
      end
  end.

(** ** Operations *)

Section Ops.
Context `{Unicode} `{SliceSort} `{Sha256} `{MapRange} (e : Engine).

(** Ends an operation. *)
Definition ret {A : Type} (a : A) : prog (outcome engine_error A) := Done (Ret a).
Definition fail {A : Type} (er : engine_error) : prog (outcome engine_error A) := Done (Err er).

(** [x, err := call; if err != nil { return err }] *)
Definition ask {A : Type} (c : call) (k : resp c → prog (outcome engine_error A)) : prog (outcome engine_error A) :=
  Ask c (λ r, match r with
              | Ret a => k a
              | Err er => fail (Err_store er)
              | Panic => Done Panic
              end).

(** Code that may panic. *)
Definition guard {A B : Type} (o : option A) (k : A → prog (outcome engine_error B)) : prog (outcome engine_error B) :=
  match o with
  | Some a => k a
  | None => Done Panic
  end.

Definition maskChunked (text : bytes) (opt : Options) (strategy : Strategy) (doc : option DocState)
    : option (bytes * list Replacement * counter * option DocState) :=
  docSpans ← detectWindowed (pipeline e) text;
  let spans := filterSpans docSpans (Categories opt) (ComboRules opt) in
  '(masked, reps, doc) ← Apply text spans strategy doc;
  Some (masked, reps, counts spans, doc).

(** [runMask]; [MaskBatchEx] has the same code inline. *)
Definition runMask (text : bytes) (opt : Options) (strategy : Strategy) (doc : option DocState)
    : option (bytes * list Replacement * counter * option DocState) :=
  if chunkThreshold <? len text then maskChunked text opt strategy doc
  else
    res ← Run (pipeline e) text;
    let spans := filterSpans (r_Spans res) (Categories opt) (ComboRules opt) in
    '(masked, reps, doc) ← Apply text spans strategy doc;
    Some (masked, reps, counts spans, doc).

Definition maskOnly (text : bytes) (opt : Options) (doc : option DocState) : outcome engine_error MaskResult :=
  match resolveStrategy e (opt_Strategy opt) with
  | None => Err Err_no_strategy
  | Some strategy =>
      match runMask text opt strategy doc with
      | None => Panic
      | Some (masked, _, found, _) => Ret (MkMaskResult masked (Some found))
      end
  end.

Definition maskFreshResult (payload : bytes) (opt : Options) : outcome engine_error ProcessResult :=
  match maskOnly payload opt (Some NewDocState) with
  | Ret mres => Ret (MkProcessResult (Masked mres) (Found mres) false 0)
  | Err er => Err er
  | Panic => Panic
  end.

Definition maskWithRecord (id text : bytes) (opt : Options) (doc : option DocState) (existing : option Record_)
    : prog (outcome engine_error MaskResult) :=
  let hash := hashText text in
  let mask_and_save :=
    match resolveStrategy e (opt_Strategy opt) with
    | None => fail Err_no_strategy
    | Some strategy =>
        guard (runMask text opt strategy doc) (λ '(masked, reps, found, _),
          Now (λ now,
            let rec := MkRecord reps (s_Name strategy) now masked hash (SystemID opt) in
            ask (CSave id rec (TTL opt)) (λ _, ret (MkMaskResult masked (Some found)))))
    end in
  match existing with
  | Some rec =>
      if bool_decide (rec_Hash rec = hash) then ret (MkMaskResult (rec_MaskedText rec) (Some (countsFromRec rec)))
      else if bool_decide (rec_MaskedText rec = text) then fail ErrLooksLikeUnmask
      else mask_and_save
  | None => mask_and_save
  end.

(** An error of [Load] counts as "no record". *)
Definition maskEx (id text : bytes) (opt : Options) (doc : option DocState)
    : prog (outcome engine_error MaskResult) :=
  let hash := hashText text in
  Ask (CLoad id) (λ r,
    match r with
    | Panic => Done Panic
    | Ret (Some rec) =>
        if negb (ownsRecord rec opt) then fail ErrForeignRecord
        else if bool_decide (rec_Hash rec = hash)
        then ret (MkMaskResult (rec_MaskedText rec) (Some (countsFromRec rec)))
        else if bool_decide (rec_MaskedText rec = text) then fail ErrLooksLikeUnmask
        else maskWithRecord id text opt doc (Some rec)
    | Ret None | Err _ => maskWithRecord id text opt doc None
    end).

Definition MaskEx (id text : bytes) (opt : Options) : prog (outcome engine_error MaskResult) :=
  maskEx id text opt (Some NewDocState).

(** [Mask]: the pair of the result. *)
Definition Mask (id text : bytes) (opt : Options) : prog (outcome engine_error (bytes * option counter)) :=
  res ← MaskEx id text opt;
  Done (match res with Ret m => Ret (Masked m, Found m) | Err er => Err er | Panic => Panic end).

(** The loop of [MaskBatchEx]. *)
Record batch_state := MkBatch {
  bt_masked : list bytes;
  bt_reps : list Replacement;
  bt_found : counter;
  bt_offset : Z;
  bt_doc : option DocState
}.

Definition shift_rep (off : Z) (r : Replacement) : Replacement :=
  MkReplacement (rp_Category r) (rp_Original r) (rp_Masked r) (rp_Start r + off) (rp_End r + off).

Definition batch_step (opt : Options) (strategy : Strategy) (st : batch_state) (text : bytes)
    : option batch_state :=
  '(m, reps, f, doc) ← runMask text opt strategy (bt_doc st);
  Some (MkBatch (bt_masked st ++ [m]) (bt_reps st ++ map (shift_rep (bt_offset st)) reps)
          (add_counts (bt_found st) f) (bt_offset st + (len m + 1)) doc).

Definition MaskBatchEx (id : bytes) (texts : list bytes) (opt : Options)
    : prog (outcome engine_error MaskBatchResult) :=
  let mask_and_save :=
    match resolveStrategy e (opt_Strategy opt) with
    | None => fail Err_no_strategy
    | Some strategy =>
        guard (fold_opt (batch_step opt strategy) (MkBatch [] [] ∅ 0 (Some NewDocState)) texts) (λ st,
          Now (λ now,
            let rec := MkRecord (bt_reps st) (s_Name strategy) now (joinMasked (bt_masked st))
                         (hashText (joinTexts texts)) (SystemID opt) in
            ask (CSave id rec (TTL opt)) (λ _, ret (MkMaskBatchResult (bt_masked st) (bt_found st)))))
    end in
  Ask (CLoad id) (λ r,
    match r with
    | Panic => Done Panic
    | Ret (Some rec) => if negb (ownsRecord rec opt) then fail ErrForeignRecord else mask_and_save
    | Ret None | Err _ => mask_and_save
    end).

Definition UnmaskEx (id masked : bytes) (opt : Options) : prog (outcome engine_error UnmaskResult) :=
  ask (CLoad id) (λ r : option Record_,
    match r with
    | None => fail ErrNotFound
    | Some rec =>
        if negb (ownsRecord rec opt) then fail ErrNotFound
        else guard (Restore masked (rec_Replacements rec)) (λ '(restored, misses), ret (MkUnmaskResult restored misses))
    end).

(** [MaskBatch] and [Unmask]: the parts of the results without the timings. *)
Definition MaskBatch (id : bytes) (texts : list bytes) (opt : Options)
    : prog (outcome engine_error (list bytes * option counter)) :=
  res ← MaskBatchEx id texts opt;
  Done (match res with Ret m => Ret (b_Masked m, Some (b_Found m)) | Err er => Err er | Panic => Panic end).

Definition Unmask (id masked : bytes) (opt : Options) : prog (outcome engine_error (bytes * Z)) :=
  res ← UnmaskEx id masked opt;
  Done (match res with Ret u => Ret (Restored u, Misses u) | Err er => Err er | Panic => Panic end).

Definition processExisting (rec : Record_) (payload : bytes) (opt : Options)
    : outcome engine_error ProcessResult :=
  if bool_decide (rec_Hash rec = hashText payload)
  then Ret (MkProcessResult (rec_MaskedText rec) None false 0)
  else if negb (Unmask_allowed opt) then maskFreshResult payload opt
  else
    match Restore payload (rec_Replacements rec) with
    | None => Panic
    | Some (restored, misses) =>
        if Z.of_nat (length (rec_Replacements rec)) <=? misses then maskFreshResult payload opt
        else Ret (MkProcessResult restored None true misses)
    end.

(** The counts an idempotent retry reports. *)
Definition fill_found (rec : Record_) (res : ProcessResult) : ProcessResult :=
  if negb (p_Unmasked res) && bool_decide (p_Found res = None) && bool_decide (p_Result res = rec_MaskedText rec)
  then MkProcessResult (p_Result res) (Some (countsFromRec rec)) (p_Unmasked res) (p_Misses res)
  else res.

Definition Process (id payload : bytes) (opt : Options) : prog (outcome engine_error ProcessResult) :=
  ask (CLoad id) (λ r : option Record_,
    match r with
    | Some rec =>
        if negb (ownsRecord rec opt) then Done (maskFreshResult payload opt)
        else Done (res ← processExisting rec payload opt; Ret (fill_found rec res))
    | None =>
        match resolveStrategy e (opt_Strategy opt) with
        | None => fail Err_no_strategy
        | Some strategy =>
            guard (runMask payload opt strategy (Some NewDocState)) (λ '(masked, reps, found, _),
              Now (λ now,
                let newRec := MkRecord reps (s_Name strategy) now masked (hashText payload) (SystemID opt) in
                let own := MkProcessResult masked (Some found) false 0 in
                ask (CSaveNew id newRec (TTL opt)) (λ created : bool,
                  if created then ret own
                  else
                    ask (CLoad id) (λ r2 : option Record_,
                      match r2 with
                      | None => ask (CSave id newRec (TTL opt)) (λ _, ret own)
                      | Some rec2 =>
                          if negb (ownsRecord rec2 opt) then Done (maskFreshResult payload opt)
                          else Done (processExisting rec2 payload opt)
                      end))))
        end
    end).
End Ops.

Arguments ask : simpl never.

(** ** Counters *)

Lemma foldl_map_incr {A : Type} (f : A → Category) m l :
  foldl (λ out x, incr out (f x)) m l = foldl incr m (map f l).
Proof. revert m. induction l as [|x l IH]; intros m; simpl; [done|by rewrite IH]. Qed.

Lemma counts_alt spans : counts spans = count_categories (map sp_Category spans).
Proof. apply foldl_map_incr. Qed.

Lemma countsFromRec_alt rec : countsFromRec rec = count_categories (map rp_Category (rec_Replacements rec)).
Proof. apply foldl_map_incr. Qed.

Lemma add_counts_empty m : add_counts m ∅ = m.
Proof. unfold add_counts. apply (right_id_L ∅ _). Qed.

Lemma add_counts_incr m f c : add_counts m (incr f c) = incr (add_counts m f) c.
Proof.
  apply map_eq. intros d. unfold add_counts, incr. rewrite lookup_union_with.
  destruct (decide (d = c)) as [->|Hne].
  - rewrite !lookup_insert_eq, lookup_union_with. by destruct (m !! c), (f !! c); simpl; f_equal; lia.
  - by rewrite !lookup_insert_ne, lookup_union_with by done.
Qed.

Lemma count_categories_app a b :
  count_categories (a ++ b) = add_counts (count_categories a) (count_categories b).
Proof.
  unfold count_categories. rewrite foldl_app. set (m := foldl incr ∅ a). clearbody m.
  induction b as [|c b IH] using rev_ind; [simpl; by rewrite add_counts_empty|].
  by rewrite !foldl_app; simpl; rewrite add_counts_incr, IH.
Qed.

(** ** What an operation stores *)

(** Positions count from the start of the joined text. *)
Lemma shift_segment_reps o off segs :
  map (shift_rep o) (segment_reps off segs) = segment_reps (off + o) segs.
Proof.
  revert off. induction segs as [|g segs IH]; intros off; simpl; [done|].
  unfold shift_rep at 1. simpl. rewrite IH. f_equal; [f_equal|f_equal]; lia.
Qed.

Lemma segment_reps_cat off segs : map rp_Category (segment_reps off segs) = map sg_cat segs.
Proof. revert off. induction segs as [|g segs IH]; intros off; simpl; [done|by rewrite IH]. Qed.

Lemma masked_text_tail segs t x : masked_text segs t ++ x = masked_text segs (t ++ x).
Proof. unfold masked_text. by rewrite app_assoc. Qed.

Lemma orig_text_tail segs t x : orig_text segs t ++ x = orig_text segs (t ++ x).
Proof. unfold orig_text. by rewrite app_assoc. Qed.

(** Two segmented texts in a row are a segmented text. *)
Lemma glue_segments segs t segs' t' :
  Forall segment_ok segs → Forall segment_ok segs' →
  ∃ gs u, masked_text segs t ++ masked_text segs' t' = masked_text gs u ∧
    orig_text segs t ++ orig_text segs' t' = orig_text gs u ∧
    segment_reps 0 segs ++ map (shift_rep (len (masked_text segs t))) (segment_reps 0 segs') =
      segment_reps 0 gs ∧
    Forall segment_ok gs.
Proof.
  intros Hs Hs'. destruct segs' as [|g segs'].
  { exists segs, (t ++ t'). simpl. by rewrite app_nil_r, <- masked_text_tail, <- orig_text_tail. }
  exists (segs ++ MkSegment (t ++ sg_gap g) (sg_orig g) (sg_mask g) (sg_cat g) :: segs'), t'. split_and!.
  - rewrite masked_text_app. unfold masked_text. simpl. by rewrite app_nil_r, <- !app_assoc.
  - rewrite orig_text_app. unfold orig_text. simpl. by rewrite app_nil_r, <- !app_assoc.
  - rewrite segment_reps_app. f_equal. rewrite shift_segment_reps. simpl.
    assert (len (masked_text segs t) = len (masked_text segs []) + len t) as E.
    { rewrite <- len_app, masked_text_tail. done. }
    rewrite !len_app. f_equal; [f_equal|f_equal]; lia.
  - apply Forall_app. split; [done|]. apply Forall_cons_1 in Hs' as [Hg Hs'].
    constructor; [|done]. exact Hg.
Qed.

(** A record made from [orig]: replacements by position in a segmentation of it. *)
Record made_from `{Sha256} (orig : bytes) (rec : Record_) : Prop := {
  mf_hash : rec_Hash rec = hashText orig;
  mf_segments : ∃ segs tail, orig = orig_text segs tail ∧ rec_MaskedText rec = masked_text segs tail ∧
    rec_Replacements rec = segment_reps 0 segs ∧ Forall segment_ok segs
}.

Lemma made_from_restores `{SliceSort} `{Sha256} orig rec :
  made_from orig rec → Restore (rec_MaskedText rec) (rec_Replacements rec) = Some (orig, 0).
Proof. intros [_ (segs & tail & -> & -> & -> & Hok)]. by apply restore_segments. Qed.

Lemma segment_reps_orig off segs r :
  r ∈ segment_reps off segs → ∃ g, g ∈ segs ∧ rp_Original r = sg_orig g ∧ rp_Masked r = sg_mask g.
Proof.
  revert off. induction segs as [|g segs IH]; intros off; simpl; [by intros ?%elem_of_nil|].
  intros [->|Hr]%elem_of_cons.
  - exists g. split; [left|done].
  - destruct (IH _ Hr) as (g' & ? & ?). exists g'. split; [by right|done].
Qed.

(** The originals of a record are pieces of the text it was made from. *)
Lemma made_from_original `{Sha256} orig rec r :
  made_from orig rec → r ∈ rec_Replacements rec →
  rp_Masked r ≠ [] ∧ ∃ a b, orig = a ++ rp_Original r ++ b.
Proof.
  intros [_ (segs & tail & -> & _ & -> & Hok)] Hr.
  destruct (segment_reps_orig _ _ _ Hr) as (g & Hg & -> & ->). split.
  { rewrite Forall_forall in Hok. by destruct (Hok g Hg). }
  apply list_elem_of_split in Hg as (l1 & l2 & ->).
  exists (orig_text l1 [] ++ sg_gap g), (orig_text l2 tail).
  rewrite orig_text_app. unfold orig_text at 2. simpl. unfold orig_text. by rewrite <- !app_assoc.
Qed.

(** ** The masking core *)

Section Core.
Context `{Unicode} `{SliceSort} `{Sha256} `{MapRange} (e : Engine).

(** On [texts] the detectors stay in bounds, and no strategy masks a value with nothing. *)
Definition engine_ok (texts : list bytes) : Prop :=
  (∀ text, text ∈ texts → pipeline_ok (pipeline e) text) ∧
  ∀ k s, strategies e !! k = Some s → NonEmptyStrategy s.

Lemma engine_ok_sub texts texts' : engine_ok texts → texts' ⊆ texts → engine_ok texts'.
Proof. intros [Hp Hs] Hsub. split; [auto|done]. Qed.

Lemma engine_ok_in texts text : engine_ok texts → text ∈ texts → engine_ok [text].
Proof. intros He Hin. eapply engine_ok_sub; [exact He|]. by intros ? ->%list_elem_of_singleton. Qed.

Lemma resolveStrategy_in name s : resolveStrategy e name = Some s → ∃ k, strategies e !! k = Some s.
Proof.
  unfold resolveStrategy. case_match; [intros [= ->]; by eexists|].
  case_match; [intros [= ->]; by eexists|]. apply range_first_Some.
Qed.

(** The named strategy, else [partial], else any; nothing only when there is none. *)
Lemma resolveStrategy_None name : resolveStrategy e name = None → strategies e = ∅.
Proof.
  unfold resolveStrategy. case_match; [done|]. case_match; [done|]. apply range_first_None.
Qed.

Lemma span_in_fits text sp : span_in text sp → span_fits text sp.
Proof. unfold span_in, span_fits, span_wf. lia. Qed.

Lemma segment_of_cats text segs used :
  Forall2 (segment_of text) segs used → map sg_cat segs = map sp_Category used.
Proof.
  induction 1 as [|g sp segs used Hg _ IH]; simpl; [done|]. rewrite IH. f_equal. apply Hg.
Qed.

Lemma runMask_spec text opt s doc :
  pipeline_ok (pipeline e) text → NonEmptyStrategy s →
  ∃ segs tail doc',
    runMask e text opt s doc =
      Some (masked_text segs tail, segment_reps 0 segs, count_categories (map sg_cat segs), doc') ∧
    text = orig_text segs tail ∧ Forall segment_ok segs.
Proof.
  intros Hp Hs.
  assert (∀ spans, spans_ok text spans → ∃ segs tail doc',
    ('(masked, reps, doc) ← Apply text (filterSpans spans (Categories opt) (ComboRules opt)) s doc;
     Some (masked, reps, counts (filterSpans spans (Categories opt) (ComboRules opt)), doc)) =
      Some (masked_text segs tail, segment_reps 0 segs, count_categories (map sg_cat segs), doc') ∧
    text = orig_text segs tail ∧ Forall segment_ok segs) as Hmask.
  { intros spans [Hb Hin]%(filterSpans_ok text spans (Categories opt) (ComboRules opt)).
    destruct (apply_spec text s (filterSpans spans (Categories opt) (ComboRules opt)) doc)
      as (segs & tail & used & doc' & -> & Ht & Hok & Hof & Hused).
    rewrite Hused in Hof by (done || by eapply Forall_impl; [exact Hin|apply span_in_fits]).
    exists segs, tail, doc'. cbn [mbind option_bind].
    by rewrite counts_alt, (segment_of_cats _ _ _ Hof). }
  unfold runMask, maskChunked. case_match.
  - destruct (detectWindowed_ok (pipeline e) text Hp) as (spans & -> & Hsp). by apply Hmask.
  - destruct (Run_ok (pipeline e) text (pipeline_ok_self _ _ Hp)) as (r & -> & Hsp). by apply Hmask.
Qed.

(** The state of the batch loop after the texts of [ts]. *)
Record batch_inv (ts : list bytes) (st : batch_state) : Prop := {
  bi_length : length (bt_masked st) = length ts;
  bi_offset : bt_offset st = len (joinMasked (bt_masked st));
  bi_segments : ∃ segs tail, joinTexts ts = orig_text segs tail ∧
    joinMasked (bt_masked st) = masked_text segs tail ∧ bt_reps st = segment_reps 0 segs ∧
    bt_found st = count_categories (map sg_cat segs) ∧ Forall segment_ok segs
}.

Lemma joinTexts_snoc ts t : joinTexts (ts ++ [t]) = joinTexts ts ++ t ++ [newline].
Proof. unfold joinTexts. rewrite map_app, concat_app. simpl. by rewrite app_nil_r. Qed.

Lemma joinMasked_snoc ts t : joinMasked (ts ++ [t]) = joinMasked ts ++ t ++ [newline].
Proof. apply joinTexts_snoc. Qed.

Lemma batch_step_inv opt s ts st t :
  pipeline_ok (pipeline e) t → NonEmptyStrategy s → batch_inv ts st →
  ∃ st', batch_step e opt s st t = Some st' ∧ batch_inv (ts ++ [t]) st'.
Proof.
  intros He Hs [Hlen Hoff (segs & tail & Ho & Hm & Hr & Hf & Hok)]. unfold batch_step.
  destruct (runMask_spec t opt s (bt_doc st) He Hs) as (gs & u & doc' & -> & Ht & Hgs).
  cbn [mbind option_bind]. eexists. split; [reflexivity|].
  destruct (glue_segments segs tail gs (u ++ [newline]) Hok Hgs) as (segs' & tail' & Gm & Go & Gr & Gok).
  split; cbn [bt_masked bt_reps bt_found bt_offset].
  - rewrite !length_app, Hlen. done.
  - rewrite joinMasked_snoc, !len_app, <- Hoff. done.
  - exists segs', tail'. split_and!.
    + by rewrite joinTexts_snoc, Ho, <- Go, <- orig_text_tail, <- Ht.
    + by rewrite joinMasked_snoc, Hm, <- Gm, <- masked_text_tail.
    + by rewrite Hr, Hoff, Hm, <- Gr.
    + rewrite Hf, <- count_categories_app. f_equal.
      rewrite <- (segment_reps_cat 0 segs'), <- Gr, map_app, shift_segment_reps.
      by rewrite !segment_reps_cat.
    + done.
Qed.

Lemma batch_spec opt s texts :
  Forall (pipeline_ok (pipeline e)) texts → NonEmptyStrategy s →
  ∃ st, fold_opt (batch_step e opt s) (MkBatch [] [] ∅ 0 (Some NewDocState)) texts = Some st ∧
    batch_inv texts st.
Proof.
  intros He Hs.
  assert (∀ ts st, batch_inv ts st → ∃ st', fold_opt (batch_step e opt s) st texts = Some st' ∧
    batch_inv (ts ++ texts) st') as Hfold.
  { induction He as [|t texts Ht _ IH]; intros ts st Hst; simpl.
    { exists st. by rewrite app_nil_r. }
    destruct (batch_step_inv opt s ts st t Ht Hs Hst) as (st1 & -> & Hst1). simpl.
    destruct (IH _ _ Hst1) as (st2 & -> & Hst2). exists st2. by rewrite <- app_assoc in Hst2. }
  apply (Hfold []). split; [done|done|]. by exists [], [].
Qed.
End Core.
