(* ===== verification/Main.v ===== *)
(** * The engine that [cmd/pdn-shield/main.go] builds

    [Default] of [internal/pii/detectors/default.go] and the engine of [main]: what the
    theorems about the engine assume of its detectors and strategies holds for the
    ones the program runs, on the texts that [plain] describes; and what happens on
    another text. *)

From S2P Require Import Prelude GoText Float64 Pii Mask Strategies Pipeline Validators Synth Dict Synthetic.
From S2P Require Import Chunk Engine Rules RulesSound RulesYaml DateWord Cardholder Citizenship Issuer.
From S2P Require Import Tokens NameDict NamesLatin Names NamesSound Birthplace Address AddressSound.

Section Main.
Context `{Unicode} `{SliceSort} `{Rng} `{CountryOrder}.

(** [None]: the embedded rules do not load, which panics. *)
Definition Default : option (list Detector) :=
  rules ← LoadRules rules_yaml;
  Some [NewRegexDetector rules; NewDateWordsDetector; NewNamesDetector; NewCardholderDetector;
        NewAddressDetector; NewBirthplaceDetector; NewCitizenshipDetector; NewIssuerDetector].

Definition main_strategies : gmap bytes Strategy :=
  {[ go_bytes "partial" := NewPartial partial_yaml; go_bytes "full" := NewFull;
     go_bytes "token" := NewToken; go_bytes "synthetic" := NewSynthetic dict_files ]}.

Definition main_engine : option Engine :=
  ds ← Default; Some (MkEngine (NewPipeline ds) main_strategies).

(** ** The detectors *)

Lemma regex_detects text rules : Forall rule_ok rules → detects_in text (NewRegexDetector rules).
Proof.
  intros Hr. unfold detects_in, run_detector. cbn [NewRegexDetector d_DetectLower].
  destruct (regex_DetectLower_spec rules (text_of text) Hr) as (l & -> & Hl).
  eapply Forall_impl; [exact Hl|]. intros s (r & _ & Hs). apply (ac_in _ _ _ Hs).
Qed.

Lemma dateword_detects text : detects_in text NewDateWordsDetector.
Proof.
  unfold detects_in, run_detector. cbn [NewDateWordsDetector d_DetectLower].
  destruct (dateword_spec (text_of text)) as (l & -> & Hl).
  eapply Forall_impl; [exact Hl|]. by intros s [? _].
Qed.

Lemma cardholder_detects text : detects_in text NewCardholderDetector.
Proof.
  unfold detects_in, run_detector. cbn [NewCardholderDetector d_DetectLower].
  destruct (cardholder_spec (text_of text)) as (l & -> & [_ Hl _]).
  eapply Forall_impl; [exact Hl|]. by intros s [? _].
Qed.

Lemma citizenship_detects text : LowerOK (text_of text) = true → detects_in text NewCitizenshipDetector.
Proof.
  intros Hok. unfold detects_in, run_detector. cbn [NewCitizenshipDetector d_DetectLower].
  destruct (citizenship_spec (text_of text) Hok) as (l & -> & Hl).
  eapply Forall_impl; [exact Hl|]. by intros s [? _].
Qed.

Lemma names_detects text : detects_in text NewNamesDetector.
Proof.
  unfold detects_in, run_detector. cbn [NewNamesDetector d_DetectLower].
  destruct (names_spec names_dict (text_of text)) as (l & -> & Hl).
  eapply Forall_impl; [exact Hl|]. intros s Hs. cbn [text_of t_Raw] in Hs.
  by apply (name_in_text (text_of text) _ (words_of_text text)).
Qed.

Lemma issuer_detects text : detects_in text NewIssuerDetector.
Proof.
  unfold detects_in, run_detector. cbn [NewIssuerDetector d_DetectLower].
  destruct (issuer_spec (text_of text)) as (l & -> & Hl).
  eapply Forall_impl; [exact Hl|]. by intros s [? _].
Qed.

Lemma address_detects text :
  LowerOK (text_of text) = true → unbroken text = true → detects_in text NewAddressDetector.
Proof.
  intros Hok Hu. unfold detects_in, run_detector. cbn [NewAddressDetector d_DetectLower].
  destruct (address_spec (text_of text)) as (l & -> & Hl & _); [by left|].
  eapply Forall_impl; [exact Hl|]. intros s (? & ? & ? & _ & Hs). specialize (Hs Hu). by split_and!.
Qed.

Lemma birthplace_detects text :
  LowerOK (text_of text) = true → str_contains (lower_string text) "посёлке " = false →
  detects_in text NewBirthplaceDetector.
Proof.
  intros Hok Hno. unfold detects_in, run_detector. cbn [NewBirthplaceDetector d_DetectLower].
  destruct (birthplace_spec (text_of text)) as (l & -> & Hl). rewrite Hok in Hl.
  eapply Forall_impl; [exact Hl|]. intros s (? & ? & ? & _ & Hs). specialize (Hs Hno). by split_and!.
Qed.

Lemma strategies_nonempty k s : main_strategies !! k = Some s → NonEmptyStrategy s.
Proof.
  unfold main_strategies. rewrite !lookup_insert_Some, lookup_singleton_Some.
  intros [[_ <-]|[_ [[_ <-]|[_ [[_ <-]|[_ [_ <-]]]]]]]; apply _.
Qed.
End Main.

(** ** Texts whose letters keep their width in lower case *)

Section Stable.
Context `{Unicode}.

Definition same_width (r : Z) : Prop := length (encode_rune (to_lower r)) = length (encode_rune r).

Definition stable (text : bytes) : Prop := utf8_valid text ∧ Forall same_width (runes text).

#[export] Instance stable_dec text : Decision (stable text).
Proof. unfold stable, utf8_valid, chunk_valid, same_width. apply _. Defined.

Lemma stable_LowerOK text : stable text → LowerOK (text_of text) = true.
Proof.
  intros [Hv Hw]. unfold LowerOK, text_of. cbn [t_Lower t_Raw]. apply Z.eqb_eq.
  rewrite <- (utf8_valid_encode text Hv) at 2. unfold lower_string, map_runes, len. f_equal.
  unfold encode_runes. induction Hw as [|r rs Hr _ IH]; cbn [map concat]; [done|]. by rewrite !length_app, Hr, IH.
Qed.

(** A window of such a text, and what is around it. *)
Lemma valid_window text a b :
  utf8_valid text → a <= b → cut_ok text a → cut_ok text b →
  ∃ u w, text = u ++ slice text a b ++ w ∧ utf8_valid u ∧ utf8_valid (slice text a b).
Proof.
  intros Hv Hab Ha%cut_ok_boundary Hb%cut_ok_boundary; [|done..].
  assert (utf8_valid (slice text a b)) as Hp by by apply utf8_slice.
  pose proof (proj1 Ha). pose proof (proj1 Hb).
  exists (take (Z.to_nat a) text), (drop (Z.to_nat b) text). split; [|split; [by apply utf8_cut|done]].
  rewrite <- (slice_full text) at 1. rewrite (slice_split text 0 a (len text)), (slice_split text a b (len text)) by lia.
  unfold slice at 1 3. rewrite Z.sub_0_r, drop_0. do 2 f_equal. apply take_ge. rewrite length_drop. unfold len. lia.
Qed.

Lemma runes_window u v w : utf8_valid u → utf8_valid v → runes (u ++ v ++ w) = runes u ++ runes v ++ runes w.
Proof. intros Hu Hv. unfold runes. by rewrite !chunks_app_valid, !map_app by done. Qed.

Lemma lower_window u v w : utf8_valid u → utf8_valid v →
  lower_string (u ++ v ++ w) = lower_string u ++ lower_string v ++ lower_string w.
Proof.
  intros Hu Hv. unfold lower_string, map_runes, encode_runes. by rewrite runes_window, !map_app, !concat_app by done.
Qed.

Lemma str_contains_mid u v w p : str_contains (u ++ v ++ w) p = false → str_contains v p = false.
Proof.
  intros Hno. destruct (str_contains v p) eqn:E; [|done]. rewrite <- Hno. symmetry.
  apply str_contains_spec in E as [i [Hi Hp]]. apply str_contains_spec. pose proof (len_nonneg u).
  exists (len u + i). split; [rewrite !len_app; pose proof (len_nonneg w); lia|].
  apply has_prefix_spec in Hp as [t Ht]. apply has_prefix_spec. exists (t ++ w).
  replace (Z.to_nat (len u + i)) with (length u + Z.to_nat i)%nat by (unfold len; lia).
  rewrite <- drop_drop, drop_app_exact, drop_app_le by (done || unfold len in *; lia). by rewrite Ht, <- app_assoc.
Qed.

(** The texts that the detectors have no trouble with: no white space but a blank where a street
    marker would be trimmed back over it, and not the prefix of a birth place that one
    of its tables spells differently. *)
Definition plain (text : bytes) : Prop :=
  stable text ∧ unbroken text = true ∧ str_contains (lower_string text) "посёлке " = false.

#[export] Instance plain_dec text : Decision (plain text).
Proof. unfold plain. apply _. Defined.

Lemma plain_piece text a b :
  plain text → a <= b → cut_ok text a → cut_ok text b → plain (slice text a b).
Proof.
  intros ([Hv Hw] & Hu & Hp) Hab Ha Hb. destruct (valid_window text a b Hv Hab Ha Hb) as (u & w & Ht & Hvu & Hvp).
  set (p := slice text a b) in *. clearbody p. subst text. split_and!.
  - split; [done|]. rewrite runes_window in Hw by done. apply Forall_app in Hw as [_ [? _]%Forall_app]. done.
  - unfold unbroken in *. rewrite runes_window in Hu by done. destruct (broken (runes p)) eqn:E; [|done].
    by rewrite broken_infix in Hu.
  - rewrite lower_window in Hp by done. by apply str_contains_mid in Hp.
Qed.
End Stable.

Lemma main_engine_builds `{Unicode} `{SliceSort} `{Rng} `{CountryOrder} : ∃ e, main_engine = Some e.
Proof.
  destruct default_rules_load as (rules & Hl & _). unfold main_engine, Default. rewrite Hl. by eexists.
Qed.

Lemma main_engine_default `{Unicode} `{SliceSort} `{Rng} `{CountryOrder} e :
  main_engine = Some (default e main_engine).
Proof. destruct main_engine_builds as [e' ->]. reflexivity. Qed.

Lemma main_engine_plain `{Unicode} `{SliceSort} `{Rng} `{CountryOrder} e texts :
  main_engine = Some e → Forall plain texts → engine_ok e texts.
Proof.
  intros He Hst. destruct default_rules_load as (rules & Hl & Hr).
  unfold main_engine, Default in He. rewrite Hl in He. cbn [mbind option_bind] in He. injection He as <-.
  split; [|intros k s; apply strategies_nonempty]. intros text Hin a b Hab Ha Hb.
  rewrite Forall_forall in Hst. pose proof (plain_piece text a b (Hst text Hin) Hab Ha Hb) as (Hp & Hu & Hno).
  pose proof (stable_LowerOK _ Hp) as Hlow. cbn [pipeline NewPipeline pl_detectors].
  constructor; [exact (regex_detects _ rules Hr)|]. constructor; [exact (dateword_detects _)|].
  constructor; [exact (names_detects _)|]. constructor; [exact (cardholder_detects _)|].
  constructor; [exact (address_detects _ Hlow Hu)|]. constructor; [exact (birthplace_detects _ Hlow Hno)|].
  constructor; [exact (citizenship_detects _ Hlow)|]. constructor; [exact (issuer_detects _)|constructor].
Qed.

(** C3: on plain texts - valid UTF-8 whose letters keep their width in lower case,
    without the two traps that [plain] names - [main] builds an engine, and it meets
    what every theorem about the engine assumes: its pipeline returns spans inside every
    window of the texts, and its strategies never replace a value by the empty string. *)
Theorem main_engine_ok `{Unicode} `{SliceSort} `{Rng} `{CountryOrder} texts :
  Forall plain texts → ∃ e, main_engine = Some e ∧ engine_ok e texts.
Proof.
  intros Hst. destruct main_engine_builds as [e He]. exists e. split; [exact He|]. by apply main_engine_plain.
Qed.

Lemma main_engine_ok_witness :
  ∃ e, main_engine = Some e ∧ engine_ok e [go_bytes "Гражданство: Ёмен, Zürich, ул. Мира"].
Proof.
  apply main_engine_ok. apply (bool_decide_unpack _). vm_compute. exact I.
Defined.

Lemma mapM_panics {A B : Type} (f : A → option B) (d : A) l : f d = None → d ∈ l → mapM f l = None.
Proof.
  intros Hd. induction l as [|x l IH]; [by intros []%elem_of_nil|]. cbn [mapM].
  intros [->|Hin]%elem_of_cons; [by rewrite Hd|].
  destruct (f x); [|reflexivity]. cbn [mbind option_bind]. rewrite (IH Hin). reflexivity.
Qed.

(** C37: the engine of [main] panics on a text of 68 bytes: the citizenship detector
    indexes the text with offsets of the longer lowercased text. The program has no
    [recover]: the request is cut off; with more than 64 KiB of text the detection runs
    in goroutines of its own, and the process ends. *)
Theorem main_engine_panics `{Unicode} `{SliceSort} `{Rng} `{CountryOrder} e opt s doc :
  to_lower 0x23A = 0x2C65 → main_engine = Some e → runMask e crash_text opt s doc = None.
Proof.
  intros Ha. unfold main_engine, Default. destruct (LoadRules rules_yaml) as [rules|]; [|done].
  cbn [mbind option_bind]. intros [= <-]. unfold runMask.
  replace (chunkThreshold <? len crash_text) with false by (vm_compute; reflexivity).
  unfold Run. cbn [pipeline NewPipeline pl_detectors]. rewrite mapM_panics with (d := NewCitizenshipDetector).
  - reflexivity.
  - unfold run_detector. cbn [NewCitizenshipDetector d_DetectLower]. apply (citizenship_panic_spec Ha).
  - do 6 right. left.
Qed.

(** The engine with the two letters of [shifting_unicode]. *)
Definition crash_engine : Engine :=
  default (MkEngine (NewPipeline []) ∅) (@main_engine shifting_unicode _ _ _).

Lemma main_engine_panics_witness : @runMask shifting_unicode _ crash_engine crash_text (MkOptions [] [] 0 [] false [] []) NewFull None = None.
Proof.
  apply (@main_engine_panics shifting_unicode _ _ _); [reflexivity|].
  unfold crash_engine, main_engine, Default.
  destruct (LoadRules rules_yaml) as [rules|] eqn:E; [reflexivity|]. exfalso. vm_compute in E. discriminate E.
Defined.

(** ** An address that is not masked *)

(** What [main] makes of a text with the token strategy. *)
Definition masked_by_main `{Unicode} `{SliceSort} `{Rng} `{CountryOrder} (text : bytes) : option bytes :=
  e ← main_engine;
  '(masked, _, _, _) ← runMask e text (MkOptions [] [] 0 [] false [] []) NewToken None;
  Some masked.

(** The birth place detector hides an address from masking. In the first text the
    address detector finds the whole address; but the birth place is left empty when its
    prefix is cut off, which the table of prefixes spells wrong; the empty span lies
    inside the address and has the higher confidence, so the resolution drops the
    address, and the text goes out as it came. The same text with
    another letter in the prefix is masked. *)
Example birthplace_hides_address :
  addresses "Родился в Посёлке Гражданская улица дом 5" = Some [go_bytes "Посёлке Гражданская улица дом 5"] ∧
  born_in "Родился в Посёлке Гражданская улица дом 5" = Some [[]] ∧
  masked_by_main "Родился в Посёлке Гражданская улица дом 5" = Some (go_bytes "Родился в Посёлке Гражданская улица дом 5") ∧
  masked_by_main "Родился в Поселке Гражданская улица дом 5" = Some (go_bytes "Родился в [ADDRESS_1]").
Proof. vm_compute. split_and!; reflexivity. Qed.
