(* ===== verification/System.v ===== *)
(** * The engine as a system of concurrent requests

    The requests of [internal/engine/engine.go] run concurrently and meet in the
    store. A schedule says whose turn it is at each store call or reading of the
    clock; [run_schedule] runs requests over any implementation of the store contract
    ([StoreImpl]), and every such run is a run over the contract itself
    ([run_refines]). What holds of all runs is proved once, for the contract. *)

From S2P Require Import Prelude GoText Float64 Pii Mask Pipeline Crypto Store Chunk Engine.

(** ** Requests *)

Inductive request :=
| RProcess (id payload : bytes) (opt : Options)
| RMask (id text : bytes) (opt : Options)
| RBatch (id : bytes) (texts : list bytes) (opt : Options)
| RUnmask (id masked : bytes) (opt : Options).

Inductive answer :=
| AProcess (r : ProcessResult)
| AMask (r : MaskResult)
| ABatch (r : MaskBatchResult)
| AUnmask (r : UnmaskResult).

Definition rq_opt (rq : request) : Options :=
  match rq with RProcess _ _ o | RMask _ _ o | RBatch _ _ o | RUnmask _ _ o => o end.

(** The text a request may store under its id. *)
Definition rq_text (rq : request) : option bytes :=
  match rq with
  | RProcess _ p _ => Some p
  | RMask _ t _ => Some t
  | RBatch _ ts _ => Some (joinTexts ts)
  | RUnmask _ _ _ => None
  end.

(** The texts a request may mask. *)
Definition rq_masks (rq : request) : list bytes :=
  match rq with
  | RProcess _ p _ => [p]
  | RMask _ t _ => [t]
  | RBatch _ ts _ => ts
  | RUnmask _ _ _ => []
  end.

Definition out_map {E A B : Type} (f : A → B) (o : outcome E A) : outcome E B :=
  match o with Ret a => Ret (f a) | Err er => Err er | Panic => Panic end.

Abbreviation thread := (prog (outcome engine_error answer)).

Definition serve `{Unicode} `{SliceSort} `{Sha256} `{MapRange} (e : Engine) (rq : request) : thread :=
  match rq with
  | RProcess id p o => out_map AProcess <$> Process e id p o
  | RMask id t o => out_map AMask <$> MaskEx e id t o
  | RBatch id ts o => out_map ABatch <$> MaskBatchEx e id ts o
  | RUnmask id m o => out_map AUnmask <$> UnmaskEx id m o
  end.

(** ** Runs over an implementation of the store *)

Section Run.
Context `{StoreImpl} {A : Type}.

(** One turn of thread [i] in the environment [e]. *)
Definition turn (i : nat) (e : Env) (s : impl_state) (ps : list (prog A)) : impl_state * list (prog A) :=
  match ps !! i with
  | Some (Now k) => (s, <[i := k (env_now e)]> ps)
  | Some (Ask c k) => let '(r, s') := impl_call e c s in (s', <[i := k r]> ps)
  | _ => (s, ps)
  end.

Fixpoint run_schedule (sched : list (nat * Env)) (s : impl_state) (ps : list (prog A))
    : impl_state * list (prog A) :=
  match sched with
  | [] => (s, ps)
  | (i, e) :: sched => let '(s, ps) := turn i e s ps in run_schedule sched s ps
  end.

(** The clock does not go back, nonces have their size, and what is saved is valid
    UTF-8. *)
Fixpoint schedule_ok (t : Z) (sched : list (nat * Env)) (s : impl_state) (ps : list (prog A)) : Prop :=
  match sched with
  | [] => True
  | (i, e) :: sched =>
      t <= env_now e ∧ env_ok e ∧
      match ps !! i with Some (Ask c _) => call_utf8 c | _ => True end ∧
      let '(s, ps) := turn i e s ps in schedule_ok (env_now e) sched s ps
  end.

#[export] Instance schedule_ok_dec t sched s ps : Decision (schedule_ok t sched s ps).
Proof.
  revert t s ps. induction sched as [|[i e] sched IH]; intros t s ps; simpl; [apply _|].
  destruct (turn i e s ps) as [s1 ps1]. destruct (ps !! i) as [[| |]|]; apply _.
Defined.

Definition end_time (t : Z) (sched : list (nat * Env)) : Z := foldl (λ _ p, env_now p.2) t sched.

(** One operation alone. *)
Definition run_alone (envs : list Env) (p : prog A) (s : impl_state) : option (A * impl_state) :=
  match run_schedule (map (pair O) envs) s [p] with
  | (s', [Done a]) => Some (a, s')
  | _ => None
  end.

(** When it ends. *)
Definition alone_end (t : Z) (envs : list Env) : Z := end_time t (map (pair O) envs).

Definition alone_ok (t : Z) (envs : list Env) (p : prog A) (s : impl_state) : Prop :=
  schedule_ok t (map (pair O) envs) s [p].
End Run.

(** ** Runs over the contract *)

Section Spec.
Context (h : bytes → bytes) {A : Type}.

Record config := MkConfig { cf_time : Z; cf_store : spec_state; cf_threads : list (prog A) }.

Inductive sys_step : config → config → Prop :=
| step_now t t' σ ps i k :
    t <= t' → ps !! i = Some (Now k) →
    sys_step (MkConfig t σ ps) (MkConfig t' σ (<[i := k t']> ps))
| step_ask t t' σ ps i c k r σ' :
    t <= t' → ps !! i = Some (Ask c k) → spec_call h t' σ c r σ' →
    sys_step (MkConfig t σ ps) (MkConfig t' σ' (<[i := k r]> ps))
| step_wait t t' σ ps : t <= t' → sys_step (MkConfig t σ ps) (MkConfig t' σ ps).

(** One operation from start to end, nobody else at work. *)
Inductive exec : Z → spec_state → prog A → Z → spec_state → A → Prop :=
| exec_done t t' σ a : t <= t' → exec t σ (Done a) t' σ a
| exec_now t t' σ k t'' σ'' a :
    t <= t' → exec t' σ (k t') t'' σ'' a → exec t σ (Now k) t'' σ'' a
| exec_ask t t' σ c k r σ' t'' σ'' a :
    t <= t' → spec_call h t' σ c r σ' → exec t' σ' (k r) t'' σ'' a → exec t σ (Ask c k) t'' σ'' a.

Lemma exec_wait t t' σ p t'' σ'' a : t <= t' → exec t' σ p t'' σ'' a → exec t σ p t'' σ'' a.
Proof.
  intros Ht Hx. destruct Hx.
  - constructor. lia.
  - econstructor; [|done]. lia.
  - eapply exec_ask; [|done|done]. lia.
Qed.

Lemma exec_done_inv t σ a t' σ' b : exec t σ (Done a) t' σ' b → t <= t' ∧ σ' = σ ∧ b = a.
Proof. inversion 1; subst. done. Qed.

Lemma exec_now_inv t σ k t'' σ'' a :
  exec t σ (Now k) t'' σ'' a → ∃ t', t <= t' ∧ exec t' σ (k t') t'' σ'' a.
Proof. inversion 1; subst. by eexists. Qed.

Lemma exec_ask_inv t σ c k t'' σ'' a :
  exec t σ (Ask c k) t'' σ'' a →
  ∃ t' r σ', t <= t' ∧ spec_call h t' σ c r σ' ∧ exec t' σ' (k r) t'' σ'' a.
Proof.
  intros Hx. change (match Ask c k return Prop with
    | Ask c k => ∃ t' r σ', t <= t' ∧ spec_call h t' σ c r σ' ∧ exec t' σ' (k r) t'' σ'' a
    | _ => True end). destruct Hx; [done|done|]. by eexists _, _, _.
Qed.

Lemma exec_time t σ p t' σ' a : exec t σ p t' σ' a → t <= t'.
Proof. induction 1; lia. Qed.
End Spec.

(** ** Refinement: a run over an implementation is a run over the contract *)

Section Refines.
Context `{StoreImpl} {A : Type}.

(** Related now or at an earlier time, no call having happened since. *)
Definition rel_since (t : Z) (σ : spec_state) (s : impl_state) : Prop :=
  ∃ t0, t0 <= t ∧ impl_rel t0 σ s.

Lemma turn_refines t σ s (ps : list (prog A)) i e s' ps' :
  rel_since t σ s → t <= env_now e → env_ok e →
  match ps !! i with Some (Ask c _) => call_utf8 c | _ => True end →
  turn i e s ps = (s', ps') →
  ∃ σ', sys_step impl_hash (MkConfig t σ ps) (MkConfig (env_now e) σ' ps') ∧ rel_since (env_now e) σ' s'.
Proof.
  intros (t0 & Ht0 & Hr) Hle He Hu. unfold turn. destruct (ps !! i) as [[a|k|c k]|] eqn:Hi.
  - intros [= <- <-]. exists σ. split; [by constructor|]. exists t0. split; [lia|done].
  - intros [= <- <-]. exists σ. split; [by eapply step_now|]. exists t0. split; [lia|done].
  - destruct (impl_refines t0 σ s e c) as (σ' & Hc & Hr'); [done|lia|done|done|].
    destruct (impl_call e c s) as [r s1]. intros [= <- <-]. exists σ'. split; [by eapply step_ask|].
    exists (env_now e). split; [lia|done].
  - intros [= <- <-]. exists σ. split; [by constructor|]. exists t0. split; [lia|done].
Qed.

Lemma schedule_ok_app sched sched' t s (ps : list (prog A)) s1 ps1 :
  run_schedule sched s ps = (s1, ps1) →
  schedule_ok t (sched ++ sched') s ps ↔ schedule_ok t sched s ps ∧ schedule_ok (end_time t sched) sched' s1 ps1.
Proof.
  revert t s ps. induction sched as [|[i e] sched IH]; intros t s ps; simpl.
  { intros [= -> ->]. tauto. }
  destruct (turn i e s ps) as [s' ps']. intros Hrun. rewrite (IH (env_now e) s' ps' Hrun). unfold end_time. tauto.
Qed.

Lemma run_refines sched t σ s (ps : list (prog A)) s' ps' :
  rel_since t σ s → schedule_ok t sched s ps → run_schedule sched s ps = (s', ps') →
  ∃ σ', rtc (sys_step impl_hash) (MkConfig t σ ps) (MkConfig (end_time t sched) σ' ps') ∧
    rel_since (end_time t sched) σ' s'.
Proof.
  revert t σ s ps. induction sched as [|[i e] sched IH]; intros t σ s ps Hr; simpl.
  { intros _ [= <- <-]. exists σ. split; [apply rtc_refl|done]. }
  intros (Hle & He & Hu & Hok). destruct (turn i e s ps) as [s1 ps1] eqn:Et. intros Hrun.
  destruct (turn_refines t σ s ps i e s1 ps1) as (σ1 & Hstep & Hr1); [done..|].
  destruct (IH (env_now e) σ1 s1 ps1 Hr1 Hok Hrun) as (σ' & Hsteps & Hr').
  exists σ'. split; [by eapply rtc_l|done].
Qed.

(** A run of one thread is an execution of its program. *)
Lemma steps_exec h cfg cfg' (p : prog A) a :
  rtc (sys_step h) cfg cfg' → cf_threads cfg = [p] → cf_threads cfg' = [Done a] →
  exec h (cf_time cfg) (cf_store cfg) p (cf_time cfg') (cf_store cfg') a.
Proof.
  intros Hsteps. revert p. induction Hsteps as [cfg|cfg1 cfg2 cfg3 Hstep _ IH]; intros p Hp Hd.
  { rewrite Hp in Hd. injection Hd as ->. constructor. lia. }
  destruct Hstep as [t t' σ ps i k Ht Hi|t t' σ ps i c k r σ' Ht Hi Hc|t t' σ ps Ht]; simpl in *; subst ps.
  - destruct i; [|done]. injection Hi as ->. econstructor; [exact Ht|]. by apply IH.
  - destruct i; [|done]. injection Hi as ->. eapply exec_ask; [exact Ht|exact Hc|]. by apply IH.
  - eapply exec_wait; [exact Ht|]. by apply IH.
Qed.

Lemma alone_exec t envs σ s (p : prog A) a s' :
  rel_since t σ s → alone_ok t envs p s → run_alone envs p s = Some (a, s') →
  ∃ σ', exec impl_hash t σ p (alone_end t envs) σ' a ∧ rel_since (alone_end t envs) σ' s'.
Proof.
  unfold run_alone, alone_ok. intros Hr Hok.
  destruct (run_schedule (map (pair O) envs) s [p]) as [s1 ps1] eqn:Erun.
  destruct ps1 as [|[b| |] [|]]; try done. intros [= <- <-].
  destruct (run_refines _ _ _ _ _ _ _ Hr Hok Erun) as (σ' & Hsteps & Hr').
  exists σ'. split; [|done]. exact (steps_exec _ _ _ _ _ Hsteps eq_refl eq_refl).
Qed.
End Refines.

(** ** A logic for programs that run among others

    [wp I p Q]: whatever happens to the store in between, if all records in it satisfy
    [I] then [p] saves only records that satisfy [I], and its result satisfies [Q]. *)

Definition call_inv (I : Record_ → Prop) (c : call) : Prop :=
  match c with
  | CSave _ rec _ | CSaveNew _ rec _ => I rec
  | CLoad _ | CDelete _ => True
  end.

Definition resp_inv (I : Record_ → Prop) (c : call) : outcome store_error (resp c) → Prop :=
  match c with
  | CLoad _ => λ r, r ≠ Panic ∧ ∀ rec, r = Ret (Some rec) → I rec
  | CSave _ _ _ => λ r, r ≠ Panic
  | CSaveNew _ _ _ => λ r, r ≠ Panic
  | CDelete _ => λ r, r ≠ Panic
  end.

Fixpoint wp (I : Record_ → Prop) {A : Type} (p : prog A) (Q : A → Prop) : Prop :=
  match p with
  | Done a => Q a
  | Now k => ∀ t, wp I (k t) Q
  | Ask c k => call_inv I c ∧ ∀ r, resp_inv I c r → wp I (k r) Q
  end.

Definition store_inv (I : Record_ → Prop) (σ : spec_state) : Prop := ∀ k r x, σ !! k = Some (r, x) → I r.

Section Logic.
Context (I : Record_ → Prop).

Lemma wp_fmap {A B : Type} (f : A → B) p (Q : B → Prop) : wp I p (λ a, Q (f a)) → wp I (f <$> p) Q.
Proof.
  unfold fmap, prog_fmap. induction p as [a|k IH|c k IH]; simpl; [done|auto|]. intros [Hc Hk]. auto.
Qed.

Lemma wp_mono {A : Type} (p : prog A) (Q R : A → Prop) : wp I p Q → (∀ a, Q a → R a) → wp I p R.
Proof.
  intros Hp HQ. induction p as [a|k IH|c k IH]; simpl in *; [auto|auto|]. destruct Hp. split; auto.
Qed.

Lemma wp_bind {A B : Type} (f : A → prog B) p Q : wp I p (λ a, wp I (f a) Q) → wp I (p ≫= f) Q.
Proof.
  unfold mbind, prog_mbind. induction p as [a|k IH|c k IH]; simpl; [done|auto|]. intros [Hc Hk]. auto.
Qed.

Lemma wp_ask {A : Type} c (k : resp c → prog (outcome engine_error A)) Q :
  call_inv I c → (∀ er, Q (Err (Err_store er))) → (∀ r, resp_inv I c (Ret r) → wp I (k r) Q) →
  wp I (ask c k) Q.
Proof.
  intros Hc He Hk. split; [done|]. intros [r|er|] Hr; [by apply Hk|apply He|].
  exfalso. by destruct c; simpl in Hr; destruct_and?.
Qed.

Lemma wp_now {A : Type} (k : Z → prog A) Q : (∀ t, wp I (k t) Q) → wp I (Now k) Q.
Proof. done. Qed.

Lemma live_lookup now σ k r : live now σ k = Some r → ∃ x, σ !! k = Some (r, x).
Proof.
  unfold live. destruct (σ !! k) as [[r' x]|]; [|done]. destruct (past x now); [done|].
  intros [= ->]. by exists x.
Qed.

Lemma store_inv_put h now id rec ttl σ : store_inv I σ → I rec → store_inv I (put h now id rec ttl σ).
Proof.
  intros Hs Hr k r x. unfold put. destruct (decide (k = h id)) as [->|Hne].
  - rewrite lookup_insert_eq. by intros [= <- _].
  - rewrite lookup_insert_ne by done. apply Hs.
Qed.

Lemma spec_call_inv h now σ c r σ' :
  spec_call h now σ c r σ' → store_inv I σ → call_inv I c → resp_inv I c r ∧ store_inv I σ'.
Proof.
  intros Hc Hs. induction Hc as [id|id rec ttl|id rec ttl r' Hl|id rec ttl Hl|id|c e|c e r σ' Hc IH]; intros Hi.
  - split; [|done]. split; [done|]. intros rec [= Hl]. apply live_lookup in Hl as [x Hx]. by eapply Hs.
  - split; [done|]. by apply store_inv_put.
  - done.
  - split; [done|]. by apply store_inv_put.
  - split; [done|]. intros k r x Hx. eapply Hs, lookup_delete_Some. exact Hx.
  - split; [|done]. by destruct c.
  - split; [|by apply IH]. by destruct c.
Qed.

(** Every reachable configuration keeps the invariant and every thread its promise. *)
Lemma wp_sound {A : Type} h (Q : nat → A → Prop) cfg cfg' :
  rtc (sys_step h) cfg cfg' →
  store_inv I (cf_store cfg) → (∀ i p, cf_threads cfg !! i = Some p → wp I p (Q i)) →
  store_inv I (cf_store cfg') ∧ ∀ i p, cf_threads cfg' !! i = Some p → wp I p (Q i).
Proof.
  assert (∀ (ps : list (prog A)) (i : nat) p p' (j : nat) (q : prog A), ps !! i = Some p → (∀ i p, ps !! i = Some p → wp I p (Q i)) →
    wp I p' (Q i) → <[i := p']> ps !! j = Some q → wp I q (Q j)) as Hupd.
  { intros ps i p p' j q Hi Hps Hp' Hj. destruct (decide (j = i)) as [->|Hne].
    - rewrite list_lookup_insert_eq in Hj by (by eapply lookup_lt_Some). by injection Hj as <-.
    - rewrite list_lookup_insert_ne in Hj by done. by apply Hps. }
  induction 1 as [cfg|cfg1 cfg2 cfg3 Hstep _ IH]; [done|]. intros Hs Hps. apply IH.
  - destruct Hstep; simpl in *; [done| |done].
    match goal with Hi : _ !! _ = Some (Ask _ _) |- _ => specialize (Hps _ _ Hi) as [Hc _] end.
    by eapply spec_call_inv.
  - destruct Hstep as [t t' σ ps i k Ht Hi|t t' σ ps i c k r σ' Ht Hi Hcall|]; simpl in *; [| |done].
    + intros j q. eapply Hupd; [done|done|]. exact (Hps _ _ Hi t').
    + intros j q. eapply Hupd; [done|done|]. destruct (Hps _ _ Hi) as [Hc Hk]. apply Hk.
      by eapply spec_call_inv.
Qed.

(** The same for one operation alone. *)
Lemma wp_exec {A : Type} h t σ (p : prog A) t' σ' a Q :
  exec h t σ p t' σ' a → store_inv I σ → wp I p Q → store_inv I σ' ∧ Q a.
Proof.
  induction 1 as [t t' σ a Ht|t t' σ k t'' σ'' a Ht _ IH|t t' σ c k r σ' t'' σ'' a Ht Hc _ IH]; intros Hs Hp.
  - done.
  - apply IH; [done|]. apply Hp.
  - destruct Hp as [Hi Hk]. destruct (spec_call_inv _ _ _ _ _ _ Hc Hs Hi) as [Hr Hs'].
    apply IH; [done|]. by apply Hk.
Qed.
End Logic.

(** ** What the requests promise *)

Section Promise.
Context `{Unicode} `{SliceSort} `{Sha256} `{MapRange} (e : Engine).

(** A record that one of the requests [rs] of its owner may have made. *)
Definition record_inv (rs : list request) (rec : Record_) : Prop :=
  ∃ rq orig, rq ∈ rs ∧ rq_text rq = Some orig ∧ SystemID (rq_opt rq) = rec_SystemID rec ∧ made_from orig rec.

(** A masking of [text] that does not depend on the store. *)
Definition fresh_mask (text : bytes) (opt : Options) (m : bytes) (found : option counter) : Prop :=
  ∃ s reps f doc, resolveStrategy e (opt_Strategy opt) = Some s ∧
    runMask e text opt s (Some NewDocState) = Some (m, reps, f, doc) ∧ found = Some f.

(** The stored masking of a text with the same digest. *)
Definition stored_mask (I : Record_ → Prop) (text : bytes) (opt : Options) (m : bytes) (found : option counter)
    : Prop :=
  ∃ rec, I rec ∧ ownsRecord rec opt = true ∧ rec_Hash rec = hashText text ∧ m = rec_MaskedText rec ∧
    (found = None ∨ found = Some (countsFromRec rec)).

(** A restoration from a record the caller owns. *)
Definition restored_from (I : Record_ → Prop) (text : bytes) (opt : Options) (out : bytes) (misses : Z) : Prop :=
  ∃ rec, I rec ∧ ownsRecord rec opt = true ∧ Restore text (rec_Replacements rec) = Some (out, misses).

Definition process_promise (I : Record_ → Prop) (payload : bytes) (opt : Options)
    (o : outcome engine_error ProcessResult) : Prop :=
  match o with
  | Ret r =>
      if p_Unmasked r
      then Unmask_allowed opt = true ∧ restored_from I payload opt (p_Result r) (p_Misses r)
      else p_Misses r = 0 ∧
        (fresh_mask payload opt (p_Result r) (p_Found r) ∨ stored_mask I payload opt (p_Result r) (p_Found r))
  | Err er => er = Err_no_strategy ∨ ∃ e, er = Err_store e
  | Panic => False
  end.

Definition mask_promise (I : Record_ → Prop) (text : bytes) (opt : Options)
    (o : outcome engine_error MaskResult) : Prop :=
  match o with
  | Ret r => fresh_mask text opt (Masked r) (Found r) ∨ stored_mask I text opt (Masked r) (Found r)
  | Err er => er ≠ ErrNotFound
  | Panic => False
  end.

(** The texts [MaskBatchEx] masks, one after the other with one document state. *)
Definition batch_masked (texts : list bytes) (opt : Options) (masked : list bytes) : Prop :=
  ∃ s st, resolveStrategy e (opt_Strategy opt) = Some s ∧
    fold_opt (batch_step e opt s) (MkBatch [] [] ∅ 0 (Some NewDocState)) texts = Some st ∧ bt_masked st = masked.

Definition batch_promise (texts : list bytes) (opt : Options) (o : outcome engine_error MaskBatchResult) : Prop :=
  match o with
  | Ret r => length (b_Masked r) = length texts ∧ batch_masked texts opt (b_Masked r) ∧
      ∃ rec, made_from (joinTexts texts) rec ∧ rec_MaskedText rec = joinMasked (b_Masked r) ∧
        b_Found r = countsFromRec rec
  | Err er => er ≠ ErrNotFound ∧ er ≠ ErrLooksLikeUnmask
  | Panic => False
  end.

Definition unmask_promise (I : Record_ → Prop) (text : bytes) (opt : Options)
    (o : outcome engine_error UnmaskResult) : Prop :=
  match o with
  | Ret r => restored_from I text opt (Restored r) (Misses r)
  | Err er => er = ErrNotFound ∨ ∃ e, er = Err_store e
  | Panic => False
  end.

Definition promise (I : Record_ → Prop) (rq : request) (o : outcome engine_error answer) : Prop :=
  match rq with
  | RProcess _ p opt => ∃ o', o = out_map AProcess o' ∧ process_promise I p opt o'
  | RMask _ t opt => ∃ o', o = out_map AMask o' ∧ mask_promise I t opt o'
  | RBatch _ ts opt => ∃ o', o = out_map ABatch o' ∧ batch_promise ts opt o'
  | RUnmask _ m opt => ∃ o', o = out_map AUnmask o' ∧ unmask_promise I m opt o'
  end.

Lemma strategy_ok texts name s : engine_ok e texts → resolveStrategy e name = Some s → NonEmptyStrategy s.
Proof. intros [_ Hs] [k Hk]%resolveStrategy_in. by eapply Hs. Qed.

(** A fresh masking, with the record that is saved for it. *)
Lemma fresh_made text opt s :
  engine_ok e [text] → resolveStrategy e (opt_Strategy opt) = Some s →
  ∃ m reps f doc, runMask e text opt s (Some NewDocState) = Some (m, reps, f, doc) ∧
    fresh_mask text opt m (Some f) ∧
    ∀ now, let rec := MkRecord reps (s_Name s) now m (hashText text) (SystemID opt) in
      made_from text rec ∧ countsFromRec rec = f.
Proof.
  intros He Hs.
  destruct (runMask_spec e text opt s (Some NewDocState) ltac:(apply He; left) (strategy_ok _ _ _ He Hs))
    as (segs & tail & doc & Hrun & Ht & Hok).
  eexists _, _, _, doc. split; [exact Hrun|]. split; [by eexists s, _, _, doc|]. intros now. split.
  - split; [done|]. by exists segs, tail.
  - rewrite countsFromRec_alt. simpl. by rewrite segment_reps_cat.
Qed.

Lemma maskFresh_promise I payload opt :
  engine_ok e [payload] → process_promise I payload opt (maskFreshResult e payload opt).
Proof.
  intros He. unfold maskFreshResult, maskOnly. destruct (resolveStrategy e _) as [s|] eqn:Es; [|by left].
  destruct (fresh_made payload opt s He Es) as (m & reps & f & doc & -> & Hf & _). simpl. auto.
Qed.

Lemma existing_promise I rec payload opt :
  engine_ok e [payload] → I rec → ownsRecord rec opt = true →
  process_promise I payload opt (processExisting e rec payload opt).
Proof.
  intros He HI Hown. unfold processExisting. case_bool_decide as Hh.
  { split; [done|]. right. exists rec. split_and!; auto. }
  destruct (Unmask_allowed opt) eqn:Eu; simpl; [|by apply maskFresh_promise].
  destruct (restore_total payload (rec_Replacements rec)) as (out & misses & Hr & Hm). rewrite Hr.
  destruct (_ <=? _); [by apply maskFresh_promise|]. simpl. split; [done|]. by exists rec.
Qed.

Lemma fill_found_promise I rec payload opt :
  engine_ok e [payload] → I rec → ownsRecord rec opt = true →
  process_promise I payload opt (res ← processExisting e rec payload opt; Ret (fill_found rec res)).
Proof.
  intros He HI Hown. pose proof (existing_promise I rec payload opt He HI Hown) as Hp.
  destruct (processExisting e rec payload opt) as [r|er|] eqn:Ep; [|done|done]. simpl. unfold fill_found.
  destruct (p_Unmasked r) eqn:Eu; simpl; [done|].
  destruct (bool_decide (p_Found r = None)) eqn:Ef; [apply bool_decide_eq_true_1 in Ef|done].
  destruct (bool_decide (p_Result r = rec_MaskedText rec)) eqn:Er;
    [apply bool_decide_eq_true_1 in Er|done]. cbn [andb].
  simpl in Hp. rewrite Eu, Ef in Hp. cbn [process_promise p_Unmasked p_Misses p_Result p_Found].
  destruct Hp as [Hm [(s & reps & f & doc & _ & _ & Hf)|Hst]]; [done|]. split; [done|]. right.
  unfold processExisting in Ep. case_bool_decide as Hh.
  - exists rec. split_and!; auto.
  - exfalso. unfold maskFreshResult, maskOnly in Ep.
    repeat (case_match; simplify_eq/=; try done).
Qed.

Variable rs : list request.
Let I := record_inv rs.
Context (Hall : engine_ok e (concat (map rq_masks rs))).

Lemma request_ok rq : rq ∈ rs → engine_ok e (rq_masks rq).
Proof.
  intros Hin. eapply engine_ok_sub; [exact Hall|]. intros text Ht. apply list_elem_of_In, in_concat.
  exists (rq_masks rq). split; [|by apply list_elem_of_In]. by apply in_map, list_elem_of_In.
Qed.

Lemma Process_wp id payload opt :
  RProcess id payload opt ∈ rs → wp I (Process e id payload opt) (process_promise I payload opt).
Proof.
  intros Hin. pose proof (request_ok _ Hin) as Hrq. unfold Process.
  apply wp_ask; [done|by right; eexists|]. intros [rec|] [_ Hrec].
  { destruct (ownsRecord rec opt) eqn:Eo; simpl; [apply fill_found_promise; auto|by apply maskFresh_promise]. }
  destruct (resolveStrategy e _) as [s|] eqn:Es; [|by left].
  destruct (fresh_made payload opt s Hrq Es) as (m & reps & f & doc & -> & Hf & Hmade). cbn [guard]. apply wp_now. intros now.
  destruct (Hmade now) as [Hm _].
  assert (∀ o, o = Ret (MkProcessResult m (Some f) false 0) → process_promise I payload opt o) as Hown
    by (intros o ->; simpl; auto).
  assert (I (MkRecord reps (s_Name s) now m (hashText payload) (SystemID opt))) as HI
    by (eexists _, payload; eauto).
  apply wp_ask; [exact HI|by right; eexists|]. intros [] _; [by apply Hown|].
  apply wp_ask; [done|by right; eexists|]. intros [rec2|] [_ Hrec2].
  - destruct (ownsRecord rec2 opt) eqn:Eo; simpl; [apply existing_promise; auto|by apply maskFresh_promise].
  - apply wp_ask; [exact HI|by right; eexists|]. intros _ _. by apply Hown.
Qed.

Lemma maskWithRecord_wp id text opt existing :
  RMask id text opt ∈ rs →
  match existing with
  | Some rec => I rec ∧ ownsRecord rec opt = true
  | None => True
  end →
  wp I (maskWithRecord e id text opt (Some NewDocState) existing) (mask_promise I text opt).
Proof.
  intros Hin Hex. unfold maskWithRecord. set (mask_and_save := match resolveStrategy e _ with None => _ | _ => _ end).
  assert (wp I mask_and_save (mask_promise I text opt)) as Hms.
  { unfold mask_and_save. destruct (resolveStrategy e _) as [s|] eqn:Es; [|done].
    destruct (fresh_made text opt s (request_ok _ Hin) Es) as (m & reps & f & doc & -> & Hf & Hmade). cbn [guard].
    apply wp_now. intros now.
    apply wp_ask; [|done|intros _ _; by left].
    eexists _, text. split_and!; [exact Hin|done|done|apply Hmade]. }
  clearbody mask_and_save. destruct existing as [rec|]; [|done]. destruct Hex as [HI Hown].
  case_bool_decide; [|by case_bool_decide]. right. exists rec. split_and!; auto.
Qed.

Lemma MaskEx_wp id text opt :
  RMask id text opt ∈ rs → wp I (MaskEx e id text opt) (mask_promise I text opt).
Proof.
  intros Hin. unfold MaskEx, maskEx. split; [done|]. intros [[rec|]|er|] [Hp Hrec]; [| | |done].
  - destruct (ownsRecord rec opt) eqn:Eo; cbn [negb]; [|done].
    case_bool_decide; [right; exists rec; by split_and!; auto|]. case_bool_decide; [done|].
    apply maskWithRecord_wp; auto.
  - by apply maskWithRecord_wp.
  - by apply maskWithRecord_wp.
Qed.

(** The record a batch saves. *)
Lemma batch_made opt s texts :
  engine_ok e texts → resolveStrategy e (opt_Strategy opt) = Some s →
  ∃ st, fold_opt (batch_step e opt s) (MkBatch [] [] ∅ 0 (Some NewDocState)) texts = Some st ∧
    length (bt_masked st) = length texts ∧
    ∀ now, let rec := MkRecord (bt_reps st) (s_Name s) now (joinMasked (bt_masked st))
        (hashText (joinTexts texts)) (SystemID opt) in
      made_from (joinTexts texts) rec ∧ bt_found st = countsFromRec rec.
Proof.
  intros He Hs.
  destruct (batch_spec e opt s texts (proj2 (Forall_forall _ _) (proj1 He)) (strategy_ok _ _ _ He Hs))
    as (st & Hst & [Hlen _ (segs & tail & Ho & Hm & Hr & Hf & Hok)]).
  exists st. split; [done|]. split; [done|]. intros now. split.
  - split; [done|]. by exists segs, tail.
  - rewrite countsFromRec_alt. simpl. by rewrite Hr, segment_reps_cat.
Qed.

Lemma MaskBatchEx_wp id texts opt :
  RBatch id texts opt ∈ rs → wp I (MaskBatchEx e id texts opt) (batch_promise texts opt).
Proof.
  intros Hin. unfold MaskBatchEx. set (mask_and_save := match resolveStrategy e _ with None => _ | _ => _ end).
  assert (wp I mask_and_save (batch_promise texts opt)) as Hms.
  { unfold mask_and_save. destruct (resolveStrategy e _) as [s|] eqn:Es; [|done].
    destruct (batch_made opt s texts (request_ok _ Hin) Es) as (st & Hst & Hlen & Hmade). rewrite Hst. cbn [guard]. apply wp_now. intros now.
    destruct (Hmade now) as [Hm Hf]. apply wp_ask; [|done|].
    - eexists _, (joinTexts texts). by split_and!; [exact Hin| | |].
    - intros _ _. split; [done|]. split; [by exists s, st|by eexists]. }
  clearbody mask_and_save. split; [done|]. intros [[rec|]|er|] [Hp Hrec]; [|done..].
  by destruct (ownsRecord rec opt).
Qed.

Lemma UnmaskEx_wp id masked opt : wp I (UnmaskEx id masked opt) (unmask_promise I masked opt).
Proof.
  unfold UnmaskEx. apply wp_ask; [done|by right; eexists|]. intros [rec|] [_ Hrec]; [|by left].
  destruct (ownsRecord rec opt) eqn:Eo; simpl; [|by left].
  destruct (restore_total masked (rec_Replacements rec)) as (out & misses & Hr & _). rewrite Hr.
  simpl. exists rec. split_and!; auto.
Qed.

Lemma serve_wp rq : rq ∈ rs → wp I (serve e rq) (promise I rq).
Proof.
  assert (∀ B (p : prog (outcome engine_error B)) (f : B → answer) (Q : outcome engine_error B → Prop),
    wp I p Q → wp I (out_map f <$> p) (λ o, ∃ o', o = out_map f o' ∧ Q o')) as Hmap.
  { intros B p f Q Hp. apply wp_fmap. clear -Hp. induction p as [a|k IH|c k IH]; simpl in *; [by eexists|auto|].
    destruct Hp. split; auto. }
  destruct rq; intros Hin; apply Hmap.
  - by eapply Process_wp.
  - by eapply MaskEx_wp.
  - by eapply MaskBatchEx_wp.
  - apply UnmaskEx_wp.
Qed.
End Promise.

(** ** Executions of one operation *)

Section Exec.
Context `{Unicode} `{SliceSort} `{Sha256} `{MapRange} (e : Engine) (h : bytes → bytes).

Lemma exec_bind_inv {A B : Type} (f : A → prog B) p t σ t2 σ2 b :
  exec h t σ (prog_bind f p) t2 σ2 b →
  ∃ t1 σ1 a, exec h t σ p t1 σ1 a ∧ exec h t1 σ1 (f a) t2 σ2 b.
Proof.
  revert t σ. induction p as [a|k IH|c k IH]; intros t σ Hx; simpl in Hx.
  - exists t, σ, a. split; [by constructor|done].
  - apply exec_now_inv in Hx as (t' & Ht & (t1 & σ1 & a & Hp & Hf)%IH).
    exists t1, σ1, a. split; [by econstructor|done].
  - apply exec_ask_inv in Hx as (t' & r & σ' & Ht & Hc & (t1 & σ1 & a & Hp & Hf)%IH).
    exists t1, σ1, a. split; [by eapply exec_ask|done].
Qed.

(** The answers of the calls the engine makes. *)
Definition load_answer (σ : spec_state) (t : Z) (id : bytes) (r : outcome store_error (option Record_)) : Prop :=
  r = Ret (live t σ (h id)) ∨ ∃ er, r = Err er.

Definition call_effect (t : Z) (σ : spec_state) (c : call) : outcome store_error (resp c) → spec_state → Prop :=
  match c with
  | CLoad id => λ r σ', σ' = σ ∧ load_answer σ t id r
  | CSave id rec ttl => λ r σ', r = Ret () → σ' = put h t id rec ttl σ
  | CSaveNew id rec ttl => λ r σ', (r = Ret true → live t σ (h id) = None ∧ σ' = put h t id rec ttl σ) ∧
                         (r = Ret false → σ' = σ ∧ ∃ rec, live t σ (h id) = Some rec)
  | CDelete id => λ _ _, True
  end.

Lemma call_effects t σ c r σ' : spec_call h t σ c r σ' → call_effect t σ c r σ'.
Proof.
  induction 1 as [id|id rec ttl|id rec ttl r Hl|id rec ttl Hl|id|c er|c er r σ' Hc IH]; simpl; try done.
  - split; [done|by left].
  - split; [done|]. intros _. split; [done|by exists r].
  - destruct c; simpl; try done. split; [done|]. right. by eexists.
  - destruct c; simpl in *; try done. split; [apply IH|]. right. by eexists.
Qed.

Lemma load_inv t σ id r σ' : spec_call h t σ (CLoad id) r σ' → σ' = σ ∧ load_answer σ t id r.
Proof. apply (call_effects t σ (CLoad id)). Qed.

Lemma save_inv t σ id rec ttl σ' :
  spec_call h t σ (CSave id rec ttl) (Ret ()) σ' → σ' = put h t id rec ttl σ.
Proof. intros Hc. by apply (call_effects t σ (CSave id rec ttl)) in Hc; apply Hc. Qed.

Lemma exec_ask_engine {A : Type} t σ c (k : resp c → prog (outcome engine_error A)) t' σ' a :
  exec h t σ (ask c k) t' σ' (Ret a) →
  ∃ t1 r σ1, t <= t1 ∧ spec_call h t1 σ c (Ret r) σ1 ∧ exec h t1 σ1 (k r) t' σ' (Ret a).
Proof.
  unfold ask. intros (t1 & r & σ1 & Ht & Hc & Hx)%exec_ask_inv.
  destruct r as [r|er|]; [by exists t1, r, σ1| |]; by apply exec_done_inv in Hx as (_ & _ & ?).
Qed.

(** What a masking operation leaves in the store for [text] and its result [m]: a
    record the caller owns, found there or just saved. *)
Definition stored_for (id text m : bytes) (opt : Options) (found : option counter) (σ σ1 : spec_state)
    (t t1 : Z) : Prop :=
  ∃ rec x orig, σ1 !! h id = Some (rec, x) ∧ ownsRecord rec opt = true ∧ rec_MaskedText rec = m ∧
    made_from orig rec ∧ hashText orig = hashText text ∧ found = Some (countsFromRec rec) ∧
    (σ1 = σ ∨ orig = text ∧ ∃ t0, t <= t0 <= t1 ∧ x = expiryFor t0 (TTL opt)).

Definition genuine (σ : spec_state) : Prop := store_inv (λ rec, ∃ orig, made_from orig rec) σ.

Lemma owns_own reps s now m hash opt :
  SystemID opt ≠ [] → ownsRecord (MkRecord reps s now m hash (SystemID opt)) opt = true.
Proof.
  intros Hs. unfold ownsRecord, LegacyOwner. simpl. case_bool_decide; [done|]. by apply bool_decide_eq_true_2.
Qed.

Lemma maskWithRecord_exec id text opt ex σ0 t σ t1 σ1 m :
  engine_ok e [text] → SystemID opt ≠ [] → match ex with Some rec => rec_Hash rec ≠ hashText text | None => True end →
  exec h t σ (maskWithRecord e id text opt (Some NewDocState) ex) t1 σ1 (Ret m) →
  stored_for id text (Masked m) opt (Found m) σ0 σ1 t t1.
Proof.
  intros He Hs Hex. unfold maskWithRecord. set (mask_and_save := match resolveStrategy e _ with None => _ | _ => _ end).
  assert (exec h t σ mask_and_save t1 σ1 (Ret m) →
    stored_for id text (Masked m) opt (Found m) σ0 σ1 t t1) as Hsave.
  { unfold mask_and_save. destruct (resolveStrategy e _) as [s|] eqn:Es;
      [|by intros (_ & _ & ?)%exec_done_inv].
    destruct (fresh_made e text opt s He Es) as (m0 & reps & f & doc & -> & _ & Hmade). cbn [guard].
    intros (t0 & Ht0 & Hx)%exec_now_inv. destruct (Hmade t0) as [Hm Hf].
    apply exec_ask_engine in Hx as (t2 & [] & σ2 & Ht2 & ->%save_inv & Hx).
    apply exec_done_inv in Hx as (Ht3 & -> & [= ->]). simpl.
    eexists _, _, text. unfold put. rewrite lookup_insert_eq. split_and!; try done.
    - by apply owns_own.
    - by f_equal.
    - right. split; [done|]. exists t2. split; [lia|done]. }
  clearbody mask_and_save. destruct ex as [rec|]; [|done].
  rewrite bool_decide_eq_false_2 by done. case_bool_decide; [by intros (_ & _ & ?)%exec_done_inv|done].
Qed.

Lemma MaskEx_exec id text opt t σ t1 σ1 m :
  engine_ok e [text] → SystemID opt ≠ [] → genuine σ → exec h t σ (MaskEx e id text opt) t1 σ1 (Ret m) →
  stored_for id text (Masked m) opt (Found m) σ σ1 t t1.
Proof.
  intros He Hs Hg. unfold MaskEx, maskEx. intros (t2 & r & σ2 & Ht2 & [-> Hl]%load_inv & Hx)%exec_ask_inv.
  assert (∀ ex, match ex with Some rec => rec_Hash rec ≠ hashText text | None => True end →
    exec h t2 σ (maskWithRecord e id text opt (Some NewDocState) ex) t1 σ1 (Ret m) →
    stored_for id text (Masked m) opt (Found m) σ σ1 t t1) as Hfresh.
  { intros ex Hex Hx'. destruct (maskWithRecord_exec _ _ _ _ σ _ _ _ _ _ He Hs Hex Hx')
      as (rec & x & orig & ? & ? & ? & ? & ? & ? & Hlast).
    exists rec, x, orig. split_and!; try done. destruct Hlast as [?|(? & t0 & ? & ?)]; [by left|right].
    split; [done|]. exists t0. split; [lia|done]. }
  destruct Hl as [->|[er ->]]; [|by apply (Hfresh None)].
  destruct (live t2 σ (h id)) as [rec|] eqn:El; [|by apply (Hfresh None)].
  destruct (live_lookup _ _ _ _ El) as [x Hk].
  destruct (ownsRecord rec opt) eqn:Eo; cbn [negb] in Hx; [|by apply exec_done_inv in Hx as (_ & _ & ?)].
  case_bool_decide as Hh.
  - apply exec_done_inv in Hx as (_ & -> & [= ->]). destruct (Hg _ _ _ Hk) as [orig Ho].
    exists rec, x, orig. split_and!; try done; [|by left]. destruct Ho as [Ho _]. congruence.
  - case_bool_decide; [by apply exec_done_inv in Hx as (_ & _ & ?)|]. by apply (Hfresh (Some rec)).
Qed.

Lemma MaskBatchEx_exec id texts opt t σ t1 σ1 m :
  engine_ok e texts → SystemID opt ≠ [] → exec h t σ (MaskBatchEx e id texts opt) t1 σ1 (Ret m) →
  ∃ rec t0, t <= t0 <= t1 ∧ σ1 !! h id = Some (rec, expiryFor t0 (TTL opt)) ∧ ownsRecord rec opt = true ∧
    rec_MaskedText rec = joinMasked (b_Masked m) ∧ made_from (joinTexts texts) rec ∧ b_Found m = countsFromRec rec.
Proof.
  intros He Hs. unfold MaskBatchEx. set (mask_and_save := match resolveStrategy e _ with None => _ | _ => _ end).
  intros (t2 & r & σ2 & Ht2 & [-> Hl]%load_inv & Hx)%exec_ask_inv.
  assert (exec h t2 σ mask_and_save t1 σ1 (Ret m)) as Hm.
  { destruct Hl as [->|[er ->]]; [|done]. destruct (live t2 σ (h id)) as [rec|]; [|done].
    destruct (ownsRecord rec opt); [done|]. by apply exec_done_inv in Hx as (_ & _ & ?). }
  unfold mask_and_save in Hm. destruct (resolveStrategy e _) as [s|] eqn:Es;
    [|by apply exec_done_inv in Hm as (_ & _ & ?)].
  destruct (batch_made e opt s texts He Es) as (st & Hst & _ & Hmade). rewrite Hst in Hm. cbn [guard] in Hm.
  apply exec_now_inv in Hm as (t0 & Ht0 & Hm). destruct (Hmade t0) as [Hrec Hf].
  apply exec_ask_engine in Hm as (t3 & [] & σ3 & Ht3 & ->%save_inv & Hm).
  apply exec_done_inv in Hm as (Ht4 & -> & [= ->]). simpl. unfold put.
  eexists _, t3. rewrite lookup_insert_eq. split_and!; try done; [lia|]. by apply owns_own.
Qed.

(** Unmasking the stored text of an owned record. *)
Lemma UnmaskEx_exec id opt t σ t1 σ1 o rec x orig :
  σ !! h id = Some (rec, x) → ownsRecord rec opt = true → made_from orig rec →
  exec h t σ (UnmaskEx id (rec_MaskedText rec) opt) t1 σ1 o →
  σ1 = σ ∧ (o = Ret (MkUnmaskResult orig 0) ∨ (∃ er, o = Err (Err_store er)) ∨
            (o = Err ErrNotFound ∧ past x t1 = true)).
Proof.
  intros Hk Hown Hm. unfold UnmaskEx, ask. intros (t2 & r & σ2 & Ht2 & [-> Hl]%load_inv & Hx)%exec_ask_inv.
  destruct Hl as [->|[er ->]].
  - unfold live in Hx. rewrite Hk in Hx. destruct (past x t2) eqn:Ep.
    + apply exec_done_inv in Hx as (Ht & -> & ->). split; [done|]. right. right.
      split; [done|by eapply past_mono].
    + rewrite Hown, (made_from_restores orig rec Hm) in Hx. cbn [negb guard] in Hx.
      apply exec_done_inv in Hx as (_ & -> & ->). split; [done|by left].
  - apply exec_done_inv in Hx as (_ & -> & ->). split; [done|]. right. left. by eexists.
Qed.

(** [Process] on an id with no record. *)
Lemma Process_new_exec id payload opt t σ t1 σ1 r :
  engine_ok e [payload] → SystemID opt ≠ [] → σ !! h id = None → exec h t σ (Process e id payload opt) t1 σ1 (Ret r) →
  ∃ rec t0, t <= t0 <= t1 ∧ σ1 !! h id = Some (rec, expiryFor t0 (TTL opt)) ∧ ownsRecord rec opt = true ∧
    made_from payload rec ∧ r = MkProcessResult (rec_MaskedText rec) (Some (countsFromRec rec)) false 0.
Proof.
  intros He Hs Hnone. unfold Process.
  intros (t2 & r2 & σ2 & Ht2 & [-> Hl]%load_inv & Hx)%exec_ask_engine.
  assert (∀ t', live t' σ (h id) = None) as Hlive by (intros t'; unfold live; by rewrite Hnone).
  destruct Hl as [[= ->]|[er ?]]; [|done]. rewrite Hlive in Hx.
  destruct (resolveStrategy e _) as [s|] eqn:Es; [|by apply exec_done_inv in Hx as (_ & _ & ?)].
  destruct (fresh_made e payload opt s He Es) as (m & reps & f & doc & Hrun & _ & Hmade).
  rewrite Hrun in Hx. cbn [guard] in Hx.
  apply exec_now_inv in Hx as (t0 & Ht0 & Hx). destruct (Hmade t0) as [Hm Hf].
  apply exec_ask_engine in Hx as (t3 & created & σ3 & Ht3 & Hc & Hx).
  apply (call_effects t3 σ (CSaveNew id _ _)) in Hc as [Hyes Hno].
  destruct created; [|destruct Hno as [_ [r0 Hr0]]; [done|by rewrite Hlive in Hr0]].
  destruct Hyes as [_ ->]; [done|]. apply exec_done_inv in Hx as (Ht4 & -> & [= ->]).
  eexists _, t3. unfold put. rewrite lookup_insert_eq. split; [lia|]. split; [done|].
  split; [by apply owns_own|]. split; [exact Hm|]. simpl. by rewrite Hf.
Qed.

(** [Process] on an id with a record that stays live. *)
Lemma Process_known_exec id payload opt t σ t1 σ1 o rec x :
  σ !! h id = Some (rec, x) → past x t1 = false → exec h t σ (Process e id payload opt) t1 σ1 o →
  σ1 = σ ∧ ((∃ er, o = Err (Err_store er)) ∨
    o = if ownsRecord rec opt then res ← processExisting e rec payload opt; Ret (fill_found rec res)
        else maskFreshResult e payload opt).
Proof.
  intros Hk Hp Hx. unfold Process, ask in Hx.
  apply exec_ask_inv in Hx as (t2 & r & σ2 & Ht2 & [-> Hl]%load_inv & Hx). pose proof (exec_time _ _ _ _ _ _ _ Hx) as Ht.
  assert (past x t2 = false) as Hp2.
  { destruct (past x t2) eqn:E; [|done]. by rewrite (past_mono x t2 t1 E Ht) in Hp. }
  destruct Hl as [->|[er ->]]; [|apply exec_done_inv in Hx as (_ & -> & ->); split; [done|left; by eexists]].
  unfold live in Hx. rewrite Hk, Hp2 in Hx. destruct (ownsRecord rec opt); cbn [negb] in Hx;
    apply exec_done_inv in Hx as (_ & -> & ->); auto.
Qed.

(** Unmasking what an owned record stores gives the text back in one piece. *)
Lemma processExisting_back rec payload opt :
  made_from payload rec → Unmask_allowed opt = true → hashText (rec_MaskedText rec) ≠ hashText payload →
  rec_Replacements rec ≠ [] →
  processExisting e rec (rec_MaskedText rec) opt = Ret (MkProcessResult payload None true 0).
Proof.
  intros Hm Hu Hh Hr. pose proof Hm as [Hhash _]. unfold processExisting. rewrite Hhash, bool_decide_eq_false_2 by congruence.
  rewrite Hu, (made_from_restores _ _ Hm). cbn [negb].
  destruct (rec_Replacements rec); [done|]. simpl. done.
Qed.

(** Without the permission nothing is unmasked. *)
Lemma no_permission rec payload opt r :
  Unmask_allowed opt = false →
  Ret r = (res ← processExisting e rec payload opt; Ret (fill_found rec res)) → p_Unmasked r = false.
Proof.
  intros Hu. unfold processExisting. rewrite Hu. cbn [negb].
  assert (∀ res, p_Unmasked (fill_found rec res) = p_Unmasked res) as Hfill
    by (intros res; unfold fill_found; by case_match).
  case_bool_decide.
  - intros [= ->]. by rewrite Hfill.
  - unfold maskFreshResult. destruct (maskOnly _ _ _ _) as [m|er|]; [|done|done]. intros [= ->]. by rewrite Hfill.
Qed.

Lemma processExisting_retry rec payload opt :
  made_from payload rec →
  (res ← processExisting e rec payload opt; Ret (fill_found rec res)) =
  Ret (MkProcessResult (rec_MaskedText rec) (Some (countsFromRec rec)) false 0).
Proof.
  intros [Hh _]. unfold processExisting. rewrite bool_decide_eq_true_2 by done. simpl.
  unfold fill_found. simpl. by rewrite bool_decide_eq_true_2 by done.
Qed.
End Exec.

(** ** First writer wins

    A thread that has seen the records of [R] under their hashed ids, and that some
    record is stored under each id of [K]: it never overwrites an id, a [Load] of an id
    of [K] finds a record, and its result satisfies [Q] of the records seen. Records that
    do not expire then stay, so what was seen once holds for ever. *)

Section Keeps.
Context (h : bytes → bytes) {A : Type}.

Definition call_keeps (c : call) : Prop :=
  match c with CLoad _ => True | CSaveNew _ _ ttl => ttl <= 0 | _ => False end.

Definition resp_knows (K : gset bytes) (c : call) : outcome store_error (resp c) → Prop :=
  match c with CLoad id => λ r, h id ∈ K → r ≠ Ret None | _ => λ _, True end.

Definition learns (c : call) : outcome store_error (resp c) → gset bytes :=
  match c with CSaveNew id _ _ => λ r, match r with Ret _ => {[h id]} | _ => ∅ end | _ => λ _, ∅ end.

(** The record a response shows. *)
Definition sees (c : call) : outcome store_error (resp c) → gmap bytes Record_ :=
  match c with
  | CLoad id => λ r, match r with Ret (Some rec) => {[h id := rec]} | _ => ∅ end
  | CSaveNew id rec _ => λ r, match r with Ret true => {[h id := rec]} | _ => ∅ end
  | _ => λ _, ∅
  end.

Fixpoint keeps (Q : gmap bytes Record_ → A → Prop) (R : gmap bytes Record_) (K : gset bytes) (p : prog A) : Prop :=
  match p with
  | Done a => Q R a
  | Now k => ∀ t, keeps Q R K (k t)
  | Ask c k => call_keeps c ∧ ∀ r, resp_knows K c r → keeps Q (sees c r ∪ R) (K ∪ learns c r) (k r)
  end.

(** The ids of [K] have a record, those of [R] have the records seen, and none expires. *)
Definition taken (K : gset bytes) (σ : spec_state) : Prop := ∀ k, k ∈ K → is_Some (σ !! k).
Definition seen (R : gmap bytes Record_) (σ : spec_state) : Prop := ∀ k r, R !! k = Some r → σ !! k = Some (r, None).
Definition unexpiring (σ : spec_state) : Prop := ∀ k r x, σ !! k = Some (r, x) → x = None.

Lemma seen_singleton k rec σ : σ !! k = Some (rec, None) → seen {[k := rec]} σ.
Proof. by intros Hk k' r [<- <-]%lookup_singleton_Some. Qed.

Lemma keeps_call K t σ c r σ' :
  spec_call h t σ c r σ' → call_keeps c → unexpiring σ → taken K σ →
  unexpiring σ' ∧ σ ⊆ σ' ∧ resp_knows K c r ∧ taken (learns c r) σ' ∧ seen (sees c r) σ'.
Proof.
  intros Hc. induction Hc as [id|id rec ttl|id rec ttl r Hl|id rec ttl Hl|id|c er|c er r σ' Hc IH];
    intros Hk Hu Ht; simpl in Hk; try done.
  - split_and!; [done|done| |done|].
    + simpl. intros Hid [= Hn]. destruct (Ht _ Hid) as [[r x] Hx].
      unfold live in Hn. rewrite Hx, (Hu _ _ _ Hx) in Hn. done.
    + simpl. destruct (live t σ (h id)) as [rec|] eqn:El; [|done]. apply live_lookup in El as [x Hx].
      apply seen_singleton. by rewrite Hx, (Hu _ _ _ Hx).
  - split_and!; [done|done|done| |done]. simpl. intros k ->%elem_of_singleton. by apply live_lookup in Hl as [x ->].
  - assert (σ !! h id = None) as Hnone.
    { destruct (σ !! h id) as [[r x]|] eqn:E; [|done]. unfold live in Hl.
      by rewrite E, (Hu _ _ _ E) in Hl. }
    assert (expiryFor t ttl = None) as Hexp by (unfold expiryFor; by rewrite (proj2 (Z.leb_le _ _))).
    unfold put. split_and!; [|by apply insert_subseteq|done| |].
    + intros k r x. destruct (decide (k = h id)) as [->|Hne].
      * rewrite lookup_insert_eq. by intros [= _ <-].
      * rewrite lookup_insert_ne by done. apply Hu.
    + simpl. intros k ->%elem_of_singleton. rewrite lookup_insert_eq. by eexists.
    + apply seen_singleton. by rewrite lookup_insert_eq, Hexp.
  - split_and!; [done|done|by destruct c|by destruct c|by destruct c].
  - destruct (IH Hk Hu Ht) as (? & ? & ? & ? & ?). split_and!; [done|done|by destruct c|by destruct c|by destruct c].
Qed.

Lemma taken_mono K σ σ' : taken K σ → σ ⊆ σ' → taken K σ'.
Proof. intros Ht Hs k [r Hk]%Ht. exists r. by eapply lookup_weaken. Qed.

Lemma seen_mono R σ σ' : seen R σ → σ ⊆ σ' → seen R σ'.
Proof. intros Ht Hs k r Hk%Ht. by eapply lookup_weaken. Qed.

(** What each thread knows, given a promise for each. *)
Definition threads_keep (Q : nat → gmap bytes Record_ → A → Prop) (cfg : config) : Prop :=
  unexpiring (cf_store cfg) ∧ ∀ i p, cf_threads cfg !! i = Some p →
    ∃ R K, seen R (cf_store cfg) ∧ taken K (cf_store cfg) ∧ keeps (Q i) R K p.

Lemma threads_keep_set (Q : nat → gmap bytes Record_ → A → Prop) (t t' : Z) (σ σ' : spec_state) (ps : list (prog A)) (i : nat) (p' : prog A) :
  threads_keep Q (MkConfig t σ ps) → unexpiring σ' → σ ⊆ σ' →
  (∃ R K, seen R σ' ∧ taken K σ' ∧ keeps (Q i) R K p') → threads_keep Q (MkConfig t' σ' (<[i := p']> ps)).
Proof.
  intros [_ Hps] Hu Hsub Hp. split; [exact Hu|]. intros j q [(-> & -> & _)|[_ Hj]]%list_lookup_insert_Some; [exact Hp|].
  destruct (Hps _ _ Hj) as (R & K & HR & HK & Hk). exists R, K. simpl in *.
  split_and!; [by eapply seen_mono|by eapply taken_mono|done].
Qed.

Lemma keeps_sound Q cfg cfg' :
  rtc (sys_step h) cfg cfg' → threads_keep Q cfg → cf_store cfg ⊆ cf_store cfg' ∧ threads_keep Q cfg'.
Proof.
  induction 1 as [cfg|cfg1 cfg2 cfg3 Hstep _ IH]; [done|]. intros Hkeep. pose proof Hkeep as [Hu Hps].
  destruct Hstep as [t t' σ ps i k Ht Hi|t t' σ ps i c k r σ' Ht Hi Hc|t t' σ ps Ht]; simpl in *; [| |by apply IH].
  - destruct (Hps _ _ Hi) as (R & K & HR & HK & Hp). apply IH. apply (threads_keep_set Q t t' σ); [exact Hkeep|exact Hu|done|].
    exists R, K. split_and!; [done|done|apply Hp].
  - destruct (Hps _ _ Hi) as (R & K & HR & HK & Hcall & Hk).
    destruct (keeps_call K _ _ _ _ _ Hc Hcall Hu HK) as (Hu' & Hsub & Hr & Hl & Hs).
    destruct IH as [? ?]; [|split; [by etrans|done]]. apply (threads_keep_set Q t t' σ); [exact Hkeep|exact Hu'|exact Hsub|].
    exists (sees c r ∪ R), (K ∪ learns c r). split_and!; [| |by apply Hk].
    + intros k' r' [Hk'|[_ Hk']]%lookup_union_Some_raw; [by apply Hs|by apply (seen_mono R σ)].
    + intros k' [Hk'|Hk']%elem_of_union; [by eapply (taken_mono K)|by apply Hl].
Qed.
End Keeps.

Section KeepsProcess.
Context `{Unicode} `{SliceSort} `{Sha256} `{MapRange} (e : Engine) (h : bytes → bytes).

Lemma keeps_fmap {A B : Type} (f : A → B) Q R K p : keeps h (λ R a, Q R (f a)) R K p → keeps h Q R K (f <$> p).
Proof.
  unfold fmap, prog_fmap. revert R K. induction p as [a|k IH|c k IH]; intros R K; simpl; [done|auto|].
  intros [Hc Hk]. auto.
Qed.

Lemma keeps_mono {A : Type} (Q Q' : gmap bytes Record_ → A → Prop) R K p :
  (∀ R a, Q R a → Q' R a) → keeps h Q R K p → keeps h Q' R K p.
Proof.
  intros HQ. revert R K. induction p as [a|k IH|c k IH]; intros R K; simpl; [apply HQ|auto|]. intros [Hc Hk]. auto.
Qed.

Lemma keeps_ask {A : Type} (Q : gmap bytes Record_ → outcome engine_error A → Prop) R K c k :
  call_keeps c → (∀ R er, Q R (Err er)) → (∀ R, Q R Panic) →
  (∀ r, resp_knows h K c (Ret r) → keeps h Q (sees h c (Ret r) ∪ R) (K ∪ learns h c (Ret r)) (k r)) →
  keeps h Q R K (ask c k).
Proof. intros Hc He Hp Hk. split; [done|]. intros [r|er|] Hr; [by apply Hk|apply He|apply Hp]. Qed.

(** What [Process] answers for a payload from the record of its id; a request that lost
    the race reports no counts. *)
Definition answers_from (rec : Record_) (payload : bytes) (opt : Options) (res : ProcessResult) : Prop :=
  if ownsRecord rec opt
  then ∃ r, processExisting e rec payload opt = Ret r ∧ (res = r ∨ res = fill_found rec r)
  else maskFreshResult e payload opt = Ret res.

Definition answers_stored (id payload : bytes) (opt : Options) (R : gmap bytes Record_)
    (o : outcome engine_error ProcessResult) : Prop :=
  match o with
  | Ret res => engine_ok e [payload] → SystemID opt ≠ [] →
      ∃ rec, R !! h id = Some rec ∧ answers_from rec payload opt res
  | _ => True
  end.

Lemma answers_known R rec id payload opt o :
  R !! h id = Some rec →
  (ownsRecord rec opt = true →
   o = processExisting e rec payload opt ∨ o = (r ← processExisting e rec payload opt; Ret (fill_found rec r))) →
  (ownsRecord rec opt = false → o = maskFreshResult e payload opt) →
  answers_stored id payload opt R o.
Proof.
  intros HR Hown Hforeign. unfold answers_stored. destruct o as [res| |]; [|done..]. intros _ _. exists rec. split; [exact HR|].
  unfold answers_from. destruct (ownsRecord rec opt); [|by rewrite <- Hforeign].
  destruct (processExisting e rec payload opt) as [r| |]; destruct (Hown eq_refl) as [[= ->]|[= ->]]; eauto.
Qed.

(** The winner's answer is the one its record gives. *)
Lemma answers_own R id payload opt s masked reps found doc now :
  resolveStrategy e (opt_Strategy opt) = Some s →
  runMask e payload opt s (Some NewDocState) = Some (masked, reps, found, doc) →
  R !! h id = Some (MkRecord reps (s_Name s) now masked (hashText payload) (SystemID opt)) →
  answers_stored id payload opt R (Ret (MkProcessResult masked (Some found) false 0)).
Proof.
  intros Hs Hrun HR He Hid. eexists. split; [exact HR|]. unfold answers_from. rewrite owns_own by done.
  destruct (fresh_made e payload opt s He Hs) as (m & reps' & f & doc' & Hrun' & _ & Hmade).
  rewrite Hrun in Hrun'. injection Hrun' as -> -> -> ->. destruct (Hmade now) as [Hm Hf].
  pose proof (processExisting_retry e _ payload opt Hm) as Hretry.
  destruct (processExisting e _ payload opt) as [r| |] eqn:Er; [|done..]. exists r. split; [done|]. right.
  injection Hretry as ->. simpl in Hf |- *. by rewrite Hf.
Qed.

Lemma seen_now (R : gmap bytes Record_) id rec : ({[h id := rec]} ∪ R) !! h id = Some rec.
Proof. apply lookup_union_Some_l, lookup_singleton_eq. Qed.

Lemma Process_keeps R K id payload opt :
  TTL opt <= 0 → keeps h (answers_stored id payload opt) R K (Process e id payload opt).
Proof.
  intros Httl. unfold Process. apply keeps_ask; [done|done|done|]. intros [rec|] _; cbn [sees].
  { destruct (ownsRecord rec opt) eqn:Eo; cbn [negb keeps]; (eapply answers_known; [apply seen_now| |]); rewrite Eo;
      (intros [=]; auto). }
  destruct (resolveStrategy e _) as [s|] eqn:Es; [|done].
  destruct (runMask _ _ _ _ _) as [[[[m reps] f] doc]|] eqn:Erun; [|done]. cbn [guard keeps]. intros now.
  apply keeps_ask; [done|done|done|]. intros [] _; cbn [sees].
  { by eapply answers_own; [| |apply seen_now]. }
  apply keeps_ask; [done|done|done|]. intros [rec|] Hr; cbn [sees].
  { destruct (ownsRecord rec opt) eqn:Eo; cbn [negb keeps]; (eapply answers_known; [apply seen_now| |]); rewrite Eo;
      (intros [=]; auto). }
  exfalso. apply Hr; [|done]. simpl. set_solver.
Qed.

Lemma Unmask_keeps R K id masked opt : keeps h (λ _ _, True) R K (UnmaskEx id masked opt).
Proof.
  unfold UnmaskEx. apply keeps_ask; [done|done|done|]. intros [rec|] _; [|done]. destruct (ownsRecord rec opt); [|done].
  by destruct (Restore masked (rec_Replacements rec)) as [[out misses]|].
Qed.

(** The requests that keep the store, and what each answer tells. *)
Definition keeping (rq : request) : Prop :=
  match rq with RProcess _ _ opt => TTL opt <= 0 | RUnmask _ _ _ => True | _ => False end.

Definition told (rq : request) (R : gmap bytes Record_) (o : outcome engine_error answer) : Prop :=
  ∀ id payload opt res, rq = RProcess id payload opt → o = Ret (AProcess res) →
  answers_stored id payload opt R (Ret res).

Lemma serve_keeps R K rq : keeping rq → keeps h (told rq) R K (serve e rq).
Proof.
  destruct rq as [id p opt|id t opt|id ts opt|id m opt]; [|done..|]; intros Hk; apply keeps_fmap.
  - eapply keeps_mono; [|by apply Process_keeps]. intros R' [r| |] Ha id' p' opt' res [= <- <- <-]; cbn [out_map]; [|done..].
    by intros [= ->].
  - eapply keeps_mono; [|apply Unmask_keeps]. by intros R' o _ id' p' opt' res.
Qed.

Lemma serve_threads_keep rs t σ :
  unexpiring σ → Forall keeping rs → threads_keep h (λ i R o, ∀ rq, rs !! i = Some rq → told rq R o) (MkConfig t σ (map (serve e) rs)).
Proof.
  intros Hu Hrs. split; [exact Hu|]. simpl. intros i p Hp. rewrite list_lookup_fmap in Hp.
  destruct (rs !! i) as [rq|] eqn:Hi; [|done]. injection Hp as <-. exists ∅, ∅. split; [by intros ? ? ?%lookup_empty_Some|].
  split; [by intros k ?%elem_of_empty|]. eapply keeps_mono; [|apply serve_keeps].
  - intros R a Ht rq' [= <-]. exact Ht.
  - rewrite Forall_forall in Hrs. apply Hrs. by eapply list_elem_of_lookup_2.
Qed.
End KeepsProcess.

(** ** Every request finishes

    [finishes n p]: [p] ends after at most [n] of its own turns, whatever it is told. *)

Fixpoint finishes {A : Type} (n : nat) (p : prog A) {struct p} : Prop :=
  match p with
  | Done _ => True
  | Now k => match n with O => False | S n => ∀ t, finishes n (k t) end
  | Ask c k => match n with O => False | S n => ∀ r, finishes n (k r) end
  end.

Lemma finishes_mono {A : Type} n m (p : prog A) : finishes n p → (n <= m)%nat → finishes m p.
Proof.
  revert n m. induction p as [a|k IH|c k IH]; intros n m; simpl; [done| |];
    (destruct n; [done|]); (destruct m; [lia|]); intros Hp Hle x; apply (IH x n); auto; lia.
Qed.

Section Finishes.
Context {A : Type}.

Lemma finishes_bind {B : Type} n m (p : prog A) (f : A → prog B) :
  finishes n p → (∀ a, finishes m (f a)) → finishes (n + m) (p ≫= f).
Proof.
  unfold mbind, prog_mbind. revert n. induction p as [a|k IH|c k IH]; intros n; simpl.
  - intros _ Hf. eapply finishes_mono; [apply Hf|lia].
  - destruct n; [done|]. simpl. auto.
  - destruct n; [done|]. simpl. auto.
Qed.

Lemma finishes_fmap {B : Type} n (p : prog A) (f : A → B) : finishes n p → finishes n (f <$> p).
Proof. intros Hp. rewrite (plus_n_O n). by apply finishes_bind. Qed.

Lemma finishes_ask n c (k : resp c → prog (outcome engine_error A)) :
  (∀ r, finishes n (k r)) → finishes (S n) (ask c k).
Proof. intros Hk [r|er|]; simpl; [apply Hk|by destruct n..]. Qed.

(** Turns of other threads do not matter. *)
Lemma run_finishes `{StoreImpl} i n (p : prog A) sched s ps :
  finishes n p → ps !! i = Some p → (n <= length (filter (λ x, x.1 = i) sched))%nat →
  ∃ a, (run_schedule sched s ps).2 !! i = Some (Done a).
Proof.
  revert n p s ps. induction sched as [|[j e] sched IH]; intros n p s ps Hp Hi Hn; simpl.
  - destruct p as [a|k|c k]; [by exists a| |]; simpl in *; by (destruct n; [|simpl in Hn; lia]).
  - rewrite filter_cons in Hn. simpl in Hn. destruct (turn j e s ps) as [s1 ps1] eqn:Et. unfold turn in Et.
    assert (j ≠ i → ps1 !! i = Some p) as Hother.
    { intros Hne. destruct (ps !! j) as [[a|k|c k]|]; [| |destruct (impl_call e c s)|]; injection Et as <- <-; try done;
        by rewrite list_lookup_insert_ne. }
    destruct (decide (j = i)) as [->|Hne]; [|by eapply IH; [exact Hp|apply Hother|]].
    rewrite Hi in Et. assert (i < length ps)%nat as Hlt by (by eapply lookup_lt_Some).
    destruct p as [a|k|c k].
    + injection Et as <- <-. apply (IH O (Done a)); [done|done|lia].
    + injection Et as <- <-. destruct n; [done|]. eapply (IH n); [apply Hp|by apply list_lookup_insert_eq|simpl in Hn; lia].
    + destruct (impl_call e c s) as [r s2]. injection Et as <- <-. destruct n; [done|].
      eapply (IH n); [apply Hp|by apply list_lookup_insert_eq|simpl in Hn; lia].
Qed.
End Finishes.

Section EngineFinishes.
Context `{Unicode} `{SliceSort} `{Sha256} `{MapRange} (e : Engine).

Lemma guard_finishes {A B : Type} n (o : option A) (k : A → prog (outcome engine_error B)) :
  (∀ a, finishes n (k a)) → finishes n (guard o k).
Proof. intros Hk. destruct o; [apply Hk|by destruct n]. Qed.

Lemma UnmaskEx_finishes id masked opt : finishes 1 (UnmaskEx id masked opt).
Proof.
  apply finishes_ask. intros [rec|]; [|done]. destruct (negb _); [done|].
  by apply guard_finishes; intros [].
Qed.

Lemma Process_finishes id payload opt : finishes 5 (Process e id payload opt).
Proof.
  apply finishes_ask. intros [rec|]; [by destruct (negb _)|]. destruct (resolveStrategy e _); [|done].
  apply guard_finishes. intros [[[m reps] f] doc] now. apply finishes_ask. intros []; [done|].
  apply finishes_ask. intros [rec|]; [by destruct (negb _)|]. by apply finishes_ask.
Qed.

Lemma save_finishes id text opt doc : finishes 2
  (match resolveStrategy e (opt_Strategy opt) with
   | None => fail Err_no_strategy
   | Some strategy => guard (runMask e text opt strategy doc) (λ '(masked, reps, found, _), Now (λ now,
       ask (CSave id (MkRecord reps (s_Name strategy) now masked (hashText text) (SystemID opt)) (TTL opt))
         (λ _, ret (MkMaskResult masked (Some found)))))
   end).
Proof.
  destruct (resolveStrategy e _); [|done]. apply guard_finishes. intros [[[m reps] f] doc'] now. by apply finishes_ask.
Qed.

Lemma MaskEx_finishes id text opt : finishes 3 (MaskEx e id text opt).
Proof.
  intros [[rec|]|er|]; [|apply save_finishes|apply save_finishes|done].
  destruct (negb _); [done|]. case_bool_decide as E1; [done|]. case_bool_decide as E2; [done|].
  unfold maskWithRecord. rewrite bool_decide_eq_false_2, bool_decide_eq_false_2 by done. apply save_finishes.
Qed.

Lemma MaskBatchEx_finishes id texts opt : finishes 3 (MaskBatchEx e id texts opt).
Proof.
  unfold MaskBatchEx. set (mask_and_save := match resolveStrategy e _ with None => _ | _ => _ end).
  assert (finishes 2 mask_and_save) as Hms.
  { unfold mask_and_save. destruct (resolveStrategy e _); [|done]. apply guard_finishes. intros st now. by apply finishes_ask. }
  intros [[rec|]|er|]; [by destruct (negb _)|done..].
Qed.
End EngineFinishes.
