(* ===== verification/Safety.v ===== *)
(** * What the engine guarantees

    The theorems about [internal/engine/engine.go] over every implementation of the
    store: safety of concurrent requests, who may see what, round trips, first writer
    wins; and the races the code leaves open. Examples run over the in-memory store. *)

From S2P Require Import Prelude GoText Float64 Pii Mask Strategies Pipeline Crypto Store Chunk Engine System.

(** ** An engine to run examples on *)

Definition demo_phone : Detector :=
  MkDetector "demo" [CatPhone]
    (λ s, let i := str_index s "+7 916" in
          Some (if 0 <=? i then [MkSpan i (i + 6) CatPhone "demo" (f64_lit 9 10)] else [])) None.

Definition demo_engine : Engine :=
  MkEngine (MkPipeline [demo_phone]) {[ go_bytes "token" := NewToken; go_bytes "full" := NewFull ]}.

Lemma demo_engine_ok texts : engine_ok demo_engine texts.
Proof.
  split.
  - intros whole _ a b _ _ _. generalize (slice whole a b). intros text. constructor; [|done]. unfold detects_in, run_detector. simpl.
    destruct (0 <=? _) eqn:E; constructor; [|constructor].
    apply Z.leb_le in E. pose proof (str_index_occurs _ _ E) as [Ho _]%occurs_at_slice.
    unfold span_in, len in *. simpl in *. lia.
  - intros k s. unfold strategies, demo_engine. rewrite lookup_insert_Some, lookup_singleton_Some.
    intros [[_ <-]|[_ [_ <-]]]; apply _.
Qed.

(** SHA-256 is stood in for by a padded prefix. *)
#[export] Program Instance pad_sha256 : Sha256 | 100 := {
  sha256 s := take 32 (s ++ replicate 32 "000"%byte)
}.
Next Obligation. intros s. cbv beta. rewrite length_take, length_app, length_replicate. lia. Qed.

#[export] Program Instance first_entry : MapRange | 100 := {
  range_first A m := snd <$> head (map_to_list m)
}.
Next Obligation.
  intros A m Hm. apply map_to_list_empty_iff. cbv beta in Hm. by destruct (map_to_list m).
Qed.
Next Obligation.
  intros A m a Hm. cbv beta in Hm. destruct (map_to_list m) as [|[k b] l] eqn:E; [done|].
  injection Hm as ->. exists k. apply elem_of_map_to_list. rewrite E. left.
Qed.

#[export] Instance demo_store : StoreImpl | 100 := memory_store demo_key.

Definition demo_opt (system : bytes) : Options :=
  MkOptions [] "token" 0 [] true system "gateway".

(** ** Safety of concurrent requests *)

Lemma requests_promise `{Unicode} `{SliceSort} `{Sha256} `{MapRange} `{StoreImpl} e rs sched t σ s s' ps :
  engine_ok e (concat (map rq_masks rs)) → impl_rel t σ s → store_inv (record_inv rs) σ →
  schedule_ok t sched s (map (serve e) rs) → run_schedule sched s (map (serve e) rs) = (s', ps) →
  (∃ σ', rel_since (end_time t sched) σ' s' ∧ store_inv (record_inv rs) σ') ∧
  ∀ i rq o, rs !! i = Some rq → ps !! i = Some (Done o) → promise e (record_inv rs) rq o.
Proof.
  intros He Hr Hinv Hok Hrun.
  destruct (run_refines sched t σ s (map (serve e) rs) s' ps) as (σ' & Hsteps & Hr');
    [exists t; split; [lia|done]|done|done|].
  destruct (wp_sound (record_inv rs) impl_hash
    (λ i o, ∀ rq, rs !! i = Some rq → promise e (record_inv rs) rq o) _ _ Hsteps Hinv) as [Hinv' Hps].
  { simpl. intros i p Hi. rewrite list_lookup_fmap in Hi.
    destruct (rs !! i) as [rq|] eqn:Erq; [|done]. injection Hi as <-.
    eapply wp_mono; [apply serve_wp; [done|by eapply list_elem_of_lookup_2]|]. simpl.
    intros o Ho rq' [= ->]. done. }
  split; [by exists σ'|]. intros i rq o Hrq Ho. by apply (Hps i (Done o) Ho).
Qed.

(** C2: over any store, in every interleaving of any requests, with an engine whose
    detectors return on the submitted texts ([engine_ok]): no request panics,
    every answer keeps its promise - a text is only restored from a record the caller
    owns and, by [Process], only with permission; a masked text is a fresh masking or
    the stored masking of a text with the same digest - and every record in the store
    was made from a text that its owner submitted. *)
Theorem System_safe `{Unicode} `{SliceSort} `{Sha256} `{MapRange} `{StoreImpl} e rs sched t σ s s' ps :
  engine_ok e (concat (map rq_masks rs)) → impl_rel t σ s → store_inv (record_inv rs) σ →
  schedule_ok t sched s (map (serve e) rs) → run_schedule sched s (map (serve e) rs) = (s', ps) →
  (∃ σ', rel_since (end_time t sched) σ' s' ∧ store_inv (record_inv rs) σ') ∧
  ∀ i rq o, rs !! i = Some rq → ps !! i = Some (Done o) → promise e (record_inv rs) rq o.
Proof. apply requests_promise. Qed.

(** Two requests of different systems for one id, one retry, one unmasking; the two
    first writers interleave. *)
Definition demo_payload : bytes := "call +7 916 now".

Definition demo_requests : list request :=
  [RProcess "doc" demo_payload (demo_opt "crm");
   RProcess "doc" demo_payload (demo_opt "bank");
   RUnmask "doc" "now [PHONE_1]!" (demo_opt "crm");
   RUnmask "doc" "now [PHONE_1]!" (demo_opt "bank")].

Definition demo_schedule : list (nat * Env) :=
  zip [0; 1; 0; 1; 0; 1; 1; 3; 2]%nat (demo_env <$> [10; 11; 12; 13; 14; 15; 16; 17; 18]).

Definition demo_run : Memory * list thread :=
  run_schedule demo_schedule demo_memory (map (serve demo_engine) demo_requests).

Example demo_run_answers : demo_run.2 =
  [Done (Ret (AProcess (MkProcessResult "call [PHONE_1] now" (Some {[CatPhone := 1]}) false 0)));
   Done (Ret (AProcess (MkProcessResult "call [PHONE_1] now" (Some {[CatPhone := 1]}) false 0)));
   Done (Ret (AUnmask (MkUnmaskResult "now +7 916!" 0)));
   Done (Err ErrNotFound)].
Proof. by vm_compute. Qed.

Lemma store_inv_empty I : store_inv I ∅.
Proof. intros k r x. by rewrite lookup_empty. Qed.

Lemma demo_schedule_ok : @schedule_ok _ demo_store _ 0 demo_schedule demo_memory (map (serve demo_engine) demo_requests).
Proof. apply (bool_decide_unpack _). by vm_compute. Qed.

Lemma System_safe_witness :
  promise demo_engine (record_inv demo_requests) (RUnmask "doc" "now [PHONE_1]!" (demo_opt "crm"))
    (Ret (AUnmask (MkUnmaskResult "now +7 916!" 0))).
Proof.
  destruct (@System_safe _ _ _ _ _ demo_store demo_engine demo_requests demo_schedule 0 ∅ demo_memory demo_run.1 demo_run.2)
    as [_ Hans].
  - apply demo_engine_ok.
  - exact (demo_memory_rel 0).
  - exact (store_inv_empty _).
  - exact demo_schedule_ok.
  - exact (surjective_pairing demo_run).
  - refine (Hans 2%nat _ _ eq_refl _). by vm_compute.
Defined.

(** Who may see a record of [owner]. *)
Definition may_read (opt : Options) (owner : bytes) : Prop :=
  if bool_decide (owner = LegacyOwner) then SystemID opt ≠ [] ∧ SystemID opt = DefaultSystemID opt
  else owner = SystemID opt.

Lemma owns_may_read rec opt : ownsRecord rec opt = true ↔ may_read opt (rec_SystemID rec).
Proof.
  unfold ownsRecord, may_read. case_bool_decide; [|by rewrite bool_decide_eq_true].
  rewrite andb_true_iff, negb_true_iff. by rewrite bool_decide_eq_false, bool_decide_eq_true.
Qed.

(** The text a request had unmasked, and what came out. *)
Definition unmasked (rq : request) (o : outcome engine_error answer) : option (bytes * bytes) :=
  match rq, o with
  | RProcess _ p _, Ret (AProcess r) => if p_Unmasked r then Some (p, p_Result r) else None
  | RUnmask _ m _, Ret (AUnmask u) => Some (m, Restored u)
  | _, _ => None
  end.

Lemma promise_unmasked `{Unicode} `{SliceSort} `{Sha256} `{MapRange} e I rq o input out :
  promise e I rq o → unmasked rq o = Some (input, out) → ∃ misses, restored_from I input (rq_opt rq) out misses.
Proof.
  destruct rq as [id p opt|id t opt|id ts opt|id m opt]; simpl; intros (o' & -> & Ho); destruct o' as [r|er|];
    simpl in *; try done.
  - destruct (p_Unmasked r); [|done]. intros [= <- <-]. destruct Ho as [_ Ho]. by exists (p_Misses r).
  - intros [= <- <-]. by exists (Misses r).
Qed.

(** A restored text is the input with disjoint ranges replaced by pieces of texts
    that the record's owner submitted. *)
Lemma restored_own `{Unicode} `{SliceSort} `{Sha256} rs opt input out misses :
  restored_from (record_inv rs) input opt out misses →
  ∃ cs, claim_chain input 0 cs ∧ out = splice_text input 0 cs ∧
    Forall (λ c, ∃ rq text a b, rq ∈ rs ∧ rq_text rq = Some text ∧ text = a ++ c_original c ++ b ∧
      may_read opt (SystemID (rq_opt rq))) cs.
Proof.
  intros (rec & (rq & orig & Hin & Ht & Hsys & Hm) & Hown & Hr).
  destruct (restore_spec input (rec_Replacements rec)) as (out' & misses' & cs & used & lost & Hr' & Hc & Hf & Hp & -> & ->).
  { apply Forall_forall. intros r Hrep. by eapply made_from_original. }
  rewrite Hr in Hr'. injection Hr' as -> ->. exists cs. split_and!; [done|done|].
  apply owns_may_read in Hown. rewrite <- Hsys in Hown.
  assert (Forall (λ r, r ∈ rec_Replacements rec) used) as Hused.
  { apply Forall_forall. intros r Hu. rewrite <- Hp. apply elem_of_app. by left. }
  clear Hp Hc Hr. induction Hf as [|c r cs used Hcr _ IH]; [constructor|].
  apply Forall_cons_1 in Hused as [Hru Hused]. constructor; [|by apply IH].
  destruct (made_from_original _ _ _ Hm Hru) as (_ & a & b & ->). destruct Hcr as (_ & _ & _ & _ & ->).
  by exists rq, (a ++ rp_Original r ++ b), a, b.
Qed.

(** C9: over any store, in every interleaving: whatever a request has unmasked is its
    own input with disjoint ranges replaced by pieces of texts that its own system
    submitted (the default system also sees records without an owner). No system ever
    receives another system's data. *)
Theorem unmask_reveals_own `{Unicode} `{SliceSort} `{Sha256} `{MapRange} `{StoreImpl} e rs sched t σ s s' ps i rq o input out :
  engine_ok e (concat (map rq_masks rs)) → impl_rel t σ s → store_inv (record_inv rs) σ →
  schedule_ok t sched s (map (serve e) rs) → run_schedule sched s (map (serve e) rs) = (s', ps) →
  rs !! i = Some rq → ps !! i = Some (Done o) → unmasked rq o = Some (input, out) →
  ∃ cs, claim_chain input 0 cs ∧ out = splice_text input 0 cs ∧
    Forall (λ c, ∃ rq' text a b, rq' ∈ rs ∧ rq_text rq' = Some text ∧ text = a ++ c_original c ++ b ∧
      may_read (rq_opt rq) (SystemID (rq_opt rq'))) cs.
Proof.
  intros He Hr Hinv Hok Hrun Hrq Ho Hun.
  destruct (requests_promise e rs sched t σ s s' ps He Hr Hinv Hok Hrun) as [_ Hans].
  destruct (promise_unmasked e (record_inv rs) rq o input out (Hans _ _ _ Hrq Ho) Hun) as [misses Hres].
  by eapply restored_own.
Qed.

Lemma unmask_reveals_own_witness :
  ∃ cs, "now +7 916!"%go = splice_text "now [PHONE_1]!" 0 cs :> bytes ∧
    Forall (λ c, ∃ rq text a b, rq ∈ demo_requests ∧ rq_text rq = Some text ∧ text = a ++ c_original c ++ b ∧
      may_read (demo_opt "crm") (SystemID (rq_opt rq))) cs.
Proof.
  destruct (@unmask_reveals_own _ _ _ _ _ demo_store demo_engine demo_requests demo_schedule 0 ∅ demo_memory
    demo_run.1 demo_run.2 2 (RUnmask "doc" "now [PHONE_1]!" (demo_opt "crm"))
    (Ret (AUnmask (MkUnmaskResult "now +7 916!" 0))) "now [PHONE_1]!" "now +7 916!") as (cs & _ & Hout & Hcs).
  - apply demo_engine_ok.
  - exact (demo_memory_rel 0).
  - exact (store_inv_empty _).
  - exact demo_schedule_ok.
  - exact (surjective_pairing demo_run).
  - reflexivity.
  - by vm_compute.
  - reflexivity.
  - exists cs. exact (conj Hout Hcs).
Defined.

(** ** Records of another system *)

(** C14: an id whose record belongs to another system, over any store: [UnmaskEx]
    answers as for an unknown id; [Process] answers with a fresh masking of its
    payload, exactly as it would mask it without any record, as long as the record
    lives; both leave the abstract store unchanged, so neither reads or extends the
    record. *)
Theorem foreign_is_hidden `{Unicode} `{SliceSort} `{Sha256} `{MapRange} `{StoreImpl} e id text opt t σ s rec x envs :
  impl_rel t σ s → σ !! impl_hash id = Some (rec, x) → ownsRecord rec opt = false →
  (∀ o s', alone_ok t envs (UnmaskEx id text opt) s → run_alone envs (UnmaskEx id text opt) s = Some (o, s') →
    (o = Err ErrNotFound ∨ ∃ er, o = Err (Err_store er)) ∧ rel_since (alone_end t envs) σ s') ∧
  (∀ o s', past x (alone_end t envs) = false → alone_ok t envs (Process e id text opt) s → run_alone envs (Process e id text opt) s = Some (o, s') →
    (o = maskFreshResult e text opt ∨ ∃ er, o = Err (Err_store er)) ∧ rel_since (alone_end t envs) σ s').
Proof.
  intros Hr Hk Hown. assert (rel_since t σ s) as Hrel by (exists t; split; [lia|done]). split.
  - intros o s' Hok Hrun. destruct (alone_exec t envs σ s _ o s' Hrel Hok Hrun) as (σ' & Hx & Hr').
    assert (σ' = σ ∧ (o = Err ErrNotFound ∨ ∃ er, o = Err (Err_store er))) as [-> Ho]; [|done].
    unfold UnmaskEx, ask in Hx. apply exec_ask_inv in Hx as (t2 & r & σ2 & Ht2 & [-> Hl]%load_inv & Hx).
    destruct Hl as [->|[er ->]].
    + unfold live in Hx. rewrite Hk in Hx. destruct (past x t2).
      * apply exec_done_inv in Hx as (_ & -> & ->). auto.
      * rewrite Hown in Hx. apply exec_done_inv in Hx as (_ & -> & ->). auto.
    + apply exec_done_inv in Hx as (_ & -> & ->). split; [done|]. right. by eexists.
  - intros o s' Hp Hok Hrun. destruct (alone_exec t envs σ s _ o s' Hrel Hok Hrun) as (σ' & Hx & Hr').
    destruct (Process_known_exec e impl_hash id text opt t σ _ σ' o rec x Hk Hp Hx) as [-> Ho].
    rewrite Hown in Ho. split; [tauto|done].
Qed.

(** The store after "crm" saved the demo payload, and its abstract state. *)
Definition demo_saved_rec : Record_ :=
  MkRecord [MkReplacement CatPhone "+7 916" "[PHONE_1]" 5 14] "token" 2 "call [PHONE_1] now"
    (hashText demo_payload) "crm".

Definition demo_saved : Memory := (Memory_Save (demo_env 2) "doc" demo_saved_rec 0 demo_memory).2.

Definition demo_saved_state : spec_state := put (hashID demo_key) 2 "doc" demo_saved_rec 0 ∅.

Lemma demo_saved_rel : Memory_rel demo_key 2 demo_saved_state demo_saved.
Proof.
  destruct (Memory_refines demo_key 2 ∅ demo_memory (demo_env 2) (CSave "doc" demo_saved_rec 0))
    as (σ' & Hc & Hr).
  - apply demo_memory_rel.
  - done.
  - apply demo_env_ok.
  - apply (bool_decide_unpack _). by vm_compute.
  - assert ((Memory_call (demo_env 2) (CSave "doc" demo_saved_rec 0) demo_memory).1 = Ret ()) as E
      by (vm_compute; reflexivity).
    rewrite E in Hc. by rewrite (save_inv _ _ _ _ _ _ _ Hc) in Hr.
Qed.

(** A run of an example, by its answer alone. *)
Lemma run_alone_answer `{StoreImpl} {A : Type} envs (p : prog A) s o :
  fst <$> run_alone envs p s = Some o → ∃ s', run_alone envs p s = Some (o, s').
Proof. destruct (run_alone envs p s) as [[o' s']|]; simpl; [intros [= ->]; by exists s'|done]. Qed.

Lemma foreign_is_hidden_witness :
  let o := Ret (MkProcessResult "call [PHONE_1]" (Some {[CatPhone := 1]}) false 0) in
  o = maskFreshResult demo_engine "call +7 916" (demo_opt "bank") ∨ ∃ er, o = Err (Err_store er).
Proof.
  intros o.
  destruct (@run_alone_answer _ demo_store _ [demo_env 4] (Process demo_engine "doc" "call +7 916" (demo_opt "bank"))
    demo_saved o) as [s' Hrun]; [vm_compute; reflexivity|].
  apply (@foreign_is_hidden _ _ _ _ _ demo_store demo_engine "doc" "call +7 916" (demo_opt "bank") 2
    demo_saved_state demo_saved demo_saved_rec None [demo_env 4] demo_saved_rel eq_refl
    ltac:(vm_compute; reflexivity)) with (s' := s').
  - reflexivity.
  - apply (bool_decide_unpack _). vm_compute. exact I.
  - exact Hrun.
Defined.

(** ** Round trips *)

Section Clients.
Context `{Unicode} `{SliceSort} `{Sha256} `{MapRange} (e : Engine).



End Clients.












(** ** Concurrent first writers *)




(** C35: [MaskEx] has no such protection: it loads, masks and saves unconditionally. Two
    systems mask under one new id, both are told that they succeeded, and the record of
    the first is replaced by the second's, so the first cannot unmask; and when [Load]
    fails for a moment, [MaskEx] overwrites a record of another system without any race. *)
Theorem MaskEx_overwrites :
  (∃ sched m1 m2, @schedule_ok _ demo_store _ 0 sched demo_memory
      [serve demo_engine (RMask "doc" demo_payload (demo_opt "crm"));
       serve demo_engine (RMask "doc" "+7 916" (demo_opt "bank"));
       serve demo_engine (RUnmask "doc" "call [PHONE_1] now" (demo_opt "crm"))] ∧
    (@run_schedule _ demo_store _ sched demo_memory
      [serve demo_engine (RMask "doc" demo_payload (demo_opt "crm"));
       serve demo_engine (RMask "doc" "+7 916" (demo_opt "bank"));
       serve demo_engine (RUnmask "doc" "call [PHONE_1] now" (demo_opt "crm"))]).2 =
    [Done (Ret (AMask m1)); Done (Ret (AMask m2)); Done (Err ErrNotFound)]) ∧
  (∀ h t σ rec ttl, σ !! h (go_bytes "doc") = Some (rec, ttl) → ownsRecord rec (demo_opt "bank") = false →
    ∃ rec' m, ownsRecord rec' (demo_opt "bank") = true ∧
      exec h t σ (MaskEx demo_engine "doc" "+7 916" (demo_opt "bank")) t (<[h (go_bytes "doc") := (rec', None)]> σ) (Ret m)).
Proof.
  split.
  - exists (zip [0; 1; 0; 0; 1; 1; 2]%nat (demo_env <$> [1; 2; 3; 4; 5; 6; 7])),
      (MkMaskResult "call [PHONE_1] now" (Some {[CatPhone := 1]})), (MkMaskResult "[PHONE_1]" (Some {[CatPhone := 1]})).
    split; [apply (bool_decide_unpack _); vm_compute; exact I|vm_compute; reflexivity].
  - intros h t σ rec ttl _ _.
    exists (MkRecord [MkReplacement CatPhone "+7 916" "[PHONE_1]" 0 9] "token" t "[PHONE_1]" (hashText "+7 916") "bank"),
      (MkMaskResult "[PHONE_1]" (Some {[CatPhone := 1]})).
    split; [by vm_compute|].
    assert (MaskEx demo_engine "doc" "+7 916" (demo_opt "bank") =
      Ask (CLoad "doc") (λ r, match r with
        | Panic => Done Panic
        | Ret (Some rec) => if negb (ownsRecord rec (demo_opt "bank")) then fail ErrForeignRecord
            else if bool_decide (rec_Hash rec = hashText "+7 916")
            then ret (MkMaskResult (rec_MaskedText rec) (Some (countsFromRec rec)))
            else if bool_decide (rec_MaskedText rec = "+7 916"%go) then fail ErrLooksLikeUnmask
            else maskWithRecord demo_engine "doc" "+7 916" (demo_opt "bank") (Some NewDocState) (Some rec)
        | Ret None | Err _ => maskWithRecord demo_engine "doc" "+7 916" (demo_opt "bank") (Some NewDocState) None
        end)) as -> by reflexivity.
    eapply exec_ask; [reflexivity|apply (spec_failed h t σ (CLoad _) Err_network)|].
    cbn beta match.
    apply (exec_now h t t); [reflexivity|].
    eapply exec_ask; [reflexivity|apply spec_save|]. apply exec_done. reflexivity.
Qed.
