(* ===== verification/Config.v ===== *)
(** * Package [config]: the service configuration

    Models [internal/config/config.go]. Reading and parsing the YAML file is library
    code; [Validate] and [SystemByID] work on the parsed value. Durations are in
    nanoseconds. *)

From S2P Require Import Prelude GoText Pii.

Definition StrategyPartial : bytes := "partial".
Definition StrategyFull : bytes := "full".
Definition StrategyToken : bytes := "token".
Definition StrategySynthetic : bytes := "synthetic".

Record Server := MkServer {
  Addr : bytes;
  ReadTimeout : Z;
  WriteTimeout : Z;
  MaxBodyBytes : Z;
  MaxInflight : Z;
  DefaultSystem : bytes;
  MetricsAddr : bytes
}.

Record Store := MkStore {
  Kind : bytes;
  RedisAddr : bytes;
  RedisPool : Z;
  RedisWait : Z;
  RedisTimeout : Z;
  st_TTL : Z;
  EncryptionKeyEnv : bytes
}.

Record LLM := MkLLM {
  BaseURL : bytes;
  llm_APIKeyEnv : bytes;
  llm_Model : bytes;
  llm_Timeout : Z
}.

Record Logging := MkLogging { Level : bytes; Format : bytes }.

Record ComboRule := MkComboRule { rule_Category : Category; rule_RequiresAny : list Category }.

Record System := MkSystem {
  ID : bytes;
  Enabled : bool;
  APIKey : bytes;
  APIKeyEnv : bytes;
  sys_Categories : list Category;
  sys_Strategy : bytes;
  sys_Unmask : bool;
  AllowStrategyOverride : bool;
  sys_ComboRules : list ComboRule
}.

Record Config := MkConfig {
  cfg_Server : Server;
  cfg_Store : Store;
  cfg_LLM : LLM;
  cfg_Logging : Logging;
  Systems : list System
}.

Definition validStrategies : gset bytes :=
  list_to_set [StrategyPartial; StrategyFull; StrategyToken; StrategySynthetic].

Definition ValidStrategy (name : bytes) : bool := bool_decide (name ∈ validStrategies).

Definition validCategories : gset Category :=
  list_to_set
    [CatFullName; CatBirthDate; CatBirthPlace; CatPassport; CatCitizenship; CatPassportIssuer;
     CatDivisionCode; CatPassportDate; CatDriverLicense; CatAddress; CatEmail; CatPhone; CatINN;
     CatCardNumber; CatCVV; CatPIN; CatCardHolder; CatSNILS; CatForeignPassport; CatIDDocument; CatDate].

Inductive config_error :=
| Err_addr | Err_max_inflight | Err_store_kind (k : bytes) | Err_redis_addr | Err_base_url | Err_model
| Err_system_id | Err_duplicate (id : bytes)
| Err_strategy (id s : bytes) | Err_category (id : bytes) (c : Category)
| Err_rule_category (id : bytes) (c : Category) | Err_rule_requires (id : bytes) (c : Category).

(** [for _, x := range l { if err := f(x); err != nil { return err } }] *)
Fixpoint each {A : Type} (f : A → outcome config_error unit) (l : list A) : outcome config_error unit :=
  match l with
  | [] => Ret ()
  | x :: l => match f x with Ret _ => each f l | r => r end
  end.

(** [if bad { return err }] *)
Definition reject (bad : bool) (e : config_error) : outcome config_error unit := if bad then Err e else Ret ().

Definition is_empty (s : bytes) : bool := bool_decide (s = []).

Definition validateBasics (c : Config) : outcome config_error unit :=
  let kind := Kind (cfg_Store c) in
  _ ← reject (is_empty (Addr (cfg_Server c))) Err_addr;
  _ ← reject (MaxInflight (cfg_Server c) <=? 0) Err_max_inflight;
  _ ← reject (negb (bool_decide (kind = go_bytes "memory")) && negb (bool_decide (kind = go_bytes "redis")))
        (Err_store_kind kind);
  _ ← reject (bool_decide (kind = go_bytes "redis") && is_empty (RedisAddr (cfg_Store c))) Err_redis_addr;
  _ ← reject (is_empty (BaseURL (cfg_LLM c))) Err_base_url;
  reject (is_empty (llm_Model (cfg_LLM c))) Err_model.

Definition unknown (cat : Category) : bool := negb (bool_decide (cat ∈ validCategories)).

Definition validateComboRule (id : bytes) (r : ComboRule) : outcome config_error unit :=
  _ ← reject (unknown (rule_Category r)) (Err_rule_category id (rule_Category r));
  each (λ req, reject (unknown req) (Err_rule_requires id req)) (rule_RequiresAny r).

Definition validateSystem (s : System) : outcome config_error unit :=
  _ ← reject (negb (is_empty (sys_Strategy s)) && negb (ValidStrategy (sys_Strategy s)))
        (Err_strategy (ID s) (sys_Strategy s));
  _ ← each (λ cat, reject (unknown cat) (Err_category (ID s) cat)) (sys_Categories s);
  each (validateComboRule (ID s)) (sys_ComboRules s).

(** The loop of [Validate]; [seen] is the map of the ids seen. *)
Fixpoint validateSystems (seen : gset bytes) (ss : list System) : outcome config_error unit :=
  match ss with
  | [] => Ret ()
  | s :: ss =>
      _ ← reject (is_empty (ID s)) Err_system_id;
      _ ← reject (bool_decide (ID s ∈ seen)) (Err_duplicate (ID s));
      _ ← validateSystem s;
      validateSystems ({[ID s]} ∪ seen) ss
  end.

Definition Validate (c : Config) : outcome config_error unit :=
  _ ← validateBasics c;
  validateSystems ∅ (Systems c).

Fixpoint system_by_id (ss : list System) (id : bytes) : option System :=
  match ss with
  | [] => None
  | s :: ss => if bool_decide (ID s = id) then Some s else system_by_id ss id
  end.

Definition SystemByID (c : Config) (id : bytes) : option System := system_by_id (Systems c) id.

(** ** What is a valid configuration *)

Definition valid_rule (r : ComboRule) : Prop :=
  rule_Category r ∈ all_categories ∧ Forall (λ c, c ∈ all_categories) (rule_RequiresAny r).

Definition valid_system (s : System) : Prop :=
  ID s ≠ [] ∧
  (sys_Strategy s = [] ∨ sys_Strategy s ∈ [StrategyPartial; StrategyFull; StrategyToken; StrategySynthetic]) ∧
  Forall (λ c, c ∈ all_categories) (sys_Categories s) ∧
  Forall valid_rule (sys_ComboRules s).

Record valid_config (c : Config) : Prop := {
  vc_addr : Addr (cfg_Server c) ≠ [];
  vc_inflight : 0 < MaxInflight (cfg_Server c);
  vc_store : Kind (cfg_Store c) = "memory"%go ∨
             Kind (cfg_Store c) = "redis"%go ∧ RedisAddr (cfg_Store c) ≠ [];
  vc_llm : BaseURL (cfg_LLM c) ≠ [] ∧ llm_Model (cfg_LLM c) ≠ [];
  vc_ids : NoDup (map ID (Systems c));
  vc_systems : Forall valid_system (Systems c)
}.

(** ** Facts *)

Lemma reject_ok bad e : reject bad e = Ret () ↔ bad = false.
Proof. by destruct bad. Qed.

(** The value of a computation that returns nothing. *)
Lemma then_ok (m : outcome config_error unit) (k : outcome config_error unit) :
  (_ ← m; k) = Ret () ↔ m = Ret () ∧ k = Ret ().
Proof. destruct m as [[]| |]; naive_solver. Qed.

Lemma is_empty_false s : is_empty s = false ↔ s ≠ [].
Proof. apply bool_decide_eq_false. Qed.

Lemma unknown_false c : unknown c = false ↔ c ∈ all_categories.
Proof.
  unfold unknown, validCategories. rewrite negb_false_iff, bool_decide_eq_true, elem_of_list_to_set. done.
Qed.

Lemma ValidStrategy_true s :
  ValidStrategy s = true ↔ s ∈ [StrategyPartial; StrategyFull; StrategyToken; StrategySynthetic].
Proof. unfold ValidStrategy, validStrategies. by rewrite bool_decide_eq_true, elem_of_list_to_set. Qed.

Lemma each_ok {A : Type} (f : A → outcome config_error unit) (P : A → Prop) l :
  (∀ x, f x = Ret () ↔ P x) → (each f l = Ret () ↔ Forall P l).
Proof.
  intros Hf. induction l as [|x l IH]; simpl; [done|]. rewrite Forall_cons, <- Hf, <- IH.
  destruct (f x) as [[]| |]; naive_solver.
Qed.

Lemma validateComboRule_ok id r : validateComboRule id r = Ret () ↔ valid_rule r.
Proof.
  unfold validateComboRule, valid_rule. rewrite then_ok, reject_ok, unknown_false.
  rewrite (each_ok _ (λ c, c ∈ all_categories)); [done|]. intros c. by rewrite reject_ok, unknown_false.
Qed.

Lemma validateSystem_ok s : ID s ≠ [] → (validateSystem s = Ret () ↔ valid_system s).
Proof.
  intros Hid. unfold validateSystem, valid_system. rewrite !then_ok, reject_ok.
  rewrite (each_ok _ (λ c, c ∈ all_categories)) by (intros c; by rewrite reject_ok, unknown_false).
  rewrite (each_ok _ valid_rule) by apply validateComboRule_ok.
  rewrite andb_false_iff, !negb_false_iff, ValidStrategy_true. unfold is_empty. rewrite bool_decide_eq_true. tauto.
Qed.

Lemma validateSystems_ok seen ss :
  validateSystems seen ss = Ret () ↔
  NoDup (map ID ss) ∧ Forall (λ s, ID s ∉ seen) ss ∧ Forall valid_system ss.
Proof.
  revert seen. induction ss as [|s ss IH]; intros seen; simpl.
  { split; [|done]. intros _. split_and!; constructor. }
  rewrite !then_ok, !reject_ok, is_empty_false, bool_decide_eq_false, IH, NoDup_cons, !Forall_cons.
  assert ((Forall (λ s', ID s' ∉ {[ID s]} ∪ seen) ss) ↔ (ID s ∉ map ID ss) ∧ Forall (λ s', ID s' ∉ seen) ss) as ->.
  { rewrite !Forall_forall, list_elem_of_fmap. set_solver. }
  assert (ID s ≠ [] → (validateSystem s = Ret () ↔ valid_system s)) by apply validateSystem_ok.
  assert (valid_system s → ID s ≠ []) by (unfold valid_system; tauto). tauto.
Qed.

Lemma validateBasics_ok c :
  validateBasics c = Ret () ↔
  Addr (cfg_Server c) ≠ [] ∧ 0 < MaxInflight (cfg_Server c) ∧
  (Kind (cfg_Store c) = "memory"%go ∨ Kind (cfg_Store c) = "redis"%go ∧ RedisAddr (cfg_Store c) ≠ []) ∧
  BaseURL (cfg_LLM c) ≠ [] ∧ llm_Model (cfg_LLM c) ≠ [].
Proof.
  unfold validateBasics. rewrite !then_ok, !reject_ok, !is_empty_false, Z.leb_gt.
  rewrite !andb_false_iff, !negb_false_iff, is_empty_false, !bool_decide_eq_true, bool_decide_eq_false.
  assert (Kind (cfg_Store c) = "memory"%go → Kind (cfg_Store c) ≠ "redis"%go) by (intros ->; discriminate). tauto.
Qed.

Lemma system_by_id_Some ss id s : system_by_id ss id = Some s → s ∈ ss ∧ ID s = id.
Proof.
  induction ss as [|x ss IH]; simpl; [done|]. case_bool_decide.
  - intros [= ->]. split; [left|done].
  - intros [? ?]%IH. split; [by right|done].
Qed.

Lemma system_by_id_unique ss s : NoDup (map ID ss) → s ∈ ss → system_by_id ss (ID s) = Some s.
Proof.
  induction ss as [|x ss IH]; simpl; [by intros _ ?%elem_of_nil|]. intros [Hx Hnd]%NoDup_cons [->|Hs]%elem_of_cons.
  - by rewrite bool_decide_eq_true_2.
  - rewrite bool_decide_eq_false_2; [by apply IH|]. intros E. apply Hx. rewrite E.
    by apply list_elem_of_fmap_2.
Qed.

Lemma system_by_id_None ss id : system_by_id ss id = None ↔ ¬ ∃ s, s ∈ ss ∧ ID s = id.
Proof.
  induction ss as [|x ss IH]; simpl.
  - split; [|done]. intros _ (s & Hs & _). by apply elem_of_nil in Hs.
  - case_bool_decide as E.
    + split; [done|]. intros Hn. exfalso. apply Hn. exists x. split; [left|done].
    + rewrite IH. apply not_iff_compat. set_solver.
Qed.

Lemma Validate_valid c : Validate c = Ret () ↔ valid_config c.
Proof.
  unfold Validate. rewrite then_ok, validateBasics_ok, validateSystems_ok. split.
  - intros ((?&?&?&?&?)&?&?&?). by split.
  - intros [? ? ? [? ?] ? Hs]. split_and!; try done. apply Forall_forall. intros s _. set_solver.
Qed.

(** ** Properties *)

(** C25: [Validate] accepts exactly the valid configurations, and in those
    [SystemByID] finds every configured system under its id and nothing else. *)
Theorem Validate_exact c :
  (Validate c = Ret () ↔ valid_config c) ∧
  (Validate c = Ret () → ∀ id s, SystemByID c id = Some s ↔ s ∈ Systems c ∧ ID s = id).
Proof.
  split; [apply Validate_valid|]. intros [_ _ _ _ Hnd _]%Validate_valid id s. unfold SystemByID. split; [apply system_by_id_Some|].
  intros [Hs <-]. by apply system_by_id_unique.
Qed.
