(* ===== verification/Http.v ===== *)
(** * Package [httpapi]: authentication and the masking handlers

    Models [internal/httpapi/auth.go], [system.go], [reqinfo.go], [handlers.go] and the
    request path of [server.go]. A handler is a program over the store that ends in a
    reply: the status, the JSON body and the fields for the request log. [None] is a
    panic, which [net/http] turns into a closed connection. The JSON decoder, the
    random source and the process environment are arguments; latencies, the log
    output and the metric registry are left out. *)

From S2P Require Import Prelude GoText Pii Mask Pipeline Crypto Store Chunk Engine Config.

(** ** Replies *)

Definition StatusOK : Z := 200.
Definition StatusBadRequest : Z := 400.
Definition StatusUnauthorized : Z := 401.
Definition StatusForbidden : Z := 403.
Definition StatusNotFound : Z := 404.
Definition StatusConflict : Z := 409.
Definition StatusRequestEntityTooLarge : Z := 413.
Definition StatusTooManyRequests : Z := 429.
Definition StatusInternalServerError : Z := 500.
Definition StatusBadGateway : Z := 502.
Definition StatusServiceUnavailable : Z := 503.
Definition StatusGatewayTimeout : Z := 504.

Inductive direction := dirNone | dirMask | dirUnmask | dirProxy.

(** [stages] is left out. *)
Record reqInfo := MkReqInfo {
  ri_payloadID : bytes;
  ri_direction : direction;
  ri_textLen : Z;
  ri_found : option counter;
  ri_misses : Z;
  ri_tokens : Z
}.

Definition no_info : reqInfo := MkReqInfo [] dirNone 0 None 0 0.

Record processResponse := MkProcessResponse { Result_ : bytes }.

Record maskResponse := MkMaskResponse {
  mr_ID : bytes;
  mr_Masked : bytes;
  mr_Found : counter;
  mr_Strategy : bytes
}.

Record unmaskResponse := MkUnmaskResponse { ur_Text : bytes; ur_Misses : Z }.

Record usage := MkUsage { PromptTokens : Z; CompletionTokens : Z; TotalTokens : Z }.

Record pdnInfo := MkPdnInfo {
  MaskedRequest : bytes;
  RawAnswer : bytes;
  MaskedCount : Z;
  pdn_Unmasked : bool
}.

(** The response of [/v1/chat/completions]: the one choice, the usage and the masking
    metadata. *)
Record chatResponse := MkChatResponse {
  cr_Model : bytes;
  cr_Content : bytes;
  cr_Usage : usage;
  cr_PDN : option pdnInfo
}.

Inductive reply_body :=
| Error (msg : bytes)
| ProcessBody (r : processResponse)
| MaskBody (r : maskResponse)
| UnmaskBody (r : unmaskResponse)
| ChatBody (r : chatResponse)
| HealthBody (status_ : bytes) (store : bytes) (store_ok : bool).

Record reply := MkReply { status : Z; body_ : reply_body; info : reqInfo }.

Definition writeError (st : Z) (msg : bytes) (i : reqInfo) : option reply := Some (MkReply st (Error msg) i).

Definition storeUnavailable (i : reqInfo) : option reply :=
  writeError StatusServiceUnavailable "store unavailable" i.

(** [err] is not nil. *)
Definition isStoreError (err : engine_error) : bool :=
  match err with ErrNotFound => false | _ => true end.

(** ** Reading a body

    What [Decode] and the following [Token] of the JSON decoder give. *)

Inductive decoded (A : Type) :=
| Decoded (a : A)
| TooLarge
| Malformed.
Arguments Decoded {A} a.
Arguments TooLarge {A}.
Arguments Malformed {A}.

Record json_body (A : Type) := MkBody { bd_value : decoded A; bd_trailing : bool }.
Arguments MkBody {A} bd_value bd_trailing.
Arguments bd_value {A} _.
Arguments bd_trailing {A} _.

Definition readJSON {A : Type} (b : json_body A) : A + option reply :=
  match bd_value b with
  | TooLarge => inr (writeError StatusRequestEntityTooLarge "request body too large" no_info)
  | Malformed => inr (writeError StatusBadRequest "invalid json" no_info)
  | Decoded a =>
      if bd_trailing b then inr (writeError StatusBadRequest "trailing data after JSON body" no_info)
      else inl a
  end.

(** ** server.go *)

Record Server := MkServer { srv_cfg : Config; srv_engine : Engine }.

Inductive route := routeProcess | routeMask | routeUnmask | routeChat | routeHealthz | routeReadyz.

#[export] Instance route_eq_dec : EqDecision route.
Proof. solve_decision. Defined.

Definition maxPayloadIDBytes : Z := 256.

Definition validPayloadID (id : bytes) : bool := len id <=? maxPayloadIDBytes.

(** [sem] is a channel of [MaxInflight] slots; the state is the number of slots taken. *)
Definition acquireSlot (s : Server) (taken : Z) : option Z :=
  if taken <? MaxInflight (cfg_Server (srv_cfg s)) then Some (taken + 1) else None.

Definition release (taken : Z) : Z := taken - 1.

(** metrics.go *)
Definition EstimateTokens (text : bytes) : Z :=
  let runes := Z.of_nat (length (runes text)) in
  if runes =? 0 then 0 else runes / 3 + 1.

(** ** auth.go *)

(** The values of the headers [X-System-Id] and [X-API-Key]. *)
Record headers := MkHeaders { h_system : bytes; h_key : bytes }.

(** [authResult]: a system, or the status to return. *)
Inductive authResult := Authenticated (sys : System) | Denied (st : Z).

Definition expectedKey (getenv : bytes → bytes) (sys : System) : option bytes :=
  if negb (is_empty (APIKeyEnv sys)) then
    let v := getenv (APIKeyEnv sys) in
    if is_empty v then None else Some v
  else Some (APIKey sys).

(** [subtle.ConstantTimeCompare] decides equality. *)
Definition constantTimeEqual (a b : bytes) : bool :=
  if negb (len a =? len b) then false else bool_decide (a = b).

Definition authenticate (s : Server) (getenv : bytes → bytes) (h : headers) (r : route) : authResult :=
  let default := DefaultSystem (cfg_Server (srv_cfg s)) in
  let allowDefault := bool_decide (r = routeProcess) in
  let sysID := if is_empty (h_system h) && allowDefault && negb (is_empty default) then default else h_system h in
  if is_empty sysID then Denied StatusForbidden
  else
    match SystemByID (srv_cfg s) sysID with
    | None => Denied StatusForbidden
    | Some sys =>
        if negb (Enabled sys) then Denied StatusForbidden
        else
          match expectedKey getenv sys with
          | None => Denied StatusUnauthorized
          | Some expected =>
              if is_empty expected then
                if negb (bool_decide (r = routeProcess)) then Denied StatusForbidden else Authenticated sys
              else if negb (constantTimeEqual expected (h_key h)) then Denied StatusUnauthorized
              else Authenticated sys
          end
    end.

(** ** system.go *)

Definition engine_rule (r : Config.ComboRule) : Chunk.ComboRule :=
  Chunk.MkComboRule (rule_Category r) (rule_RequiresAny r).

Definition optionsFor (s : Server) (sys : System) : Options :=
  MkOptions (sys_Categories sys)
    (if is_empty (sys_Strategy sys) then StrategyPartial else sys_Strategy sys)
    (st_TTL (cfg_Store (srv_cfg s)))
    (map engine_rule (sys_ComboRules sys))
    (sys_Unmask sys) (ID sys) (DefaultSystem (cfg_Server (srv_cfg s))).

Definition set_strategy (opt : Options) (strategy : bytes) : Options :=
  MkOptions (Categories opt) strategy (TTL opt) (ComboRules opt) (Unmask_allowed opt) (SystemID opt)
    (DefaultSystemID opt).

Definition strategyOverride (sys : System) (override : bytes) : bytes + Z :=
  if is_empty override then inl (sys_Strategy sys)
  else if negb (AllowStrategyOverride sys) then inr StatusForbidden
  else if negb (ValidStrategy override) then inr StatusBadRequest
  else inl override.

(** The system of a request that did not go through [wrap]. *)
Definition resolveSystem (s : Server) (h : headers) : System :=
  let sysID := if is_empty (h_system h) then DefaultSystem (cfg_Server (srv_cfg s)) else h_system h in
  match SystemByID (srv_cfg s) sysID with
  | Some sys => sys
  | None =>
      match List.find Enabled (Systems (srv_cfg s)) with
      | Some sys => sys
      | None => MkSystem [] false [] [] [] StrategyPartial true false []
      end
  end.

(** ** handlers.go *)

(** [newUUID], on the 16 bytes of [rand.Read]. *)
Definition newUUID (rand_read : option bytes) : option bytes :=
  b ← rand_read;
  let at_ i := byte_val (nth i b "000"%byte) in
  let b := <[6%nat := byte_of (Z.lor (Z.land (at_ 6%nat) 0x0f) 0x40)]> b in
  let b := <[8%nat := byte_of (Z.lor (Z.land (at_ 8%nat) 0x3f) 0x80)]> b in
  let part i j := hex_encode (slice b i j) in
  Some (part 0 4 ++ go_bytes "-" ++ part 4 6 ++ go_bytes "-" ++ part 6 8 ++ go_bytes "-" ++
        part 8 10 ++ go_bytes "-" ++ part 10 16).

(** [Payload] is a pointer: [None] is an absent field. *)
Record processRequest := MkProcessRequest { Payload : option bytes; PayloadID : bytes }.
Record maskRequest := MkMaskRequest { mq_Text : bytes; mq_ID : bytes; mq_Strategy : bytes }.
Record unmaskRequest := MkUnmaskRequest { uq_ID : bytes; uq_Text : bytes }.

Section Handlers.
Context `{Unicode} `{SliceSort} `{Sha256} `{MapRange} (s : Server).

Definition handleProcessError (err : engine_error) (i : reqInfo) : option reply :=
  if isStoreError err then storeUnavailable i
  else writeError StatusInternalServerError "processing failed" i.

Definition recordProcessInfo (i : reqInfo) (res : ProcessResult) : reqInfo :=
  if p_Unmasked res
  then MkReqInfo (ri_payloadID i) dirUnmask (ri_textLen i) (ri_found i) (p_Misses res) (ri_tokens i)
  else MkReqInfo (ri_payloadID i) dirMask (ri_textLen i) (p_Found res) (ri_misses i) (ri_tokens i).

Definition handleProcess (sys : System) (b : json_body processRequest) : prog (option reply) :=
  match readJSON b with
  | inr e => Done e
  | inl req =>
      match Payload req with
      | None => Done (writeError StatusBadRequest "payload is required" no_info)
      | Some payload =>
          if is_empty (PayloadID req) then Done (writeError StatusBadRequest "payload_id is required" no_info)
          else if negb (validPayloadID (PayloadID req))
          then Done (writeError StatusBadRequest "payload_id too long" no_info)
          else
            let i := MkReqInfo (PayloadID req) dirNone (len payload) None 0 (EstimateTokens payload) in
            res ← Process (srv_engine s) (PayloadID req) payload (optionsFor s sys);
            Done match res with
                 | Ret r => Some (MkReply StatusOK (ProcessBody (MkProcessResponse (p_Result r))) (recordProcessInfo i r))
                 | Err err => handleProcessError err i
                 | Panic => None
                 end
      end
  end.

Definition resolveMaskID (rand_read : option bytes) (id : bytes) : option bytes :=
  if negb (is_empty id) then Some id else newUUID rand_read.

Definition writeStrategyError (st : Z) : option reply :=
  if st =? StatusForbidden then writeError st "strategy override not allowed" no_info
  else writeError st "unknown strategy" no_info.

Definition handleMaskError (err : engine_error) : option reply :=
  match err with
  | ErrForeignRecord => writeError StatusConflict "id already in use" no_info
  | _ => if isStoreError err then storeUnavailable no_info
         else writeError StatusInternalServerError "masking failed" no_info
  end.

Definition handleMask (rand_read : option bytes) (sys : System) (b : json_body maskRequest) : prog (option reply) :=
  match readJSON b with
  | inr e => Done e
  | inl req =>
      if is_empty (mq_Text req) then Done (writeError StatusBadRequest "text is required" no_info)
      else if negb (validPayloadID (mq_ID req)) then Done (writeError StatusBadRequest "id too long" no_info)
      else
        match resolveMaskID rand_read (mq_ID req) with
        | None => Done (writeError StatusInternalServerError "id generation failed" no_info)
        | Some id =>
            match strategyOverride sys (mq_Strategy req) with
            | inr st => Done (writeStrategyError st)
            | inl strategy =>
                res ← MaskEx (srv_engine s) id (mq_Text req) (set_strategy (optionsFor s sys) strategy);
                Done match res with
                     | Ret m =>
                         Some (MkReply StatusOK
                                 (MaskBody (MkMaskResponse id (Masked m) (default ∅ (Found m)) strategy))
                                 (MkReqInfo id dirMask (len (mq_Text req)) (Found m) 0 (EstimateTokens (mq_Text req))))
                     | Err err => handleMaskError err
                     | Panic => None
                     end
            end
        end
  end.

Definition handleUnmask (sys : System) (b : json_body unmaskRequest) : prog (option reply) :=
  if negb (sys_Unmask sys)
  then Done (writeError StatusForbidden "unmask not allowed for this system" no_info)
  else
    match readJSON b with
    | inr e => Done e
    | inl req =>
        if is_empty (uq_ID req) || is_empty (uq_Text req)
        then Done (writeError StatusBadRequest "id and text are required" no_info)
        else if negb (validPayloadID (uq_ID req)) then Done (writeError StatusBadRequest "id too long" no_info)
        else
          res ← UnmaskEx (uq_ID req) (uq_Text req) (optionsFor s sys);
          Done match res with
               | Ret u =>
                   Some (MkReply StatusOK (UnmaskBody (MkUnmaskResponse (Restored u) (Misses u)))
                           (MkReqInfo (uq_ID req) dirUnmask (len (uq_Text req)) None (Misses u)
                              (EstimateTokens (uq_Text req))))
               | Err err => if isStoreError err then storeUnavailable no_info
                            else writeError StatusNotFound "record not found" no_info
               | Panic => None
               end
    end.

Definition handleHealthz : option reply :=
  Some (MkReply StatusOK (HealthBody "ok" (Kind (cfg_Store (srv_cfg s))) true) no_info).

(** [ping_ok]: [store.Ping] returned no error. *)
Definition handleReadyz (ping_ok : bool) : option reply :=
  if negb ping_ok
  then Some (MkReply StatusServiceUnavailable (HealthBody "unavailable" (Kind (cfg_Store (srv_cfg s))) false) no_info)
  else Some (MkReply StatusOK (HealthBody "ok" (Kind (cfg_Store (srv_cfg s))) true) no_info).
End Handlers.

(** ** Facts *)

(** What [readJSON] writes itself is an error. *)
Lemma readJSON_error {A : Type} (b : json_body A) e :
  readJSON b = inr e → ∃ st msg, e = writeError st msg no_info.
Proof.
  unfold readJSON. destruct (bd_value b); [destruct (bd_trailing b)| |]; intros [= <-]; by eexists _, _.
Qed.
