(* ===== verification/Chat.v ===== *)
(** * Package [httpapi]: the chat proxy

    Models [internal/httpapi/chat.go] and [internal/httpapi/llm.go]. The upstream model
    is an arbitrary function from the request it is sent to what comes back over HTTP;
    the JSON decoding of a stream chunk is a parameter. The handler returns, besides
    its reply, the request it sent upstream. *)

From S2P Require Import Prelude GoText Pii Mask Pipeline Crypto Store Chunk Engine Config Http.

(** ** llm.go *)

Record chatMessage := MkChatMessage { Role : bytes; Content : bytes }.

Record chatRequest := MkChatRequest { cq_Model : bytes; Messages : list chatMessage; Stream : bool }.

Record sseChoice := MkChoice { DeltaContent : bytes; FinishReason : option bytes }.

Record sseChunk := MkSseChunk { Choices : list sseChoice; ch_Usage : option usage }.

(** [json.Unmarshal] into an [sseChunk]; [None] is its error. *)
Class ChunkJson := json_chunk : bytes → option sseChunk.

(** What the transport gives: an error, or a status and a body that may end in a read
    error. A flag says that the deadline was exceeded. *)
Inductive upstream_result :=
| Up_error (timeout : bool)
| Up_response (st : Z) (stream : bytes) (read_error : option bool).

Inductive llm_error :=
| Err_transport (timeout : bool)
| Err_llm_status (st : Z)
| Err_line_too_long
| errStreamNotTerminated.

(** *** [bufio.Scanner] with the buffer limit [readSSE] sets *)

Definition maxTokenSize : Z := 1024 * 1024.

Inductive token := Token (line rest : bytes) | NoToken | TokenTooLong.

(** [bufio.ScanLines]: a line without its end. *)
Definition drop_cr (line : bytes) : bytes :=
  match last line with
  | Some b => if byte_val b =? 0x0D then take (length line - 1) line else line
  | None => line
  end.

Definition next_token (rest : bytes) : token :=
  match index_opt rest [newline] with
  | Some i => if i <? maxTokenSize
              then Token (drop_cr (take (Z.to_nat i) rest)) (drop (Z.to_nat i + 1) rest) else TokenTooLong
  | None => if is_empty rest then NoToken
            else if len rest <? maxTokenSize then Token (drop_cr rest) [] else TokenTooLong
  end.

Definition zero_usage : usage := MkUsage 0 0 0.

(** [content], [usage] and [sawDone]. *)
Record sse_state := MkSse { sse_content : bytes; sse_usage : usage; sse_done : bool }.

Section SSE.
Context `{Unicode} `{ChunkJson}.

Definition sse_choice (st : sse_state) (ch : sseChoice) : sse_state :=
  MkSse (sse_content st ++ DeltaContent ch) (sse_usage st)
    (match FinishReason ch with Some r => if negb (is_empty r) then true else sse_done st | None => sse_done st end).

Definition sse_chunk (st : sse_state) (chunk : sseChunk) : sse_state :=
  let st := foldl sse_choice st (Choices chunk) in
  match ch_Usage chunk with
  | Some u => MkSse (sse_content st) u (sse_done st)
  | None => st
  end.

(** The body of the loop; [inr] leaves it. *)
Definition sse_line (st : sse_state) (line : bytes) : sse_state + sse_state :=
  if negb (has_prefix line "data:") then inl st
  else
    let data := trim_space (drop 5 line) in
    if bool_decide (data = go_bytes "[DONE]") then inr (MkSse (sse_content st) (sse_usage st) true)
    else match json_chunk data with
         | None => inl st
         | Some chunk => inl (sse_chunk st chunk)
         end.

(** [for scanner.Scan()]: the state it ends in and [scanner.Err()]. The reader reports an
    error once its data is used up. *)
Fixpoint sse_loop (fuel : nat) (st : sse_state) (rest : bytes) (read_error : option bool)
    : option (sse_state * option llm_error) :=
  match fuel with
  | O => None
  | S fuel =>
      match next_token rest with
      | NoToken => Some (st, Err_transport <$> read_error)
      | TokenTooLong => Some (st, Some Err_line_too_long)
      | Token line rest =>
          match sse_line st line with
          | inr st => Some (st, None)
          | inl st => sse_loop fuel st rest read_error
          end
      end
  end.

(** Every line takes at least one byte. *)
Definition readSSE (stream : bytes) (read_error : option bool) : outcome llm_error (bytes * usage) :=
  match sse_loop (S (length stream)) (MkSse [] zero_usage false) stream read_error with
  | None => Panic
  | Some (_, Some e) => Err e
  | Some (st, None) => if negb (sse_done st) then Err errStreamNotTerminated else Ret (sse_content st, sse_usage st)
  end.

(** The client: [upstream] is the exchange over HTTP, [None] when it never ends - no
    response, or a body without an end. The [Timeout] of an [http.Client] limits a whole
    exchange, the reading of the body included, when it is positive; then the exchange
    ends at the latest with a timeout error. *)
Record LLMClient := MkLLMClient {
  model : bytes;
  timeout : Z;
  upstream : chatRequest → option upstream_result;
  timeout_ends : ∀ req, upstream req = None → timeout <= 0
}.

Definition completion (c : LLMClient) (answer : upstream_result) : outcome llm_error (bytes * chatResponse) :=
  match answer with
  | Up_error timeout => Err (Err_transport timeout)
  | Up_response st stream read_error =>
      if (500 <=? st) || (st =? StatusTooManyRequests) then Err (Err_llm_status st)
      else if negb (st =? StatusOK) then Err (Err_llm_status st)
      else
        match readSSE stream read_error with
        | Ret (content, u) => Ret (content, MkChatResponse (model c) content u None)
        | Err e => Err e
        | Panic => Panic
        end
  end.

(** The request that is sent, and the outcome; [None]: the call does not return. *)
Definition chatCompletion (c : LLMClient) (req : chatRequest)
    : chatRequest * option (outcome llm_error (bytes * chatResponse)) :=
  let req := MkChatRequest (model c) (Messages req) true in
  (req, completion c <$> upstream c req).
End SSE.

(** ** chat.go *)

Record chatRequestIn := MkChatRequestIn {
  ci_Model : bytes;
  ci_Messages : list chatMessage;
  ci_Stream : bool;
  ci_Strategy : bytes
}.

Definition allowedRoles : gset bytes :=
  list_to_set [go_bytes "system"; go_bytes "user"; go_bytes "assistant"; go_bytes "tool"].

Definition messagesHaveValidRoles (messages : list chatMessage) : bool :=
  forallb (λ m, bool_decide (Role m ∈ allowedRoles)) messages.

Definition estimateTokens (messages : list chatMessage) : Z :=
  foldl (λ n m, n + EstimateTokens (Content m)) 0 messages.

Definition isUpstreamTimeout (err : llm_error) : bool :=
  match err with Err_transport timeout => timeout | _ => false end.

(** The body of the reply is the error text; its detail is left out. *)
Definition handleLLMError (err : llm_error) (i : reqInfo) : option reply :=
  if isUpstreamTimeout err then writeError StatusGatewayTimeout "llm timeout" i
  else writeError StatusBadGateway "llm unavailable" i.

Definition countFound (m : counter) : Z := map_fold (λ _ v n, n + v) 0 m.

(** The last message of the user, from the end. *)
Definition lastUserContent (messages : list chatMessage) : bytes :=
  match List.find (λ m, bool_decide (Role m = go_bytes "user")) (rev messages) with
  | Some m => Content m
  | None => []
  end.

(** [maskedMessages[i] = chatMessage{m.Role, mbres.Masked[i]}]; indexing may panic. *)
Fixpoint with_contents (messages : list chatMessage) (masked : list bytes) : option (list chatMessage) :=
  match messages with
  | [] => Some []
  | m :: messages =>
      match masked with
      | [] => None
      | c :: masked => rest ← with_contents messages masked; Some (MkChatMessage (Role m) c :: rest)
      end
  end.

Section Chat.
Context `{Unicode} `{SliceSort} `{Sha256} `{MapRange} `{ChunkJson} (s : Server) (c : LLMClient).

(** [inl]: the handler goes on with the id, the masked messages, the counts and the
    length of the texts. *)
Definition maskMessages (rand_read : option bytes) (req : chatRequestIn) (opt : Options)
    : prog (bytes * list chatMessage * counter * Z + option reply) :=
  match newUUID rand_read with
  | None => Done (inr (writeError StatusInternalServerError "id generation failed" no_info))
  | Some id =>
      let texts := map Content (ci_Messages req) in
      res ← MaskBatchEx (srv_engine s) id texts opt;
      Done match res with
           | Panic => inr None
           | Err err =>
               if isStoreError err then inr (storeUnavailable no_info)
               else inr match err with
                        | ErrForeignRecord => writeError StatusConflict "id already in use" no_info
                        | _ => writeError StatusInternalServerError "masking failed" no_info
                        end
           | Ret mbres =>
               match with_contents (ci_Messages req) (b_Masked mbres) with
               | None => inr None
               | Some maskedMessages =>
                   inl (id, maskedMessages, b_Found mbres, foldl (λ n t, n + len t) 0 texts)
               end
           end
  end.

Definition unmaskAnswer (sys : System) (id content : bytes) (i : reqInfo)
    : prog (bytes * reqInfo + option reply) :=
  if negb (sys_Unmask sys) then Done (inl (content, i))
  else
    res ← UnmaskEx id content (optionsFor s sys);
    Done match res with
         | Panic => inr None
         | Err err => if isStoreError err then inr (storeUnavailable i) else inl (content, i)
         | Ret u => inl (Restored u, MkReqInfo (ri_payloadID i) (ri_direction i) (ri_textLen i) (ri_found i)
                                       (Misses u) (ri_tokens i))
         end.

(** The reply, and the request that was sent upstream. Without a reply the handler has
    panicked, or it waits for the upstream without an end. *)
Definition handleChat (rand_read : option bytes) (sys : System) (b : json_body chatRequestIn)
    : prog (option reply * option chatRequest) :=
  match readJSON b with
  | inr e => Done (e, None)
  | inl req =>
      if bool_decide (ci_Messages req = [])
      then Done (writeError StatusBadRequest "messages are required" no_info, None)
      else if negb (messagesHaveValidRoles (ci_Messages req))
      then Done (writeError StatusBadRequest "unknown message role" no_info, None)
      else
        match strategyOverride sys (ci_Strategy req) with
        | inr st => Done (writeStrategyError st, None)
        | inl strategy =>
            m ← maskMessages rand_read req (set_strategy (optionsFor s sys) strategy);
            match m with
            | inr e => Done (e, None)
            | inl (id, maskedMessages, totalFound, textLen) =>
                let i := MkReqInfo id dirProxy textLen (Some totalFound) 0 0 in
                let '(sent, out) := chatCompletion c (MkChatRequest (ci_Model req) maskedMessages (ci_Stream req)) in
                match out with
                | None | Some Panic => Done (None, Some sent)
                | Some (Err err) => Done (handleLLMError err i, Some sent)
                | Some (Ret (content, resp)) =>
                    a ← unmaskAnswer sys id content i;
                    Done (match a with
                          | inr e => e
                          | inl (answer, i) =>
                              let pdn := MkPdnInfo (lastUserContent maskedMessages) content
                                           (countFound totalFound) (sys_Unmask sys) in
                              Some (MkReply StatusOK
                                      (ChatBody (MkChatResponse (cr_Model resp) answer (cr_Usage resp) (Some pdn))) i)
                          end, Some sent)
                end
            end
        end
  end.
End Chat.

(** ** The stream reader against its reference *)

Section Reference.
Context `{Unicode} `{ChunkJson}.

(** The lines of a stream up to a line that is too long. *)
Fixpoint scan_lines (fuel : nat) (rest : bytes) : list bytes * bool :=
  match fuel with
  | O => ([], false)
  | S fuel =>
      match next_token rest with
      | NoToken => ([], false)
      | TokenTooLong => ([], true)
      | Token line rest => let '(lines, tl) := scan_lines fuel rest in (line :: lines, tl)
      end
  end.

(** The data of an event line. *)
Definition sse_data (line : bytes) : option bytes :=
  if has_prefix line "data:" then Some (trim_space (drop 5 line)) else None.

(** The events before the end marker, and whether there is one. *)
Fixpoint until_done (ds : list bytes) : list bytes * bool :=
  match ds with
  | [] => ([], false)
  | d :: ds => if bool_decide (d = go_bytes "[DONE]") then ([], true)
               else let '(ds, marker) := until_done ds in (d :: ds, marker)
  end.

Definition has_finish (ch : sseChoice) : bool :=
  match FinishReason ch with Some r => negb (is_empty r) | None => false end.

(** What a stream of events says: the contents in order, the last usage, and whether
    some choice carries a finish reason. *)
Definition all_choices (chunks : list sseChunk) : list sseChoice := concat (map Choices chunks).
Definition all_content (chunks : list sseChunk) : bytes := concat (map DeltaContent (all_choices chunks)).
Definition last_usage (chunks : list sseChunk) : usage := default zero_usage (last (omap ch_Usage chunks)).
Definition finished (chunks : list sseChunk) : bool := existsb has_finish (all_choices chunks).

Definition sse_reference (stream : bytes) (read_error : option bool) : outcome llm_error (bytes * usage) :=
  let '(lines, too_long) := scan_lines (S (length stream)) stream in
  let '(ds, marker) := until_done (omap sse_data lines) in
  let chunks := omap json_chunk ds in
  if marker then Ret (all_content chunks, last_usage chunks)
  else if too_long then Err Err_line_too_long
  else match read_error with
       | Some timeout => Err (Err_transport timeout)
       | None => if finished chunks then Ret (all_content chunks, last_usage chunks) else Err errStreamNotTerminated
       end.

Lemma next_token_shorter rest line rest' : next_token rest = Token line rest' → (length rest' < length rest)%nat.
Proof.
  unfold next_token. pose proof (index_opt_spec rest [newline]) as Hi. destruct (index_opt rest [newline]) as [i|].
  - destruct Hi as [[_ Hi]%occurs_at_slice _]. destruct (i <? maxTokenSize); [|done]. intros [= _ <-].
    rewrite length_drop. destruct rest; simpl in *; [|lia].
    unfold slice in Hi. by rewrite drop_nil, take_nil in Hi.
  - destruct (is_empty rest) eqn:E; [done|]. apply is_empty_false in E. destruct (_ <? _); [|done].
    intros [= _ <-]. destruct rest; [done|simpl; lia].
Qed.

Lemma sse_loop_spec fuel st rest re :
  (length rest < fuel)%nat →
  sse_loop fuel st rest re =
  let '(lines, tl) := scan_lines fuel rest in
  let '(ds, marker) := until_done (omap sse_data lines) in
  let st := foldl sse_chunk st (omap json_chunk ds) in
  Some (if marker then (MkSse (sse_content st) (sse_usage st) true, None)
        else (st, if tl then Some Err_line_too_long else Err_transport <$> re)).
Proof.
  revert st rest. induction fuel as [|fuel IH]; intros st rest Hf; [lia|]. cbn [sse_loop scan_lines].
  destruct (next_token rest) as [line rest'| |] eqn:Et; [|done|done].
  apply next_token_shorter in Et. specialize (IH (match sse_line st line with inl s | inr s => s end) rest' ltac:(lia)).
  destruct (scan_lines fuel rest') as [lines tl]. unfold sse_line in *. cbn [omap list_omap]. unfold sse_data at 1.
  destruct (has_prefix line "data:"); cbn [negb] in *; [|exact IH]. cbn [until_done].
  case_bool_decide; [done|]. destruct (until_done (omap sse_data lines)) as [ds marker]. cbn [omap list_omap].
  by destruct (json_chunk (trim_space (drop 5 line))).
Qed.

Lemma sse_choices_spec chs st :
  foldl sse_choice st chs =
  MkSse (sse_content st ++ concat (map DeltaContent chs)) (sse_usage st) (sse_done st || existsb has_finish chs).
Proof.
  revert st. induction chs as [|ch chs IH]; intros st; simpl.
  { destruct st; simpl. by rewrite app_nil_r, orb_false_r. }
  rewrite IH. unfold sse_choice, has_finish. simpl. rewrite app_assoc. f_equal.
  destruct (FinishReason ch) as [r|]; [|done]. destruct (is_empty r), (sse_done st); done.
Qed.

Lemma sse_chunks_spec chunks st :
  foldl sse_chunk st chunks =
  MkSse (sse_content st ++ all_content chunks) (default (sse_usage st) (last (omap ch_Usage chunks)))
    (sse_done st || finished chunks).
Proof.
  revert st. induction chunks as [|chunk chunks IH]; intros st.
  { destruct st. unfold all_content, finished. simpl. by rewrite app_nil_r, orb_false_r. }
  cbn [foldl]. rewrite IH. unfold sse_chunk. rewrite sse_choices_spec.
  unfold all_content, finished, all_choices. cbn [map concat omap list_omap]. rewrite map_app, concat_app, existsb_app.
  destruct (ch_Usage chunk) as [u|]; cbn [sse_content sse_usage sse_done]; rewrite app_assoc, orb_assoc; [|done].
  f_equal. destruct (omap ch_Usage chunks) as [|u' us]; [done|]. rewrite last_cons_cons. 
  by destruct (last_is_Some (u' :: us)) as [_ [x ->]].
Qed.

Lemma readSSE_eq stream read_error : readSSE stream read_error = sse_reference stream read_error.
Proof.
  unfold readSSE, sse_reference. rewrite sse_loop_spec by lia.
  destruct (scan_lines _ stream) as [lines tl]. destruct (until_done _) as [ds marker].
  rewrite sse_chunks_spec. unfold last_usage. simpl. destruct marker; [done|]. destruct tl; [done|].
  destruct read_error; [done|]. simpl. by destruct (finished _).
Qed.

(** C26: reading the stream terminates, and is exactly its reference: the content is
    the concatenation of the fragments before the end marker, in order, and it is
    returned only when the stream was ended by the marker or by a finish reason; a
    stream that was cut short, has a line over the limit or a read error is an error. *)
Theorem readSSE_reference stream read_error : readSSE stream read_error = sse_reference stream read_error.
Proof. apply readSSE_eq. Qed.
End Reference.
