(* ===== verification/Service.v ===== *)
(** * The HTTP service

    Puts the handlers together: the routes and the middleware of
    [internal/httpapi/server.go], and what every reply of the running service
    satisfies, whatever the requests, the model upstream, the store and the
    interleaving. *)

From S2P Require Import Prelude GoText Float64 Pii Mask Strategies Pipeline Crypto Store Chunk Engine System Safety.
From S2P Require Import Config Http Chat.

(** ** Requests

    One constructor per route, with what the JSON decoder makes of the body; [rand] is
    what the random source gives a handler that needs an id. *)
Inductive http_request :=
| PostProcess (h : headers) (b : json_body processRequest)
| PostMask (h : headers) (rand : option bytes) (b : json_body maskRequest)
| PostUnmask (h : headers) (b : json_body unmaskRequest)
| PostChat (h : headers) (rand : option bytes) (b : json_body chatRequestIn)
| GetHealthz
| GetReadyz (ping_ok : bool).

Definition route_of (rq : http_request) : route :=
  match rq with
  | PostProcess _ _ => routeProcess
  | PostMask _ _ _ => routeMask
  | PostUnmask _ _ => routeUnmask
  | PostChat _ _ _ => routeChat
  | GetHealthz => routeHealthz
  | GetReadyz _ => routeReadyz
  end.

Definition headers_of (rq : http_request) : headers :=
  match rq with
  | PostProcess h _ | PostMask h _ _ | PostUnmask h _ | PostChat h _ _ => h
  | GetHealthz | GetReadyz _ => MkHeaders [] []
  end.

Definition public (r : route) : bool := bool_decide (r = routeHealthz) || bool_decide (r = routeReadyz).

(** The reply, and the request sent upstream. *)
Abbreviation handled := (option reply * option chatRequest)%type.

Definition alone (r : option reply) : handled := (r, None).

Section Service.
Context `{Unicode} `{SliceSort} `{Sha256} `{MapRange} `{ChunkJson} (s : Server) (c : LLMClient) (getenv : bytes → bytes).

(** The system [wrap] attached, or the fallback for handlers called without it. *)
Definition systemFrom (h : headers) (attached : option Config.System) : Config.System :=
  match attached with Some sys => sys | None => resolveSystem s h end.

(** [taken] slots are in use when the request arrives. *)
Definition wrap (taken : Z) (r : route) (h : headers) (handler : option Config.System → prog handled) : prog handled :=
  match acquireSlot s taken with
  | None => Done (alone (writeError StatusTooManyRequests "too many requests" no_info))
  | Some _ =>
      if public r then handler None
      else match authenticate s getenv h r with
           | Denied st => Done (alone (writeError st "system not allowed" no_info))
           | Authenticated sys => handler (Some sys)
           end
  end.

Definition Handler (taken : Z) (rq : http_request) : prog handled :=
  let sys := systemFrom (headers_of rq) in
  wrap taken (route_of rq) (headers_of rq) (λ attached,
    match rq with
    | PostProcess _ b => alone <$> handleProcess s (sys attached) b
    | PostMask _ rand b => alone <$> handleMask s rand (sys attached) b
    | PostUnmask _ b => alone <$> handleUnmask s (sys attached) b
    | PostChat _ rand b => handleChat s c rand (sys attached) b
    | GetHealthz => Done (alone (handleHealthz s))
    | GetReadyz ping_ok => Done (alone (handleReadyz s ping_ok))
    end).

(** ** Who asks, and what for *)

Definition caller (rq : http_request) : option Config.System :=
  if public (route_of rq) then None
  else match authenticate s getenv (headers_of rq) (route_of rq) with
       | Authenticated sys => Some sys
       | Denied _ => None
       end.

Definition decoded_body {A : Type} (b : json_body A) : option A :=
  match readJSON b with inl a => Some a | inr _ => None end.

(** The engine request that may store the texts of an HTTP request. *)
Definition submits (rq : http_request) : option request :=
  sys ← caller rq;
  match rq with
  | PostProcess _ b =>
      req ← decoded_body b; p ← Payload req; Some (RProcess (PayloadID req) p (optionsFor s sys))
  | PostMask _ rand b =>
      req ← decoded_body b; id ← resolveMaskID rand (mq_ID req);
      match strategyOverride sys (mq_Strategy req) with
      | inl strategy => Some (RMask id (mq_Text req) (set_strategy (optionsFor s sys) strategy))
      | inr _ => None
      end
  | PostChat _ rand b =>
      req ← decoded_body b; id ← newUUID rand;
      match strategyOverride sys (ci_Strategy req) with
      | inl strategy => Some (RBatch id (map Content (ci_Messages req)) (set_strategy (optionsFor s sys) strategy))
      | inr _ => None
      end
  | _ => None
  end.

Lemma submits_caller rq er :
  submits rq = Some er → ∃ sys, caller rq = Some sys ∧ SystemID (rq_opt er) = ID sys.
Proof.
  unfold submits. intros Hs. destruct (caller rq) as [sys|]; [|done]. exists sys. split; [done|].
  cbn [mbind option_bind] in Hs. destruct rq as [h b|h rand b|h b|h rand b| |]; try done;
    (destruct (decoded_body b) as [req|]; [|done]); cbn [mbind option_bind] in Hs.
  - destruct (Payload req); [|done]. by injection Hs as <-.
  - destruct (resolveMaskID _ _); [|done]. simpl in Hs. destruct (strategyOverride _ _); [|done]. by injection Hs as <-.
  - destruct (newUUID _); [|done]. simpl in Hs. destruct (strategyOverride _ _); [|done]. by injection Hs as <-.
Qed.

(** ** What a reply promises *)

(** The request waits for an exchange with the upstream that never ends. *)
Definition hangs (sent : option chatRequest) : Prop :=
  ∃ q, sent = Some q ∧ upstream c q = None ∧ timeout c <= 0.

(** The answer of the engine that a reply to [rq] reports. *)
Definition reply_reports (I : Record_ → Prop) (rq : http_request) (r : reply) : Prop :=
  match body_ r with
  | ProcessBody out => ∃ sys h b req p res, caller rq = Some sys ∧ rq = PostProcess h b ∧
      decoded_body b = Some req ∧ Payload req = Some p ∧ Result_ out = p_Result res ∧
      process_promise (srv_engine s) I p (optionsFor s sys) (Ret res) ∧
      ri_direction (info r) = if p_Unmasked res then dirUnmask else dirMask
  | MaskBody m => ∃ sys h rand b req opt, caller rq = Some sys ∧ rq = PostMask h rand b ∧
      decoded_body b = Some req ∧ SystemID opt = ID sys ∧
      ∃ res, mask_promise (srv_engine s) I (mq_Text req) opt (Ret res) ∧ mr_Masked m = Masked res
  | UnmaskBody u => ∃ sys h b req, caller rq = Some sys ∧ rq = PostUnmask h b ∧ decoded_body b = Some req ∧
      sys_Unmask sys = true ∧ restored_from I (uq_Text req) (optionsFor s sys) (ur_Text u) (ur_Misses u)
  | ChatBody a => ∃ sys p, caller rq = Some sys ∧ cr_PDN a = Some p ∧ pdn_Unmasked p = sys_Unmask sys ∧
      (cr_Content a = RawAnswer p ∨
       sys_Unmask sys = true ∧ ∃ misses, restored_from I (RawAnswer p) (optionsFor s sys) (cr_Content a) misses)
  | Error _ | HealthBody _ _ _ => True
  end.

(** What a request to the model upstream is made from. *)
Definition sent_masked (rq : http_request) (sent : chatRequest) : Prop :=
  ∃ sys h rand b req, caller rq = Some sys ∧ rq = PostChat h rand b ∧ decoded_body b = Some req ∧
    map Role (Messages sent) = map Role (ci_Messages req) ∧ cq_Model sent = model c ∧
    ∃ strategy, strategyOverride sys (ci_Strategy req) = inl strategy ∧
      batch_masked (srv_engine s) (map Content (ci_Messages req)) (set_strategy (optionsFor s sys) strategy)
        (map Content (Messages sent)).

(** A request that took its last step has a reply, or waits for the upstream for ever. *)
Definition reply_promise (I : Record_ → Prop) (rq : http_request) (o : handled) : Prop :=
  match o.1 with
  | Some r => reply_reports I rq r
  | None => hangs o.2
  end ∧
  match o.2 with Some sent => sent_masked rq sent | None => True end.

Variable rs : list request.
Let I := record_inv rs.
Context (He : engine_ok (srv_engine s) (concat (map rq_masks rs))).

(** A reply that reports nothing from the engine. *)
Lemma error_promise rq st msg i : reply_promise I rq (alone (writeError st msg i)).
Proof. by split. Qed.

Lemma process_reply rq h b sys :
  rq = PostProcess h b → caller rq = Some sys → (∀ er, submits rq = Some er → er ∈ rs) →
  wp I (alone <$> handleProcess s sys b) (reply_promise I rq).
Proof.
  intros -> Hc Hin. apply wp_fmap. unfold handleProcess.
  assert (∀ req p, decoded_body b = Some req → Payload req = Some p →
    RProcess (PayloadID req) p (optionsFor s sys) ∈ rs) as Hsub.
  { intros req p Hb Hp. apply Hin. unfold submits. rewrite Hc. simpl. rewrite Hb. simpl. by rewrite Hp. }
  unfold decoded_body in Hsub. destruct (readJSON b) as [req|e] eqn:Eb; [|apply readJSON_error in Eb as (st & msg & ->); apply error_promise].
  destruct (Payload req) as [p|] eqn:Ep; [|apply error_promise].
  destruct (is_empty _); [apply error_promise|]. destruct (validPayloadID _); [|apply error_promise]. cbn [negb].
  apply wp_bind. eapply wp_mono; [by eapply Process_wp; [exact He|apply Hsub]|]. intros [res|er|] Hres; [| |done].
  - split; [|done]. cbn [alone fst reply_reports body_].
    exists sys, h, b, req, p, res. unfold decoded_body. rewrite Eb. split_and!; try done.
    unfold recordProcessInfo. by destruct (p_Unmasked res).
  - unfold handleProcessError, storeUnavailable. simpl. destruct (isStoreError er); apply error_promise.
Qed.

Lemma mask_reply rq h rand b sys :
  rq = PostMask h rand b → caller rq = Some sys → (∀ er, submits rq = Some er → er ∈ rs) →
  wp I (alone <$> handleMask s rand sys b) (reply_promise I rq).
Proof.
  intros -> Hc Hin. apply wp_fmap. unfold handleMask.
  destruct (readJSON b) as [req|e] eqn:Eb; [|apply readJSON_error in Eb as (st & msg & ->); apply error_promise].
  destruct (is_empty _); [apply error_promise|]. destruct (validPayloadID _); [|apply error_promise]. cbn [negb].
  destruct (resolveMaskID rand (mq_ID req)) as [id|] eqn:Eid; [|apply error_promise].
  destruct (strategyOverride sys (mq_Strategy req)) as [strategy|st] eqn:Es;
    [|unfold writeStrategyError; destruct (_ =? _); apply error_promise].
  apply wp_bind. eapply wp_mono.
  { eapply MaskEx_wp; [exact He|]. apply Hin. unfold submits, decoded_body. rewrite Hc. simpl. rewrite Eb. simpl.
    rewrite Eid. simpl. by rewrite Es. }
  intros [res|er|] Hres; [| |done].
  - split; [|done]. cbn [alone fst reply_reports body_].
    exists sys, h, rand, b, req, (set_strategy (optionsFor s sys) strategy). unfold decoded_body. rewrite Eb.
    split_and!; try done. by exists res.
  - unfold handleMaskError. destruct er; apply error_promise.
Qed.

Lemma unmask_reply rq h b sys :
  rq = PostUnmask h b → caller rq = Some sys →
  wp I (alone <$> handleUnmask s sys b) (reply_promise I rq).
Proof.
  intros -> Hc. apply wp_fmap. unfold handleUnmask.
  destruct (sys_Unmask sys) eqn:Eu; [|apply error_promise]. cbn [negb].
  destruct (readJSON b) as [req|e] eqn:Eb; [|apply readJSON_error in Eb as (st & msg & ->); apply error_promise].
  destruct (_ || _); [apply error_promise|]. destruct (validPayloadID _); [|apply error_promise]. cbn [negb].
  apply wp_bind. eapply wp_mono; [apply UnmaskEx_wp|]. intros [res|er|] Hres; [| |done].
  - split; [|done]. cbn [alone fst reply_reports body_].
    exists sys, h, b, req. unfold decoded_body. rewrite Eb. by split_and!.
  - simpl. unfold storeUnavailable. destruct (isStoreError er); apply error_promise.
Qed.

Lemma with_contents_some ms cs :
  length cs = length ms →
  ∃ out, with_contents ms cs = Some out ∧ map Role out = map Role ms ∧ map Content out = cs.
Proof.
  revert cs. induction ms as [|m ms IH]; intros [|x cs] Hl; try done; [by exists []|].
  injection Hl as Hl. destruct (IH cs Hl) as (out & Hw & Hr & Hcs). cbn [with_contents]. rewrite Hw.
  eexists. split; [reflexivity|].
  simpl. by rewrite Hr, Hcs.
Qed.

Lemma chatCompletion_sent req :
  Messages (chatCompletion c req).1 = Messages req ∧ cq_Model (chatCompletion c req).1 = model c.
Proof. done. Qed.

Lemma chatCompletion_total req : (chatCompletion c req).2 ≠ Some Panic.
Proof.
  unfold chatCompletion, completion. simpl. destruct (upstream c _) as [[|st stream re]|]; [done| |done]. simpl.
  destruct (_ || _); [done|]. destruct (negb _); [done|]. rewrite readSSE_eq. unfold sse_reference.
  destruct (scan_lines _ _). destruct (until_done _) as [? []]; [done|]. repeat case_match; done.
Qed.

Lemma chatCompletion_hangs req : (chatCompletion c req).2 = None → hangs (Some (chatCompletion c req).1).
Proof.
  unfold chatCompletion. cbn [fst snd]. destruct (upstream c _) eqn:E; [done|]. intros _. eexists.
  split_and!; [reflexivity|exact E|by eapply timeout_ends].
Qed.

(** Part of the promise about the request that was sent. *)
Lemma chat_promise rq sent (o : option reply) :
  match o with Some r => reply_reports I rq r | None => hangs (Some sent) end → sent_masked rq sent →
  reply_promise I rq (o, Some sent).
Proof. done. Qed.

Lemma chat_reply rq h rand b sys :
  rq = PostChat h rand b → caller rq = Some sys → (∀ er, submits rq = Some er → er ∈ rs) →
  wp I (handleChat s c rand sys b) (reply_promise I rq).
Proof.
  intros -> Hc Hin. unfold handleChat.
  destruct (readJSON b) as [req|e] eqn:Eb; [|apply readJSON_error in Eb as (st & msg & ->); apply error_promise].
  case_bool_decide; [apply error_promise|]. destruct (messagesHaveValidRoles _); [|apply error_promise]. cbn [negb].
  destruct (strategyOverride sys (ci_Strategy req)) as [strategy|st] eqn:Es;
    [|unfold writeStrategyError; destruct (_ =? _); apply error_promise].
  unfold maskMessages. destruct (newUUID rand) as [id|] eqn:Eid; [|apply error_promise].
  apply wp_bind, wp_bind. eapply wp_mono.
  { eapply MaskBatchEx_wp; [exact He|]. apply Hin. unfold submits, decoded_body. rewrite Hc. simpl. rewrite Eb. simpl.
    rewrite Eid. simpl. by rewrite Es. }
  intros [res|er|] Hres; [|destruct er; apply error_promise|done].
  destruct Hres as (Hlen & Hmasked & _). rewrite length_map in Hlen.
  destruct (with_contents_some _ _ Hlen) as (out & Hout & Hroles & Hcs). rewrite Hout. cbn [wp].
  set (cr := MkChatRequest _ _ _). pose proof (chatCompletion_sent cr) as [Hmsgs Hmodel].
  pose proof (chatCompletion_total cr) as Htot. pose proof (chatCompletion_hangs cr) as Hhang.
  destruct (chatCompletion c cr) as [sent ans]. simpl in Hmsgs, Hmodel, Htot, Hhang.
  assert (sent_masked (PostChat h rand b) sent) as Hsent.
  { exists sys, h, rand, b, req. unfold decoded_body. rewrite Eb, Hmsgs. simpl. split_and!; try done.
    exists strategy. by rewrite Hcs. }
  destruct ans as [[[content resp]|err|]|]; [| |done|].
  - apply wp_bind. unfold unmaskAnswer. destruct (sys_Unmask sys) eqn:Eu; cbn [negb].
    + apply wp_bind. eapply wp_mono; [apply UnmaskEx_wp|]. intros [u|er|] Hu; [| |done].
      * apply chat_promise; [|exact Hsent]. eexists sys, _.
        split_and!; try done. right. split; [done|]. by exists (Misses u).
      * cbn [wp]. unfold storeUnavailable. destruct (isStoreError er); cbn [wp]; (apply chat_promise; [|exact Hsent]); [done|].
        eexists sys, _. split_and!; try done. by left.
    + apply chat_promise; [|exact Hsent]. eexists sys, _. split_and!; try done. by left.
  - apply chat_promise; [|exact Hsent]. unfold handleLLMError. by destruct (isUpstreamTimeout err).
  - apply chat_promise; [by apply Hhang|exact Hsent].
Qed.

Lemma Handler_wp taken rq :
  (∀ er, submits rq = Some er → er ∈ rs) → wp I (Handler taken rq) (reply_promise I rq).
Proof.
  intros Hin. unfold Handler, wrap. destruct (acquireSlot s taken); [|apply error_promise].
  destruct (public (route_of rq)) eqn:Ep.
  { by destruct rq as [| | | | |[]]. }
  destruct (authenticate s getenv (headers_of rq) (route_of rq)) as [sys|st] eqn:Ea; [|apply error_promise].
  assert (caller rq = Some sys) as Hc by (unfold caller; by rewrite Ep, Ea).
  destruct rq as [h b|h rand b|h b|h rand b| |]; cbn [systemFrom]; try done.
  - by eapply process_reply.
  - by eapply mask_reply.
  - by eapply unmask_reply.
  - by eapply chat_reply.
Qed.
End Service.

(** ** Who is admitted *)

Section Authentication.
Context `{Unicode} `{SliceSort} `{Sha256} `{MapRange} `{ChunkJson} (s : Server) (c : LLMClient) (getenv : bytes → bytes).

(** The id a request claims: its header, or the default system on [/process] when
    there is no header. *)
Definition claimed (rq : http_request) (id : bytes) : Prop :=
  id ≠ [] ∧
  (id = h_system (headers_of rq) ∨
   h_system (headers_of rq) = [] ∧ route_of rq = routeProcess ∧ id = DefaultSystem (cfg_Server (srv_cfg s))).

(** The key of a system is proved: from its environment variable when one is named,
    else the literal key; a system without any key is admitted to [/process] only. *)
Definition key_proved (rq : http_request) (sys : Config.System) : Prop :=
  let key := h_key (headers_of rq) in
  if is_empty (APIKeyEnv sys)
  then (APIKey sys ≠ [] ∧ key = APIKey sys) ∨ (APIKey sys = [] ∧ route_of rq = routeProcess)
  else getenv (APIKeyEnv sys) ≠ [] ∧ key = getenv (APIKeyEnv sys).

#[local] Instance key_proved_dec rq sys : Decision (key_proved rq sys).
Proof. unfold key_proved. destruct (is_empty (APIKeyEnv sys)); apply _. Defined.

Definition admitted (rq : http_request) (sys : Config.System) : Prop :=
  ∃ id, claimed rq id ∧ SystemByID (srv_cfg s) id = Some sys ∧ Enabled sys = true ∧ key_proved rq sys.

Lemma constantTimeEqual_true a b : constantTimeEqual a b = true ↔ a = b.
Proof.
  unfold constantTimeEqual. destruct (len a =? len b) eqn:E; simpl; [by rewrite bool_decide_eq_true|].
  split; [done|]. intros ->. by rewrite Z.eqb_refl in E.
Qed.

Lemma is_empty_true t : is_empty t = true ↔ t = [].
Proof. apply bool_decide_eq_true. Qed.

(** The last part of [authenticate], on a known system. *)
Lemma key_check rq sys :
  (match expectedKey getenv sys with
   | None => Denied StatusUnauthorized
   | Some expected =>
       if is_empty expected then
         if negb (bool_decide (route_of rq = routeProcess)) then Denied StatusForbidden else Authenticated sys
       else if negb (constantTimeEqual expected (h_key (headers_of rq))) then Denied StatusUnauthorized
       else Authenticated sys
   end) =
  if decide (key_proved rq sys) then Authenticated sys
  else Denied (if is_empty (APIKeyEnv sys) && is_empty (APIKey sys) then StatusForbidden else StatusUnauthorized).
Proof.
  unfold expectedKey. destruct (decide (key_proved rq sys)) as [Hk|Hk]; unfold key_proved in Hk;
    destruct (is_empty (APIKeyEnv sys)) eqn:Ee; cbn [negb andb].
  - destruct Hk as [[Ha Hk]|[Ha Hr]].
    + rewrite (proj2 (is_empty_false _) Ha). by rewrite (proj2 (constantTimeEqual_true _ _) (eq_sym Hk)).
    + rewrite (proj2 (is_empty_true _) Ha). by rewrite bool_decide_eq_true_2.
  - destruct Hk as [Hn Hk]. rewrite (proj2 (is_empty_false _) Hn), (proj2 (is_empty_false _) Hn).
    by rewrite (proj2 (constantTimeEqual_true _ _) (eq_sym Hk)).
  - destruct (is_empty (APIKey sys)) eqn:Ea.
    + rewrite bool_decide_eq_false_2; [done|]. apply is_empty_true in Ea. tauto.
    + destruct (constantTimeEqual _ _) eqn:Ec; [|done]. apply constantTimeEqual_true in Ec. apply is_empty_false in Ea.
      exfalso. apply Hk. left. done.
  - destruct (is_empty (getenv (APIKeyEnv sys))) eqn:Ev; [done|]. apply is_empty_false in Ev. rewrite (proj2 (is_empty_false _) Ev).
    destruct (constantTimeEqual _ _) eqn:Ec; [|done]. apply constantTimeEqual_true in Ec.
    exfalso. apply Hk. done.
Qed.

(** Every system admitted, and the only one: the request claims one id. *)
Lemma caller_admitted rq sys :
  public (route_of rq) = false → (caller s getenv rq = Some sys ↔ admitted rq sys).
Proof.
  intros Hp. unfold caller, admitted, authenticate. rewrite Hp.
  set (dflt := DefaultSystem (cfg_Server (srv_cfg s))).
  set (sysID := if is_empty (h_system (headers_of rq)) && _ && _ then dflt else h_system (headers_of rq)).
  assert (∀ id, claimed rq id ↔ sysID ≠ [] ∧ id = sysID) as Hclaim.
  { intros id. unfold claimed, sysID. fold dflt. destruct (is_empty (h_system (headers_of rq))) eqn:Eh.
    - apply is_empty_true in Eh. rewrite Eh. case_bool_decide as Hr; cbn [andb].
      + destruct (is_empty dflt) eqn:Ed; cbn [negb].
        * apply is_empty_true in Ed. rewrite Ed. naive_solver.
        * apply is_empty_false in Ed. naive_solver.
      + naive_solver.
    - apply is_empty_false in Eh. cbn [andb]. naive_solver. }
  destruct (is_empty sysID) eqn:Ei.
  { apply is_empty_true in Ei. split; [done|]. intros (id & [Hne _]%Hclaim & _). done. }
  apply is_empty_false in Ei. split.
  - destruct (SystemByID (srv_cfg s) sysID) as [sys'|] eqn:Es; [|done].
    destruct (Enabled sys') eqn:Een; [|done]. cbn [negb]. rewrite key_check. destruct (decide _); [|done].
    intros [= ->]. exists sysID. by split_and!; [apply Hclaim| | |].
  - intros (id & [_ ->]%Hclaim & -> & -> & Hk). cbn [negb]. rewrite key_check. by destruct (decide _).
Qed.

(** A denied request ends at once. *)
Lemma denied_at_once taken rq :
  public (route_of rq) = false → caller s getenv rq = None →
  ∃ st msg, Handler s c getenv taken rq = Done (alone (writeError st msg no_info)) ∧
    st ∈ [StatusUnauthorized; StatusForbidden; StatusTooManyRequests].
Proof.
  intros Hp Hc. unfold caller in Hc. rewrite Hp in Hc. unfold Handler, wrap. destruct (acquireSlot s taken).
  - rewrite Hp. destruct (authenticate s getenv (headers_of rq) (route_of rq)) as [sys|st] eqn:Ea; [done|].
    eexists _, _. split; [reflexivity|]. clear -Ea. unfold authenticate in Ea.
    repeat (case_match; simplify_eq; try (by (repeat constructor))).
  - eexists _, _. split; [reflexivity|]. repeat constructor.
Qed.
End Authentication.

(** ** The running service *)

Section Running.
Context `{Unicode} `{SliceSort} `{Sha256} `{MapRange} `{ChunkJson} (s : Server) (c : LLMClient) (getenv : bytes → bytes).

(** The requests, each with the slots in use when it arrives. *)
Abbreviation arrivals := (list (Z * http_request)).

Definition threads (rqs : arrivals) : list (prog handled) := map (λ p, Handler s c getenv p.1 p.2) rqs.

(** The texts that requests of [sys] submitted. *)
Definition submitted_by (rqs : arrivals) (sys : Config.System) (text : bytes) : Prop :=
  ∃ taken rq er, (taken, rq) ∈ rqs ∧ caller s getenv rq = Some sys ∧ submits s getenv rq = Some er ∧
    rq_text er = Some text.

(** [out] is [input] with disjoint ranges replaced by pieces of such texts. *)
Definition reveals_own (rqs : arrivals) (sys : Config.System) (input out : bytes) : Prop :=
  ∃ cs, claim_chain input 0 cs ∧ out = splice_text input 0 cs ∧
    Forall (λ cl, ∃ text a b, submitted_by rqs sys text ∧ text = a ++ c_original cl ++ b) cs.

(** What a reply has unmasked: the text it started from, and the result. *)
Definition unmasked_in (rq : http_request) (r : reply) : option (bytes * bytes) :=
  match rq, body_ r with
  | PostProcess _ b, ProcessBody out =>
      match ri_direction (info r), decoded_body b with
      | dirUnmask, Some req => p ← Payload req; Some (p, Result_ out)
      | _, _ => None
      end
  | PostUnmask _ b, UnmaskBody u => req ← decoded_body b; Some (uq_Text req, ur_Text u)
  | PostChat _ _ _, ChatBody a => p ← cr_PDN a; Some (RawAnswer p, cr_Content a)
  | _, _ => None
  end.

Definition all_submits (rqs : arrivals) : list request := omap (λ p, submits s getenv p.2) rqs.

(** The texts they give to the engine. *)
Definition masked_texts (rqs : arrivals) : list bytes := concat (map rq_masks (all_submits rqs)).

Lemma submits_in rqs taken rq er : (taken, rq) ∈ rqs → submits s getenv rq = Some er → er ∈ all_submits rqs.
Proof. intros Hin Hs. apply list_elem_of_omap. by exists (taken, rq). Qed.

(** Ids of the configuration name one system each. *)
Lemma caller_config rq sys : caller s getenv rq = Some sys → sys ∈ Systems (srv_cfg s) ∧ SystemByID (srv_cfg s) (ID sys) = Some sys.
Proof.
  unfold caller. destruct (public (route_of rq)) eqn:Ep; [done|]. intros Hc.
  destruct (caller_admitted s getenv rq sys Ep) as [(id & _ & Hs & _) _]; [unfold caller; by rewrite Ep|].
  destruct (system_by_id_Some _ _ _ Hs) as [Hin <-]. by split.
Qed.

(** In a valid configuration the owner of a record has a name, and is one system. *)
Lemma restored_reveals rqs sys input out misses :
  valid_config (srv_cfg s) → SystemByID (srv_cfg s) (ID sys) = Some sys →
  restored_from (record_inv (all_submits rqs)) input (optionsFor s sys) out misses →
  reveals_own rqs sys input out.
Proof.
  intros Hv Hsys Hr. apply restored_own in Hr as (cs & Hc & Ho & Hcs). exists cs. split_and!; [done|done|].
  eapply Forall_impl; [exact Hcs|]. intros cl (er & text & a & b & Hin & Ht & Hab & Hread).
  exists text, a, b. split; [|done].
  apply list_elem_of_omap in Hin as ([taken rq] & Hin & Hsub). simpl in Hsub.
  destruct (submits_caller s getenv rq er Hsub) as (sys' & Hcall & Hid). exists taken, rq, er. split_and!; try done.
  destruct (caller_config rq sys' Hcall) as [Hin' Hsys']. rewrite Hid in Hread. unfold may_read in Hread.
  destruct Hv as [_ _ _ _ _ Hvs]. rewrite Forall_forall in Hvs. destruct (Hvs sys' Hin') as [Hne _].
  rewrite bool_decide_eq_false_2 in Hread by done. simpl in Hread. rewrite Hread in Hsys'. congruence.
Qed.

(** The promises of all finished requests, over any store. *)
Lemma service_promises `{StoreImpl} rqs sched t st st' ps :
  engine_ok (srv_engine s) (masked_texts rqs) → impl_rel t ∅ st →
  schedule_ok t sched st (threads rqs) → run_schedule sched st (threads rqs) = (st', ps) →
  ∀ i taken rq o, rqs !! i = Some (taken, rq) → ps !! i = Some (Done o) →
  reply_promise s c getenv (record_inv (all_submits rqs)) rq o.
Proof.
  intros He Hr Hok Hrun.
  destruct (run_refines sched t ∅ st (threads rqs) st' ps ltac:(by exists t) Hok Hrun) as (σ' & Hsteps & _).
  destruct (wp_sound (record_inv (all_submits rqs)) impl_hash
    (λ i o, ∀ taken rq, rqs !! i = Some (taken, rq) → reply_promise s c getenv (record_inv (all_submits rqs)) rq o)
    _ _ Hsteps (store_inv_empty _)) as [_ Hps].
  { simpl. intros i p Hi. unfold threads in Hi. rewrite list_lookup_fmap in Hi.
    destruct (rqs !! i) as [[taken rq]|] eqn:Erq; [|done]. injection Hi as <-.
    eapply wp_mono; [apply Handler_wp; [done|]|].
    - intros er. eapply submits_in. by eapply list_elem_of_lookup_2.
    - simpl. intros o Ho taken' rq' [= <- <-]. done. }
  intros i taken rq o Hrq Ho. by apply (Hps i (Done o) Ho taken rq).
Qed.
End Running.

(** ** Properties *)

(** C8: authentication is exactly the declared rule: a request is served for a system
    if and only if it names it (or names none, on [/process], where the default system
    stands in), the system is configured and enabled, and the key is proved - a system
    without a key only on [/process], one whose environment variable is empty never;
    any other request ends at once with 401, 403 or 429, without a store call and
    without anything sent upstream. *)
Theorem authentication_exact `{Unicode} `{SliceSort} `{Sha256} `{MapRange} `{ChunkJson} s c getenv taken rq :
  public (route_of rq) = false →
  (∀ sys, caller s getenv rq = Some sys ↔ admitted s getenv rq sys) ∧
  (caller s getenv rq = None →
   ∃ st msg, Handler s c getenv taken rq = Done (alone (writeError st msg no_info)) ∧
     st ∈ [StatusUnauthorized; StatusForbidden; StatusTooManyRequests]).
Proof. intros Hp. split; [intros sys; by apply caller_admitted|by apply denied_at_once]. Qed.

(** For the whole service, over any store, with any upstream model, in every
    interleaving of any HTTP requests: a finished request has a reply or waits for an
    upstream that never ends with a client without a positive timeout; whatever its
    reply has unmasked was unmasked for an authenticated system that has the unmask
    permission, and consists of the text it started from and of pieces of texts which
    requests of that same system had submitted. A chat answer for a system without the
    permission is the model's answer unchanged. *)
Lemma confidential `{Unicode} `{SliceSort} `{Sha256} `{MapRange} `{ChunkJson} `{StoreImpl} s c getenv
    rqs sched t st st' ps i taken rq o :
  Validate (srv_cfg s) = Ret () → engine_ok (srv_engine s) (masked_texts s getenv rqs) → impl_rel t ∅ st →
  schedule_ok t sched st (threads s c getenv rqs) → run_schedule sched st (threads s c getenv rqs) = (st', ps) →
  rqs !! i = Some (taken, rq) → ps !! i = Some (Done o) →
  (o.1 = None → hangs c o.2) ∧
  ∀ r, o.1 = Some r → ∀ input out, unmasked_in rq r = Some (input, out) →
    ∃ sys, caller s getenv rq = Some sys ∧
      (input = out ∨ sys_Unmask sys = true ∧ reveals_own s getenv rqs sys input out).
Proof.
  intros Hv He Hr Hok Hrun Hrq Ho. apply Validate_valid in Hv.
  destruct (service_promises s c getenv rqs sched t st st' ps He Hr Hok Hrun i taken rq o Hrq Ho) as [Hb _].
  split; [intros Hn; by rewrite Hn in Hb|]. intros r Hor input out Hun. rewrite Hor in Hb. unfold unmasked_in in Hun.
  unfold reply_reports in Hb.
  destruct rq as [h b|h rand b|h b|h rand b| |]; destruct (body_ r) as [|pb|mb|ub|cb|]; try done.
  - destruct Hb as (sys & h' & b' & req & p & res & Hc & [= <- <-] & Hreq & Hp & Hout & Hpr & Hdir).
    destruct (ri_direction (info r)); try done. rewrite Hreq in Hun. simpl in Hun. rewrite Hp in Hun. injection Hun as <- <-.
    exists sys. split; [exact Hc|]. right. destruct (p_Unmasked res) eqn:Eu; [|done]. cbn [process_promise] in Hpr.
    rewrite Eu in Hpr. destruct Hpr as [Hperm Hres]. split; [exact Hperm|]. rewrite Hout.
    eapply restored_reveals; [exact Hv|by eapply caller_config|exact Hres].
  - destruct Hb as (sys & h' & b' & req & Hc & [= <- <-] & Hreq & Hperm & Hres). rewrite Hreq in Hun.
    injection Hun as <- <-. exists sys. split; [exact Hc|]. right. split; [exact Hperm|].
    eapply restored_reveals; [exact Hv|by eapply caller_config|exact Hres].
  - destruct Hb as (sys & p & Hc & Hp & Hpu & Hres). rewrite Hp in Hun. injection Hun as <- <-.
    exists sys. split; [exact Hc|]. destruct Hres as [->|[Hperm [misses Hres]]]; [by left|]. right. split; [exact Hperm|].
    eapply restored_reveals; [exact Hv|by eapply caller_config|exact Hres].
Qed.

Lemma sent_upstream `{Unicode} `{SliceSort} `{Sha256} `{MapRange} `{ChunkJson} `{StoreImpl} s c getenv
    rqs sched t st st' ps i taken rq r sent :
  engine_ok (srv_engine s) (masked_texts s getenv rqs) → impl_rel t ∅ st →
  schedule_ok t sched st (threads s c getenv rqs) → run_schedule sched st (threads s c getenv rqs) = (st', ps) →
  rqs !! i = Some (taken, rq) → ps !! i = Some (Done (r, Some sent)) →
  ∃ sys h rand b req strategy, caller s getenv rq = Some sys ∧ rq = PostChat h rand b ∧ decoded_body b = Some req ∧
    strategyOverride sys (ci_Strategy req) = inl strategy ∧
    map Role (Messages sent) = map Role (ci_Messages req) ∧ cq_Model sent = model c ∧
    batch_masked (srv_engine s) (map Content (ci_Messages req)) (set_strategy (optionsFor s sys) strategy)
      (map Content (Messages sent)).
Proof.
  intros He Hr Hok Hrun Hrq Ho.
  destruct (service_promises s c getenv rqs sched t st st' ps He Hr Hok Hrun i taken rq _ Hrq Ho)
    as (_ & sys & h & rand & b & req & Hc & Hq & Hb & Hroles & Hm & strategy & Hs & Hmasked).
  by exists sys, h, rand, b, req, strategy.
Qed.

(** The request sent to the upstream model: it goes to the configured model, keeps
    the roles and the number of the messages, and its contents are exactly what the
    engine's masking makes of the contents with one document state; the names and
    fields outside role and content are dropped. *)
Lemma upstream_gets_masked `{Unicode} `{SliceSort} `{Sha256} `{MapRange} `{ChunkJson} `{StoreImpl} s c getenv
    rqs sched t st st' ps i taken rq r sent :
  engine_ok (srv_engine s) (masked_texts s getenv rqs) → impl_rel t ∅ st →
  schedule_ok t sched st (threads s c getenv rqs) → run_schedule sched st (threads s c getenv rqs) = (st', ps) →
  rqs !! i = Some (taken, rq) → ps !! i = Some (Done (r, Some sent)) →
  ∃ sys h rand b req strategy, caller s getenv rq = Some sys ∧ rq = PostChat h rand b ∧ decoded_body b = Some req ∧
    strategyOverride sys (ci_Strategy req) = inl strategy ∧
    map Role (Messages sent) = map Role (ci_Messages req) ∧ cq_Model sent = model c ∧
    batch_masked (srv_engine s) (map Content (ci_Messages req)) (set_strategy (optionsFor s sys) strategy)
      (map Content (Messages sent)).
Proof. apply sent_upstream. Qed.

(** ** Every request is answered *)

Section Answered.
Context `{Unicode} `{SliceSort} `{Sha256} `{MapRange} `{ChunkJson} (s : Server) (c : LLMClient) (getenv : bytes → bytes).

(** A handler that calls the engine once. *)
Lemma once_finishes {A B : Type} n (p : prog A) (f : A → B) : finishes n p → finishes n (a ← p; Done (f a)).
Proof. intros Hp. rewrite (plus_n_O n). by apply finishes_bind. Qed.

Lemma Handler_finishes taken rq : finishes 5 (Handler s c getenv taken rq).
Proof.
  unfold Handler, wrap. destruct (acquireSlot s taken); [|done].
  assert (∀ at_, finishes 5 (match rq with
    | PostProcess _ b => alone <$> handleProcess s (systemFrom s (headers_of rq) at_) b
    | PostMask _ rand b => alone <$> handleMask s rand (systemFrom s (headers_of rq) at_) b
    | PostUnmask _ b => alone <$> handleUnmask s (systemFrom s (headers_of rq) at_) b
    | PostChat _ rand b => handleChat s c rand (systemFrom s (headers_of rq) at_) b
    | GetHealthz => Done (alone (handleHealthz s))
    | GetReadyz ping_ok => Done (alone (handleReadyz s ping_ok)) end)) as Hall.
  { intros at_. generalize (systemFrom s (headers_of rq) at_) as sys. intros sys.
    destruct rq as [h b|h rand b|h b|h rand b| |]; try done.
    - apply finishes_fmap. unfold handleProcess. destruct (readJSON b) as [req|]; [|done].
      destruct (Payload req); [|done]. destruct (is_empty _); [done|]. destruct (negb _); [done|].
      apply once_finishes, Process_finishes.
    - apply finishes_fmap. unfold handleMask. destruct (readJSON b) as [req|]; [|done].
      destruct (is_empty _); [done|]. destruct (negb _); [done|]. destruct (resolveMaskID _ _); [|done].
      destruct (strategyOverride _ _); [|done]. apply once_finishes. eapply finishes_mono; [apply MaskEx_finishes|lia].
    - apply finishes_fmap. unfold handleUnmask. destruct (negb _); [done|]. destruct (readJSON b) as [req|]; [|done].
      destruct (_ || _); [done|]. destruct (negb _); [done|]. apply once_finishes.
      eapply finishes_mono; [apply UnmaskEx_finishes|lia].
    - unfold handleChat. destruct (readJSON b) as [req|]; [|done]. case_bool_decide; [done|].
      destruct (negb _); [done|]. destruct (strategyOverride _ _); [|done].
      apply (finishes_bind 3 2).
      + unfold maskMessages. destruct (newUUID rand); [|done]. apply once_finishes, MaskBatchEx_finishes.
      + intros [[[[id ms] f] n]|e]; [|done]. destruct (chatCompletion _ _) as [sent out]. destruct out as [[[content resp]| |]|]; [|done..].
        apply once_finishes. unfold unmaskAnswer. destruct (negb _); [done|]. apply once_finishes.
        eapply finishes_mono; [apply UnmaskEx_finishes|lia]. }
  destruct (public (route_of rq)); [apply Hall|]. destruct (authenticate _ _ _ _); [apply Hall|done].
Qed.
End Answered.

(** A request that had five turns has taken its last step, whatever else happens. *)
Lemma ends `{Unicode} `{SliceSort} `{Sha256} `{MapRange} `{ChunkJson} `{StoreImpl} s c getenv rqs sched st st' ps i taken rq :
  run_schedule sched st (threads s c getenv rqs) = (st', ps) → rqs !! i = Some (taken, rq) →
  (5 <= length (filter (λ x, x.1 = i) sched))%nat → ∃ o sent, ps !! i = Some (Done (o, sent)).
Proof.
  intros Hrun Hrq Hturns.
  destruct (run_finishes i 5 (Handler s c getenv taken rq) sched st (threads s c getenv rqs)) as [[o sent] Ho].
  - apply Handler_finishes.
  - unfold threads. by rewrite list_lookup_fmap, Hrq.
  - exact Hturns.
  - exists o, sent. by rewrite Hrun in Ho.
Qed.

(** C24: every request comes to its end: whatever the store answers, whatever the
    upstream sends and in every interleaving, a request that had five turns of its own
    takes no further step. If moreover the detectors return on the texts submitted
    ([engine_ok]) and the store keeps its contract, it has a reply - unless it waits for
    an upstream that never ends, which takes a client without a positive timeout. *)
Theorem service_answers `{Unicode} `{SliceSort} `{Sha256} `{MapRange} `{ChunkJson} `{StoreImpl} s c getenv
    rqs sched t st st' ps i taken rq :
  run_schedule sched st (threads s c getenv rqs) = (st', ps) → rqs !! i = Some (taken, rq) →
  (5 <= length (filter (λ x, x.1 = i) sched))%nat →
  ∃ o sent, ps !! i = Some (Done (o, sent)) ∧
    (engine_ok (srv_engine s) (masked_texts s getenv rqs) → impl_rel t ∅ st →
     schedule_ok t sched st (threads s c getenv rqs) →
     (∃ r, o = Some r) ∨
     o = None ∧ timeout c <= 0 ∧ ∃ h rand b q, rq = PostChat h rand b ∧ sent = Some q ∧ upstream c q = None).
Proof.
  intros Hrun Hrq Hturns. destruct (ends s c getenv rqs sched st st' ps i taken rq Hrun Hrq Hturns) as (o & sent & Ho).
  exists o, sent. split; [exact Ho|]. intros He Hr Hok.
  destruct (service_promises s c getenv rqs sched t st st' ps He Hr Hok Hrun i taken rq _ Hrq Ho) as [Hb Hsent].
  cbn [fst snd] in Hb, Hsent. destruct o as [r|]; [left; by exists r|right].
  destruct Hb as (q & -> & Hup & Hto). destruct Hsent as (_ & h & rand & b & _ & _ & -> & _).
  split_and!; [done|exact Hto|]. by exists h, rand, b, q.
Qed.

(** ** A service to run examples on *)

(** Chunk decoding stood in for: the whole event is the content. *)
#[export] Instance plain_chunks : ChunkJson | 100 := λ d, Some (MkSseChunk [MkChoice d None] None).

Definition demo_system (id key : bytes) (unmask : bool) : Config.System :=
  MkSystem id true key [] [] "token" unmask false [].

Definition demo_config : Config :=
  MkConfig (Config.MkServer ":8080" 0 0 0 8 "gateway" []) (MkStore "memory" [] 0 0 0 0 [])
    (MkLLM "http://llm" [] "alfagen" 0) (MkLogging [] [])
    [demo_system "gateway" [] true; demo_system "crm" "k1" true; demo_system "bank" "k2" false].

Definition demo_server : Server := MkServer demo_config demo_engine.

(** A model that repeats the last message of the user. *)
Definition echo_answer (q : chatRequest) : option upstream_result :=
  Some (Up_response StatusOK ("data: " ++ lastUserContent (Messages q) ++ [newline] ++ "data: [DONE]" ++ [newline]) None).

Definition echo_llm : LLMClient := MkLLMClient "alfagen" 12 echo_answer ltac:(discriminate).

(** A model that never answers a client without a timeout. *)
Definition silent_llm : LLMClient := MkLLMClient "alfagen" 0 (λ _, None) ltac:(intros; discriminate).

Definition no_env : bytes → bytes := λ _, [].

Definition demo_http : list (Z * http_request) :=
  let crm := MkHeaders "crm" "k1" in
  let bank := MkHeaders "bank" "k2" in
  [(0, PostProcess crm (MkBody (Decoded (MkProcessRequest (Some demo_payload) "doc")) false));
   (1, PostChat crm (Some (replicate 16 "u"%byte))
         (MkBody (Decoded (MkChatRequestIn "gpt" [MkChatMessage "user" demo_payload] false [])) false));
   (2, PostUnmask crm (MkBody (Decoded (MkUnmaskRequest "doc" "re: [PHONE_1]")) false));
   (3, PostUnmask bank (MkBody (Decoded (MkUnmaskRequest "doc" "re: [PHONE_1]")) false));
   (4, PostMask (MkHeaders "crm" "wrong") None (MkBody (Decoded (MkMaskRequest demo_payload "doc" [])) false))].

(** One of them by its place. *)
Definition demo_request (i : nat) : http_request := nth i (map snd demo_http) GetHealthz.

Definition demo_turns : list (nat * Env) :=
  zip [0; 1; 0; 1; 0; 1; 1; 2; 1]%nat (demo_env <$> [1; 2; 3; 4; 5; 6; 7; 8; 9]).

Definition demo_threads : list (prog handled) := threads demo_server echo_llm no_env demo_http.

Definition demo_service : Memory * list (prog handled) := run_schedule demo_turns demo_memory demo_threads.

(** The chat answer shows the number again, the request upstream did not. *)
Definition demo_chat_reply : reply :=
  MkReply StatusOK
    (ChatBody (MkChatResponse "alfagen" demo_payload zero_usage
       (Some (MkPdnInfo "call [PHONE_1] now" "call [PHONE_1] now" 1 true))))
    (MkReqInfo "75757575-7575-4575-b575-757575757575" dirProxy (len demo_payload) (Some {[CatPhone := 1]}) 0 0).

Definition demo_sent : chatRequest := MkChatRequest "alfagen" [MkChatMessage "user" "call [PHONE_1] now"] true.

Example demo_service_replies :
  map (λ p, match p with Done (Some r, sent) => Some (body_ r, sent) | _ => None end) demo_service.2 =
  [Some (ProcessBody (MkProcessResponse "call [PHONE_1] now"), None);
   Some (body_ demo_chat_reply, Some demo_sent);
   Some (UnmaskBody (MkUnmaskResponse "re: +7 916" 0), None);
   Some (Error "unmask not allowed for this system", None);
   Some (Error "system not allowed", None)].
Proof. vm_compute. reflexivity. Qed.

Lemma demo_config_valid : Validate demo_config = Ret ().
Proof. vm_compute. reflexivity. Qed.

Lemma demo_turns_ok : @schedule_ok _ demo_store _ 0 demo_turns demo_memory demo_threads.
Proof. apply (bool_decide_unpack _). vm_compute. exact I. Qed.

Lemma authentication_exact_witness :
  let rq := PostUnmask (MkHeaders [] []) (MkBody (Decoded (MkUnmaskRequest "doc" "x")) false) in
  ∃ st msg, Handler demo_server echo_llm no_env 0 rq = Done (alone (writeError st msg no_info)) ∧
    st ∈ [StatusUnauthorized; StatusForbidden; StatusTooManyRequests].
Proof.
  intros rq. destruct (authentication_exact demo_server echo_llm no_env 0 rq eq_refl) as [_ Hd].
  apply Hd. vm_compute. reflexivity.
Defined.

Lemma upstream_gets_masked_witness :
  ∃ strategy, batch_masked demo_engine [demo_payload]
    (set_strategy (optionsFor demo_server (demo_system "crm" "k1" true)) strategy) [go_bytes "call [PHONE_1] now"].
Proof.
  destruct (@upstream_gets_masked _ _ _ _ _ _ demo_store demo_server echo_llm no_env demo_http demo_turns 0
    demo_memory demo_service.1 demo_service.2 1 1 (demo_request 1) (Some demo_chat_reply) demo_sent)
    as (sys & h & rand & b & req & strategy & Hc & Hq & Hb & _ & _ & _ & Hm).
  - apply demo_engine_ok.
  - exact (demo_memory_rel 0).
  - exact demo_turns_ok.
  - exact (surjective_pairing demo_service).
  - reflexivity.
  - vm_compute. reflexivity.
  - exists strategy. injection Hq as <- <- <-. injection Hb as <-.
    vm_compute in Hc. injection Hc as <-. exact Hm.
Defined.

(** The refused request is answered; the chat with a silent model never is. *)
Lemma service_answers_witness :
  (∃ r sent, (@run_schedule _ demo_store _ (replicate 5 (3%nat, demo_env 1)) demo_memory demo_threads).2 !! 3%nat
    = Some (Done (Some r, sent))) ∧
  ∃ sent, (@run_schedule _ demo_store _ (replicate 5 (1%nat, demo_env 1)) demo_memory
      (threads demo_server silent_llm no_env demo_http)).2 !! 1%nat = Some (Done (None, sent)).
Proof.
  split; [|eexists; vm_compute; reflexivity].
  destruct (@service_answers _ _ _ _ _ _ demo_store demo_server echo_llm no_env demo_http (replicate 5 (3%nat, demo_env 1)) 0
    demo_memory (@run_schedule _ demo_store _ (replicate 5 (3%nat, demo_env 1)) demo_memory demo_threads).1
    (@run_schedule _ demo_store _ (replicate 5 (3%nat, demo_env 1)) demo_memory demo_threads).2 3 3
    (demo_request 3)) as (o & sent & Ho & Hreply).
  - apply surjective_pairing.
  - reflexivity.
  - apply Nat.leb_le. vm_compute. reflexivity.
  - destruct Hreply as [[r ->]|(_ & Hto & _)].
    + apply demo_engine_ok.
    + exact (demo_memory_rel 0).
    + apply (bool_decide_unpack _). vm_compute. exact I.
    + exists r, sent. exact Ho.
    + vm_compute in Hto. by destruct Hto.
Defined.
