(* ===== verification/Slots.v ===== *)
(** * Requests in flight

    The slots of [internal/httpapi/server.go] as a state machine: [wrap] takes a slot
    with [acquireSlot] before a handler runs, and gives it back, by [defer], when the
    handler returns or panics. The theorems about one request ([Service]) hold for any
    number of slots taken; here that number is what the requests before it made of it. *)

From S2P Require Import Prelude GoText Pipeline Engine Config Http.

Section Slots.
Context (s : Server).

Definition capacity : Z := MaxInflight (cfg_Server (srv_cfg s)).

(** The slots taken, and the requests whose handlers run. *)
Record inflight := MkInflight { if_taken : Z; if_inside : list nat }.

Inductive event := Enter (id : nat) | TurnAway (id : nat) | Leave (id : nat).

Inductive slot_step : inflight → event → inflight → Prop :=
| step_enter id n taken inside :
    id ∉ inside → acquireSlot s taken = Some n →
    slot_step (MkInflight taken inside) (Enter id) (MkInflight n (id :: inside))
| step_turn_away id taken inside :
    id ∉ inside → acquireSlot s taken = None →
    slot_step (MkInflight taken inside) (TurnAway id) (MkInflight taken inside)
| step_leave i id taken inside :
    inside !! i = Some id →
    slot_step (MkInflight taken inside) (Leave id) (MkInflight (release taken) (delete i inside)).

Inductive slot_trace : inflight → list event → inflight → Prop :=
| trace_nil st : slot_trace st [] st
| trace_cons st e st' es st'' : slot_step st e st' → slot_trace st' es st'' → slot_trace st (e :: es) st''.

Definition idle : inflight := MkInflight 0 [].

(** Every slot taken belongs to one request, and there are no more than configured. *)
Record slots_ok (st : inflight) : Prop := {
  so_taken : if_taken st = Z.of_nat (length (if_inside st));
  so_bound : if_taken st <= capacity;
  so_once : NoDup (if_inside st)
}.

Lemma acquireSlot_Some taken n : acquireSlot s taken = Some n ↔ n = taken + 1 ∧ taken < capacity.
Proof.
  unfold acquireSlot, capacity. case_match eqn:E; split; [intros [= <-]; lia|intros [-> _]; done|done|intros [_ ?]; lia].
Qed.

Lemma acquireSlot_None taken : acquireSlot s taken = None ↔ capacity <= taken.
Proof. unfold acquireSlot, capacity. case_match eqn:E; split; (done || lia). Qed.

Lemma slot_step_ok st e st' : slots_ok st → slot_step st e st' → slots_ok st'.
Proof.
  intros [Ht Hb Hn] Hs. destruct Hs as [id n taken inside Hid Hs|id taken inside _ _|i id taken inside Hi]; cbn in *; [|done|].
  - apply acquireSlot_Some in Hs as [-> ?]. split; cbn; [lia|lia|by constructor].
  - pose proof (lookup_lt_Some _ _ _ Hi). split; cbn; unfold release.
    + rewrite length_delete by done. lia.
    + lia.
    + rewrite delete_take_drop. rewrite <- (take_drop_middle _ _ _ Hi) in Hn.
      apply NoDup_app in Hn as (? & Hnot & [_ ?]%NoDup_cons). apply NoDup_app. split_and!; [done| |done].
      intros x Hx Hd. apply (Hnot x Hx). by right.
Qed.

Lemma slot_trace_ok st es st' : slots_ok st → slot_trace st es st' → slots_ok st'.
Proof. intros Hok Ht. revert Hok. induction Ht as [|? ? ? ? ? Hs _ IH]; [done|]. intros Hok. by eapply IH, slot_step_ok. Qed.

Lemma slots_idle_ok : 0 <= capacity → slots_ok idle.
Proof. intros Hc. split; [done|done|constructor]. Qed.
End Slots.

(** C16: whatever order requests enter and leave in, the slots taken are exactly the
    requests whose handlers run, never more than configured; a new request is turned
    away exactly when that many run and admitted otherwise; and a request that runs can
    leave, so no slot is lost. *)
Theorem inflight_bounded s es st :
  0 < capacity s → slot_trace s idle es st →
  if_taken st = Z.of_nat (length (if_inside st)) ∧ if_taken st <= capacity s ∧ NoDup (if_inside st) ∧
  (∀ id, id ∉ if_inside st →
    ((∃ st', slot_step s st (TurnAway id) st') ↔ if_taken st = capacity s) ∧
    ((∃ st', slot_step s st (Enter id) st') ↔ if_taken st < capacity s)) ∧
  (∀ id, id ∈ if_inside st → ∃ st', slot_step s st (Leave id) st' ∧ if_taken st' = if_taken st - 1).
Proof.
  intros Hc Ht. destruct (slot_trace_ok s _ _ _ (slots_idle_ok s ltac:(lia)) Ht) as [Htk Hb Hn].
  destruct st as [taken inside]. cbn in *. split_and!; [done|done|done| |].
  - intros id Hid. split; split.
    + intros [st' Hs]. inversion Hs as [| ? ? ? ? Hnone|]; subst. apply acquireSlot_None in Hnone. lia.
    + intros He. eexists. constructor; [done|]. apply acquireSlot_None. lia.
    + intros [st' Hs]. inversion Hs as [? ? ? ? ? Hsome| |]; subst. by apply acquireSlot_Some in Hsome as [_ ?].
    + intros Hl. eexists. apply (step_enter s id (taken + 1)); [done|]. by apply acquireSlot_Some.
  - intros id [i Hi]%list_elem_of_lookup_1. eexists. split; [by eapply step_leave|]. reflexivity.
Qed.

(** One slot: the second request is turned away until the first has left. *)
Definition one_slot : Server := Http.MkServer
  (MkConfig (Config.MkServer ":8080" 0 0 0 1 [] []) (MkStore "memory" [] 0 0 0 0 []) (MkLLM [] [] [] 0)
    (MkLogging [] []) [])
  (MkEngine (NewPipeline []) ∅).

Lemma inflight_bounded_witness :
  slot_trace one_slot idle [Enter 1; TurnAway 2; Leave 1; Enter 2] (MkInflight 1 [2]%nat) ∧
  ¬ (∃ st', slot_step one_slot (MkInflight 1 [2]%nat) (Enter 3) st').
Proof.
  assert (slot_trace one_slot idle [Enter 1; TurnAway 2; Leave 1; Enter 2] (MkInflight 1 [2]%nat)) as Ht.
  { eapply trace_cons; [apply step_enter; [apply not_elem_of_nil|reflexivity]|].
    eapply trace_cons; [apply step_turn_away; [by intros [=]%list_elem_of_singleton|reflexivity]|].
    eapply trace_cons; [apply (step_leave _ 0); reflexivity|].
    eapply trace_cons; [apply step_enter; [apply not_elem_of_nil|reflexivity]|constructor]. }
  split; [exact Ht|]. intros He.
  destruct (inflight_bounded one_slot _ _ (ltac:(reflexivity)) Ht) as (_ & _ & _ & Hnew & _).
  destruct (Hnew 3%nat) as [_ [Henter _]]; [by intros [=]%list_elem_of_singleton|].
  specialize (Henter He). cbn in Henter. done.
Defined.
