(* ===== verification/RequestLog.v ===== *)
(** * The request log

    [logRequest], [systemLabel] and [categoryMap] of [internal/httpapi]: the line that
    the middleware writes for every request, rejected ones included. The durations, the
    number of chunks and the stage timings are arguments; the metrics that
    [logRequest] also updates are not modelled. *)

From S2P Require Import Prelude GoText Pii Store Engine Config Http Service.

Inductive attr := AString (s : bytes) | AInt (n : Z) | ACounts (m : gmap bytes Z).

(** The number of chunks and the milliseconds of the stages: detection, masking, store,
    upstream. *)
Record timings := MkTimings { tm_chunks : Z; tm_duration : Z; tm_detect : Z; tm_mask : Z; tm_store : Z; tm_llm : Z }.

Definition route_name (r : route) : bytes :=
  match r with
  | routeProcess => "process"
  | routeMask => "mask"
  | routeUnmask => "unmask"
  | routeChat => "chat"
  | routeHealthz => "healthz"
  | routeReadyz => "readyz"
  end.

Definition direction_name (d : direction) : bytes :=
  match d with dirNone => [] | dirMask => "mask" | dirUnmask => "unmask" | dirProxy => "proxy" end.

Definition systemLabel (r : route) (auth : option System) : bytes :=
  match auth with
  | Some sys => ID sys
  | None => if bool_decide (r = routeHealthz) || bool_decide (r = routeReadyz) then "public" else "unknown"
  end.

(** [categoryMap] copies the counts, with the categories as strings. *)
Definition categoryMap (found : counter) : gmap bytes Z := found.

(** [if cond { attrs = append(attrs, key, value) }] *)
Definition attr_if (cond : bool) (key : bytes) (value : attr) : list (bytes * attr) := if cond then [(key, value)] else [].

Definition logRequest (hashID : bytes → bytes) (r : route) (auth : option System) (st : Z) (tm : timings) (i : reqInfo)
    : list (bytes * attr) :=
  let found := default ∅ (ri_found i) in
  [(go_bytes "system", AString (systemLabel r auth)); (go_bytes "route", AString (route_name r));
   (go_bytes "direction", AString (direction_name (ri_direction i))); (go_bytes "status", AInt st);
   (go_bytes "duration_ms", AInt (tm_duration tm))] ++
  attr_if (negb (is_empty (ri_payloadID i))) "payload_id" (AString (hashID (ri_payloadID i))) ++
  attr_if (0 <? ri_textLen i) "text_len" (AInt (ri_textLen i)) ++
  attr_if (0 <? tm_chunks tm) "chunks" (AInt (tm_chunks tm)) ++
  attr_if (negb (bool_decide (found = ∅))) "found" (ACounts (categoryMap found)) ++
  attr_if (0 <? ri_misses i) "misses" (AInt (ri_misses i)) ++
  attr_if (0 <? ri_tokens i) "tokens" (AInt (ri_tokens i)) ++
  [(go_bytes "detect_ms", AInt (tm_detect tm)); (go_bytes "mask_ms", AInt (tm_mask tm)); (go_bytes "store_ms", AInt (tm_store tm))] ++
  attr_if (0 <? tm_llm tm) "llm_ms" (AInt (tm_llm tm)).

(** The line that [wrap] writes for a request with this reply, when [taken] slots were
    taken: without a slot nobody is authenticated. *)
Definition request_log (hashID : bytes → bytes) (s : Http.Server) (getenv : bytes → bytes) (taken : Z) (rq : http_request)
    (r : reply) (tm : timings) : list (bytes * attr) :=
  let auth := match acquireSlot s taken with None => None | Some _ => caller s getenv rq end in
  logRequest hashID (route_of rq) auth (status r) tm (info r).

Lemma attr_if_string cond key value k v : (k, AString v) ∈ attr_if cond key value → value = AString v.
Proof. unfold attr_if. destruct cond; [|by intros ?%elem_of_nil]. by intros [= _ ->]%list_elem_of_singleton. Qed.

(** Every string in the line of a request is the id of a configured system or one of two
    fixed labels, a route, a direction, or the keyed hash of the payload id: no text and
    no raw id. *)
Lemma request_log_strings hashID s getenv taken rq r tm k v :
  (k, AString v) ∈ request_log hashID s getenv taken rq r tm →
  (∃ sys, sys ∈ Systems (srv_cfg s) ∧ v = ID sys) ∨ v = "public" ∨ v = "unknown" ∨
  v = route_name (route_of rq) ∨ v = direction_name (ri_direction (info r)) ∨ v = hashID (ri_payloadID (info r)).
Proof.
  unfold request_log, logRequest. rewrite !elem_of_app, !elem_of_cons, elem_of_nil.
  intros [Hin|[Hin|[Hin|[Hin|[Hin|[Hin|[Hin|[Hin|Hin]]]]]]]]; try (by apply attr_if_string in Hin; simplify_eq; tauto).
  - destruct Hin as [[= _ ->]|[[= _ ->]|[[= _ ->]|[?|[?|[]]]]]]; [|tauto|tauto|done|done].
    unfold systemLabel. destruct (acquireSlot s taken); [|case_match; tauto].
    destruct (caller s getenv rq) as [sys|] eqn:E.
    + left. exists sys. split; [|done]. by apply caller_config in E as [? _].
    + case_match; tauto.
  - by destruct Hin as [?|[?|[?|[]]]].
Qed.

Example log_of_rejected :
  logRequest id routeMask None 401 (MkTimings 0 3 0 0 0 0) no_info =
  [(go_bytes "system", AString "unknown"); (go_bytes "route", AString "mask"); (go_bytes "direction", AString []);
   (go_bytes "status", AInt 401); (go_bytes "duration_ms", AInt 3); (go_bytes "detect_ms", AInt 0);
   (go_bytes "mask_ms", AInt 0); (go_bytes "store_ms", AInt 0)].
Proof. by vm_compute. Qed.
