(* ===== verification/Program.v ===== *)
(** * The program as it is built

    The start of [cmd/pdn-shield/main.go], up to the listening servers: the configuration,
    the encryption key, the store and the engine. Then the theorems about the service
    ([Service]) for the server it starts: what is left to assume is that the texts are
    plain, and the libraries' laws.

    The flag and the environment variable that name the file, the parser of YAML, the
    decoders of the key and the client of the Redis server are arguments; metrics, logger,
    signals and shutdown are not modelled. *)

From S2P Require Import Prelude GoText Float64 Pii Mask Strategies Pipeline Synth Dict Synthetic Crypto Store Chunk Engine.
From S2P Require Import Citizenship Main System Safety Config Http Chat Service.

(** ** Start *)

Section Start.
Context `{Unicode} `{SliceSort} `{Rng} `{CountryOrder} `{RedisServer}.
Context (hex_decode base64_decode : bytes → option bytes).

(** [config.Load] of a file that was read and parsed, or could not be. *)
Definition Load (file : option Config) : option Config :=
  cfg ← file;
  match Validate cfg with Ret _ => Some cfg | _ => None end.

Definition loadEncryptionKey (cfg : Config) (getenv : bytes → bytes) (rand_read : option bytes) : option bytes :=
  let keyEnv := EncryptionKeyEnv (cfg_Store cfg) in
  let keyEnv := if bool_decide (keyEnv = []) then go_bytes "PDN_ENC_KEY" else keyEnv in
  match KeyFromEnv hex_decode base64_decode (getenv keyEnv) rand_read with Ret key => Some key | _ => None end.

Inductive backend := MemoryBackend (m : Memory) | RedisBackend (r : Redis).

(** [client] is connected to the server at the configured address. *)
Definition newRedisStore (client : srv) (key : bytes) : option backend :=
  match New key with Ret c => Some (RedisBackend (MkRedis client c key)) | _ => None end.

Definition newMemoryStore (key : bytes) : option backend :=
  match NewMemory key with Ret m => Some (MemoryBackend m) | _ => None end.

Definition newStore (cfg : Config) (client : srv) (key : bytes) : option backend :=
  if bool_decide (Kind (cfg_Store cfg) = go_bytes "redis") then newRedisStore client key else newMemoryStore key.

(** What runs after the start: the server and its store. *)
Record started := MkStarted { sd_server : Http.Server; sd_store : backend; sd_key : bytes }.

(** [None]: the process exits. *)
Definition main (file : option Config) (getenv : bytes → bytes) (rand_read : option bytes) (client : srv) : option started :=
  cfg ← Load file;
  key ← loadEncryptionKey cfg getenv rand_read;
  st ← newStore cfg client key;
  eng ← main_engine;
  Some (MkStarted (Http.MkServer cfg eng) st key).

(** The store the configuration asks for, with the key, and nothing kept yet. *)
Definition fresh_store (cfg : Config) (client : srv) (key : bytes) (b : backend) : Prop :=
  match b with
  | MemoryBackend m => Kind (cfg_Store cfg) = go_bytes "memory" ∧ m = MkMemory ∅ (MkCipher key) key
  | RedisBackend r => Kind (cfg_Store cfg) = go_bytes "redis" ∧ r = MkRedis client (MkCipher key) key
  end.

Lemma New_key key c : New key = Ret c → c = MkCipher key ∧ len key = 32.
Proof. unfold New. destruct (len key =? 32) eqn:E; cbn [negb]; [intros [= <-]; split; [done|lia]|done]. Qed.

Lemma newStore_spec cfg client key b :
  Validate cfg = Ret () → newStore cfg client key = Some b → fresh_store cfg client key b ∧ len key = 32.
Proof.
  intros [_ _ Hk _ _ _]%Validate_valid. unfold newStore, newRedisStore, newMemoryStore, NewMemory.
  case_bool_decide as Hr.
  - destruct (New key) as [c| |] eqn:E; [|done|done]. apply New_key in E as [-> E]. by intros [= <-].
  - destruct (New key) as [c| |] eqn:E; cbn [mbind outcome_bind]; [|done|done]. apply New_key in E as [-> E]. intros [= <-].
    split; [|done]. split; [|done]. destruct Hk as [|[? _]]; done.
Qed.

Lemma main_started file getenv rand_read client p :
  main file getenv rand_read client = Some p →
  file = Some (srv_cfg (sd_server p)) ∧ Validate (srv_cfg (sd_server p)) = Ret () ∧
  main_engine = Some (srv_engine (sd_server p)) ∧
  fresh_store (srv_cfg (sd_server p)) client (sd_key p) (sd_store p) ∧ len (sd_key p) = 32.
Proof.
  unfold main, Load. destruct file as [cfg|]; [|done]. cbn [mbind option_bind].
  destruct (Validate cfg) as [[]| |] eqn:Ev; [|done|done]. cbn [mbind option_bind].
  destruct (loadEncryptionKey cfg getenv rand_read) as [key|]; [|done]. cbn [mbind option_bind].
  destruct (newStore cfg client key) as [st|] eqn:Es; [|done]. cbn [mbind option_bind].
  destruct (newStore_spec _ _ _ _ Ev Es) as [Hs Hk]. generalize dependent main_engine.
  intros [e|]; [|done]. cbn [mbind option_bind]. intros [= <-]. cbn [sd_server srv_cfg srv_engine sd_store sd_key]. done.
Qed.
End Start.

(** C1: the service that [main] starts, over either store, with any upstream model and in
    every interleaving of requests whose texts are plain: a request that had five turns
    has ended; no finished request panicked, so each has a reply, unless it waits for an
    upstream that never ends and the client has no positive timeout; what a reply has
    unmasked was unmasked for an authenticated system with the permission, from pieces of
    texts that this system had submitted; and what goes to the model upstream is what the
    program's engine makes of the messages, for their authenticated system. *)
Theorem program_confidential `{Unicode} `{SliceSort} `{Rng} `{CountryOrder} `{Sha256} `{MapRange} `{ChunkJson} `{StoreImpl}
    `{RedisServer} hex64 base64 file environ rand_key client p c getenv rqs sched t st st' ps :
  main hex64 base64 file environ rand_key client = Some p →
  let s := sd_server p in
  Forall plain (masked_texts s getenv rqs) → impl_rel t ∅ st →
  schedule_ok t sched st (threads s c getenv rqs) → run_schedule sched st (threads s c getenv rqs) = (st', ps) →
  ∀ i taken rq, rqs !! i = Some (taken, rq) →
  ((5 <= length (filter (λ x, x.1 = i) sched))%nat → ∃ o sent, ps !! i = Some (Done (o, sent)) ∧
     (0 < timeout c → ∃ r, o = Some r)) ∧
  ∀ o sent, ps !! i = Some (Done (o, sent)) →
    (o = None → ∃ q, sent = Some q ∧ upstream c q = None ∧ timeout c <= 0) ∧
    (∀ r, o = Some r → ∀ input out, unmasked_in rq r = Some (input, out) →
      ∃ sys, caller s getenv rq = Some sys ∧
        (input = out ∨ sys_Unmask sys = true ∧ reveals_own s getenv rqs sys input out)) ∧
    (∀ q, sent = Some q → ∃ sys h rand b req strategy, caller s getenv rq = Some sys ∧
      rq = PostChat h rand b ∧ decoded_body b = Some req ∧ strategyOverride sys (ci_Strategy req) = inl strategy ∧
      batch_masked (srv_engine s) (map Content (ci_Messages req)) (set_strategy (optionsFor s sys) strategy)
        (map Content (Messages q))).
Proof.
  intros (_ & Hv & He & _)%main_started s Hp Hr Hok Hrun i taken rq Hrq.
  pose proof (main_engine_plain _ _ He Hp) as Hen. clear He. subst s.
  pose proof (λ o, confidential (sd_server p) c getenv rqs sched t st st' ps i taken rq o Hv Hen Hr Hok Hrun Hrq) as Hconf.
  split.
  - intros Hturns. destruct (ends (sd_server p) c getenv rqs sched st st' ps i taken rq Hrun Hrq Hturns) as (o & sent & Ho).
    exists o, sent. split; [exact Ho|]. intros Hto. destruct (Hconf _ Ho) as [Hh _]. destruct o as [r|]; [by exists r|].
    destruct Hh as (q & _ & _ & ?); [reflexivity|]. lia.
  - intros o sent Ho. destruct (Hconf _ Ho) as [Hh Hrev]. split; [exact Hh|]. split; [exact Hrev|]. intros q ->.
    destruct (sent_upstream (sd_server p) c getenv rqs sched t st st' ps i taken rq o q Hen Hr Hok Hrun Hrq Ho)
      as (sys & h & rand & b & req & strategy & Hc & Hq & Hb & Hs & _ & _ & Hm).
    by exists sys, h, rand, b, req, strategy.
Qed.

(** The in-memory store that [main] makes meets the contract's empty state at any time. *)
Lemma program_memory `{Unicode} `{SliceSort} `{Rng} `{CountryOrder} `{RedisServer} `{Codec} `{Aead} `{Hmac}
    hex64 base64 file environ rand_key client p m t :
  main hex64 base64 file environ rand_key client = Some p → sd_store p = MemoryBackend m →
  Memory_rel (sd_key p) t ∅ m.
Proof.
  intros (_ & _ & _ & Hs & _)%main_started E. rewrite E in Hs. destruct Hs as [_ ->].
  split; [done| |]; intros; unfold Memory_live, live; simpl in *; by rewrite ?lookup_empty in *.
Qed.

(** Two requests: one masks a payload, one unmasks an answer. *)
Definition program_server : Http.Server := Http.MkServer demo_config (default (MkEngine (NewPipeline []) ∅) main_engine).

Definition program_start : started := MkStarted program_server (MemoryBackend demo_memory) demo_key.

Lemma program_starts :
  @main _ _ _ _ map_redis (λ _, None) (λ _, None) (Some demo_config) no_env (Some demo_key) ∅ = Some program_start.
Proof.
  unfold main. replace (Load (Some demo_config)) with (Some demo_config) by (vm_compute; reflexivity).
  unfold program_start, program_server. rewrite (main_engine_default (MkEngine (NewPipeline []) ∅)) at 1.
  reflexivity.
Qed.

Definition program_payload : bytes := "Клиент Иванов Иван Петрович, тел. +7 916 123-45-67".

Definition program_requests : list (Z * http_request) :=
  let crm := MkHeaders "crm" "k1" in
  [(0, PostProcess crm (MkBody (Decoded (MkProcessRequest (Some program_payload) "doc")) false));
   (0, PostUnmask crm (MkBody (Decoded (MkUnmaskRequest "doc" "[FULL_NAME_1]: [PHONE_1]")) false))].

Definition program_turns : list (nat * Env) := zip [0; 0; 0; 0; 0; 1; 1; 1; 1; 1]%nat (demo_env <$> [1; 2; 3; 4; 5; 6; 7; 8; 9; 10]).

Definition program_run : Memory * list (prog handled) :=
  run_schedule program_turns demo_memory (threads program_server echo_llm no_env program_requests).
Example program_replies :
  map (λ p, match p with Done (Some r, _) => Some (body_ r) | _ => None end) program_run.2 =
  [Some (ProcessBody (MkProcessResponse "Клиент [FULL_NAME_1], тел. [PHONE_1]"));
   Some (UnmaskBody (MkUnmaskResponse "Иванов Иван Петрович: +7 916 123-45-67" 0))].
Proof. vm_compute. reflexivity. Qed.

Lemma program_confidential_witness :
  ∃ sys, caller program_server no_env (nth 1 (map snd program_requests) GetHealthz) = Some sys ∧
    reveals_own program_server no_env program_requests sys
      "[FULL_NAME_1]: [PHONE_1]" "Иванов Иван Петрович: +7 916 123-45-67".
Proof.
  set (rq := nth 1 (map snd program_requests) GetHealthz).
  assert (∃ o, program_run.2 !! 1%nat = Some (Done (o, None)) ∧
    unmasked_in rq (default (MkReply 0 (Error []) no_info) o) =
      Some (go_bytes "[FULL_NAME_1]: [PHONE_1]", go_bytes "Иванов Иван Петрович: +7 916 123-45-67")) as (o & Ho & Hun).
  { exists (Some (MkReply StatusOK (UnmaskBody (MkUnmaskResponse "Иванов Иван Петрович: +7 916 123-45-67" 0))
      (MkReqInfo "doc" dirUnmask 24 None 0 9))). split; vm_compute; reflexivity. }
  destruct (@program_confidential _ _ _ _ _ _ _ _ demo_store map_redis (λ _, None) (λ _, None) (Some demo_config) no_env
    (Some demo_key) ∅ program_start echo_llm no_env program_requests program_turns 0 demo_memory program_run.1 program_run.2)
    with (i := 1%nat) (taken := 0) (rq := rq) as [_ Hall].
  - exact program_starts.
  - apply (bool_decide_unpack _). vm_compute. exact I.
  - exact (demo_memory_rel 0).
  - apply (bool_decide_unpack _). vm_compute. exact I.
  - exact (surjective_pairing program_run).
  - reflexivity.
  - destruct (Hall o None Ho) as (_ & Hrev & _). destruct o as [r|]; [|discriminate Hun].
    destruct (Hrev r eq_refl _ _ Hun) as (sys & Hc & [E|[_ Hown]]); [discriminate E|].
    exists sys. exact (conj Hc Hown).
Defined.
