(* ===== verification/Loadtest.v ===== *)
(** * The load generator

    Models [loadtest/main.go]: the command that drives the service with pairs of
    requests, one that masks a text and one that must restore it, and counts what came
    of them. The generator of jobs, the workers and the end of the run are one machine
    whose steps interleave; the counters are its state. The HTTP client is an oracle
    that answers each attempt; flags, the dataset file and the text of the report are
    not modelled. *)

From S2P Require Import Prelude GoText Float64.

(** ** Counters *)

Inductive kind := kindMask | kindUnmask.

Record counters := MkCounters {
  total : Z; pairs : Z; offeredPairs : Z; droppedPairs : Z; badRound : Z;
  networkErrors : Z; cancelledAtShutdown : Z; successOK : Z;
  byCode : gmap Z Z; maskLat : list Z; unmaskLat : list Z
}.

Definition no_counts : counters := MkCounters 0 0 0 0 0 0 0 0 ∅ [] [].

Definition StatusOK : Z := 200.

(** [record]; its additions are atomic and commute, so they are one step. *)
Definition record (k : kind) (lat code : Z) (err cancelled : bool) (c : counters) : counters :=
  let byCode' := <[code := default 0 (byCode c !! code) + 1]> (byCode c) in
  let '(net, can, ok) :=
    if cancelled then (networkErrors c, cancelledAtShutdown c + 1, successOK c)
    else if err then (networkErrors c + 1, cancelledAtShutdown c, successOK c)
    else if code =? StatusOK then (networkErrors c, cancelledAtShutdown c, successOK c + 1)
    else (networkErrors c, cancelledAtShutdown c, successOK c) in
  let '(ml, ul) :=
    match k with
    | kindMask => (maskLat c ++ [lat], unmaskLat c)
    | kindUnmask => (maskLat c, unmaskLat c ++ [lat])
    end in
  MkCounters (total c + 1) (pairs c) (offeredPairs c) (droppedPairs c) (badRound c) net can ok byCode' ml ul.

Definition add_pairs (n : Z) (c : counters) : counters :=
  MkCounters (total c) (pairs c + n) (offeredPairs c) (droppedPairs c) (badRound c) (networkErrors c)
    (cancelledAtShutdown c) (successOK c) (byCode c) (maskLat c) (unmaskLat c).

Definition add_offered (n : Z) (c : counters) : counters :=
  MkCounters (total c) (pairs c) (offeredPairs c + n) (droppedPairs c) (badRound c) (networkErrors c)
    (cancelledAtShutdown c) (successOK c) (byCode c) (maskLat c) (unmaskLat c).

Definition add_dropped (n : Z) (c : counters) : counters :=
  MkCounters (total c) (pairs c) (offeredPairs c) (droppedPairs c + n) (badRound c) (networkErrors c)
    (cancelledAtShutdown c) (successOK c) (byCode c) (maskLat c) (unmaskLat c).

Definition add_bad (n : Z) (c : counters) : counters :=
  MkCounters (total c) (pairs c) (offeredPairs c) (droppedPairs c) (badRound c + n) (networkErrors c)
    (cancelledAtShutdown c) (successOK c) (byCode c) (maskLat c) (unmaskLat c).

(** ** One request *)

(** The result of [doProcess]: the text, the status code, whether there is an error. *)
Record outcome := MkOutcome { o_result : bytes; o_code : Z; o_err : bool }.

(** What the client answers: no request or no response, or a response with its status
    and its decoded body. *)
Inductive response := NoResponse | Response (status : Z) (decoded : option bytes).

Definition doProcess (r : response) : outcome :=
  match r with
  | NoResponse => MkOutcome [] 0 true
  | Response status decoded =>
      if negb (status =? StatusOK) then MkOutcome [] status false
      else match decoded with
           | None => MkOutcome [] status true
           | Some result => MkOutcome result status false
           end
  end.

Definition maxRetryAttempts : nat := 4.

(** The loop of [sendWithRetry]: [world i] is the answer to attempt [i] and whether the
    run is over after it. The number of attempts made is returned too. *)
Fixpoint send_loop (attempts : nat) (world : nat → response * bool) (i : nat) (last : outcome) : outcome * nat :=
  match attempts with
  | O => (last, i)
  | S attempts =>
      let '(r, over) := world i in
      let o := doProcess r in
      if negb (o_err o) && (o_code o =? StatusOK) then (MkOutcome (o_result o) (o_code o) false, S i)
      else if over then (o, S i)
      else send_loop attempts world (S i) o
  end.

Definition sendWithRetry (retry : bool) (world : nat → response * bool) : outcome * nat :=
  send_loop (if retry then maxRetryAttempts else 1%nat) world 0 (MkOutcome [] 0 false).

(** ** The run *)

(** What a worker does: waits for a job, waits for the answer of its first or its
    second request, or has returned. *)
Inductive phase :=
| Idle
| Masking (seq : Z) (text : bytes)
| Unmasking (seq : Z) (text masked : bytes)
| Exited.

(** The code after the first request: the new counters, and what the worker does next.
    [over1] and [over2] are the two readings of [ctx.Err()]. *)
Definition after_mask (seq : Z) (text : bytes) (o : outcome) (lat : Z) (over1 over2 : bool) (c : counters)
    : counters * phase :=
  let c := record kindMask lat (o_code o) (o_err o) (o_err o && over1) c in
  if o_err o && over2 then (add_pairs (-1) c, Idle)
  else if o_err o || negb (o_code o =? StatusOK) then (add_bad 1 c, Idle)
  else (c, Unmasking seq text (o_result o)).

Definition after_unmask (text : bytes) (o : outcome) (lat : Z) (over1 over2 : bool) (c : counters) : counters :=
  let c := record kindUnmask lat (o_code o) (o_err o) (o_err o && over1) c in
  if o_err o && over2 then add_pairs (-1) c
  else
    let ok := negb (o_err o) && (o_code o =? StatusOK) && eq_bytes (o_result o) text in
    if negb ok then add_bad 1 c else c.

Record run := MkRun {
  rn_counts : counters;
  rn_seq : Z;
  rn_due : Z;
  rn_jobs : list Z;
  rn_closed : bool;
  rn_over : bool;
  rn_workers : list phase
}.

(** A pair is offered: the send does not block, a full buffer drops the pair. *)
Definition offer (capacity : Z) (s : run) : run :=
  let seq := rn_seq s + 1 in
  let c := add_offered 1 (rn_counts s) in
  if Z.of_nat (length (rn_jobs s)) <? capacity
  then MkRun c seq (rn_due s) (rn_jobs s ++ [seq]) (rn_closed s) (rn_over s) (rn_workers s)
  else MkRun (add_dropped 1 c) seq (rn_due s) (rn_jobs s) (rn_closed s) (rn_over s) (rn_workers s).

Definition set_worker (w : nat) (p : phase) (s : run) : run :=
  MkRun (rn_counts s) (rn_seq s) (rn_due s) (rn_jobs s) (rn_closed s) (rn_over s) (<[w := p]> (rn_workers s)).

Definition set_counts (c : counters) (s : run) : run :=
  MkRun c (rn_seq s) (rn_due s) (rn_jobs s) (rn_closed s) (rn_over s) (rn_workers s).

Definition set_jobs (jobs : list Z) (s : run) : run :=
  MkRun (rn_counts s) (rn_seq s) (rn_due s) jobs (rn_closed s) (rn_over s) (rn_workers s).

(** [jobsBuffer] of [main]. *)
Definition jobsBuffer (workers : Z) : Z := if workers * 4 <? 1 then 1 else workers * 4.

Section Run.
Context (capacity : Z) (retry : bool) (texts : list bytes).

(** The steps of the generator ([step_tick], [step_offer], [step_close]), of a worker
    and of the clock that ends the run ([step_over]). *)
Inductive run_step : run → run → Prop :=
| step_over s :
    run_step s (MkRun (rn_counts s) (rn_seq s) (rn_due s) (rn_jobs s) (rn_closed s) true (rn_workers s))
| step_tick s due :
    rn_closed s = false → rn_due s <= rn_seq s →
    run_step s (MkRun (rn_counts s) (rn_seq s) due (rn_jobs s) (rn_closed s) (rn_over s) (rn_workers s))
| step_offer s :
    rn_closed s = false → rn_seq s < rn_due s → run_step s (offer capacity s)
| step_close s :
    rn_over s = true → rn_due s <= rn_seq s →
    run_step s (MkRun (rn_counts s) (rn_seq s) (rn_due s) (rn_jobs s) true (rn_over s) (rn_workers s))
| step_take s w seq jobs text :
    rn_workers s !! w = Some Idle → rn_jobs s = seq :: jobs → rn_over s = false → text ∈ texts →
    run_step s (set_worker w (Masking seq text) (set_jobs jobs (set_counts (add_pairs 1 (rn_counts s)) s)))
| step_leave s w seq jobs :
    rn_workers s !! w = Some Idle → rn_jobs s = seq :: jobs → rn_over s = true →
    run_step s (set_worker w Exited (set_jobs jobs s))
| step_drained s w :
    rn_workers s !! w = Some Idle → rn_jobs s = [] → rn_closed s = true →
    run_step s (set_worker w Exited s)
| step_masked s w seq text world lat over1 over2 c p :
    rn_workers s !! w = Some (Masking seq text) →
    (over1 = true → over2 = true) → (over2 = true → rn_over s = true) →
    after_mask seq text (fst (sendWithRetry retry world)) lat over1 over2 (rn_counts s) = (c, p) →
    run_step s (set_worker w p (set_counts c s))
| step_unmasked s w seq text masked world lat over1 over2 :
    rn_workers s !! w = Some (Unmasking seq text masked) →
    (over1 = true → over2 = true) → (over2 = true → rn_over s = true) →
    run_step s (set_worker w Idle (set_counts
      (after_unmask text (fst (sendWithRetry retry world)) lat over1 over2 (rn_counts s)) s)).
End Run.

Definition start (workers : nat) : run := MkRun no_counts 0 0 [] false false (replicate workers Idle).

(** ** The generator's schedule and the report's figures *)

(** [d.Seconds()] of a duration in nanoseconds. *)
Definition Seconds (d : Z) : float64 :=
  f64_add (f64_of_Z (Z.quot d 1000000000)) (f64_div (f64_of_Z (Z.rem d 1000000000)) (f64_of_Z 1000000000)).

(** [int64(x)] of a finite value: its integer part. *)
Definition f64_trunc (x : float64) : Z :=
  match x with
  | S754_finite s m e =>
      let n := if 0 <=? e then Z.pos m * 2 ^ e else Z.pos m / 2 ^ (- e) in
      if s then - n else n
  | _ => 0
  end.

(** [int(math.Ceil(x))] of a finite value that is not negative. *)
Definition f64_ceil (x : float64) : Z :=
  match x with
  | S754_finite false m e => if 0 <=? e then Z.pos m * 2 ^ e else - (- Z.pos m / 2 ^ (- e))
  | _ => 0
  end.

(** The pairs due after a time [elapsed] in nanoseconds. *)
Definition due_pairs (rps elapsed : Z) : Z :=
  f64_trunc (f64_div (f64_mul (Seconds elapsed) (f64_of_Z rps)) (f64_of_Z 2)).

Definition percentile (sorted : list Z) (p : float64) : Z :=
  let n := Z.of_nat (length sorted) in
  if n =? 0 then 0
  else
    let idx := f64_ceil (f64_mul p (f64_of_Z n)) - 1 in
    let idx := if idx <? 0 then 0 else idx in
    let idx := if n <=? idx then n - 1 else idx in
    default 0 (sorted !! Z.to_nat idx).

(** The rows of [writeLatency]. *)
Definition latency_rows `{SliceSort} (lat : list Z) : option (list Z) :=
  if (length lat =? 0)%nat then None
  else
    let lat := sort_slice Z.ltb lat in
    Some (map (λ '(n, d), percentile lat (f64_lit n d)) [(1, 2); (9, 10); (19, 20); (99, 100)] ++ [default 0 (last lat)]).

Definition pct (n total : Z) : float64 :=
  if total =? 0 then f64_of_Z 0 else f64_mul (f64_div (f64_of_Z n) (f64_of_Z total)) (f64_of_Z 100).

Example percentile_99 : percentile (map Z.of_nat (seq 1 200)) (f64_lit 99 100) = 198. Proof. by vm_compute. Qed.
Example due_after_second : due_pairs 1000 1000000000 = 500. Proof. by vm_compute. Qed.

(** A percentile is one of the samples, whatever the rounding of [p * n] does. *)
Lemma percentile_in sorted p : sorted ≠ [] → percentile sorted p ∈ sorted.
Proof.
  intros Hs. assert (0 < Z.of_nat (length sorted)) as Hl by (destruct sorted; [done|simpl; lia]).
  unfold percentile. replace (_ =? 0) with false by lia. set (i := f64_ceil _ - 1).
  set (j := if i <? 0 then 0 else i). set (k := if Z.of_nat (length sorted) <=? j then _ else j).
  destruct (lookup_lt_is_Some_2 sorted (Z.to_nat k)) as [x Hx].
  { unfold k, j. repeat case_match; lia. }
  rewrite Hx. by apply list_elem_of_lookup_2 in Hx.
Qed.

(** ** One request: bounded and faithful *)

Definition succeeded (o : outcome) : bool := negb (o_err o) && (o_code o =? StatusOK).

Lemma send_loop_spec attempts world i last o n :
  send_loop attempts world i last = (o, n) →
  (attempts = 0%nat ∧ n = i ∧ o = last ∨
   (i < n <= i + attempts)%nat ∧ o = doProcess (fst (world (n - 1)%nat))) ∧
  ∀ j, (i <= j < n - 1)%nat → snd (world j) = false ∧ succeeded (doProcess (fst (world j))) = false.
Proof.
  revert i last. induction attempts as [|attempts IH]; intros i last; cbn [send_loop].
  { intros [= <- <-]. split; [by left|]. intros j. lia. }
  destruct (world i) as [r over] eqn:Ew. fold (succeeded (doProcess r)). destruct (succeeded (doProcess r)) eqn:Eok.
  { intros [= <- <-]. split; [right; split; [lia|]|intros j; lia]. replace (S i - 1)%nat with i by lia. rewrite Ew.
    unfold succeeded in Eok. apply andb_true_iff in Eok as [He _]. cbn [fst]. destruct (doProcess r) as [x y z].
    cbn in *. by destruct z. }
  destruct over.
  { intros [= <- <-]. split; [right; split; [lia|]|intros j; lia]. replace (S i - 1)%nat with i by lia. by rewrite Ew. }
  intros (Hn & Hj)%IH. split.
  - right. destruct Hn as [(_ & -> & ->)|[? ->]]; (split; [lia|]); [|done].
    replace (S i - 1)%nat with i by lia. by rewrite Ew.
  - intros j Hjr. destruct (decide (j = i)) as [->|]; [by rewrite Ew|]. apply Hj. lia.
Qed.

(** [sendWithRetry] makes one to four attempts, returns what the last one got, and goes
    on only after a failure while the run is not over. *)
Lemma sendWithRetry_spec retry world o n :
  sendWithRetry retry world = (o, n) →
  (1 <= n <= if retry then maxRetryAttempts else 1)%nat ∧ o = doProcess (fst (world (n - 1)%nat)) ∧
  ∀ j, (j < n - 1)%nat → snd (world j) = false ∧ succeeded (doProcess (fst (world j))) = false.
Proof.
  unfold sendWithRetry, maxRetryAttempts. intros (Hn & Hj)%send_loop_spec. destruct Hn as [(? & _)|[? ->]]; [by destruct retry|].
  split_and!; [lia|destruct retry; lia|done|]. intros j ?. apply Hj. lia.
Qed.

(** ** Invariants of the counters *)

Definition sum_codes (m : gmap Z Z) : Z := map_fold (λ _ n acc, n + acc) 0 m.

Lemma sum_codes_insert m code : sum_codes (<[code := default 0 (m !! code) + 1]> m) = sum_codes m + 1.
Proof.
  unfold sum_codes. assert (∀ k v (m : gmap Z Z), m !! k = None →
    map_fold (λ _ n acc, n + acc) 0 (<[k := v]> m) = v + map_fold (λ _ n acc, n + acc) 0 m) as Hins.
  { intros k v m' Hm. apply (map_fold_insert_L (λ (_ : Z) n acc, n + acc)); [intros; cbn beta; lia|done]. }
  destruct (m !! code) as [v|] eqn:E; [|rewrite Hins by done; simpl; lia].
  rewrite <- insert_delete_eq, Hins by apply lookup_delete_eq.
  rewrite <- (insert_delete_id m code v E) at 2. rewrite Hins by apply lookup_delete_eq. simpl. lia.
Qed.

(** What holds of the figures of single requests. *)
Record requests_ok (c : counters) : Prop := {
  ro_samples : total c = Z.of_nat (length (maskLat c)) + Z.of_nat (length (unmaskLat c));
  ro_codes : total c = sum_codes (byCode c);
  ro_outcomes : 0 <= networkErrors c ∧ 0 <= cancelledAtShutdown c ∧ 0 <= successOK c ∧
    networkErrors c + cancelledAtShutdown c + successOK c <= total c
}.

Lemma record_ok k lat code err cancelled c :
  requests_ok c → requests_ok (record k lat code err cancelled c).
Proof.
  intros [Hs Hc Ho]. unfold record.
  destruct k; repeat case_match; simplify_eq; split; cbn; rewrite ?sum_codes_insert, ?length_app; cbn; lia.
Qed.

(** The job that a worker is busy with. *)
Definition job_of (p : phase) : option Z :=
  match p with
  | Idle | Exited => None
  | Masking seq _ | Unmasking seq _ _ => Some seq
  end.

Definition weight (p : phase) : Z := match job_of p with Some _ => 1 | None => 0 end.

Definition busy (ws : list phase) : Z := foldr (λ p n, weight p + n) 0 ws.

Lemma busy_insert ws w p q : ws !! w = Some p → busy (<[w := q]> ws) = busy ws - weight p + weight q.
Proof.
  revert w. induction ws as [|p' ws IH]; intros [|w]; cbn [lookup list_lookup]; [done|done| |].
  - intros [= ->]. unfold busy. cbn. lia.
  - intros Hw%IH. change (<[S w := q]> (p' :: ws)) with (p' :: <[w := q]> ws). unfold busy in *. cbn [foldr]. lia.
Qed.

(** What holds of the pairs: each job is offered once and taken at most once; the
    figures of the report count what became of them. *)
Record pairs_ok (s : run) : Prop := {
  po_rounds : 0 <= badRound (rn_counts s) ∧ badRound (rn_counts s) + busy (rn_workers s) <= pairs (rn_counts s);
  po_offered : offeredPairs (rn_counts s) = rn_seq s ∧ 0 <= droppedPairs (rn_counts s) ∧
    pairs (rn_counts s) + Z.of_nat (length (rn_jobs s)) + droppedPairs (rn_counts s) <= offeredPairs (rn_counts s);
  po_queue : StronglySorted Z.lt (rn_jobs s) ∧ Forall (λ j, j <= rn_seq s) (rn_jobs s);
  po_running : ∀ w p j, rn_workers s !! w = Some p → job_of p = Some j →
    j <= rn_seq s ∧ Forall (λ k, j < k) (rn_jobs s);
  po_once : ∀ w w' p p' j, rn_workers s !! w = Some p → rn_workers s !! w' = Some p' →
    job_of p = Some j → job_of p' = Some j → w = w'
}.

(** A worker that keeps its job or drops it keeps the jobs apart. *)
Lemma running_kept (ws : list phase) w p q (P : Z → Prop) :
  ws !! w = Some p → (∀ j, job_of q = Some j → job_of p = Some j) →
  (∀ w p j, ws !! w = Some p → job_of p = Some j → P j) →
  ∀ w' p' j, <[w := q]> ws !! w' = Some p' → job_of p' = Some j → P j.
Proof.
  intros Hw Hq HP w' p' j. rewrite list_lookup_insert_Some. intros [(-> & -> & _)|[_ Hw']] Hj; eauto.
Qed.

Lemma once_kept (ws : list phase) w p q :
  ws !! w = Some p → (∀ j, job_of q = Some j → job_of p = Some j) →
  (∀ w w' p p' j, ws !! w = Some p → ws !! w' = Some p' → job_of p = Some j → job_of p' = Some j → w = w') →
  ∀ w1 w2 p1 p2 j, <[w := q]> ws !! w1 = Some p1 → <[w := q]> ws !! w2 = Some p2 →
    job_of p1 = Some j → job_of p2 = Some j → w1 = w2.
Proof.
  intros Hw Hq Ho w1 w2 p1 p2 j. rewrite !list_lookup_insert_Some.
  intros [(<- & -> & _)|[? H1]] [(<- & -> & _)|[? H2]] J1 J2; eauto.
Qed.

(** A worker that is not busy may take the new job [n]. *)
Lemma once_taken (ws : list phase) w p q n :
  ws !! w = Some p → job_of q = Some n → (∀ w p j, ws !! w = Some p → job_of p = Some j → j < n) →
  (∀ w w' p p' j, ws !! w = Some p → ws !! w' = Some p' → job_of p = Some j → job_of p' = Some j → w = w') →
  ∀ w1 w2 p1 p2 j, <[w := q]> ws !! w1 = Some p1 → <[w := q]> ws !! w2 = Some p2 →
    job_of p1 = Some j → job_of p2 = Some j → w1 = w2.
Proof.
  intros Hw Hq Hlt Ho w1 w2 p1 p2 j. rewrite !list_lookup_insert_Some.
  intros [(<- & -> & _)|[? H1]] [(<- & -> & _)|[? H2]] J1 J2; [done| | |by eauto].
  - pose proof (Hlt _ _ _ H2 J2). rewrite Hq in J1. injection J1 as ->. lia.
  - pose proof (Hlt _ _ _ H1 J1). rewrite Hq in J2. injection J2 as ->. lia.
Qed.

Lemma record_pairs k lat code err cancelled c :
  let c' := record k lat code err cancelled c in
  pairs c' = pairs c ∧ badRound c' = badRound c ∧ offeredPairs c' = offeredPairs c ∧ droppedPairs c' = droppedPairs c.
Proof. cbv zeta. unfold record. repeat case_match; simplify_eq; done. Qed.

Lemma after_mask_spec seq text o lat over1 over2 c c' p :
  after_mask seq text o lat over1 over2 c = (c', p) →
  (requests_ok c → requests_ok c') ∧ offeredPairs c' = offeredPairs c ∧ droppedPairs c' = droppedPairs c ∧
  (∀ j, job_of p = Some j → j = seq) ∧ pairs c' <= pairs c ∧ badRound c <= badRound c' ∧
  badRound c' + weight p - badRound c <= 1 + (pairs c' - pairs c).
Proof.
  unfold after_mask. intros E. pose proof (record_ok kindMask lat (o_code o) (o_err o) (o_err o && over1) c) as Hr.
  destruct (record_pairs kindMask lat (o_code o) (o_err o) (o_err o && over1) c) as (Ep & Eb & Eo & Ed).
  set (r := record _ _ _ _ _ _) in *. clearbody r.
  repeat case_match; simplify_eq; cbn; split_and!; try lia; try done; try (intros Hc%Hr; destruct Hc; by split).
  intros j [= <-]. done.
Qed.

Lemma after_unmask_spec text o lat over1 over2 c :
  let c' := after_unmask text o lat over1 over2 c in
  (requests_ok c → requests_ok c') ∧ offeredPairs c' = offeredPairs c ∧ droppedPairs c' = droppedPairs c ∧
  pairs c' <= pairs c ∧ badRound c <= badRound c' ∧ badRound c' - badRound c <= 1 + (pairs c' - pairs c).
Proof.
  cbv zeta. unfold after_unmask.
  pose proof (record_ok kindUnmask lat (o_code o) (o_err o) (o_err o && over1) c) as Hr.
  destruct (record_pairs kindUnmask lat (o_code o) (o_err o) (o_err o && over1) c) as (Ep & Eb & Eo & Ed).
  set (r := record _ _ _ _ _ _) in *. clearbody r.
  repeat case_match; cbn; split_and!; try lia; try done; intros Hc%Hr; destruct Hc; by split.
Qed.

(** What holds of every state of a run. *)
Definition run_ok (s : run) : Prop := requests_ok (rn_counts s) ∧ pairs_ok s.

Lemma offer_ok capacity s : run_ok s → run_ok (offer capacity s).
Proof.
  intros [[Hs Hc Ho] [Hr (Hof & Hd & Hp) (Hq & Hqs) Hrun Hone]]. unfold offer.
  destruct (_ <? capacity); (split; [by split|]); split; cbn; rewrite ?length_app; cbn; try lia; try done.
  - split; [apply StronglySorted_app_cons; [done|]|].
    + eapply Forall_impl; [exact Hqs|]. intros j. cbn. lia.
    + apply Forall_app. split; [|by repeat constructor; lia]. eapply Forall_impl; [exact Hqs|]. intros j. cbn. lia.
  - intros w p j Hw Hj. destruct (Hrun w p j Hw Hj) as [? Hall]. split; [lia|]. apply Forall_app. split; [done|].
    constructor; [lia|constructor].
  - split; [done|]. eapply Forall_impl; [exact Hqs|]. intros j. cbn. lia.
  - intros w p j Hw Hj. destruct (Hrun w p j Hw Hj) as [? Hall]. split; [lia|done].
Qed.

(** A worker that was busy goes on with the same job or is done with it. *)
Lemma worker_ok w p q c s :
  rn_workers s !! w = Some p → (∀ j, job_of q = Some j → job_of p = Some j) → weight p = 1 →
  (requests_ok (rn_counts s) → requests_ok c) →
  offeredPairs c = offeredPairs (rn_counts s) → droppedPairs c = droppedPairs (rn_counts s) →
  pairs c <= pairs (rn_counts s) → badRound (rn_counts s) <= badRound c →
  badRound c + weight q - badRound (rn_counts s) <= 1 + (pairs c - pairs (rn_counts s)) →
  run_ok s → run_ok (set_worker w q (set_counts c s)).
Proof.
  intros Hw Hq Hp Hr Eo Ed Hpairs Hbad Hround [Hreq [(Hb & Hbp) (Hof & Hd & Hpo) Hque Hrun Hone]].
  split; [exact (Hr Hreq)|]. split; cbn.
  - rewrite (busy_insert _ _ _ _ Hw). lia.
  - lia.
  - done.
  - intros w' p' j. apply (running_kept _ _ _ _ (λ j, j <= rn_seq s ∧ Forall (λ k, j < k) (rn_jobs s)) Hw Hq Hrun).
  - exact (once_kept _ _ _ _ Hw Hq Hone).
Qed.

(** A worker that is not busy leaves, and takes a job with it or not. *)
Lemma leave_ok w jobs s :
  rn_workers s !! w = Some Idle → (∃ l, rn_jobs s = l ++ jobs) → run_ok s → run_ok (set_worker w Exited (set_jobs jobs s)).
Proof.
  intros Hw (l & Hl) [Hreq [(Hb & Hbp) (Hof & Hd & Hpo) (Hq & Hqs) Hrun Hone]]. split; [exact Hreq|].
  rewrite Hl in *. rewrite length_app in Hpo. split; cbn.
  - rewrite (busy_insert _ _ _ _ Hw). cbn. lia.
  - lia.
  - apply Forall_app in Hqs as [_ Hqs]. split; [|done]. clear -Hq. induction l as [|x l IH]; [done|].
    apply StronglySorted_inv in Hq as [Hq _]. auto.
  - intros w' p' j. apply (running_kept _ _ _ _ (λ j, j <= rn_seq s ∧ Forall (λ k, j < k) jobs) Hw); [done|].
    intros w1 p1 j1 H1 J1. destruct (Hrun _ _ _ H1 J1) as [? Hall]. by apply Forall_app in Hall as [_ ?].
  - by apply (once_kept _ _ _ _ Hw).
Qed.

Lemma take_ok w seq jobs text s :
  rn_workers s !! w = Some Idle → rn_jobs s = seq :: jobs → run_ok s →
  run_ok (set_worker w (Masking seq text) (set_jobs jobs (set_counts (add_pairs 1 (rn_counts s)) s))).
Proof.
  intros Hw Hj [[Hs Hc Ho] [(Hb & Hbp) (Hof & Hd & Hpo) (Hq & Hqs) Hrun Hone]]. rewrite Hj in *.
  apply StronglySorted_inv in Hq as [Hq Hlt]. apply Forall_cons in Hqs as [Hseq Hqs]. cbn [length] in Hpo.
  split; [by split|]. split; cbn.
  - rewrite (busy_insert _ _ _ _ Hw). cbn. lia.
  - lia.
  - done.
  - intros w' p' j. rewrite list_lookup_insert_Some. intros [(<- & <- & _)|[_ Hw']] Hj'.
    + injection Hj' as <-. done.
    + destruct (Hrun _ _ _ Hw' Hj') as [? Hall]. by apply Forall_cons in Hall as [_ ?].
  - apply (once_taken _ _ _ _ seq Hw); [done| |done]. intros w' p' j Hw' Hj'.
    destruct (Hrun _ _ _ Hw' Hj') as [_ Hall]. by apply Forall_cons in Hall as [? _].
Qed.

Lemma run_step_ok capacity retry texts s s' : run_step capacity retry texts s s' → run_ok s → run_ok s'.
Proof.
  intros Hstep Hok. destruct Hstep as [s|s due|s|s|s w seq jobs text Hw Hj _ _|s w seq jobs Hw Hj _|s w Hw Hj _
    |s w seq text world lat over1 over2 c p Hw _ _ Ha|s w seq text masked world lat over1 over2 Hw _ _].
  - destruct Hok as [? []]. by split.
  - destruct Hok as [? []]. by split.
  - by apply offer_ok.
  - destruct Hok as [? []]. by split.
  - by apply take_ok.
  - apply leave_ok; [done| |done]. by exists [seq].
  - pose proof (leave_ok w (rn_jobs s) s Hw ltac:(by exists []) Hok) as Hl. by destruct s.
  - apply after_mask_spec in Ha as (Hr & Eo & Ed & Hp & ? & ? & ?). apply (worker_ok w (Masking seq text)); try done.
    intros j Hj. cbn. by rewrite (Hp j Hj).
  - destruct (after_unmask_spec text (fst (sendWithRetry retry world)) lat over1 over2 (rn_counts s))
      as (Hr & Eo & Ed & ? & ? & ?). apply (worker_ok w (Unmasking seq text masked)); try done. cbn [weight job_of]. lia.
Qed.

Lemma busy_idle n : busy (replicate n Idle) = 0.
Proof. unfold busy. induction n as [|n IH]; [done|]. exact IH. Qed.

Lemma start_ok workers : run_ok (start workers).
Proof.
  assert (∀ w p, replicate workers Idle !! w = Some p → p = Idle) as Hidle by (by intros w p []%lookup_replicate).
  split; [by split|]. unfold start. split; cbn [rn_counts rn_workers rn_jobs rn_seq].
  - rewrite busy_idle. done.
  - done.
  - split; constructor.
  - by intros w p j ->%Hidle.
  - by intros w w' p p' j ->%Hidle.
Qed.

(** C40: the figures of the load report add up, in every interleaving of the generator,
    the workers and the end of the run: every request of a round is counted once, under
    one status code and one latency, and under at most one outcome; the pairs that
    workers took, the pairs still in the buffer and the dropped ones are among the
    offered ones; the failed rounds and the rounds under way are among the pairs
    taken; and no two workers are ever busy with the same job, so no two rounds share
    a payload id. *)
Theorem loadtest_counts capacity retry texts workers s :
  rtc (run_step capacity retry texts) (start workers) s → requests_ok (rn_counts s) ∧ pairs_ok s.
Proof.
  intros Hr. cut (run_ok (start workers) → run_ok s); [intros Hs; exact (Hs (start_ok workers))|].
  induction Hr as [s|s1 s2 s3 H12 _ IH]; [done|]. intros Hs. apply IH. by eapply run_step_ok.
Qed.

Lemma loadtest_counts_witness :
  ∃ s, rtc (run_step 4 false [go_bytes "+7 916"]) (start 1) s ∧ pairs (rn_counts s) = 1 ∧ badRound (rn_counts s) = 1 ∧
    requests_ok (rn_counts s) ∧ pairs_ok s.
Proof.
  set (t := go_bytes "+7 916"). set (w := λ _ : nat, (Response 429 None, false)).
  assert (∃ s, rtc (run_step 4 false [t]) (start 1) s ∧ pairs (rn_counts s) = 1 ∧ badRound (rn_counts s) = 1) as (s & Hr & Hp & Hb).
  { eexists. split.
    - eapply rtc_l; [by apply (step_tick _ _ _ _ 1)|]. eapply rtc_l; [by apply step_offer|].
      eapply rtc_l; [apply (step_take _ _ _ _ 0 1 [] t); [done|done|done|left]|].
      eapply rtc_l; [apply (step_masked _ _ _ _ 0 1 t w 5 false false); done|]. apply rtc_refl.
    - split; reflexivity. }
  exists s. destruct (loadtest_counts 4 false [t] 1 s Hr) as [Hq Hps].
  exact (conj Hr (conj Hp (conj Hb (conj Hq Hps)))).
Defined.
