(* ===== verification/Contract.v ===== *)
(** * The contract that the load generator checks

    A round of [loadtest] sends a text to [/process] and then what came back, under one
    payload id, and expects the text again. Here the round of [Loadtest] runs against the
    service of [Service] with the engine and the store of the program. *)

From S2P Require Import Prelude GoText Float64 Pii Mask Strategies Pipeline Synth Crypto Store Chunk Engine Citizenship.
From S2P Require Import Main System Safety Config Http Chat Service Program Loadtest.

Section Round.
Context `{Unicode} `{SliceSort} `{Sha256} `{MapRange} `{ChunkJson} (s : Http.Server) (c : LLMClient) (getenv : bytes → bytes).







End Round.


Section Restored.
Context `{Unicode} `{SliceSort} `{Sha256} `{MapRange} (e : Engine) (hash : bytes → bytes).

End Restored.





